(* ===== verification/_CoqProject ===== *)
-Q . S2P
Prelude.v
Text.v
Testing.v
Externals.v
Instances.v
Ids.v
Vpn.v
Json.v
Timestamp.v
Contract.v
GatewaySync.v
Serde.v
Wire.v
GatewayRuns.v
PolicyTests.v
AuthTypes.v
AuthStore.v
Database.v
PgDriver.v
PgStore.v
PgSafety.v
StoreTypes.v
PgBehaviour.v
StoreSecurity.v
Overlay.v
Transactions.v
Concurrency.v
Promises.v
ConcurrentSafety.v
ConcurrentBootstrap.v
ConcurrentSessions.v
ConcurrentLive.v
SerialRuns.v
AuthService.v
Interleaving.v
SessionSpec.v
PgSessions.v
FakeStore.v
AuthTests.v
StoreAgreement.v
Webauthn.v
Http.v
Bodies.v
Traffic.v
InterleavedRequests.v
RequestsAtOnce.v
Shutdown.v
Cli.v
ServerTests.v
AuthScenario.v
SessionScenario.v
ServerScenario.v
ConcurrentScenario.v
BodiesScenario.v
