(* ===== verification/Prelude.v ===== *)
(** * rs-console: a verification development

    rs-console is a self-hosted control plane.  Its core is a library of two halves, which meet in
    the account identifiers they share:

    - the policy half ([policy/], [api/]): which WireGuard peers exist, under which addresses, keys
      and permissions, and how a gateway is brought to that state by polling and
      acknowledging digests of manifests;
    - the authentication half ([auth/], [server/]): passkey
      registration and login for human users and operators, sessions with anti-forgery tokens,
      one-use capabilities and ceremonies, recovery and break-glass, over PostgreSQL, behind two
      HTTP routers (public and private) and a command line.

    The definitions translate the source function by function, effects included: fallible code
    returns [result], code that may panic returns [outcome], stateful code is a function on an
    explicit state.  Everything the third-party crates do is a parameter (a class in
    [Externals.v], [AuthStore.v], [Webauthn.v] or [Http.v], with its documented facts beside it), and every theorem holds
    for all of its implementations.  Below, paths are relative to [src/].

    ** The files

    Shared foundations:
    - [Prelude.v] (this file): [result], [outcome], the state-and-error monad [M], their
      notations, the hint database [console], and generic lemmas on lists, maps and options.
    - [Text.v]: what the code uses of [str], [char] and [u8]; strings are their UTF-8 bytes.
    - [Testing.v]: the assertions of the unit tests; a test is a computation that [passes].
    - [Externals.v]: base64, SHA-256 and the text of JSON strings and floats, as classes with laws.
    - [Instances.v]: RFC 4648, the escaping of serde_json and FIPS 180-4 as instances of those
      classes, with the laws proved.  Only witnesses, test vectors and [PolicyTests.v] use them.

    The policy half:
    - [Ids.v] ([policy/src/vpn.rs], [policy/src/error.rs]): identifiers, keys, overlay addresses,
      generations (64 bits, whose successor panics at the end) and their validating constructors.
    - [Vpn.v] ([policy/src/vpn.rs]): [VpnPolicy] as a record of a generation and a map of peers,
      and [enroll], [set_games], [rotate_key], [revoke], [peers]; a history is a list of
      [policy_call]s.
    - [Json.v], [Timestamp.v] ([policy/src/contract.rs]): the canonical JSON writer and the
      byte-level validator of time stamps.
    - [Contract.v] ([policy/src/contract.rs]): manifests and digests, state reports, deliveries,
      acknowledgements, a Module per struct.
    - [GatewaySync.v] ([api/src/lib.rs]): [poll] and [acknowledge] over the class
      [GatewayStateStore], the abstract answer [poll_answer] they refine, and the in-memory store
      as an instance of the class and of its laws.
    - [Serde.v]: reading JSON values into types.  [SerdeDe] is what the derived code does, [Wire A] a type that is
      written and read, [WireLaws A] that both agree.  [Wire.v] ([policy/src/vpn.rs],
      [policy/src/contract.rs]): the instances for every type of the contract, with the reading by hand
      of the newtypes, and reconciliation with its messages in JSON.
    - [GatewayRuns.v] ([api/src/lib.rs]): threads that acknowledge at once over the in-memory store; a [move] is a
      change of a desired manifest, the arrival of an acknowledgement, or one of its two steps under a lock.
    - [PolicyTests.v]: the unit tests of these two crates, as programs.

    The authentication half:
    - [AuthTypes.v], [AuthStore.v] ([auth/src/lib.rs]): the data, and the traits [AuthStore] and
      [CeremonyEngine] as classes.
    - [Database.v] ([server/migrations/0001_human_auth.sql]): the tables as finite maps, insertion
      under the constraints of the schema, the schema as the invariant [db_wf], and [evolves],
      which says that nothing of the past is undone.
    - [PgDriver.v]: connections.  Each round trip has a verdict from a list the environment chooses
      (delivered, lost before execution, or executed with its answer lost); a transaction
      works on a copy that only a commit publishes.  [safe], [atomic] and their transaction
      versions are the properties that compose along [bind].
    - [PgStore.v] ([server/src/repository.rs]): rows and their conversions, each SQL statement as a
      function on the tables, the 23 operations in Module [PgAuthStore], and the instance
      [pg_auth_store] of the class.
    - [PgSafety.v]: every operation is safe and atomic; [step] is the relation between worlds that
      executions follow: the program performs a [store_call], the environment moves the
      server's clock and sets the faults to come.
    - [StoreTypes.v]: the types of the operations: what their answers satisfy over any database, and
      which errors they raise ([typed] composes along [bind]).
    - [PgBehaviour.v]: what a successful operation did, by inversion of its statements.
    - [StoreSecurity.v]: guarantees over executions, from the two files before.
    - [Transactions.v] ([server/src/repository.rs]): the operations once more, as scripts: the tree of
      the statements of a transaction, with its locks.  Played alone, a script is the operation
      of [PgStore.v] ([plans_are_calls]).
    - [Overlay.v]: what an open transaction has written and what it sees.  [Concurrency.v]: the
      server under read committed, a list of open transactions over what is published; a [move] is
      the beginning of a call, a statement, the advisory lock, a commit, a broken connection or
      the drop of a transaction, and is possible when no other transaction makes it wait; [run] follows
      a list of moves.  [Promises.v]: rely-guarantee reasoning about one script among others.
    - [ConcurrentSafety.v], [ConcurrentBootstrap.v], [ConcurrentSessions.v], [ConcurrentLive.v]: guarantees over runs;
      [SerialRuns.v]: every execution by [step] is a run.
    - [AuthService.v] ([auth/src/lib.rs]): the operations of [AuthService], generic in the store, the
      engine and the randomness, and their properties over the PostgreSQL store.  Where the
      service and the store give an operation one name, the service's is prefixed [service_].
    - [Interleaving.v]: the same operations over [Shared], the world of the store with a schedule of
      other clients' calls that happen before each call of the operation under study.
    - [SessionSpec.v]: the abstract specification of sessions ([Spec], [spec_step]) and the class
      [SessionStore] of what a store promises it; [PgSessions.v] and [FakeStore.v] discharge the
      class, for the PostgreSQL store in a world without faults and for the test double.
    - [FakeStore.v] ([auth/src/lib.rs], [mod tests]): [FakeEngine], and [FakeStore] with its 23
      methods under their lock, hash maps with an unspecified order.
    - [StoreAgreement.v]: the two stores answer alike; [AuthTests.v]: the unit tests of the crate.

    The server:
    - [Webauthn.v] ([server/src/webauthn.rs]): [WebauthnEngine] over an interface of webauthn-rs, and
      as an instance of [CeremonyEngine].
    - [Http.v] ([server/src/http.rs]): Module [Handlers] has a definition per handler and per check of
      headers and cookies; [request] lists the endpoints with the inputs axum extracts, [route] their
      paths, [public_router] and [private_router] the two inventories, and [Handlers.serve]
      dispatches, with the fallback and the no-store layer; [cors] is the configuration of the layer.
    - [Bodies.v] ([server/src/http.rs]): what the derived [Deserialize] of each request body reads.
    - [Traffic.v]: runs of the server, any sequence of requests on its two listeners ([served]), and
      the views of the database that requests keep: [authority], what only an operator may
      change, [operator_ceremonies], and the sessions' [logins].
    - [InterleavedRequests.v]: the handlers over [Shared], a request whose calls are interleaved
      with any calls of others.  [RequestsAtOnce.v]: runs of both listeners that serve any
      number of requests at once, beside maintenance commands ([at_once]).
    - [Shutdown.v] ([server/src/main.rs]): the rest of [serve], its signals and the end of both
      listeners, over a class for what tokio and axum do.
    - [Cli.v] ([server/src/main.rs]): Module [Commands], [main] after its arguments are parsed, [serve]
      up to the routers it runs, and the maintenance commands with their guards.
    - [ServerTests.v]: the unit tests of the server's three modules.
    - [AuthScenario.v], [SessionScenario.v], [ServerScenario.v], [ConcurrentScenario.v], [BodiesScenario.v]: one concrete
      history, from an empty database, a day of requests, and runs with transactions that wait for each
      other, on which the witnesses of the properties evaluate.

    ** What the theorems show

    - The peer policy: identifiers, keys and addresses stay unique, addresses stay in the pool,
      the generation identifies the policy, calls touch only their peer, and [enroll] is
      described on every branch ([Vpn.policy_invariant], [generation_identifies_policy],
      [calls_are_local], [enroll_complete]).
    - Manifests: canonical JSON identifies a value up to the order of entries, so a digest
      identifies a manifest up to a SHA-256 collision; construction accepts exactly what it should
      ([Json.canonical_text_identifies], [Contract.digest_identifies_manifest],
      [policy_manifest], [manifest_accepts_iff],
      [Timestamp.timestamp_accepts_calendar_instants]).
    - Reconciliation: [poll] refines its specification, an acknowledgement is recorded exactly when
      it is for the delivery now desired, a round converges, and a change of the policy reaches
      the gateway ([GatewaySync.poll_refines] and the three theorems after it).  Every message is read from
      any reordering of its JSON, what is read is valid and spells what is written
      ([Wire.wire_faithful]), so a round converges over the wire ([Wire.reconciliation_over_wire]).  Whatever
      acknowledgements run at once, what is recorded was desired and acknowledged
      ([GatewayRuns.recorded_was_desired]).
    - The store: schema and history are kept by every execution with faults, and a failed operation
      changes nothing ([PgSafety]).  Over any later execution a ceremony and a capability are used
      once, a session never outlives its absolute expiry nor a logout, an invalidation cuts an
      account off, a recovery is issued once ([StoreSecurity]).
    - Transactions at once: in every run of the server whose moves interleave the statements of any
      number of transactions, the schema and the history are kept and nothing is used twice
      ([ConcurrentSafety]); the advisory lock makes bootstraps exclude each other
      ([ConcurrentBootstrap]); a committed invalidation is final for every session with an epoch
      read before it, whenever that login commits, and the row lock keeps a session live from its check
      to the commit ([ConcurrentSessions]); what justifies a call is published and still good, unexpired and
      in its right state, when the call commits ([ConcurrentLive]).  The serial executions of the group before are
      among these runs ([SerialRuns.serial_executions_are_runs]).
    - The calls of the store are typed: what they answer satisfies the invariants of its newtypes
      whatever the tables hold, and they raise only the errors of their list ([StoreTypes]).
    - The service: logins and anti-forgery tokens work and are checked exactly; registrations start
      only from a capability or from the operator's bootstrap; seeding is described on
      every branch ([AuthService]).  A login loses every race with an invalidation of its account
      ([Interleaving]).  Over every store that keeps the promises of [SessionStore] the
      service refines the specification of sessions ([SessionSpec]), so over the PostgreSQL store and
      over the test double it gives the same answers ([StoreAgreement]).
    - The server: POST requests from elsewhere do nothing, operator routes are on the private
      router only and act only for a live operator session with its anti-forgery token, and a refusal
      leaves no trace but the last sight of the session presented, the cookie and token of a
      login work until they expire or log out, and the cookie parser is exact ([Http]).  In every run of
      both listeners what only an operator may change changes only through a request that an
      operator authorised ([Cli.privilege_needs_operator]), the public listener never touches the
      ceremonies of operators, and only it opens sessions ([Traffic]).  The same
      holds when requests are served at once, call by call: an operator's decision rests on a session that was an
      operator's at some moment of that very request ([RequestsAtOnce.requests_at_once_confined]).  A
      server ends on a signal only, and once it has drained ([Shutdown]).  With the real engine no session
      exists without the library's verification of the account's own credential ([Webauthn]);
      a ceremony that a start answered is the one that its finish reads from JSON ([Bodies]);
      commands do nothing unless enabled and confirmed, and break-glass windows are bounded ([Cli]).
    - The unit tests pass, for every instant, randomness and order of hash maps ([AuthTests],
      [PolicyTests], [ServerTests]); the one that reads its own source passes whatever the rest of it
      says ([ServerTests.repository_test_reads_itself]).
    - Round trips of addresses and tokens.
    - Four theorems state defects: [StoreSecurity.rotate_all_needs_wide_integers] (the statement's
      [INT4] column is read as [i64], which sqlx refuses) and
      [AuthService.concurrent_seeding_two_operators] (the check that no operator exists and the
      insertion are separate), [GatewayRuns.late_acknowledgement_overwrites] (an acknowledgement that was
      compared before a newer one was recorded overwrites it), and the last parts of [Shutdown.server_stops_on_signal] (a handler for
      Ctrl-C that cannot be installed stops the server).

    ** Bounds and choices

    Recursions are structural, but for [Ids.Ipv4Addr.read_digits] and [Text.drop_while_white], whose
    fuel is the length of the text they read, and each step reads at least one byte; for the
    second, [Text.trim_exact] proves that more fuel changes nothing.  Widths:
    generations are 64-bit with their panic, hosts are 2 to 254, epochs are [bigint] with
    PostgreSQL's out-of-range error, digests and tokens are 32 bytes, [len] counts bytes.
    Instants are microseconds, the resolution of [timestamptz]: an instant the program holds at
    a finer resolution is compared by the database at this one; overflow of chrono's instants is
    out of scope.  UUIDs are 128-bit values.  Rows that tie in an [ORDER BY] come in the order
    of the map, one of those PostgreSQL may choose.  SQL statements are read as the language
    defines them on the tables of the schema; their types are those of the columns.
    The driver's one doubtful fact, whether it decodes [INT4] as [i64], is a boolean parameter.

    ** Not modelled

    What is left out is the libraries', pure input and output, or text without behaviour:

    - axum's routing and rejections (a wrong method, the answer to a body that [Bodies.v] does not read), the
      parsing of JSON texts into values, what the CORS layer does with its configuration, argument parsing, sockets and
      logging: what is modelled starts from JSON values and parsed arguments.
    - webauthn-rs itself: the class [Webauthn.WebauthnLib] assumes no law of it.  Starting a ceremony
      takes a seed drawn from the world, since its challenge is random.
    - In [Concurrency.v] a statement takes effect at one moment, on everything it writes.  PostgreSQL
      locks the rows of a statement one by one and evaluates a statement that has waited again on
      the newest version of the row it waited for, with the other tables as they were when it
      started.  Foreign keys' share locks are not kept; no row is ever deleted, so what they refer to
      stays.  A deadlock is a wait that [Broken] ends.  Reads outside of transactions are not
      moves, for they change nothing; audit rows are in the order of commits.
    - Requests at once are interleaved at their calls of the store ([RequestsAtOnce.v]), transactions at
      their statements ([Concurrency.v]); the two are not composed into one relation.  What others do
      between two calls of a request is any events that lead to what its next call finds.
    - The test double ignores what its tests do not exercise (whether an account is enabled, the
      revocation of credentials, the single approval of a recovery), and agrees with the
      PostgreSQL store on sessions while every account is enabled.  Its epochs are exact below the
      64-bit limit.
    - What PostgreSQL refuses beyond the schema (a zero byte in a text, the normalisation of
      [jsonb]), connection and migration at start-up but for their possible failure, derived Debug
      formats, constant-time comparison. *)
From Stdlib Require Export ZArith Lia Ascii String.
From stdpp Require Export base tactics list gmap strings pretty sorting.
Export ListNotations.

#[global] Set Default Goal Selector "!".
#[global] Open Scope Z_scope.

(** ** Fallible code: Rust's [Result] *)

Inductive result (A E : Type) : Type :=
| Ok (a : A)
| Err (e : E).
Arguments Ok {A E} a.
Arguments Err {A E} e.

#[export] Instance result_eq_dec `{EqDecision A, EqDecision E} : EqDecision (result A E).
Proof. solve_decision. Defined.

Definition rbind {A B E} (r : result A E) (k : A → result B E) : result B E :=
  match r with Ok a => k a | Err e => Err e end.

Definition rmap {A B E} (f : A → B) (r : result A E) : result B E :=
  match r with Ok a => Ok (f a) | Err e => Err e end.

Definition map_err {A E F} (f : E → F) (r : result A E) : result A F :=
  match r with Ok a => Ok a | Err e => Err (f e) end.

Definition ok_or {A E} (o : option A) (e : E) : result A E :=
  match o with Some a => Ok a | None => Err e end.

Definition ok {A E} (r : result A E) : option A :=
  match r with Ok a => Some a | Err _ => None end.

Definition is_ok {A E} (r : result A E) : bool :=
  match r with Ok _ => true | Err _ => false end.

(** [Option<Result<A, E>>::transpose]. *)
Definition transpose {A E} (o : option (result A E)) : result (option A) E :=
  match o with
  | Some (Ok a) => Ok (Some a)
  | Some (Err e) => Err e
  | None => Ok None
  end.

(** [collect::<Result<Vec<_>, _>>()]: the first error wins. *)
Fixpoint collect {A E} (rs : list (result A E)) : result (list A) E :=
  match rs with
  | [] => Ok []
  | r :: rs => rbind r (λ a, rmap (cons a) (collect rs))
  end.

(** [try?] is the postfix question mark of the source. *)
Declare Scope result_scope.
Delimit Scope result_scope with result.
Notation "'try?' x ':=' r 'in' k" := (rbind r (λ x, k))
  (at level 10, x pattern, r at level 100, k at level 200,
   format "'[v' 'try?'  x  ':='  r  'in' '/' k ']'") : result_scope.
#[global] Open Scope result_scope.

Lemma rbind_Ok {A B E} (r : result A E) (k : A → result B E) b :
  rbind r k = Ok b ↔ ∃ a, r = Ok a ∧ k a = Ok b.
Proof. destruct r; naive_solver. Qed.

Lemma rbind_Err {A B E} (r : result A E) (k : A → result B E) e :
  rbind r k = Err e ↔ r = Err e ∨ ∃ a, r = Ok a ∧ k a = Err e.
Proof. destruct r; naive_solver. Qed.

Lemma ok_or_Ok {A E} (o : option A) (e : E) a : ok_or o e = Ok a ↔ o = Some a.
Proof. destruct o; naive_solver. Qed.

Lemma collect_Ok {A B E} (f : A → result B E) (g : A → B) l :
  (∀ a, a ∈ l → f a = Ok (g a)) → collect (f <$> l) = Ok (g <$> l).
Proof.
  induction l as [|a l IH]; intros Hf; [done|].
  csimpl. rewrite (Hf a) by set_solver. simpl.
  rewrite IH by set_solver. done.
Qed.

Lemma collect_elem {A E} (rs : list (result A E)) l a : collect rs = Ok l → a ∈ l → Ok a ∈ rs.
Proof.
  revert l. induction rs as [|r rs IH]; intros l; simpl; [by intros [= <-] ?%not_elem_of_nil|].
  destruct r as [b|e]; simpl; [|done]. destruct (collect rs) as [l'|e]; simpl; [|done].
  intros [= <-] [->|Ha]%elem_of_cons; [apply list_elem_of_here|].
  apply list_elem_of_further. by eapply IH.
Qed.

(** ** Calls that can panic *)

(** What a call did: it returned a [Result], or it panicked. *)
Inductive outcome (A E : Type) : Type :=
| Returned (r : result A E)
| Panicked.
Arguments Returned {A E} r.
Arguments Panicked {A E}.

Definition obind {A B E} (c : outcome A E) (k : A → outcome B E) : outcome B E :=
  match c with
  | Returned (Ok a) => k a
  | Returned (Err e) => Returned (Err e)
  | Panicked => Panicked
  end.

Definition omap_err {A E F} (f : E → F) (c : outcome A E) : outcome A F :=
  match c with Returned r => Returned (map_err f r) | Panicked => Panicked end.

(** ** Stateful fallible code: a world passed through every call *)

Definition M (W E A : Type) : Type := W → result A E * W.

Section monad.
Context {W E : Type}.

Definition ret {A} (a : A) : M W E A := λ w, (Ok a, w).
Definition throw {A} (e : E) : M W E A := λ w, (Err e, w).
Definition bind {A B} (c : M W E A) (k : A → M W E B) : M W E B :=
  λ w, match c w with
       | (Ok a, w') => k a w'
       | (Err e, w') => (Err e, w')
       end.
(** A pure fallible computation run inside the stateful one. *)
Definition lift {A} (r : result A E) : M W E A := λ w, (r, w).

Lemma bind_ret_l {A B} (a : A) (k : A → M W E B) w : bind (ret a) k w = k a w.
Proof. done. Qed.

Lemma bind_Ok {A B} (c : M W E A) (k : A → M W E B) w b w' :
  bind c k w = (Ok b, w') ↔ ∃ a w1, c w = (Ok a, w1) ∧ k a w1 = (Ok b, w').
Proof. unfold bind. destruct (c w) as [[]]; naive_solver. Qed.

Lemma bind_Err {A B} (c : M W E A) (k : A → M W E B) w e w' :
  bind c k w = (Err e, w') ↔
  c w = (Err e, w') ∨ ∃ a w1, c w = (Ok a, w1) ∧ k a w1 = (Err e, w').
Proof. unfold bind. destruct (c w) as [[]]; naive_solver. Qed.

End monad.

Notation "'let!' x ':=' c 'in' k" := (bind c (λ x, k))
  (at level 10, x pattern, c at level 100, k at level 200,
   format "'[v' 'let!'  x  ':='  c  'in' '/' k ']'") : result_scope.
Notation "'do!' c 'in' k" := (bind c (λ _, k))
  (at level 10, c at level 100, k at level 200,
   format "'[v' 'do!'  c  'in' '/' k ']'") : result_scope.

(** ** Tactics of the development *)

(** Splits every hypothesis of the shape [_ = Ok _] over the binds of the code. *)
Ltac inv_ok :=
  repeat match goal with
  | H : rbind _ _ = Ok _ |- _ => apply rbind_Ok in H as (? & ? & ?)
  | H : bind _ _ _ = (Ok _, _) |- _ => apply bind_Ok in H as (? & ? & ? & ?)
  | H : ok_or _ _ = Ok _ |- _ => apply ok_or_Ok in H
  | H : Ok _ = Ok _ |- _ => injection H as H
  | H : Err _ = Ok _ |- _ => discriminate H
  | H : Ok _ = Err _ |- _ => discriminate H
  | H : ret _ _ = (_, _) |- _ => unfold ret in H
  | H : throw _ _ = (_, _) |- _ => unfold throw in H
  | H : lift _ _ = (_, _) |- _ => unfold lift in H
  | H : (_, _) = (_, _) |- _ => injection H as ? ?
  end; simplify_eq/=.

(** Turns the boolean guards of the code into propositions. *)
Ltac bool_prop :=
  repeat match goal with
  | H : (_ && _)%bool = true |- _ => apply andb_true_iff in H as [? ?]
  | H : (_ || _)%bool = false |- _ => apply orb_false_iff in H as [? ?]
  | H : negb _ = true |- _ => apply negb_true_iff in H
  | H : negb _ = false |- _ => apply negb_false_iff in H
  | H : bool_decide _ = true |- _ => apply bool_decide_eq_true in H
  | H : bool_decide _ = false |- _ => apply bool_decide_eq_false in H
  | H : (_ =? _) = true |- _ => apply Z.eqb_eq in H
  | H : (_ =? _) = false |- _ => apply Z.eqb_neq in H
  | H : (_ <=? _) = true |- _ => apply Z.leb_le in H
  | H : (_ <=? _) = false |- _ => apply Z.leb_gt in H
  | H : (_ <? _) = true |- _ => apply Z.ltb_lt in H
  | H : (_ <? _) = false |- _ => apply Z.ltb_ge in H
  end.

(** Unfolds a [Forall] over an explicit list and proves every element's statement. *)
Ltac solve_Forall tac :=
  rewrite ?Forall_cons; repeat match goal with |- _ ∧ _ => split end;
  try apply Forall_nil_2; tac.

(** ** Lists *)

Section lists.
Context {A : Type}.
Implicit Types (l : list A) (f : A → bool).

Lemma existsb_elem f l : existsb f l = true ↔ ∃ x, x ∈ l ∧ f x = true.
Proof. rewrite existsb_exists. by setoid_rewrite list_elem_of_In. Qed.

Lemma existsb_none f l : existsb f l = false ↔ ∀ x, x ∈ l → f x = false.
Proof.
  split.
  - intros H x Hx. destruct (f x) eqn:E; [|done].
    assert (existsb f l = true) by (apply existsb_elem; eauto). congruence.
  - intros H. destruct (existsb f l) eqn:E; [|done].
    apply existsb_elem in E as (x & ? & ?). rewrite H in *; done.
Qed.

Lemma forallb_elem f l : forallb f l = true ↔ ∀ x, x ∈ l → f x = true.
Proof. rewrite forallb_forall. by setoid_rewrite list_elem_of_In. Qed.

Lemma find_elem f l x : find f l = Some x → x ∈ l ∧ f x = true.
Proof. intros H. apply find_some in H. by rewrite list_elem_of_In. Qed.

Lemma find_is_none f l : find f l = None ↔ ∀ x, x ∈ l → f x = false.
Proof.
  split.
  - intros H x Hx. eapply find_none; [done|]. by apply list_elem_of_In.
  - intros H. induction l as [|y l IH]; [done|]. simpl.
    rewrite H by set_solver. apply IH. set_solver.
Qed.

End lists.

Lemma Forall2_impl_elem {A B} (P Q : A → B → Prop) l k :
  Forall2 P l k → (∀ x y, x ∈ l → y ∈ k → P x y → Q x y) → Forall2 Q l k.
Proof. induction 1; intros HPQ; constructor; set_solver. Qed.

Lemma Forall2_map_eq {A B} (f : A → B) l k : f <$> l = f <$> k ↔ Forall2 (λ x y, f x = f y) l k.
Proof. by rewrite list_eq_Forall2, Forall2_fmap. Qed.

(** Duplicate detection with a [HashSet]: [insert] answers whether the value was new. *)
Fixpoint hashset_insert_all {K} `{Countable K} (seen : gset K) (ks : list K) : bool :=
  match ks with
  | [] => true
  | k :: ks => if decide (k ∈ seen) then false else hashset_insert_all ({[k]} ∪ seen) ks
  end.

Lemma hashset_insert_all_spec {K} `{Countable K} (ks : list K) :
  ∀ seen : gset K,
  hashset_insert_all seen ks = true ↔ NoDup ks ∧ ∀ k, k ∈ ks → k ∉ seen.
Proof.
  induction ks as [|k ks IH]; intros seen; simpl.
  { split; [|done]. intros _. split; [constructor|set_solver]. }
  case_decide as Hk.
  { split; [done|]. intros [_ Hd]. exfalso. apply (Hd k); set_solver. }
  rewrite IH, NoDup_cons. set_solver.
Qed.

(** ** Ordered maps: [BTreeMap<String, V>] *)

(** A [BTreeMap] keyed by strings is a [gmap]; its iterators go through the keys in byte order. *)
Definition key_le {V} (x y : string * V) : Prop := String.le x.1 y.1.

#[export] Instance key_le_dec {V} : RelDecision (@key_le V).
Proof. intros x y. unfold key_le. apply _. Defined.
#[export] Instance key_le_total {V} : Total (@key_le V).
Proof. intros x y. apply (String.le_total x.1 y.1). Qed.
#[export] Instance key_le_trans {V} : Transitive (@key_le V).
Proof. intros x y z. unfold key_le. apply transitivity. Qed.

Definition btree_entries {V} (m : gmap string V) : list (string * V) :=
  merge_sort key_le (map_to_list m).
Definition btree_values {V} (m : gmap string V) : list V := (btree_entries m).*2.

Section btree.
Context {V : Type}.
Implicit Types (m : gmap string V).

Lemma btree_entries_perm m : btree_entries m ≡ₚ map_to_list m.
Proof. apply merge_sort_Permutation. Qed.

Lemma btree_entries_sorted m : StronglySorted key_le (btree_entries m).
Proof. apply StronglySorted_merge_sort; apply _. Qed.

Lemma elem_of_btree_entries m k v : (k, v) ∈ btree_entries m ↔ m !! k = Some v.
Proof. rewrite btree_entries_perm. apply elem_of_map_to_list. Qed.

Lemma elem_of_btree_values m v : v ∈ btree_values m ↔ ∃ k, m !! k = Some v.
Proof.
  unfold btree_values. rewrite list_elem_of_fmap. split.
  - intros ([k v'] & -> & Hin). exists k. by apply elem_of_btree_entries.
  - intros [k Hk]. exists (k, v). split; [done|]. by apply elem_of_btree_entries.
Qed.

Lemma btree_values_length m : length (btree_values m) = size m.
Proof.
  unfold btree_values. rewrite length_fmap, btree_entries_perm. apply length_map_to_list.
Qed.

(** A projection injective on the values of the map has no duplicate along the iterator. *)
Lemma btree_values_NoDup {B} (f : V → B) m :
  (∀ k1 k2 v1 v2, m !! k1 = Some v1 → m !! k2 = Some v2 → f v1 = f v2 → k1 = k2) →
  NoDup (f <$> btree_values m).
Proof.
  intros Hinj. unfold btree_values. rewrite <- list_fmap_compose.
  rewrite (btree_entries_perm m).
  apply NoDup_fmap_2_strong; [|apply NoDup_map_to_list].
  intros [k1 v1] [k2 v2] H1%elem_of_map_to_list H2%elem_of_map_to_list ?; simpl in *.
  assert (k1 = k2) as -> by eauto. naive_solver.
Qed.

End btree.

(** ** Hints shared by the components *)

Create HintDb console discriminated.
#[export] Hint Resolve elem_of_btree_entries btree_entries_sorted btree_entries_perm : console.
