(* ===== verification/Text.v ===== *)
(** * Text: the part of Rust's [str], [char], [u8] and formatting API the program uses

    A Rust string is a [string] of bytes (its UTF-8 encoding), so [len] counts bytes.
    Character tests of the program accept ASCII characters only; on the bytes of a
    non-ASCII character every one of them is false, so testing bytes is testing characters. *)
From S2P Require Export Prelude.

Abbreviation bytes := list_ascii_of_string.
Abbreviation from_bytes := string_of_list_ascii.

Definition byte (c : ascii) : Z := Z.of_N (N_of_ascii c).
Definition char (z : Z) : ascii := ascii_of_N (Z.to_N z).

Definition len (s : string) : Z := Z.of_nat (String.length s).

(** ** Character classes *)

Definition is_ascii_digit (c : ascii) : bool := (48 <=? byte c) && (byte c <=? 57).
Definition is_ascii_alphabetic (c : ascii) : bool :=
  ((65 <=? byte c) && (byte c <=? 90)) || ((97 <=? byte c) && (byte c <=? 122)).
Definition is_ascii_alphanumeric (c : ascii) : bool :=
  is_ascii_digit c || is_ascii_alphabetic c.

(** ** Prefixes, suffixes and searching *)

Fixpoint strip_prefix_bytes (p l : list ascii) : option (list ascii) :=
  match p, l with
  | [], _ => Some l
  | _ :: _, [] => None
  | a :: p, b :: l => if Ascii.eqb a b then strip_prefix_bytes p l else None
  end.

Definition strip_prefix (p s : string) : option string :=
  from_bytes <$> strip_prefix_bytes (bytes p) (bytes s).

Definition strip_suffix (p s : string) : option string :=
  (λ l, from_bytes (rev l)) <$> strip_prefix_bytes (rev (bytes p)) (rev (bytes s)).

Definition ends_with_char (c : ascii) (s : string) : bool :=
  match last (bytes s) with Some d => Ascii.eqb d c | None => false end.

Definition contains_char (c : ascii) (s : string) : bool :=
  existsb (Ascii.eqb c) (bytes s).

(** [str::starts_with] and [str::contains]. *)
Definition starts_with (p s : string) : bool := negb (bool_decide (strip_prefix p s = None)).

Fixpoint contains_bytes (p l : list ascii) : bool :=
  match strip_prefix_bytes p l with
  | Some _ => true
  | None => match l with [] => false | _ :: l => contains_bytes p l end
  end.

Definition contains (p s : string) : bool := contains_bytes (bytes p) (bytes s).

(** [str::split] on one ASCII separator. *)
Fixpoint split_bytes (c : ascii) (l : list ascii) : list (list ascii) :=
  match l with
  | [] => [[]]
  | a :: l =>
      if Ascii.eqb a c then [] :: split_bytes c l
      else match split_bytes c l with
           | [] => [[a]]
           | w :: ws => (a :: w) :: ws
           end
  end.

Definition split_char (c : ascii) (s : string) : list string :=
  from_bytes <$> split_bytes c (bytes s).

(** ** [str::trim]: Unicode [White_Space] at both ends

    The number of bytes of the white-space character a byte list starts with
    (in reading order for the start of the text, reversed for its end). *)
Definition white_space_start (l : list Z) : option nat :=
  match l with
  | a :: l1 =>
      if ((9 <=? a) && (a <=? 13)) || (a =? 32) then Some 1%nat
      else match l1 with
      | b :: l2 =>
          if (a =? 194) && ((b =? 133) || (b =? 160)) then Some 2%nat
          else match l2 with
          | c :: _ =>
              if ((a =? 225) && (b =? 154) && (c =? 128))
                 || ((a =? 226) && (b =? 128) &&
                     (((128 <=? c) && (c <=? 138)) || (c =? 168) || (c =? 169) || (c =? 175)))
                 || ((a =? 226) && (b =? 129) && (c =? 159))
                 || ((a =? 227) && (b =? 128) && (c =? 128))
              then Some 3%nat else None
          | [] => None
          end
      | [] => None
      end
  | [] => None
  end.

Definition white_space_end (l : list Z) : option nat :=
  match l with
  | c :: b :: a :: _ =>
      match white_space_start [c] with
      | Some n => Some n
      | None => match white_space_start [b; c] with
                | Some 2%nat => Some 2%nat
                | _ => match white_space_start [a; b; c] with
                       | Some 3%nat => Some 3%nat
                       | _ => None
                       end
                end
      end
  | [c; b] =>
      match white_space_start [c] with
      | Some n => Some n
      | None => match white_space_start [b; c] with Some 2%nat => Some 2%nat | _ => None end
      end
  | _ => white_space_start l
  end.

Fixpoint drop_while_white (ws : list Z → option nat) (fuel : nat) (l : list ascii) : list ascii :=
  match fuel with
  | O => l
  | S fuel =>
      match ws (byte <$> l) with
      | Some n => drop_while_white ws fuel (drop n l)
      | None => l
      end
  end.

Definition trim_start_bytes (l : list ascii) : list ascii :=
  drop_while_white white_space_start (length l) l.
Definition trim_end_bytes (l : list ascii) : list ascii :=
  rev (drop_while_white white_space_end (length l) (rev l)).
Definition trim (s : string) : string := from_bytes (trim_end_bytes (trim_start_bytes (bytes s))).

(** ** Number formatting *)

Definition digit_char (d : Z) : ascii := char (48 + d).
Definition hex_char (d : Z) : ascii := if d <? 10 then char (48 + d) else char (87 + d).

(** The lower-case hexadecimal of a byte string. *)
Definition hex_bytes (l : list ascii) : list ascii :=
  l ≫= λ c, [hex_char (byte c / 16); hex_char (byte c mod 16)].
Definition hex (s : string) : string := from_bytes (hex_bytes (bytes s)).

(** Decimal [Display] of an unsigned integer. *)
Definition display_uint (z : Z) : string := pretty z.

(** [&s[..n]]: [None] is the panic of a range past the end. *)
Definition slice_to (n : nat) (s : string) : option string :=
  if decide (n ≤ String.length s)%nat then Some (from_bytes (take n (bytes s))) else None.

(** ** Lemmas *)

Lemma bytes_length s : length (bytes s) = String.length s.
Proof. induction s; simpl; congruence. Qed.

Lemma from_bytes_length l : String.length (from_bytes l) = length l.
Proof. induction l; simpl; congruence. Qed.

Lemma bytes_from_bytes l : bytes (from_bytes l) = l.
Proof. apply list_ascii_of_string_of_list_ascii. Qed.

Lemma from_bytes_bytes s : from_bytes (bytes s) = s.
Proof. apply string_of_list_ascii_of_string. Qed.

#[export] Instance bytes_inj : Inj (=) (=) bytes.
Proof. intros s t H. by rewrite <- (from_bytes_bytes s), H, from_bytes_bytes. Qed.
#[export] Instance from_bytes_inj : Inj (=) (=) from_bytes.
Proof. intros s t H. by rewrite <- (bytes_from_bytes s), H, bytes_from_bytes. Qed.

Lemma bytes_app s t : bytes (s +:+ t) = bytes s ++ bytes t.
Proof. induction s as [|c s IH]; [done|]. change (c :: bytes (s +:+ t) = c :: bytes s ++ bytes t). congruence. Qed.

Lemma from_bytes_app l k : from_bytes (l ++ k) = from_bytes l +:+ from_bytes k.
Proof. apply (inj bytes). by rewrite bytes_app, !bytes_from_bytes. Qed.

Lemma byte_bound c : 0 ≤ byte c < 256.
Proof.
  unfold byte. pose proof (N_ascii_bounded c). lia.
Qed.

Lemma char_byte c : char (byte c) = c.
Proof. unfold char, byte. rewrite N2Z.id. apply ascii_N_embedding. Qed.

Lemma byte_char z : 0 ≤ z < 256 → byte (char z) = z.
Proof. intros Hz. unfold byte, char. rewrite N_ascii_embedding; lia. Qed.

#[export] Instance byte_inj : Inj (=) (=) byte.
Proof. intros c d H. by rewrite <- (char_byte c), H, char_byte. Qed.

Lemma ascii_eqb_true a b : Ascii.eqb a b = true ↔ a = b.
Proof. apply Ascii.eqb_eq. Qed.

Lemma strip_prefix_bytes_Some p l r : strip_prefix_bytes p l = Some r ↔ l = p ++ r.
Proof.
  revert l. induction p as [|a p IH]; intros l; simpl; [naive_solver|].
  destruct l as [|b l]; [naive_solver|].
  destruct (Ascii.eqb_spec a b) as [->|Hab]; [|naive_solver].
  rewrite IH. naive_solver.
Qed.

Lemma strip_suffix_Some p s r : strip_suffix p s = Some r ↔ s = r +:+ p.
Proof.
  unfold strip_suffix. rewrite fmap_Some. setoid_rewrite strip_prefix_bytes_Some. split.
  - intros (l & Hl & ->). apply (inj bytes).
    rewrite bytes_app, bytes_from_bytes.
    rewrite <- (rev_involutive (bytes s)), Hl, rev_app_distr, rev_involutive. done.
  - intros ->. exists (rev (bytes r)).
    by rewrite bytes_app, rev_app_distr, rev_involutive, from_bytes_bytes.
Qed.

Lemma digit_char_byte d : 0 ≤ d ≤ 9 → byte (digit_char d) = 48 + d.
Proof. intros. unfold digit_char. apply byte_char. lia. Qed.

Lemma is_ascii_digit_true c : is_ascii_digit c = true ↔ ∃ d, 0 ≤ d ≤ 9 ∧ c = digit_char d.
Proof.
  unfold is_ascii_digit. split.
  - intros H. bool_prop. exists (byte c - 48). split; [lia|].
    unfold digit_char. replace (48 + (byte c - 48)) with (byte c) by lia.
    by rewrite char_byte.
  - intros (d & Hd & ->). rewrite digit_char_byte by done.
    apply andb_true_iff. split; lia.
Qed.

Lemma hex_char_byte d :
  0 ≤ d < 16 → byte (hex_char d) = if d <? 10 then 48 + d else 87 + d.
Proof. intros. unfold hex_char. destruct (Z.ltb_spec d 10); apply byte_char; lia. Qed.

Lemma hex_char_inj d e : 0 ≤ d < 16 → 0 ≤ e < 16 → hex_char d = hex_char e → d = e.
Proof.
  intros Hd He H. apply (f_equal byte) in H.
  rewrite !hex_char_byte in H by done.
  destruct (Z.ltb_spec d 10), (Z.ltb_spec e 10); lia.
Qed.

Lemma hex_bytes_length l : length (hex_bytes l) = (2 * length l)%nat.
Proof. induction l; simpl in *; lia. Qed.

Lemma hex_length s : String.length (hex s) = (2 * String.length s)%nat.
Proof. unfold hex. rewrite from_bytes_length, hex_bytes_length, bytes_length. done. Qed.

Lemma byte_nibbles c : 0 ≤ byte c / 16 < 16 ∧ 0 ≤ byte c mod 16 < 16.
Proof.
  pose proof (byte_bound c).
  split; [|apply Z.mod_pos_bound; lia].
  split; [apply Z.div_pos; lia | apply Z.div_lt_upper_bound; lia].
Qed.

Lemma hex_bytes_inj l k : hex_bytes l = hex_bytes k → l = k.
Proof.
  revert k. induction l as [|a l IH]; intros [|b k]; simpl; try done.
  intros H. injection H as H1 H2 H3.
  destruct (byte_nibbles a), (byte_nibbles b).
  apply hex_char_inj in H1; [|done..]. apply hex_char_inj in H2; [|done..].
  f_equal; [|by apply IH].
  apply (inj byte). rewrite (Z.div_mod (byte a) 16), (Z.div_mod (byte b) 16) by lia. lia.
Qed.

#[export] Instance hex_inj : Inj (=) (=) hex.
Proof. intros s t H. apply (inj from_bytes), hex_bytes_inj in H. by apply (inj bytes). Qed.

Lemma slice_to_Some n s :
  (n ≤ String.length s)%nat → slice_to n s = Some (from_bytes (take n (bytes s))).
Proof. intros. unfold slice_to. by rewrite decide_True. Qed.

(** ** Trimming *)

(** A text made of white-space characters. *)
Inductive white : list ascii → Prop :=
| white_nil : white []
| white_cons w l : white_space_start (byte <$> w) = Some (length w) → white l → white (w ++ l).

Lemma white_app l k : white l → white k → white (l ++ k).
Proof. induction 1; intros ?; simpl; [done|]. rewrite <- app_assoc. by constructor; auto. Qed.

(** A white-space character is recognised by its own bytes, whatever follows. *)
Lemma white_space_start_take l n :
  white_space_start l = Some n →
  (0 < n ≤ length l)%nat ∧ ∀ k, white_space_start (take n l ++ k) = Some n.
Proof.
  unfold white_space_start. destruct l as [|a l]; [done|].
  case_match eqn:E1; [intros [= <-]; simpl; split; [lia|]; intros k; by rewrite E1|].
  destruct l as [|b l]; [done|].
  case_match eqn:E2; [intros [= <-]; simpl; split; [lia|]; intros k; by rewrite E1, E2|].
  destruct l as [|c l]; [done|].
  case_match eqn:E3; [|done]. intros [= <-]; simpl; split; [lia|]; intros k; by rewrite E1, E2, E3.
Qed.

Lemma white_space_end_take l n :
  white_space_end l = Some n →
  (0 < n ≤ length l)%nat ∧ white_space_start (rev (take n l)) = Some n.
Proof.
  unfold white_space_end. destruct l as [|c [|b [|a l]]]; [done|..].
  - intros Hn. destruct (white_space_start_take _ _ Hn) as [Hl _]. simpl in Hl.
    assert (n = 1%nat) as -> by lia. by split; [simpl; lia|].
  - destruct (white_space_start [c]) as [m|] eqn:E1.
    + intros [= ->]. destruct (white_space_start_take _ _ E1) as [Hl _]. simpl in Hl.
      assert (n = 1%nat) as -> by lia. by split; [simpl; lia|].
    + repeat case_match; simplify_eq; intros [= <-]; by split; [simpl; lia|].
  - destruct (white_space_start [c]) as [m|] eqn:E1.
    + intros [= ->]. destruct (white_space_start_take _ _ E1) as [Hl _]. simpl in Hl.
      assert (n = 1%nat) as -> by lia. by split; [simpl; lia|].
    + repeat case_match; simplify_eq; intros [= <-]; by split; [simpl; lia|].
Qed.

(** With as much fuel as there are bytes, dropping stops only where nothing more can be dropped; more
    fuel changes nothing. *)
Lemma drop_while_white_spec ws (Q : list ascii → Prop) fuel l :
  (∀ l n, ws l = Some n → (0 < n ≤ length l)%nat) →
  (∀ l n, ws (byte <$> l) = Some n → Q (take n l)) → Q [] → (∀ p q, Q p → Q q → Q (p ++ q)) →
  (length l ≤ fuel)%nat →
  (∃ p, Q p ∧ l = p ++ drop_while_white ws fuel l) ∧ ws (byte <$> drop_while_white ws fuel l) = None.
Proof.
  intros Hws HQ Hnil Happ. revert l. induction fuel as [|fuel IH]; intros l Hl; simpl.
  { destruct l; [|simpl in Hl; lia]. split; [by exists []|].
    destruct (ws _) as [n|] eqn:Hn; [|done]. apply Hws in Hn. simpl in Hn. lia. }
  destruct (ws (byte <$> l)) as [n|] eqn:Hn; [|by split; [exists []|]].
  pose proof (Hws _ _ Hn) as Hlen. rewrite length_fmap in Hlen.
  destruct (IH (drop n l)) as [(p & Hp & Heq) Hnone]; [rewrite length_drop; lia|].
  split; [|done]. exists (take n l ++ p). split; [by apply Happ; [apply HQ|]|].
  rewrite <- app_assoc, <- Heq. by rewrite take_drop.
Qed.

Lemma drop_while_white_fuel ws fuel l :
  (∀ l n, ws l = Some n → (0 < n ≤ length l)%nat) → (length l ≤ fuel)%nat →
  drop_while_white ws fuel l = drop_while_white ws (length l) l.
Proof.
  intros Hws Hf.
  assert (∀ f g l, (length l ≤ f)%nat → (length l ≤ g)%nat →
    drop_while_white ws f l = drop_while_white ws g l) as Hfg; [|by apply Hfg].
  clear l fuel Hf. induction f as [|f IH]; intros [|g] l Hl Hg; simpl; [done| | |].
  - destruct l; [|simpl in Hl; lia]. destruct (ws _) as [n|] eqn:Hn; [|done].
    apply Hws in Hn. simpl in Hn. lia.
  - destruct l; [|simpl in Hg; lia]. destruct (ws _) as [n|] eqn:Hn; [|done].
    apply Hws in Hn. simpl in Hn. lia.
  - destruct (ws _) as [n|] eqn:Hn; [|done]. pose proof (Hws _ _ Hn) as Hlen.
    rewrite length_fmap in Hlen. apply IH; rewrite length_drop; lia.
Qed.

Lemma white_space_start_bound l n : white_space_start l = Some n → (0 < n ≤ length l)%nat.
Proof. apply white_space_start_take. Qed.
Lemma white_space_end_bound l n : white_space_end l = Some n → (0 < n ≤ length l)%nat.
Proof. apply white_space_end_take. Qed.

Lemma white_one w : white_space_start (byte <$> w) = Some (length w) → white w.
Proof. intros Hw. rewrite <- (app_nil_r w). constructor; [done|constructor]. Qed.

Lemma white_space_start_prefix l k : white_space_start (l ++ k) = None → white_space_start l = None.
Proof.
  intros Hn. destruct (white_space_start l) as [n|] eqn:Hs; [|done].
  destruct (white_space_start_take _ _ Hs) as [_ Hk]. specialize (Hk (drop n l ++ k)).
  by rewrite app_assoc, take_drop, Hn in Hk.
Qed.

(** ** Searching *)

Lemma contains_bytes_true p l : contains_bytes p l = true ↔ ∃ l1 l2, l = l1 ++ p ++ l2.
Proof.
  induction l as [|c l IH]; simpl; destruct (strip_prefix_bytes p _) as [r|] eqn:Hp.
  - apply strip_prefix_bytes_Some in Hp. split; [|done]. intros _. by exists [], r.
  - split; [done|]. intros (l1 & l2 & Hl). destruct l1; [|done].
    by rewrite (proj2 (strip_prefix_bytes_Some p [] l2)) in Hp by done.
  - apply strip_prefix_bytes_Some in Hp. split; [|done]. intros _. by exists [], r.
  - rewrite IH. split.
    + intros (l1 & l2 & ->). by exists (c :: l1), l2.
    + intros ([|c' l1] & l2 & Hl); simpl in Hl.
      * by rewrite (proj2 (strip_prefix_bytes_Some p (c :: l) l2)) in Hp by done.
      * injection Hl as -> ->. by exists l1, l2.
Qed.

(** A text longer than another is not in it. *)
Lemma contains_longer p s : (String.length s < String.length p)%nat → contains p s = false.
Proof.
  intros Hl. apply not_true_iff_false. intros (l1 & l2 & He)%contains_bytes_true.
  apply (f_equal length) in He. rewrite !length_app, !bytes_length in He. lia.
Qed.

#[export] Hint Rewrite bytes_from_bytes from_bytes_bytes bytes_app bytes_length
  from_bytes_length : text.

(** *** Splitting *)

(** The pieces with the separator between them. *)
Fixpoint join (c : ascii) (pieces : list (list ascii)) : list ascii :=
  match pieces with
  | [] => []
  | [p] => p
  | p :: pieces => p ++ c :: join c pieces
  end.

Lemma split_bytes_spec c l :
  split_bytes c l ≠ [] ∧ join c (split_bytes c l) = l ∧ Forall (λ p, c ∉ p) (split_bytes c l).
Proof.
  induction l as [|a l (Hn & Hj & Hf)]; simpl; [split_and!; [done|done|repeat constructor; set_solver]|].
  destruct (Ascii.eqb_spec a c) as [->|Hne].
  - split_and!; [done| |constructor; [set_solver|done]].
    destruct (split_bytes c l); [done|]. simpl in *. by rewrite Hj.
  - destruct (split_bytes c l) as [|p ps]; [done|]. apply Forall_cons in Hf as [Hp Hf].
    split_and!; [done| |constructor; [set_solver|done]].
    destruct ps; simpl in *; by rewrite Hj.
Qed.

Lemma split_bytes_app c p l : c ∉ p → split_bytes c (p ++ c :: l) = p :: split_bytes c l.
Proof.
  induction p as [|a p IH]; simpl; intros Hp; [by rewrite Ascii.eqb_refl|].
  destruct (Ascii.eqb_spec a c) as [->|]; [set_solver|]. by rewrite IH by set_solver.
Qed.

Lemma split_bytes_none c p : c ∉ p → split_bytes c p = [p].
Proof.
  induction p as [|a p IH]; simpl; intros Hp; [done|].
  destruct (Ascii.eqb_spec a c) as [->|]; [set_solver|]. by rewrite IH by set_solver.
Qed.

Lemma split_bytes_join c pieces :
  pieces ≠ [] → Forall (λ p, c ∉ p) pieces → split_bytes c (join c pieces) = pieces.
Proof.
  intros Hn Hf. induction Hf as [|p pieces Hp Hf IH]; [done|]. destruct pieces as [|p' pieces].
  - by apply split_bytes_none.
  - change (join c (p :: p' :: pieces)) with (p ++ c :: join c (p' :: pieces)).
    rewrite split_bytes_app by done. by rewrite IH.
Qed.

(** ** Trimming *)

(** [trim] is exact on every text: it removes white-space characters, and only those, from the
    two ends, and what is left neither starts nor ends with one; the scans end because
    every step reads at least a byte, and more fuel than the length of the text changes nothing. *)
Lemma trim_exact s :
  (∃ p q, bytes s = p ++ bytes (trim s) ++ q ∧ white p ∧ white q) ∧
  white_space_start (byte <$> bytes (trim s)) = None ∧
  white_space_end (byte <$> rev (bytes (trim s))) = None ∧
  ∀ fuel l, (length l ≤ fuel)%nat →
    drop_while_white white_space_start fuel l = trim_start_bytes l ∧
    rev (drop_while_white white_space_end fuel (rev l)) = trim_end_bytes l.
Proof.
  unfold trim. rewrite bytes_from_bytes. set (l := trim_start_bytes (bytes s)).
  destruct (drop_while_white_spec white_space_start white (length (bytes s)) (bytes s))
    as [(p & Hp & Hsp) Hstart]; [apply white_space_start_bound| |constructor|by apply white_app|done|].
  { intros k n Hn. apply white_one. pose proof (white_space_start_bound _ _ Hn) as Hb.
    rewrite length_fmap in Hb. destruct (white_space_start_take _ _ Hn) as [_ Hk].
    specialize (Hk []). rewrite app_nil_r, <- fmap_take in Hk. rewrite Hk, length_take. f_equal. lia. }
  destruct (drop_while_white_spec white_space_end (λ q, white (rev q)) (length l) (rev l))
    as [(q & Hq & Hsq) Hend]; [apply white_space_end_bound| |constructor| |by rewrite length_rev|].
  { intros k n Hn. apply white_one. destruct (white_space_end_take _ _ Hn) as [Hb Hk].
    rewrite length_fmap in Hb. rewrite <- fmap_take in Hk.
    rewrite length_rev, length_take, Nat.min_l by lia. rewrite <- Hk. f_equal. apply map_rev. }
  { intros q1 q2 H1 H2. rewrite rev_app_distr. by apply white_app. }
  fold (trim_start_bytes (bytes s)) in Hsp, Hstart. fold l in Hsp, Hstart.
  assert (l = trim_end_bytes l ++ rev q) as Hl.
  { unfold trim_end_bytes. rewrite <- rev_app_distr, <- Hsq. by rewrite rev_involutive. }
  split_and!.
  - exists p, (rev q). split_and!; [|done..]. by rewrite <- Hl.
  - rewrite Hl, fmap_app in Hstart. by eapply white_space_start_prefix.
  - unfold trim_end_bytes. by rewrite rev_involutive.
  - intros fuel k Hf. unfold trim_start_bytes, trim_end_bytes. split.
    + apply drop_while_white_fuel; [apply white_space_start_bound|done].
    + f_equal. rewrite drop_while_white_fuel; [by rewrite length_rev|apply white_space_end_bound|].
      by rewrite length_rev.
Qed.
