(* ===== verification/Testing.v ===== *)
(** * Testing: the assertions of the repository's unit tests

    A test is a program that panics when an expectation fails.  Its panics are the errors of the
    monad: [expect], [assert!], [assert_eq!] and [assert!(matches!(..., Err(e)))]. *)
From S2P Require Export Text.

Inductive Failure : Set := Failed (message : string).

Section assertions.
Context {W E A : Type}.

(** [.expect(message)]. *)
Definition expect (message : string) (c : M W E A) : M W Failure A := λ w,
  let (r, w) := c w in (map_err (λ _, Failed message) r, w).

Definition expect_ok (message : string) (r : result A E) : M W Failure A := expect message (lift r).
Definition expect_some (message : string) (o : option A) : M W Failure A :=
  lift (ok_or o (Failed message)).

(** The same of a call that may panic, and of one that only reads. *)
Definition expect_call (message : string) (c : W → outcome A E * W) : M W Failure A := λ w,
  match c w with
  | (Returned (Ok a), w) => (Ok a, w)
  | (_, w) => (Err (Failed message), w)
  end.
Definition expect_read (message : string) (c : W → outcome A E) : M W Failure A :=
  expect_call message (λ w, (c w, w)).

(** [assert!(matches!(c, Err(e)))]. *)
Definition assert_err {W E A} `{EqDecision E} (e : E) (c : M W E A) : M W Failure unit := λ w,
  match c w with
  | (Err e', w) => (if decide (e' = e) then Ok tt else Err (Failed "assertion failed: matches!"), w)
  | (Ok _, w) => (Err (Failed "assertion failed: matches!"), w)
  end.

Definition assert (b : bool) : M W Failure unit := λ w,
  (if b then Ok tt else Err (Failed "assertion failed"), w).

Definition assert_eq `{EqDecision A} (x y : A) : M W Failure unit := assert (bool_decide (x = y)).
End assertions.

(** The test ran to its end. *)
Definition passes {W} (test : M W Failure unit) (w : W) : Prop := (test w).1 = Ok tt.

(** The same of a test that keeps no state. *)
Definition pure_test : Type := M unit Failure unit.

(** ** Running a test *)

Lemma passes_bind {W A} (c : M W Failure A) (k : A → M W Failure unit) w a w1 :
  c w = (Ok a, w1) → passes (k a) w1 → passes (bind c k) w.
Proof. unfold passes, bind. by intros ->. Qed.

Lemma expect_Ok {W E A} message (c : M W E A) w a w1 :
  c w = (Ok a, w1) → expect message c w = (Ok a, w1).
Proof. unfold expect. by intros ->. Qed.

Lemma assert_err_Err {W E A} `{EqDecision E} (e : E) (c : M W E A) w w1 :
  c w = (Err e, w1) → assert_err e c w = (Ok tt, w1).
Proof. unfold assert_err. intros ->. by rewrite decide_True. Qed.

Lemma passes_last {W} (c : M W Failure unit) w w1 : c w = (Ok tt, w1) → passes c w.
Proof. unfold passes. by intros ->. Qed.

(** One statement of a test: its call is evaluated by the tactic that solves the first goal. *)
Ltac test_step := cbv beta; first
  [ eapply passes_bind; [first [apply expect_Ok | apply assert_err_Err | idtac] | cbv beta iota]
  | eapply passes_last; first [apply expect_Ok | apply assert_err_Err | idtac] ].
