(* ===== verification/Externals.v ===== *)
(** * Externals: third-party crates as interfaces

    Code outside the repository is a parameter: a class of operations, and beside it a class of
    the documented facts the program relies on.  [Instances.v] gives concrete
    implementations, used by the witnesses. *)
From S2P Require Export Text.

(** ** crate [base64]: the engines [STANDARD] and [URL_SAFE_NO_PAD] *)
Class Base64 := {
  STANDARD_encode : string → string;
  STANDARD_decode : string → option string;
  URL_SAFE_NO_PAD_encode : string → string;
  URL_SAFE_NO_PAD_decode : string → option string;
}.

(** RFC 4648 with strict padding and strict trailing bits: decoding inverts encoding, and accepts
    nothing but encodings; without padding, [n] bytes take [ceil (4 n / 3)] characters of
    the alphabet. *)
Definition url_safe_char (c : ascii) : bool :=
  is_ascii_alphanumeric c || Ascii.eqb c "-"%char || Ascii.eqb c "_"%char.

Class Base64Laws `{Base64} : Prop := {
  url_decode_encode b : URL_SAFE_NO_PAD_decode (URL_SAFE_NO_PAD_encode b) = Some b;
  url_encode_decode s b : URL_SAFE_NO_PAD_decode s = Some b → URL_SAFE_NO_PAD_encode b = s;
  url_encode_length b :
    String.length (URL_SAFE_NO_PAD_encode b) = ((4 * String.length b + 2) / 3)%nat;
  url_encode_chars b : forallb url_safe_char (bytes (URL_SAFE_NO_PAD_encode b)) = true;
}.

(** ** crate [sha2]: [Sha256::digest] *)
Class Sha256 := sha256_digest : string → string.
Class Sha256Laws `{Sha256} : Prop :=
  sha256_length m : String.length (sha256_digest m) = 32%nat.

(** Two different messages with one digest. *)
Definition sha256_collision `{Sha256} (m1 m2 : string) : Prop :=
  m1 ≠ m2 ∧ sha256_digest m1 = sha256_digest m2.

(** ** crate [serde_json]: the text of a string and of a float *)
Class SerdeJson := {
  json_string : string → option string;
  f64_to_string : Z → string;
}.

(** A JSON string is quoted text that ends at its first unescaped quote: it can be read back
    from the front of any input. *)
Definition quote : ascii := char 34.

Class SerdeJsonLaws `{SerdeJson} : Prop := {
  json_string_total s : is_Some (json_string s);
  json_string_quoted s t : json_string s = Some t → ∃ u, bytes t = quote :: u;
  json_string_prefix s1 s2 t1 t2 r1 r2 :
    json_string s1 = Some t1 → json_string s2 = Some t2 →
    t1 +:+ r1 = t2 +:+ r2 → s1 = s2 ∧ r1 = r2;
}.
