(* ===== verification/Instances.v ===== *)
(** * Instances: concrete implementations of the third-party interfaces

    RFC 4648 base64, the escaping of [serde_json] and FIPS 180-4 SHA-256, with the laws of
    [Externals.v] proved.  The theorems never depend on them: they show that the laws can hold and
    let the witnesses and test vectors evaluate. *)
From S2P Require Export Externals.

(** ** Base64 *)
Module Rfc4648.

Definition url_alphabet : list ascii :=
  bytes "ABCDEFGHIJKLMNOPQRSTUVWXYZabcdefghijklmnopqrstuvwxyz0123456789-_".
Definition standard_alphabet : list ascii :=
  bytes "ABCDEFGHIJKLMNOPQRSTUVWXYZabcdefghijklmnopqrstuvwxyz0123456789+/".

Definition symbol (alphabet : list ascii) (d : Z) : ascii :=
  default (char 0) (alphabet !! Z.to_nat d).

Definition value (alphabet : list ascii) (c : ascii) : option Z :=
  (λ p, Z.of_nat p.1) <$> list_find (λ a, a = c) alphabet.

(** Sextets of bytes, three bytes at a time. *)
Fixpoint sextets (l : list Z) : list Z :=
  match l with
  | a :: b :: c :: l =>
      a / 4 :: (a mod 4) * 16 + b / 16 :: (b mod 16) * 4 + c / 64 :: c mod 64 :: sextets l
  | [a; b] => [a / 4; (a mod 4) * 16 + b / 16; (b mod 16) * 4]
  | [a] => [a / 4; (a mod 4) * 16]
  | [] => []
  end.

Fixpoint octets (l : list Z) : option (list Z) :=
  match l with
  | w :: x :: y :: z :: l =>
      (λ r, w * 4 + x / 16 :: (x mod 16) * 16 + y / 4 :: (y mod 4) * 64 + z :: r) <$> octets l
  | [w; x; y] => Some [w * 4 + x / 16; (x mod 16) * 16 + y / 4]
  | [w; x] => Some [w * 4 + x / 16]
  | [_] => None
  | [] => Some []
  end.

Definition encode (alphabet : list ascii) (s : string) : string :=
  from_bytes (symbol alphabet <$> sextets (byte <$> bytes s)).

(** Only canonical encodings are accepted. *)
Definition decode (alphabet : list ascii) (s : string) : option string :=
  ds ← mapM (value alphabet) (bytes s);
  bs ← octets ds;
  let b := from_bytes (char <$> bs) in
  if String.eqb (encode alphabet b) s then Some b else None.

(** Padding of the last group. *)
Definition padding (n : nat) : string :=
  match (n mod 3)%nat with 1%nat => "==" | 2%nat => "=" | _ => "" end.

Definition encode_padded (alphabet : list ascii) (s : string) : string :=
  encode alphabet s +:+ padding (String.length s).

Definition decode_padded (alphabet : list ascii) (s : string) : option string :=
  let body := from_bytes (filter (λ c, c ≠ "="%char) (bytes s)) in
  b ← decode alphabet body;
  if String.eqb (encode_padded alphabet b) s then Some b else None.

End Rfc4648.

#[export] Instance rfc4648 : Base64 := {
  STANDARD_encode := Rfc4648.encode_padded Rfc4648.standard_alphabet;
  STANDARD_decode := Rfc4648.decode_padded Rfc4648.standard_alphabet;
  URL_SAFE_NO_PAD_encode := Rfc4648.encode Rfc4648.url_alphabet;
  URL_SAFE_NO_PAD_decode := Rfc4648.decode Rfc4648.url_alphabet;
}.

Section base64.
Import Rfc4648.

(** Induction three elements at a time. *)
Lemma list_ind_3 {A} (P : list A → Prop) :
  P [] → (∀ a, P [a]) → (∀ a b, P [a; b]) →
  (∀ a b c l, P l → P (a :: b :: c :: l)) → ∀ l, P l.
Proof.
  intros H0 H1 H2 H3. fix IH 1. intros [|a [|b [|c l]]]; [done|apply H1|apply H2|].
  apply H3, IH.
Qed.

Definition octet (z : Z) : Prop := 0 ≤ z < 256.
Definition sextet (z : Z) : Prop := 0 ≤ z < 64.

(** Linear arithmetic with quotients and remainders by constants. *)
Ltac div_lia := Z.to_euclidean_division_equations; lia.

Lemma sextets_bound l : Forall octet l → Forall sextet (sextets l).
Proof.
  unfold octet, sextet. induction l as [|a|a b|a b c l IH] using list_ind_3; intros Hl;
    rewrite ?Forall_cons in Hl; destruct_and?; cbn [sextets]; rewrite ?Forall_cons;
    split_and?; first [apply Forall_nil_2 | by apply IH | div_lia].
Qed.

Lemma octets_sextets l : Forall octet l → octets (sextets l) = Some l.
Proof.
  unfold octet. induction l as [|a|a b|a b c l IH] using list_ind_3; intros Hl;
    rewrite ?Forall_cons in Hl; destruct_and?; cbn [sextets octets]; [done|..].
  - f_equal. f_equal. div_lia.
  - f_equal. f_equal; [|f_equal]; div_lia.
  - rewrite IH by done. cbn [fmap option_fmap option_map].
    f_equal. f_equal; [|f_equal; [|f_equal]]; div_lia.
Qed.

Lemma sextets_length l : length (sextets l) = ((4 * length l + 2) / 3)%nat.
Proof.
  induction l as [|a|a b|a b c l IH] using list_ind_3; [done..|].
  cbn [sextets length]. rewrite IH.
  replace (4 * S (S (S (length l))) + 2)%nat with (4 * length l + 2 + 4 * 3)%nat by lia.
  rewrite Nat.div_add by lia. lia.
Qed.

Lemma url_value_symbol d : sextet d → value url_alphabet (symbol url_alphabet d) = Some d.
Proof.
  intros Hd.
  assert (forallb (λ n, bool_decide
    (value url_alphabet (symbol url_alphabet (Z.of_nat n)) = Some (Z.of_nat n))) (seq 0 64) = true)
    as H by by vm_compute.
  rewrite forallb_elem in H. specialize (H (Z.to_nat d)). rewrite elem_of_seq in H.
  unfold sextet in Hd. rewrite Z2Nat.id in H by lia.
  apply (bool_decide_eq_true_1 _), H. lia.
Qed.

Lemma url_symbol_safe d : sextet d → url_safe_char (symbol url_alphabet d) = true.
Proof.
  intros Hd.
  assert (forallb (λ n, url_safe_char (symbol url_alphabet (Z.of_nat n))) (seq 0 64) = true)
    as H by by vm_compute.
  rewrite forallb_elem in H. specialize (H (Z.to_nat d)). rewrite elem_of_seq in H.
  unfold sextet in Hd. rewrite Z2Nat.id in H by lia. apply H. lia.
Qed.

Lemma bytes_octet s : Forall octet (byte <$> bytes s).
Proof. apply Forall_fmap, Forall_true. intros c. apply byte_bound. Qed.

Lemma mapM_value_symbol ds :
  Forall sextet ds → mapM (value url_alphabet) (symbol url_alphabet <$> ds) = Some ds.
Proof.
  intros H. apply mapM_Some, Forall2_fmap_l, Forall_Forall2_diag.
  eapply Forall_impl; [exact H|]. apply url_value_symbol.
Qed.

#[export] Instance rfc4648_laws : Base64Laws.
Proof.
  constructor; simpl.
  - intros b. unfold decode.
    assert (mapM (value url_alphabet) (bytes (encode url_alphabet b)) =
            Some (sextets (byte <$> bytes b))) as ->.
    { unfold encode. rewrite bytes_from_bytes. apply mapM_value_symbol, sextets_bound, bytes_octet. }
    cbn [mbind option_bind]. rewrite octets_sextets by apply bytes_octet. cbn [mbind option_bind].
    assert (from_bytes (char <$> (byte <$> bytes b)) = b) as ->; [|by rewrite String.eqb_refl].
    rewrite <- list_fmap_compose. rewrite <- (from_bytes_bytes b) at 2. f_equal.
    rewrite <- (list_fmap_id (bytes b)) at 2. apply list_fmap_ext. intros i c _. apply char_byte.
  - intros s b. unfold decode. intros H.
    apply bind_Some in H as (ds & _ & H). apply bind_Some in H as (bs & _ & H).
    simpl in H. destruct (String.eqb_spec (encode url_alphabet (from_bytes (char <$> bs))) s); by simplify_eq.
  - intros b. unfold encode. by rewrite from_bytes_length, length_fmap, sextets_length, length_fmap, bytes_length.
  - intros b. unfold encode. rewrite bytes_from_bytes. apply forallb_elem.
    intros c (d & -> & Hd)%list_elem_of_fmap. apply url_symbol_safe.
    pose proof (sextets_bound _ (bytes_octet b)) as Hs. rewrite Forall_forall in Hs. by apply Hs.
Qed.

End base64.

(** ** JSON strings *)
Module JsonText.

Definition backslash : ascii := char 92.

(** The short escapes, [\u00XX] for the other control characters, and every other byte as it is. *)
Definition escape (c : ascii) : list ascii :=
  let z := byte c in
  if z =? 34 then [backslash; quote]
  else if z =? 92 then [backslash; backslash]
  else if z =? 8 then [backslash; "b"%char]
  else if z =? 9 then [backslash; "t"%char]
  else if z =? 10 then [backslash; "n"%char]
  else if z =? 12 then [backslash; "f"%char]
  else if z =? 13 then [backslash; "r"%char]
  else if z <? 32
  then [backslash; "u"%char; "0"%char; "0"%char; hex_char (z / 16); hex_char (z mod 16)]
  else [c].

Definition escaped (s : string) : list ascii := quote :: (bytes s ≫= escape) ++ [quote].

(** Reads one escaped character back. *)
Definition nibble (c : ascii) : Z := if byte c <? 58 then byte c - 48 else byte c - 87.

Definition unescape (l : list ascii) : option (ascii * list ascii) :=
  match l with
  | [] => None
  | c :: l =>
      if byte c =? 34 then None
      else if byte c =? 92 then
        match l with
        | d :: l =>
            let z := byte d in
            if z =? 117 then
              match l with
              | _ :: _ :: h :: g :: l => Some (char (nibble h * 16 + nibble g), l)
              | _ => None
              end
            else Some (if z =? 98 then char 8 else if z =? 116 then char 9
                       else if z =? 110 then char 10 else if z =? 102 then char 12
                       else if z =? 114 then char 13 else d, l)
        | [] => None
        end
      else Some (c, l)
  end.

End JsonText.

#[export] Instance serde_json_text : SerdeJson := {
  json_string s := Some (from_bytes (JsonText.escaped s));
  f64_to_string _ := "0.0";
}.

Section json.
Import JsonText.

Lemma unescape_escape c r : unescape (escape c ++ r) = Some (c, r).
Proof. destruct c as [[] [] [] [] [] [] [] []]; reflexivity. Qed.

Lemma escaped_prefix l1 l2 r1 r2 :
  (l1 ≫= escape) ++ quote :: r1 = (l2 ≫= escape) ++ quote :: r2 → l1 = l2 ∧ r1 = r2.
Proof.
  revert l2. induction l1 as [|c l1 IH]; intros [|d l2]; csimpl.
  - naive_solver.
  - rewrite <- app_assoc. intros H. apply (f_equal unescape) in H.
    by rewrite unescape_escape in H.
  - rewrite <- app_assoc. intros H. apply (f_equal unescape) in H.
    by rewrite unescape_escape in H.
  - rewrite <- !app_assoc. intros H. apply (f_equal unescape) in H.
    rewrite !unescape_escape in H. injection H as -> H. apply IH in H as [-> ->]. done.
Qed.

#[export] Instance serde_json_text_laws : SerdeJsonLaws.
Proof.
  constructor; unfold json_string, serde_json_text.
  - intros s. by eexists.
  - intros s t <-%(inj Some). rewrite bytes_from_bytes. by eexists.
  - intros s1 s2 t1 t2 r1 r2 <-%(inj Some) <-%(inj Some) H. apply (f_equal bytes) in H.
    rewrite !bytes_app, !bytes_from_bytes in H. unfold escaped in H.
    rewrite <- !app_comm_cons, <- !app_assoc in H. injection H as H.
    apply escaped_prefix in H as [?%(inj bytes) ?%(inj bytes)]. done.
Qed.

End json.

(** ** SHA-256 (FIPS 180-4), on 32-bit words *)
Module Sha2.

Definition add32 (a b : Z) : Z := Z.land (a + b) 4294967295.
Definition rotr (x n : Z) : Z :=
  Z.lor (Z.shiftr x n) (Z.land (Z.shiftl x (32 - n)) 4294967295).

Definition big_sigma0 x := Z.lxor (rotr x 2) (Z.lxor (rotr x 13) (rotr x 22)).
Definition big_sigma1 x := Z.lxor (rotr x 6) (Z.lxor (rotr x 11) (rotr x 25)).
Definition small_sigma0 x := Z.lxor (rotr x 7) (Z.lxor (rotr x 18) (Z.shiftr x 3)).
Definition small_sigma1 x := Z.lxor (rotr x 17) (Z.lxor (rotr x 19) (Z.shiftr x 10)).
Definition choose x y z := Z.lxor (Z.land x y) (Z.land (Z.lxor x 4294967295) z).
Definition majority x y z := Z.lxor (Z.land x y) (Z.lxor (Z.land x z) (Z.land y z)).

(** The constants, from their definition in the standard: the first 32 bits of the fractional
    parts of the square and cube roots of the first primes. *)
Definition primes : list Z :=
  Eval vm_compute in
    take 64 (filter (λ n, forallb (λ d, negb (n mod d =? 0)) (seqZ 2 (Z.sqrt n - 1)) = true) (seqZ 2 312)).

(** The integer root of [n] below [lo + 2 ^ k], bit by bit, for a monotone power [pow]. *)
Fixpoint integer_root (pow : Z → Z) (n : Z) (k : nat) (lo : Z) : Z :=
  match k with
  | O => lo
  | S k =>
      let mid := lo + Z.shiftl 1 (Z.of_nat k) in
      integer_root pow n k (if pow mid <=? n then mid else lo)
  end.

Definition round_constants : list Z :=
  Eval vm_compute in
    (λ p, Z.land (integer_root (λ x, x * x * x) (Z.shiftl p 96) 36 0) 4294967295) <$> primes.

Definition initial_words : list Z :=
  Eval vm_compute in
    (λ p, Z.land (integer_root (λ x, x * x) (Z.shiftl p 64) 38 0) 4294967295) <$> take 8 primes.

Record state := mk_state { s_a : Z; s_b : Z; s_c : Z; s_d : Z; s_e : Z; s_f : Z; s_g : Z; s_h : Z }.

Definition state_of (ws : list Z) : state :=
  mk_state (nth 0 ws 0) (nth 1 ws 0) (nth 2 ws 0) (nth 3 ws 0)
    (nth 4 ws 0) (nth 5 ws 0) (nth 6 ws 0) (nth 7 ws 0).

Definition initial : state := state_of initial_words.

Definition round (s : state) (kw : Z * Z) : state :=
  let t1 := add32 (s_h s) (add32 (big_sigma1 (s_e s))
              (add32 (choose (s_e s) (s_f s) (s_g s)) (add32 kw.1 kw.2))) in
  let t2 := add32 (big_sigma0 (s_a s)) (majority (s_a s) (s_b s) (s_c s)) in
  mk_state (add32 t1 t2) (s_a s) (s_b s) (s_c s) (add32 (s_d s) t1) (s_e s) (s_f s) (s_g s).

(** The schedule as a sliding window of sixteen words; the words are produced in order. *)
Fixpoint schedule (n : nat) (window : list Z) : list Z :=
  match n, window with
  | S n, w :: ws =>
      let next := add32 (add32 (small_sigma1 (nth 13 ws 0)) (nth 8 ws 0))
                        (add32 (small_sigma0 (nth 0 ws 0)) w) in
      w :: schedule n (ws ++ [next])
  | _, _ => []
  end.

Definition add_state (s t : state) : state :=
  mk_state (add32 (s_a s) (s_a t)) (add32 (s_b s) (s_b t)) (add32 (s_c s) (s_c t))
    (add32 (s_d s) (s_d t)) (add32 (s_e s) (s_e t)) (add32 (s_f s) (s_f t))
    (add32 (s_g s) (s_g t)) (add32 (s_h s) (s_h t)).

Definition compress (s : state) (block : list Z) : state :=
  add_state s (foldl round s (combine round_constants (schedule 64 block))).

Fixpoint words (l : list Z) : list Z :=
  match l with
  | a :: b :: c :: d :: l => ((a * 256 + b) * 256 + c) * 256 + d :: words l
  | _ => []
  end.

Fixpoint blocks (fuel : nat) (l : list Z) : list (list Z) :=
  match fuel, l with
  | S fuel, _ :: _ => take 16 l :: blocks fuel (drop 16 l)
  | _, _ => []
  end.

(** [n] bytes of [z], most significant first. *)
Fixpoint big_endian (n : nat) (z : Z) : list Z :=
  match n with O => [] | S n => big_endian n (z / 256) ++ [z mod 256] end.

Definition pad (l : list Z) : list Z :=
  let n := length l in
  l ++ [128] ++ replicate ((119 - n mod 64) mod 64) 0 ++ big_endian 8 (8 * Z.of_nat n).

Definition digest_bytes (s : state) : list Z :=
  [s_a s; s_b s; s_c s; s_d s; s_e s; s_f s; s_g s; s_h s] ≫= big_endian 4.

Definition digest (m : string) : string :=
  let ws := words (pad (byte <$> bytes m)) in
  from_bytes (char <$> digest_bytes (foldl compress initial (blocks (length ws) ws))).

End Sha2.

#[export] Instance fips_180_4 : Sha256 := Sha2.digest.

#[export] Instance fips_180_4_laws : Sha256Laws.
Proof. intros m. unfold sha256_digest, fips_180_4, Sha2.digest. by rewrite from_bytes_length. Qed.

(** Test vectors of FIPS 180-4 and RFC 4648. *)
Example sha256_abc :
  hex (sha256_digest "abc") = "ba7816bf8f01cfea414140de5dae2223b00361a396177a9cb410ff61f20015ad".
Proof. vm_compute. reflexivity. Qed.

Example sha256_two_blocks :
  hex (sha256_digest "abcdbcdecdefdefgefghfghighijhijkijkljklmklmnlmnomnopnopq")
  = "248d6a61d20638b8e5c026930c3e6039a33ce45964ff2167f6ecedd419db06c1".
Proof. vm_compute. reflexivity. Qed.

Example base64_foobar : STANDARD_encode "fooba" = "Zm9vYmE=" ∧ STANDARD_decode "Zm9vYmE=" = Some "fooba".
Proof. vm_compute. done. Qed.
