(* ===== verification/Ids.v ===== *)
(** * Ids: identifiers, keys, addresses and generations ([policy/src/vpn.rs], [error.rs])

    The newtypes of the policy crate and the constructors that validate them.  Fields are
    private in the source, so a value of one of these types satisfies its [valid] predicate. *)
From S2P Require Export Externals.

(** ** [policy/src/error.rs] *)
Inductive PolicyError : Set :=
| InvalidIdentifier
| InvalidPublicKey
| InvalidAddress
| InvalidGeneration
| InvalidGeneratedAt
| TooManyPeers
| DuplicatePeerIdentity
| PeerAlreadyExists
| PeerNotFound
| AddressPoolExhausted
| Serialization.

#[export] Instance PolicyError_eq_dec : EqDecision PolicyError.
Proof. solve_decision. Defined.

(** ** Opaque identifiers *)

Definition opaque_id_char (c : ascii) : bool :=
  is_ascii_alphanumeric c || existsb (Ascii.eqb c) ["_"; "."; ":"; "-"]%char.

Definition valid_opaque_id (value : string) : bool :=
  match bytes value with
  | [] => false
  | first :: characters =>
      (len value <=? 128) && is_ascii_alphanumeric first && forallb opaque_id_char characters
  end.

Module UserId.
Record t := mk { as_str : string }.
Definition new (value : string) : result t PolicyError :=
  if valid_opaque_id value then Ok (mk value) else Err InvalidIdentifier.
Definition valid (id : t) : Prop := valid_opaque_id (as_str id) = true.
End UserId.
Abbreviation UserId := UserId.t.

Module PeerId.
Record t := mk { as_str : string }.
Definition new (value : string) : result t PolicyError :=
  if valid_opaque_id value then Ok (mk value) else Err InvalidIdentifier.
Definition valid (id : t) : Prop := valid_opaque_id (as_str id) = true.
End PeerId.
Abbreviation PeerId := PeerId.t.

#[export] Instance UserId_eq_dec : EqDecision UserId.
Proof. solve_decision. Defined.
#[export] Instance PeerId_eq_dec : EqDecision PeerId.
Proof. solve_decision. Defined.

(** ** WireGuard public keys *)

Module WireGuardPublicKey.
Record t := mk { as_str : string }.

Definition new `{Base64} (value : string) : result t PolicyError :=
  try? decoded := ok_or (STANDARD_decode value) InvalidPublicKey in
  if (len value =? 44) && ends_with_char "="%char value && (len decoded =? 32)
  then Ok (mk value) else Err InvalidPublicKey.
End WireGuardPublicKey.
Abbreviation WireGuardPublicKey := WireGuardPublicKey.t.

#[export] Instance WireGuardPublicKey_eq_dec : EqDecision WireGuardPublicKey.
Proof. solve_decision. Defined.

(** ** IPv4 addresses: [std::net::Ipv4Addr], its [Display] and its parser *)

Module Ipv4Addr.
Record t := mk { octet0 : Z; octet1 : Z; octet2 : Z; octet3 : Z }.
Definition octets (a : t) : list Z := [octet0 a; octet1 a; octet2 a; octet3 a].

Definition to_string (a : t) : string :=
  display_uint (octet0 a) +:+ "." +:+ display_uint (octet1 a) +:+ "." +:+
  display_uint (octet2 a) +:+ "." +:+ display_uint (octet3 a).

(** The standard library's [read_number] for an octet: at most three decimal digits, no
    superfluous leading zero, at most 255. *)
Fixpoint read_digits (fuel : nat) (l : list ascii) (count acc : Z) : option (Z * Z * list ascii) :=
  match fuel, l with
  | S fuel, c :: l' =>
      if is_ascii_digit c then
        let acc := acc * 10 + (byte c - 48) in
        let count := count + 1 in
        if (255 <? acc) || (3 <? count) then None else read_digits fuel l' count acc
      else Some (count, acc, l)
  | _, _ => Some (count, acc, l)
  end.

Definition read_octet (l : list ascii) : option (Z * list ascii) :=
  match read_digits (length l) l 0 0 with
  | Some (count, v, rest) =>
      if count =? 0 then None
      else if match l with c :: _ => Ascii.eqb c "0"%char | [] => false end && (1 <? count)
      then None else Some (v, rest)
  | None => None
  end.

Definition read_dot (l : list ascii) : option (list ascii) := strip_prefix_bytes ["."%char] l.

Definition parse (s : string) : option t :=
  if 15 <? len s then None else
  '(a, l) ← read_octet (bytes s); l ← read_dot l;
  '(b, l) ← read_octet l; l ← read_dot l;
  '(c, l) ← read_octet l; l ← read_dot l;
  '(d, l) ← read_octet l;
  match l with [] => Some (mk a b c d) | _ => None end.
End Ipv4Addr.

#[export] Instance Ipv4Addr_eq_dec : EqDecision Ipv4Addr.t.
Proof. solve_decision. Defined.

(** ** Overlay addresses *)

Module OverlayAddress.
Record t := mk { addr : Ipv4Addr.t }.

Definition new (host : Z) : result t PolicyError :=
  if (2 <=? host) && (host <=? 254)
  then Ok (mk (Ipv4Addr.mk 10 100 0 host)) else Err InvalidAddress.

Definition host (a : t) : Z := Ipv4Addr.octet3 (addr a).

Definition to_string (a : t) : string := Ipv4Addr.to_string (addr a) +:+ "/32".

Definition from_str (value : string) : result t PolicyError :=
  try? text := ok_or (strip_suffix "/32" value) InvalidAddress in
  try? address := ok_or (Ipv4Addr.parse text) InvalidAddress in
  if bool_decide (take 3 (Ipv4Addr.octets address) = [10; 100; 0])
     && (2 <=? Ipv4Addr.octet3 address) && (Ipv4Addr.octet3 address <=? 254)
  then Ok (mk address) else Err InvalidAddress.

(** What the private field can hold. *)
Definition valid (a : t) : Prop := new (host a) = Ok a.
End OverlayAddress.
Abbreviation OverlayAddress := OverlayAddress.t.

#[export] Instance OverlayAddress_eq_dec : EqDecision OverlayAddress.
Proof. solve_decision. Defined.

(** The derived [Hash]: these types can be members of a hash set. *)
#[export] Instance PeerId_countable : Countable PeerId.
Proof. refine (inj_countable' PeerId.as_str PeerId.mk _). by intros []. Defined.
#[export] Instance WireGuardPublicKey_countable : Countable WireGuardPublicKey.
Proof. refine (inj_countable' WireGuardPublicKey.as_str WireGuardPublicKey.mk _). by intros []. Defined.
#[export] Instance OverlayAddress_countable : Countable OverlayAddress.
Proof.
  refine (inj_countable' (λ a, Ipv4Addr.octets (OverlayAddress.addr a))
    (λ l, match l with
          | [a; b; c; d] => OverlayAddress.mk (Ipv4Addr.mk a b c d)
          | _ => OverlayAddress.mk (Ipv4Addr.mk 0 0 0 0)
          end) _).
  by intros [[]].
Defined.

(** ** Policies and permissions *)

Inductive HealthPolicy : Set := Required | OnDemand.
Inductive Permission : Set := Egress | Games.
#[export] Instance HealthPolicy_eq_dec : EqDecision HealthPolicy.
Proof. solve_decision. Defined.
#[export] Instance Permission_eq_dec : EqDecision Permission.
Proof. solve_decision. Defined.

(** ** Generations: a [u64] that is never zero *)

Definition U64_MAX : Z := 2 ^ 64 - 1.

Module Generation.
Record t := mk { get : Z }.
Definition new (value : Z) : result t PolicyError :=
  if value =? 0 then Err InvalidGeneration else Ok (mk value).
(** [checked_add(1).expect(..)]: [None] is the panic. *)
Definition next (g : t) : option t :=
  if get g + 1 <=? U64_MAX then Some (mk (get g + 1)) else None.
Definition valid (g : t) : Prop := 1 ≤ get g ≤ U64_MAX.
End Generation.
Abbreviation Generation := Generation.t.

#[export] Instance Generation_eq_dec : EqDecision Generation.
Proof. solve_decision. Defined.

(** ** Lemmas: octets *)

Definition octet_digits (v : Z) : list ascii :=
  if v <? 10 then [digit_char v]
  else if v <? 100 then [digit_char (v / 10); digit_char (v mod 10)]
  else [digit_char (v / 100); digit_char (v / 10 mod 10); digit_char (v mod 10)].

Lemma display_octet v : 0 ≤ v ≤ 255 → bytes (display_uint v) = octet_digits v.
Proof.
  intros Hv.
  assert (Forall (λ v, bytes (display_uint v) = octet_digits v) (seqZ 0 256)) as H.
  { apply (bool_decide_eq_true_1 _). by vm_compute. }
  rewrite Forall_forall in H. apply H, elem_of_seqZ. lia.
Qed.

Definition no_digit (l : list ascii) : Prop :=
  match l with c :: _ => is_ascii_digit c = false | [] => True end.

Lemma is_digit_digit_char d : 0 ≤ d ≤ 9 → is_ascii_digit (digit_char d) = true.
Proof. intros. apply is_ascii_digit_true. eauto. Qed.

Lemma read_digits_stop fuel l n v :
  no_digit l → Ipv4Addr.read_digits fuel l n v = Some (n, v, l).
Proof. destruct fuel, l as [|c l]; simpl; try done. by intros ->. Qed.

Lemma read_digits_step fuel d l n v :
  0 ≤ d ≤ 9 → v * 10 + d ≤ 255 → n + 1 ≤ 3 →
  Ipv4Addr.read_digits (S fuel) (digit_char d :: l) n v =
  Ipv4Addr.read_digits fuel l (n + 1) (v * 10 + d).
Proof.
  intros Hd Hv Hn. simpl. rewrite is_digit_digit_char, digit_char_byte by done.
  replace (48 + d - 48) with d by lia.
  destruct (Z.ltb_spec 255 (v * 10 + d)), (Z.ltb_spec 3 (n + 1)); simpl; done || lia.
Qed.

Lemma digit_char_eqb_zero d : 0 ≤ d ≤ 9 → Ascii.eqb (digit_char d) "0"%char = (d =? 0).
Proof.
  intros Hd. destruct (Z.eqb_spec d 0) as [->|Hne]; [done|].
  apply Ascii.eqb_neq. intros H. apply (f_equal byte) in H.
  rewrite digit_char_byte in H by done. change (byte "0"%char) with 48 in H. lia.
Qed.

Lemma read_octet_display v rest :
  0 ≤ v ≤ 255 → no_digit rest →
  Ipv4Addr.read_octet (bytes (display_uint v) ++ rest) = Some (v, rest).
Proof.
  intros Hv Hrest. rewrite display_octet by done. unfold octet_digits.
  destruct (Z.ltb_spec v 10); [|destruct (Z.ltb_spec v 100)];
    unfold Ipv4Addr.read_octet; rewrite length_app; simpl app; simpl length; simpl plus.
  - rewrite read_digits_step, read_digits_stop by (done || lia). simpl.
    by rewrite andb_false_r.
  - pose proof (Z.div_mod v 10). pose proof (Z.mod_pos_bound v 10).
    assert (1 ≤ v / 10 ≤ 9) by (split; [apply Z.div_le_lower_bound|apply Z.lt_succ_r, Z.div_lt_upper_bound]; lia).
    rewrite !read_digits_step, read_digits_stop by (done || lia). simpl.
    rewrite digit_char_eqb_zero by lia.
    destruct (Z.eqb_spec (v / 10) 0); [lia|]. simpl. do 2 f_equal. lia.
  - pose proof (Z.div_mod v 10). pose proof (Z.mod_pos_bound v 10).
    pose proof (Z.div_mod (v / 10) 10). pose proof (Z.mod_pos_bound (v / 10) 10).
    assert (v / 100 = v / 10 / 10) as E by (rewrite Z.div_div by lia; done).
    assert (1 ≤ v / 100 ≤ 9) by (split; [apply Z.div_le_lower_bound|apply Z.lt_succ_r, Z.div_lt_upper_bound]; lia).
    rewrite !read_digits_step, read_digits_stop by (done || lia). simpl.
    rewrite digit_char_eqb_zero by lia.
    destruct (Z.eqb_spec (v / 100) 0); [lia|]. simpl. do 2 f_equal. lia.
Qed.

Lemma digits2 a b : 1 ≤ a ≤ 9 → 0 ≤ b ≤ 9 →
  octet_digits (a * 10 + b) = [digit_char a; digit_char b].
Proof.
  intros. unfold octet_digits.
  destruct (Z.ltb_spec (a * 10 + b) 10); [lia|].
  destruct (Z.ltb_spec (a * 10 + b) 100); [|lia].
  by rewrite Z.div_add_l, Z.div_small, Z.add_0_r, Z.add_comm, Z.mod_add, Z.mod_small by lia.
Qed.

Lemma digits3 a b c : 1 ≤ a ≤ 9 → 0 ≤ b ≤ 9 → 0 ≤ c ≤ 9 →
  octet_digits ((a * 10 + b) * 10 + c) = [digit_char a; digit_char b; digit_char c].
Proof.
  intros. unfold octet_digits.
  destruct (Z.ltb_spec ((a * 10 + b) * 10 + c) 10); [lia|].
  destruct (Z.ltb_spec ((a * 10 + b) * 10 + c) 100); [lia|].
  replace 100 with (10 * 10) by done. rewrite <- Z.div_div by lia.
  rewrite (Z.div_add_l (a * 10 + b)), (Z.div_small c), Z.add_0_r by lia.
  rewrite Z.div_add_l, (Z.div_small b), Z.add_0_r by lia.
  rewrite (Z.add_comm (a * 10)), Z.mod_add, Z.mod_small by lia.
  by rewrite Z.add_comm, Z.mod_add, Z.mod_small by lia.
Qed.

Lemma read_digits_inv fuel l n v n' v' r :
  Ipv4Addr.read_digits fuel l n v = Some (n', v', r) →
  (n' = n ∧ v' = v ∧ r = l) ∨
  (∃ d l' fuel', fuel = S fuel' ∧ 0 ≤ d ≤ 9 ∧ l = digit_char d :: l' ∧
     v * 10 + d ≤ 255 ∧ n + 1 ≤ 3 ∧
     Ipv4Addr.read_digits fuel' l' (n + 1) (v * 10 + d) = Some (n', v', r)).
Proof.
  destruct fuel as [|fuel], l as [|c l]; simpl; try naive_solver.
  destruct (is_ascii_digit c) eqn:Hc; [|naive_solver].
  apply is_ascii_digit_true in Hc as (d & Hd & ->).
  rewrite digit_char_byte by done. replace (48 + d - 48) with d by lia.
  destruct (Z.ltb_spec 255 (v * 10 + d)); [done|].
  destruct (Z.ltb_spec 3 (n + 1)); [done|]. simpl. intros H'.
  right. exists d, l, fuel. naive_solver.
Qed.

(** An octet is read only from its shortest decimal text. *)
Lemma read_octet_inv l v rest :
  Ipv4Addr.read_octet l = Some (v, rest) →
  0 ≤ v ≤ 255 ∧ l = bytes (display_uint v) ++ rest.
Proof.
  unfold Ipv4Addr.read_octet.
  destruct (Ipv4Addr.read_digits _ l 0 0) as [[[n w] r]|] eqn:E; [|done].
  destruct (Z.eqb_spec n 0) as [->|Hn0]; [done|].
  destruct (_ && (1 <? n)) eqn:Hz; [done|]. intros [= -> ->].
  cut (0 ≤ v ≤ 255 ∧ l = octet_digits v ++ rest).
  { intros [Hv ->]. by rewrite display_octet. }
  apply read_digits_inv in E as [[? _]|(a & l1 & f1 & _ & Ha & -> & Hv1 & _ & E)]; [lia|].
  rewrite digit_char_eqb_zero in Hz by done.
  apply read_digits_inv in E as [(-> & -> & ->)|(b & l2 & f2 & _ & Hb & -> & Hv2 & _ & E)].
  { split; [lia|]. unfold octet_digits. destruct (Z.ltb_spec (0 * 10 + a) 10); [done|lia]. }
  assert (1 < n) as Hn.
  { apply read_digits_inv in E as [(-> & _)|(? & ? & ? & _ & _ & _ & _ & _ & E)]; [lia|].
    apply read_digits_inv in E as [(-> & _)|(? & ? & ? & _ & _ & _ & _ & ? & _)]; lia. }
  destruct (Z.eqb_spec a 0), (Z.ltb_spec 1 n); try (done || lia).
  replace (0 * 10 + a) with a in * by lia.
  apply read_digits_inv in E as [(-> & -> & ->)|(c & l3 & f3 & _ & Hc & -> & Hv3 & _ & E)].
  { split; [lia|]. rewrite digits2 by lia. done. }
  apply read_digits_inv in E as [(-> & -> & ->)|(? & ? & ? & _ & _ & _ & _ & ? & _)]; [|lia].
  split; [lia|]. rewrite digits3 by lia. done.
Qed.

(** ** Lemmas: addresses *)

Lemma ipv4_parse_display a :
  Forall (λ o, 0 ≤ o ≤ 255) (Ipv4Addr.octets a) →
  Ipv4Addr.parse (Ipv4Addr.to_string a) = Some a.
Proof.
  destruct a as [a b c d]. unfold Ipv4Addr.octets; simpl. intros Ho.
  rewrite !Forall_cons in Ho. destruct Ho as (Ha & Hb & Hc & Hd & _).
  unfold Ipv4Addr.parse.
  assert (len (Ipv4Addr.to_string (Ipv4Addr.mk a b c d)) ≤ 15) as Hlen.
  { assert (∀ v, 0 ≤ v ≤ 255 → (length (octet_digits v) ≤ 3)%nat) as H3.
    { intros v _. unfold octet_digits. repeat case_match; simpl; lia. }
    unfold len. rewrite <- bytes_length. unfold Ipv4Addr.to_string; simpl.
    rewrite !bytes_app, !length_app, !display_octet by done.
    pose proof (H3 a Ha). pose proof (H3 b Hb). pose proof (H3 c Hc). pose proof (H3 d Hd).
    simpl. lia. }
  destruct (Z.ltb_spec 15 (len (Ipv4Addr.to_string (Ipv4Addr.mk a b c d)))); [lia|].
  unfold Ipv4Addr.to_string; simpl. rewrite !bytes_app. simpl.
  rewrite read_octet_display by done. simpl.
  rewrite read_octet_display by done. simpl.
  rewrite read_octet_display by done. simpl.
  rewrite <- (app_nil_r (bytes (display_uint d))).
  by rewrite read_octet_display by done.
Qed.

Lemma ipv4_parse_inv s a :
  Ipv4Addr.parse s = Some a →
  Forall (λ o, 0 ≤ o ≤ 255) (Ipv4Addr.octets a) ∧ s = Ipv4Addr.to_string a.
Proof.
  unfold Ipv4Addr.parse, Ipv4Addr.read_dot. case_match; [done|]. intros Hp.
  repeat match goal with
  | H : (_ ≫= _) = Some _ |- _ => apply bind_Some in H as (? & ? & H)
  | H : (let '(_, _) := ?p in _) = Some _ |- _ => destruct p
  | H : Ipv4Addr.read_octet _ = Some _ |- _ => apply read_octet_inv in H as [? H]
  | H : strip_prefix_bytes _ _ = Some _ |- _ => apply strip_prefix_bytes_Some in H
  | H : match ?l with [] => _ | _ => _ end = Some _ |- _ => destruct l; [|done]
  end.
  simplify_eq. split; [unfold Ipv4Addr.octets; simpl; solve_Forall lia|].
  apply (inj bytes). unfold Ipv4Addr.to_string; simpl. rewrite !bytes_app, app_nil_r in *. simpl.
  match goal with H : bytes s = _ |- _ => rewrite H end. done.
Qed.

Lemma OverlayAddress_valid_iff a :
  OverlayAddress.valid a ↔
  ∃ h, 2 ≤ h ≤ 254 ∧ a = OverlayAddress.mk (Ipv4Addr.mk 10 100 0 h).
Proof.
  unfold OverlayAddress.valid, OverlayAddress.new. split.
  - destruct (_ && _) eqn:E; [|done]. bool_prop. intros [= Ha]. eauto.
  - intros (h & Hh & ->). unfold OverlayAddress.host; simpl.
    destruct (Z.leb_spec 2 h), (Z.leb_spec h 254); done || lia.
Qed.

Lemma overlay_text_iff s a :
  OverlayAddress.from_str s = Ok a ↔
  OverlayAddress.valid a ∧ s = OverlayAddress.to_string a.
Proof.
  unfold OverlayAddress.from_str, OverlayAddress.to_string. split.
  - intros H. inv_ok. apply strip_suffix_Some in H as ->.
    apply ipv4_parse_inv in H0 as [_ ->].
    destruct (_ && _) eqn:E in H1; [|done]. injection H1 as <-. bool_prop.
    split; [|done]. apply OverlayAddress_valid_iff.
    destruct x0 as [o0 o1 o2 o3]; simpl in *. naive_solver.
  - intros [Hv ->]. apply OverlayAddress_valid_iff in Hv as (h & Hh & ->); simpl.
    rewrite (proj2 (strip_suffix_Some _ _ _) eq_refl). simpl.
    rewrite ipv4_parse_display by (unfold Ipv4Addr.octets; simpl; solve_Forall lia). simpl.
    destruct (Z.leb_spec 2 h), (Z.leb_spec h 254); done || lia.
Qed.

Lemma overlay_to_string_inj a b :
  OverlayAddress.valid a → OverlayAddress.valid b →
  OverlayAddress.to_string a = OverlayAddress.to_string b → a = b.
Proof.
  intros Ha Hb Heq.
  pose proof (proj2 (overlay_text_iff _ a) (conj Ha eq_refl)) as E1.
  pose proof (proj2 (overlay_text_iff _ b) (conj Hb eq_refl)) as E2.
  rewrite Heq in E1. congruence.
Qed.

(** ** Properties *)

(** Text round trip of overlay addresses, in both directions: what [Display] prints is
    parsed back, and [from_str] accepts a text only if it is the one [Display] prints for a valid
    address (so no other network, no server or broadcast address, no padded octet). *)
Theorem overlay_address_text s a :
  OverlayAddress.from_str s = Ok a ↔
  OverlayAddress.valid a ∧ s = OverlayAddress.to_string a.
Proof. apply overlay_text_iff. Qed.
