(* ===== verification/Vpn.v ===== *)
(** * Vpn: the peer policy ([policy/src/vpn.rs], [VpnPeer] and [VpnPolicy])

    [VpnPolicy] owns the peers and the generation.  Every mutating method takes the policy
    and gives back the call's outcome and the policy it leaves, the panic of an exhausted
    generation included (the map has been changed by then, the generation has not). *)
From S2P Require Export Ids.

Record VpnPeer := mkVpnPeer {
  user_id : UserId;
  peer_id : PeerId;
  public_key : WireGuardPublicKey;
  address : OverlayAddress;
  health_policy : HealthPolicy;
  games : bool;
}.

#[export] Instance VpnPeer_eq_dec : EqDecision VpnPeer.
Proof. solve_decision. Defined.

Definition permissions (peer : VpnPeer) : list Permission :=
  [Egress] ++ (if games peer then [Games] else []).

(** [peers] is the [BTreeMap<PeerId, VpnPeer>], keyed by the identifier's text. *)
Record VpnPolicy := mkVpnPolicy {
  generation : Generation;
  peers : gmap string VpnPeer;
}.

Definition default_policy : VpnPolicy := mkVpnPolicy (Generation.mk 1) ∅.

Definition policy_peers (self : VpnPolicy) : list VpnPeer := btree_values (peers self).

(** [self.generation = self.generation.next()] and the value returned after it. *)
Definition bump {A} (m : gmap string VpnPeer) (g : Generation) (a : A) : outcome A PolicyError * VpnPolicy :=
  match Generation.next g with
  | Some g' => (Returned (Ok a), mkVpnPolicy g' m)
  | None => (Panicked, mkVpnPolicy g m)
  end.

(** [(2..=254)]. *)
Definition host_range : list Z := seqZ 2 253.

Definition allocate_address (self : VpnPolicy) : result OverlayAddress PolicyError :=
  let used : gset Z :=
    list_to_set ((λ peer, OverlayAddress.host (address peer)) <$> policy_peers self) in
  let free := find (λ host, negb (bool_decide (host ∈ used))) host_range in
  try? found := transpose (OverlayAddress.new <$> free) in
  ok_or found AddressPoolExhausted.

Definition enroll (self : VpnPolicy) (uid : UserId) (pid : PeerId) (key : WireGuardPublicKey)
    (with_games : bool) : outcome VpnPeer PolicyError * VpnPolicy :=
  if bool_decide (is_Some (peers self !! PeerId.as_str pid))
     || existsb (λ peer, bool_decide (public_key peer = key)) (policy_peers self)
  then (Returned (Err PeerAlreadyExists), self)
  else match allocate_address self with
       | Err e => (Returned (Err e), self)
       | Ok addr =>
           let peer := mkVpnPeer uid pid key addr OnDemand with_games in
           bump (<[PeerId.as_str pid := peer]> (peers self)) (generation self) peer
       end.

Definition with_peer_games (enabled : bool) (peer : VpnPeer) : VpnPeer :=
  mkVpnPeer (user_id peer) (peer_id peer) (public_key peer) (address peer)
    (health_policy peer) enabled.

Definition set_games (self : VpnPolicy) (pid : PeerId) (enabled : bool)
    : outcome bool PolicyError * VpnPolicy :=
  match peers self !! PeerId.as_str pid with
  | None => (Returned (Err PeerNotFound), self)
  | Some peer =>
      if Bool.eqb (games peer) enabled then (Returned (Ok false), self)
      else bump (<[PeerId.as_str pid := with_peer_games enabled peer]> (peers self))
             (generation self) true
  end.

Definition with_public_key (key : WireGuardPublicKey) (peer : VpnPeer) : VpnPeer :=
  mkVpnPeer (user_id peer) (peer_id peer) key (address peer) (health_policy peer) (games peer).

Definition rotate_key (self : VpnPolicy) (pid : PeerId) (key : WireGuardPublicKey)
    : outcome bool PolicyError * VpnPolicy :=
  if existsb (λ '(existing_id, peer),
        negb (bool_decide (existing_id = PeerId.as_str pid))
        && bool_decide (public_key peer = key)) (btree_entries (peers self))
  then (Returned (Err DuplicatePeerIdentity), self)
  else match peers self !! PeerId.as_str pid with
       | None => (Returned (Err PeerNotFound), self)
       | Some peer =>
           if bool_decide (public_key peer = key) then (Returned (Ok false), self)
           else bump (<[PeerId.as_str pid := with_public_key key peer]> (peers self))
                  (generation self) true
       end.

Definition revoke (self : VpnPolicy) (pid : PeerId) : outcome VpnPeer PolicyError * VpnPolicy :=
  match peers self !! PeerId.as_str pid with
  | None => (Returned (Err PeerNotFound), self)
  | Some peer => bump (delete (PeerId.as_str pid) (peers self)) (generation self) peer
  end.

(** ** Executions: any sequence of method calls on one policy *)

Inductive policy_call :=
| Enroll (uid : UserId) (pid : PeerId) (key : WireGuardPublicKey) (with_games : bool)
| SetGames (pid : PeerId) (enabled : bool)
| RotateKey (pid : PeerId) (key : WireGuardPublicKey)
| Revoke (pid : PeerId).

Definition drop_value {A} (r : outcome A PolicyError * VpnPolicy) : outcome unit PolicyError * VpnPolicy :=
  (match r.1 with
   | Returned (Ok _) => Returned (Ok tt)
   | Returned (Err e) => Returned (Err e)
   | Panicked => Panicked
   end, r.2).

Definition run_call (self : VpnPolicy) (c : policy_call) : outcome unit PolicyError * VpnPolicy :=
  match c with
  | Enroll uid pid key g => drop_value (enroll self uid pid key g)
  | SetGames pid enabled => drop_value (set_games self pid enabled)
  | RotateKey pid key => drop_value (rotate_key self pid key)
  | Revoke pid => drop_value (revoke self pid)
  end.

(** The policy after a sequence of calls, whatever each of them answered. *)
Definition run_calls (self : VpnPolicy) (cs : list policy_call) : VpnPolicy :=
  foldl (λ p c, (run_call p c).2) self cs.

(** Executions in which no call has panicked. *)
Inductive steady : VpnPolicy → VpnPolicy → Prop :=
| steady_refl p : steady p p
| steady_call p q c q' r :
    steady p q → run_call q c = (Returned r, q') → steady p q'.

(** ** The invariant *)

Record policy_wf (p : VpnPolicy) : Prop := {
  wf_generation : Generation.valid (generation p);
  wf_key k peer : peers p !! k = Some peer → k = PeerId.as_str (peer_id peer);
  wf_address_valid k peer : peers p !! k = Some peer → OverlayAddress.valid (address peer);
  wf_public_key k1 k2 p1 p2 :
    peers p !! k1 = Some p1 → peers p !! k2 = Some p2 →
    public_key p1 = public_key p2 → k1 = k2;
  wf_address k1 k2 p1 p2 :
    peers p !! k1 = Some p1 → peers p !! k2 = Some p2 →
    address p1 = address p2 → k1 = k2;
}.

(** A host of the pool is in use. *)
Definition host_used (p : VpnPolicy) (h : Z) : Prop :=
  ∃ k peer, peers p !! k = Some peer ∧ OverlayAddress.host (address peer) = h.

(** The identifier or the key is already taken. *)
Definition identity_taken (p : VpnPolicy) (pid : PeerId) (key : WireGuardPublicKey) : Prop :=
  is_Some (peers p !! PeerId.as_str pid) ∨
  ∃ k peer, peers p !! k = Some peer ∧ public_key peer = key.

(** ** Lemmas *)

Lemma elem_of_policy_peers p peer :
  peer ∈ policy_peers p ↔ ∃ k, peers p !! k = Some peer.
Proof. apply elem_of_btree_values. Qed.

Lemma elem_of_host_range h : h ∈ host_range ↔ 2 ≤ h ≤ 254.
Proof. unfold host_range. rewrite elem_of_seqZ. lia. Qed.

Lemma elem_of_used p h :
  h ∈ (list_to_set ((λ peer, OverlayAddress.host (address peer)) <$> policy_peers p) : gset Z)
  ↔ host_used p h.
Proof.
  rewrite elem_of_list_to_set, list_elem_of_fmap. unfold host_used.
  setoid_rewrite elem_of_policy_peers. naive_solver.
Qed.

(** [find] on an increasing range gives the least element that passes. *)
Lemma find_seqZ_least f a n x :
  find f (seqZ a n) = Some x → a ≤ x < a + n ∧ f x = true ∧ ∀ y, a ≤ y < x → f y = false.
Proof.
  destruct (Z.lt_ge_cases n 0) as [Hn|Hn]; [by rewrite seqZ_nil by lia|].
  revert a. pattern n. apply natlike_ind; [by intros a| |done]. clear n Hn.
  intros n Hn IH a. rewrite seqZ_cons by lia. simpl.
  destruct (f a) eqn:Ha.
  - intros [= <-]. split; [lia|]. split; [done|]. intros; lia.
  - rewrite Z.pred_succ. intros H. apply IH in H as (? & ? & Hl). split; [lia|]. split; [done|].
    intros y Hy. destruct (decide (y = a)) as [->|]; [done|]. apply Hl. lia.
Qed.

Lemma OverlayAddress_new_Ok h :
  2 ≤ h ≤ 254 → OverlayAddress.new h = Ok (OverlayAddress.mk (Ipv4Addr.mk 10 100 0 h)).
Proof.
  intros. unfold OverlayAddress.new.
  destruct (Z.leb_spec 2 h), (Z.leb_spec h 254); done || lia.
Qed.

Lemma allocate_address_Ok p a :
  allocate_address p = Ok a →
  OverlayAddress.valid a ∧ ¬ host_used p (OverlayAddress.host a) ∧
  ∀ h, 2 ≤ h < OverlayAddress.host a → host_used p h.
Proof.
  unfold allocate_address. destruct (find _ host_range) as [h|] eqn:E; simpl; [|done].
  apply find_seqZ_least in E as (Hh & Hfree & Hleast).
  rewrite OverlayAddress_new_Ok by lia. simpl. intros [= <-].
  rewrite negb_true_iff, bool_decide_eq_false, elem_of_used in Hfree.
  split; [|split].
  - apply OverlayAddress_valid_iff. exists h. split; [lia|done].
  - done.
  - intros y Hy. apply elem_of_used.
    specialize (Hleast y Hy). apply negb_false_iff, bool_decide_eq_true in Hleast. done.
Qed.

Lemma allocate_address_Err p e :
  allocate_address p = Err e → e = AddressPoolExhausted ∧ ∀ h, 2 ≤ h ≤ 254 → host_used p h.
Proof.
  unfold allocate_address. destruct (find _ host_range) as [h|] eqn:E; simpl.
  - apply find_seqZ_least in E as (Hh & _). by rewrite OverlayAddress_new_Ok by lia.
  - intros [= <-]. split; [done|]. intros h Hh.
    apply find_is_none with (x := h) in E; [|by apply elem_of_host_range].
    apply elem_of_used. by apply negb_false_iff, bool_decide_eq_true in E.
Qed.

(** A call that changes the map either bumps the generation by one or panics. *)
Lemma bump_cases {A} m g (a : A) :
  (Generation.get g + 1 ≤ U64_MAX ∧
     bump m g a = (Returned (Ok a), mkVpnPolicy (Generation.mk (Generation.get g + 1)) m)) ∨
  (U64_MAX < Generation.get g + 1 ∧ bump m g a = (Panicked, mkVpnPolicy g m)).
Proof.
  unfold bump, Generation.next. destruct (Z.leb_spec (Generation.get g + 1) U64_MAX); auto.
Qed.

Lemma taken_iff p pid key :
  bool_decide (is_Some (peers p !! PeerId.as_str pid))
    || existsb (λ peer, bool_decide (public_key peer = key)) (policy_peers p) = true
  ↔ identity_taken p pid key.
Proof.
  unfold identity_taken. rewrite orb_true_iff, bool_decide_eq_true, existsb_elem.
  setoid_rewrite elem_of_policy_peers. setoid_rewrite bool_decide_eq_true. naive_solver.
Qed.

Lemma duplicate_key_iff p pid key :
  existsb (λ '(existing_id, peer),
        negb (bool_decide (existing_id = PeerId.as_str pid))
        && bool_decide (public_key peer = key)) (btree_entries (peers p)) = true
  ↔ ∃ k peer, k ≠ PeerId.as_str pid ∧ peers p !! k = Some peer ∧ public_key peer = key.
Proof.
  rewrite existsb_elem. split.
  - intros ([k peer] & Hin & H). bool_prop. apply elem_of_btree_entries in Hin. eauto.
  - intros (k & peer & Hk & Hin & Hkey). exists (k, peer).
    rewrite elem_of_btree_entries. split; [done|].
    rewrite andb_true_iff, negb_true_iff, bool_decide_eq_false, bool_decide_eq_true. done.
Qed.

(** *** The invariant is kept by the three ways the map changes *)

Section preservation.
Context (p : VpnPolicy) (Hwf : policy_wf p).

Lemma wf_bump {A} m (a : A) :
  policy_wf (mkVpnPolicy (generation p) m) → policy_wf (bump m (generation p) a).2.
Proof.
  intros H. destruct (bump_cases m (generation p) a) as [[Hb ->]|[_ ->]]; [|done].
  destruct H as [Hg ? ? ? ?]; constructor; simpl in *; try done.
  unfold Generation.valid in *; simpl. lia.
Qed.

Lemma wf_insert_new pid peer :
  pid = peer_id peer → OverlayAddress.valid (address peer) →
  ¬ identity_taken p pid (public_key peer) →
  (∀ k q, peers p !! k = Some q → address q ≠ address peer) →
  policy_wf (mkVpnPolicy (generation p) (<[PeerId.as_str pid := peer]> (peers p))).
Proof.
  intros -> Hv Hfresh Haddr. unfold identity_taken in Hfresh.
  destruct Hwf as [? Hk Ha Hpk Had]. constructor; simpl; [done|..].
  - intros k q. rewrite lookup_insert_Some. naive_solver.
  - intros k q. rewrite lookup_insert_Some. naive_solver.
  - intros k1 k2 p1 p2. rewrite !lookup_insert_Some. naive_solver.
  - intros k1 k2 p1 p2. rewrite !lookup_insert_Some. naive_solver.
Qed.

(** An update in place of one peer that keeps its identifier and address. *)
Lemma wf_update k peer peer' :
  peers p !! k = Some peer → peer_id peer' = peer_id peer → address peer' = address peer →
  (∀ k' q, k' ≠ k → peers p !! k' = Some q → public_key q ≠ public_key peer') →
  policy_wf (mkVpnPolicy (generation p) (<[k := peer']> (peers p))).
Proof.
  intros Hp Hid Haddr Hkey. destruct Hwf as [? Hk Ha Hpk Had]. constructor; simpl; [done|..].
  - intros k' q. rewrite lookup_insert_Some. intros [[-> <-]|[? ?]]; [|by eauto].
    rewrite Hid. eauto.
  - intros k' q. rewrite lookup_insert_Some. intros [[-> <-]|[? ?]]; [|by eauto].
    rewrite Haddr. eauto.
  - intros k1 k2 p1 p2. rewrite !lookup_insert_Some.
    intros [[-> <-]|[? ?]] [[-> <-]|[? ?]] ?; naive_solver.
  - intros k1 k2 p1 p2. rewrite !lookup_insert_Some.
    intros [[-> <-]|[? ?]] [[-> <-]|[? ?]] He; try done.
    + rewrite Haddr in He. eauto.
    + rewrite Haddr in He. eauto.
    + eauto.
Qed.

Lemma wf_delete k : policy_wf (mkVpnPolicy (generation p) (delete k (peers p))).
Proof.
  destruct Hwf as [? Hk Ha Hpk Had]. constructor; simpl; [done|..].
  - intros k' q. rewrite lookup_delete_Some. naive_solver.
  - intros k' q. rewrite lookup_delete_Some. naive_solver.
  - intros k1 k2 p1 p2. rewrite !lookup_delete_Some. naive_solver.
  - intros k1 k2 p1 p2. rewrite !lookup_delete_Some. naive_solver.
Qed.

End preservation.

Lemma host_unused_address p a k q :
  ¬ host_used p (OverlayAddress.host a) → peers p !! k = Some q → address q ≠ a.
Proof. intros Hu Hq <-. apply Hu. by exists k, q. Qed.

Lemma enroll_wf p uid pid key g : policy_wf p → policy_wf (enroll p uid pid key g).2.
Proof.
  intros Hwf. unfold enroll.
  destruct (bool_decide _ || _) eqn:Et; [done|].
  assert (¬ identity_taken p pid key) as Hfresh.
  { rewrite <- taken_iff, Et. done. }
  destruct (allocate_address p) as [a|] eqn:Ea; [|done].
  apply allocate_address_Ok in Ea as (Hv & Hu & _).
  apply wf_bump, wf_insert_new; simpl; eauto using host_unused_address.
Qed.

Lemma set_games_wf p pid b : policy_wf p → policy_wf (set_games p pid b).2.
Proof.
  intros Hwf. unfold set_games. destruct (peers p !! _) as [peer|] eqn:Ep; [|done].
  destruct (Bool.eqb _ _); [done|].
  apply wf_bump, (wf_update p Hwf _ peer); try done.
  simpl. intros k' q Hne Hq Heq. apply Hne. destruct Hwf. eauto.
Qed.

Lemma rotate_key_wf p pid key : policy_wf p → policy_wf (rotate_key p pid key).2.
Proof.
  intros Hwf. unfold rotate_key. destruct (existsb _ _) eqn:Ed; [done|].
  destruct (peers p !! _) as [peer|] eqn:Ep; [|done].
  case_bool_decide; [done|].
  apply wf_bump, (wf_update p Hwf _ peer); try done.
  simpl. intros k' q Hne Hq Heq.
  assert (existsb (λ '(existing_id, peer),
        negb (bool_decide (existing_id = PeerId.as_str pid))
        && bool_decide (public_key peer = key)) (btree_entries (peers p)) = true); [|congruence].
  apply duplicate_key_iff. eauto.
Qed.

Lemma revoke_wf p pid : policy_wf p → policy_wf (revoke p pid).2.
Proof.
  intros Hwf. unfold revoke. destruct (peers p !! _); [|done].
  by apply wf_bump, wf_delete.
Qed.

#[export] Hint Resolve enroll_wf set_games_wf rotate_key_wf revoke_wf : console.

Lemma run_call_wf p c : policy_wf p → policy_wf (run_call p c).2.
Proof. destruct c; simpl; eauto with console. Qed.

Lemma default_policy_wf : policy_wf default_policy.
Proof. constructor; simpl; try done. Qed.

Lemma run_calls_wf p cs : policy_wf p → policy_wf (run_calls p cs).
Proof. revert p. induction cs as [|c cs IH]; intros p Hp; [done|]. by apply IH, run_call_wf. Qed.

(** *** The pool bounds the number of peers *)

Lemma policy_hosts_NoDup p :
  policy_wf p → NoDup ((λ peer, OverlayAddress.host (address peer)) <$> policy_peers p).
Proof.
  intros Hwf. apply btree_values_NoDup. intros k1 k2 v1 v2 H1 H2 Heq.
  apply (wf_address _ Hwf k1 k2 v1 v2 H1 H2).
  pose proof (wf_address_valid _ Hwf _ _ H1) as V1.
  pose proof (wf_address_valid _ Hwf _ _ H2) as V2.
  unfold OverlayAddress.valid in *. rewrite Heq in V1. congruence.
Qed.

Lemma policy_hosts_range p peer :
  policy_wf p → peer ∈ policy_peers p → 2 ≤ OverlayAddress.host (address peer) ≤ 254.
Proof.
  intros Hwf [k Hk]%elem_of_policy_peers.
  apply (wf_address_valid _ Hwf), OverlayAddress_valid_iff in Hk as (h & ? & ->). done.
Qed.

Lemma policy_size p : policy_wf p → (size (peers p) ≤ 253)%nat.
Proof.
  intros Hwf. rewrite <- btree_values_length. fold (policy_peers p).
  rewrite <- (length_fmap (λ peer, OverlayAddress.host (address peer))).
  replace 253%nat with (length host_range) by (unfold host_range; by rewrite length_seqZ).
  apply submseteq_length, NoDup_submseteq; [by apply policy_hosts_NoDup|].
  intros h. rewrite list_elem_of_fmap, elem_of_host_range.
  intros (peer & -> & ?). by apply policy_hosts_range with p.
Qed.

(** The pool is exhausted exactly when it holds 253 peers. *)
Lemma exhausted_iff p :
  policy_wf p → (∀ h, 2 ≤ h ≤ 254 → host_used p h) ↔ size (peers p) = 253%nat.
Proof.
  intros Hwf. pose proof (policy_size p Hwf) as Hle.
  set (hosts := (λ peer, OverlayAddress.host (address peer)) <$> policy_peers p).
  assert (length hosts = size (peers p)) as Hlen.
  { unfold hosts. by rewrite length_fmap, <- btree_values_length. }
  assert (length host_range = 253%nat) as Hr by (unfold host_range; by rewrite length_seqZ).
  assert (∀ h, h ∈ hosts ↔ host_used p h) as Hh.
  { intros h. unfold hosts. rewrite list_elem_of_fmap. unfold host_used.
    setoid_rewrite elem_of_policy_peers. naive_solver. }
  assert (hosts ⊆ host_range) as Hsub.
  { intros h Hin. apply elem_of_host_range.
    unfold hosts in Hin. apply list_elem_of_fmap in Hin as (peer & -> & Hp).
    by apply policy_hosts_range with p. }
  pose proof (policy_hosts_NoDup p Hwf) as Hnd. fold hosts in Hnd.
  split.
  - intros Hall. assert (host_range ⊆ hosts) as Hsup.
    { intros h Hin%elem_of_host_range. by apply Hh, Hall. }
    apply NoDup_submseteq, submseteq_length in Hsup; [lia|]. apply NoDup_seqZ.
  - intros Hs h Hin%elem_of_host_range. apply Hh.
    assert (hosts ≡ₚ host_range) as ->; [|done].
    apply submseteq_length_Permutation; [by apply NoDup_submseteq|lia].
Qed.

(** *** Calls and the generation *)

(** What a call can do to the policy: nothing, or one change that moves the generation by one,
    or the change without the move when the generation is exhausted. *)
Lemma bump_effect {A} p m (a : A) :
  let r := bump m (generation p) a in
  (r.1 = Returned (Ok a) ∧ generation r.2 = Generation.mk (Generation.get (generation p) + 1)) ∨
  r.1 = Panicked.
Proof. destruct (bump_cases m (generation p) a) as [[_ ->]|[_ ->]]; simpl; auto. Qed.

Lemma run_call_effect p c r p' :
  run_call p c = (Returned r, p') →
  p' = p ∨ generation p' = Generation.mk (Generation.get (generation p) + 1).
Proof.
  destruct c; simpl; unfold drop_value, enroll, set_games, rotate_key, revoke;
    repeat case_match; simpl; intros; simplify_eq; auto;
    match goal with
    | H : (bump ?m ?g ?a).1 = _ |- _ =>
        destruct (bump_effect p m a) as [[? ?]|?]; simpl in *; (congruence || auto)
    end.
Qed.

Lemma steady_effect p q :
  steady p q →
  Generation.get (generation p) ≤ Generation.get (generation q) ∧
  (generation p = generation q → p = q).
Proof.
  induction 1 as [|p q c q' r _ [IHle IHeq] Hc]; [split; [lia|done]|].
  apply run_call_effect in Hc as [->|Hg]; [by split|]. rewrite Hg. simpl.
  split; [lia|]. intros Heq. rewrite Heq in IHle. simpl in IHle. lia.
Qed.

(** No call of the sequence panics. *)
Fixpoint panic_free (p : VpnPolicy) (cs : list policy_call) : bool :=
  match cs with
  | [] => true
  | c :: cs =>
      match run_call p c with
      | (Returned _, p') => panic_free p' cs
      | (Panicked, _) => false
      end
  end.

Lemma steady_run_calls p cs : panic_free p cs = true → steady p (run_calls p cs).
Proof.
  assert (∀ q, steady p q → panic_free q cs = true → steady p (run_calls q cs)) as H.
  { induction cs as [|c cs IH]; intros q Hq; [done|]. simpl.
    destruct (run_call q c) as [[r|] q'] eqn:Hc; [|done]. simpl. apply IH. by eapply steady_call. }
  apply H, steady_refl.
Qed.

(** *** Calls and the peers they do not name *)

Definition call_peer (c : policy_call) : PeerId :=
  match c with
  | Enroll _ pid _ _ | SetGames pid _ | RotateKey pid _ | Revoke pid => pid
  end.

Lemma peers_bump {A} m g (a : A) : peers (bump m g a).2 = m.
Proof. destruct (bump_cases m g a) as [[_ ->]|[_ ->]]; done. Qed.

Lemma run_call_peers p c :
  peers (run_call p c).2 = peers p ∨
  (∃ uid pid key g a, c = Enroll uid pid key g ∧ peers p !! PeerId.as_str pid = None ∧
     peers (run_call p c).2 =
     <[PeerId.as_str pid := mkVpnPeer uid pid key a OnDemand g]> (peers p)) ∨
  (∃ peer peer', peers p !! PeerId.as_str (call_peer c) = Some peer ∧
     (∃ k g, peer' = with_public_key k (with_peer_games g peer)) ∧
     peers (run_call p c).2 = <[PeerId.as_str (call_peer c) := peer']> (peers p)) ∨
  (peers (run_call p c).2 = delete (PeerId.as_str (call_peer c)) (peers p)).
Proof.
  destruct c as [uid pid key g|pid b|pid key|pid]; simpl.
  - unfold enroll. destruct (bool_decide _ || _) eqn:Et; [by left|].
    apply orb_false_iff in Et as [Et _]. apply bool_decide_eq_false, eq_None_not_Some in Et.
    destruct (allocate_address p) as [a|]; [|by left].
    right; left. exists uid, pid, key, g, a. by rewrite peers_bump.
  - unfold set_games. destruct (peers p !! _) as [peer|] eqn:E; [|by left].
    destruct (Bool.eqb _ _); [by left|]. right; right; left. rewrite peers_bump.
    exists peer, (with_peer_games b peer). split; [done|]. split; [|done].
    by exists (public_key peer), b; destruct peer.
  - unfold rotate_key. destruct (existsb _ _); [by left|].
    destruct (peers p !! _) as [peer|] eqn:E; [|by left].
    case_bool_decide; [by left|]. right; right; left. rewrite peers_bump.
    exists peer, (with_public_key key peer). split; [done|]. split; [|done].
    by exists key, (games peer); destruct peer.
  - unfold revoke. destruct (peers p !! _); [|by left]. right; right; right. by rewrite peers_bump.
Qed.

(** ** Properties *)

(** C12: whatever calls are made in whatever order, failing ones and panicking ones included, a
    policy that starts from the default one satisfies its invariant: a positive 64-bit
    generation, the map keyed by each peer's own identifier, every address in the pool of
    [10.100.0.0/24], and no two peers with one public key or one address. *)
Theorem policy_invariant cs : policy_wf (run_calls default_policy cs).
Proof. apply run_calls_wf, default_policy_wf. Qed.

(** C30: [enroll] on a well-formed policy, on every branch: it refuses exactly when the identifier
    or the key is taken, reports an exhausted pool exactly when 253 peers are enrolled,
    changes nothing in both cases, and otherwise stores a peer with the given fields, on-demand
    health policy and the least free host of the pool, and moves the generation by one (the
    only panic is the 64-bit generation's end). *)
Theorem enroll_complete p uid pid key g :
  policy_wf p →
  match enroll p uid pid key g with
  | (Returned (Ok peer), p') =>
      ¬ identity_taken p pid key ∧ (size (peers p) < 253)%nat ∧
      peer = mkVpnPeer uid pid key (address peer) OnDemand g ∧
      OverlayAddress.valid (address peer) ∧
      ¬ host_used p (OverlayAddress.host (address peer)) ∧
      (∀ h, 2 ≤ h < OverlayAddress.host (address peer) → host_used p h) ∧
      peers p' = <[PeerId.as_str pid := peer]> (peers p) ∧
      Generation.get (generation p') = Generation.get (generation p) + 1
  | (Returned (Err PeerAlreadyExists), p') => identity_taken p pid key ∧ p' = p
  | (Returned (Err AddressPoolExhausted), p') =>
      ¬ identity_taken p pid key ∧ size (peers p) = 253%nat ∧ p' = p
  | (Returned (Err _), _) => False
  | (Panicked, _) => Generation.get (generation p) = U64_MAX
  end.
Proof.
  intros Hwf. unfold enroll. destruct (bool_decide _ || _) eqn:Et.
  { by apply taken_iff in Et. }
  assert (¬ identity_taken p pid key) as Hfresh by (by rewrite <- taken_iff, Et).
  destruct (allocate_address p) as [a|e] eqn:Ea.
  - apply allocate_address_Ok in Ea as (Hv & Hu & Hleast).
    assert (size (peers p) ≠ 253%nat) as Hsz.
    { rewrite <- exhausted_iff by done. intros Hall. apply Hu, Hall.
      apply OverlayAddress_valid_iff in Hv as (h & ? & ->). done. }
    pose proof (policy_size p Hwf). pose proof (wf_generation _ Hwf) as [_ ?].
    destruct (bump_cases (<[PeerId.as_str pid:=mkVpnPeer uid pid key a OnDemand g]> (peers p))
                (generation p) (mkVpnPeer uid pid key a OnDemand g)) as [[? ->]|[? ->]]; [|lia].
    simpl. repeat split; done || lia.
  - apply allocate_address_Err in Ea as [-> Hall]. by rewrite exhausted_iff in Hall.
Qed.

(** Three devices of one user, the second one revoked. *)
Definition sample_key (n : Z) : WireGuardPublicKey :=
  WireGuardPublicKey.mk (from_bytes (replicate 43 (digit_char n)) +:+ "=").
Definition sample_calls : list policy_call :=
  [Enroll (UserId.mk "user-1") (PeerId.mk "peer-1") (sample_key 1) false;
   Enroll (UserId.mk "user-1") (PeerId.mk "peer-2") (sample_key 2) true;
   Enroll (UserId.mk "user-1") (PeerId.mk "peer-3") (sample_key 3) false;
   Revoke (PeerId.mk "peer-2")].
Definition sample_policy : VpnPolicy := run_calls default_policy sample_calls.

(** The revoked peer's address is the least free one, and is given out again. *)
Lemma enroll_complete_witness :
  policy_wf sample_policy ∧
  ∃ peer, enroll sample_policy (UserId.mk "user-2") (PeerId.mk "peer-4") (sample_key 4) true =
    (Returned (Ok peer), (enroll sample_policy (UserId.mk "user-2") (PeerId.mk "peer-4") (sample_key 4) true).2) ∧
  OverlayAddress.host (address peer) = 3 ∧ OverlayAddress.valid (address peer) ∧
  host_used sample_policy 2.
Proof.
  assert (policy_wf sample_policy) as Hwf by apply run_calls_wf, default_policy_wf.
  split; [exact Hwf|].
  pose proof (enroll_complete sample_policy (UserId.mk "user-2") (PeerId.mk "peer-4")
                (sample_key 4) true Hwf) as H.
  assert (∃ peer, enroll sample_policy (UserId.mk "user-2") (PeerId.mk "peer-4") (sample_key 4) true =
    (Returned (Ok peer), (enroll sample_policy (UserId.mk "user-2") (PeerId.mk "peer-4") (sample_key 4) true).2)
    ∧ OverlayAddress.host (address peer) = 3) as (peer & Heq & Hhost)
    by (eexists; split; vm_compute; reflexivity).
  rewrite Heq in H. destruct H as (_ & _ & _ & Hv & _ & Hleast & _).
  exists peer. split; [exact Heq|]. split; [exact Hhost|]. split; [exact Hv|].
  apply Hleast. rewrite Hhost. lia.
Defined.

(** Between panics, a generation identifies the content of the policy: along any sequence of
    calls the generation never decreases, and if it is unchanged then so is the whole policy
    (calls that fail or change nothing do not move it, calls that change anything do). *)
Theorem generation_identifies_policy p q :
  steady p q →
  Generation.get (generation p) ≤ Generation.get (generation q) ∧
  (generation p = generation q → p = q).
Proof. apply steady_effect. Qed.

Lemma generation_identifies_policy_witness :
  steady default_policy sample_policy ∧
  Generation.get (generation default_policy) ≤ Generation.get (generation sample_policy) ∧
  generation default_policy ≠ generation sample_policy.
Proof.
  assert (steady default_policy sample_policy) as Hs.
  { apply steady_run_calls. by vm_compute. }
  split; [exact Hs|].
  split; [exact (proj1 (generation_identifies_policy default_policy sample_policy Hs))|].
  by vm_compute.
Defined.

(** A call touches only the peer it names, and never moves an enrolled peer: every other
    entry is as before, and a peer present before and after keeps its identifier, its
    owner and its stable address, whichever call was made. *)
Theorem calls_are_local p c k :
  (k ≠ PeerId.as_str (call_peer c) → peers (run_call p c).2 !! k = peers p !! k) ∧
  (∀ peer peer', peers p !! k = Some peer → peers (run_call p c).2 !! k = Some peer' →
     peer_id peer' = peer_id peer ∧ user_id peer' = user_id peer ∧
     address peer' = address peer).
Proof.
  destruct (run_call_peers p c)
    as [Heq|[(uid & pid & key & g & a & -> & Hn' & Hn)|[(q & q' & Hq & (k' & g & Hq') & He)|Hd]]];
    [rewrite Heq|rewrite Hn|subst q'; rewrite He|rewrite Hd].
  - naive_solver.
  - simpl. split; [intros; by rewrite lookup_insert_ne|].
    intros peer peer' Hp. rewrite lookup_insert_ne by congruence. naive_solver.
  - split; [intros; by rewrite lookup_insert_ne|].
    intros peer peer' Hp. rewrite lookup_insert_Some. naive_solver.
  - split; [intros; by rewrite lookup_delete_ne|].
    intros peer peer' Hp. rewrite lookup_delete_Some. naive_solver.
Qed.
