(* ===== verification/Json.v ===== *)
(** * Json: [serde_json::Value] and the canonical writer ([policy/src/contract.rs],
    [write_canonical_json])

    An object is the list of its entries in the iteration order of the map; [wf_value] says that
    its keys are distinct.  [canon] sorts every object by key, [text] prints a value
    with the entries in the order given. *)
From S2P Require Export Ids.

(** serde_json's representation of numbers: [u64], negative [i64], or a float (kept as its bits). *)
Inductive Number :=
| PosInt (n : Z)
| NegInt (n : Z)
| Float (bits : Z).

Inductive Value :=
| Null
| Bool (b : bool)
| Num (n : Number)
| Str (s : string)
| Array (values : list Value)
| Object (entries : list (string * Value)).

(** [value[key]] and [value[i]]: what is not there reads as [Null]. *)
Definition value_index (key : string) (v : Value) : Value :=
  match v with
  | Object entries =>
      match find (λ kv, String.eqb kv.1 key) entries with Some (_, v) => v | None => Null end
  | _ => Null
  end.
Definition value_index_at (i : nat) (v : Value) : Value :=
  match v with Array values => default Null (values !! i) | _ => Null end.
Definition value_as_str (v : Value) : option string := match v with Str s => Some s | _ => None end.

(** Induction over the nested lists. *)
Section value_ind.
Context (P : Value → Prop).
Context (HNull : P Null) (HBool : ∀ b, P (Bool b)) (HNum : ∀ n, P (Num n)) (HStr : ∀ s, P (Str s)).
Context (HArray : ∀ vs, Forall P vs → P (Array vs)).
Context (HObject : ∀ es, Forall (λ e, P e.2) es → P (Object es)).

Fixpoint Value_strong_ind (v : Value) : P v :=
  match v with
  | Null => HNull
  | Bool b => HBool b
  | Num n => HNum n
  | Str s => HStr s
  | Array vs =>
      HArray vs ((fix go vs : Forall P vs :=
        match vs with
        | [] => Forall_nil_2 P
        | v :: vs => Forall_cons_2 P v vs (Value_strong_ind v) (go vs)
        end) vs)
  | Object es =>
      HObject es ((fix go es : Forall (λ e, P e.2) es :=
        match es with
        | [] => Forall_nil_2 _
        | e :: es => Forall_cons_2 (λ e, P e.2) e es (Value_strong_ind e.2) (go es)
        end) es)
  end.
End value_ind.

(** Equality of values: numbers compare as their representations. *)
#[export] Instance Number_eq_dec : EqDecision Number.
Proof. solve_decision. Defined.

#[export] Instance Value_eq_dec : EqDecision Value.
Proof.
  unfold EqDecision, RelDecision. fix go 1. intros v w.
  set (go' := go : EqDecision Value).
  destruct v as [|b|n|s|vs|es], w as [|b'|n'|s'|vs'|es']; try (right; discriminate).
  - by left.
  - destruct (decide (b = b')) as [->|]; [by left | right; congruence].
  - destruct (decide (n = n')) as [->|]; [by left | right; congruence].
  - destruct (decide (s = s')) as [->|]; [by left | right; congruence].
  - destruct (list_eq_dec vs vs') as [->|]; [by left | right; congruence].
  - destruct (list_eq_dec es es') as [->|]; [by left | right; congruence].
Defined.

Section writer.
Context `{SerdeJson}.

Definition number_to_string (n : Number) : string :=
  match n with
  | PosInt n => pretty n
  | NegInt n => pretty n
  | Float bits => f64_to_string bits
  end.

(** The loop over an array: [writers] are the recursive calls, one for each element. *)
Fixpoint write_elements (index : nat) (writers : list (string → result string PolicyError))
    (output : string) : result string PolicyError :=
  match writers with
  | [] => Ok output
  | w :: ws =>
      let output := if decide (0 < index)%nat then output +:+ "," else output in
      try? output := w output in
      write_elements (S index) ws output
  end.

(** [values[*key]]: the first entry of that key.  The keys come from the same map, so the
    missing case (a panic of the index) does not arise. *)
Definition entry_of {A} (entries : list (string * A)) (key : string) : option A :=
  snd <$> find (λ e, bool_decide (e.1 = key)) entries.

(** The loop over the sorted keys of an object. *)
Fixpoint write_members (index : nat)
    (writers : list (string * (string → result string PolicyError)))
    (keys : list string) (output : string) : result string PolicyError :=
  match keys with
  | [] => Ok output
  | key :: keys =>
      let output := if decide (0 < index)%nat then output +:+ "," else output in
      try? quoted := ok_or (json_string key) Serialization in
      let output := output +:+ quoted +:+ ":" in
      try? w := ok_or (entry_of writers key) Serialization in
      try? output := w output in
      write_members (S index) writers keys output
  end.

Fixpoint write_canonical_json (value : Value) (output : string) : result string PolicyError :=
  match value with
  | Null => Ok (output +:+ "null")
  | Bool b => Ok (output +:+ (if b then "true" else "false"))
  | Num n => Ok (output +:+ number_to_string n)
  | Str s =>
      try? quoted := ok_or (json_string s) Serialization in
      Ok (output +:+ quoted)
  | Array values =>
      let writers := (λ v, write_canonical_json v) <$> values in
      try? output := write_elements 0 writers (output +:+ "[") in
      Ok (output +:+ "]")
  | Object entries =>
      let writers := (λ e, (e.1, write_canonical_json e.2)) <$> entries in
      let keys := merge_sort String.le entries.*1 in
      try? output := write_members 0 writers keys (output +:+ "{") in
      Ok (output +:+ "}")
  end.

End writer.

(** ** The specification: sort the keys, then print *)

Fixpoint wf_value (v : Value) : Prop :=
  match v with
  | Array vs => foldr (λ v P, wf_value v ∧ P) True vs
  | Object es => NoDup es.*1 ∧ foldr (λ e P, wf_value e.2 ∧ P) True es
  | _ => True
  end.

(** No floats anywhere: all numbers are integers of serde_json's two integer forms. *)
Fixpoint integral (v : Value) : Prop :=
  match v with
  | Num (PosInt n) => 0 ≤ n
  | Num (NegInt n) => n < 0
  | Num (Float _) => False
  | Array vs => foldr (λ v P, integral v ∧ P) True vs
  | Object es => foldr (λ e P, integral e.2 ∧ P) True es
  | _ => True
  end.

Fixpoint canon (v : Value) : Value :=
  match v with
  | Array vs => Array (canon <$> vs)
  | Object es => Object (merge_sort key_le ((λ e, (e.1, canon e.2)) <$> es))
  | v => v
  end.

(** Equality of JSON values up to the order of object entries, at every depth. *)
Inductive json_equiv : Value → Value → Prop :=
| equiv_null : json_equiv Null Null
| equiv_bool b : json_equiv (Bool b) (Bool b)
| equiv_num n : json_equiv (Num n) (Num n)
| equiv_str s : json_equiv (Str s) (Str s)
| equiv_array vs ws : Forall2 json_equiv vs ws → json_equiv (Array vs) (Array ws)
| equiv_object es es' fs :
    es ≡ₚ es' → Forall2 (λ e f, e.1 = f.1 ∧ json_equiv e.2 f.2) es' fs →
    json_equiv (Object es) (Object fs).

Definition sep_list (ls : list (list ascii)) : list ascii :=
  match ls with
  | [] => []
  | x :: xs => x ++ (xs ≫= cons ","%char)
  end.

Section text.
Context `{SerdeJson}.

Definition json_text (s : string) : list ascii := bytes (default "" (json_string s)).

Fixpoint text (v : Value) : list ascii :=
  match v with
  | Null => bytes "null"
  | Bool b => bytes (if b then "true" else "false")
  | Num n => bytes (number_to_string n)
  | Str s => json_text s
  | Array vs => "["%char :: sep_list (text <$> vs) ++ ["]"%char]
  | Object es => "{"%char ::
      sep_list ((λ e, json_text e.1 ++ ":"%char :: text e.2) <$> es) ++ ["}"%char]
  end.

Definition member_text (e : string * Value) : list ascii :=
  json_text e.1 ++ ":"%char :: text e.2.

End text.

(** ** Lemmas: sorting the entries *)

Lemma sorted_keys {A} (es : list (string * A)) :
  merge_sort String.le es.*1 = (merge_sort key_le es).*1.
Proof.
  apply (StronglySorted_unique String.le).
  - apply StronglySorted_merge_sort; apply _.
  - eapply StronglySorted_fmap; [|apply StronglySorted_merge_sort; apply _].
    intros [] []. done.
  - by rewrite !merge_sort_Permutation.
Qed.

Lemma entry_of_elem {A} (es : list (string * A)) k a :
  NoDup es.*1 → (k, a) ∈ es → entry_of es k = Some a.
Proof.
  unfold entry_of. induction es as [|[k' a'] es IH]; csimpl; [set_solver|].
  rewrite NoDup_cons, elem_of_cons. intros [Hk' Hnd] [[= -> ->]|Hin]; csimpl.
  - by rewrite bool_decide_true.
  - rewrite bool_decide_false; [by apply IH|]. intros ->. apply Hk'.
    apply list_elem_of_fmap. by exists (k, a).
Qed.

(** ** Lemmas: the writer prints the canonical form *)

Lemma foldr_and {A} (P : A → Prop) l : foldr (λ x Q, P x ∧ Q) True l ↔ Forall P l.
Proof. induction l; simpl; rewrite ?Forall_cons, ?Forall_nil; naive_solver. Qed.

(** Text appended to a string, on the side of bytes. *)
Definition appended (out : string) (l : list ascii) : string := from_bytes (bytes out ++ l).

Lemma append_bytes out s : out +:+ s = appended out (bytes s).
Proof. unfold appended. by rewrite from_bytes_app, !from_bytes_bytes. Qed.

Lemma appended_app out l k : appended (appended out l) k = appended out (l ++ k).
Proof. unfold appended. by rewrite bytes_from_bytes, app_assoc. Qed.

Lemma appended_inj out l k : appended out l = appended out k → l = k.
Proof. intros H%(inj from_bytes). by apply app_inv_head in H. Qed.

(** The text of a non-first element carries its comma. *)
Definition next_text (index : nat) (ls : list (list ascii)) : list ascii :=
  match index with O => sep_list ls | S _ => ls ≫= cons ","%char end.

Lemma next_text_cons i l ls :
  next_text i (l :: ls) = (if decide (0 < i)%nat then [","%char] else []) ++ l ++ next_text (S i) ls.
Proof. destruct i; [done|]. by rewrite decide_True by lia. Qed.

Section writer_correct.
Context `{SerdeJsonLaws}.

Lemma json_string_text s : json_string s = Some (from_bytes (json_text s)).
Proof.
  unfold json_text. destruct (json_string_total s) as [t Ht]. rewrite Ht; simpl.
  by rewrite from_bytes_bytes.
Qed.

Lemma write_comma (index : nat) output :
  (if decide (0 < index)%nat then output +:+ "," else output) =
  appended output (if decide (0 < index)%nat then [","%char] else []).
Proof.
  case_decide; [by rewrite append_bytes|].
  unfold appended. by rewrite app_nil_r, from_bytes_bytes.
Qed.

Lemma write_elements_spec vs i out :
  (∀ v, v ∈ vs → ∀ out, write_canonical_json v out = Ok (appended out (text (canon v)))) →
  write_elements i ((λ v, write_canonical_json v) <$> vs) out =
  Ok (appended out (next_text i ((text ∘ canon) <$> vs))).
Proof.
  revert i out. induction vs as [|v vs IH]; intros i out Hvs; csimpl.
  { destruct i; simpl; unfold appended; by rewrite app_nil_r, from_bytes_bytes. }
  rewrite write_comma, Hvs by set_solver. simpl.
  rewrite IH by set_solver. by rewrite !appended_app, next_text_cons.
Qed.

Lemma write_members_spec writers es i out :
  (∀ e, e ∈ es → ∃ w, entry_of writers e.1 = Some w ∧
                      ∀ out, w out = Ok (appended out (text e.2))) →
  write_members i writers es.*1 out = Ok (appended out (next_text i (member_text <$> es))).
Proof.
  revert i out. induction es as [|[k v] es IH]; intros i out Hes; csimpl.
  { destruct i; simpl; unfold appended; by rewrite app_nil_r, from_bytes_bytes. }
  rewrite write_comma, json_string_text. simpl.
  destruct (Hes (k, v)) as (w & Ew & Hw); [set_solver|]. simpl in *.
  rewrite Ew. simpl. rewrite Hw. simpl. rewrite IH by set_solver.
  rewrite (append_bytes (appended out _)), bytes_app, bytes_from_bytes.
  change (bytes ":") with [":"%char].
  rewrite !appended_app, next_text_cons. unfold member_text; simpl.
  by rewrite <- !app_assoc.
Qed.

Lemma canon_entries_keys (es : list (string * Value)) :
  ((λ e, (e.1, canon e.2)) <$> es).*1 = es.*1.
Proof. by rewrite <- list_fmap_compose. Qed.

Lemma write_canonical_json_text v out :
  wf_value v → write_canonical_json v out = Ok (appended out (text (canon v))).
Proof.
  revert out. induction v as [|b|n|s|vs IH|es IH] using Value_strong_ind; intros out Hwf; simpl.
  - by rewrite append_bytes.
  - by rewrite append_bytes.
  - by rewrite append_bytes.
  - by rewrite json_string_text; simpl; rewrite append_bytes, bytes_from_bytes.
  - simpl in Hwf. apply foldr_and in Hwf. rewrite Forall_forall in IH, Hwf.
    rewrite write_elements_spec by eauto. simpl.
    rewrite !append_bytes, !appended_app. simpl. by rewrite <- list_fmap_compose.
  - simpl in Hwf. destruct Hwf as [Hnd Hwf]. apply foldr_and in Hwf.
    rewrite Forall_forall in IH, Hwf.
    rewrite <- canon_entries_keys, sorted_keys.
    rewrite write_members_spec.
    { simpl. by rewrite !append_bytes, !appended_app. }
    intros e He. rewrite merge_sort_Permutation in He.
    apply list_elem_of_fmap in He as ([k v] & -> & Hin). simpl.
    exists (write_canonical_json v). split; [|intros; by eapply (IH (k, v)), (Hwf (k, v))].
    apply entry_of_elem; [by rewrite <- list_fmap_compose|].
    apply list_elem_of_fmap. by exists (k, v).
Qed.

End writer_correct.

(** ** Lemmas: the text determines the value *)

(** What follows a value inside a larger text does not continue a number. *)
Definition delimited (r : list ascii) : Prop :=
  match r with c :: _ => is_ascii_digit c = false | [] => True end.

Definition all_digits (l : list ascii) : Prop := Forall (λ c, is_ascii_digit c = true) l.

Lemma pretty_N_char_digit n : is_ascii_digit (pretty_N_char n) = true.
Proof. unfold pretty_N_char. repeat case_match; done. Qed.

Lemma pretty_N_go_digits n s : all_digits (bytes s) → all_digits (bytes (pretty_N_go n s)).
Proof.
  revert s. induction (N.lt_wf_0 n) as [n _ IH]; intros s Hs.
  destruct (decide (0 < n)%N) as [Hn|Hn].
  - rewrite pretty_N_go_step by done. apply IH; [apply N.div_lt; lia|].
    simpl. constructor; [apply pretty_N_char_digit|done].
  - replace n with 0%N by lia. by rewrite pretty_N_go_0.
Qed.

Lemma pretty_N_digits (n : N) : all_digits (bytes (pretty n)).
Proof.
  unfold pretty, pretty_N. case_decide; [by repeat constructor|].
  apply pretty_N_go_digits. constructor.
Qed.

Lemma pretty_N_nonempty (n : N) : bytes (pretty n) ≠ [].
Proof.
  intros H. apply (inj bytes (pretty n) "") in H.
  unfold pretty, pretty_N in H. case_decide; [done|].
  assert (∀ m s, s ≠ "" → pretty_N_go m s ≠ "") as Hgo.
  { intros m. induction (N.lt_wf_0 m) as [m _ IH]. intros s Hs.
    destruct (decide (0 < m)%N) as [Hm|Hm].
    - rewrite pretty_N_go_step by done. apply IH; [apply N.div_lt; lia|done].
    - replace m with 0%N by lia. by rewrite pretty_N_go_0. }
  rewrite pretty_N_go_step in H by lia. by eapply Hgo in H.
Qed.

(** The bytes of an integer: an optional sign, then digits. *)
Lemma pretty_Z_bytes (z : Z) :
  ∃ n : N, bytes (pretty z) = (if decide (z < 0) then ["-"%char] else []) ++ bytes (pretty n) ∧
           z = (if decide (z < 0) then - Z.of_N n else Z.of_N n).
Proof.
  destruct z as [|p|p]; [exists 0%N|exists (Npos p)|exists (Npos p)]; simpl;
    repeat case_decide; try lia; done.
Qed.

Lemma digits_prefix_inj l1 l2 r1 r2 :
  all_digits l1 → all_digits l2 → delimited r1 → delimited r2 →
  l1 ++ r1 = l2 ++ r2 → l1 = l2 ∧ r1 = r2.
Proof.
  intros H1. revert l2. induction H1 as [|c l1 Hc H1 IH]; intros l2 H2 D1 D2.
  - destruct H2 as [|d l2 Hd H2]; simpl; [done|]. intros ->. simpl in D1. congruence.
  - destruct H2 as [|d l2 Hd H2]; simpl.
    + intros <-. simpl in D2. congruence.
    + intros [= -> Heq]. apply IH in Heq as [-> ->]; done.
Qed.

Lemma digits_head l r : all_digits l → l ≠ [] → ∃ c k, l ++ r = c :: k ∧ is_ascii_digit c = true.
Proof. destruct 1 as [|c k Hc Hk]; [done|]. intros _. exists c, (k ++ r). done. Qed.

Lemma integer_prefix_inj (z1 z2 : Z) r1 r2 :
  delimited r1 → delimited r2 →
  bytes (pretty z1) ++ r1 = bytes (pretty z2) ++ r2 → z1 = z2 ∧ r1 = r2.
Proof.
  intros D1 D2. destruct (pretty_Z_bytes z1) as (n1 & -> & E1), (pretty_Z_bytes z2) as (n2 & -> & E2).
  assert (∀ (n m : N) r r', ["-"%char] ++ bytes (pretty n) ++ r ≠ bytes (pretty m) ++ r') as Hsign.
  { intros n m r r' H.
    destruct (digits_head (bytes (pretty m)) r') as (c & k & Hk & Hc);
      [apply pretty_N_digits|apply pretty_N_nonempty|].
    rewrite Hk in H. simpl in H. injection H as <- _. done. }
  assert (bytes (pretty n1) ++ r1 = bytes (pretty n2) ++ r2 → n1 = n2 ∧ r1 = r2) as Hcore.
  { intros H. apply digits_prefix_inj in H as [H ->]; auto using pretty_N_digits.
    apply (inj bytes) in H. by apply (inj pretty) in H. }
  repeat case_decide; rewrite <- ?app_assoc; intros Heq.
  - injection Heq as Heq. apply Hcore in Heq as [-> ->]. split; [lia|done].
  - destruct (Hsign _ _ _ _ (eq_sym Heq)).
  - destruct (Hsign _ _ _ _ Heq).
  - apply Hcore in Heq as [-> ->]. split; [lia|done].
Qed.

(** Separated lists are read back element by element, if the elements are. *)
Section separated.
Context {A : Type} (t : A → list ascii) (close : ascii) (Q : A → Prop).
Context (close_comma : close ≠ ","%char) (close_digit : is_ascii_digit close = false).
Context (t_head : ∀ x, Q x → ∃ c k, t x = c :: k ∧ c ≠ close).

Definition reads_back (x : A) : Prop :=
  ∀ y r1 r2, Q y → delimited r1 → delimited r2 → t x ++ r1 = t y ++ r2 → x = y ∧ r1 = r2.

Lemma tail_delimited l r : delimited (((t <$> l) ≫= cons ","%char) ++ close :: r).
Proof. destruct l; simpl; done. Qed.

Lemma tail_inj l1 l2 r1 r2 :
  Forall reads_back l1 → Forall Q l2 →
  ((t <$> l1) ≫= cons ","%char) ++ close :: r1 = ((t <$> l2) ≫= cons ","%char) ++ close :: r2 →
  l1 = l2 ∧ r1 = r2.
Proof.
  intros H1. revert l2. induction H1 as [|x l1 Hx H1 IH]; intros [|y l2] H2; csimpl.
  - naive_solver.
  - intros [= Hc _]. done.
  - intros [= Hc _]. by destruct close_comma.
  - apply Forall_cons in H2 as [Hy H2]. intros [= Heq].
    rewrite <- !app_assoc in Heq.
    apply Hx in Heq as [-> Heq]; auto using tail_delimited.
    apply IH in Heq as [-> ->]; done.
Qed.

Lemma sep_list_inj l1 l2 r1 r2 :
  Forall reads_back l1 → Forall Q l1 → Forall Q l2 →
  sep_list (t <$> l1) ++ close :: r1 = sep_list (t <$> l2) ++ close :: r2 →
  l1 = l2 ∧ r1 = r2.
Proof.
  destruct l1 as [|x l1], l2 as [|y l2]; csimpl; rewrite ?Forall_cons.
  - naive_solver.
  - intros _ _ [Hy _] Heq. destruct (t_head y Hy) as (c & k & Hk & Hc).
    rewrite Hk in Heq. simpl in Heq. injection Heq as ? _. by subst.
  - intros _ [Hx _] _ Heq. destruct (t_head x Hx) as (c & k & Hk & Hc).
    rewrite Hk in Heq. simpl in Heq. injection Heq as ? _. by subst.
  - intros [Hx H1] [_ HQ1] [Hy H2] Heq. rewrite <- !app_assoc in Heq.
    apply Hx in Heq as [-> Heq]; auto using tail_delimited.
    apply tail_inj in Heq as [-> ->]; done.
Qed.

End separated.

(** The first byte of a text tells the kind of value. *)
Definition kind (c : ascii) : nat :=
  if is_ascii_digit c || Ascii.eqb c "-"%char then 5%nat
  else if Ascii.eqb c "n"%char then 0%nat
  else if Ascii.eqb c "t"%char || Ascii.eqb c "f"%char then 1%nat
  else if Ascii.eqb c quote then 2%nat
  else if Ascii.eqb c "["%char then 3%nat
  else if Ascii.eqb c "{"%char then 4%nat
  else 6%nat.

Definition kind_of (v : Value) : nat :=
  match v with
  | Null => 0%nat | Bool _ => 1%nat | Str _ => 2%nat | Array _ => 3%nat | Object _ => 4%nat
  | Num _ => 5%nat
  end.

Section text_inj.
Context `{SerdeJsonLaws}.

Lemma json_text_head s : ∃ k, json_text s = quote :: k.
Proof.
  destruct (json_string_quoted s _ (json_string_text s)) as [k Hk].
  rewrite bytes_from_bytes in Hk. eauto.
Qed.

Lemma json_text_inj s1 s2 r1 r2 :
  json_text s1 ++ r1 = json_text s2 ++ r2 → s1 = s2 ∧ r1 = r2.
Proof.
  intros Heq.
  destruct (json_string_prefix s1 s2 _ _ (from_bytes r1) (from_bytes r2)
              (json_string_text s1) (json_string_text s2)) as [-> Hr%(inj from_bytes)]; [|done].
  by rewrite <- !from_bytes_app, Heq.
Qed.

Lemma text_head v : integral v → ∃ c k, text v = c :: k ∧ kind c = kind_of v.
Proof.
  destruct v as [|[]|[n|n|]|s|vs|es]; simpl; intros Hi; try done; try (by do 2 eexists).
  1,2: destruct (pretty_Z_bytes n) as (m & -> & _);
    destruct (digits_head (bytes (pretty m)) []) as (c & k & E & Hc);
      [apply pretty_N_digits|apply pretty_N_nonempty|rewrite app_nil_r in E; rewrite E];
    case_decide; simpl; eexists _, _; (split; [reflexivity|]);
    unfold kind; by rewrite ?Hc.
  destruct (json_text_head s) as [k ->]. by do 2 eexists.
Qed.

Lemma kind_close v c k : integral v → text v = c :: k → c ≠ "]"%char ∧ c ≠ "}"%char.
Proof.
  intros Hi Ht. destruct (text_head v Hi) as (c' & k' & Ht' & Hk).
  rewrite Ht in Ht'. injection Ht' as <- _.
  split; intros ->; destruct v; simpl in Hk; done.
Qed.

Lemma number_inj n1 n2 r1 r2 :
  integral (Num n1) → integral (Num n2) → delimited r1 → delimited r2 →
  bytes (number_to_string n1) ++ r1 = bytes (number_to_string n2) ++ r2 → n1 = n2 ∧ r1 = r2.
Proof.
  destruct n1, n2; simpl; intros; try done;
    match goal with H : _ ++ _ = _ ++ _ |- _ => apply integer_prefix_inj in H as [-> ->] end;
    done || lia.
Qed.

(** A text can be read back from the front of any input: the value and the rest are determined. *)
Lemma text_prefix_inj v1 v2 r1 r2 :
  integral v1 → integral v2 → delimited r1 → delimited r2 →
  text v1 ++ r1 = text v2 ++ r2 → v1 = v2 ∧ r1 = r2.
Proof.
  revert v2 r1 r2. induction v1 as [|b1|n1|s1|vs1 IH|es1 IH] using Value_strong_ind;
    intros v2 r1 r2 I1 I2 D1 D2 Heq.
  all: assert (Hkind : kind_of v2 = kind_of _) by
    (destruct (text_head _ I1) as (c1 & k1 & E1 & <-), (text_head _ I2) as (c2 & k2 & E2 & <-);
     rewrite E1, E2 in Heq; simpl in Heq; injection Heq as -> _; reflexivity).
  all: destruct v2 as [|b2|n2|s2|vs2|es2]; simpl in Hkind; try discriminate Hkind; clear Hkind.
  - simpl in Heq. naive_solver.
  - destruct b1, b2; simpl in Heq; naive_solver.
  - apply number_inj in Heq as [-> ->]; done.
  - apply json_text_inj in Heq as [-> ->]; done.
  - simpl in Heq, I1, I2. rewrite foldr_and in I1, I2. injection Heq as Heq.
    rewrite <- !app_assoc in Heq. simpl in Heq.
    apply (sep_list_inj text _ integral) in Heq as [-> ->]; try done.
    + intros x Hx. destruct (text_head x Hx) as (c & k & Hk & _).
      exists c, k. split; [done|]. by eapply kind_close.
    + rewrite Forall_forall in *. intros x Hx y s1 s2 Hy ? ? ?. apply IH; auto.
  - simpl in Heq, I1, I2. rewrite foldr_and in I1, I2. injection Heq as Heq.
    rewrite <- !app_assoc in Heq. simpl in Heq.
    apply (sep_list_inj member_text _ (λ e, integral e.2)) in Heq as [-> ->]; try done.
    + intros [k' x] Hx. unfold member_text; simpl.
      destruct (json_text_head k') as [k ->]. by eexists _, _.
    + rewrite Forall_forall in *. intros [k x] Hx [k' y] s1 s2 Hy ? ?. unfold member_text; simpl.
      rewrite <- !app_assoc. intros [-> Hv]%json_text_inj. simpl in Hv. injection Hv as Hv.
      pose proof (I1 _ Hx). specialize (IH _ Hx y s1 s2). simpl in *.
      by destruct IH as [-> ->].
Qed.

End text_inj.

(** ** Lemmas: the canonical form is the class of the equivalence *)

(** With distinct keys, sorting forgets exactly the order. *)
Lemma merge_sort_keys_perm {A} (l k : list (string * A)) :
  NoDup l.*1 → (merge_sort key_le l = merge_sort key_le k ↔ l ≡ₚ k).
Proof.
  intros Hnd. split.
  - intros Heq. by rewrite <- (merge_sort_Permutation key_le l), Heq, merge_sort_Permutation.
  - intros Hp. apply (StronglySorted_unique_strong key_le);
      [|apply StronglySorted_merge_sort; apply _..|by rewrite !merge_sort_Permutation].
    intros [k1 a1] [k2 a2] H1 H2 Hle1 Hle2.
    rewrite merge_sort_Permutation in H1. rewrite merge_sort_Permutation, <- Hp in H2.
    assert (k1 = k2) as -> by (by apply (anti_symm String.le)).
    f_equal. assert (entry_of l k2 = Some a1) by (by apply entry_of_elem).
    assert (entry_of l k2 = Some a2) by (by apply entry_of_elem). congruence.
Qed.

Definition canon_entry (e : string * Value) : string * Value := (e.1, canon e.2).

Lemma canon_object_eq es fs :
  NoDup es.*1 →
  canon (Object es) = canon (Object fs) ↔ canon_entry <$> es ≡ₚ canon_entry <$> fs.
Proof.
  intros Hnd. rewrite <- merge_sort_keys_perm by (by rewrite <- list_fmap_compose).
  simpl. unfold canon_entry.
  split; [by intros [= ->]|by intros ->].
Qed.

Lemma wf_object es : wf_value (Object es) ↔ NoDup es.*1 ∧ ∀ e, e ∈ es → wf_value e.2.
Proof. simpl. by rewrite foldr_and, Forall_forall. Qed.

Lemma wf_array vs : wf_value (Array vs) ↔ ∀ v, v ∈ vs → wf_value v.
Proof. simpl. by rewrite foldr_and, Forall_forall. Qed.

Lemma json_equiv_canon v w : wf_value v → wf_value w → json_equiv v w ↔ canon v = canon w.
Proof.
  revert w. induction v as [|b|n|s|vs IH|es IH] using Value_strong_ind; intros w Hv Hw.
  1-4: split; [by inversion 1|destruct w; simpl; intros [=]; subst; constructor].
  - rewrite Forall_forall in IH. rewrite wf_array in Hv. split.
    + inversion 1 as [| | | |? ws Hvs|]; subst. rewrite wf_array in Hw. simpl. f_equal.
      apply Forall2_map_eq. eapply Forall2_impl_elem; [exact Hvs|].
      intros x y Hx Hy ?. by apply IH; auto.
    + destruct w as [| | | |ws|]; simpl; intros [= Hc]. rewrite wf_array in Hw.
      constructor. apply Forall2_map_eq in Hc. eapply Forall2_impl_elem; [exact Hc|].
      intros x y Hx Hy ?. by apply IH; auto.
  - rewrite Forall_forall in IH. rewrite wf_object in Hv. destruct Hv as [Hnd Hv]. split.
    + inversion 1 as [| | | | |? es' fs Hp Hfs]; subst. rewrite wf_object in Hw.
      apply canon_object_eq; [done|]. rewrite Hp. apply reflexive_eq, Forall2_map_eq.
      eapply Forall2_impl_elem; [exact Hfs|]. intros [k x] [k' y] Hx Hy [Hk Hxy]; simpl in *.
      unfold canon_entry; simpl. rewrite <- Hp in Hx. f_equal; [done|].
      apply (IH _ Hx y); [by apply (Hv _ Hx)|by apply (proj2 Hw _ Hy)|done].
    + destruct w as [| | | | |fs]; try done. rewrite wf_object in Hw. destruct Hw as [_ Hw].
      rewrite canon_object_eq by done. intros Hp.
      destruct (Permutation_map_inv canon_entry es (l1 := canon_entry <$> fs)) as (es' & He & Hp').
      { by symmetry. }
      apply (equiv_object es es'); [done|].
      symmetry in He. apply (Forall2_map_eq canon_entry) in He.
      eapply Forall2_impl_elem; [exact He|]. intros [k x] [k' y] Hx Hy [= -> Hxy]; simpl.
      rewrite <- Hp' in Hx. split; [done|].
      apply (IH _ Hx y); [by apply (Hv _ Hx)|by apply (Hw _ Hy)|done].
Qed.

Lemma canon_integral v : integral v → integral (canon v).
Proof.
  induction v as [|b|n|s|vs IH|es IH] using Value_strong_ind; simpl; try done;
    rewrite !foldr_and; rewrite Forall_forall in IH; rewrite !Forall_forall.
  - intros Hi x (y & -> & Hy)%list_elem_of_fmap. auto.
  - intros Hi x Hx. rewrite merge_sort_Permutation in Hx.
    apply list_elem_of_fmap in Hx as (y & -> & Hy). simpl. auto.
Qed.

Lemma canonical_text_inj `{SerdeJsonLaws} v w :
  integral v → integral w → text (canon v) = text (canon w) → canon v = canon w.
Proof.
  intros Iv Iw Heq.
  apply (text_prefix_inj _ _ [] []); rewrite ?app_nil_r; auto using canon_integral; done.
Qed.

(** Entries of one key in two permuted objects. *)
Lemma entries_agree {A} (l k : list (string * A)) key a b :
  NoDup l.*1 → l ≡ₚ k → (key, a) ∈ l → (key, b) ∈ k → a = b.
Proof.
  intros Hnd Hp Ha Hb. rewrite <- Hp in Hb.
  apply (entry_of_elem _ _ _ Hnd) in Ha, Hb. congruence.
Qed.

(** ** Properties *)

(** C32: the canonical writer is total and its text identifies the value: it never fails on a
    value with distinct keys, and two values without floats have one canonical text exactly
    when they are equal up to the order of object entries at every depth. *)
Theorem canonical_text_identifies `{SerdeJsonLaws} v w out :
  wf_value v → wf_value w → integral v → integral w →
  is_ok (write_canonical_json v out) = true ∧
  (write_canonical_json v out = write_canonical_json w out ↔ json_equiv v w).
Proof.
  intros Hv Hw Iv Iw. rewrite !write_canonical_json_text by done. split; [done|].
  rewrite json_equiv_canon by done. split; [|by intros ->].
  intros [= Heq%appended_inj]. by apply canonical_text_inj.
Qed.

(** ** Witness *)
From S2P Require Import Instances.

Definition sample_object : Value :=
  Object [("peers", Array [Null; Bool true; Str "a\b"]); ("generation", Num (PosInt 2))].
Definition sample_object_reordered : Value :=
  Object [("generation", Num (PosInt 2)); ("peers", Array [Null; Bool true; Str "a\b"])].

Lemma canonical_text_identifies_witness :
  wf_value sample_object ∧ wf_value sample_object_reordered ∧
  write_canonical_json sample_object "" = write_canonical_json sample_object_reordered "" ∧
  json_equiv sample_object sample_object_reordered.
Proof.
  assert (wf_value sample_object) as Hv.
  { apply wf_object. split; [apply (bool_decide_eq_true_1 _); by vm_compute|].
    intros e. unfold sample_object. rewrite !elem_of_cons, elem_of_nil.
    intros [->|[->|[]]]; simpl; split_and?; done. }
  assert (wf_value sample_object_reordered) as Hw.
  { apply wf_object. split; [apply (bool_decide_eq_true_1 _); by vm_compute|].
    intros e. unfold sample_object_reordered. rewrite !elem_of_cons, elem_of_nil.
    intros [->|[->|[]]]; simpl; split_and?; done. }
  split; [exact Hv|]. split; [exact Hw|].
  assert (write_canonical_json sample_object "" =
          write_canonical_json sample_object_reordered "") as Heq by (vm_compute; reflexivity).
  split; [exact Heq|].
  apply (canonical_text_identifies sample_object sample_object_reordered ""); try exact Heq;
    [exact Hv|exact Hw|simpl; split_and?; done..].
Defined.
