(* ===== verification/Timestamp.v ===== *)
(** * Timestamp: the manifest's time stamp ([policy/src/contract.rs], [valid_utc_timestamp]
    and [decimal])

    The validator indexes and slices the bytes of the text; the specification is a record of
    calendar fields with its printed form. *)
From S2P Require Export Ids.

(** [&bytes[from..to]]; the validator's ranges are within the checked length. *)
Definition slice (from to : nat) (l : list ascii) : list ascii := take (to - from) (drop from l).

Definition byte_is (l : list ascii) (i : nat) (c : ascii) : bool := bool_decide (l !! i = Some c).

(** [decimal]: the value never leaves [u32], it is called on at most four bytes. *)
Definition decimal (l : list ascii) : option Z :=
  foldl (λ acc byte_, value ← acc;
           if is_ascii_digit byte_ then Some (value * 10 + (byte byte_ - 48)) else None)
    (Some 0) l.

Definition leap_year (year : Z) : bool :=
  (year mod 4 =? 0) && (negb (year mod 100 =? 0) || (year mod 400 =? 0)).

Definition days_in_month (year month : Z) : option Z :=
  if existsb (Z.eqb month) [1; 3; 5; 7; 8; 10; 12] then Some 31
  else if existsb (Z.eqb month) [4; 6; 9; 11] then Some 30
  else if (month =? 2) && leap_year year then Some 29
  else if month =? 2 then Some 28
  else None.

Definition bad_fraction (fraction : list ascii) : bool :=
  match fraction with
  | [] => false
  | first :: digits =>
      negb (Ascii.eqb first "."%char) || bool_decide (digits = [])
      || negb (forallb is_ascii_digit digits)
  end.

Definition valid_utc_timestamp (value : string) : bool :=
  let bs := bytes value in
  if bool_decide (length bs < 20)%nat || negb (ends_with_char "Z"%char value)
     || negb (byte_is bs 4 "-"%char) || negb (byte_is bs 7 "-"%char)
     || negb (byte_is bs 10 "T"%char) || negb (byte_is bs 13 ":"%char)
     || negb (byte_is bs 16 ":"%char)
  then false
  else if bad_fraction (slice 19 (length bs - 1) bs) then false
  else match decimal (slice 0 4 bs), decimal (slice 5 7 bs), decimal (slice 8 10 bs),
             decimal (slice 11 13 bs), decimal (slice 14 16 bs), decimal (slice 17 19 bs) with
       | Some year, Some month, Some day, Some hour, Some minute, Some second =>
           match days_in_month year month with
           | Some days =>
               (0 <? year) && ((1 <=? day) && (day <=? days)) && (hour <=? 23)
               && (minute <=? 59) && (second <=? 59)
           | None => false
           end
       | _, _, _, _, _, _ => false
       end.

(** ** The specification *)

Record utc := mkUtc {
  year : Z; month : Z; day : Z; hour : Z; minute : Z; second : Z;
  (** the digits after the point; no point when there are none *)
  fraction : list Z;
}.

#[export] Instance divide_dec (a b : Z) : Decision (a | b).
Proof. apply Znumtheory.Zdivide_dec. Defined.

(** The number of days of a month of the Gregorian calendar. *)
Definition month_length (y m : Z) : Z :=
  if m =? 2 then
    if bool_decide ((4 | y) ∧ (¬ (100 | y) ∨ (400 | y))) then 29 else 28
  else if bool_decide (m ∈ [4; 6; 9; 11]) then 30 else 31.

Record utc_ok (t : utc) : Prop := {
  ok_year : 1 ≤ year t ≤ 9999;
  ok_month : 1 ≤ month t ≤ 12;
  ok_day : 1 ≤ day t ≤ month_length (year t) (month t);
  ok_hour : 0 ≤ hour t ≤ 23;
  ok_minute : 0 ≤ minute t ≤ 59;
  ok_second : 0 ≤ second t ≤ 59;
  ok_fraction : Forall (λ d, 0 ≤ d ≤ 9) (fraction t);
}.

(** Decimal digits on a fixed width. *)
Fixpoint fixed (width : nat) (n : Z) : list ascii :=
  match width with
  | O => []
  | S width => fixed width (n / 10) ++ [digit_char (n mod 10)]
  end.

Definition fraction_text (ds : list Z) : list ascii :=
  match ds with [] => [] | _ => "."%char :: (digit_char <$> ds) end.

Definition utc_text (t : utc) : list ascii :=
  fixed 4 (year t) ++ ["-"%char] ++ fixed 2 (month t) ++ ["-"%char] ++ fixed 2 (day t) ++
  ["T"%char] ++ fixed 2 (hour t) ++ [":"%char] ++ fixed 2 (minute t) ++ [":"%char] ++
  fixed 2 (second t) ++ fraction_text (fraction t) ++ ["Z"%char].

(** ** Lemmas *)

Lemma decimal_snoc l c :
  decimal (l ++ [c]) =
  (v ← decimal l; if is_ascii_digit c then Some (v * 10 + (byte c - 48)) else None).
Proof. unfold decimal. by rewrite foldl_app. Qed.

Lemma fixed_length w n : length (fixed w n) = w.
Proof. revert n. induction w; intros; simpl; rewrite ?length_app, ?IHw; simpl; lia. Qed.

Lemma decimal_fixed w n : 0 ≤ n < 10 ^ Z.of_nat w → decimal (fixed w n) = Some n.
Proof.
  revert n. induction w as [|w IH]; intros n Hn; simpl.
  { change (10 ^ Z.of_nat 0) with 1 in Hn. unfold decimal; simpl. f_equal. lia. }
  rewrite Nat2Z.inj_succ, Z.pow_succ_r in Hn by lia.
  pose proof (Z.div_mod n 10). pose proof (Z.mod_pos_bound n 10).
  rewrite decimal_snoc, IH by (split; [apply Z.div_pos|apply Z.div_lt_upper_bound]; lia).
  simpl. rewrite is_digit_digit_char, digit_char_byte by lia. f_equal. lia.
Qed.

Lemma decimal_inv l n :
  decimal l = Some n → 0 ≤ n < 10 ^ Z.of_nat (length l) ∧ l = fixed (length l) n.
Proof.
  revert n. induction l as [|c l IH] using rev_ind; intros n.
  { intros [= <-]. done. }
  rewrite decimal_snoc, length_app, Nat.add_comm. simpl length.
  intros (v & Hv & Hd)%bind_Some. apply IH in Hv as [Hv Hl].
  destruct (is_ascii_digit c) eqn:Hc; [|done]. injection Hd as <-.
  apply is_ascii_digit_true in Hc as (d & Hd & ->). rewrite digit_char_byte by done.
  replace (48 + d - 48) with d by lia.
  split.
  - change (1 + length l)%nat with (S (length l)).
    rewrite Nat2Z.inj_succ, Z.pow_succ_r by lia. lia.
  - simpl. rewrite (Z.add_comm (v * 10)), Z.div_add, Z.mod_add by lia.
    rewrite Z.div_small, Z.mod_small, Z.add_0_l, <- Hl by lia. done.
Qed.

Lemma decimal_width l n w :
  length l = w → decimal l = Some n → 0 ≤ n < 10 ^ Z.of_nat w ∧ l = fixed w n.
Proof. intros <-. apply decimal_inv. Qed.

Lemma leap_year_spec y :
  leap_year y = bool_decide ((4 | y) ∧ (¬ (100 | y) ∨ (400 | y))).
Proof.
  unfold leap_year. apply eq_bool_prop_intro. rewrite !Is_true_true, bool_decide_eq_true.
  rewrite andb_true_iff, orb_true_iff, negb_true_iff, !Z.eqb_eq, Z.eqb_neq.
  by rewrite !Z.mod_divide by lia.
Qed.

Lemma days_in_month_spec y m :
  days_in_month y m = if decide (1 ≤ m ≤ 12) then Some (month_length y m) else None.
Proof.
  unfold days_in_month, month_length. rewrite leap_year_spec.
  case_decide as Hm.
  - assert (m = 1 ∨ m = 2 ∨ m = 3 ∨ m = 4 ∨ m = 5 ∨ m = 6 ∨ m = 7 ∨ m = 8 ∨ m = 9 ∨ m = 10
            ∨ m = 11 ∨ m = 12) as Hc by lia.
    destruct_or! Hc; subst m; simpl; by repeat case_bool_decide.
  - simpl. repeat match goal with |- context [m =? ?k] => destruct (Z.eqb_spec m k); [lia|] end.
    done.
Qed.

Lemma bad_fraction_spec l :
  bad_fraction l = false ↔ ∃ ds, Forall (λ d, 0 ≤ d ≤ 9) ds ∧ l = fraction_text ds.
Proof.
  destruct l as [|c l]; simpl.
  { split; [|done]. intros _. exists []. by split. }
  rewrite !orb_false_iff, !negb_false_iff, ascii_eqb_true, bool_decide_eq_false, forallb_elem.
  setoid_rewrite is_ascii_digit_true. split.
  - intros [[-> Hne] Hd].
    assert (∃ ds, Forall (λ d, 0 ≤ d ≤ 9) ds ∧ l = digit_char <$> ds) as (ds & Hds & ->).
    { clear Hne. induction l as [|c l IH]; [by exists []|].
      destruct (Hd c) as (d & ? & ->); [set_solver|]. destruct IH as (ds & ? & ->); [set_solver|].
      exists (d :: ds). by split; [constructor|]. }
    exists ds. split; [done|]. by destruct ds.
  - intros (ds & Hds & Heq). destruct ds as [|d ds]; simpl in Heq; [done|].
    injection Heq as -> ->. split; [done|]. intros c Hc.
    apply (list_elem_of_fmap digit_char (d :: ds) c) in Hc as (e & -> & He).
    rewrite Forall_forall in Hds. eauto.
Qed.

Lemma ends_with_char_snoc c s : ends_with_char c s = true ↔ ∃ l, bytes s = l ++ [c].
Proof.
  unfold ends_with_char. destruct (bytes s) as [|d l _] using rev_ind; simpl.
  - split; [done|]. by intros [[] ?].
  - rewrite last_snoc, ascii_eqb_true. split; [intros ->; eauto|].
    intros [k Hk]. apply app_inj_tail in Hk. naive_solver.
Qed.

(** A text of at least twenty bytes that ends in [Z], cut at the fixed positions. *)
Lemma cut_text (bs : list ascii) l :
  (20 ≤ length bs)%nat → bs = l ++ ["Z"%char] →
  bs = slice 0 4 bs ++ slice 4 5 bs ++ slice 5 7 bs ++ slice 7 8 bs ++ slice 8 10 bs ++
       slice 10 11 bs ++ slice 11 13 bs ++ slice 13 14 bs ++ slice 14 16 bs ++ slice 16 17 bs ++
       slice 17 19 bs ++ slice 19 (length bs - 1) bs ++ ["Z"%char].
Proof.
  intros Hlen Hl.
  assert (slice 19 (length bs - 1) bs ++ ["Z"%char] = drop 19 bs) as ->.
  { unfold slice. rewrite Hl, length_app. simpl.
    rewrite Hl, length_app in Hlen. simpl in Hlen.
    rewrite drop_app_le by lia. rewrite take_app_le by (rewrite length_drop; lia).
    rewrite take_ge by (rewrite length_drop; lia). done. }
  clear Hl. do 19 (destruct bs as [|? bs]; [simpl in Hlen; lia|]). done.
Qed.

Lemma byte_is_slice bs i c : byte_is bs i c = true ↔ slice i (S i) bs = [c].
Proof.
  unfold byte_is, slice. rewrite bool_decide_eq_true. replace (S i - i)%nat with 1%nat by lia.
  rewrite <- (Nat.add_0_r i) at 1. rewrite <- lookup_drop.
  destruct (drop i bs) as [|d k]; simpl; [done|]. rewrite take_0. naive_solver.
Qed.

Lemma slice_length from to (bs : list ascii) :
  (from ≤ to)%nat → (to ≤ length bs)%nat → length (slice from to bs) = (to - from)%nat.
Proof. intros. unfold slice. rewrite length_take, length_drop. lia. Qed.

(** The slices of a printed time stamp are its fields. *)
Lemma utc_text_slices t :
  slice 0 4 (utc_text t) = fixed 4 (year t) ∧ slice 5 7 (utc_text t) = fixed 2 (month t) ∧
  slice 8 10 (utc_text t) = fixed 2 (day t) ∧ slice 11 13 (utc_text t) = fixed 2 (hour t) ∧
  slice 14 16 (utc_text t) = fixed 2 (minute t) ∧ slice 17 19 (utc_text t) = fixed 2 (second t).
Proof. repeat split. Qed.

Lemma slice_middle p f z : slice (length p) (length (p ++ f ++ [z]) - 1) (p ++ f ++ [z]) = f.
Proof.
  unfold slice. rewrite drop_app_length, !length_app. simpl.
  replace (length p + (length f + 1) - 1 - length p)%nat with (length f) by lia.
  by rewrite take_app_length.
Qed.

Lemma utc_text_fraction t :
  slice 19 (length (utc_text t) - 1) (utc_text t) = fraction_text (fraction t).
Proof.
  assert (∃ p, length p = 19%nat ∧
    utc_text t = p ++ fraction_text (fraction t) ++ ["Z"%char]) as (p & Hp & ->).
  { unfold utc_text. rewrite !app_assoc, <- (app_assoc _ (fraction_text _)). eexists.
    split; [|done]. by rewrite !length_app, !fixed_length. }
  rewrite <- Hp. apply slice_middle.
Qed.

Lemma utc_text_length t : (20 ≤ length (utc_text t))%nat.
Proof. unfold utc_text. rewrite !length_app, !fixed_length. simpl. lia. Qed.

Lemma valid_of_text s t : utc_ok t → bytes s = utc_text t → valid_utc_timestamp s = true.
Proof.
  intros [? ? Hday ? ? ? Hfr] Hs. unfold valid_utc_timestamp.
  assert (ends_with_char "Z"%char s = true) as ->.
  { apply ends_with_char_snoc. rewrite Hs. unfold utc_text. rewrite !app_assoc. by eexists. }
  rewrite Hs. pose proof (utc_text_length t).
  rewrite bool_decide_false by lia.
  assert (byte_is (utc_text t) 4 "-"%char = true ∧ byte_is (utc_text t) 7 "-"%char = true ∧
          byte_is (utc_text t) 10 "T"%char = true ∧ byte_is (utc_text t) 13 ":"%char = true ∧
          byte_is (utc_text t) 16 ":"%char = true) as (-> & -> & -> & -> & ->) by done.
  rewrite utc_text_fraction. simpl.
  rewrite (proj2 (bad_fraction_spec _)) by eauto.
  destruct (utc_text_slices t) as (-> & -> & -> & -> & -> & ->).
  assert (month_length (year t) (month t) ≤ 31) by (unfold month_length; repeat case_match; lia).
  rewrite !decimal_fixed by lia. rewrite days_in_month_spec, decide_True by lia.
  rewrite !andb_true_iff. lia.
Qed.

Lemma text_of_valid s : valid_utc_timestamp s = true → ∃ t, utc_ok t ∧ bytes s = utc_text t.
Proof.
  unfold valid_utc_timestamp. case_match eqn:Eg; [done|]. rewrite !orb_false_iff in Eg.
  destruct Eg as ((((((Hlen & Hz) & H4) & H7) & H10) & H13) & H16).
  apply bool_decide_eq_false in Hlen. apply negb_false_iff in Hz, H4, H7, H10, H13, H16.
  apply ends_with_char_snoc in Hz as [l Hl].
  apply byte_is_slice in H4, H7, H10, H13, H16.
  destruct (bad_fraction _) eqn:Ef; [done|]. apply bad_fraction_spec in Ef as (ds & Hds & Ef).
  repeat case_match; try done. intros Hok. rewrite !andb_true_iff, !Z.leb_le, Z.ltb_lt in Hok.
  repeat match goal with
  | H : decimal (slice ?a ?b _) = Some _ |- _ =>
      apply (decimal_width _ _ (b - a)) in H as [? H]; [|apply slice_length; lia]
  end.
  rewrite days_in_month_spec in *. case_decide; [|done]. simplify_eq.
  match goal with
  | _ : slice 0 4 _ = fixed _ ?y, _ : slice 5 7 _ = fixed _ ?mo, _ : slice 8 10 _ = fixed _ ?d,
    _ : slice 11 13 _ = fixed _ ?h, _ : slice 14 16 _ = fixed _ ?mi, _ : slice 17 19 _ = fixed _ ?se
    |- _ => exists (mkUtc y mo d h mi se ds)
  end. split; [|etrans; [eapply cut_text; [lia|exact Hl]|]].
  - change (10 ^ Z.of_nat (4 - 0)) with 10000 in *. constructor; simpl; first [done|lia].
  - unfold utc_text. simpl year. simpl month. simpl day. simpl hour. simpl minute. simpl second.
    rewrite H4, H7, H10, H13, H16, Ef. simpl (_ - _)%nat in *.
    repeat match goal with H : slice _ _ _ = fixed _ _ |- _ => rewrite H; clear H end.
    done.
Qed.

(** ** Properties *)

(** C33: the byte-level validator accepts exactly the texts of calendar-valid UTC instants:
    [YYYY-MM-DDThh:mm:ss], an optional fraction of one or more digits, then [Z], with a year from
    1 to 9999, the Gregorian month lengths, and no leap second; every other text is
    refused. *)
Theorem timestamp_accepts_calendar_instants s :
  valid_utc_timestamp s = true ↔ ∃ t, utc_ok t ∧ bytes s = utc_text t.
Proof. split; [apply text_of_valid|]. intros (t & ? & ?). by apply valid_of_text with t. Qed.
