(* ===== verification/Contract.v ===== *)
(** * Contract: the gateway contract ([policy/src/contract.rs])

    Manifests, their canonical digest, state reports, deliveries and acknowledgements.
    Each struct is a Module of its own: the record and the functions of its [impl]. *)
From S2P Require Export Vpn Json Timestamp.

Definition SCHEMA_VERSION : Z := 1.
Definition WG_USERS : string := "wg-users".
Definition WG_NODES : string := "wg-nodes".

Module GatewayId.
Record t := mk { inner : PeerId }.
Definition new (value : string) : result t PolicyError := rmap mk (PeerId.new value).
Definition as_str (id : t) : string := PeerId.as_str (inner id).
End GatewayId.
Abbreviation GatewayId := GatewayId.t.

#[export] Instance GatewayId_eq_dec : EqDecision GatewayId.
Proof. solve_decision. Defined.
#[export] Instance GatewayId_countable : Countable GatewayId.
Proof. refine (inj_countable' GatewayId.inner GatewayId.mk _). by intros []. Defined.

(** ** The peer of a manifest, and what its derived [Serialize] writes *)

Module GatewayPeer.
Record t := mk {
  peer_id : PeerId;
  public_key : WireGuardPublicKey;
  address : OverlayAddress;
  health_policy : HealthPolicy;
  permissions : list Permission;
}.

Definition from_vpn_peer (peer : VpnPeer) : t :=
  mk (Vpn.peer_id peer) (Vpn.public_key peer) (Vpn.address peer) (Vpn.health_policy peer)
     (Vpn.permissions peer).

Definition health_policy_value (h : HealthPolicy) : Value :=
  Str (match h with Required => "required" | OnDemand => "on_demand" end).
Definition permission_value (p : Permission) : Value :=
  Str (match p with Egress => "egress" | Games => "games" end).

Definition to_value (peer : t) : Value :=
  Object [
    ("peer_id", Str (PeerId.as_str (peer_id peer)));
    ("public_key", Str (WireGuardPublicKey.as_str (public_key peer)));
    ("address", Str (OverlayAddress.to_string (address peer)));
    ("health_policy", health_policy_value (health_policy peer));
    ("permissions", Array (permission_value <$> permissions peer))
  ].
End GatewayPeer.
Abbreviation GatewayPeer := GatewayPeer.t.

#[export] Instance GatewayPeer_eq_dec : EqDecision GatewayPeer.
Proof. solve_decision. Defined.

(** [left.peer_id.cmp(&right.peer_id)]. *)
Definition peer_le (l r : GatewayPeer) : Prop :=
  String.le (PeerId.as_str (GatewayPeer.peer_id l)) (PeerId.as_str (GatewayPeer.peer_id r)).
#[export] Instance peer_le_dec : RelDecision peer_le.
Proof. intros l r. unfold peer_le. apply _. Defined.
#[export] Instance peer_le_total : Total peer_le.
Proof. intros l r. apply String.le_total. Qed.
#[export] Instance peer_le_trans : Transitive peer_le.
Proof. intros x y z. unfold peer_le. apply transitivity. Qed.

(** The three hash sets of the constructor's loop; [insert] answers whether the value was new. *)
Fixpoint distinct_identities (ids : gset PeerId) (keys : gset WireGuardPublicKey)
    (addresses : gset OverlayAddress) (peers : list GatewayPeer) : bool :=
  match peers with
  | [] => true
  | peer :: peers =>
      let id := GatewayPeer.peer_id peer in
      let key := GatewayPeer.public_key peer in
      let addr := GatewayPeer.address peer in
      if bool_decide (id ∈ ids) || bool_decide (key ∈ keys) || bool_decide (addr ∈ addresses)
      then false
      else distinct_identities ({[id]} ∪ ids) ({[key]} ∪ keys) ({[addr]} ∪ addresses) peers
  end.

Module ManifestDigest.
Record t := mk { as_str : string }.

Definition lower_hex (c : ascii) : bool :=
  is_ascii_digit c || ((97 <=? byte c) && (byte c <=? 102)).

Definition new (value : string) : result t PolicyError :=
  if (len value =? 64) && forallb lower_hex (bytes value)
  then Ok (mk value) else Err Serialization.
End ManifestDigest.
Abbreviation ManifestDigest := ManifestDigest.t.

#[export] Instance ManifestDigest_eq_dec : EqDecision ManifestDigest.
Proof. solve_decision. Defined.

(** ** Manifests *)

Module PeerManifest.
Record t := mk {
  schema_version : Z;
  interface : string;
  generation : Generation;
  generated_at : string;
  peers : list GatewayPeer;
}.

Definition new (generation : Generation) (generated_at : string) (peers : list VpnPeer)
    : result t PolicyError :=
  if negb (valid_utc_timestamp generated_at) then Err InvalidGeneratedAt else
  let peers := GatewayPeer.from_vpn_peer <$> peers in
  if bool_decide (253 < length peers)%nat then Err TooManyPeers else
  let peers := merge_sort peer_le peers in
  if distinct_identities ∅ ∅ ∅ peers
  then Ok (mk SCHEMA_VERSION WG_USERS generation generated_at peers)
  else Err DuplicatePeerIdentity.

Definition peer_count (m : t) : nat := length (peers m).

(** [serde_json::to_value(self)]: the derived [Serialize]. *)
Definition to_value (m : t) : Value :=
  Object [
    ("schema_version", Num (PosInt (schema_version m)));
    ("interface", Str (interface m));
    ("generation", Num (PosInt (Generation.get (generation m))));
    ("generated_at", Str (generated_at m));
    ("peers", Array (GatewayPeer.to_value <$> peers m))
  ].

Section digest.
Context `{SerdeJson, Sha256}.

Definition canonical (m : t) : result string PolicyError := write_canonical_json (to_value m) "".

Definition digest (m : t) : result ManifestDigest PolicyError :=
  try? canonical := canonical m in
  Ok (ManifestDigest.mk (hex (sha256_digest canonical))).
End digest.
End PeerManifest.
Abbreviation PeerManifest := PeerManifest.t.

#[export] Instance PeerManifest_eq_dec : EqDecision PeerManifest.
Proof. solve_decision. Defined.

(** [VpnPolicy::manifest] ([policy/src/vpn.rs]). *)
Definition manifest (self : VpnPolicy) (generated_at : string) : result PeerManifest PolicyError :=
  PeerManifest.new (generation self) generated_at (policy_peers self).

(** ** Reports *)

Module AppliedInterface.
Record t := mk {
  interface : string;
  generation : Generation;
  manifest_digest : ManifestDigest;
}.
Definition wg_users (generation : Generation) (digest : ManifestDigest) : t :=
  mk WG_USERS generation digest.
Definition is_wg_users (a : t) : bool := bool_decide (interface a = WG_USERS).
End AppliedInterface.
Abbreviation AppliedInterface := AppliedInterface.t.

Module GatewayStateReport.
Record t := mk {
  schema_version : Z;
  gateway_id : GatewayId;
  applied : list AppliedInterface;
}.
Definition new (gateway_id : GatewayId) (applied : list AppliedInterface) : t :=
  mk SCHEMA_VERSION gateway_id applied.
Definition wg_users (r : t) : option AppliedInterface :=
  find AppliedInterface.is_wg_users (applied r).
Definition is_supported (r : t) : bool :=
  let interfaces : gset string := list_to_set (AppliedInterface.interface <$> applied r) in
  (schema_version r =? SCHEMA_VERSION)
  && bool_decide (length (applied r) ≤ 2)%nat
  && bool_decide (size interfaces = length (applied r))
  && forallb (λ i, bool_decide (i = WG_USERS) || bool_decide (i = WG_NODES)) (elements interfaces).
End GatewayStateReport.
Abbreviation GatewayStateReport := GatewayStateReport.t.

(** ** Deliveries and acknowledgements *)

Module PeerDelivery.
Record t := mk {
  schema_version : Z;
  gateway_id : GatewayId;
  delivery_id : string;
  manifest_digest : ManifestDigest;
  manifest : PeerManifest;
}.

(** [&digest[..12]] panics on a shorter text. *)
Definition new `{SerdeJson, Sha256} (gateway_id : GatewayId) (manifest : PeerManifest)
    : outcome t PolicyError :=
  obind (Returned (PeerManifest.digest manifest)) (λ manifest_digest,
  match slice_to 12 (ManifestDigest.as_str manifest_digest) with
  | None => Panicked
  | Some short =>
      let delivery_id :=
        "wg-users-" +:+ display_uint (Generation.get (PeerManifest.generation manifest))
        +:+ "-" +:+ short in
      Returned (Ok (mk SCHEMA_VERSION gateway_id delivery_id manifest_digest manifest))
  end).
End PeerDelivery.
Abbreviation PeerDelivery := PeerDelivery.t.

Module GatewayAcknowledgement.
Record t := mk {
  schema_version : Z;
  gateway_id : GatewayId;
  delivery_id : string;
  interface : string;
  generation : Generation;
  manifest_digest : ManifestDigest;
  outcome : string;
}.

Definition applied (delivery : PeerDelivery) : t :=
  mk SCHEMA_VERSION (PeerDelivery.gateway_id delivery) (PeerDelivery.delivery_id delivery)
     WG_USERS (PeerManifest.generation (PeerDelivery.manifest delivery))
     (PeerDelivery.manifest_digest delivery) "applied".

Definition matches (self : t) (delivery : PeerDelivery) : bool :=
  (schema_version self =? SCHEMA_VERSION)
  && bool_decide (gateway_id self = PeerDelivery.gateway_id delivery)
  && bool_decide (delivery_id self = PeerDelivery.delivery_id delivery)
  && bool_decide (interface self = WG_USERS)
  && bool_decide (generation self = PeerManifest.generation (PeerDelivery.manifest delivery))
  && bool_decide (manifest_digest self = PeerDelivery.manifest_digest delivery)
  && bool_decide (outcome self = "applied").
End GatewayAcknowledgement.
Abbreviation GatewayAcknowledgement := GatewayAcknowledgement.t.

#[export] Instance PeerDelivery_eq_dec : EqDecision PeerDelivery.
Proof. solve_decision. Defined.
#[export] Instance GatewayAcknowledgement_eq_dec : EqDecision GatewayAcknowledgement.
Proof. solve_decision. Defined.

(** ** Lemmas: manifests *)

Lemma distinct_identities_spec peers ids keys addrs :
  distinct_identities ids keys addrs peers = true ↔
  (NoDup (GatewayPeer.peer_id <$> peers) ∧ (∀ p, p ∈ peers → GatewayPeer.peer_id p ∉ ids)) ∧
  (NoDup (GatewayPeer.public_key <$> peers) ∧ (∀ p, p ∈ peers → GatewayPeer.public_key p ∉ keys)) ∧
  (NoDup (GatewayPeer.address <$> peers) ∧ (∀ p, p ∈ peers → GatewayPeer.address p ∉ addrs)).
Proof.
  revert ids keys addrs. induction peers as [|p peers IH]; intros ids keys addrs; csimpl.
  { split; [|done]. intros _. repeat split; try constructor; set_solver. }
  rewrite !NoDup_cons. setoid_rewrite elem_of_cons.
  destruct (bool_decide _ || bool_decide _ || bool_decide _) eqn:E.
  - rewrite !orb_true_iff, !bool_decide_eq_true in E. split; [done|].
    intros ([_ H1] & [_ H2] & [_ H3]). exfalso. naive_solver.
  - rewrite !orb_false_iff, !bool_decide_eq_false in E. rewrite IH.
    setoid_rewrite list_elem_of_fmap. set_solver.
Qed.

(** What the constructor requires of the peers it is given. *)
Record identities_distinct (peers : list VpnPeer) : Prop := {
  distinct_ids : NoDup (Vpn.peer_id <$> peers);
  distinct_keys : NoDup (Vpn.public_key <$> peers);
  distinct_addresses : NoDup (Vpn.address <$> peers);
}.

Lemma distinct_sorted peers :
  distinct_identities ∅ ∅ ∅ (merge_sort peer_le (GatewayPeer.from_vpn_peer <$> peers)) = true ↔
  identities_distinct peers.
Proof.
  rewrite distinct_identities_spec.
  set (l := merge_sort peer_le (GatewayPeer.from_vpn_peer <$> peers)).
  assert (l ≡ₚ GatewayPeer.from_vpn_peer <$> peers) as Hl by apply merge_sort_Permutation.
  rewrite !Hl, <- !list_fmap_compose.
  split; [intros ([? _] & [? _] & [? _]); by constructor|].
  intros [? ? ?]. repeat split; try done; set_solver.
Qed.

Lemma policy_identities_distinct p : policy_wf p → identities_distinct (policy_peers p).
Proof.
  intros Hwf. constructor; apply btree_values_NoDup; intros k1 k2 p1 p2 H1 H2 Heq.
  - apply (wf_key _ Hwf) in H1, H2. congruence.
  - by apply (wf_public_key _ Hwf k1 k2 p1 p2).
  - by apply (wf_address _ Hwf k1 k2 p1 p2).
Qed.

(** The peers of a policy come out of its map already in the manifest's order. *)
Lemma policy_peers_sorted p :
  policy_wf p →
  merge_sort peer_le (GatewayPeer.from_vpn_peer <$> policy_peers p) =
  GatewayPeer.from_vpn_peer <$> policy_peers p.
Proof.
  intros Hwf. apply (StronglySorted_unique_strong peer_le).
  - intros x y Hx Hy. rewrite merge_sort_Permutation in Hx.
    apply list_elem_of_fmap in Hx as (v & -> & [k Hv]%elem_of_policy_peers).
    apply list_elem_of_fmap in Hy as (w & -> & [k' Hw]%elem_of_policy_peers).
    unfold peer_le; simpl. intros H1 H2.
    assert (k = k') as <-; [|congruence].
    apply (wf_key _ Hwf) in Hv, Hw. subst. by apply (anti_symm String.le).
  - apply StronglySorted_merge_sort; apply _.
  - unfold policy_peers, btree_values. rewrite <- list_fmap_compose.
    assert (∀ e, e ∈ btree_entries (peers p) → e.1 = PeerId.as_str (Vpn.peer_id e.2)) as Hk.
    { intros [k v] He%elem_of_btree_entries. by apply (wf_key _ Hwf) in He. }
    pose proof (btree_entries_sorted (peers p)) as Hs.
    induction Hs as [|e l Hs IH He]; csimpl; constructor; [apply IH; set_solver|].
    rewrite Forall_forall in He. apply Forall_forall. intros x (y & -> & Hy)%list_elem_of_fmap.
    specialize (He y Hy). unfold key_le in He. unfold peer_le; simpl.
    rewrite <- !Hk by set_solver. done.
  - apply merge_sort_Permutation.
Qed.

Lemma manifest_new_Ok g ts peers m :
  PeerManifest.new g ts peers = Ok m ↔
  valid_utc_timestamp ts = true ∧ (length peers ≤ 253)%nat ∧ identities_distinct peers ∧
  m = PeerManifest.mk SCHEMA_VERSION WG_USERS g ts
        (merge_sort peer_le (GatewayPeer.from_vpn_peer <$> peers)).
Proof.
  unfold PeerManifest.new. destruct (valid_utc_timestamp ts); simpl; [|naive_solver].
  rewrite length_fmap. case_bool_decide; [naive_solver lia|].
  destruct (distinct_identities _ _ _ _) eqn:E.
  - apply distinct_sorted in E. naive_solver lia.
  - rewrite <- (distinct_sorted peers), E. naive_solver.
Qed.

(** ** Lemmas: the canonical text of a manifest *)

(** The values a manifest's fields can take: addresses built by the constructors, and unsigned
    integers. *)
Record manifest_valid (m : PeerManifest) : Prop := {
  valid_addresses p : p ∈ PeerManifest.peers m → OverlayAddress.valid (GatewayPeer.address p);
  valid_schema : 0 ≤ PeerManifest.schema_version m;
  valid_generation : 0 ≤ Generation.get (PeerManifest.generation m);
}.

#[export] Instance permission_value_inj : Inj (=) (=) GatewayPeer.permission_value.
Proof. by intros [] [] [=]. Qed.
#[export] Instance health_policy_value_inj : Inj (=) (=) GatewayPeer.health_policy_value.
Proof. by intros [] [] [=]. Qed.

Lemma wf_strings (l : list string) : wf_value (Array (Str <$> l)).
Proof. apply wf_array. by intros v (s & -> & _)%list_elem_of_fmap. Qed.

Lemma permissions_value_atoms (l : list Permission) : canon <$> (GatewayPeer.permission_value <$> l) =
  GatewayPeer.permission_value <$> l.
Proof. rewrite <- list_fmap_compose. by apply list_fmap_ext. Qed.

Lemma peer_value_wf p : wf_value (GatewayPeer.to_value p).
Proof.
  apply wf_object. split; [apply (bool_decide_eq_true_1 _); by vm_compute|].
  unfold GatewayPeer.to_value. intros e. rewrite !elem_of_cons, elem_of_nil.
  intros [->|[->|[->|[->|[->|[]]]]]]; try done.
  apply wf_array. by intros v (q & -> & _)%list_elem_of_fmap.
Qed.

Lemma peer_value_integral p : integral (GatewayPeer.to_value p).
Proof.
  simpl. repeat split. apply foldr_and, Forall_fmap, Forall_true. done.
Qed.

Lemma manifest_value_wf m : wf_value (PeerManifest.to_value m).
Proof.
  apply wf_object. split; [apply (bool_decide_eq_true_1 _); by vm_compute|].
  unfold PeerManifest.to_value. intros e. rewrite !elem_of_cons, elem_of_nil.
  intros [->|[->|[->|[->|[->|[]]]]]]; try done.
  apply wf_array. intros v (q & -> & _)%list_elem_of_fmap. apply peer_value_wf.
Qed.

Lemma manifest_value_integral m : manifest_valid m → integral (PeerManifest.to_value m).
Proof.
  intros [_ Hs Hg]. simpl. repeat split; try done.
  apply foldr_and, Forall_fmap, Forall_true. intros p. apply peer_value_integral.
Qed.

(** Reads the fields of two permuted objects off one by one. *)
Lemma canon_fields es fs key v w :
  NoDup es.*1 → canon (Object es) = canon (Object fs) →
  (key, v) ∈ es → (key, w) ∈ fs → canon v = canon w.
Proof.
  intros Hnd Hc Hv Hw. apply canon_object_eq in Hc; [|done].
  apply (entries_agree (canon_entry <$> es) (canon_entry <$> fs) key); [by rewrite <- list_fmap_compose|done|..];
    apply list_elem_of_fmap; by eexists (_, _).
Qed.

(** Finds an entry in an explicit list of fields. *)
Ltac in_fields := repeat first [apply list_elem_of_here | apply list_elem_of_further].

Lemma peer_value_inj p q :
  OverlayAddress.valid (GatewayPeer.address p) → OverlayAddress.valid (GatewayPeer.address q) →
  canon (GatewayPeer.to_value p) = canon (GatewayPeer.to_value q) → p = q.
Proof.
  intros Hp Hq Hc. pose proof (proj1 (proj1 (wf_object _) (peer_value_wf p))) as Hnd.
  unfold GatewayPeer.to_value in Hc.
  assert (∀ key v w, (key, v) ∈ _ → (key, w) ∈ _ → canon v = canon w) as Hf
    by (intros key v w; exact (canon_fields _ _ key v w Hnd Hc)).
  destruct p as [[i1] [k1] a1 h1 ps1], q as [[i2] [k2] a2 h2 ps2]; simpl in *.
  assert (canon (Str i1) = canon (Str i2)) as [= ->] by (apply (Hf "peer_id"); in_fields).
  assert (canon (Str k1) = canon (Str k2)) as [= ->] by (apply (Hf "public_key"); in_fields).
  assert (canon (Str (OverlayAddress.to_string a1)) = canon (Str (OverlayAddress.to_string a2)))
    as [= Ha] by (apply (Hf "address"); in_fields).
  assert (GatewayPeer.health_policy_value h1 = GatewayPeer.health_policy_value h2) as Hh
    by (apply (Hf "health_policy" (GatewayPeer.health_policy_value h1)
                  (GatewayPeer.health_policy_value h2)); in_fields).
  assert (canon (Array (GatewayPeer.permission_value <$> ps1)) =
          canon (Array (GatewayPeer.permission_value <$> ps2))) as Hps
    by (apply (Hf "permissions"); in_fields).
  simpl in Hps. rewrite !permissions_value_atoms in Hps. injection Hps as Hps.
  apply (inj GatewayPeer.health_policy_value) in Hh as ->.
  apply (inj (fmap GatewayPeer.permission_value)) in Hps as ->.
  by rewrite (overlay_to_string_inj a1 a2).
Qed.

Lemma manifest_value_inj m n :
  manifest_valid m → manifest_valid n →
  canon (PeerManifest.to_value m) = canon (PeerManifest.to_value n) → m = n.
Proof.
  intros [Am _ _] [An _ _] Hc.
  pose proof (proj1 (proj1 (wf_object _) (manifest_value_wf m))) as Hnd.
  unfold PeerManifest.to_value in Hc.
  assert (∀ key v w, (key, v) ∈ _ → (key, w) ∈ _ → canon v = canon w) as Hf
    by (intros key v w; exact (canon_fields _ _ key v w Hnd Hc)).
  destruct m as [s1 i1 [g1] t1 ps1], n as [s2 i2 [g2] t2 ps2]; simpl in *.
  assert (canon (Num (PosInt s1)) = canon (Num (PosInt s2))) as [= ->]
    by (apply (Hf "schema_version"); in_fields).
  assert (canon (Str i1) = canon (Str i2)) as [= ->] by (apply (Hf "interface"); in_fields).
  assert (canon (Num (PosInt g1)) = canon (Num (PosInt g2))) as [= ->]
    by (apply (Hf "generation"); in_fields).
  assert (canon (Str t1) = canon (Str t2)) as [= ->] by (apply (Hf "generated_at"); in_fields).
  assert (canon (Array (GatewayPeer.to_value <$> ps1)) =
          canon (Array (GatewayPeer.to_value <$> ps2))) as Hps by (apply (Hf "peers"); in_fields).
  simpl in Hps. injection Hps as Hps. rewrite <- !list_fmap_compose in Hps.
  f_equal. apply Forall2_map_eq in Hps. apply list_eq_Forall2.
  eapply Forall2_impl_elem; [exact Hps|]. intros p q Hp Hq. apply peer_value_inj; eauto.
Qed.

(** ** Lemmas: digests and deliveries *)

Section digests.
Context `{SerdeJsonLaws} `{Sha256Laws}.

(** The bytes that are hashed. *)
Definition canonical_text (m : PeerManifest) : string :=
  from_bytes (text (canon (PeerManifest.to_value m))).

Lemma canonical_Ok m : PeerManifest.canonical m = Ok (canonical_text m).
Proof.
  unfold PeerManifest.canonical.
  by rewrite write_canonical_json_text by apply manifest_value_wf.
Qed.

Lemma digest_Ok m :
  PeerManifest.digest m = Ok (ManifestDigest.mk (hex (sha256_digest (canonical_text m)))).
Proof. unfold PeerManifest.digest. by rewrite canonical_Ok. Qed.

Lemma canonical_text_manifest m n :
  manifest_valid m → manifest_valid n → canonical_text m = canonical_text n → m = n.
Proof.
  intros Hm Hn Heq%(inj from_bytes). apply manifest_value_inj; [done..|].
  by apply canonical_text_inj; [apply manifest_value_integral..|].
Qed.

Lemma hex_lower s : forallb ManifestDigest.lower_hex (bytes (hex s)) = true.
Proof.
  apply forallb_elem. intros c. unfold hex. rewrite bytes_from_bytes. unfold hex_bytes.
  rewrite list_elem_of_bind. intros (b & Hc & _).
  assert (∀ d, 0 ≤ d < 16 → ManifestDigest.lower_hex (hex_char d) = true) as Hd.
  { intros d Hd. unfold ManifestDigest.lower_hex, is_ascii_digit. rewrite hex_char_byte by done.
    destruct (Z.ltb_spec d 10); apply orb_true_iff; [left|right]; apply andb_true_iff; lia. }
  pose proof (byte_nibbles b) as [? ?].
  rewrite !elem_of_cons, elem_of_nil in Hc. destruct Hc as [->|[->|[]]]; auto.
Qed.

Lemma digest_length m d :
  PeerManifest.digest m = Ok d → String.length (ManifestDigest.as_str d) = 64%nat.
Proof. rewrite digest_Ok. intros [= <-]. simpl. by rewrite hex_length, sha256_length. Qed.

Lemma digest_well_formed m d :
  PeerManifest.digest m = Ok d → ManifestDigest.new (ManifestDigest.as_str d) = Ok d.
Proof.
  intros Hd. pose proof (digest_length m d Hd) as Hlen.
  rewrite digest_Ok in Hd. injection Hd as <-. simpl in *. unfold ManifestDigest.new.
  by rewrite hex_lower, andb_true_r; unfold len; rewrite Hlen.
Qed.

(** The delivery a gateway is sent for a manifest. *)
Definition delivery_of (g : GatewayId) (m : PeerManifest) : PeerDelivery :=
  let digest := hex (sha256_digest (canonical_text m)) in
  PeerDelivery.mk SCHEMA_VERSION g
    ("wg-users-" +:+ display_uint (Generation.get (PeerManifest.generation m)) +:+ "-" +:+
     from_bytes (take 12 (bytes digest)))
    (ManifestDigest.mk digest) m.

Lemma delivery_new g m : PeerDelivery.new g m = Returned (Ok (delivery_of g m)).
Proof.
  unfold PeerDelivery.new. pose proof (digest_length m _ (digest_Ok m)) as Hlen.
  rewrite digest_Ok. simpl in *. by rewrite slice_to_Some by lia.
Qed.

End digests.

(** The size of a set built from a list tells whether the list has duplicates. *)
Lemma size_list_to_set_le {K} `{Countable K} (l : list K) :
  (size (list_to_set l : gset K) ≤ length l)%nat.
Proof.
  induction l as [|x l IH]; [by rewrite list_to_set_nil, size_empty|]. rewrite list_to_set_cons. simpl.
  pose proof (size_union_alt {[x]} (list_to_set l : gset K)) as Hu. rewrite size_singleton in Hu.
  assert (size (list_to_set l ∖ {[x]} : gset K) ≤ size (list_to_set l : gset K))%nat
    by (apply subseteq_size; set_solver).
  lia.
Qed.

Lemma size_list_to_set_iff {K} `{Countable K} (l : list K) :
  size (list_to_set l : gset K) = length l ↔ NoDup l.
Proof.
  split; [|apply size_list_to_set].
  induction l as [|x l IH]; intros Hs; [constructor|]. simpl in Hs.
  pose proof (size_list_to_set_le l) as Hle.
  destruct (decide (x ∈ l)) as [Hx|Hx].
  - replace ({[x]} ∪ list_to_set l : gset K) with (list_to_set l : gset K) in Hs by set_solver. lia.
  - constructor; [done|]. apply IH.
    rewrite size_union, size_singleton in Hs by set_solver. lia.
Qed.

Lemma matches_iff a d :
  GatewayAcknowledgement.matches a d = true ↔ a = GatewayAcknowledgement.applied d.
Proof.
  unfold GatewayAcknowledgement.matches, GatewayAcknowledgement.applied.
  rewrite !andb_true_iff, Z.eqb_eq, !bool_decide_eq_true.
  destruct a; simpl. split.
  - by intros ((((((-> & ->) & ->) & ->) & ->) & ->) & ->).
  - by intros [= -> -> -> -> -> -> ->].
Qed.

Lemma supported_iff r :
  GatewayStateReport.is_supported r = true ↔
  GatewayStateReport.schema_version r = SCHEMA_VERSION ∧
  NoDup (AppliedInterface.interface <$> GatewayStateReport.applied r) ∧
  (∀ a, a ∈ GatewayStateReport.applied r →
     AppliedInterface.interface a = WG_USERS ∨ AppliedInterface.interface a = WG_NODES).
Proof.
  unfold GatewayStateReport.is_supported.
  set (l := GatewayStateReport.applied r). set (names := AppliedInterface.interface <$> l).
  rewrite !andb_true_iff, Z.eqb_eq, !bool_decide_eq_true, forallb_elem.
  assert (length l = length names) as -> by (unfold names; by rewrite length_fmap).
  rewrite size_list_to_set_iff.
  setoid_rewrite elem_of_elements. setoid_rewrite elem_of_list_to_set.
  setoid_rewrite orb_true_iff. setoid_rewrite bool_decide_eq_true.
  assert ((∀ x, x ∈ names → x = WG_USERS ∨ x = WG_NODES) ↔
          ∀ a, a ∈ l → AppliedInterface.interface a = WG_USERS ∨
                       AppliedInterface.interface a = WG_NODES) as <-.
  { unfold names. setoid_rewrite list_elem_of_fmap. naive_solver. }
  split; [naive_solver|]. intros (? & Hnd & Hall). repeat split; try done.
  apply (submseteq_length names [WG_USERS; WG_NODES]), NoDup_submseteq; [done|].
  intros x [->| ->]%Hall; set_solver.
Qed.

(** ** Properties *)

(** A policy that its own methods produced always yields a manifest, for any valid time stamp
    and no other: never too many peers and never a duplicate identity.  The manifest carries
    the policy's generation and exactly its peers, in increasing order of identifier. *)
Theorem policy_manifest cs ts :
  let p := run_calls default_policy cs in
  manifest p ts =
    if valid_utc_timestamp ts
    then Ok (PeerManifest.mk SCHEMA_VERSION WG_USERS (generation p) ts
               (GatewayPeer.from_vpn_peer <$> policy_peers p))
    else Err InvalidGeneratedAt.
Proof.
  intros p. assert (policy_wf p) as Hwf by apply run_calls_wf, default_policy_wf.
  unfold manifest. destruct (valid_utc_timestamp ts) eqn:Ets.
  - rewrite <- policy_peers_sorted by done. apply manifest_new_Ok. split; [done|].
    split; [unfold policy_peers; rewrite btree_values_length; by apply policy_size|].
    split; [by apply policy_identities_distinct|done].
  - unfold PeerManifest.new. by rewrite Ets.
Qed.

(** The manifest constructor accepts a list of peers exactly when the time stamp is valid,
    there are at most 253 peers, and identifiers, public keys and addresses are each
    distinct; the peers of the result are those given, in increasing order of identifier. *)
Theorem manifest_accepts_iff g ts peers m :
  PeerManifest.new g ts peers = Ok m ↔
  valid_utc_timestamp ts = true ∧ (length peers ≤ 253)%nat ∧ identities_distinct peers ∧
  PeerManifest.peers m ≡ₚ GatewayPeer.from_vpn_peer <$> peers ∧
  StronglySorted peer_le (PeerManifest.peers m) ∧
  m = PeerManifest.mk SCHEMA_VERSION WG_USERS g ts (PeerManifest.peers m).
Proof.
  rewrite manifest_new_Ok. split.
  - intros (? & ? & ? & ->). simpl. split_and!; try done.
    + apply merge_sort_Permutation.
    + apply StronglySorted_merge_sort; apply _.
  - intros (? & ? & Hd & Hp & Hs & ->). split_and!; try done. simpl in *. f_equal.
    destruct Hd as [Hid _ _].
    apply (StronglySorted_unique_strong peer_le); [|done|apply StronglySorted_merge_sort; apply _|].
    + intros x y Hx Hy Hxy Hyx. rewrite merge_sort_Permutation in Hy. rewrite Hp in Hx.
      apply list_elem_of_fmap in Hx as (v & -> & Hv), Hy as (w & -> & Hw).
      unfold peer_le in *; simpl in *.
      assert (Vpn.peer_id v = Vpn.peer_id w) as Heq.
      { assert (PeerId.as_str (Vpn.peer_id v) = PeerId.as_str (Vpn.peer_id w))
          by (by apply (anti_symm String.le)).
        by destruct (Vpn.peer_id v), (Vpn.peer_id w); simpl in *; subst. }
      apply list_elem_of_lookup in Hv as [i Hi], Hw as [j Hj].
      assert (i = j) as ->; [|congruence].
      eapply (NoDup_lookup _ i j _ Hid); rewrite list_lookup_fmap; [by rewrite Hi|].
      rewrite Hj. simpl. by rewrite Heq.
    + by rewrite merge_sort_Permutation.
Qed.

(** An acknowledgement is accepted for a delivery exactly when it is, field by field, the one
    the gateway makes for that delivery: same gateway, delivery, interface, generation,
    digest and schema, outcome [applied]. *)
Lemma acknowledgement_exact a d :
  GatewayAcknowledgement.matches a d = true ↔ a = GatewayAcknowledgement.applied d.
Proof. apply matches_iff. Qed.

(** A report is supported exactly when it has the known schema version and its applied states
    are about distinct interfaces among [wg-users] and [wg-nodes] (hence at most two, and at
    most one for [wg-users], the one that is read). *)
Lemma report_supported_iff r :
  GatewayStateReport.is_supported r = true ↔
  GatewayStateReport.schema_version r = SCHEMA_VERSION ∧
  NoDup (AppliedInterface.interface <$> GatewayStateReport.applied r) ∧
  (∀ a, a ∈ GatewayStateReport.applied r →
     AppliedInterface.interface a = WG_USERS ∨ AppliedInterface.interface a = WG_NODES).
Proof. apply supported_iff. Qed.

(** C31: a digest identifies the manifest: two valid manifests with one digest are the same
    manifest, or else their canonical texts are a collision of SHA-256 (so neither the order
    of JSON fields nor any confusion of field boundaries can make two manifests agree). *)
Theorem digest_identifies_manifest `{SerdeJsonLaws} `{Sha256Laws} m n :
  manifest_valid m → manifest_valid n →
  PeerManifest.digest m = PeerManifest.digest n →
  m = n ∨ sha256_collision (canonical_text m) (canonical_text n).
Proof.
  intros Hm Hn. rewrite !digest_Ok. intros [= Heq%(inj hex)].
  destruct (decide (canonical_text m = canonical_text n)) as [E|E].
  - left. by apply canonical_text_manifest.
  - by right.
Qed.

(** Digests and deliveries are total: hashing a manifest never fails, its digest passes the
    validation of received digests (64 lower-case hexadecimal characters), and building a
    delivery never fails nor panics on the twelve-character prefix of the digest. *)
Lemma delivery_total `{SerdeJsonLaws} `{Sha256Laws} g m :
  ∃ d, PeerManifest.digest m = Ok d ∧
       ManifestDigest.new (ManifestDigest.as_str d) = Ok d ∧
       String.length (ManifestDigest.as_str d) = 64%nat ∧
       ∃ delivery, PeerDelivery.new g m = Returned (Ok delivery) ∧
         PeerDelivery.manifest_digest delivery = d ∧
         PeerDelivery.gateway_id delivery = g ∧ PeerDelivery.manifest delivery = m.
Proof.
  eexists. split; [apply digest_Ok|].
  split; [apply (digest_well_formed m), digest_Ok|].
  split; [apply (digest_length m), digest_Ok|].
  eexists. by rewrite delivery_new.
Qed.

(** ** Witnesses: the manifest of the repository's own contract test *)
From S2P Require Import Instances.

Definition sample_key_of (n : Z) : result WireGuardPublicKey PolicyError :=
  WireGuardPublicKey.new (STANDARD_encode (from_bytes (replicate 32 (char n)))).

(** One device of one user, enrolled in the default policy. *)
Definition sample_enrolled : result VpnPolicy PolicyError :=
  try? user := UserId.new "user-1" in
  try? peer := PeerId.new "peer-1" in
  try? key := sample_key_of 1 in
  Ok (enroll default_policy user peer key false).2.

Definition sample_manifest (generated_at : string) : result PeerManifest PolicyError :=
  try? policy := sample_enrolled in manifest policy generated_at.

(** The digest the contract test expects. *)
Example contract_test_digest :
  (try? m := sample_manifest "2026-08-01T20:00:00Z" in PeerManifest.digest m) =
  Ok (ManifestDigest.mk "c9c61a8222f6b33d7d8212917be6fc26dffefa5370164154460ad25373b5c17b").
Proof. vm_compute. reflexivity. Qed.

Definition sample_peer (n : Z) : VpnPeer :=
  mkVpnPeer (UserId.mk "user-1") (PeerId.mk (from_bytes [digit_char n])) (sample_key n)
    (OverlayAddress.mk (Ipv4Addr.mk 10 100 0 (n + 2))) OnDemand false.

(** The constructor on two lists of the same peers. *)
Definition sample_built (ns : list Z) : result PeerManifest PolicyError :=
  PeerManifest.new (Generation.mk 2) "2026-08-01T20:00:00Z" (sample_peer <$> ns).

Lemma sample_built_valid ns m :
  Forall (λ n, 0 ≤ n ≤ 9) ns → sample_built ns = Ok m → manifest_valid m.
Proof.
  intros Hns Hm. unfold sample_built in Hm. apply manifest_new_Ok in Hm as (_ & _ & _ & ->).
  constructor; simpl; [|done..]. intros p Hp. rewrite merge_sort_Permutation in Hp.
  rewrite <- list_fmap_compose in Hp. apply list_elem_of_fmap in Hp as (n & -> & Hn).
  rewrite Forall_forall in Hns. specialize (Hns n Hn). simpl.
  apply OverlayAddress_valid_iff. exists (n + 2). split; [lia|done].
Qed.

Lemma digest_identifies_manifest_witness :
  ∃ m n, sample_built [1; 2] = Ok m ∧ sample_built [2; 1] = Ok n ∧
    PeerManifest.digest m = PeerManifest.digest n ∧
    (m = n ∨ sha256_collision (canonical_text m) (canonical_text n)).
Proof.
  destruct (sample_built [1; 2]) as [m|] eqn:Hm; [|by vm_compute in Hm].
  destruct (sample_built [2; 1]) as [n|] eqn:Hn; [|by vm_compute in Hn].
  exists m, n. split; [done|]. split; [done|].
  assert (PeerManifest.digest m = PeerManifest.digest n) as Hd.
  { assert (Ok (E := PolicyError) m = Ok n) as [= ->]; [|done]. rewrite <- Hm, <- Hn.
    vm_compute. reflexivity. }
  split; [exact Hd|].
  apply (digest_identifies_manifest m n); [| |exact Hd].
  - apply (sample_built_valid [1; 2]); [|done]. by repeat constructor.
  - apply (sample_built_valid [2; 1]); [|done]. by repeat constructor.
Defined.

Lemma delivery_total_witness :
  ∃ m d, sample_manifest "2026-08-01T20:00:00Z" = Ok m ∧ PeerManifest.digest m = Ok d ∧
    ∃ delivery, PeerDelivery.new (GatewayId.mk (PeerId.mk "gateway-1")) m = Returned (Ok delivery).
Proof.
  destruct (sample_manifest "2026-08-01T20:00:00Z") as [m|] eqn:Hm; [|by vm_compute in Hm].
  destruct (delivery_total (GatewayId.mk (PeerId.mk "gateway-1")) m)
    as (d & Hd & _ & _ & delivery & Hnew & _).
  exists m, d. split; [done|]. split; [exact Hd|]. by exists delivery.
Defined.
