(* ===== verification/GatewaySync.v ===== *)
(** * GatewaySync: gateway reconciliation ([api/src/lib.rs])

    [GatewaySyncService] is generic in its store: the store is a class, the service's theorems
    are proved against the class, and [InMemoryGatewayStateStore] implements it.  A store is
    shared ([&self] over locks), so a call that writes gives back the store it leaves. *)
From S2P Require Export Contract.

Inductive StoreError : Set := Unavailable.

Inductive SyncError : Set :=
| InvalidReport
| UnconfiguredGateway
| GatewayAhead
| AppliedConflict
| AcknowledgementMismatch
| Policy (e : PolicyError)
| Store (e : StoreError).

#[export] Instance StoreError_eq_dec : EqDecision StoreError.
Proof. solve_decision. Defined.
#[export] Instance SyncError_eq_dec : EqDecision SyncError.
Proof. solve_decision. Defined.

(** ** The store's interface *)

Class GatewayStateStore (St : Type) := {
  desired_manifest : St → GatewayId → result (option PeerManifest) StoreError;
  record_applied : St → GatewayId → PeerManifest → ManifestDigest → result unit StoreError * St;
}.

(** What the service needs of a store: recording changes the applied state of that gateway and
    nothing else, and a failed write changes nothing. *)
Class GatewayStateStoreLaws (St : Type) `{GatewayStateStore St} := {
  applied_state : St → GatewayId → option (PeerManifest * ManifestDigest);
  record_applied_Ok s g m d s' :
    record_applied s g m d = (Ok tt, s') →
    (∀ g', desired_manifest s' g' = desired_manifest s g') ∧
    (∀ g', applied_state s' g' = if decide (g' = g) then Some (m, d) else applied_state s g');
  record_applied_Err s g m d e s' : record_applied s g m d = (Err e, s') → s' = s;
}.

(** ** The service *)

Section service.
Context `{GatewayStateStore St} `{SerdeJson, Sha256}.

Definition poll (store : St) (report : GatewayStateReport)
    : outcome (option PeerDelivery) SyncError :=
  let gateway_id := GatewayStateReport.gateway_id report in
  if negb (GatewayStateReport.is_supported report) then Returned (Err InvalidReport) else
  obind (Returned (map_err Store (desired_manifest store gateway_id))) (λ found,
  obind (Returned (ok_or found UnconfiguredGateway)) (λ desired,
  obind (Returned (map_err Policy (PeerManifest.digest desired))) (λ desired_digest,
  let deliver :=
    obind (omap_err Policy (PeerDelivery.new gateway_id desired))
      (λ delivery, Returned (Ok (Some delivery))) in
  match GatewayStateReport.wg_users report with
  | None => deliver
  | Some applied =>
      match Z.compare (Generation.get (AppliedInterface.generation applied))
                      (Generation.get (PeerManifest.generation desired)) with
      | Lt => deliver
      | Gt => Returned (Err GatewayAhead)
      | Eq => if bool_decide (AppliedInterface.manifest_digest applied = desired_digest)
              then Returned (Ok None) else Returned (Err AppliedConflict)
      end
  end))).

Definition acknowledge (store : St) (ack : GatewayAcknowledgement) : outcome unit SyncError * St :=
  let gateway_id := GatewayAcknowledgement.gateway_id ack in
  match desired_manifest store gateway_id with
  | Err e => (Returned (Err (Store e)), store)
  | Ok None => (Returned (Err UnconfiguredGateway), store)
  | Ok (Some desired) =>
      match PeerDelivery.new gateway_id desired with
      | Panicked => (Panicked, store)
      | Returned (Err e) => (Returned (Err (Policy e)), store)
      | Returned (Ok delivery) =>
          if negb (GatewayAcknowledgement.matches ack delivery)
          then (Returned (Err AcknowledgementMismatch), store)
          else
            let (r, store) :=
              record_applied store gateway_id desired (PeerDelivery.manifest_digest delivery) in
            (Returned (map_err Store r), store)
      end
  end.

End service.

(** ** The in-memory store *)

Module InMemoryGatewayStateStore.
(** A lock is its content and whether a writer panicked while holding it. *)
Record RwLock (A : Type) := mkLock { content : A; poisoned : bool }.
Arguments mkLock {A} content poisoned.
Arguments content {A} _.
Arguments poisoned {A} _.

Record t := mk {
  desired : RwLock (gmap GatewayId PeerManifest);
  applied_map : RwLock (gmap GatewayId (PeerManifest * ManifestDigest));
}.

Definition default : t := mk (mkLock ∅ false) (mkLock ∅ false).

Definition read {A} (l : RwLock A) : result A StoreError :=
  if poisoned l then Err Unavailable else Ok (content l).

Definition set_desired (s : t) (g : GatewayId) (m : PeerManifest) : result unit StoreError * t :=
  match read (desired s) with
  | Err e => (Err e, s)
  | Ok map => (Ok tt, mk (mkLock (<[g := m]> map) false) (applied_map s))
  end.

Definition applied (s : t) (g : GatewayId)
    : result (option (PeerManifest * ManifestDigest)) StoreError :=
  rmap (λ map : gmap GatewayId _, map !! g) (read (applied_map s)).

Definition desired_manifest (s : t) (g : GatewayId) : result (option PeerManifest) StoreError :=
  rmap (λ map : gmap GatewayId _, map !! g) (read (desired s)).

Definition record_applied (s : t) (g : GatewayId) (m : PeerManifest) (d : ManifestDigest)
    : result unit StoreError * t :=
  match read (applied_map s) with
  | Err e => (Err e, s)
  | Ok map => (Ok tt, mk (desired s) (mkLock (<[g := (m, d)]> map) false))
  end.
End InMemoryGatewayStateStore.

#[export] Instance in_memory_store : GatewayStateStore InMemoryGatewayStateStore.t := {
  desired_manifest := InMemoryGatewayStateStore.desired_manifest;
  record_applied := InMemoryGatewayStateStore.record_applied;
}.

#[export] Program Instance in_memory_store_laws :
    GatewayStateStoreLaws InMemoryGatewayStateStore.t := {
  applied_state s g := InMemoryGatewayStateStore.content (InMemoryGatewayStateStore.applied_map s) !! g;
}.
Next Obligation.
  intros s g m d s'. cbn. unfold InMemoryGatewayStateStore.record_applied.
  destruct (InMemoryGatewayStateStore.read _) eqn:E; [|done]. intros [= <-]; simpl.
  unfold InMemoryGatewayStateStore.read in E. case_match; simplify_eq.
  split; [done|]. intros g'. rewrite lookup_insert. by repeat case_decide; subst.
Qed.
Next Obligation.
  intros s g m d e s'. cbn. unfold InMemoryGatewayStateStore.record_applied.
  destruct (InMemoryGatewayStateStore.read _); naive_solver.
Qed.

(** ** The abstract specification of a poll

    The answer to a report, as a relation on what the store says is desired: it is the contract
    of the endpoint, without hashing steps, loops or error plumbing. *)
Section specification.
Context `{SerdeJson, Sha256}.

Definition reported (r : GatewayStateReport) (a : AppliedInterface) : Prop :=
  a ∈ GatewayStateReport.applied r ∧ AppliedInterface.interface a = WG_USERS.

Definition reported_generation (a : AppliedInterface) : Z :=
  Generation.get (AppliedInterface.generation a).
Definition manifest_generation (m : PeerManifest) : Z :=
  Generation.get (PeerManifest.generation m).

Inductive poll_answer (r : GatewayStateReport) (desired : result (option PeerManifest) StoreError)
    : outcome (option PeerDelivery) SyncError → Prop :=
| answer_invalid :
    GatewayStateReport.is_supported r = false →
    poll_answer r desired (Returned (Err InvalidReport))
| answer_store e :
    GatewayStateReport.is_supported r = true → desired = Err e →
    poll_answer r desired (Returned (Err (Store e)))
| answer_unconfigured :
    GatewayStateReport.is_supported r = true → desired = Ok None →
    poll_answer r desired (Returned (Err UnconfiguredGateway))
| answer_missing m :
    GatewayStateReport.is_supported r = true → desired = Ok (Some m) →
    (∀ a, ¬ reported r a) →
    poll_answer r desired
      (Returned (Ok (Some (delivery_of (GatewayStateReport.gateway_id r) m))))
| answer_stale m a :
    GatewayStateReport.is_supported r = true → desired = Ok (Some m) →
    reported r a → reported_generation a < manifest_generation m →
    poll_answer r desired
      (Returned (Ok (Some (delivery_of (GatewayStateReport.gateway_id r) m))))
| answer_converged m a :
    GatewayStateReport.is_supported r = true → desired = Ok (Some m) →
    reported r a → reported_generation a = manifest_generation m →
    PeerManifest.digest m = Ok (AppliedInterface.manifest_digest a) →
    poll_answer r desired (Returned (Ok None))
| answer_conflict m a :
    GatewayStateReport.is_supported r = true → desired = Ok (Some m) →
    reported r a → reported_generation a = manifest_generation m →
    PeerManifest.digest m ≠ Ok (AppliedInterface.manifest_digest a) →
    poll_answer r desired (Returned (Err AppliedConflict))
| answer_ahead m a :
    GatewayStateReport.is_supported r = true → desired = Ok (Some m) →
    reported r a → manifest_generation m < reported_generation a →
    poll_answer r desired (Returned (Err GatewayAhead)).

End specification.

(** ** Lemmas *)

Section lemmas.
Context `{GatewayStateStore St} `{SerdeJsonLaws} `{Sha256Laws}.

Lemma wg_users_reported r a :
  GatewayStateReport.is_supported r = true →
  GatewayStateReport.wg_users r = Some a ↔ reported r a.
Proof.
  intros Hs. apply supported_iff in Hs as (_ & Hnd & _).
  unfold GatewayStateReport.wg_users, reported. split.
  - intros [Hin Ha]%find_elem. unfold AppliedInterface.is_wg_users in Ha. by bool_prop.
  - intros [Hin Ha]. destruct (find _ _) as [b|] eqn:E.
    + apply find_elem in E as [Hb Hi]. unfold AppliedInterface.is_wg_users in Hi. bool_prop.
      apply list_elem_of_lookup in Hin as [i Hin], Hb as [j Hb].
      assert (i = j) as ->; [|congruence].
      eapply (NoDup_lookup _ i j WG_USERS Hnd); rewrite list_lookup_fmap.
      * rewrite Hin. simpl. congruence.
      * rewrite Hb. simpl. congruence.
    + apply (find_is_none _ _) with (x := a) in E; [|done].
      unfold AppliedInterface.is_wg_users in E. by bool_prop.
Qed.

Lemma poll_sound (s : St) r : poll_answer r (desired_manifest s (GatewayStateReport.gateway_id r)) (poll s r).
Proof.
  unfold poll. destruct (GatewayStateReport.is_supported r) eqn:Hs; simpl; [|by constructor].
  destruct (desired_manifest _ _) as [[m|]|e] eqn:Hd; simpl; [|by constructor..].
  rewrite digest_Ok, delivery_new. simpl.
  destruct (GatewayStateReport.wg_users r) as [a|] eqn:Ha.
  - apply wg_users_reported in Ha; [|done].
    destruct (Z.compare_spec (Generation.get (AppliedInterface.generation a))
                (Generation.get (PeerManifest.generation m))) as [Hg|Hg|Hg].
    + case_bool_decide as Hdig; [apply (answer_converged _ _ m a)|apply (answer_conflict _ _ m a)];
        try done; rewrite digest_Ok; congruence.
    + by apply (answer_stale _ _ m a).
    + by apply (answer_ahead _ _ m a).
  - apply answer_missing; try done. intros a Hr. apply wg_users_reported in Hr; [|done]. congruence.
Qed.

(** A supported report says at most one thing about [wg-users], so the answer is unique. *)
Lemma reported_unique r a b :
  GatewayStateReport.is_supported r = true → reported r a → reported r b → a = b.
Proof. intros Hs Ha Hb. apply wg_users_reported in Ha, Hb; [congruence|done..]. Qed.

Lemma poll_answer_unique r desired o1 o2 :
  poll_answer r desired o1 → poll_answer r desired o2 → o1 = o2.
Proof.
  intros Ho1 Ho2.
  destruct Ho1; destruct Ho2; simplify_eq; try done;
    repeat match goal with
    | Ha : reported r ?a, Hb : reported r ?b |- _ =>
        assert_fails (constr_eq a b); assert (a = b) as -> by eauto using reported_unique
    end;
    first [done | lia | congruence | exfalso; naive_solver].
Qed.

Lemma acknowledge_cases (s : St) a :
  let g := GatewayAcknowledgement.gateway_id a in
  acknowledge s a =
  match desired_manifest s g with
  | Err e => (Returned (Err (Store e)), s)
  | Ok None => (Returned (Err UnconfiguredGateway), s)
  | Ok (Some m) =>
      if decide (a = GatewayAcknowledgement.applied (delivery_of g m)) then
        let (r, s') := record_applied s g m (PeerDelivery.manifest_digest (delivery_of g m)) in
        (Returned (map_err Store r), s')
      else (Returned (Err AcknowledgementMismatch), s)
  end.
Proof.
  simpl. unfold acknowledge. destruct (desired_manifest _ _) as [[m|]|e]; try done.
  rewrite delivery_new. case_decide as Ha.
  - by rewrite (proj2 (matches_iff _ _) Ha).
  - destruct (GatewayAcknowledgement.matches _ _) eqn:E; [|done]. by apply matches_iff in E.
Qed.

End lemmas.

Lemma policy_manifest_valid p ts m : policy_wf p → manifest p ts = Ok m →
  manifest_valid m ∧ PeerManifest.generation m = generation p ∧ PeerManifest.generated_at m = ts.
Proof.
  intros Hwf Hm. apply manifest_new_Ok in Hm as (_ & _ & _ & ->). split; [|done].
  pose proof (wf_generation _ Hwf) as [? _]. constructor; simpl; [|done|lia].
  intros q Hq. rewrite merge_sort_Permutation in Hq.
  apply list_elem_of_fmap in Hq as (v & -> & [k Hv]%elem_of_policy_peers). simpl.
  by apply (wf_address_valid _ Hwf k).
Qed.

Lemma run_call_returned_wf p c r p' : run_call p c = (r, p') → policy_wf p → policy_wf p'.
Proof. intros Hc Hwf. change p' with ((r, p').2). rewrite <- Hc. by apply run_call_wf. Qed.

Lemma steady_wf p q : steady p q → policy_wf p → policy_wf q.
Proof. induction 1; eauto using run_call_returned_wf. Qed.

(** ** Properties *)

Section properties.
Context `{GatewayStateStoreLaws St} `{SerdeJsonLaws} `{Sha256Laws}.

(** C7: [poll] refines its abstract specification, exactly: over any store, the answer to a report
    is [o] if and only if the specification allows [o].  So it delivers the complete desired
    manifest exactly when the gateway reports nothing or an older generation, answers nothing
    exactly when generation and digest agree, refuses a newer generation and a conflicting
    digest, and never panics. *)
Theorem poll_refines (s : St) r o :
  poll s r = o ↔ poll_answer r (desired_manifest s (GatewayStateReport.gateway_id r)) o.
Proof.
  split; [intros <-; apply poll_sound|]. intros Ho.
  eapply poll_answer_unique; [apply poll_sound|exact Ho].
Qed.

(** C25: [acknowledge] records a gateway's applied state exactly for the acknowledgement of the
    desired delivery: on success the acknowledgement is field by field that of the currently
    desired manifest, the manifest and its digest become the applied state of that gateway,
    and no other gateway's state and no desired state changes; on every error the store is
    unchanged; it never panics. *)
Theorem acknowledge_records_exact (s : St) a :
  let g := GatewayAcknowledgement.gateway_id a in
  match acknowledge s a with
  | (Returned (Ok _), s') =>
      ∃ m, desired_manifest s g = Ok (Some m) ∧
           a = GatewayAcknowledgement.applied (delivery_of g m) ∧
           PeerManifest.digest m = Ok (GatewayAcknowledgement.manifest_digest a) ∧
           applied_state s' g = Some (m, GatewayAcknowledgement.manifest_digest a) ∧
           (∀ g', g' ≠ g → applied_state s' g' = applied_state s g') ∧
           (∀ g', desired_manifest s' g' = desired_manifest s g')
  | (Returned (Err e), s') =>
      s' = s ∧ (e = AcknowledgementMismatch ↔
        ∃ m, desired_manifest s g = Ok (Some m) ∧
             a ≠ GatewayAcknowledgement.applied (delivery_of g m))
  | (Panicked, _) => False
  end.
Proof.
  intros g. rewrite acknowledge_cases. fold g.
  destruct (desired_manifest s g) as [[m|]|e] eqn:Hd; [|naive_solver..].
  case_decide as Ha; [|naive_solver].
  destruct (record_applied _ _ _ _) as [[[]|e] s'] eqn:Hr; simpl.
  - apply record_applied_Ok in Hr as [Hdes Happ]. exists m.
    assert (GatewayAcknowledgement.manifest_digest a =
            PeerDelivery.manifest_digest (delivery_of g m)) as -> by (by rewrite Ha at 1).
    split_and!; try done.
    + apply digest_Ok.
    + by rewrite Happ, decide_True.
    + intros g' Hg'. by rewrite Happ, decide_False.
  - apply record_applied_Err in Hr as ->. split; [done|]. split; [done|].
    intros (m' & [= <-] & ?). done.
Qed.

(** A reconciliation round converges: a gateway that reports nothing or an older generation
    is sent the desired manifest, its acknowledgement of that delivery is never a
    mismatch, and once it is recorded, every supported report that states the delivered generation
    and digest is answered with nothing more to do, until the desired state changes. *)
Lemma sync_round_converges (s : St) r m :
  let g := GatewayStateReport.gateway_id r in
  let d := delivery_of g m in
  GatewayStateReport.is_supported r = true →
  desired_manifest s g = Ok (Some m) →
  (∀ a, reported r a → reported_generation a < manifest_generation m) →
  poll s r = Returned (Ok (Some d)) ∧
  (acknowledge s (GatewayAcknowledgement.applied d)).1 ≠ Returned (Err AcknowledgementMismatch) ∧
  ∀ s', acknowledge s (GatewayAcknowledgement.applied d) = (Returned (Ok tt), s') →
    applied_state s' g = Some (m, PeerDelivery.manifest_digest d) ∧
    ∀ r', GatewayStateReport.is_supported r' = true → GatewayStateReport.gateway_id r' = g →
      reported r' (AppliedInterface.wg_users (PeerManifest.generation m)
                     (PeerDelivery.manifest_digest d)) →
      poll s' r' = Returned (Ok None).
Proof.
  intros g d Hs Hd Hold. split; [|split].
  - eapply poll_answer_unique; [apply poll_sound|].
    destruct (GatewayStateReport.wg_users r) as [a|] eqn:Ha.
    + apply wg_users_reported in Ha; [|done]. eapply (answer_stale _ _ m a); eauto.
    + apply answer_missing; [done..|]. intros a Hr. apply wg_users_reported in Hr; [|done]. congruence.
  - rewrite acknowledge_cases. simpl. fold g. rewrite Hd, decide_True by done.
    by destruct (record_applied _ _ _ _) as [[[]|] ?].
  - intros s'. rewrite acknowledge_cases. simpl. fold g. rewrite Hd, decide_True by done.
    destruct (record_applied _ _ _ _) as [[[]|e] s''] eqn:Hr; [|done]. intros [= ->].
    apply record_applied_Ok in Hr as [Hdes Happ]. split; [by rewrite Happ, decide_True|].
    intros r' Hs' Hg Hrep. eapply poll_answer_unique; [apply poll_sound|].
    rewrite Hg. eapply (answer_converged _ _ m); [done|by rewrite Hdes|exact Hrep|done|].
    apply digest_Ok.
Qed.

(** C28: policy changes reach the gateways: when a gateway has applied the manifest of a policy and
    the desired manifest is that of the policy after further calls, then if any of them
    changed the policy the gateway is sent the new manifest; if none did and the manifest is the
    same one, nothing is sent; and if it was rebuilt with another time stamp at the same
    generation, the poll fails closed with a conflict, unless SHA-256 collides. *)
Theorem policy_changes_reach_gateways (s : St) p q t1 t2 mp mq r a :
  let g := GatewayStateReport.gateway_id r in
  policy_wf p → steady p q →
  manifest p t1 = Ok mp → manifest q t2 = Ok mq →
  desired_manifest s g = Ok (Some mq) →
  GatewayStateReport.is_supported r = true →
  reported r a → AppliedInterface.generation a = generation p →
  PeerManifest.digest mp = Ok (AppliedInterface.manifest_digest a) →
  (p ≠ q → poll s r = Returned (Ok (Some (delivery_of g mq)))) ∧
  (p = q → t1 = t2 → poll s r = Returned (Ok None)) ∧
  (p = q → t1 ≠ t2 → poll s r = Returned (Err AppliedConflict) ∨
                     sha256_collision (canonical_text mp) (canonical_text mq)).
Proof.
  intros g Hwf Hst Hmp Hmq Hd Hs Hr Hg Hdig.
  pose proof (steady_effect _ _ Hst) as [Hle Heq].
  destruct (policy_manifest_valid p t1 mp Hwf Hmp) as (Vp & Gp & Tp).
  destruct (policy_manifest_valid q t2 mq (steady_wf _ _ Hst Hwf) Hmq) as (Vq & Gq & Tq).
  split; [|split].
  - intros Hne. eapply poll_answer_unique; [apply poll_sound|]. fold g. rewrite Hd.
    eapply (answer_stale _ _ mq a); [done..|].
    unfold reported_generation, manifest_generation. rewrite Hg, Gq.
    destruct (decide (Generation.get (generation p) = Generation.get (generation q))) as [E|]; [|lia].
    destruct Hne. apply Heq. destruct (generation p), (generation q); simpl in E; by subst.
  - intros -> ->. assert (mp = mq) as -> by congruence.
    eapply poll_answer_unique; [apply poll_sound|]. fold g. rewrite Hd.
    eapply (answer_converged _ _ mq a); try done.
    unfold reported_generation, manifest_generation. congruence.
  - intros -> Ht.
    destruct (decide (PeerManifest.digest mq = Ok (AppliedInterface.manifest_digest a))) as [E|E].
    + right. rewrite <- Hdig, !digest_Ok in E. injection E as E%(inj hex). split; [|done].
      intros Hc. apply Ht. assert (mp = mq) by (by apply canonical_text_manifest). congruence.
    + left. eapply poll_answer_unique; [apply poll_sound|]. fold g. rewrite Hd.
      eapply (answer_conflict _ _ mq a); try done.
      unfold reported_generation, manifest_generation. congruence.
Qed.

End properties.

(** ** Witnesses: one gateway and the in-memory store *)
From S2P Require Import Instances.

Definition sample_gateway : GatewayId := GatewayId.mk (PeerId.mk "gateway-1").

Definition sample_store (m : PeerManifest) : InMemoryGatewayStateStore.t :=
  (InMemoryGatewayStateStore.set_desired InMemoryGatewayStateStore.default sample_gateway m).2.

Definition first_report : GatewayStateReport := GatewayStateReport.new sample_gateway [].

Lemma sample_manifest_Ok : ∃ m, sample_manifest "2026-08-01T20:00:00Z" = Ok m.
Proof.
  destruct (sample_manifest _) as [m|] eqn:Hm; [by exists m|].
  by vm_compute in Hm.
Qed.

Lemma poll_refines_witness :
  ∃ m, sample_manifest "2026-08-01T20:00:00Z" = Ok m ∧
    poll (sample_store m) first_report = Returned (Ok (Some (delivery_of sample_gateway m))).
Proof.
  destruct sample_manifest_Ok as [m Hm]. exists m. split; [exact Hm|].
  apply (poll_refines (sample_store m) first_report).
  apply answer_missing; [by vm_compute|by vm_compute|].
  intros a [Ha _]. by apply not_elem_of_nil in Ha.
Defined.

Lemma acknowledge_records_exact_witness :
  ∃ m s', sample_manifest "2026-08-01T20:00:00Z" = Ok m ∧
    acknowledge (sample_store m) (GatewayAcknowledgement.applied (delivery_of sample_gateway m))
      = (Returned (Ok tt), s') ∧
    applied_state s' sample_gateway =
      Some (m, PeerDelivery.manifest_digest (delivery_of sample_gateway m)).
Proof.
  destruct sample_manifest_Ok as [m Hm].
  pose proof (acknowledge_records_exact (sample_store m)
    (GatewayAcknowledgement.applied (delivery_of sample_gateway m))) as H.
  destruct (acknowledge _ _) as [[[[]|e]|] s'] eqn:Ha; simpl in H.
  - exists m, s'. split; [exact Hm|]. split; [done|].
    destruct H as (m' & Hd & _ & _ & Happ & _). etransitivity; [exact Happ|].
    assert (Ok (E := StoreError) (Some m) = Ok (Some m')) as [= <-] by (rewrite <- Hd; by vm_compute).
    done.
  - exfalso. rewrite acknowledge_cases in Ha. simpl in Ha.
    rewrite lookup_insert_eq in Ha. simpl in Ha. by rewrite decide_True in Ha by done.
  - destruct H.
Defined.

Lemma policy_changes_reach_gateways_witness :
  ∃ p q mp mq, steady p q ∧ p ≠ q ∧
    manifest p "2026-08-01T20:00:00Z" = Ok mp ∧ manifest q "2026-08-01T21:00:00Z" = Ok mq ∧
    poll (sample_store mq) (GatewayStateReport.new sample_gateway
      [AppliedInterface.wg_users (generation p)
         (PeerDelivery.manifest_digest (delivery_of sample_gateway mp))])
    = Returned (Ok (Some (delivery_of sample_gateway mq))).
Proof.
  destruct (manifest sample_policy "2026-08-01T20:00:00Z") as [mp|] eqn:Hmp; [|by vm_compute in Hmp].
  pose (q := run_calls sample_policy [SetGames (PeerId.mk "peer-3") true]).
  destruct (manifest q "2026-08-01T21:00:00Z") as [mq|] eqn:Hmq; [|by vm_compute in Hmq].
  assert (steady sample_policy q) as Hs by (apply steady_run_calls; by vm_compute).
  assert (sample_policy ≠ q) as Hne.
  { intros H. apply (f_equal generation) in H. by vm_compute in H. }
  exists sample_policy, q, mp, mq. split; [exact Hs|]. split; [exact Hne|].
  split; [exact Hmp|]. split; [exact Hmq|].
  set (a := AppliedInterface.wg_users (generation sample_policy)
              (PeerDelivery.manifest_digest (delivery_of sample_gateway mp))).
  set (r := GatewayStateReport.new sample_gateway [a]).
  assert (policy_wf sample_policy) as Hwf by apply run_calls_wf, default_policy_wf.
  assert (desired_manifest (sample_store mq) sample_gateway = Ok (Some mq)) as Hd by by vm_compute.
  assert (GatewayStateReport.is_supported r = true) as Hr by by vm_compute.
  assert (reported r a) as Ha by (split; [apply list_elem_of_here|reflexivity]).
  apply (policy_changes_reach_gateways (sample_store mq) sample_policy q
           "2026-08-01T20:00:00Z" "2026-08-01T21:00:00Z" mp mq r a
           Hwf Hs Hmp Hmq Hd Hr Ha eq_refl (digest_Ok mp)).
  exact Hne.
Defined.
