(* ===== verification/Serde.v ===== *)
(** * Serde: reading JSON values into types (crates [serde], [serde_json])

    The gateways and the console exchange JSON.  A type of the contract writes itself as a value
    and reads itself back, by [#[derive(Serialize, Deserialize)]] or an implementation by hand.
    [SerdeDe] is what the derived code and [serde_json] do to a value, with their documented facts
    beside it; [Wire] is a type with both directions, and [WireLaws] says that they agree. *)
From S2P Require Export Json.

(** ** The deserializer of [serde_json::Value] *)

(** [de_struct names] reads a struct whose fields have these names, all of them required, under
    [deny_unknown_fields]: it answers the values of the fields in the order of their declaration.
    [de_enum names] reads an enum whose variants have these names and no content. *)
Class SerdeDe := {
  de_string : Value → option string;
  de_u8 : Value → option Z;
  de_u64 : Value → option Z;
  de_vec : Value → option (list Value);
  de_struct : list string → Value → option (list Value);
  de_enum : list string → Value → option string;
}.

Class SerdeDeLaws `{SerdeDe} : Prop := {
  (** a string is a string, an unsigned integer a number that fits, a [Vec] an array *)
  de_string_iff v s : de_string v = Some s ↔ v = Str s;
  de_u8_iff v n : de_u8 v = Some n ↔ v = Num (PosInt n) ∧ 0 ≤ n < 2 ^ 8;
  de_u64_iff v n : de_u64 v = Some n ↔ v = Num (PosInt n) ∧ 0 ≤ n < 2 ^ 64;
  de_vec_iff v vs : de_vec v = Some vs ↔ v = Array vs;
  (** a struct is an object with exactly its fields, in any order *)
  de_struct_object names es vs : NoDup names → NoDup es.*1 →
    de_struct names (Object es) = Some vs ↔ length vs = length names ∧ es ≡ₚ zip names vs;
  (** or, where the format has it so, the array of its fields; and nothing else *)
  de_struct_inv names v vs : de_struct names v = Some vs →
    (∃ es, v = Object es) ∨ v = Array vs ∧ length vs = length names;
  (** a variant is its name; or, where the format has it so, an object of its name and no content *)
  de_enum_name names s : s ∈ names → de_enum names (Str s) = Some s;
  de_enum_inv names v s : de_enum names v = Some s → s ∈ names ∧ (v = Str s ∨ v = Object [(s, Null)]);
}.

(** ** Spellings *)

(** [spells v w]: [v] is another way to write [w]: the entries of an object in another order, a struct
    as the array of its fields, a variant as an object without content. *)
Inductive spells : Value → Value → Prop :=
| spells_null : spells Null Null
| spells_bool b : spells (Bool b) (Bool b)
| spells_num n : spells (Num n) (Num n)
| spells_str s : spells (Str s) (Str s)
| spells_array vs ws : Forall2 spells vs ws → spells (Array vs) (Array ws)
| spells_object es es' fs :
    es ≡ₚ es' → Forall2 (λ e f, e.1 = f.1 ∧ spells e.2 f.2) es' fs → spells (Object es) (Object fs)
| spells_fields vs fs : Forall2 (λ v f, spells v f.2) vs fs → spells (Array vs) (Object fs)
| spells_variant s : spells (Object [(s, Null)]) (Str s).

(** ** Types on the wire *)

(** [wire_valid] is what a value of the type can be. *)
Class Wire (A : Type) := {
  serialize : A → Value;
  deserialize : Value → option A;
  wire_valid : A → Prop;
}.

Class WireLaws (A : Type) `{Wire A} : Prop := {
  (** what was written is read, however the entries of its objects are ordered *)
  wire_complete v x : wire_valid x → json_equiv v (serialize x) → deserialize v = Some x;
  (** what is read is valid, and spells what is written *)
  wire_sound v x : wf_value v → deserialize v = Some x → wire_valid x ∧ spells v (serialize x);
}.

Section serde.
Context `{SerdeDeLaws}.

(** *** Structs *)

Lemma zip_fst {A B} (l : list A) (k : list B) : length l = length k → (zip l k).*1 = l.
Proof. intros Hl. by apply fst_zip, Nat.eq_le_incl. Qed.

Lemma Forall2_keys (es fs : list (string * Value)) (R : Value → Value → Prop) :
  Forall2 (λ e f, e.1 = f.1 ∧ R e.2 f.2) es fs → es.*1 = fs.*1.
Proof. induction 1 as [|e f es fs [He _] _ IH]; csimpl; congruence. Qed.

Lemma zip_split {A B} (l : list (A * B)) : zip l.*1 l.*2 = l.
Proof. induction l as [|[] l IH]; csimpl; congruence. Qed.

(** The struct whose fields are written as [fs] is read from any reordering. *)
Lemma de_struct_complete v names fs :
  NoDup names → fs.*1 = names → json_equiv v (Object fs) →
  ∃ vs, de_struct names v = Some vs ∧ Forall2 (λ v f, json_equiv v f.2) vs fs.
Proof.
  intros Hnd <- Hv. inversion Hv as [| | | | |es es' ? Hp Hes]; subst.
  pose proof (Forall2_keys _ _ _ Hes) as Hk. exists es'.*2. split.
  - apply de_struct_object; [done|by rewrite Hp, Hk|]. rewrite <- Hk, zip_split.
    by rewrite !length_fmap.
  - apply Forall2_fmap_l. eapply Forall2_impl; [exact Hes|]. by intros e f [_ ?].
Qed.

(** What a struct is read from is spelled by its fields. *)
Lemma de_struct_sound names v vs :
  NoDup names → wf_value v → de_struct names v = Some vs →
  length vs = length names ∧ Forall wf_value vs ∧
  ∀ fs, fs.*1 = names → Forall2 (λ w f, spells w f.2) vs fs → spells v (Object fs).
Proof.
  intros Hnd Hwf Hs. destruct (de_struct_inv _ _ _ Hs) as [[es ->]|[-> Hl]].
  - apply wf_object in Hwf as [Hes Hwf]. apply de_struct_object in Hs as [Hl Hp]; [|done..].
    split_and!; [done| |].
    + apply Forall_forall. intros w Hw. apply list_elem_of_lookup in Hw as [i Hw].
      destruct (lookup_lt_is_Some_2 names i) as [n Hn]; [rewrite <- Hl; by eapply lookup_lt_Some|].
      apply (Hwf (n, w)). rewrite Hp. apply list_elem_of_lookup. exists i.
      by rewrite lookup_zip_with, Hn; simpl; rewrite Hw.
    + intros fs <- Hws. eapply spells_object; [exact Hp|]. clear - Hws.
      induction Hws as [|w f vs fs Hw Hws IH]; csimpl; constructor; auto.
  - rewrite wf_array in Hwf. split_and!; [done|by apply Forall_forall|].
    intros fs _ Hws. by apply spells_fields.
Qed.

(** *** Leaves and lists *)

#[export] Instance string_wire : Wire string := {
  serialize := Str;
  deserialize := de_string;
  wire_valid _ := True;
}.

#[export] Instance string_wire_laws : WireLaws string.
Proof.
  split; simpl.
  - intros v s _ Hv. apply de_string_iff. by inversion Hv.
  - intros v s _ ->%de_string_iff. split; [done|constructor].
Qed.

(** A [u8]. *)
Definition U8 : Type := Z.

#[export] Instance U8_wire : Wire U8 := {
  serialize n := Num (PosInt n);
  deserialize := de_u8;
  wire_valid n := 0 ≤ n < 2 ^ 8;
}.

#[export] Instance U8_wire_laws : WireLaws U8.
Proof.
  split; simpl.
  - intros v n Hn Hv. apply de_u8_iff. by inversion Hv.
  - intros v n _ [-> Hn]%de_u8_iff. split; [done|constructor].
Qed.

#[export] Instance list_wire `{Wire A} : Wire (list A) := {
  serialize l := Array (serialize <$> l);
  deserialize v := vs ← de_vec v; mapM deserialize vs;
  wire_valid := Forall wire_valid;
}.

#[export] Instance list_wire_laws `{WireLaws A} : WireLaws (list A).
Proof.
  split; simpl.
  - intros v l Hl Hv. inversion Hv as [| | | |vs ? Hvs|]; subst.
    rewrite (proj2 (de_vec_iff _ vs)) by done. simpl. apply mapM_Some.
    rewrite Forall2_fmap_r in Hvs. eapply Forall2_impl_elem; [exact Hvs|].
    intros w x Hw Hx He. apply wire_complete; [|done]. rewrite Forall_forall in Hl. by apply Hl.
  - intros v l Hwf. rewrite bind_Some. intros (vs & ->%de_vec_iff & Hm%mapM_Some).
    rewrite wf_array in Hwf.
    assert (Forall2 (λ w x, wire_valid x ∧ spells w (serialize x)) vs l) as Hs.
    { eapply Forall2_impl_elem; [exact Hm|]. intros w x Hw Hx Hd. apply wire_sound; auto. }
    split.
    + clear Hm Hwf. induction Hs; constructor; naive_solver.
    + constructor. apply Forall2_fmap_r. eapply Forall2_impl; [exact Hs|]. by intros w x [_ ?].
Qed.

(** A newtype over a text that is checked when it is read. *)
Lemma newtype_complete {A} (text : A → string) (parse : string → option A) (ok : A → Prop) v x :
  (∀ x, ok x → parse (text x) = Some x) → ok x → json_equiv v (Str (text x)) →
  (s ← de_string v; parse s) = Some x.
Proof.
  intros Hp Hx Hv. inversion Hv; subst. rewrite (proj2 (de_string_iff _ (text x))) by done. by apply Hp.
Qed.

Lemma newtype_sound {A} (text : A → string) (parse : string → option A) (ok : A → Prop) v x :
  (∀ s x, parse s = Some x → text x = s ∧ ok x) → (s ← de_string v; parse s) = Some x →
  ok x ∧ spells v (Str (text x)).
Proof.
  intros Hp. rewrite bind_Some. intros (s & ->%de_string_iff & Hs). apply Hp in Hs as [<- Hx].
  split; [done|constructor].
Qed.

(** An enum without contents, which is written as the name of its variant. *)
Lemma enum_complete {A} (names : list string) (name : A → string) (variant : string → option A) v x :
  (∀ x, name x ∈ names ∧ variant (name x) = Some x) → json_equiv v (Str (name x)) →
  (s ← de_enum names v; variant s) = Some x.
Proof.
  intros Hn Hv. inversion Hv; subst. destruct (Hn x) as [Hin Hx]. by rewrite (de_enum_name _ _ Hin).
Qed.

Lemma enum_sound {A} (names : list string) (name : A → string) (variant : string → option A) v x :
  (∀ s x, variant s = Some x → name x = s) → (s ← de_enum names v; variant s) = Some x →
  spells v (Str (name x)).
Proof.
  intros Hn. rewrite bind_Some. intros (s & Hs & Hx). apply Hn in Hx as <-.
  apply de_enum_inv in Hs as [_ [->| ->]]; constructor.
Qed.

End serde.

(** *** Structs, field by field *)

(** The fields of a valid struct are read from any reordering of what it writes. *)
Ltac read_fields :=
  repeat match goal with
  | H : _ ∧ _ |- _ => destruct H
  | H : Forall2 _ _ (_ :: _) |- _ => apply Forall2_cons_inv_r in H as (? & ? & ? & H & ->)
  | H : Forall2 _ _ [] |- _ => apply Forall2_nil_inv_r in H as ->
  end;
  repeat match goal with
  | Hok : @wire_valid ?A _ ?x |- context [deserialize ?w] =>
      rewrite (wire_complete (A := A) w x Hok) by assumption; cbn [mbind option_bind]
  end.

Ltac distinct_names := apply (bool_decide_eq_true_1 _); vm_compute; reflexivity.

Ltac struct_complete :=
  let v := fresh "v" in let x := fresh "x" in let Hok := fresh "Hok" in let Hv := fresh "Hv" in
  let vs := fresh "vs" in let Hs := fresh "Hs" in let Hvs := fresh "Hvs" in
  intros v x Hok Hv;
  match goal with |- mbind _ (de_struct ?names v) = _ =>
    edestruct (de_struct_complete v names) as (vs & Hs & Hvs);
      [distinct_names| |exact Hv|]; [reflexivity|]; rewrite Hs
  end;
  cbn [mbind option_bind]; read_fields; destruct x; reflexivity.

(** What a struct is read from: each field was read, and spells what it writes. *)
Ltac sound_fields :=
  repeat match goal with
  | H : mbind _ _ = Some _ |- _ => apply bind_Some in H as (? & ? & H)
  | H : Forall wf_value (_ :: _) |- _ => apply Forall_cons in H as [? H]
  end;
  repeat match goal with
  | Hwf : wf_value ?w, H : @deserialize ?A _ ?w = Some ?x |- _ =>
      apply (wire_sound (A := A) w x Hwf) in H as [? ?]
  end.

Ltac struct_sound :=
  let v := fresh "v" in let x := fresh "x" in let Hwf := fresh "Hwf" in let Hx := fresh "Hx" in
  let vs := fresh "vs" in let Hs := fresh "Hs" in let Hl := fresh "Hl" in let Hvs := fresh "Hvs" in
  let Hsp := fresh "Hsp" in
  intros v x Hwf; rewrite bind_Some; intros (vs & Hs & Hx);
  match type of Hs with de_struct ?names _ = _ =>
    destruct (de_struct_sound names v vs ltac:(distinct_names) Hwf Hs) as (Hl & Hvs & Hsp)
  end; clear Hs;
  repeat match type of Hx with
  | match ?l with _ => _ end = _ => is_var l; destruct l; [try discriminate Hx|try discriminate Hx]
  end;
  sound_fields; injection Hx as <-; split; [tauto|]; apply Hsp; [reflexivity|]; repeat constructor; assumption.
