(* ===== verification/Wire.v ===== *)
(** * Wire: the gateway contract as JSON ([policy/src/vpn.rs], [policy/src/contract.rs])

    How the types of the contract are written and read: the newtypes check what they read with their
    constructors, the structs refuse unknown fields.  A gateway polls with a report, is sent a
    delivery, and answers with an acknowledgement; [reconciliation_over_wire] is a whole round, with
    every message read from its JSON. *)
From S2P Require Export Serde GatewaySync.

Section wire.
Context `{SerdeDe, Base64}.

(** ** Newtypes *)

Definition UserId_deserialize (v : Value) : option UserId := value ← de_string v; ok (UserId.new value).
Definition PeerId_deserialize (v : Value) : option PeerId := value ← de_string v; ok (PeerId.new value).
Definition GatewayId_deserialize (v : Value) : option GatewayId := value ← de_string v; ok (GatewayId.new value).
Definition WireGuardPublicKey_deserialize (v : Value) : option WireGuardPublicKey :=
  value ← de_string v; ok (WireGuardPublicKey.new value).
Definition ManifestDigest_deserialize (v : Value) : option ManifestDigest :=
  value ← de_string v; ok (ManifestDigest.new value).
Definition OverlayAddress_serialize (a : OverlayAddress) : Value := Str (OverlayAddress.to_string a).
Definition OverlayAddress_deserialize (v : Value) : option OverlayAddress :=
  value ← de_string v; ok (OverlayAddress.from_str value).
Definition Generation_deserialize (v : Value) : option Generation :=
  value ← de_u64 v; ok (Generation.new value).

(** [#[serde(rename_all = "snake_case")]]. *)
Definition HealthPolicy_deserialize (v : Value) : option HealthPolicy :=
  name ← de_enum ["required"; "on_demand"] v;
  if String.eqb name "required" then Some Required
  else if String.eqb name "on_demand" then Some OnDemand else None.
Definition Permission_deserialize (v : Value) : option Permission :=
  name ← de_enum ["egress"; "games"] v;
  if String.eqb name "egress" then Some Egress else if String.eqb name "games" then Some Games else None.

#[export] Instance UserId_wire : Wire UserId :=
  {| serialize id := Str (UserId.as_str id); deserialize := UserId_deserialize; wire_valid := UserId.valid |}.
#[export] Instance PeerId_wire : Wire PeerId :=
  {| serialize id := Str (PeerId.as_str id); deserialize := PeerId_deserialize; wire_valid := PeerId.valid |}.
#[export] Instance GatewayId_wire : Wire GatewayId := {|
  serialize id := Str (GatewayId.as_str id);
  deserialize := GatewayId_deserialize;
  wire_valid id := PeerId.valid (GatewayId.inner id);
|}.
#[export] Instance WireGuardPublicKey_wire : Wire WireGuardPublicKey := {|
  serialize key := Str (WireGuardPublicKey.as_str key);
  deserialize := WireGuardPublicKey_deserialize;
  wire_valid key := WireGuardPublicKey.new (WireGuardPublicKey.as_str key) = Ok key;
|}.
#[export] Instance ManifestDigest_wire : Wire ManifestDigest := {|
  serialize digest := Str (ManifestDigest.as_str digest);
  deserialize := ManifestDigest_deserialize;
  wire_valid digest := ManifestDigest.new (ManifestDigest.as_str digest) = Ok digest;
|}.
#[export] Instance OverlayAddress_wire : Wire OverlayAddress := {|
  serialize := OverlayAddress_serialize;
  deserialize := OverlayAddress_deserialize;
  wire_valid := OverlayAddress.valid;
|}.
#[export] Instance Generation_wire : Wire Generation := {|
  serialize generation := Num (PosInt (Generation.get generation));
  deserialize := Generation_deserialize;
  wire_valid := Generation.valid;
|}.
#[export] Instance HealthPolicy_wire : Wire HealthPolicy := {|
  serialize := GatewayPeer.health_policy_value;
  deserialize := HealthPolicy_deserialize;
  wire_valid _ := True;
|}.
#[export] Instance Permission_wire : Wire Permission := {|
  serialize := GatewayPeer.permission_value;
  deserialize := Permission_deserialize;
  wire_valid _ := True;
|}.

(** ** Structs: the derived code, with [deny_unknown_fields] *)

Definition GatewayPeer_deserialize (v : Value) : option GatewayPeer :=
  fields ← de_struct ["peer_id"; "public_key"; "address"; "health_policy"; "permissions"] v;
  match fields with
  | [peer_id; public_key; address; health_policy; permissions] =>
      peer_id ← deserialize peer_id;
      public_key ← deserialize public_key;
      address ← deserialize address;
      health_policy ← deserialize health_policy;
      permissions ← deserialize permissions;
      Some (GatewayPeer.mk peer_id public_key address health_policy permissions)
  | _ => None
  end.

#[export] Instance GatewayPeer_wire : Wire GatewayPeer := {|
  serialize := GatewayPeer.to_value;
  deserialize := GatewayPeer_deserialize;
  wire_valid p := wire_valid (GatewayPeer.peer_id p) ∧ wire_valid (GatewayPeer.public_key p) ∧
    wire_valid (GatewayPeer.address p) ∧ wire_valid (GatewayPeer.health_policy p) ∧
    wire_valid (GatewayPeer.permissions p);
|}.

Definition PeerManifest_deserialize (v : Value) : option PeerManifest :=
  fields ← de_struct ["schema_version"; "interface"; "generation"; "generated_at"; "peers"] v;
  match fields with
  | [schema_version; interface; generation; generated_at; peers] =>
      schema_version ← deserialize (A := U8) schema_version;
      interface ← deserialize interface;
      generation ← deserialize generation;
      generated_at ← deserialize generated_at;
      peers ← deserialize peers;
      Some (PeerManifest.mk schema_version interface generation generated_at peers)
  | _ => None
  end.

#[export] Instance PeerManifest_wire : Wire PeerManifest := {|
  serialize := PeerManifest.to_value;
  deserialize := PeerManifest_deserialize;
  wire_valid m := wire_valid (A := U8) (PeerManifest.schema_version m) ∧ wire_valid (PeerManifest.interface m) ∧
    wire_valid (PeerManifest.generation m) ∧ wire_valid (PeerManifest.generated_at m) ∧
    wire_valid (PeerManifest.peers m);
|}.

Definition AppliedInterface_serialize (a : AppliedInterface) : Value :=
  Object [
    ("interface", serialize (AppliedInterface.interface a));
    ("generation", serialize (AppliedInterface.generation a));
    ("manifest_digest", serialize (AppliedInterface.manifest_digest a))
  ].

Definition AppliedInterface_deserialize (v : Value) : option AppliedInterface :=
  fields ← de_struct ["interface"; "generation"; "manifest_digest"] v;
  match fields with
  | [interface; generation; manifest_digest] =>
      interface ← deserialize interface;
      generation ← deserialize generation;
      manifest_digest ← deserialize manifest_digest;
      Some (AppliedInterface.mk interface generation manifest_digest)
  | _ => None
  end.

#[export] Instance AppliedInterface_wire : Wire AppliedInterface := {|
  serialize := AppliedInterface_serialize;
  deserialize := AppliedInterface_deserialize;
  wire_valid a := wire_valid (AppliedInterface.interface a) ∧ wire_valid (AppliedInterface.generation a) ∧
    wire_valid (AppliedInterface.manifest_digest a);
|}.

Definition GatewayStateReport_serialize (r : GatewayStateReport) : Value :=
  Object [
    ("schema_version", serialize (A := U8) (GatewayStateReport.schema_version r));
    ("gateway_id", serialize (GatewayStateReport.gateway_id r));
    ("applied", serialize (GatewayStateReport.applied r))
  ].

Definition GatewayStateReport_deserialize (v : Value) : option GatewayStateReport :=
  fields ← de_struct ["schema_version"; "gateway_id"; "applied"] v;
  match fields with
  | [schema_version; gateway_id; applied] =>
      schema_version ← deserialize (A := U8) schema_version;
      gateway_id ← deserialize gateway_id;
      applied ← deserialize applied;
      Some (GatewayStateReport.mk schema_version gateway_id applied)
  | _ => None
  end.

#[export] Instance GatewayStateReport_wire : Wire GatewayStateReport := {|
  serialize := GatewayStateReport_serialize;
  deserialize := GatewayStateReport_deserialize;
  wire_valid r := wire_valid (A := U8) (GatewayStateReport.schema_version r) ∧
    wire_valid (GatewayStateReport.gateway_id r) ∧ wire_valid (GatewayStateReport.applied r);
|}.

Definition PeerDelivery_serialize (d : PeerDelivery) : Value :=
  Object [
    ("schema_version", serialize (A := U8) (PeerDelivery.schema_version d));
    ("gateway_id", serialize (PeerDelivery.gateway_id d));
    ("delivery_id", serialize (PeerDelivery.delivery_id d));
    ("manifest_digest", serialize (PeerDelivery.manifest_digest d));
    ("manifest", serialize (PeerDelivery.manifest d))
  ].

Definition PeerDelivery_deserialize (v : Value) : option PeerDelivery :=
  fields ← de_struct ["schema_version"; "gateway_id"; "delivery_id"; "manifest_digest"; "manifest"] v;
  match fields with
  | [schema_version; gateway_id; delivery_id; manifest_digest; manifest] =>
      schema_version ← deserialize (A := U8) schema_version;
      gateway_id ← deserialize gateway_id;
      delivery_id ← deserialize delivery_id;
      manifest_digest ← deserialize manifest_digest;
      manifest ← deserialize manifest;
      Some (PeerDelivery.mk schema_version gateway_id delivery_id manifest_digest manifest)
  | _ => None
  end.

#[export] Instance PeerDelivery_wire : Wire PeerDelivery := {|
  serialize := PeerDelivery_serialize;
  deserialize := PeerDelivery_deserialize;
  wire_valid d := wire_valid (A := U8) (PeerDelivery.schema_version d) ∧ wire_valid (PeerDelivery.gateway_id d) ∧
    wire_valid (PeerDelivery.delivery_id d) ∧ wire_valid (PeerDelivery.manifest_digest d) ∧
    wire_valid (PeerDelivery.manifest d);
|}.

Definition GatewayAcknowledgement_serialize (a : GatewayAcknowledgement) : Value :=
  Object [
    ("schema_version", serialize (A := U8) (GatewayAcknowledgement.schema_version a));
    ("gateway_id", serialize (GatewayAcknowledgement.gateway_id a));
    ("delivery_id", serialize (GatewayAcknowledgement.delivery_id a));
    ("interface", serialize (GatewayAcknowledgement.interface a));
    ("generation", serialize (GatewayAcknowledgement.generation a));
    ("manifest_digest", serialize (GatewayAcknowledgement.manifest_digest a));
    ("outcome", serialize (GatewayAcknowledgement.outcome a))
  ].

Definition GatewayAcknowledgement_deserialize (v : Value) : option GatewayAcknowledgement :=
  fields ← de_struct ["schema_version"; "gateway_id"; "delivery_id"; "interface"; "generation";
                      "manifest_digest"; "outcome"] v;
  match fields with
  | [schema_version; gateway_id; delivery_id; interface; generation; manifest_digest; outcome] =>
      schema_version ← deserialize (A := U8) schema_version;
      gateway_id ← deserialize gateway_id;
      delivery_id ← deserialize delivery_id;
      interface ← deserialize interface;
      generation ← deserialize generation;
      manifest_digest ← deserialize manifest_digest;
      outcome ← deserialize outcome;
      Some (GatewayAcknowledgement.mk schema_version gateway_id delivery_id interface generation manifest_digest
              outcome)
  | _ => None
  end.

#[export] Instance GatewayAcknowledgement_wire : Wire GatewayAcknowledgement := {|
  serialize := GatewayAcknowledgement_serialize;
  deserialize := GatewayAcknowledgement_deserialize;
  wire_valid a := wire_valid (A := U8) (GatewayAcknowledgement.schema_version a) ∧
    wire_valid (GatewayAcknowledgement.gateway_id a) ∧ wire_valid (GatewayAcknowledgement.delivery_id a) ∧
    wire_valid (GatewayAcknowledgement.interface a) ∧ wire_valid (GatewayAcknowledgement.generation a) ∧
    wire_valid (GatewayAcknowledgement.manifest_digest a) ∧ wire_valid (GatewayAcknowledgement.outcome a);
|}.

End wire.

(** ** The laws *)

Section laws.
Context `{SerdeDeLaws, Base64}.

(** A text that a constructor checks and keeps. *)
Lemma checked_wire {A} (text : A → string) (new : string → result A PolicyError) (valid : A → Prop) :
  (∀ s x, new s = Ok x ↔ text x = s ∧ valid x) →
  (∀ v x, valid x → json_equiv v (Str (text x)) → (s ← de_string v; ok (new s)) = Some x) ∧
  (∀ v x, wf_value v → (s ← de_string v; ok (new s)) = Some x → valid x ∧ spells v (Str (text x))).
Proof.
  intros Hn. split.
  - intros v x. apply newtype_complete. intros y Hy. by rewrite (proj2 (Hn _ y)).
  - intros v x _. apply newtype_sound. intros s y Hy. apply Hn. by destruct (new s); simplify_eq/=.
Qed.

Ltac wire_checked text new valid :=
  let Hn := fresh "Hn" in
  assert (∀ s x, new s = Ok x ↔ text x = s ∧ valid x) as Hn;
    [|split; [apply (checked_wire text new valid Hn)|apply (checked_wire text new valid Hn)]].

#[export] Instance UserId_wire_laws : WireLaws UserId.
Proof.
  wire_checked UserId.as_str UserId.new UserId.valid. intros s [t]. unfold UserId.new, UserId.valid.
  simpl. destruct (valid_opaque_id s) eqn:E; split; intros; destruct_and?; subst; (try split); congruence.
Qed.

Lemma PeerId_new_iff s id : PeerId.new s = Ok id ↔ PeerId.as_str id = s ∧ PeerId.valid id.
Proof.
  destruct id as [t]. unfold PeerId.new, PeerId.valid. simpl.
  destruct (valid_opaque_id s) eqn:E; split; intros; destruct_and?; subst; (try split); congruence.
Qed.

#[export] Instance PeerId_wire_laws : WireLaws PeerId.
Proof. wire_checked PeerId.as_str PeerId.new PeerId.valid. intros s x. apply PeerId_new_iff. Qed.

#[export] Instance GatewayId_wire_laws : WireLaws GatewayId.
Proof.
  wire_checked GatewayId.as_str GatewayId.new (λ id, PeerId.valid (GatewayId.inner id)).
  intros s [id]. unfold GatewayId.new, GatewayId.as_str. simpl. rewrite <- PeerId_new_iff.
  destruct (PeerId.new s); naive_solver.
Qed.

#[export] Instance WireGuardPublicKey_wire_laws : WireLaws WireGuardPublicKey.
Proof.
  wire_checked WireGuardPublicKey.as_str WireGuardPublicKey.new
    (λ key, WireGuardPublicKey.new (WireGuardPublicKey.as_str key) = Ok key).
  intros s key. split; [|by intros [<- ?]]. intros Hs.
  assert (WireGuardPublicKey.as_str key = s) as He; [|by rewrite He].
  unfold WireGuardPublicKey.new in Hs. inv_ok. by destruct (_ && _); simplify_eq.
Qed.

#[export] Instance ManifestDigest_wire_laws : WireLaws ManifestDigest.
Proof.
  wire_checked ManifestDigest.as_str ManifestDigest.new
    (λ digest, ManifestDigest.new (ManifestDigest.as_str digest) = Ok digest).
  intros s digest. split; [|by intros [<- ?]]. intros Hs.
  assert (ManifestDigest.as_str digest = s) as He; [|by rewrite He].
  unfold ManifestDigest.new in Hs. by destruct (_ && _); simplify_eq.
Qed.

#[export] Instance OverlayAddress_wire_laws : WireLaws OverlayAddress.
Proof.
  wire_checked OverlayAddress.to_string OverlayAddress.from_str OverlayAddress.valid.
  intros s a. rewrite overlay_text_iff. naive_solver.
Qed.

#[export] Instance Generation_wire_laws : WireLaws Generation.
Proof.
  split; cbn [serialize deserialize wire_valid Generation_wire]; unfold Generation_deserialize, Generation.valid, U64_MAX.
  - intros v [n] Hn Hv. inversion Hv; subst. simpl in *.
    rewrite (proj2 (de_u64_iff _ n)) by (split; [done|lia]). simpl. unfold Generation.new.
    destruct (Z.eqb_spec n 0); [lia|done].
  - intros v x _. rewrite bind_Some. intros (n & [-> Hn]%de_u64_iff & Hx). unfold Generation.new in Hx.
    destruct (Z.eqb_spec n 0); [done|]. injection Hx as <-. simpl. split; [lia|constructor].
Qed.

#[export] Instance HealthPolicy_wire_laws : WireLaws HealthPolicy.
Proof.
  split.
  - intros v x _. apply (enum_complete _ (λ h, match h with Required => "required" | OnDemand => "on_demand" end)).
    intros []; (split; [set_solver|done]).
  - intros v x _ Hx. split; [done|].
    apply (enum_sound _ (λ h, match h with Required => "required" | OnDemand => "on_demand" end) _ v x) in Hx;
      [exact Hx|].
    intros s y. cbv beta. repeat match goal with
    | |- (if String.eqb ?a ?b then _ else _) = _ → _ => destruct (String.eqb_spec a b) as [->|]; [by intros [= <-]|]
    end. discriminate.
Qed.

#[export] Instance Permission_wire_laws : WireLaws Permission.
Proof.
  split.
  - intros v x _. apply (enum_complete _ (λ p, match p with Egress => "egress" | Games => "games" end)).
    intros []; (split; [set_solver|done]).
  - intros v x _ Hx. split; [done|].
    apply (enum_sound _ (λ p, match p with Egress => "egress" | Games => "games" end) _ v x) in Hx;
      [exact Hx|].
    intros s y. cbv beta. repeat match goal with
    | |- (if String.eqb ?a ?b then _ else _) = _ → _ => destruct (String.eqb_spec a b) as [->|]; [by intros [= <-]|]
    end. discriminate.
Qed.

#[export] Instance GatewayPeer_wire_laws : WireLaws GatewayPeer.
Proof.
  split; cbn [serialize deserialize wire_valid GatewayPeer_wire];
    unfold GatewayPeer_deserialize; [struct_complete|struct_sound].
Qed.

#[export] Instance PeerManifest_wire_laws : WireLaws PeerManifest.
Proof.
  split; cbn [serialize deserialize wire_valid PeerManifest_wire]; unfold PeerManifest_deserialize;
    [struct_complete|struct_sound].
Qed.

#[export] Instance AppliedInterface_wire_laws : WireLaws AppliedInterface.
Proof.
  split; cbn [serialize deserialize wire_valid AppliedInterface_wire]; unfold AppliedInterface_deserialize;
    [struct_complete|struct_sound].
Qed.

#[export] Instance GatewayStateReport_wire_laws : WireLaws GatewayStateReport.
Proof.
  split; cbn [serialize deserialize wire_valid GatewayStateReport_wire]; unfold GatewayStateReport_deserialize;
    [struct_complete|struct_sound].
Qed.

#[export] Instance PeerDelivery_wire_laws : WireLaws PeerDelivery.
Proof.
  split; cbn [serialize deserialize wire_valid PeerDelivery_wire]; unfold PeerDelivery_deserialize;
    [struct_complete|struct_sound].
Qed.

#[export] Instance GatewayAcknowledgement_wire_laws : WireLaws GatewayAcknowledgement.
Proof.
  split; cbn [serialize deserialize wire_valid GatewayAcknowledgement_wire]; unfold GatewayAcknowledgement_deserialize;
    [struct_complete|struct_sound].
Qed.

End laws.

(** ** What the policy sends is valid *)

(** The arguments of a call come out of the constructors of their types. *)
Definition call_wire `{Base64, SerdeDe} (c : policy_call) : Prop :=
  match c with
  | Enroll _ pid key _ => wire_valid pid ∧ wire_valid key
  | RotateKey _ key => wire_valid key
  | SetGames _ _ | Revoke _ => True
  end.

Section policies.
Context `{SerdeDeLaws, Base64}.

Definition peers_wire (m : gmap string VpnPeer) : Prop :=
  map_Forall (λ _ peer, wire_valid (Vpn.peer_id peer) ∧ wire_valid (Vpn.public_key peer)) m.

Lemma bump_peers {A} m g (a : A) : peers (bump m g a).2 = m.
Proof. unfold bump. by destruct (Generation.next g). Qed.

Lemma run_call_wire p c : call_wire c → peers_wire (peers p) → peers_wire (peers (run_call p c).2).
Proof.
  unfold peers_wire. intros Hc Hp.
  destruct c as [uid pid key g|pid b|pid key|pid]; simpl in *; unfold enroll, set_games, rotate_key, revoke;
    repeat case_match; simpl; rewrite ?bump_peers; try done;
    first [by apply map_Forall_delete|apply map_Forall_insert_2; [simpl|done]]; [tauto|..];
    match goal with H : peers p !! _ = Some _ |- _ => pose proof (map_Forall_lookup_1 _ _ _ _ Hp H) as [] end; tauto.
Qed.

Lemma run_calls_wire cs p :
  Forall call_wire cs → peers_wire (peers p) → peers_wire (peers (run_calls p cs)).
Proof. intros Hcs. revert p. induction Hcs as [|c cs Hc _ IH]; intros p Hp; [done|]. by apply IH, run_call_wire. Qed.

Lemma policy_manifest_wire cs ts m :
  Forall call_wire cs → manifest (run_calls default_policy cs) ts = Ok m → wire_valid m.
Proof.
  intros Hcs Hm. assert (policy_wf (run_calls default_policy cs)) as Hwf by apply run_calls_wf, default_policy_wf.
  assert (peers_wire (peers (run_calls default_policy cs))) as Hp.
  { apply run_calls_wire; [done|]. apply map_Forall_empty. }
  apply manifest_new_Ok in Hm as (_ & _ & _ & ->).
  cbn [wire_valid PeerManifest_wire list_wire Generation_wire U8_wire string_wire PeerManifest.schema_version
       PeerManifest.generation PeerManifest.peers].
  split_and!; [by unfold SCHEMA_VERSION|unfold SCHEMA_VERSION; lia|done|by destruct Hwf|done|].
  apply Forall_forall. intros q. rewrite merge_sort_Permutation.
  intros (peer & -> & [k Hk]%elem_of_policy_peers)%list_elem_of_fmap.
  pose proof (map_Forall_lookup_1 _ _ _ _ Hp Hk) as []. split_and!; simpl; try done.
  - by apply (wf_address_valid _ Hwf k).
  - by apply Forall_forall.
Qed.
End policies.

(** A value is a reordering of itself. *)
Lemma json_equiv_refl v : json_equiv v v.
Proof.
  revert v. fix IH 1. intros [|b|n|s|vs|es]; [constructor..| |].
  - constructor. induction vs; constructor; [apply IH|assumption].
  - apply (equiv_object _ es); [reflexivity|]. induction es; constructor; [split; [reflexivity|apply IH]|assumption].
Qed.

(** ** Properties *)

Section properties.
Context `{GatewayStateStoreLaws St} `{SerdeJsonLaws} `{Sha256Laws} `{SerdeDeLaws} `{Base64}.

Lemma delivery_wire g m : wire_valid g → wire_valid m → wire_valid (delivery_of g m).
Proof.
  intros Hg Hm. cbn [wire_valid PeerDelivery_wire]. split_and!; simpl; try done.
  exact (digest_well_formed m _ (digest_Ok m)).
Qed.

Lemma acknowledgement_wire g m :
  wire_valid g → wire_valid m → wire_valid (GatewayAcknowledgement.applied (delivery_of g m)).
Proof.
  intros Hg Hm. cbn [wire_valid GatewayAcknowledgement_wire]. split_and!; simpl; try done.
  - by destruct Hm as (_ & _ & ? & _).
  - exact (digest_well_formed m _ (digest_Ok m)).
Qed.

Lemma applied_report_wire g m :
  wire_valid g → wire_valid m →
  wire_valid (GatewayStateReport.new g
    [AppliedInterface.wg_users (PeerManifest.generation m) (PeerDelivery.manifest_digest (delivery_of g m))]).
Proof.
  intros Hg Hm. cbn [wire_valid GatewayStateReport_wire]. split_and!; simpl; try done.
  constructor; [|constructor]. cbn [wire_valid AppliedInterface_wire]. split_and!; simpl; [done| |].
  - by destruct Hm as (_ & _ & ? & _).
  - exact (digest_well_formed m _ (digest_Ok m)).
Qed.

(** What is read from an object has the names of its fields. *)
Lemma spells_names es fs : spells (Object es) (Object fs) → es.*1 ≡ₚ fs.*1.
Proof. inversion 1 as [| | | | |? es' ? Hp Hes| |]; subst. by rewrite Hp, (Forall2_keys _ _ _ Hes). Qed.

(** C13: the wire contract is exact, for the reports, deliveries and acknowledgements that a gateway
    and the console exchange: a valid message is read back from whatever reordering of its JSON
    arrives, at every depth; and whatever is read is valid (identifiers, keys, digests, addresses and
    generations checked by their constructors, integers in range), spells what the message is
    written as, and, as an object, has exactly the fields of its type: a message that lacks a field or has
    another is refused. *)
Theorem wire_faithful :
  (∀ v r, wire_valid r → json_equiv v (GatewayStateReport_serialize r) → GatewayStateReport_deserialize v = Some r) ∧
  (∀ v d, wire_valid d → json_equiv v (PeerDelivery_serialize d) → PeerDelivery_deserialize v = Some d) ∧
  (∀ v a, wire_valid a → json_equiv v (GatewayAcknowledgement_serialize a) →
    GatewayAcknowledgement_deserialize v = Some a) ∧
  (∀ v r, wf_value v → GatewayStateReport_deserialize v = Some r →
    wire_valid r ∧ spells v (GatewayStateReport_serialize r) ∧
    ∀ es, v = Object es → es.*1 ≡ₚ ["schema_version"; "gateway_id"; "applied"]) ∧
  (∀ v d, wf_value v → PeerDelivery_deserialize v = Some d →
    wire_valid d ∧ spells v (PeerDelivery_serialize d) ∧
    ∀ es, v = Object es →
      es.*1 ≡ₚ ["schema_version"; "gateway_id"; "delivery_id"; "manifest_digest"; "manifest"]) ∧
  (∀ v a, wf_value v → GatewayAcknowledgement_deserialize v = Some a →
    wire_valid a ∧ spells v (GatewayAcknowledgement_serialize a) ∧
    ∀ es, v = Object es →
      es.*1 ≡ₚ ["schema_version"; "gateway_id"; "delivery_id"; "interface"; "generation"; "manifest_digest";
                "outcome"]).
Proof.
  split_and!; intros v x.
  1-3: intros Hok Hv; exact (wire_complete v x Hok Hv).
  all: intros Hwf Hx; pose proof (wire_sound v x Hwf) as Hsound; destruct (Hsound Hx) as [Hok Hsp];
    split_and!; [exact Hok|exact Hsp|];
    intros es ->; exact (spells_names _ _ Hsp).
Qed.

(** C26: a reconciliation round converges over the wire: when the console desires a manifest of the
    policy and a gateway's report, read from its JSON, says nothing of it or an older generation, the
    poll delivers the manifest; the gateway reads exactly that delivery from any reordering of its JSON,
    and the console the acknowledgement; of all JSON that reads as an acknowledgement of this
    gateway only the spellings of this one are recorded; and once it is, the manifest and its
    digest are that gateway's applied state and any JSON of the report that says so is answered
    with nothing more to do. *)
Theorem reconciliation_over_wire (s : St) cs ts m v r :
  let g := GatewayStateReport.gateway_id r in
  let d := delivery_of g m in
  let ack := GatewayAcknowledgement.applied d in
  let done := GatewayStateReport.new g
    [AppliedInterface.wg_users (PeerManifest.generation m) (PeerDelivery.manifest_digest d)] in
  Forall call_wire cs → manifest (run_calls default_policy cs) ts = Ok m →
  desired_manifest s g = Ok (Some m) →
  wf_value v → GatewayStateReport_deserialize v = Some r → GatewayStateReport.is_supported r = true →
  (∀ a, reported r a → reported_generation a < manifest_generation m) →
  poll s r = Returned (Ok (Some d)) ∧
  (∀ w, json_equiv w (PeerDelivery_serialize d) → PeerDelivery_deserialize w = Some d) ∧
  (∀ w, json_equiv w (GatewayAcknowledgement_serialize ack) → GatewayAcknowledgement_deserialize w = Some ack) ∧
  (acknowledge s ack).1 ≠ Returned (Err AcknowledgementMismatch) ∧
  (∀ w a s', wf_value w → GatewayAcknowledgement_deserialize w = Some a →
    GatewayAcknowledgement.gateway_id a = g → acknowledge s a = (Returned (Ok tt), s') →
    spells w (GatewayAcknowledgement_serialize ack) ∧ applied_state s' g = Some (m, PeerDelivery.manifest_digest d) ∧
    ∀ w', json_equiv w' (GatewayStateReport_serialize done) →
      ∃ r', GatewayStateReport_deserialize w' = Some r' ∧ poll s' r' = Returned (Ok None)).
Proof.
  intros g d ack done Hcs Hm Hd Hwf Hr Hs Hold.
  pose proof (wire_sound v r Hwf) as Hsound. destruct (Hsound Hr) as [Hrw _]. clear Hsound Hr.
  assert (wire_valid g) as Hg by apply Hrw.
  pose proof (policy_manifest_wire _ _ _ Hcs Hm) as Hmw.
  destruct (sync_round_converges s r m Hs Hd Hold) as (Hp & Hne & Hack). fold g d ack in Hp, Hne, Hack.
  split_and!; [exact Hp| | |exact Hne|].
  - intros w Hw. exact (wire_complete w d (delivery_wire g m Hg Hmw) Hw).
  - intros w Hw. exact (wire_complete w ack (acknowledgement_wire g m Hg Hmw) Hw).
  - intros w a s' Hw Ha Hga Hok. pose proof (wire_sound w a Hw) as Hsound. destruct (Hsound Ha) as [_ Hsp].
    assert (a = ack) as ->.
    { rewrite acknowledge_cases, Hga, Hd in Hok. case_decide as He; [exact He|discriminate]. }
    destruct (Hack s' Hok) as [Happ Hconv]. split_and!; [exact Hsp|exact Happ|].
    intros w' Hw'. exists done. split; [exact (wire_complete w' done (applied_report_wire g m Hg Hmw) Hw')|].
    apply Hconv; [by vm_compute|reflexivity|]. split; [apply list_elem_of_here|reflexivity].
Qed.

End properties.

(** ** Witnesses: the deserializer of [serde_json::Value] *)
From S2P Require Import Instances.

#[export] Instance value_de : SerdeDe := {
  de_string v := match v with Str s => Some s | _ => None end;
  de_u8 v := match v with
    | Num (PosInt n) => if bool_decide (0 ≤ n < 2 ^ 8) then Some n else None
    | _ => None
    end;
  de_u64 v := match v with
    | Num (PosInt n) => if bool_decide (0 ≤ n < 2 ^ 64) then Some n else None
    | _ => None
    end;
  de_vec v := match v with Array vs => Some vs | _ => None end;
  de_struct names v := match v with
    | Array vs => if bool_decide (length vs = length names) then Some vs else None
    | Object es =>
        if bool_decide (length es = length names)
        then mapM (λ name, snd <$> find (λ e, String.eqb e.1 name) es) names else None
    | _ => None
    end;
  de_enum names v := match v with
    | Str s | Object [(s, Null)] => if bool_decide (s ∈ names) then Some s else None
    | _ => None
    end;
}.

Lemma mapM_lookup (es : list (string * Value)) names vs :
  mapM (λ name, snd <$> find (λ e, String.eqb e.1 name) es) names = Some vs →
  length vs = length names ∧ ∀ e, e ∈ zip names vs → e ∈ es.
Proof.
  rewrite mapM_Some. induction 1 as [|n v names vs Hf _ [Hl IH]]; csimpl; [set_solver|]. split; [by rewrite Hl|].
  intros e. rewrite elem_of_cons. intros [->|He]; [|by apply IH].
  destruct (find _ es) as [[k w]|] eqn:E; simplify_eq/=.
  apply find_elem in E as [Hin Hk]. simpl in Hk. by apply String.eqb_eq in Hk as <-.
Qed.

Lemma find_name (es : list (string * Value)) n v :
  NoDup es.*1 → (n, v) ∈ es → find (λ e, String.eqb e.1 n) es = Some (n, v).
Proof.
  induction es as [|[k w] es IH]; csimpl; [set_solver|]. rewrite NoDup_cons, elem_of_cons.
  intros [Hk Hnd] [[= -> ->]|Hin]; [by rewrite String.eqb_refl|].
  destruct (String.eqb_spec k n) as [->|]; [|by apply IH].
  destruct Hk. apply list_elem_of_fmap. by exists (n, v).
Qed.

#[export] Instance value_de_laws : SerdeDeLaws.
Proof.
  split; simpl.
  - intros [| | |t| |] s; naive_solver.
  - intros [| |[k|k|k]| | |] n; try naive_solver. case_bool_decide; naive_solver.
  - intros [| |[k|k|k]| | |] n; try naive_solver. case_bool_decide; naive_solver.
  - intros [| | | |ws|] vs; naive_solver.
  - intros names es vs Hn He. split.
    + case_bool_decide as Hl; [|done]. intros [Hlv Hin]%mapM_lookup. split; [done|]. symmetry.
      apply submseteq_length_Permutation; [|rewrite length_zip; lia]. apply NoDup_submseteq; [|done].
      apply (NoDup_fmap_1 fst). by rewrite zip_fst.
    + intros [Hl Hp]. rewrite bool_decide_true by (rewrite Hp, length_zip; lia). apply mapM_Some.
      assert (∀ e, e ∈ zip names vs → e ∈ es) as Hin by (intros e; by rewrite Hp). clear Hp Hn.
      revert vs Hl Hin. induction names as [|n names IH]; intros [|v vs] Hl Hin; simplify_eq/=; constructor.
      * rewrite (find_name es n v) by set_solver. done.
      * apply IH; [done|]. set_solver.
  - intros names [| | | |ws|es] vs; try done.
    + case_bool_decide; naive_solver.
    + intros ?. eauto.
  - intros names s Hs. by rewrite bool_decide_true.
  - intros names v s. destruct v as [| | |t| |[|[k []] []]]; try done; case_bool_decide; naive_solver.
Qed.

(** The first report of the gateway, its entries in another order. *)
Definition first_report_text : Value :=
  Object [("applied", Array []); ("gateway_id", Str "gateway-1"); ("schema_version", Num (PosInt 1))].

Lemma first_report_text_equiv : json_equiv first_report_text (GatewayStateReport_serialize first_report).
Proof.
  apply (equiv_object _ [("schema_version", Num (PosInt 1)); ("gateway_id", Str "gateway-1"); ("applied", Array [])]).
  - exact (Permutation_rev _).
  - repeat constructor.
Qed.

Lemma wire_faithful_witness :
  GatewayStateReport_deserialize first_report_text = Some first_report ∧
  (∀ r, GatewayStateReport_deserialize (Object [("schema_version", Num (PosInt 1))]) ≠ Some r).
Proof.
  destruct wire_faithful as (Hr & _ & _ & Hi & _). split.
  - apply Hr; [|exact first_report_text_equiv]. split_and!; [by vm_compute..|]. constructor.
  - intros r H. apply Hi in H as (_ & _ & Hn); [|by vm_compute; split; [constructor; [set_solver|constructor]|]].
    specialize (Hn _ eq_refl). apply Permutation_length in Hn. discriminate.
Defined.

Definition sample_calls : list policy_call :=
  [Enroll (UserId.mk "user-1") (PeerId.mk "peer-1")
     (WireGuardPublicKey.mk "AQEBAQEBAQEBAQEBAQEBAQEBAQEBAQEBAQEBAQEBAQE=") false].

Lemma reconciliation_over_wire_witness :
  ∃ m s', manifest (run_calls default_policy sample_calls) "2026-08-01T20:00:00Z" = Ok m ∧
    let d := delivery_of sample_gateway m in
    poll (sample_store m) first_report = Returned (Ok (Some d)) ∧
    PeerDelivery_deserialize (PeerDelivery_serialize d) = Some d ∧
    acknowledge (sample_store m) (GatewayAcknowledgement.applied d) = (Returned (Ok tt), s') ∧
    applied_state s' sample_gateway = Some (m, PeerDelivery.manifest_digest d).
Proof.
  destruct (manifest (run_calls default_policy sample_calls) "2026-08-01T20:00:00Z") as [m|] eqn:Hm;
    [|by vm_compute in Hm].
  set (d := delivery_of sample_gateway m).
  assert (Forall call_wire sample_calls) as Hcs by (apply Forall_singleton; split; vm_compute; reflexivity).
  assert (desired_manifest (sample_store m) sample_gateway = Ok (Some m)) as Hd by by vm_compute.
  assert (wf_value first_report_text) as Hwf.
  { cbn [wf_value foldr first_report_text]. repeat (apply conj || exact I). distinct_names. }
  assert (GatewayStateReport_deserialize first_report_text = Some first_report) as Hr by by vm_compute.
  assert (GatewayStateReport.is_supported first_report = true) as Hs by by vm_compute.
  assert (∀ a, reported first_report a → reported_generation a < manifest_generation m) as Hold
    by (intros a [Ha _]; destruct (not_elem_of_nil a Ha)).
  destruct (reconciliation_over_wire (sample_store m) sample_calls "2026-08-01T20:00:00Z" m first_report_text
    first_report Hcs Hm Hd Hwf Hr Hs Hold) as (Hp & Hread & Hack & _ & Hrec).
  assert (acknowledge (sample_store m) (GatewayAcknowledgement.applied d)
    = (Returned (Ok tt), (acknowledge (sample_store m) (GatewayAcknowledgement.applied d)).2)) as Ha.
  { rewrite acknowledge_cases. simpl. rewrite lookup_insert_eq. simpl. by rewrite decide_True. }
  eexists m, _. split; [reflexivity|]. split; [exact Hp|]. split; [apply Hread, json_equiv_refl|].
  split; [exact Ha|].
  assert (wf_value (GatewayAcknowledgement_serialize (GatewayAcknowledgement.applied d))) as Hw.
  { cbn [wf_value foldr GatewayAcknowledgement_serialize]. repeat (apply conj || exact I). distinct_names. }
  pose proof (Hack _ (json_equiv_refl _)) as Hra.
  destruct (Hrec _ _ _ Hw Hra eq_refl Ha) as (_ & Happ & _). exact Happ.
Defined.
