(* ===== verification/GatewayRuns.v ===== *)
(** * GatewayRuns: gateways acknowledging at once ([api/src/lib.rs])

    The service and its in-memory store are shared between threads ([Send + Sync], [&self]).  An
    [acknowledge] reads the desired manifest under one lock, compares, and records under another: between the
    two, other threads run.  A [poll] reads once and writes nothing, and so does not occur here. *)
From S2P Require Export GatewaySync.
Import InMemoryGatewayStateStore.

(** ** An acknowledgement, lock by lock *)

Section scripts.
Context `{SerdeJson, Sha256}.

(** What [acknowledge] does with the desired manifest it was given, up to [record_applied]. *)
Definition check_acknowledgement (found : result (option PeerManifest) StoreError) (ack : GatewayAcknowledgement)
    : outcome (PeerManifest * ManifestDigest) SyncError :=
  obind (Returned (map_err Store found)) (λ found,
  obind (Returned (ok_or found UnconfiguredGateway)) (λ desired,
  obind (omap_err Policy (PeerDelivery.new (GatewayAcknowledgement.gateway_id ack) desired)) (λ delivery,
  if negb (GatewayAcknowledgement.matches ack delivery) then Returned (Err AcknowledgementMismatch)
  else Returned (Ok (desired, PeerDelivery.manifest_digest delivery))))).

(** [Checked]: it matched, and [record_applied] is next. *)
Inductive Thread :=
| Received (ack : GatewayAcknowledgement)
| Checked (ack : GatewayAcknowledgement) (desired : PeerManifest) (digest : ManifestDigest)
| Answered (answer : outcome unit SyncError).

(** The store, the threads, every manifest that was set for a gateway and every acknowledgement that
    arrived. *)
Record Console := mkConsole {
  store : InMemoryGatewayStateStore.t;
  threads : gmap nat Thread;
  wanted : list (GatewayId * PeerManifest);
  arrived : list GatewayAcknowledgement;
}.

Definition started : Console := mkConsole InMemoryGatewayStateStore.default ∅ [] [].

Inductive move :=
| Desire (g : GatewayId) (m : PeerManifest)
| Arrive (i : nat) (ack : GatewayAcknowledgement)
| Compare (i : nat)
| Write (i : nat).

Definition compared (ack : GatewayAcknowledgement) (r : outcome (PeerManifest * ManifestDigest) SyncError) : Thread :=
  match r with
  | Returned (Ok (m, d)) => Checked ack m d
  | Returned (Err e) => Answered (Returned (Err e))
  | Panicked => Answered Panicked
  end.

Definition set_thread (σ : Console) (s : InMemoryGatewayStateStore.t) (i : nat) (t : Thread) : Console :=
  mkConsole s (<[i := t]> (threads σ)) (wanted σ) (arrived σ).

Definition moves (σ : Console) (m : move) : option Console :=
  match m with
  | Desire g m =>
      let (r, s) := set_desired (store σ) g m in
      match r with
      | Ok _ => Some (mkConsole s (threads σ) ((g, m) :: wanted σ) (arrived σ))
      | Err _ => Some σ
      end
  | Arrive i ack =>
      match threads σ !! i with
      | None => Some (mkConsole (store σ) (<[i := Received ack]> (threads σ)) (wanted σ) (ack :: arrived σ))
      | Some _ => None
      end
  | Compare i =>
      match threads σ !! i with
      | Some (Received ack) =>
          Some (set_thread σ (store σ) i (compared ack
            (check_acknowledgement (desired_manifest (store σ) (GatewayAcknowledgement.gateway_id ack)) ack)))
      | _ => None
      end
  | Write i =>
      match threads σ !! i with
      | Some (Checked ack m d) =>
          let (r, s) := record_applied (store σ) (GatewayAcknowledgement.gateway_id ack) m d in
          Some (set_thread σ s i (Answered (Returned (map_err Store r))))
      | _ => None
      end
  end.

Fixpoint run (σ : Console) (ms : list move) : option Console :=
  match ms with
  | [] => Some σ
  | m :: ms => σ ← moves σ m; run σ ms
  end.

(** What the console desires, and has recorded, for a gateway. *)
Definition desires (σ : Console) (g : GatewayId) : option PeerManifest := content (desired (store σ)) !! g.
Definition recorded (σ : Console) (g : GatewayId) : option (PeerManifest * ManifestDigest) :=
  content (applied_map (store σ)) !! g.

(** The generation desired for a gateway never falls, as for the manifests of one policy. *)
Definition rises (σ : Console) (m : move) : Prop :=
  match m with
  | Desire g m => ∀ m', desires σ g = Some m' → manifest_generation m' ≤ manifest_generation m
  | _ => True
  end.

Fixpoint rising (σ : Console) (ms : list move) : Prop :=
  match ms with
  | [] => True
  | m :: ms => rises σ m ∧ ∀ σ', moves σ m = Some σ' → rising σ' ms
  end.

End scripts.

(** ** Invariants *)

Section invariants.
Context `{SerdeJsonLaws} `{Sha256Laws}.

(** What a thread has checked, or the store holds, for a gateway: it was desired, and its exact
    acknowledgement arrived. *)
Definition genuine (σ : Console) (g : GatewayId) (m : PeerManifest) (d : ManifestDigest) : Prop :=
  (g, m) ∈ wanted σ ∧ GatewayAcknowledgement.applied (delivery_of g m) ∈ arrived σ ∧
  d = PeerDelivery.manifest_digest (delivery_of g m).

Record console_wf (σ : Console) : Prop := {
  wf_locks : poisoned (desired (store σ)) = false ∧ poisoned (applied_map (store σ)) = false;
  wf_desired g m : desires σ g = Some m → (g, m) ∈ wanted σ;
  wf_recorded g m d : recorded σ g = Some (m, d) → genuine σ g m d;
  wf_received i ack : threads σ !! i = Some (Received ack) → ack ∈ arrived σ;
  wf_checked i ack m d : threads σ !! i = Some (Checked ack m d) →
    genuine σ (GatewayAcknowledgement.gateway_id ack) m d;
  wf_answered i r : threads σ !! i = Some (Answered r) →
    r = Returned (Ok tt) ∨ r = Returned (Err UnconfiguredGateway) ∨ r = Returned (Err AcknowledgementMismatch);
}.

(** Nothing recorded, or about to be, is newer than what is desired. *)
Record ordered (σ : Console) : Prop := {
  ordered_recorded g m d : recorded σ g = Some (m, d) →
    ∃ m', desires σ g = Some m' ∧ manifest_generation m ≤ manifest_generation m';
  ordered_checked i ack m d : threads σ !! i = Some (Checked ack m d) →
    ∃ m', desires σ (GatewayAcknowledgement.gateway_id ack) = Some m' ∧
          manifest_generation m ≤ manifest_generation m';
}.

Lemma check_cases found ack :
  check_acknowledgement found ack =
  match found with
  | Err e => Returned (Err (Store e))
  | Ok None => Returned (Err UnconfiguredGateway)
  | Ok (Some m) =>
      let d := delivery_of (GatewayAcknowledgement.gateway_id ack) m in
      if decide (ack = GatewayAcknowledgement.applied d) then Returned (Ok (m, PeerDelivery.manifest_digest d))
      else Returned (Err AcknowledgementMismatch)
  end.
Proof.
  unfold check_acknowledgement. destruct found as [[m|]|e]; try done. cbn [map_err obind ok_or].
  rewrite delivery_new. cbn [omap_err obind map_err].
  case_decide as Ha.
  - by rewrite (proj2 (matches_iff _ _) Ha).
  - destruct (GatewayAcknowledgement.matches _ _) eqn:E; [|done]. by apply matches_iff in E.
Qed.

(** [acknowledge] is the check and the record with nothing in between. *)
Lemma acknowledge_split `{GatewayStateStore St} (s : St) ack :
  let g := GatewayAcknowledgement.gateway_id ack in
  acknowledge s ack =
  match check_acknowledgement (GatewaySync.desired_manifest s g) ack with
  | Returned (Ok (m, d)) =>
      let (r, s) := GatewaySync.record_applied s g m d in (Returned (map_err Store r), s)
  | Returned (Err e) => (Returned (Err e), s)
  | Panicked => (Panicked, s)
  end.
Proof.
  intros g. rewrite acknowledge_cases, check_cases. fold g.
  destruct (GatewaySync.desired_manifest s g) as [[m|]|e]; try done. cbn. by case_decide.
Qed.

Lemma started_wf : console_wf started.
Proof. constructor; unfold desires, recorded; simpl; intros; simplify_map_eq; done. Qed.

Lemma started_ordered : ordered started.
Proof. constructor; unfold desires, recorded; simpl; intros; simplify_map_eq. Qed.

(** The moves, on a console whose locks were never poisoned. *)
Variant step_to (σ : Console) : move → Console → Prop :=
| step_desire g m :
    step_to σ (Desire g m) (mkConsole (mk (mkLock (<[g := m]> (content (desired (store σ)))) false)
      (applied_map (store σ))) (threads σ) ((g, m) :: wanted σ) (arrived σ))
| step_arrive i ack : threads σ !! i = None →
    step_to σ (Arrive i ack) (mkConsole (store σ) (<[i := Received ack]> (threads σ)) (wanted σ) (ack :: arrived σ))
| step_compared i ack m : threads σ !! i = Some (Received ack) →
    desires σ (GatewayAcknowledgement.gateway_id ack) = Some m →
    ack = GatewayAcknowledgement.applied (delivery_of (GatewayAcknowledgement.gateway_id ack) m) →
    step_to σ (Compare i) (set_thread σ (store σ) i
      (Checked ack m (PeerDelivery.manifest_digest (delivery_of (GatewayAcknowledgement.gateway_id ack) m))))
| step_refused i ack e : threads σ !! i = Some (Received ack) →
    e = UnconfiguredGateway ∧ desires σ (GatewayAcknowledgement.gateway_id ack) = None ∨
    e = AcknowledgementMismatch ∧ (∃ m, desires σ (GatewayAcknowledgement.gateway_id ack) = Some m ∧
      ack ≠ GatewayAcknowledgement.applied (delivery_of (GatewayAcknowledgement.gateway_id ack) m)) →
    step_to σ (Compare i) (set_thread σ (store σ) i (Answered (Returned (Err e))))
| step_write i ack m d : threads σ !! i = Some (Checked ack m d) →
    step_to σ (Write i) (set_thread σ (mk (desired (store σ))
      (mkLock (<[GatewayAcknowledgement.gateway_id ack := (m, d)]> (content (applied_map (store σ)))) false)) i
      (Answered (Returned (Ok tt)))).

Lemma moves_step σ m σ' : console_wf σ → moves σ m = Some σ' → step_to σ m σ'.
Proof.
  intros Hwf. destruct (wf_locks _ Hwf) as [Hd Ha]. destruct m as [g m|i ack|i|i]; simpl.
  - unfold set_desired, read. rewrite Hd. intros [= <-]. constructor.
  - destruct (threads σ !! i) eqn:E; [done|]. intros [= <-]. by constructor.
  - destruct (threads σ !! i) as [[ack|ack m d|r]|] eqn:E; try done. intros [= <-].
    unfold desired_manifest, read. rewrite Hd, check_cases. cbn [rmap].
    destruct (content (desired (store σ)) !! _) as [m|] eqn:Em; [case_decide as He|]; simpl.
    + by constructor.
    + eapply step_refused; [done|]. right. eauto.
    + eapply step_refused; [done|]. by left.
  - destruct (threads σ !! i) as [[ack|ack m d|r]|] eqn:E; try done.
    unfold record_applied, read. rewrite Ha. intros [= <-]. by constructor.
Qed.

Lemma genuine_mono σ σ' g m d :
  wanted σ ⊆ wanted σ' → arrived σ ⊆ arrived σ' → genuine σ g m d → genuine σ' g m d.
Proof. unfold genuine. naive_solver. Qed.

Lemma step_wf σ m σ' : console_wf σ → step_to σ m σ' → console_wf σ'.
Proof.
  intros Hwf Hs. pose proof Hwf as [Hl Hd Hr Hrec Hch Han].
  assert (wanted σ ⊆ wanted σ' ∧ arrived σ ⊆ arrived σ') as [Hw Har].
  { destruct Hs; simpl; split; set_solver. }
  assert (∀ g m d, genuine σ g m d → genuine σ' g m d) as Hgen by eauto using genuine_mono.
  destruct Hs; constructor; simpl in *; unfold desires, recorded in *; simpl in *; try done;
    eauto 3; intros *; rewrite ?lookup_insert_Some; intros; destruct_or?; destruct_and?; simplify_eq; eauto 4.
  - apply list_elem_of_here.
  - apply list_elem_of_here.
  - split_and!; simpl; [by apply Hd| |done].
    match goal with He : ?a = GatewayAcknowledgement.applied _ |- _ => rewrite <- He end. eauto.
Qed.

Lemma desire_above (M : gmap GatewayId PeerManifest) g m g' (n : Z) :
  (∀ m', M !! g = Some m' → manifest_generation m' ≤ manifest_generation m) →
  (∃ m', M !! g' = Some m' ∧ n ≤ manifest_generation m') →
  ∃ m', <[g := m]> M !! g' = Some m' ∧ n ≤ manifest_generation m'.
Proof.
  intros Hri (m' & Hm & Hn). destruct (decide (g' = g)) as [->|Hne].
  - exists m. rewrite lookup_insert_eq. specialize (Hri m' Hm). split; [done|lia].
  - exists m'. by rewrite lookup_insert_ne by congruence.
Qed.

Lemma step_ordered σ m σ' : rises σ m → ordered σ → step_to σ m σ' → ordered σ'.
Proof.
  intros Hri [Hr Hc] Hs.
  destruct Hs; constructor; simpl in *; unfold desires, recorded in *; simpl in *;
    eauto 3; intros *; rewrite ?lookup_insert_Some; intros; destruct_or?; destruct_and?; simplify_eq; eauto 4.
  - eapply desire_above; eauto.
  - eapply desire_above; eauto.
  - eexists. split; [eassumption|lia].
Qed.

Lemma run_wf σ ms σ' : console_wf σ → run σ ms = Some σ' → console_wf σ'.
Proof.
  revert σ. induction ms as [|m ms IH]; simpl; intros σ Hwf; [by intros [= <-]|].
  intros (σ1 & Hm & Hrun)%bind_Some. eauto using step_wf, moves_step.
Qed.

Lemma run_ordered σ ms σ' :
  console_wf σ → ordered σ → rising σ ms → run σ ms = Some σ' → ordered σ'.
Proof.
  revert σ. induction ms as [|m ms IH]; simpl; intros σ Hwf Ho; [by intros _ [= <-]|].
  intros [Hri Hrest] (σ1 & Hm & Hrun)%bind_Some. pose proof (moves_step _ _ _ Hwf Hm).
  apply (IH σ1); eauto using step_wf, step_ordered.
Qed.

(** What was set, and what arrived, was by a move. *)
Lemma run_history σ ms σ' : console_wf σ → run σ ms = Some σ' →
  (∀ g m, (g, m) ∈ wanted σ' → (g, m) ∈ wanted σ ∨ Desire g m ∈ ms) ∧
  (∀ ack, ack ∈ arrived σ' → ack ∈ arrived σ ∨ ∃ i, Arrive i ack ∈ ms).
Proof.
  revert σ. induction ms as [|m ms IH]; simpl; intros σ Hwf; [intros [= <-]; auto|].
  intros (σ1 & Hm & Hrun)%bind_Some. pose proof (moves_step _ _ _ Hwf Hm) as Hs.
  destruct (IH σ1 (step_wf _ _ _ Hwf Hs) Hrun) as [Hw Ha]. setoid_rewrite elem_of_cons. split.
  - intros g m' Hin. destruct (Hw g m' Hin) as [Hin'|]; [|auto].
    destruct Hs; simpl in Hin'; auto. apply elem_of_cons in Hin' as [[= -> ->]|]; auto.
  - intros ack Hin. destruct (Ha ack Hin) as [Hin'|[i ?]]; [|eauto].
    destruct Hs; simpl in Hin'; auto. apply elem_of_cons in Hin' as [->|]; eauto.
Qed.

End invariants.

(** ** Runs move by move *)

Section walks.
Context `{SerdeJsonLaws} `{Sha256Laws}.

Definition walk (σ : Console) (ms : list move) (σ' : Console) : Prop := rising σ ms ∧ run σ ms = Some σ'.

Lemma walk_nil σ : walk σ [] σ.
Proof. done. Qed.

Lemma walk_cons σ m σ1 ms σ' : moves σ m = Some σ1 → rises σ m → walk σ1 ms σ' → walk σ (m :: ms) σ'.
Proof. intros Hm Hr [Hri Hrun]. split; simpl; rewrite Hm; [|done]. split; [done|]. by intros ? [= <-]. Qed.

Lemma walk_app σ ms σ1 ns σ2 : walk σ ms σ1 → walk σ1 ns σ2 → walk σ (ms ++ ns) σ2.
Proof.
  intros [Hri Hrun] Hn. revert σ Hri Hrun. induction ms as [|m ms IH]; simpl; intros σ.
  - by intros _ [= ->].
  - intros [Hr Hrest] (σ' & Hm & Hrun)%bind_Some. apply (walk_cons _ _ σ'); eauto.
Qed.

Lemma moves_compare σ i g m :
  poisoned (desired (store σ)) = false → desires σ g = Some m →
  threads σ !! i = Some (Received (GatewayAcknowledgement.applied (delivery_of g m))) →
  moves σ (Compare i) = Some (set_thread σ (store σ) i
    (Checked (GatewayAcknowledgement.applied (delivery_of g m)) m (PeerDelivery.manifest_digest (delivery_of g m)))).
Proof.
  unfold desires. intros Hp Hd Hi. cbn [moves]. rewrite Hi, check_cases.
  cbn [GatewayAcknowledgement.gateway_id GatewayAcknowledgement.applied PeerDelivery.gateway_id delivery_of].
  unfold desired_manifest, read. rewrite Hp. cbn [rmap]. rewrite Hd. by rewrite decide_True.
Qed.

End walks.

(** ** Properties *)

Section properties.
Context `{SerdeJsonLaws} `{Sha256Laws}.

(** An [acknowledge] that no other call disturbs is the [acknowledge] of the service: its steps, one
    after the other, leave the store that it leaves and answer what it answers, in every console
    that a run reaches. *)
Lemma undisturbed_acknowledge ms σ i ack :
  run started ms = Some σ → threads σ !! i = None →
  ∃ steps σ', run σ (Arrive i ack :: Compare i :: steps) = Some σ' ∧ (steps = [] ∨ steps = [Write i]) ∧
    threads σ' !! i = Some (Answered (acknowledge (store σ) ack).1) ∧ store σ' = (acknowledge (store σ) ack).2.
Proof.
  intros Hrun Hi. pose proof (run_wf _ _ _ started_wf Hrun) as Hwf. destruct (wf_locks _ Hwf) as [Hd Ha].
  set (σ1 := mkConsole (store σ) (<[i := Received ack]> (threads σ)) (wanted σ) (ack :: arrived σ)).
  set (g := GatewayAcknowledgement.gateway_id ack).
  set (σ2 := set_thread σ1 (store σ) i (compared ack (check_acknowledgement (desired_manifest (store σ) g) ack))).
  assert (moves σ (Arrive i ack) = Some σ1) as Hs1 by (simpl; by rewrite Hi).
  assert (moves σ1 (Compare i) = Some σ2) as Hs2 by (simpl; by rewrite lookup_insert_eq).
  cbn [run]. rewrite Hs1. cbn [mbind option_bind]. rewrite Hs2. cbn [mbind option_bind]. rewrite acknowledge_split.
  assert (threads σ2 !! i = Some (compared ack (check_acknowledgement (desired_manifest (store σ) g) ack))) as Hs3
    by apply lookup_insert_eq.
  cbn [GatewaySync.desired_manifest in_memory_store] in *. fold g.
  destruct (check_acknowledgement _ ack) as [[[m d]|e]|] eqn:E; cbn [compared] in *.
  - exists [Write i]. cbn [run moves]. rewrite Hs3.
    cbn [GatewaySync.record_applied in_memory_store]. fold g. destruct (record_applied (store σ) g m d) as [r s] eqn:Er.
    change (store σ2) with (store σ). rewrite Er. eexists. split_and!; [reflexivity|by right|apply lookup_insert_eq|done].
  - exists [], σ2. split_and!; auto.
  - exists [], σ2. split_and!; auto.
Qed.

(** C27: acknowledgements that run at once record only what was desired: after any interleaving of
    their steps with changes of the desired manifests, whatever is recorded for a gateway was set as its
    desired manifest before, its acknowledgement, field by field, arrived, and the digest recorded is
    the manifest's; every call that ended was recorded, refused as a mismatch, or its gateway unknown, and none
    panicked or found a lock poisoned; and while desired generations only rise, nothing newer than
    what is desired is recorded.  A call that nothing disturbs is the [acknowledge] of the service: its
    steps, one after the other, leave the store that it leaves and answer what it answers. *)
Theorem recorded_was_desired ms σ :
  run started ms = Some σ →
  (∀ g m d, recorded σ g = Some (m, d) →
    Desire g m ∈ ms ∧ (∃ i, Arrive i (GatewayAcknowledgement.applied (delivery_of g m)) ∈ ms) ∧
    PeerManifest.digest m = Ok d) ∧
  (∀ i r, threads σ !! i = Some (Answered r) →
    r = Returned (Ok tt) ∨ r = Returned (Err UnconfiguredGateway) ∨ r = Returned (Err AcknowledgementMismatch)) ∧
  (rising started ms → ∀ g m d, recorded σ g = Some (m, d) →
    ∃ m', desires σ g = Some m' ∧ manifest_generation m ≤ manifest_generation m') ∧
  (∀ i ack, threads σ !! i = None →
    ∃ steps σ', run σ (Arrive i ack :: Compare i :: steps) = Some σ' ∧ (steps = [] ∨ steps = [Write i]) ∧
      threads σ' !! i = Some (Answered (acknowledge (store σ) ack).1) ∧ store σ' = (acknowledge (store σ) ack).2).
Proof.
  intros Hrun. pose proof (run_wf _ _ _ started_wf Hrun) as Hwf.
  destruct (run_history _ _ _ started_wf Hrun) as [Hw Ha]. split_and!.
  - intros g m d Hr. destruct (wf_recorded _ Hwf g m d Hr) as (Hin & Hack & ->). split_and!.
    + destruct (Hw _ _ Hin) as [[]%not_elem_of_nil|]; done.
    + destruct (Ha _ Hack) as [[]%not_elem_of_nil|]; done.
    + apply digest_Ok.
  - apply (wf_answered _ Hwf).
  - intros Hri. pose proof (run_ordered _ _ _ started_wf started_ordered Hri Hrun) as [Ho _]. exact Ho.
  - intros i ack. exact (undisturbed_acknowledge ms σ i ack Hrun).
Qed.

(** C39: the console can record an older state over a newer one: when a gateway's acknowledgement of one
    manifest has been compared, and before it is recorded a newer manifest is desired,
    acknowledged and recorded, then both calls succeed and what is left recorded is the older
    manifest, although the desired generation only rose and a late acknowledgement that is read after the
    change is a mismatch. *)
Theorem late_acknowledgement_overwrites g m n :
  manifest_generation m < manifest_generation n →
  let ack p := GatewayAcknowledgement.applied (delivery_of g p) in
  let d p := PeerDelivery.manifest_digest (delivery_of g p) in
  let before := [Desire g m; Arrive 0 (ack m); Compare 0; Desire g n; Arrive 1 (ack n); Compare 1; Write 1] in
  rising started (before ++ [Write 0%nat]) ∧
  ∃ σ σ', run started before = Some σ ∧ run started (before ++ [Write 0%nat]) = Some σ' ∧
    recorded σ g = Some (n, d n) ∧ recorded σ' g = Some (m, d m) ∧ desires σ' g = Some n ∧
    threads σ' !! 0%nat = Some (Answered (Returned (Ok tt))) ∧
    threads σ' !! 1%nat = Some (Answered (Returned (Ok tt))) ∧
    (acknowledge (store σ) (ack m)).1 = Returned (Err AcknowledgementMismatch).
Proof.
  intros Hlt ack d before.
  assert (∃ σ, walk started before σ ∧ moves σ (Write 0%nat) = Some (set_thread σ (mk (desired (store σ))
      (mkLock (<[g := (m, d m)]> (content (applied_map (store σ)))) false)) 0 (Answered (Returned (Ok tt)))) ∧
    recorded σ g = Some (n, d n) ∧ desires σ g = Some n ∧ threads σ !! 1%nat = Some (Answered (Returned (Ok tt))))
    as (σ & [Hri Hrun] & Hw & Hr & Hd & Ht).
  { eexists. split.
    - unfold before.
      eapply walk_cons; [reflexivity|by intros m'; unfold desires; simpl; rewrite lookup_empty|].
      eapply walk_cons; [reflexivity|done|].
      eapply walk_cons; [by apply (moves_compare _ _ g m); [|apply lookup_insert_eq..]|done|].
      eapply walk_cons; [reflexivity| |].
      { intros m'. unfold desires. simpl. rewrite lookup_insert_eq. intros [= <-]. lia. }
      eapply walk_cons; [reflexivity|done|].
      eapply walk_cons; [by apply (moves_compare _ _ g n); [|apply lookup_insert_eq..]|done|].
      eapply walk_cons; [reflexivity|done|]. apply walk_nil.
    - split_and!; try reflexivity; apply lookup_insert_eq. }
  set (σ' := set_thread _ _ _ _) in Hw.
  assert (walk started (before ++ [Write 0%nat]) σ') as [Hri' Hrun'].
  { apply (walk_app _ _ σ); [done|]. by eapply walk_cons; [exact Hw| |apply walk_nil]. }
  split; [exact Hri'|]. exists σ, σ'. split_and!; try done.
  - apply lookup_insert_eq.
  - apply lookup_insert_eq.
  - unfold σ'. simpl. by rewrite lookup_insert_ne.
  - pose proof (run_wf _ _ _ started_wf Hrun) as Hwf. destruct (wf_locks _ Hwf) as [Hp _].
    rewrite acknowledge_cases. cbn [GatewaySync.desired_manifest in_memory_store].
    unfold desired_manifest, read. rewrite Hp. cbn [rmap]. unfold desires in Hd.
    cbn [ack GatewayAcknowledgement.gateway_id GatewayAcknowledgement.applied PeerDelivery.gateway_id delivery_of].
    rewrite Hd. case_decide as He; [|done]. apply (f_equal GatewayAcknowledgement.generation) in He. simpl in He.
    unfold manifest_generation in Hlt. rewrite He in Hlt. lia.
Qed.

End properties.

(** ** Witnesses *)
From S2P Require Import Instances.

Definition sample_generation (n : Z) : PeerManifest :=
  PeerManifest.mk SCHEMA_VERSION WG_USERS (Generation.mk n) "2026-08-01T20:00:00Z" [].

Lemma recorded_was_desired_witness :
  let m := sample_generation 2 in
  let d := delivery_of sample_gateway m in
  let ms := [Desire sample_gateway m; Arrive 0 (GatewayAcknowledgement.applied d); Compare 0; Write 0] in
  ∃ σ, run started ms = Some σ ∧ recorded σ sample_gateway = Some (m, PeerDelivery.manifest_digest d) ∧
    PeerManifest.digest m = Ok (PeerDelivery.manifest_digest d) ∧
    desires σ sample_gateway = Some m.
Proof.
  intros m d ms.
  assert (∃ σ, walk started ms σ ∧ recorded σ sample_gateway = Some (m, PeerDelivery.manifest_digest d) ∧
    desires σ sample_gateway = Some m) as (σ & [Hri Hrun] & Hr & Hd).
  { eexists. split.
    - eapply walk_cons; [reflexivity|by intros m'; unfold desires; simpl; rewrite lookup_empty|].
      eapply walk_cons; [reflexivity|done|].
      eapply walk_cons; [by apply (moves_compare _ _ sample_gateway m); [|apply lookup_insert_eq..]|done|].
      eapply walk_cons; [reflexivity|done|]. apply walk_nil.
    - split; apply lookup_insert_eq. }
  exists σ. destruct (recorded_was_desired ms σ Hrun) as (Hgen & _).
  destruct (Hgen _ _ _ Hr) as (_ & _ & Hdig). split_and!; [exact Hrun|exact Hr|exact Hdig|exact Hd].
Defined.

Lemma late_acknowledgement_overwrites_witness :
  ∃ ms σ, rising started ms ∧ run started ms = Some σ ∧
    desires σ sample_gateway = Some (sample_generation 3) ∧
    fst <$> recorded σ sample_gateway = Some (sample_generation 2).
Proof.
  assert (manifest_generation (sample_generation 2) < manifest_generation (sample_generation 3)) as Hlt
    by reflexivity.
  destruct (late_acknowledgement_overwrites sample_gateway (sample_generation 2) (sample_generation 3) Hlt)
    as (Hri & σ & σ' & _ & Hrun & _ & Hr & Hd & _).
  eexists _, σ'. split_and!; [exact Hri|exact Hrun|exact Hd|]. rewrite Hr. reflexivity.
Defined.
