(* ===== verification/PolicyTests.v ===== *)
(** * PolicyTests: the unit tests of the policy and api crates ([policy/src/vpn.rs],
    [policy/src/contract.rs], [api/src/lib.rs], their [mod tests])

    The tests are programs; they are evaluated with RFC 4648, serde_json's escaping and SHA-256
    themselves, the frozen digest of the contract test included. *)
From S2P Require Export GatewaySync Testing.
From S2P Require Import Instances.

(** [[byte; 32]]. *)
Definition array_32 (b : Z) : string := from_bytes (replicate 32 (char b)).

Module VpnTests.
Section tests.
Context `{Base64}.

(** The test's [let mut policy = VpnPolicy::default()] is the state it starts from. *)
Abbreviation Test := (M VpnPolicy Failure).

Definition key (b : Z) : Test WireGuardPublicKey :=
  expect_ok "test key is valid" (WireGuardPublicKey.new (STANDARD_encode (array_32 b))).

Definition policy : Test VpnPolicy := λ p, (Ok p, p).

Definition allocates_stable_addresses_and_additive_permissions : Test unit :=
  let! first_id := expect_ok "valid ID" (PeerId.new "peer-a") in
  let! second_id := expect_ok "valid ID" (PeerId.new "peer-b") in
  let! user_a := expect_ok "valid ID" (UserId.new "user-a") in
  let! key_1 := key 1 in
  let! first := expect_call "peer enrolls" (λ p, enroll p user_a first_id key_1 false) in
  do! assert_eq (OverlayAddress.to_string (address first)) "10.100.0.2/32" in
  do! assert_eq (permissions first) [Egress] in
  let! user_b := expect_ok "valid ID" (UserId.new "user-b") in
  let! key_2 := key 2 in
  do! expect_call "peer enrolls" (λ p, enroll p user_b second_id key_2 true) in
  let! changed := expect_call "peer exists" (λ p, set_games p first_id true) in
  do! assert changed in
  let! changed := expect_call "peer exists" (λ p, set_games p first_id true) in
  do! assert (negb changed) in
  let! p := policy in
  assert_eq (Generation.get (generation p)) 4.

Definition rejects_server_or_network_addresses : Test unit :=
  do! assert (negb (is_ok (OverlayAddress.new 0))) in
  do! assert (negb (is_ok (OverlayAddress.new 1))) in
  do! assert (negb (is_ok (OverlayAddress.new 255))) in
  assert (negb (is_ok (OverlayAddress.from_str "10.100.2.2/32"))).

Definition no_op_changes_do_not_advance_generation : Test unit :=
  let! peer_id := expect_ok "valid ID" (PeerId.new "peer-a") in
  let! user := expect_ok "valid ID" (UserId.new "user-a") in
  let! key_1 := key 1 in
  do! expect_call "peer enrolls" (λ p, enroll p user peer_id key_1 false) in
  let! before := policy in
  let! changed := expect_call "peer exists" (λ p, set_games p peer_id false) in
  do! assert (negb changed) in
  let! key_1 := key 1 in
  let! changed := expect_call "peer exists" (λ p, rotate_key p peer_id key_1) in
  do! assert (negb changed) in
  let! after := policy in
  assert_eq (generation after) (generation before).

End tests.
End VpnTests.

(** The manifest both other test modules build. *)
Definition enrolled_manifest `{Base64} : M unit Failure PeerManifest :=
  let! user := expect_ok "valid ID" (UserId.new "user-1") in
  let! peer := expect_ok "valid ID" (PeerId.new "peer-1") in
  let! key := expect_ok "valid key" (WireGuardPublicKey.new (STANDARD_encode (array_32 1))) in
  let (enrolled, policy) := enroll default_policy user peer key false in
  do! expect_read "peer enrolls" (λ _, enrolled) in
  expect_ok "manifest builds" (manifest policy "2026-08-01T20:00:00Z").

Module ContractTests.
Section tests.
Context `{Base64, SerdeJson, Sha256}.

(** [value.to_string()] is the compact text of the value with its entries in the order of the map, which is
    that of the keys: the text the canonical writer makes. *)
Definition serializes_the_gateway_contract_without_user_identity : pure_test :=
  let! m := enrolled_manifest in
  let value := PeerManifest.to_value m in
  do! assert_eq (value_index "schema_version" value) (Num (PosInt 1)) in
  do! assert_eq (value_index "interface" value) (Str "wg-users") in
  let peer := value_index_at 0 (value_index "peers" value) in
  do! assert_eq (value_index "peer_id" peer) (Str "peer-1") in
  do! assert_eq (value_index "permissions" peer) (Array [Str "egress"]) in
  let! text := expect_ok "" (write_canonical_json value "") in
  assert (negb (contains "user-1" text)).

Definition digest_matches_python_style_sorted_compact_json : pure_test :=
  let! m := enrolled_manifest in
  let value := PeerManifest.to_value m in
  let! canonical := expect_ok "canonicalization succeeds" (write_canonical_json value "") in
  do! assert (negb (contains_char " "%char canonical)) in
  do! assert (starts_with (from_bytes ["{"%char; quote] +:+ "generated_at" +:+ from_bytes [quote; ":"%char])
                canonical) in
  let! digest := expect_ok "digest succeeds" (PeerManifest.digest m) in
  assert_eq (ManifestDigest.as_str digest)
    "c9c61a8222f6b33d7d8212917be6fc26dffefa5370164154460ad25373b5c17b".

Definition delivery_and_acknowledgement_bind_the_exact_manifest : pure_test :=
  let! gateway := expect_ok "valid ID" (GatewayId.new "gateway-1") in
  let! m := enrolled_manifest in
  let! delivery := expect_read "delivery builds" (λ _, PeerDelivery.new gateway m) in
  let acknowledgement := GatewayAcknowledgement.applied delivery in
  do! assert (GatewayAcknowledgement.matches acknowledgement delivery) in
  assert (starts_with "wg-users-2-" (PeerDelivery.delivery_id delivery)).

Definition rejects_structured_but_impossible_timestamps : pure_test :=
  do! assert_eq (manifest default_policy "2026-02-29T25:00:00Z") (Err InvalidGeneratedAt) in
  assert (is_ok (manifest default_policy "2024-02-29T23:59:59.123Z")).

End tests.
End ContractTests.

Module ApiTests.
Section tests.
Context `{Base64, SerdeJson, Sha256}.

(** The state is the store the test makes, which the service then owns. *)
Abbreviation Store := InMemoryGatewayStateStore.t.
Abbreviation Test := (M Store Failure).

Definition gateway_id : Test GatewayId := expect_ok "valid ID" (GatewayId.new "gateway-1").

(** A helper that needs no store. *)
Definition desired_manifest : Test PeerManifest := λ s,
  let (r, _) := enrolled_manifest tt in (r, s).

Definition set_desired (g : GatewayId) (m : PeerManifest) : Test unit :=
  expect "store is available" (λ s, InMemoryGatewayStateStore.set_desired s g m).

Definition service_poll (report : GatewayStateReport) : Test (option PeerDelivery) :=
  expect_read "poll succeeds" (λ s, poll s report).

Definition zero_digest : Test ManifestDigest :=
  expect_ok "valid digest" (ManifestDigest.new (from_bytes (replicate 64 "0"%char))).

Definition missing_or_stale_applied_state_receives_the_complete_manifest : Test unit :=
  let! g := gateway_id in
  let! m := desired_manifest in
  do! set_desired g m in
  let! delivery := service_poll (GatewayStateReport.new g []) in
  let! initial := expect_some "delivery is required" delivery in
  do! assert_eq (PeerManifest.peer_count (PeerDelivery.manifest initial)) 1%nat in
  let! one := expect_ok "positive generation" (Generation.new 1) in
  let! zeros := zero_digest in
  let! delivery := service_poll (GatewayStateReport.new g [AppliedInterface.wg_users one zeros]) in
  assert (is_ok (ok_or delivery tt)).

Definition converged_state_returns_no_delivery : Test unit :=
  let! desired := desired_manifest in
  let! digest := expect_ok "digest succeeds" (PeerManifest.digest desired) in
  let state := AppliedInterface.wg_users (PeerManifest.generation desired) digest in
  let! g := gateway_id in
  do! set_desired g desired in
  let! delivery := service_poll (GatewayStateReport.new g [state]) in
  assert (negb (is_ok (ok_or delivery tt))).

Definition same_generation_with_another_digest_fails_closed : Test unit :=
  let! desired := desired_manifest in
  let! zeros := zero_digest in
  let state := AppliedInterface.wg_users (PeerManifest.generation desired) zeros in
  let! g := gateway_id in
  do! set_desired g desired in
  λ s, assert (match poll s (GatewayStateReport.new g [state]) with
               | Returned (Err AppliedConflict) => true
               | _ => false
               end) s.

Definition exact_acknowledgement_records_applied_state : Test unit :=
  let! g := gateway_id in
  let! m := desired_manifest in
  do! set_desired g m in
  let! delivery := service_poll (GatewayStateReport.new g []) in
  let! delivery := expect_some "delivery is required" delivery in
  let acknowledgement := GatewayAcknowledgement.applied delivery in
  do! expect_call "acknowledgement matches" (λ s, acknowledge s acknowledgement) in
  let! applied := expect_read "store is available"
    (λ s, Returned (InMemoryGatewayStateStore.applied s g)) in
  assert (is_ok (ok_or applied tt)).

End tests.
End ApiTests.

(** ** The tests pass *)

(** The unit tests of the policy and of the gateway contract and reconciliation pass when they are
    run, with the encodings and the digest they run with: addresses and permissions, changes that
    change nothing, the serialised contract without user identity and its frozen digest,
    impossible time stamps, and the four answers of a poll. *)
Theorem policy_tests_pass :
  passes VpnTests.allocates_stable_addresses_and_additive_permissions default_policy ∧
  passes VpnTests.rejects_server_or_network_addresses default_policy ∧
  passes VpnTests.no_op_changes_do_not_advance_generation default_policy ∧
  passes ContractTests.serializes_the_gateway_contract_without_user_identity tt ∧
  passes ContractTests.digest_matches_python_style_sorted_compact_json tt ∧
  passes ContractTests.delivery_and_acknowledgement_bind_the_exact_manifest tt ∧
  passes ContractTests.rejects_structured_but_impossible_timestamps tt ∧
  passes ApiTests.missing_or_stale_applied_state_receives_the_complete_manifest
    InMemoryGatewayStateStore.default ∧
  passes ApiTests.converged_state_returns_no_delivery InMemoryGatewayStateStore.default ∧
  passes ApiTests.same_generation_with_another_digest_fails_closed InMemoryGatewayStateStore.default ∧
  passes ApiTests.exact_acknowledgement_records_applied_state InMemoryGatewayStateStore.default.
Proof. unfold passes. split_and!; vm_compute; reflexivity. Qed.
