(* ===== verification/AuthTypes.v ===== *)
(** * AuthTypes: tokens, accounts, ceremonies, sessions ([auth/src/lib.rs], first part)

    The data of the authentication crate.  Instants and durations are microseconds, the
    resolution of the database's [timestamptz]; UUIDs are their 128-bit value. *)
From S2P Require Export Json.

(** ** Errors *)
Inductive AuthError : Set :=
| InvalidInput
| InvalidToken
| InvalidState
| Unauthenticated
| Forbidden
| Verification
| Store
| Conflict.

#[export] Instance AuthError_eq_dec : EqDecision AuthError.
Proof. solve_decision. Defined.

Definition Uuid : Type := Z.

(** [n] hexadecimal digits, most significant first. *)
Fixpoint hex_digits (n : nat) (z : Z) : list ascii :=
  match n with O => [] | S n => hex_digits n (z / 16) ++ [hex_char (z mod 16)] end.

(** The hyphenated text of a UUID, as [serde] writes it. *)
Definition uuid_text (id : Uuid) : string :=
  let ds := hex_digits 32 id in
  from_bytes (take 8 ds ++ ["-"%char] ++ take 4 (drop 8 ds) ++ ["-"%char] ++ take 4 (drop 12 ds)
              ++ ["-"%char] ++ take 4 (drop 16 ds) ++ ["-"%char] ++ drop 20 ds).

Example uuid_text_example :
  uuid_text 0x123e4567e89b12d3a456426614174000 = "123e4567-e89b-12d3-a456-426614174000".
Proof. vm_compute. reflexivity. Qed.

(** crate [uuid]: [Uuid::from_str], which reads back what is written. *)
Class UuidText := uuid_parse : string → option Uuid.
Class UuidTextLaws `{UuidText} : Prop :=
  uuid_parse_text id : 0 ≤ id < 2 ^ 128 → uuid_parse (uuid_text id) = Some id.

Definition DateTime : Type := Z.
Definition Duration : Type := Z.

(** ** Secret tokens *)

Definition TOKEN_BYTES : Z := 32.

Module SecretHash.
Record t := mk { as_bytes : string }.
Definition from_slice (value : string) : result t AuthError :=
  if len value =? 32 then Ok (mk value) else Err Store.
(** [impl Debug]: the hash itself is never printed. *)
Definition fmt (_ : t) : string := "SecretHash([REDACTED])".
(** What the type [[u8; 32]] guarantees. *)
Definition valid (h : t) : Prop := len (as_bytes h) = 32.
End SecretHash.
Abbreviation SecretHash := SecretHash.t.

#[export] Instance SecretHash_eq_dec : EqDecision SecretHash.
Proof. solve_decision. Defined.

Module SecretToken.
Record t := mk { raw : string }.
Definition valid (s : t) : Prop := len (raw s) = TOKEN_BYTES.

Definition parse `{Base64} (value : string) : result t AuthError :=
  try? decoded := ok_or (URL_SAFE_NO_PAD_decode value) InvalidToken in
  if len decoded =? TOKEN_BYTES then Ok (mk decoded) else Err InvalidToken.

Definition expose `{Base64} (s : t) : string := URL_SAFE_NO_PAD_encode (raw s).

Definition hash `{Sha256} (s : t) : SecretHash := SecretHash.mk (sha256_digest (raw s)).
End SecretToken.
Abbreviation SecretToken := SecretToken.t.

#[export] Instance SecretToken_eq_dec : EqDecision SecretToken.
Proof. solve_decision. Defined.

(** ** Accounts and credentials *)

Inductive Role : Set := RoleUser | RoleOperator.

#[export] Instance Role_eq_dec : EqDecision Role.
Proof. solve_decision. Defined.

Module User.
Record t := mk {
  id : UserId;
  webauthn_handle : Uuid;
  email : string;
  display_name : string;
  role : Role;
  enabled : bool;
  auth_epoch : Z;
}.
End User.
Abbreviation User := User.t.

#[export] Instance User_eq_dec : EqDecision User.
Proof. solve_decision. Defined.

Module StoredCredential.
Record t := mk {
  id : Uuid;
  user_id : UserId;
  credential_id : string;
  public_data : Value;
  revoked_at : option DateTime;
}.
End StoredCredential.
Abbreviation StoredCredential := StoredCredential.t.

Module VerifiedCredential.
Record t := mk { credential_id : string; public_data : Value }.
End VerifiedCredential.
Abbreviation VerifiedCredential := VerifiedCredential.t.

Module AuthenticationVerification.
Record t := mk { credential_id : string; updated_public_data : Value }.
End AuthenticationVerification.
Abbreviation AuthenticationVerification := AuthenticationVerification.t.

(** ** Ceremonies and capabilities *)

Inductive CeremonyKind : Set :=
| Registration
| Authentication
| OperatorBootstrap
| OperatorRecovery.

#[export] Instance CeremonyKind_eq_dec : EqDecision CeremonyKind.
Proof. solve_decision. Defined.

(** [#[serde(rename_all = "snake_case")]]. *)
Definition ceremony_kind_value (kind : CeremonyKind) : Value :=
  Str match kind with
      | Registration => "registration"
      | Authentication => "authentication"
      | OperatorBootstrap => "operator_bootstrap"
      | OperatorRecovery => "operator_recovery"
      end.

Module Ceremony.
Record t := mk {
  id : Uuid;
  kind : CeremonyKind;
  user_id : option UserId;
  capability_hash : option SecretHash;
  state : Value;
  expires_at : DateTime;
}.
End Ceremony.
Abbreviation Ceremony := Ceremony.t.

Inductive CapabilityPurpose : Set :=
| Setup
| RecoverySetup
| OperatorRecoveryPurpose.

#[export] Instance CapabilityPurpose_eq_dec : EqDecision CapabilityPurpose.
Proof. solve_decision. Defined.

Module Capability.
Record t := mk {
  id : Uuid;
  user_id : UserId;
  purpose : CapabilityPurpose;
  token_hash : SecretHash;
  expires_at : DateTime;
}.
End Capability.
Abbreviation Capability := Capability.t.

(** ** Sessions *)

Module SessionRecord.
Record t := mk {
  id : Uuid;
  user_id : UserId;
  token_hash : SecretHash;
  csrf_hash : SecretHash;
  auth_epoch : Z;
  idle_expires_at : DateTime;
  absolute_expires_at : DateTime;
}.
End SessionRecord.
Abbreviation SessionRecord := SessionRecord.t.

Module SessionGrant.
Record t := mk { token : SecretToken; csrf : SecretToken; record : SessionRecord }.
End SessionGrant.
Abbreviation SessionGrant := SessionGrant.t.

Module SessionPrincipal.
Record t := mk {
  session_id : Uuid;
  user : User;
  csrf_hash : SecretHash;
  absolute_expires_at : DateTime;
}.
End SessionPrincipal.
Abbreviation SessionPrincipal := SessionPrincipal.t.

(** ** Recovery and audit *)

Module RecoveryRequest.
Record t := mk {
  id : Uuid;
  user_id : UserId;
  requested_at : DateTime;
  approved_at : option DateTime;
}.
End RecoveryRequest.
Abbreviation RecoveryRequest := RecoveryRequest.t.

Module AuditEvent.
Record t := mk {
  event_type : string;
  actor_user_id : option UserId;
  subject_user_id : option UserId;
  data : Value;
}.
End AuditEvent.
Abbreviation AuditEvent := AuditEvent.t.

(** ** Configuration *)

Module AuthConfig.
Record t := mk {
  ceremony_ttl : Duration;
  capability_ttl : Duration;
  session_idle_ttl : Duration;
  session_absolute_ttl : Duration;
}.
Definition seconds (n : Z) : Duration := n * 1000000.
Definition minutes (n : Z) : Duration := seconds (60 * n).
Definition hours (n : Z) : Duration := minutes (60 * n).
Definition default : t := mk (minutes 5) (minutes 15) (minutes 30) (hours 12).
End AuthConfig.
Abbreviation AuthConfig := AuthConfig.t.

(** ** Lemmas *)

Lemma SecretHash_from_slice h : SecretHash.valid h → SecretHash.from_slice (SecretHash.as_bytes h) = Ok h.
Proof. unfold SecretHash.from_slice, SecretHash.valid. intros ->. by destruct h. Qed.

Lemma token_hash_valid `{Sha256Laws} s : SecretHash.valid (SecretToken.hash s).
Proof. unfold SecretHash.valid, len. simpl. by rewrite sha256_length. Qed.

#[export] Hint Resolve SecretHash_from_slice token_hash_valid : console.

Lemma expose_length `{Base64Laws} s : SecretToken.valid s → String.length (SecretToken.expose s) = 43%nat.
Proof.
  unfold SecretToken.valid, SecretToken.expose, len, TOKEN_BYTES. intros Hv. rewrite url_encode_length.
  by replace (String.length (SecretToken.raw s)) with 32%nat by lia.
Qed.

Lemma parse_expose `{Base64Laws} s : SecretToken.valid s → SecretToken.parse (SecretToken.expose s) = Ok s.
Proof.
  unfold SecretToken.valid, SecretToken.parse, SecretToken.expose. intros Hv.
  rewrite url_decode_encode. simpl. rewrite (proj2 (Z.eqb_eq _ _) Hv). by destruct s.
Qed.

Lemma parse_Ok `{Base64Laws} value s :
  SecretToken.parse value = Ok s → SecretToken.valid s ∧ value = SecretToken.expose s.
Proof.
  unfold SecretToken.valid, SecretToken.parse, SecretToken.expose.
  destruct (URL_SAFE_NO_PAD_decode value) as [b|] eqn:Hd; simpl; [|done].
  destruct (Z.eqb_spec (len b) TOKEN_BYTES); [|done]. intros [= <-]. simpl.
  split; [done|]. symmetry. by apply url_encode_decode.
Qed.

Lemma parse_Err `{Base64} value e : SecretToken.parse value = Err e → e = InvalidToken.
Proof.
  unfold SecretToken.parse. destruct (URL_SAFE_NO_PAD_decode value); simpl; [|congruence].
  case_match; congruence.
Qed.

(** ** Properties *)

(** C37: secret tokens round trip through their text, and only their own text: exposing a token
    gives 43 characters of the URL-safe alphabet that parse back to it, and a text parses to a
    token exactly when it is what that token exposes; every other text is an invalid token. *)
Theorem token_text_roundtrip `{Base64Laws} s value :
  (SecretToken.valid s →
     SecretToken.parse (SecretToken.expose s) = Ok s ∧
     String.length (SecretToken.expose s) = 43%nat ∧
     forallb url_safe_char (bytes (SecretToken.expose s)) = true) ∧
  (SecretToken.parse value = Ok s ↔ SecretToken.valid s ∧ value = SecretToken.expose s) ∧
  (∀ e, SecretToken.parse value = Err e → e = InvalidToken).
Proof.
  split_and!; [|split; [by apply parse_Ok|intros [Hv ->]; by apply parse_expose]|by apply parse_Err].
  intros Hv. split; [by apply parse_expose|]. split; [by apply expose_length|apply url_encode_chars].
Qed.

(** ** Witness *)
From S2P Require Import Instances.

Lemma token_text_roundtrip_witness :
  ∃ s, SecretToken.valid s ∧
    SecretToken.expose s = "AQEBAQEBAQEBAQEBAQEBAQEBAQEBAQEBAQEBAQEBAQE" ∧
    SecretToken.parse (SecretToken.expose s) = Ok s.
Proof.
  exists (SecretToken.mk (from_bytes (replicate 32 (char 1)))).
  assert (SecretToken.valid (SecretToken.mk (from_bytes (replicate 32 (char 1))))) as Hv by done.
  split; [exact Hv|]. split; [by vm_compute|].
  apply (token_text_roundtrip (SecretToken.mk (from_bytes (replicate 32 (char 1)))) ""). exact Hv.
Defined.
