(* ===== verification/AuthStore.v ===== *)
(** * AuthStore: the interfaces of the authentication service ([auth/src/lib.rs], the traits)

    The world [W] is what the service acts on: the store's data, the driver's behaviour and the
    source of randomness.  Every asynchronous call is a transition of the world that answers
    with a [Result]. *)
From S2P Require Export AuthTypes.

(** ** [trait AuthStore] *)
Class AuthStore (W : Type) := {
  user_by_id : UserId → M W AuthError (option User);
  user_by_handle : Uuid → M W AuthError (option User);
  credentials_for_user : UserId → M W AuthError (list StoredCredential);
  operator_without_credential : M W AuthError (option User);
  operator_exists : M W AuthError bool;
  operator_recovery_window : DateTime → M W AuthError (option (User * SecretHash));
  capability : SecretHash → CapabilityPurpose → DateTime → M W AuthError (option Capability);
  insert_capability : Capability → M W AuthError unit;
  insert_user : User → DateTime → AuditEvent → M W AuthError unit;
  approve_user_with_setup : User → Capability → UserId → DateTime → M W AuthError unit;
  rotate_all_auth_epochs : DateTime → string → M W AuthError Z;
  insert_ceremony : Ceremony → M W AuthError unit;
  ceremony : Uuid → CeremonyKind → DateTime → M W AuthError (option Ceremony);
  complete_registration :
    Uuid → option SecretHash → VerifiedCredential → DateTime → AuditEvent → M W AuthError unit;
  complete_authentication :
    Uuid → AuthenticationVerification → SessionRecord → DateTime → AuditEvent → M W AuthError unit;
  session : SecretHash → DateTime → DateTime → M W AuthError (option SessionPrincipal);
  rotate_session_csrf :
    SecretHash → SecretHash → DateTime → DateTime → M W AuthError (option SessionPrincipal);
  delete_session : SecretHash → M W AuthError unit;
  create_recovery : UserId → DateTime → M W AuthError RecoveryRequest;
  pending_recoveries : M W AuthError (list RecoveryRequest);
  approve_recovery : Uuid → UserId → DateTime → M W AuthError unit;
  issue_recovery_setup : Uuid → Capability → UserId → DateTime → M W AuthError unit;
  break_glass : Uuid → Capability → DateTime → string → M W AuthError unit;
}.

(** ** [trait CeremonyEngine]: the WebAuthn engine

    It keeps no state between calls; starting a ceremony makes a random challenge, so the two
    [start] methods take the randomness they consume as a seed. *)
Definition Seed : Type := nat.

Class CeremonyEngine := {
  engine_start_registration :
    Seed → User → list StoredCredential → result (Value * Value) AuthError;
  engine_finish_registration : Value → Value → result VerifiedCredential AuthError;
  engine_start_authentication : Seed → result (Value * Value) AuthError;
  engine_authentication_user_handle : Value → result Uuid AuthError;
  engine_finish_authentication :
    Value → Value → list StoredCredential → result AuthenticationVerification AuthError;
}.

(** ** Randomness: [Uuid::new_v4], [SecretToken::generate] and the engine draw from the world *)
Class Randomness (W : Type) := {
  new_v4 : M W AuthError Uuid;
  generate : M W AuthError SecretToken;
  engine_seed : M W AuthError Seed;
}.
