(* ===== verification/Database.v ===== *)
(** * Database: the schema of [server/migrations/0001_human_auth.sql]

    Each table is a finite map from its primary key to its other columns; the append-only audit
    table is the list of its rows in order.  An SQL statement is a function from the
    database to the rows it gives and the database it leaves, or the constraint it violates.  The
    statements of the program are in [PgStore.v]; here are the tables, the constraints that
    every insertion checks, and what no statement can undo. *)
From S2P Require Export AuthTypes.

(** ** Tables *)

Module HumanUser.
Record t := mk {
  webauthn_handle : Uuid;
  email : string;
  display_name : string;
  role : string;
  enabled : bool;
  auth_epoch : Z;
  created_at : DateTime;
  updated_at : DateTime;
}.
End HumanUser.

Module PasskeyCredential.
Record t := mk {
  user_id : string;
  credential_id : string;
  public_data : Value;
  created_at : DateTime;
  last_used_at : option DateTime;
  revoked_at : option DateTime;
}.
End PasskeyCredential.

Module AuthCapability.
Record t := mk {
  user_id : string;
  purpose : string;
  token_hash : string;
  expires_at : DateTime;
  consumed_at : option DateTime;
  created_at : DateTime;
}.
End AuthCapability.

Module AuthCeremony.
Record t := mk {
  kind : string;
  user_id : option string;
  capability_hash : option string;
  state : Value;
  expires_at : DateTime;
  consumed_at : option DateTime;
  created_at : DateTime;
}.
End AuthCeremony.

Module AuthSession.
Record t := mk {
  user_id : string;
  token_hash : string;
  csrf_hash : string;
  auth_epoch : Z;
  idle_expires_at : DateTime;
  absolute_expires_at : DateTime;
  created_at : DateTime;
  last_seen_at : DateTime;
  revoked_at : option DateTime;
}.
End AuthSession.

Module Recovery.
Record t := mk {
  user_id : string;
  requested_at : DateTime;
  approved_at : option DateTime;
  approved_by : option string;
  setup_issued_at : option DateTime;
  completed_at : option DateTime;
}.
End Recovery.

Module AuditRow.
Record t := mk {
  occurred_at : DateTime;
  event_type : string;
  actor_user_id : option string;
  subject_user_id : option string;
  data : Value;
}.
End AuditRow.

Record Db := mkDb {
  human_users : gmap string HumanUser.t;
  passkey_credentials : gmap Uuid PasskeyCredential.t;
  auth_capabilities : gmap Uuid AuthCapability.t;
  auth_ceremonies : gmap Uuid AuthCeremony.t;
  auth_sessions : gmap Uuid AuthSession.t;
  recovery_requests : gmap Uuid Recovery.t;
  auth_audit_events : list AuditRow.t;
}.

Definition empty_db : Db := mkDb ∅ ∅ ∅ ∅ ∅ ∅ [].

Definition set_users m db := mkDb m (passkey_credentials db) (auth_capabilities db)
  (auth_ceremonies db) (auth_sessions db) (recovery_requests db) (auth_audit_events db).
Definition set_credentials m db := mkDb (human_users db) m (auth_capabilities db)
  (auth_ceremonies db) (auth_sessions db) (recovery_requests db) (auth_audit_events db).
Definition set_capabilities m db := mkDb (human_users db) (passkey_credentials db) m
  (auth_ceremonies db) (auth_sessions db) (recovery_requests db) (auth_audit_events db).
Definition set_ceremonies m db := mkDb (human_users db) (passkey_credentials db)
  (auth_capabilities db) m (auth_sessions db) (recovery_requests db) (auth_audit_events db).
Definition set_sessions m db := mkDb (human_users db) (passkey_credentials db)
  (auth_capabilities db) (auth_ceremonies db) m (recovery_requests db) (auth_audit_events db).
Definition set_recoveries m db := mkDb (human_users db) (passkey_credentials db)
  (auth_capabilities db) (auth_ceremonies db) (auth_sessions db) m (auth_audit_events db).
Definition set_audit l db := mkDb (human_users db) (passkey_credentials db)
  (auth_capabilities db) (auth_ceremonies db) (auth_sessions db) (recovery_requests db) l.

(** ** Statements *)

(** The error classes the program distinguishes; the first three carry a constraint name. *)
Inductive DbError : Set :=
| UniqueViolation
| ForeignKeyViolation
| CheckViolation
| OutOfRange.

#[export] Instance DbError_eq_dec : EqDecision DbError.
Proof. solve_decision. Defined.

Definition statement (A : Type) : Type := Db → result (A * Db) DbError.

Section rows.
Context {K V : Type} `{Countable K}.
Implicit Types (P : K → V → bool) (m : gmap K V).

(** [SELECT ... WHERE P]. *)
Definition rows_where P m : list (K * V) :=
  filter (λ kv, P kv.1 kv.2 = true) (map_to_list m).
Definition exists_row P m : bool := existsb (λ kv, P kv.1 kv.2) (map_to_list m).

(** [UPDATE ... SET f WHERE P]. *)
Definition update_where P (f : V → V) m : gmap K V :=
  map_imap (λ k v, Some (if P k v then f v else v)) m.

(** [ORDER BY f]; rows that tie stay in the order of the table. *)
Definition order_le (f : V → Z) (a b : K * V) : Prop := f a.2 ≤ f b.2.
#[export] Instance order_le_dec f : RelDecision (order_le f).
Proof. intros a b. unfold order_le. apply _. Defined.
Definition order_by (f : V → Z) (rows : list (K * V)) : list (K * V) :=
  merge_sort (order_le f) rows.

End rows.

Definition I64_MAX : Z := 9223372036854775807.

(** *** Insertions, with the constraints of each table *)

Definition hash_ok (h : string) : bool := len h =? 32.

Definition user_exists (id : string) (db : Db) : bool := bool_decide (is_Some (human_users db !! id)).
Definition user_exists_opt (id : option string) (db : Db) : bool :=
  match id with Some id => user_exists id db | None => true end.

Definition insert_human_user (id : string) (r : HumanUser.t) : statement unit := λ db,
  if negb ((bool_decide (HumanUser.role r = "user") || bool_decide (HumanUser.role r = "operator"))
           && (0 <? HumanUser.auth_epoch r))
  then Err CheckViolation
  else if user_exists id db
          || exists_row (λ _ u, bool_decide (HumanUser.webauthn_handle u = HumanUser.webauthn_handle r)) (human_users db)
          || exists_row (λ _ u, bool_decide (HumanUser.email u = HumanUser.email r)) (human_users db)
  then Err UniqueViolation
  else Ok (tt, set_users (<[id := r]> (human_users db)) db).

Definition insert_passkey_credential (id : Uuid) (r : PasskeyCredential.t) : statement unit := λ db,
  if bool_decide (is_Some (passkey_credentials db !! id))
     || exists_row (λ _ c, bool_decide (PasskeyCredential.credential_id c = PasskeyCredential.credential_id r))
          (passkey_credentials db)
  then Err UniqueViolation
  else if negb (user_exists (PasskeyCredential.user_id r) db) then Err ForeignKeyViolation
  else Ok (tt, set_credentials (<[id := r]> (passkey_credentials db)) db).

Definition purpose_names : list string := ["setup"; "recovery_setup"; "operator_recovery"].
Definition kind_names : list string :=
  ["registration"; "authentication"; "operator_bootstrap"; "operator_recovery"].

Definition insert_auth_capability (id : Uuid) (r : AuthCapability.t) : statement unit := λ db,
  if negb (bool_decide (AuthCapability.purpose r ∈ purpose_names) && hash_ok (AuthCapability.token_hash r))
  then Err CheckViolation
  else if bool_decide (is_Some (auth_capabilities db !! id))
          || exists_row (λ _ c, bool_decide (AuthCapability.token_hash c = AuthCapability.token_hash r))
               (auth_capabilities db)
  then Err UniqueViolation
  else if negb (user_exists (AuthCapability.user_id r) db) then Err ForeignKeyViolation
  else Ok (tt, set_capabilities (<[id := r]> (auth_capabilities db)) db).

Definition insert_auth_ceremony (id : Uuid) (r : AuthCeremony.t) : statement unit := λ db,
  if negb (bool_decide (AuthCeremony.kind r ∈ kind_names)
           && match AuthCeremony.capability_hash r with Some h => hash_ok h | None => true end)
  then Err CheckViolation
  else if bool_decide (is_Some (auth_ceremonies db !! id)) then Err UniqueViolation
  else if negb (user_exists_opt (AuthCeremony.user_id r) db) then Err ForeignKeyViolation
  else Ok (tt, set_ceremonies (<[id := r]> (auth_ceremonies db)) db).

Definition insert_auth_session (id : Uuid) (r : AuthSession.t) : statement unit := λ db,
  if negb (hash_ok (AuthSession.token_hash r) && hash_ok (AuthSession.csrf_hash r))
  then Err CheckViolation
  else if bool_decide (is_Some (auth_sessions db !! id))
          || exists_row (λ _ s, bool_decide (AuthSession.token_hash s = AuthSession.token_hash r))
               (auth_sessions db)
  then Err UniqueViolation
  else if negb (user_exists (AuthSession.user_id r) db) then Err ForeignKeyViolation
  else Ok (tt, set_sessions (<[id := r]> (auth_sessions db)) db).

(** The rows of the partial index [one_pending_recovery_per_user]. *)
Definition pending (r : Recovery.t) : bool :=
  bool_decide (Recovery.approved_at r = None) && bool_decide (Recovery.completed_at r = None).

Definition insert_recovery_request (id : Uuid) (r : Recovery.t) : statement unit := λ db,
  if bool_decide (is_Some (recovery_requests db !! id))
     || (pending r && exists_row (λ _ q, pending q && bool_decide (Recovery.user_id q = Recovery.user_id r))
                        (recovery_requests db))
  then Err UniqueViolation
  else if negb (user_exists (Recovery.user_id r) db && user_exists_opt (Recovery.approved_by r) db)
  then Err ForeignKeyViolation
  else Ok (tt, set_recoveries (<[id := r]> (recovery_requests db)) db).

(** The trigger [auth_audit_events_append_only] leaves insertion as the only change. *)
Definition insert_auth_audit_event (r : AuditRow.t) : statement unit := λ db,
  if negb (user_exists_opt (AuditRow.actor_user_id r) db
           && user_exists_opt (AuditRow.subject_user_id r) db)
  then Err ForeignKeyViolation
  else Ok (tt, set_audit (auth_audit_events db ++ [r]) db).

(** ** The schema as an invariant *)

Section constraints.
Context {K V : Type} `{Countable K}.
Implicit Types (m : gmap K V).

(** A unique index over the rows [Q] selects. *)
Definition unique_among {B} (Q : V → Prop) (f : V → B) m : Prop :=
  ∀ k1 k2 v1 v2, m !! k1 = Some v1 → m !! k2 = Some v2 → Q v1 → Q v2 → f v1 = f v2 → k1 = k2.
Definition unique_on {B} (f : V → B) m : Prop := unique_among (λ _, True) f m.

End constraints.

Definition references (id : string) (db : Db) : Prop := is_Some (human_users db !! id).
Definition references_opt (id : option string) (db : Db) : Prop :=
  ∀ u, id = Some u → references u db.

(** Beyond the constraints, every account identifier is one the program accepts. *)
Record users_wf (m : gmap string HumanUser.t) : Prop := {
  users_id : map_Forall (λ id _, valid_opaque_id id = true) m;
  users_role : map_Forall (λ _ u, HumanUser.role u = "user" ∨ HumanUser.role u = "operator") m;
  users_epoch : map_Forall (λ _ u, 0 < HumanUser.auth_epoch u) m;
  users_handle : unique_on HumanUser.webauthn_handle m;
  users_email : unique_on HumanUser.email m;
}.

Record capabilities_wf (m : gmap Uuid AuthCapability.t) : Prop := {
  capabilities_purpose : map_Forall (λ _ c, AuthCapability.purpose c ∈ purpose_names) m;
  capabilities_length : map_Forall (λ _ c, len (AuthCapability.token_hash c) = 32) m;
  capabilities_hash : unique_on AuthCapability.token_hash m;
}.

Record ceremonies_wf (m : gmap Uuid AuthCeremony.t) : Prop := {
  ceremonies_kind : map_Forall (λ _ c, AuthCeremony.kind c ∈ kind_names) m;
  ceremonies_length : map_Forall (λ _ c, ∀ h, AuthCeremony.capability_hash c = Some h → len h = 32) m;
}.

Record sessions_wf (m : gmap Uuid AuthSession.t) : Prop := {
  sessions_length : map_Forall (λ _ s, len (AuthSession.token_hash s) = 32 ∧
                                      len (AuthSession.csrf_hash s) = 32) m;
  sessions_hash : unique_on AuthSession.token_hash m;
}.

Record db_wf (db : Db) : Prop := {
  wf_users : users_wf (human_users db);
  wf_credentials : unique_on PasskeyCredential.credential_id (passkey_credentials db);
  wf_capabilities : capabilities_wf (auth_capabilities db);
  wf_ceremonies : ceremonies_wf (auth_ceremonies db);
  wf_sessions : sessions_wf (auth_sessions db);
  wf_recoveries : unique_among (λ r, pending r = true) Recovery.user_id (recovery_requests db);
  fk_credentials : map_Forall (λ _ c, references (PasskeyCredential.user_id c) db) (passkey_credentials db);
  fk_capabilities : map_Forall (λ _ c, references (AuthCapability.user_id c) db) (auth_capabilities db);
  fk_ceremonies : map_Forall (λ _ c, references_opt (AuthCeremony.user_id c) db) (auth_ceremonies db);
  fk_sessions : map_Forall (λ _ s, references (AuthSession.user_id s) db) (auth_sessions db);
  fk_recoveries : map_Forall (λ _ r, references (Recovery.user_id r) db ∧
                                    references_opt (Recovery.approved_by r) db) (recovery_requests db);
  fk_audit : ∀ e, e ∈ auth_audit_events db →
    references_opt (AuditRow.actor_user_id e) db ∧ references_opt (AuditRow.subject_user_id e) db;
}.

(** ** What the past fixes: no statement deletes a row, undoes a consumption or a revocation, lowers
    an epoch, or touches the audit trail other than by appending *)

Definition sticky {A} (o o' : option A) : Prop := is_Some o → o' = o.

Definition table_evolves {K V} `{Countable K} (R : V → V → Prop) (m m' : gmap K V) : Prop :=
  ∀ k v, m !! k = Some v → ∃ v', m' !! k = Some v' ∧ R v v'.

Definition user_evolves (u u' : HumanUser.t) : Prop :=
  HumanUser.webauthn_handle u' = HumanUser.webauthn_handle u ∧
  HumanUser.email u' = HumanUser.email u ∧
  HumanUser.role u' = HumanUser.role u ∧
  HumanUser.enabled u' = HumanUser.enabled u ∧
  HumanUser.auth_epoch u ≤ HumanUser.auth_epoch u'.

Definition credential_evolves (c c' : PasskeyCredential.t) : Prop :=
  PasskeyCredential.user_id c' = PasskeyCredential.user_id c ∧
  PasskeyCredential.credential_id c' = PasskeyCredential.credential_id c ∧
  sticky (PasskeyCredential.revoked_at c) (PasskeyCredential.revoked_at c').

Definition capability_evolves (c c' : AuthCapability.t) : Prop :=
  AuthCapability.user_id c' = AuthCapability.user_id c ∧
  AuthCapability.purpose c' = AuthCapability.purpose c ∧
  AuthCapability.token_hash c' = AuthCapability.token_hash c ∧
  AuthCapability.expires_at c' = AuthCapability.expires_at c ∧
  sticky (AuthCapability.consumed_at c) (AuthCapability.consumed_at c').

Definition ceremony_evolves (c c' : AuthCeremony.t) : Prop :=
  AuthCeremony.kind c' = AuthCeremony.kind c ∧
  AuthCeremony.user_id c' = AuthCeremony.user_id c ∧
  AuthCeremony.capability_hash c' = AuthCeremony.capability_hash c ∧
  AuthCeremony.state c' = AuthCeremony.state c ∧
  AuthCeremony.expires_at c' = AuthCeremony.expires_at c ∧
  sticky (AuthCeremony.consumed_at c) (AuthCeremony.consumed_at c').

Definition session_evolves (s s' : AuthSession.t) : Prop :=
  AuthSession.user_id s' = AuthSession.user_id s ∧
  AuthSession.token_hash s' = AuthSession.token_hash s ∧
  AuthSession.auth_epoch s' = AuthSession.auth_epoch s ∧
  AuthSession.absolute_expires_at s' = AuthSession.absolute_expires_at s ∧
  sticky (AuthSession.revoked_at s) (AuthSession.revoked_at s').

Definition recovery_evolves (r r' : Recovery.t) : Prop :=
  Recovery.user_id r' = Recovery.user_id r ∧
  Recovery.requested_at r' = Recovery.requested_at r ∧
  sticky (Recovery.approved_at r) (Recovery.approved_at r') ∧
  sticky (Recovery.setup_issued_at r) (Recovery.setup_issued_at r') ∧
  sticky (Recovery.completed_at r) (Recovery.completed_at r').

Record evolves (db db' : Db) : Prop := {
  evolves_users : table_evolves user_evolves (human_users db) (human_users db');
  evolves_credentials :
    table_evolves credential_evolves (passkey_credentials db) (passkey_credentials db');
  evolves_capabilities :
    table_evolves capability_evolves (auth_capabilities db) (auth_capabilities db');
  evolves_ceremonies : table_evolves ceremony_evolves (auth_ceremonies db) (auth_ceremonies db');
  evolves_sessions : table_evolves session_evolves (auth_sessions db) (auth_sessions db');
  evolves_recoveries : table_evolves recovery_evolves (recovery_requests db) (recovery_requests db');
  evolves_audit : auth_audit_events db `prefix_of` auth_audit_events db';
}.

(** A statement that keeps the schema and the past. *)
Definition statement_safe {A} (s : statement A) : Prop :=
  ∀ db a db', s db = Ok (a, db') → db_wf db → db_wf db' ∧ evolves db db'.

(** ** Lemmas: rows *)

Section row_lemmas.
Context {K V : Type} `{Countable K}.
Implicit Types (P : K → V → bool) (f : V → V) (m : gmap K V) (R : V → V → Prop).

Lemma elem_of_rows_where P m k v : (k, v) ∈ rows_where P m ↔ m !! k = Some v ∧ P k v = true.
Proof. unfold rows_where. rewrite list_elem_of_filter, elem_of_map_to_list. simpl. naive_solver. Qed.

Lemma exists_row_true P m : exists_row P m = true ↔ ∃ k v, m !! k = Some v ∧ P k v = true.
Proof.
  unfold exists_row. rewrite existsb_elem. split.
  - intros ([k v] & Hin%elem_of_map_to_list & HP). eauto.
  - intros (k & v & Hk & HP). exists (k, v). by rewrite elem_of_map_to_list.
Qed.

Lemma exists_row_false P m : exists_row P m = false ↔ ∀ k v, m !! k = Some v → P k v = false.
Proof.
  rewrite <- not_true_iff_false, exists_row_true. split.
  - intros Hn k v Hk. apply not_true_iff_false. naive_solver.
  - intros Hf (k & v & Hk & HP). by rewrite (Hf k v Hk) in HP.
Qed.

Lemma lookup_update_where P f m k :
  update_where P f m !! k = (λ v, if P k v then f v else v) <$> m !! k.
Proof. unfold update_where. rewrite map_lookup_imap. by destruct (m !! k). Qed.

Lemma update_where_Some P f m k v' :
  update_where P f m !! k = Some v' ↔
  ∃ v, m !! k = Some v ∧ v' = if P k v then f v else v.
Proof. rewrite lookup_update_where, fmap_Some. done. Qed.

Lemma order_by_perm (f : V → Z) (rows : list (K * V)) : order_by f rows ≡ₚ rows.
Proof. apply merge_sort_Permutation. Qed.

(** A statement that selects by a unique key affects the one row that has it. *)
Lemma rows_where_nil P m : rows_where P m = [] ↔ ∀ k v, m !! k = Some v → P k v = false.
Proof.
  split.
  - intros Hr k v Hk. apply not_true_iff_false. intros HP.
    assert ((k, v) ∈ rows_where P m) as Hin by by apply elem_of_rows_where.
    rewrite Hr in Hin. by apply not_elem_of_nil in Hin.
  - intros Hf. destruct (rows_where P m) as [|[k v] l] eqn:Hr; [done|].
    assert ((k, v) ∈ rows_where P m) as [Hk HP]%elem_of_rows_where by (rewrite Hr; apply list_elem_of_here).
    by rewrite (Hf k v Hk) in HP.
Qed.

Lemma rows_where_singleton P m k v :
  m !! k = Some v → P k v = true → (∀ k' v', m !! k' = Some v' → P k' v' = true → k' = k) →
  rows_where P m = [(k, v)].
Proof.
  intros Hk HP Hu. apply Permutation_singleton_r, NoDup_Permutation.
  - apply NoDup_filter, NoDup_map_to_list.
  - apply NoDup_singleton.
  - intros [k' v']. rewrite elem_of_rows_where, list_elem_of_singleton. split.
    + intros [Hk' HP']. assert (k' = k) as -> by eauto. congruence.
    + intros [= -> ->]. done.
Qed.

Lemma rows_where_key P m k :
  (∀ k' v, P k' v = true → k' = k) →
  rows_where P m = match m !! k with
                   | Some v => if P k v then [(k, v)] else []
                   | None => []
                   end.
Proof.
  intros Hk. destruct (m !! k) as [v|] eqn:Hm.
  - destruct (P k v) eqn:HP.
    + apply rows_where_singleton; eauto.
    + apply rows_where_nil. intros k' v' Hk'. apply not_true_iff_false. intros HP'.
      assert (k' = k) as -> by eauto. congruence.
  - apply rows_where_nil. intros k' v' Hk'. apply not_true_iff_false. intros HP'.
    assert (k' = k) as -> by eauto. congruence.
Qed.

Lemma exists_field_false {B} `{EqDecision B} (g : V → B) b m :
  exists_row (λ _ v, bool_decide (g v = b)) m = false ↔ ∀ k v, m !! k = Some v → g v ≠ b.
Proof. rewrite exists_row_false. by setoid_rewrite bool_decide_eq_false. Qed.

(** *** Constraints under insertion and update *)

Lemma unique_insert {B} (Q : V → Prop) (g : V → B) m k v :
  (Q v → ∀ k' v', m !! k' = Some v' → Q v' → g v' ≠ g v) →
  unique_among Q g m → unique_among Q g (<[k := v]> m).
Proof.
  intros Hf Hu k1 k2 v1 v2. rewrite !lookup_insert_Some.
  intros [[-> <-]|[? ?]] [[-> <-]|[? ?]] Q1 Q2 He; try done.
  - edestruct (Hf Q1); eauto.
  - edestruct (Hf Q2); eauto.
  - eauto.
Qed.

Lemma unique_update {B} (Q : V → Prop) (g : V → B) P f m :
  (∀ v, Q (f v) → Q v) → (∀ v, g (f v) = g v) →
  unique_among Q g m → unique_among Q g (update_where P f m).
Proof.
  intros HQ Hg Hu k1 k2 v1 v2.
  rewrite !update_where_Some. intros (w1 & Hk1 & ->) (w2 & Hk2 & ->) Q1 Q2 He.
  apply (Hu k1 k2 w1 w2); try done.
  - destruct (P k1 w1); auto.
  - destruct (P k2 w2); auto.
  - destruct (P k1 w1), (P k2 w2); rewrite ?Hg in He; done.
Qed.

Lemma forall_update (Q : K → V → Prop) P f m :
  (∀ k v, P k v = true → Q k v → Q k (f v)) →
  map_Forall Q m → map_Forall Q (update_where P f m).
Proof.
  intros Hf HQ k v'. rewrite update_where_Some. intros (v & Hk & ->).
  destruct (P k v) eqn:HP; auto.
Qed.

(** *** Evolution of one table *)

Lemma table_refl R m : Reflexive R → table_evolves R m m.
Proof. intros HR k v Hk. exists v. split; [done|apply HR]. Qed.

Lemma table_trans R m1 m2 m3 :
  Transitive R → table_evolves R m1 m2 → table_evolves R m2 m3 → table_evolves R m1 m3.
Proof.
  intros HR H1 H2 k v Hk. apply H1 in Hk as (v2 & Hk & R1). apply H2 in Hk as (v3 & Hk & R2).
  exists v3. split; [done|]. by transitivity v2.
Qed.

Lemma table_insert R m k v : Reflexive R → m !! k = None → table_evolves R m (<[k := v]> m).
Proof.
  intros HR Hk k' v' Hk'. exists v'. rewrite lookup_insert_ne by congruence. split; [done|apply HR].
Qed.

Lemma table_update R P f m :
  Reflexive R → (∀ k v, P k v = true → R v (f v)) → table_evolves R m (update_where P f m).
Proof.
  intros HR Hf k v Hk. rewrite lookup_update_where, Hk. simpl. eexists. split; [done|].
  destruct (P k v) eqn:HP; [by eapply Hf|apply HR].
Qed.

End row_lemmas.

#[export] Instance sticky_refl {A} : Reflexive (@sticky A).
Proof. done. Qed.
#[export] Instance sticky_trans {A} : Transitive (@sticky A).
Proof. intros o1 o2 o3 H1 H2 Hs. pose proof (H1 Hs) as ->. by apply H2. Qed.

Lemma sticky_None {A} (o' : option A) : sticky None o'.
Proof. by intros [? [=]]. Qed.

Ltac evolves_preorder := split; [intros x; repeat split; try done; lia|
  intros x y z Hxy Hyz; repeat match goal with H : _ ∧ _ |- _ => destruct H end;
  repeat split; try lia; first [congruence | etransitivity; eassumption]].

#[export] Instance user_evolves_preorder : PreOrder user_evolves.
Proof. unfold user_evolves. evolves_preorder. Qed.
#[export] Instance credential_evolves_preorder : PreOrder credential_evolves.
Proof. unfold credential_evolves. evolves_preorder. Qed.
#[export] Instance capability_evolves_preorder : PreOrder capability_evolves.
Proof. unfold capability_evolves. evolves_preorder. Qed.
#[export] Instance ceremony_evolves_preorder : PreOrder ceremony_evolves.
Proof. unfold ceremony_evolves. evolves_preorder. Qed.
#[export] Instance session_evolves_preorder : PreOrder session_evolves.
Proof. unfold session_evolves. evolves_preorder. Qed.
#[export] Instance recovery_evolves_preorder : PreOrder recovery_evolves.
Proof. unfold recovery_evolves. evolves_preorder. Qed.

#[export] Instance evolves_preorder : PreOrder evolves.
Proof.
  split.
  - intros db. constructor; try apply table_refl; apply _ || done.
  - intros d1 d2 d3 [] []. constructor; try (eapply table_trans; [apply _|eassumption..]).
    by etransitivity.
Qed.

(** ** Lemmas: replacing one table *)

Section replace.
Context (db : Db) (Hwf : db_wf db).

Lemma references_mono m id :
  table_evolves user_evolves (human_users db) m → references id db → is_Some (m !! id).
Proof. intros He [u Hu]. apply He in Hu as (u' & -> & _). done. Qed.

Lemma wf_set_users m :
  users_wf m → table_evolves user_evolves (human_users db) m → db_wf (set_users m db).
Proof.
  intros Hm He. destruct Hwf as [? ? ? ? ? ? Fc Fp Fy Fs Fr Fa].
  assert (∀ id, references id db → references id (set_users m db)) as Hr
    by (intros id; by apply references_mono).
  assert (∀ id, references_opt id db → references_opt id (set_users m db)) as Hro
    by (intros id Ho u Hu; by apply Hr, Ho).
  constructor; simpl; try done;
    [intros k v Hk; by apply Hr, (Fc k)|intros k v Hk; by apply Hr, (Fp k)
    |intros k v Hk; by apply Hro, (Fy k)|intros k v Hk; by apply Hr, (Fs k)| |].
  - intros k v Hk. destruct (Fr k v Hk). split; auto.
  - intros e He'. destruct (Fa e He'). split; auto.
Qed.

Lemma wf_set_credentials m :
  unique_on PasskeyCredential.credential_id m →
  map_Forall (λ _ c, references (PasskeyCredential.user_id c) db) m → db_wf (set_credentials m db).
Proof. intros. destruct Hwf. by constructor. Qed.

Lemma wf_set_capabilities m :
  capabilities_wf m → map_Forall (λ _ c, references (AuthCapability.user_id c) db) m →
  db_wf (set_capabilities m db).
Proof. intros. destruct Hwf. by constructor. Qed.

Lemma wf_set_ceremonies m :
  ceremonies_wf m → map_Forall (λ _ c, references_opt (AuthCeremony.user_id c) db) m →
  db_wf (set_ceremonies m db).
Proof. intros. destruct Hwf. by constructor. Qed.

Lemma wf_set_sessions m :
  sessions_wf m → map_Forall (λ _ s, references (AuthSession.user_id s) db) m →
  db_wf (set_sessions m db).
Proof. intros. destruct Hwf. by constructor. Qed.

Lemma wf_set_recoveries m :
  unique_among (λ r, pending r = true) Recovery.user_id m →
  map_Forall (λ _ r, references (Recovery.user_id r) db ∧
                     references_opt (Recovery.approved_by r) db) m →
  db_wf (set_recoveries m db).
Proof. intros. destruct Hwf. by constructor. Qed.

End replace.

Lemma evolves_set_users db m :
  table_evolves user_evolves (human_users db) m → evolves db (set_users m db).
Proof. constructor; simpl; try done; apply table_refl, _. Qed.
Lemma evolves_set_credentials db m :
  table_evolves credential_evolves (passkey_credentials db) m → evolves db (set_credentials m db).
Proof. constructor; simpl; try done; apply table_refl, _. Qed.
Lemma evolves_set_capabilities db m :
  table_evolves capability_evolves (auth_capabilities db) m → evolves db (set_capabilities m db).
Proof. constructor; simpl; try done; apply table_refl, _. Qed.
Lemma evolves_set_ceremonies db m :
  table_evolves ceremony_evolves (auth_ceremonies db) m → evolves db (set_ceremonies m db).
Proof. constructor; simpl; try done; apply table_refl, _. Qed.
Lemma evolves_set_sessions db m :
  table_evolves session_evolves (auth_sessions db) m → evolves db (set_sessions m db).
Proof. constructor; simpl; try done; apply table_refl, _. Qed.
Lemma evolves_set_recoveries db m :
  table_evolves recovery_evolves (recovery_requests db) m → evolves db (set_recoveries m db).
Proof. constructor; simpl; try done; apply table_refl, _. Qed.

Lemma user_exists_iff id db : user_exists id db = true ↔ references id db.
Proof. apply bool_decide_eq_true. Qed.

Lemma user_exists_opt_iff id db : user_exists_opt id db = true ↔ references_opt id db.
Proof.
  destruct id as [id|]; simpl; [rewrite user_exists_iff|].
  - split; [by intros Hr u [= <-]|intros Hr; by apply Hr].
  - split; [done|]. by intros _.
Qed.

Lemma hash_ok_iff h : hash_ok h = true ↔ len h = 32.
Proof. apply Z.eqb_eq. Qed.

Lemma key_free {K V} `{Countable K} (m : gmap K V) k :
  bool_decide (is_Some (m !! k)) = false → m !! k = None.
Proof. rewrite bool_decide_eq_false. apply eq_None_not_Some. Qed.

(** Passes a guard of a successful insertion. *)
Ltac pass_guard H :=
  match goal with |- (if ?b then Err _ else _) = _ → _ => destruct b eqn:H; [discriminate|] end.

(** ** Every insertion keeps the schema and the past *)

Lemma insert_human_user_safe id r :
  valid_opaque_id id = true → statement_safe (insert_human_user id r).
Proof.
  intros Hid db a db'. unfold insert_human_user, user_exists.
  pass_guard Hc. pass_guard Hu.
  intros [= <- <-] Hwf. apply orb_false_iff in Hu as [[Hn%key_free Hh]%orb_false_iff He].
  rewrite exists_field_false in Hh. rewrite exists_field_false in He. apply negb_false_iff, andb_true_iff in Hc as [Hrole Hep].
  rewrite orb_true_iff, !bool_decide_eq_true in Hrole. apply Z.ltb_lt in Hep.
  assert (table_evolves user_evolves (human_users db) (<[id:=r]> (human_users db)))
    by (apply table_insert; [apply _|done]).
  split; [|by apply evolves_set_users].
  apply wf_set_users; [done| |done].
  destruct (wf_users _ Hwf). constructor; [by apply map_Forall_insert_2..| |];
    (apply unique_insert; [|done]); eauto.
Qed.

Lemma insert_passkey_credential_safe id r : statement_safe (insert_passkey_credential id r).
Proof.
  intros db a db'. unfold insert_passkey_credential.
  pass_guard Hu. pass_guard Hf.
  intros [= <- <-] Hwf. apply orb_false_iff in Hu as [Hn%key_free Hc].
  rewrite exists_field_false in Hc. apply negb_false_iff, user_exists_iff in Hf.
  split; [|apply evolves_set_credentials, table_insert; [apply _|done]].
  apply wf_set_credentials; [done| |].
  - apply unique_insert; [eauto|by destruct Hwf].
  - apply map_Forall_insert_2; [done|by destruct Hwf].
Qed.

Lemma insert_auth_capability_safe id r : statement_safe (insert_auth_capability id r).
Proof.
  intros db a db'. unfold insert_auth_capability.
  pass_guard Hc. pass_guard Hu.
  pass_guard Hf.
  intros [= <- <-] Hwf. apply orb_false_iff in Hu as [Hn%key_free Hh].
  rewrite exists_field_false in Hh. apply negb_false_iff, user_exists_iff in Hf.
  apply negb_false_iff, andb_true_iff in Hc as [Hp%bool_decide_eq_true Hl%hash_ok_iff].
  split; [|apply evolves_set_capabilities, table_insert; [apply _|done]].
  apply wf_set_capabilities; [done| |].
  - destruct (wf_capabilities _ Hwf). constructor; [by apply map_Forall_insert_2..|].
    apply unique_insert; eauto.
  - apply map_Forall_insert_2; [done|by destruct Hwf].
Qed.

Lemma insert_auth_ceremony_safe id r : statement_safe (insert_auth_ceremony id r).
Proof.
  intros db a db'. unfold insert_auth_ceremony.
  pass_guard Hc.
  pass_guard Hn. apply key_free in Hn.
  pass_guard Hf.
  intros [= <- <-] Hwf. apply negb_false_iff, user_exists_opt_iff in Hf.
  apply negb_false_iff, andb_true_iff in Hc as [Hk%bool_decide_eq_true Hl].
  split; [|apply evolves_set_ceremonies, table_insert; [apply _|done]].
  apply wf_set_ceremonies; [done| |].
  - destruct (wf_ceremonies _ Hwf). constructor; apply map_Forall_insert_2; try done.
    intros h Hh. rewrite Hh in Hl. by apply hash_ok_iff.
  - apply map_Forall_insert_2; [done|by destruct Hwf].
Qed.

Lemma insert_auth_session_safe id r : statement_safe (insert_auth_session id r).
Proof.
  intros db a db'. unfold insert_auth_session.
  pass_guard Hc. pass_guard Hu.
  pass_guard Hf.
  intros [= <- <-] Hwf. apply orb_false_iff in Hu as [Hn%key_free Hh].
  rewrite exists_field_false in Hh. apply negb_false_iff, user_exists_iff in Hf.
  apply negb_false_iff, andb_true_iff in Hc as [Ht%hash_ok_iff Hr%hash_ok_iff].
  split; [|apply evolves_set_sessions, table_insert; [apply _|done]].
  apply wf_set_sessions; [done| |].
  - destruct (wf_sessions _ Hwf). constructor; [by apply map_Forall_insert_2|].
    apply unique_insert; eauto.
  - apply map_Forall_insert_2; [done|by destruct Hwf].
Qed.

Lemma insert_recovery_request_safe id r : statement_safe (insert_recovery_request id r).
Proof.
  intros db a db'. unfold insert_recovery_request.
  pass_guard Hu. pass_guard Hf.
  intros [= <- <-] Hwf. apply orb_false_iff in Hu as [Hn%key_free Hp].
  apply negb_false_iff, andb_true_iff in Hf as [Hf%user_exists_iff Ha%user_exists_opt_iff].
  split; [|apply evolves_set_recoveries, table_insert; [apply _|done]].
  apply wf_set_recoveries; [done| |].
  - apply unique_insert; [|by destruct Hwf]. intros Hr k v Hk Hv.
    rewrite Hr in Hp. simpl in Hp. rewrite exists_row_false in Hp.
    specialize (Hp k v Hk). simpl in Hp. rewrite Hv in Hp. by apply bool_decide_eq_false in Hp.
  - apply map_Forall_insert_2; [done|by destruct Hwf].
Qed.

Lemma insert_auth_audit_event_safe r : statement_safe (insert_auth_audit_event r).
Proof.
  intros db a db'. unfold insert_auth_audit_event. pass_guard Hf.
  intros [= <- <-] Hwf.
  apply negb_false_iff, andb_true_iff in Hf as [Ha%user_exists_opt_iff Hs%user_exists_opt_iff].
  split.
  - destruct Hwf as [? ? ? ? ? ? ? ? ? ? ? Fa]. constructor; simpl; try done.
    intros e. rewrite elem_of_app, list_elem_of_singleton. intros [?| ->]; [by apply Fa|done].
  - constructor; simpl; try (apply table_refl; apply _). by apply prefix_app_r.
Qed.

#[export] Hint Resolve insert_passkey_credential_safe insert_auth_capability_safe
  insert_auth_ceremony_safe insert_auth_session_safe insert_recovery_request_safe
  insert_auth_audit_event_safe : console.
