(* ===== verification/PgDriver.v ===== *)
(** * PgDriver: connections, transactions and faults (what [server/src/repository.rs] uses of sqlx)

    The world of the PostgreSQL store.  Each round trip to the server has a verdict, taken from a
    list the environment chooses: it is delivered, or it fails before the server executes it, or
    the server executes it and the answer is lost.  A transaction works on a copy of the
    database that only a commit publishes; a transaction value that is dropped rolls back.
    Transactions are serial here; [Concurrency.v] interleaves their statements. *)
From S2P Require Export Database AuthStore.

(** sqlx's errors: the server's, with its class, or the driver's own (connection, decoding). *)
Inductive SqlxError : Set :=
| Database (e : DbError)
| Driver.

(** [error.constraint().is_some()] and [is_unique_violation]. *)
Definition has_constraint (e : SqlxError) : bool :=
  match e with
  | Database (UniqueViolation | ForeignKeyViolation | CheckViolation) => true
  | _ => false
  end.
Definition is_unique_violation (e : SqlxError) : bool :=
  match e with Database UniqueViolation => true | _ => false end.

Inductive verdict : Set :=
| Delivered
| NotExecuted
| AnswerLost.

#[export] Instance verdict_eq_dec : EqDecision verdict.
Proof. solve_decision. Defined.

(** [server_now] is the server's clock ([now()]); [drawn] counts the draws of randomness. *)
Record World := mkWorld {
  db : Db;
  server_now : DateTime;
  verdicts : list verdict;
  drawn : nat;
}.

Definition with_db (d : Db) (w : World) : World :=
  mkWorld d (server_now w) (verdicts w) (drawn w).

(** Round trips after the end of the list are delivered. *)
Definition next_verdict (w : World) : verdict * World :=
  match verdicts w with
  | [] => (Delivered, w)
  | v :: vs => (v, mkWorld (db w) (server_now w) vs (drawn w))
  end.

(** The random numbers of a run, in the order they are drawn. *)
Class Entropy := {
  uuid_at : nat → Uuid;
  token_at : nat → SecretToken;
}.

Definition draw {A E} (f : nat → A) : M World E A := λ w,
  (Ok (f (drawn w)), mkWorld (db w) (server_now w) (verdicts w) (S (drawn w))).

#[export] Instance world_randomness `{Entropy} : Randomness World := {
  new_v4 := draw uuid_at;
  generate := draw token_at;
  engine_seed := draw (λ n, n);
}.

(** ** Statements outside a transaction: [.execute(&self.pool)] *)
Definition pool_execute {A} (s : DateTime → statement A) : M World SqlxError A := λ w,
  let (v, w) := next_verdict w in
  match v with
  | NotExecuted => (Err Driver, w)
  | Delivered =>
      match s (server_now w) (db w) with
      | Err e => (Err (Database e), w)
      | Ok (a, d) => (Ok a, with_db d w)
      end
  | AnswerLost =>
      match s (server_now w) (db w) with
      | Err _ => (Err Driver, w)
      | Ok (_, d) => (Err Driver, with_db d w)
      end
  end.

(** ** Transactions *)

Record Tx := mkTx { world : World; working : Db }.

Definition tx_execute {A} (s : DateTime → statement A) : M Tx SqlxError A := λ t,
  let (v, w) := next_verdict (world t) in
  match v with
  | Delivered =>
      match s (server_now w) (working t) with
      | Err e => (Err (Database e), mkTx w (working t))
      | Ok (a, d) => (Ok a, mkTx w d)
      end
  | _ => (Err Driver, mkTx w (working t))
  end.

Definition commit : M Tx SqlxError unit := λ t,
  let (v, w) := next_verdict (world t) in
  match v with
  | Delivered => (Ok tt, mkTx (with_db (working t) w) (working t))
  | NotExecuted => (Err Driver, mkTx w (working t))
  | AnswerLost => (Err Driver, mkTx (with_db (working t) w) (working t))
  end.

(** Randomness drawn while a transaction is open. *)
Definition tx_draw {A E} (f : nat → A) : M Tx E A := λ t,
  let (r, w) := draw f (world t) in (r, mkTx w (working t)).

(** [self.pool.begin()], the body, and the drop of the transaction at its end. *)
Definition transaction {A} (body : M Tx AuthError A) : M World AuthError A := λ w,
  let (v, w) := next_verdict w in
  match v with
  | Delivered => let (r, t) := body (mkTx w (db w)) in (r, world t)
  | _ => (Err Store, w)
  end.

(** [.map_err(|_| AuthError::Store)]. *)
Definition err_with {W A} (f : SqlxError → AuthError) (c : M W SqlxError A) : M W AuthError A :=
  λ w, let (r, w) := c w in (map_err f r, w).
Definition store_err {W A} (c : M W SqlxError A) : M W AuthError A := err_with (λ _, Store) c.

(** ** What holds of every computation, whatever the faults *)

(** A step that keeps the schema and lets the database only evolve; it uses up verdicts and
    random numbers in order, and the clock is not its to set. *)
Record step_safe (w w' : World) : Prop := {
  step_wf : db_wf (db w');
  step_evolves : evolves (db w) (db w');
  step_clock : server_now w' = server_now w;
  step_verdicts : verdicts w' `suffix_of` verdicts w;
  step_drawn : (drawn w ≤ drawn w')%nat;
}.

Definition safe {E A} (c : M World E A) : Prop :=
  ∀ w r w', c w = (r, w') → db_wf (db w) → step_safe w w'.

(** Within a transaction, the same of the published database and of the working copy. *)
Record tx_inv (w0 : World) (t : Tx) : Prop := {
  tx_step : step_safe w0 (world t);
  tx_working_wf : db_wf (working t);
  tx_working_evolves : evolves (db (world t)) (working t);
}.

Definition tx_safe {E A} (c : M Tx E A) : Prop :=
  ∀ w0 t r t', c t = (r, t') → tx_inv w0 t → tx_inv w0 t'.

(** A computation that fails without losing the answer of a commit leaves the database alone. *)
Definition atomic {E A} (c : M World E A) : Prop :=
  ∀ w e w', c w = (Err e, w') → db_wf (db w) → AnswerLost ∉ verdicts w → db w' = db w.

(** Within a transaction: nothing is published, or nothing is published on failure. *)
Definition unpublished {E A} (c : M Tx E A) : Prop :=
  ∀ t r t', c t = (r, t') → db (world t') = db (world t) ∧
    verdicts (world t') `suffix_of` verdicts (world t).

Definition tx_atomic {E A} (c : M Tx E A) : Prop :=
  ∀ t e t', c t = (Err e, t') → AnswerLost ∉ verdicts (world t) → db (world t') = db (world t).

(** A pure fault-free world: every round trip is delivered. *)
Definition calm (w : World) : Prop := verdicts w = [].

(** ** Lemmas *)

Lemma next_verdict_spec w v w' :
  next_verdict w = (v, w') →
  db w' = db w ∧ server_now w' = server_now w ∧ drawn w' = drawn w ∧
  verdicts w' `suffix_of` verdicts w ∧ (v = AnswerLost → AnswerLost ∈ verdicts w).
Proof.
  unfold next_verdict. destruct (verdicts w) as [|u vs] eqn:Hv; intros [= <- <-]; simpl.
  - split_and!; try done. by rewrite Hv.
  - split_and!; try done; [by exists [u]|]. intros ->. apply list_elem_of_here.
Qed.

Lemma calm_next w : calm w → next_verdict w = (Delivered, w).
Proof. unfold next_verdict. by intros ->. Qed.

Lemma step_safe_refl w : db_wf (db w) → step_safe w w.
Proof. by constructor. Qed.

Lemma step_safe_trans w1 w2 w3 : step_safe w1 w2 → step_safe w2 w3 → step_safe w1 w3.
Proof.
  intros [] []. constructor; [done|by etransitivity|congruence|by etransitivity|lia].
Qed.

(** A step that leaves the database as it was. *)
Lemma step_safe_idle w w' :
  db w' = db w → server_now w' = server_now w → verdicts w' `suffix_of` verdicts w →
  (drawn w ≤ drawn w')%nat → db_wf (db w) → step_safe w w'.
Proof. intros Hd ? ? ? ?. constructor; rewrite ?Hd; done. Qed.

Lemma next_verdict_safe w v w' : next_verdict w = (v, w') → db_wf (db w) → step_safe w w'.
Proof.
  intros (? & ? & Hd & ? & _)%next_verdict_spec ?. apply step_safe_idle; try done. by rewrite Hd.
Qed.

Lemma with_db_safe w d : db_wf d → evolves (db w) d → step_safe w (with_db d w).
Proof. by constructor. Qed.

Create HintDb store discriminated.

Section lemmas.
Context {E : Type}.

Lemma safe_ret {A} (a : A) : safe (ret (E := E) a).
Proof. intros w r w' [= <- <-]. apply step_safe_refl. Qed.

Lemma safe_throw {A} e : safe (A := A) (throw (E := E) e).
Proof. intros w r w' [= <- <-]. apply step_safe_refl. Qed.

Lemma safe_lift {A} (x : result A E) : safe (lift x).
Proof. intros w r w' [= <- <-]. apply step_safe_refl. Qed.

Lemma safe_bind {A B} (c : M World E A) (k : A → M World E B) :
  safe c → (∀ a, safe (k a)) → safe (bind c k).
Proof.
  intros Hc Hk w r w'. unfold bind. destruct (c w) as [[a|e] w1] eqn:E1.
  - intros E2 Hw. pose proof (Hc _ _ _ E1 Hw) as S1.
    apply (step_safe_trans _ w1); [done|]. apply (Hk a _ _ _ E2), S1.
  - intros [= <- <-] Hw. by eapply Hc.
Qed.

Lemma safe_draw {A} (f : nat → A) : safe (draw (E := E) f).
Proof. intros w r w' [= <- <-] ?. apply step_safe_idle; try done. simpl. lia. Qed.

Lemma tx_safe_ret {A} (a : A) : tx_safe (ret (E := E) a).
Proof. by intros w0 t r t' [= <- <-]. Qed.

Lemma tx_safe_throw {A} e : tx_safe (A := A) (throw (E := E) e).
Proof. by intros w0 t r t' [= <- <-]. Qed.

Lemma tx_safe_lift {A} (x : result A E) : tx_safe (lift x).
Proof. by intros w0 t r t' [= <- <-]. Qed.

Lemma tx_safe_bind {A B} (c : M Tx E A) (k : A → M Tx E B) :
  tx_safe c → (∀ a, tx_safe (k a)) → tx_safe (bind c k).
Proof.
  intros Hc Hk w0 t r t'. unfold bind. destruct (c t) as [[a|e] t1] eqn:E1.
  - intros E2 Hi. eapply Hk; [exact E2|]. by eapply Hc.
  - intros [= <- <-]. by eapply Hc.
Qed.

Lemma tx_safe_draw {A} (f : nat → A) : tx_safe (tx_draw (E := E) f).
Proof.
  intros w0 t r t' [= <- <-] [Hs Hw He]. constructor; simpl; [|done..].
  apply (step_safe_trans _ (world t)); [done|]. destruct Hs. apply step_safe_idle; try done.
  simpl. lia.
Qed.

Lemma unpublished_ret {A} (a : A) : unpublished (ret (E := E) a).
Proof. by intros t r t' [= <- <-]. Qed.

Lemma unpublished_throw {A} e : unpublished (A := A) (throw (E := E) e).
Proof. by intros t r t' [= <- <-]. Qed.

Lemma unpublished_lift {A} (x : result A E) : unpublished (lift x).
Proof. by intros t r t' [= <- <-]. Qed.

Lemma unpublished_draw {A} (f : nat → A) : unpublished (tx_draw (E := E) f).
Proof. by intros t r t' [= <- <-]. Qed.

Lemma unpublished_bind {A B} (c : M Tx E A) (k : A → M Tx E B) :
  unpublished c → (∀ a, unpublished (k a)) → unpublished (bind c k).
Proof.
  intros Hc Hk t r t'. unfold bind. destruct (c t) as [[a|e] t1] eqn:E1.
  - intros E2. destruct (Hc _ _ _ E1) as [D1 V1], (Hk a _ _ _ E2) as [D2 V2].
    split; [congruence|by etransitivity].
  - intros [= <- <-]. by eapply Hc.
Qed.

Lemma suffix_not_elem (v : verdict) l k : l `suffix_of` k → v ∉ k → v ∉ l.
Proof. intros [p ->]. set_solver. Qed.

Lemma tx_atomic_bind {A B} (c : M Tx E A) (k : A → M Tx E B) :
  unpublished c → (∀ a, tx_atomic (k a)) → tx_atomic (bind c k).
Proof.
  intros Hc Hk t e t'. unfold bind. destruct (c t) as [[a|e'] t1] eqn:E1.
  - intros E2 Hv. destruct (Hc _ _ _ E1) as [D1 V1]. rewrite <- D1. apply (Hk a _ _ _ E2).
    by eapply suffix_not_elem.
  - intros [= -> <-] _. by eapply Hc.
Qed.

Lemma unpublished_atomic {A} (c : M Tx E A) : unpublished c → tx_atomic c.
Proof. intros Hc t e t' Hr _. by destruct (Hc _ _ _ Hr). Qed.

End lemmas.

(** *** Statements, commits and whole transactions *)

Section steps.
Context {A : Type}.

Lemma safe_pool (s : DateTime → statement A) :
  (∀ now, statement_safe (s now)) → safe (pool_execute s).
Proof.
  intros Hs w r w'. unfold pool_execute. destruct (next_verdict w) as [v w1] eqn:Hv.
  intros Hr Hw. pose proof (next_verdict_safe _ _ _ Hv Hw) as S1.
  apply (step_safe_trans _ w1); [done|].
  assert (∀ a d, s (server_now w1) (db w1) = Ok (a, d) → step_safe w1 (with_db d w1)) as Hd.
  { intros a d Hd. destruct (Hs _ _ _ _ Hd); [apply S1|]. by apply with_db_safe. }
  pose proof (step_safe_refl w1 (step_wf _ _ S1)) as Hrefl.
  destruct v; [destruct (s _ _) as [[a d]|e] eqn:Hq| |destruct (s _ _) as [[a d]|e] eqn:Hq];
    injection Hr as <- <-; eauto.
Qed.

Lemma safe_err_with (f : SqlxError → AuthError) (c : M World SqlxError A) :
  safe c → safe (err_with f c).
Proof.
  intros Hc w r w'. unfold err_with. destruct (c w) as [r1 w1] eqn:E1. intros [= <- <-].
  by eapply Hc.
Qed.

Lemma tx_safe_execute (s : DateTime → statement A) :
  (∀ now, statement_safe (s now)) → tx_safe (tx_execute s).
Proof.
  intros Hs w0 t r t'. unfold tx_execute. destruct (next_verdict (world t)) as [v w1] eqn:Hv.
  intros Hr [S0 Hw He]. pose proof (next_verdict_safe _ _ _ Hv (step_wf _ _ S0)) as S1.
  pose proof (step_safe_trans _ _ _ S0 S1) as S2.
  assert (db w1 = db (world t)) as Hd by by apply next_verdict_spec in Hv as [? _].
  destruct v; [destruct (s _ _) as [[a d]|e] eqn:Hq| |]; injection Hr as <- <-;
    constructor; simpl; rewrite ?Hd; try done; destruct (Hs _ _ _ _ Hq); try done.
  by etransitivity.
Qed.

Lemma tx_safe_err_with (f : SqlxError → AuthError) (c : M Tx SqlxError A) :
  tx_safe c → tx_safe (err_with f c).
Proof.
  intros Hc w0 t r t'. unfold err_with. destruct (c t) as [r1 t1] eqn:E1. intros [= <- <-].
  by eapply Hc.
Qed.

Lemma tx_safe_commit : tx_safe commit.
Proof.
  intros w0 t r t'. unfold commit. destruct (next_verdict (world t)) as [v w1] eqn:Hv.
  intros Hr [S0 Hw He]. pose proof (next_verdict_safe _ _ _ Hv (step_wf _ _ S0)) as S1.
  pose proof (step_safe_trans _ _ _ S0 S1) as S2.
  assert (db w1 = db (world t)) as Hd by by apply next_verdict_spec in Hv as [? _].
  assert (step_safe w0 (with_db (working t) w1)) as S3.
  { apply (step_safe_trans _ w1); [done|]. apply with_db_safe; [done|]. by rewrite Hd. }
  destruct v; injection Hr as <- <-; constructor; simpl; rewrite ?Hd; done.
Qed.

Lemma unpublished_execute (s : DateTime → statement A) : unpublished (tx_execute s).
Proof.
  intros t r t'. unfold tx_execute. destruct (next_verdict (world t)) as [v w1] eqn:Hv.
  apply next_verdict_spec in Hv as (D & _ & _ & V & _).
  destruct v; [destruct (s _ _) as [[a d]|e]| |]; by intros [= <- <-].
Qed.

Lemma unpublished_err_with (f : SqlxError → AuthError) (c : M Tx SqlxError A) :
  unpublished c → unpublished (err_with f c).
Proof.
  intros Hc t r t'. unfold err_with. destruct (c t) as [r1 t1] eqn:E1. intros [= <- <-].
  by eapply Hc.
Qed.

Lemma tx_atomic_commit f : tx_atomic (err_with f commit).
Proof.
  intros t e t'. unfold err_with, commit. destruct (next_verdict (world t)) as [v w1] eqn:Hv.
  apply next_verdict_spec in Hv as (D & _ & _ & V & L).
  destruct v; simpl; intros [= <- <-] Hn; [done|]. destruct Hn. auto.
Qed.

Lemma safe_transaction (body : M Tx AuthError A) : tx_safe body → safe (transaction body).
Proof.
  intros Hb w r w'. unfold transaction. destruct (next_verdict w) as [v w1] eqn:Hv.
  intros Hr Hw. pose proof (next_verdict_safe _ _ _ Hv Hw) as S1.
  destruct v; [|by injection Hr as <- <-..].
  destruct (body _) as [r1 t] eqn:Hbody. injection Hr as <- <-.
  apply (Hb w _ _ _ Hbody). constructor; simpl; [done|apply S1|done].
Qed.

Lemma atomic_transaction (body : M Tx AuthError A) : tx_atomic body → atomic (transaction body).
Proof.
  intros Hb w e w'. unfold transaction. destruct (next_verdict w) as [v w1] eqn:Hv.
  apply next_verdict_spec in Hv as (D & _ & _ & V & _).
  destruct v; [|by intros [= <- <-]..].
  destruct (body _) as [r1 t] eqn:Hbody. intros [= -> <-] _ Hn.
  rewrite (Hb _ _ _ Hbody); [done|]. by eapply suffix_not_elem.
Qed.

Lemma atomic_pool (f : SqlxError → AuthError) (s : DateTime → statement A) :
  atomic (err_with f (pool_execute s)).
Proof.
  intros w e w'. unfold err_with, pool_execute. destruct (next_verdict w) as [v w1] eqn:Hv.
  apply next_verdict_spec in Hv as (D & _ & _ & V & L).
  destruct v; [destruct (s _ _) as [[a d]|e']| |destruct (s _ _) as [[a d]|e']];
    simpl; intros [= <- <-] _ Hn; try done; destruct Hn; auto.
Qed.

End steps.

#[export] Hint Resolve safe_ret safe_throw safe_lift safe_draw safe_bind safe_pool safe_err_with
  safe_transaction tx_safe_ret tx_safe_throw tx_safe_lift tx_safe_draw tx_safe_bind
  tx_safe_execute tx_safe_err_with tx_safe_commit
  unpublished_ret unpublished_throw unpublished_lift unpublished_draw unpublished_bind
  unpublished_execute unpublished_err_with tx_atomic_commit atomic_transaction atomic_pool : store.
