(* ===== verification/PgStore.v ===== *)
(** * PgStore: the PostgreSQL store ([server/src/repository.rs])

    Every operation of [impl AuthStore for PgAuthStore], statement by statement: its rows and
    their conversions, its SQL as functions on the tables, its guards, and the commit at its end.
    One fact of the driver is a parameter: whether it decodes an [INT4] column as [i64]. *)
From S2P Require Export PgDriver.

(** ** Rows and their conversions *)

Definition role_name (role : Role) : string :=
  match role with RoleUser => "user" | RoleOperator => "operator" end.

Definition parse_role (role : string) : result Role AuthError :=
  if String.eqb role "user" then Ok RoleUser
  else if String.eqb role "operator" then Ok RoleOperator
  else Err Store.

Definition purpose_name (purpose : CapabilityPurpose) : string :=
  match purpose with
  | Setup => "setup"
  | RecoverySetup => "recovery_setup"
  | OperatorRecoveryPurpose => "operator_recovery"
  end.

Definition parse_purpose (value : string) : result CapabilityPurpose AuthError :=
  if String.eqb value "setup" then Ok Setup
  else if String.eqb value "recovery_setup" then Ok RecoverySetup
  else if String.eqb value "operator_recovery" then Ok OperatorRecoveryPurpose
  else Err Store.

Definition ceremony_name (kind : CeremonyKind) : string :=
  match kind with
  | Registration => "registration"
  | Authentication => "authentication"
  | OperatorBootstrap => "operator_bootstrap"
  | OperatorRecovery => "operator_recovery"
  end.

Definition parse_ceremony_kind (value : string) : result CeremonyKind AuthError :=
  if String.eqb value "registration" then Ok Registration
  else if String.eqb value "authentication" then Ok Authentication
  else if String.eqb value "operator_bootstrap" then Ok OperatorBootstrap
  else if String.eqb value "operator_recovery" then Ok OperatorRecovery
  else Err Store.

Definition user_id_of (id : string) : result UserId AuthError :=
  map_err (λ _, Store) (UserId.new id).

Module UserRow.
Record t := mk {
  id : string;
  webauthn_handle : Uuid;
  email : string;
  display_name : string;
  role : string;
  enabled : bool;
  auth_epoch : Z;
}.
(** The columns the statements select. *)
Definition columns (u : string * HumanUser.t) : t :=
  mk u.1 (HumanUser.webauthn_handle u.2) (HumanUser.email u.2) (HumanUser.display_name u.2)
    (HumanUser.role u.2) (HumanUser.enabled u.2) (HumanUser.auth_epoch u.2).
Definition try_into (row : t) : result User AuthError :=
  try? id := user_id_of (id row) in
  try? role := parse_role (role row) in
  Ok (User.mk id (webauthn_handle row) (email row) (display_name row) role (enabled row)
        (auth_epoch row)).
End UserRow.

Module CredentialRow.
Record t := mk {
  id : Uuid;
  user_id : string;
  credential_id : string;
  public_data : Value;
  revoked_at : option DateTime;
}.
Definition columns (c : Uuid * PasskeyCredential.t) : t :=
  mk c.1 (PasskeyCredential.user_id c.2) (PasskeyCredential.credential_id c.2)
    (PasskeyCredential.public_data c.2) (PasskeyCredential.revoked_at c.2).
Definition try_into (row : t) : result StoredCredential AuthError :=
  try? user := user_id_of (user_id row) in
  Ok (StoredCredential.mk (id row) user (credential_id row) (public_data row) (revoked_at row)).
End CredentialRow.

Module CapabilityRow.
Record t := mk {
  id : Uuid;
  user_id : string;
  purpose : string;
  token_hash : string;
  expires_at : DateTime;
}.
Definition columns (c : Uuid * AuthCapability.t) : t :=
  mk c.1 (AuthCapability.user_id c.2) (AuthCapability.purpose c.2) (AuthCapability.token_hash c.2)
    (AuthCapability.expires_at c.2).
Definition try_into (row : t) : result Capability AuthError :=
  try? user := user_id_of (user_id row) in
  try? purpose := parse_purpose (purpose row) in
  try? token_hash := SecretHash.from_slice (token_hash row) in
  Ok (Capability.mk (id row) user purpose token_hash (expires_at row)).
End CapabilityRow.

Module CeremonyRow.
Record t := mk {
  id : Uuid;
  kind : string;
  user_id : option string;
  capability_hash : option string;
  state : Value;
  expires_at : DateTime;
}.
Definition columns (c : Uuid * AuthCeremony.t) : t :=
  mk c.1 (AuthCeremony.kind c.2) (AuthCeremony.user_id c.2) (AuthCeremony.capability_hash c.2)
    (AuthCeremony.state c.2) (AuthCeremony.expires_at c.2).
Definition try_into (row : t) : result Ceremony AuthError :=
  try? kind := parse_ceremony_kind (kind row) in
  try? user := transpose (user_id_of <$> user_id row) in
  try? hash := transpose (SecretHash.from_slice <$> capability_hash row) in
  Ok (Ceremony.mk (id row) kind user hash (state row) (expires_at row)).
End CeremonyRow.

Module RecoveryRow.
Record t := mk {
  id : Uuid;
  user_id : string;
  requested_at : DateTime;
  approved_at : option DateTime;
}.
Definition columns (r : Uuid * Recovery.t) : t :=
  mk r.1 (Recovery.user_id r.2) (Recovery.requested_at r.2) (Recovery.approved_at r.2).
Definition try_into (row : t) : result RecoveryRequest AuthError :=
  try? user := user_id_of (user_id row) in
  Ok (RecoveryRequest.mk (id row) user (requested_at row) (approved_at row)).
End RecoveryRow.

(** The [SessionRow] of [session] and of [rotate_session_csrf] (which does not select
    [csrf_hash]). *)
Module SessionRow.
Record t := mk {
  session_id : Uuid;
  csrf_hash : string;
  absolute_expires_at : DateTime;
  user : UserRow.t;
}.
End SessionRow.

(** ** Statements *)

(** A statement that only reads. *)
Definition select {A} (f : Db → A) : DateTime → statement A := λ _ db, Ok (f db, db).

Definition is_null {A} (o : option A) : bool := match o with None => true | Some _ => false end.

Definition row_is_operator (u : HumanUser.t) : bool := bool_decide (HumanUser.role u = "operator").

(** Some active credential of some operator. *)
Definition active_operator_credential (db : Db) (_ : Uuid) (c : PasskeyCredential.t) : bool :=
  match human_users db !! PasskeyCredential.user_id c with
  | Some u => row_is_operator u && is_null (PasskeyCredential.revoked_at c)
  | None => false
  end.

Definition live_ceremony (id : Uuid) (now : DateTime) (k : Uuid) (c : AuthCeremony.t) : bool :=
  (k =? id) && is_null (AuthCeremony.consumed_at c) && (now <? AuthCeremony.expires_at c).

Definition live_capability (hash : SecretHash) (now : DateTime) (_ : Uuid) (c : AuthCapability.t) : bool :=
  bool_decide (AuthCapability.token_hash c = SecretHash.as_bytes hash)
  && is_null (AuthCapability.consumed_at c) && (now <? AuthCapability.expires_at c).

(** The join and the [WHERE] of the two session queries. *)
Definition live_session (db : Db) (hash : SecretHash) (now : DateTime) (_ : Uuid) (s : AuthSession.t) : bool :=
  bool_decide (AuthSession.token_hash s = SecretHash.as_bytes hash)
  && is_null (AuthSession.revoked_at s)
  && (now <? AuthSession.idle_expires_at s) && (now <? AuthSession.absolute_expires_at s)
  && match human_users db !! AuthSession.user_id s with
     | Some u => HumanUser.enabled u && (AuthSession.auth_epoch s =? HumanUser.auth_epoch u)
     | None => false
     end.

Definition session_row (db : Db) (r : Uuid * AuthSession.t) : option SessionRow.t :=
  u ← human_users db !! AuthSession.user_id r.2;
  Some (SessionRow.mk r.1 (AuthSession.csrf_hash r.2) (AuthSession.absolute_expires_at r.2)
          (UserRow.columns (AuthSession.user_id r.2, u))).

Definition select_session (hash : SecretHash) (now : DateTime) : DateTime → statement (option SessionRow.t) :=
  select (λ db, head (rows_where (live_session db hash now) (auth_sessions db)) ≫= session_row db).

(** [UPDATE human_users SET auth_epoch = auth_epoch + 1, updated_at = now WHERE P]. *)
Definition bump_epoch (now : DateTime) (u : HumanUser.t) : HumanUser.t :=
  HumanUser.mk (HumanUser.webauthn_handle u) (HumanUser.email u) (HumanUser.display_name u)
    (HumanUser.role u) (HumanUser.enabled u) (HumanUser.auth_epoch u + 1) (HumanUser.created_at u) now.

Definition update_epochs (P : string → HumanUser.t → bool) (now : DateTime)
    : DateTime → statement (list (string * HumanUser.t)) := λ _ db,
  let rows := rows_where P (human_users db) in
  if existsb (λ r, I64_MAX <? HumanUser.auth_epoch r.2 + 1) rows then Err OutOfRange
  else Ok (rows, set_users (update_where P (bump_epoch now) (human_users db)) db).

(** [UPDATE auth_sessions SET revoked_at = at WHERE P AND revoked_at IS NULL]. *)
Definition revoke_session (at_ : DateTime) (s : AuthSession.t) : AuthSession.t :=
  AuthSession.mk (AuthSession.user_id s) (AuthSession.token_hash s) (AuthSession.csrf_hash s)
    (AuthSession.auth_epoch s) (AuthSession.idle_expires_at s) (AuthSession.absolute_expires_at s)
    (AuthSession.created_at s) (AuthSession.last_seen_at s) (Some at_).

Definition revoke_sessions (P : AuthSession.t → bool) (at_ : DateTime) : statement nat := λ db,
  let Q := λ _ s, P s && is_null (AuthSession.revoked_at s) in
  Ok (length (rows_where Q (auth_sessions db)),
      set_sessions (update_where Q (revoke_session at_) (auth_sessions db)) db).

(** [UPDATE auth_ceremonies SET consumed_at = at WHERE P AND consumed_at IS NULL]. *)
Definition consume_ceremony (at_ : DateTime) (c : AuthCeremony.t) : AuthCeremony.t :=
  AuthCeremony.mk (AuthCeremony.kind c) (AuthCeremony.user_id c) (AuthCeremony.capability_hash c)
    (AuthCeremony.state c) (AuthCeremony.expires_at c) (Some at_) (AuthCeremony.created_at c).

Definition consume_ceremonies (P : Uuid → AuthCeremony.t → bool) (at_ : DateTime)
    : statement (list (Uuid * AuthCeremony.t)) := λ db,
  let Q := λ k c, P k c && is_null (AuthCeremony.consumed_at c) in
  Ok (rows_where Q (auth_ceremonies db),
      set_ceremonies (update_where Q (consume_ceremony at_) (auth_ceremonies db)) db).

(** [UPDATE auth_capabilities SET consumed_at = at WHERE P AND consumed_at IS NULL]. *)
Definition consume_capability (at_ : DateTime) (c : AuthCapability.t) : AuthCapability.t :=
  AuthCapability.mk (AuthCapability.user_id c) (AuthCapability.purpose c) (AuthCapability.token_hash c)
    (AuthCapability.expires_at c) (Some at_) (AuthCapability.created_at c).

Definition consume_capabilities (P : Uuid → AuthCapability.t → bool) (at_ : DateTime) : statement nat := λ db,
  let Q := λ k c, P k c && is_null (AuthCapability.consumed_at c) in
  Ok (length (rows_where Q (auth_capabilities db)),
      set_capabilities (update_where Q (consume_capability at_) (auth_capabilities db)) db).

(** [UPDATE recovery_requests SET completed_at = at WHERE ...]: the issued recoveries of the subject
    ([user_id = NULL] selects nothing). *)
Definition complete_recovery (at_ : DateTime) (r : Recovery.t) : Recovery.t :=
  Recovery.mk (Recovery.user_id r) (Recovery.requested_at r) (Recovery.approved_at r)
    (Recovery.approved_by r) (Recovery.setup_issued_at r) (Some at_).

Definition complete_recoveries (subject : option string) (at_ : DateTime) : statement unit := λ db,
  let P := λ (_ : Uuid) r, bool_decide (Some (Recovery.user_id r) = subject)
    && negb (is_null (Recovery.approved_at r)) && negb (is_null (Recovery.setup_issued_at r))
    && is_null (Recovery.completed_at r) in
  Ok (tt, set_recoveries (update_where P (complete_recovery at_) (recovery_requests db)) db).

(** [UPDATE recovery_requests SET approved_at, approved_by ... RETURNING user_id]. *)
Definition set_approved (operator_id : string) (at_ : DateTime) (r : Recovery.t) : Recovery.t :=
  Recovery.mk (Recovery.user_id r) (Recovery.requested_at r) (Some at_) (Some operator_id)
    (Recovery.setup_issued_at r) (Recovery.completed_at r).

Definition mark_approved (id : Uuid) (operator_id : string) (at_ : DateTime)
    : statement (option string) := λ db,
  let P := λ k r, (k =? id) && is_null (Recovery.approved_at r) && is_null (Recovery.completed_at r) in
  match head (rows_where P (recovery_requests db)) with
  | None => Ok (None, db)
  | Some (_, r) =>
      if user_exists operator_id db
      then Ok (Some (Recovery.user_id r),
               set_recoveries (update_where P (set_approved operator_id at_) (recovery_requests db)) db)
      else Err ForeignKeyViolation
  end.

(** [UPDATE recovery_requests SET setup_issued_at ...] and the number of rows. *)
Definition set_issued (at_ : DateTime) (r : Recovery.t) : Recovery.t :=
  Recovery.mk (Recovery.user_id r) (Recovery.requested_at r) (Recovery.approved_at r)
    (Recovery.approved_by r) (Some at_) (Recovery.completed_at r).

Definition mark_issued (id : Uuid) (user_id : string) (at_ : DateTime) : statement nat := λ db,
  let P := λ k r, (k =? id) && negb (is_null (Recovery.approved_at r))
    && is_null (Recovery.setup_issued_at r) && is_null (Recovery.completed_at r)
    && bool_decide (Recovery.user_id r = user_id) in
  Ok (length (rows_where P (recovery_requests db)),
      set_recoveries (update_where P (set_issued at_) (recovery_requests db)) db).

(** [UPDATE passkey_credentials SET public_data, last_used_at ...] and the number of rows. *)
Definition set_used (data : Value) (at_ : DateTime) (c : PasskeyCredential.t) : PasskeyCredential.t :=
  PasskeyCredential.mk (PasskeyCredential.user_id c) (PasskeyCredential.credential_id c) data
    (PasskeyCredential.created_at c) (Some at_) (PasskeyCredential.revoked_at c).

Definition use_credential (user_id credential_id : string) (data : Value) (at_ : DateTime)
    : statement nat := λ db,
  let P := λ (_ : Uuid) c, bool_decide (PasskeyCredential.user_id c = user_id)
    && bool_decide (PasskeyCredential.credential_id c = credential_id)
    && is_null (PasskeyCredential.revoked_at c) in
  Ok (length (rows_where P (passkey_credentials db)),
      set_credentials (update_where P (set_used data at_) (passkey_credentials db)) db).

(** [UPDATE passkey_credentials c SET revoked_at ... FROM human_users u ... RETURNING c.user_id]. *)
Definition set_revoked (at_ : DateTime) (c : PasskeyCredential.t) : PasskeyCredential.t :=
  PasskeyCredential.mk (PasskeyCredential.user_id c) (PasskeyCredential.credential_id c)
    (PasskeyCredential.public_data c) (PasskeyCredential.created_at c)
    (PasskeyCredential.last_used_at c) (Some at_).

Definition revoke_operator_credential (id : Uuid) (at_ : DateTime) : statement (option string) := λ db,
  let P := λ k c, (k =? id) && active_operator_credential db k c in
  Ok ((λ c, PasskeyCredential.user_id c.2) <$> head (rows_where P (passkey_credentials db)),
      set_credentials (update_where P (set_revoked at_) (passkey_credentials db)) db).

(** [UPDATE auth_sessions SET (csrf_hash,) idle_expires_at, last_seen_at WHERE id = $1]. *)
Definition set_seen (csrf : option SecretHash) (idle at_ : DateTime) (s : AuthSession.t) : AuthSession.t :=
  AuthSession.mk (AuthSession.user_id s) (AuthSession.token_hash s)
    (match csrf with Some h => SecretHash.as_bytes h | None => AuthSession.csrf_hash s end)
    (AuthSession.auth_epoch s) idle (AuthSession.absolute_expires_at s) (AuthSession.created_at s)
    at_ (AuthSession.revoked_at s).

Definition touch_session (id : Uuid) (csrf : option SecretHash) (idle at_ : DateTime) : statement unit := λ db,
  if match csrf with Some h => hash_ok (SecretHash.as_bytes h) | None => true end
  then Ok (tt, set_sessions (update_where (λ k _, k =? id) (set_seen csrf idle at_) (auth_sessions db)) db)
  else Err CheckViolation.

(** The [INSERT INTO human_users] of [insert_user] and [approve_user_with_setup]. *)
Definition insert_user_sql (user : User) (now : DateTime) : DateTime → statement unit := λ _,
  insert_human_user (UserId.as_str (User.id user))
    (HumanUser.mk (User.webauthn_handle user) (User.email user) (User.display_name user)
       (role_name (User.role user)) (User.enabled user) (User.auth_epoch user) now now).

(** The [INSERT INTO auth_capabilities]; [created_at] is the server's [now()]. *)
Definition insert_capability_sql (c : Capability) : DateTime → statement unit := λ server_now,
  insert_auth_capability (Capability.id c)
    (AuthCapability.mk (UserId.as_str (Capability.user_id c)) (purpose_name (Capability.purpose c))
       (SecretHash.as_bytes (Capability.token_hash c)) (Capability.expires_at c) None server_now).

(** ** Operations *)

Definition insert_audit (event : AuditEvent) (now : DateTime) : M Tx AuthError unit :=
  store_err (tx_execute (λ _, insert_auth_audit_event
    (AuditRow.mk now (AuditEvent.event_type event)
       (UserId.as_str <$> AuditEvent.actor_user_id event)
       (UserId.as_str <$> AuditEvent.subject_user_id event) (AuditEvent.data event)))).

(** [match result { Ok(_) => {} Err(Database) if constraint => Conflict, Err(_) => Store }]. *)
Definition conflict_on_constraint (e : SqlxError) : AuthError :=
  if has_constraint e then Conflict else Store.
Definition conflict_on_unique (e : SqlxError) : AuthError :=
  if is_unique_violation e then Conflict else Store.

Definition invalidate_user_auth (user_id : string) (now : DateTime) : M Tx AuthError unit :=
  do! store_err (tx_execute (update_epochs (λ k _, bool_decide (k = user_id)) now)) in
  do! store_err (tx_execute (λ _, revoke_sessions
        (λ s, bool_decide (AuthSession.user_id s = user_id)) now)) in
  do! store_err (tx_execute (λ _, consume_ceremonies
        (λ _ c, bool_decide (AuthCeremony.user_id c = Some user_id)) now)) in
  do! store_err (tx_execute (λ _, consume_capabilities
        (λ _ c, bool_decide (AuthCapability.user_id c = user_id)) now)) in
  ret tt.

Module PgAuthStore.

(** [SELECT 1], for the readiness probe. *)
Definition ready : M World AuthError bool := λ w,
  let (r, w) := pool_execute (select (λ _, tt)) w in (Ok (is_ok r), w).

Definition user_by_id (id : UserId) : M World AuthError (option User) :=
  let! row := store_err (pool_execute (select (λ db,
    (λ u, UserRow.columns (UserId.as_str id, u)) <$> human_users db !! UserId.as_str id))) in
  lift (transpose (UserRow.try_into <$> row)).

Definition user_by_handle (handle : Uuid) : M World AuthError (option User) :=
  let! row := store_err (pool_execute (select (λ db,
    UserRow.columns <$> head (rows_where (λ _ u, HumanUser.webauthn_handle u =? handle) (human_users db))))) in
  lift (transpose (UserRow.try_into <$> row)).

Definition credentials_for_user (user_id : UserId) : M World AuthError (list StoredCredential) :=
  let! rows := store_err (pool_execute (select (λ db,
    CredentialRow.columns <$> order_by PasskeyCredential.created_at
      (rows_where (λ _ c, bool_decide (PasskeyCredential.user_id c = UserId.as_str user_id)
                          && is_null (PasskeyCredential.revoked_at c)) (passkey_credentials db))))) in
  lift (collect (CredentialRow.try_into <$> rows)).

Definition operator_without_credential : M World AuthError (option User) :=
  let! row := store_err (pool_execute (select (λ db,
    UserRow.columns <$> head (order_by HumanUser.created_at
      (rows_where (λ _ u, row_is_operator u && HumanUser.enabled u
         && negb (exists_row (active_operator_credential db) (passkey_credentials db)))
       (human_users db)))))) in
  lift (transpose (UserRow.try_into <$> row)).

Definition operator_exists : M World AuthError bool :=
  store_err (pool_execute (select (λ db, exists_row (λ _ u, row_is_operator u) (human_users db)))).

(** [ORDER BY c.created_at DESC LIMIT 1]. *)
Definition operator_recovery_window (now : DateTime) : M World AuthError (option (User * SecretHash)) :=
  let! row := store_err (pool_execute (select (λ db,
    c ← head (order_by (λ c, - AuthCapability.created_at c)
      (rows_where (λ _ c, bool_decide (AuthCapability.purpose c = "operator_recovery")
         && is_null (AuthCapability.consumed_at c) && (now <? AuthCapability.expires_at c)
         && match human_users db !! AuthCapability.user_id c with
            | Some u => row_is_operator u && HumanUser.enabled u
            | None => false
            end) (auth_capabilities db)));
    u ← human_users db !! AuthCapability.user_id c.2;
    Some (UserRow.columns (AuthCapability.user_id c.2, u), AuthCapability.token_hash c.2)))) in
  lift (transpose ((λ '(user_row, token_hash),
    try? hash := SecretHash.from_slice token_hash in
    try? user := UserRow.try_into user_row in
    Ok (user, hash)) <$> row)).

Definition capability (hash : SecretHash) (purpose : CapabilityPurpose) (now : DateTime)
    : M World AuthError (option Capability) :=
  let! row := store_err (pool_execute (select (λ db,
    CapabilityRow.columns <$> head (rows_where (λ k c, live_capability hash now k c
      && bool_decide (AuthCapability.purpose c = purpose_name purpose)) (auth_capabilities db))))) in
  lift (transpose (CapabilityRow.try_into <$> row)).

Definition insert_capability (c : Capability) : M World AuthError unit :=
  store_err (pool_execute (insert_capability_sql c)).

Definition insert_user (user : User) (now : DateTime) (audit : AuditEvent) : M World AuthError unit :=
  transaction (
    do! err_with conflict_on_constraint (tx_execute (insert_user_sql user now)) in
    do! insert_audit audit now in
    store_err commit).

Definition approve_user_with_setup (user : User) (c : Capability) (operator_id : UserId)
    (now : DateTime) : M World AuthError unit :=
  transaction (
    do! err_with conflict_on_constraint (tx_execute (insert_user_sql user now)) in
    do! store_err (tx_execute (insert_capability_sql c)) in
    do! insert_audit (AuditEvent.mk "user.approved_with_setup" (Some operator_id) (Some (User.id user))
          (Object [("capability_id", Str (uuid_text (Capability.id c)))])) now in
    store_err commit).

(** [RETURNING 1] is an [INT4] column; [int4_as_i64] says whether the driver decodes it as the
    [i64] the code asks for. *)
Definition rotate_all_auth_epochs (int4_as_i64 : bool) (now : DateTime) (reason : string)
    : M World AuthError Z :=
  transaction (
    let! users := store_err (
      let! rows := tx_execute (update_epochs (λ _ _, true) now) in
      match rows with
      | [] => ret rows
      | _ :: _ => if int4_as_i64 then ret rows else throw Driver
      end) in
    do! store_err (tx_execute (λ _, revoke_sessions (λ _, true) now)) in
    do! store_err (tx_execute (λ _, consume_ceremonies (λ _ _, true) now)) in
    do! store_err (tx_execute (λ _, consume_capabilities (λ _ _, true) now)) in
    do! insert_audit (AuditEvent.mk "auth.epoch_rotated_all" None None
          (Object [("reason", Str reason); ("users", Num (PosInt (Z.of_nat (length users))))])) now in
    do! store_err commit in
    ret (Z.of_nat (length users))).

Definition insert_ceremony (c : Ceremony) : M World AuthError unit :=
  store_err (pool_execute (λ server_now, insert_auth_ceremony (Ceremony.id c)
    (AuthCeremony.mk (ceremony_name (Ceremony.kind c)) (UserId.as_str <$> Ceremony.user_id c)
       (SecretHash.as_bytes <$> Ceremony.capability_hash c) (Ceremony.state c)
       (Ceremony.expires_at c) None server_now))).

Definition ceremony (id : Uuid) (kind : CeremonyKind) (now : DateTime)
    : M World AuthError (option Ceremony) :=
  let! row := store_err (pool_execute (select (λ db,
    CeremonyRow.columns <$> head (rows_where (λ k c, live_ceremony id now k c
      && bool_decide (AuthCeremony.kind c = ceremony_name kind)) (auth_ceremonies db))))) in
  lift (transpose (CeremonyRow.try_into <$> row)).

(** The blocks of [complete_registration]: [UPDATE auth_ceremonies ... RETURNING user_id, kind]
    read as a pair of texts (a null [user_id] does not decode), *)
Definition spend_ceremony (ceremony_id : Uuid) (now : DateTime) : M Tx AuthError (option (string * string)) :=
  store_err (
    let! rows := tx_execute (λ _, consume_ceremonies
      (λ k c, (k =? ceremony_id) && (now <? AuthCeremony.expires_at c)) now) in
    match head rows with
    | None => ret None
    | Some (_, c) =>
        match AuthCeremony.user_id c with
        | Some user_id => ret (Some (user_id, AuthCeremony.kind c))
        | None => throw Driver
        end
    end).

(** the refusal of a bootstrap when some operator has an active credential, *)
Definition bootstrap_guard (ceremony_kind : string) : M Tx AuthError unit :=
  if String.eqb ceremony_kind "operator_bootstrap" then
    let! operator_credentials := store_err (tx_execute (select (λ db,
      length (rows_where (active_operator_credential db) (passkey_credentials db))))) in
    if negb (operator_credentials =? 0)%nat then throw Conflict else ret tt
  else ret tt.

(** and the consumption of the capability, if the ceremony has one. *)
Definition spend_capability (capability_hash : option SecretHash) (now : DateTime) : M Tx AuthError unit :=
  match capability_hash with
  | Some hash =>
      let! consumed := store_err (tx_execute (λ _, consume_capabilities
        (λ _ c, bool_decide (AuthCapability.token_hash c = SecretHash.as_bytes hash)
                && (now <? AuthCapability.expires_at c)) now)) in
      if negb (consumed =? 1)%nat then throw InvalidState else ret tt
  | None => ret tt
  end.

(** The advisory lock serialises the operator bootstrap.  Here transactions are serial, and it is a
    round trip without effect; in [Concurrency.v] it excludes. *)
Definition complete_registration `{Entropy} (ceremony_id : Uuid) (capability_hash : option SecretHash)
    (credential : VerifiedCredential) (now : DateTime) (audit : AuditEvent) : M World AuthError unit :=
  transaction (
    do! store_err (tx_execute (select (λ _, tt))) in
    let! found := spend_ceremony ceremony_id now in
    let! (user_id, ceremony_kind) := lift (ok_or found InvalidState) in
    do! bootstrap_guard ceremony_kind in
    do! spend_capability capability_hash now in
    let! id := tx_draw uuid_at in
    do! err_with conflict_on_unique (tx_execute (λ _, insert_passkey_credential id
          (PasskeyCredential.mk user_id (VerifiedCredential.credential_id credential)
             (VerifiedCredential.public_data credential) now None None))) in
    do! store_err (tx_execute (λ _, complete_recoveries
          (UserId.as_str <$> AuditEvent.subject_user_id audit) now)) in
    do! insert_audit audit now in
    store_err commit).

Definition complete_authentication (ceremony_id : Uuid) (verification : AuthenticationVerification)
    (session : SessionRecord) (now : DateTime) (audit : AuditEvent) : M World AuthError unit :=
  transaction (
    let! consumed := store_err (tx_execute (λ _, consume_ceremonies
      (λ k c, (k =? ceremony_id) && bool_decide (AuthCeremony.kind c = "authentication")
              && (now <? AuthCeremony.expires_at c)) now)) in
    do! (if negb (length consumed =? 1)%nat then throw InvalidState else ret tt) in
    let! credential := store_err (tx_execute (λ _, use_credential
      (UserId.as_str (SessionRecord.user_id session))
      (AuthenticationVerification.credential_id verification)
      (AuthenticationVerification.updated_public_data verification) now)) in
    do! (if negb (credential =? 1)%nat then throw Unauthenticated else ret tt) in
    do! store_err (tx_execute (λ _, insert_auth_session (SessionRecord.id session)
          (AuthSession.mk (UserId.as_str (SessionRecord.user_id session))
             (SecretHash.as_bytes (SessionRecord.token_hash session))
             (SecretHash.as_bytes (SessionRecord.csrf_hash session))
             (SessionRecord.auth_epoch session) (SessionRecord.idle_expires_at session)
             (SessionRecord.absolute_expires_at session) now now None))) in
    do! insert_audit audit now in
    store_err commit).

Definition session (token_hash : SecretHash) (now idle_expires_at : DateTime)
    : M World AuthError (option SessionPrincipal) :=
  transaction (
    let! row := store_err (tx_execute (select_session token_hash now)) in
    match row with
    | None => do! store_err commit in ret None
    | Some row =>
        let bounded_idle := Z.min idle_expires_at (SessionRow.absolute_expires_at row) in
        do! store_err (tx_execute (λ _, touch_session (SessionRow.session_id row) None bounded_idle now)) in
        do! store_err commit in
        let! user := lift (UserRow.try_into (SessionRow.user row)) in
        let! csrf_hash := lift (SecretHash.from_slice (SessionRow.csrf_hash row)) in
        ret (Some (SessionPrincipal.mk (SessionRow.session_id row) user csrf_hash
                     (SessionRow.absolute_expires_at row)))
    end).

Definition rotate_session_csrf (token_hash csrf_hash : SecretHash) (now idle_expires_at : DateTime)
    : M World AuthError (option SessionPrincipal) :=
  transaction (
    let! row := store_err (tx_execute (select_session token_hash now)) in
    match row with
    | None => do! store_err commit in ret None
    | Some row =>
        let bounded_idle := Z.min idle_expires_at (SessionRow.absolute_expires_at row) in
        do! store_err (tx_execute (λ _, touch_session (SessionRow.session_id row)
              (Some csrf_hash) bounded_idle now)) in
        do! store_err commit in
        let! user := lift (UserRow.try_into (SessionRow.user row)) in
        ret (Some (SessionPrincipal.mk (SessionRow.session_id row) user csrf_hash
                     (SessionRow.absolute_expires_at row)))
    end).

(** [revoked_at = now()]: the server's clock. *)
Definition delete_session (token_hash : SecretHash) : M World AuthError unit :=
  do! store_err (pool_execute (revoke_sessions (λ s,
        bool_decide (AuthSession.token_hash s = SecretHash.as_bytes token_hash)))) in
  ret tt.

Definition create_recovery `{Entropy} (user_id : UserId) (now : DateTime)
    : M World AuthError RecoveryRequest :=
  let! id := draw uuid_at in
  do! err_with conflict_on_unique (pool_execute (λ _, insert_recovery_request id
        (Recovery.mk (UserId.as_str user_id) now None None None None))) in
  ret (RecoveryRequest.mk id user_id now None).

Definition pending_recoveries : M World AuthError (list RecoveryRequest) :=
  let! rows := store_err (pool_execute (select (λ db,
    RecoveryRow.columns <$> order_by Recovery.requested_at
      (rows_where (λ _ r, is_null (Recovery.completed_at r)) (recovery_requests db))))) in
  lift (collect (RecoveryRow.try_into <$> rows)).

Definition approve_recovery (recovery_id : Uuid) (operator_id : UserId) (now : DateTime)
    : M World AuthError unit :=
  transaction (
    let! found := store_err (tx_execute (λ _, mark_approved recovery_id
      (UserId.as_str operator_id) now)) in
    let! user_id := lift (ok_or found Conflict) in
    do! invalidate_user_auth user_id now in
    let! subject := lift (user_id_of user_id) in
    do! insert_audit (AuditEvent.mk "recovery.approved" (Some operator_id) (Some subject)
          (Object [("recovery_id", Str (uuid_text recovery_id))])) now in
    store_err commit).

Definition issue_recovery_setup (recovery_id : Uuid) (c : Capability) (operator_id : UserId)
    (now : DateTime) : M World AuthError unit :=
  transaction (
    let! issued := store_err (tx_execute (λ _, mark_issued recovery_id
      (UserId.as_str (Capability.user_id c)) now)) in
    do! (if negb (issued =? 1)%nat then throw Conflict else ret tt) in
    do! store_err (tx_execute (insert_capability_sql c)) in
    do! insert_audit (AuditEvent.mk "recovery.setup_issued" (Some operator_id)
          (Some (Capability.user_id c))
          (Object [("recovery_id", Str (uuid_text recovery_id))])) now in
    store_err commit).

Definition break_glass (credential_id : Uuid) (c : Capability) (now : DateTime) (reason : string)
    : M World AuthError unit :=
  transaction (
    let! found := store_err (tx_execute (λ _, revoke_operator_credential credential_id now)) in
    let! user_id := lift (ok_or found Conflict) in
    do! (if negb (String.eqb (UserId.as_str (Capability.user_id c)) user_id)
         then throw Forbidden else ret tt) in
    do! invalidate_user_auth user_id now in
    do! store_err (tx_execute (insert_capability_sql c)) in
    do! insert_audit (AuditEvent.mk "operator.break_glass_opened" None (Some (Capability.user_id c))
          (Object [("credential_id", Str (uuid_text credential_id)); ("reason", Str reason)])) now in
    store_err commit).

End PgAuthStore.

(** The store implements the interface. *)
#[export] Instance pg_auth_store `{Entropy} (int4_as_i64 : bool) : AuthStore World := {
  user_by_id := PgAuthStore.user_by_id;
  user_by_handle := PgAuthStore.user_by_handle;
  credentials_for_user := PgAuthStore.credentials_for_user;
  operator_without_credential := PgAuthStore.operator_without_credential;
  operator_exists := PgAuthStore.operator_exists;
  operator_recovery_window := PgAuthStore.operator_recovery_window;
  capability := PgAuthStore.capability;
  insert_capability := PgAuthStore.insert_capability;
  insert_user := PgAuthStore.insert_user;
  approve_user_with_setup := PgAuthStore.approve_user_with_setup;
  rotate_all_auth_epochs := PgAuthStore.rotate_all_auth_epochs int4_as_i64;
  insert_ceremony := PgAuthStore.insert_ceremony;
  ceremony := PgAuthStore.ceremony;
  complete_registration := PgAuthStore.complete_registration;
  complete_authentication := PgAuthStore.complete_authentication;
  session := PgAuthStore.session;
  rotate_session_csrf := PgAuthStore.rotate_session_csrf;
  delete_session := PgAuthStore.delete_session;
  create_recovery := PgAuthStore.create_recovery;
  pending_recoveries := PgAuthStore.pending_recoveries;
  approve_recovery := PgAuthStore.approve_recovery;
  issue_recovery_setup := PgAuthStore.issue_recovery_setup;
  break_glass := PgAuthStore.break_glass;
}.
