(* ===== verification/PgSafety.v ===== *)
(** * PgSafety: every store operation keeps the schema and the past, and is atomic

    The statements of [PgStore.v] are safe one by one; the operations are safe because they are
    built from them with the combinators of [PgDriver.v].  An execution is any sequence of
    operations by the program, and of clock changes and faults by the environment. *)
From S2P Require Export PgStore.

(** ** Updates of one table *)

Section updates.
Context (d : Db) (Hwf : db_wf d).

Lemma update_users_safe P f :
  (∀ u, user_evolves u (f u)) →
  (∀ u, HumanUser.role (f u) = HumanUser.role u) →
  let d' := set_users (update_where P f (human_users d)) d in
  db_wf d' ∧ evolves d d'.
Proof.
  intros Hf Hr d'.
  assert (table_evolves user_evolves (human_users d) (update_where P f (human_users d))) as He
    by (apply table_update; [apply _|auto]).
  split; [|by apply evolves_set_users]. apply wf_set_users; [done| |done].
  destruct (wf_users _ Hwf) as [? ? Hep ? ?]. constructor.
  - by apply forall_update.
  - apply forall_update; [|done]. intros k u _. by rewrite Hr.
  - apply forall_update; [|done]. intros k u _ ?. destruct (Hf u) as (_ & _ & _ & _ & ?). lia.
  - apply unique_update; [done| |done]. intros u. apply Hf.
  - apply unique_update; [done| |done]. intros u. apply Hf.
Qed.

Lemma update_credentials_safe P f :
  (∀ c, PasskeyCredential.user_id (f c) = PasskeyCredential.user_id c) →
  (∀ c, PasskeyCredential.credential_id (f c) = PasskeyCredential.credential_id c) →
  (∀ k c, P k c = true → sticky (PasskeyCredential.revoked_at c) (PasskeyCredential.revoked_at (f c))) →
  let d' := set_credentials (update_where P f (passkey_credentials d)) d in
  db_wf d' ∧ evolves d d'.
Proof.
  intros Hu Hc Hs d'. split.
  - apply wf_set_credentials; [done| |].
    + apply unique_update; [done..|]. by destruct Hwf.
    + apply forall_update; [|by destruct Hwf]. intros k c _. by rewrite Hu.
  - apply evolves_set_credentials, table_update; [apply _|].
    intros k c HP. unfold credential_evolves. split_and!; eauto.
Qed.

Lemma update_capabilities_safe P at_ :
  (∀ k c, P k c = true → AuthCapability.consumed_at c = None) →
  let d' := set_capabilities (update_where P (consume_capability at_) (auth_capabilities d)) d in
  db_wf d' ∧ evolves d d'.
Proof.
  intros HP d'. split.
  - apply wf_set_capabilities; [done| |].
    + destruct (wf_capabilities _ Hwf). constructor; [by apply forall_update..|].
      by apply unique_update.
    + apply forall_update; [done|by destruct Hwf].
  - apply evolves_set_capabilities, table_update; [apply _|].
    intros k c Hc%HP. unfold capability_evolves. split_and!; try done.
    rewrite Hc. apply sticky_None.
Qed.

Lemma update_ceremonies_safe P at_ :
  (∀ k c, P k c = true → AuthCeremony.consumed_at c = None) →
  let d' := set_ceremonies (update_where P (consume_ceremony at_) (auth_ceremonies d)) d in
  db_wf d' ∧ evolves d d'.
Proof.
  intros HP d'. split.
  - apply wf_set_ceremonies; [done| |].
    + destruct (wf_ceremonies _ Hwf). constructor; by apply forall_update.
    + apply forall_update; [done|by destruct Hwf].
  - apply evolves_set_ceremonies, table_update; [apply _|].
    intros k c Hc%HP. unfold ceremony_evolves. split_and!; try done.
    rewrite Hc. apply sticky_None.
Qed.

Lemma update_sessions_safe P f :
  (∀ s, AuthSession.user_id (f s) = AuthSession.user_id s) →
  (∀ s, AuthSession.token_hash (f s) = AuthSession.token_hash s) →
  (∀ s, len (AuthSession.csrf_hash s) = 32 → len (AuthSession.csrf_hash (f s)) = 32) →
  (∀ s, AuthSession.auth_epoch (f s) = AuthSession.auth_epoch s) →
  (∀ s, AuthSession.absolute_expires_at (f s) = AuthSession.absolute_expires_at s) →
  (∀ k s, P k s = true → sticky (AuthSession.revoked_at s) (AuthSession.revoked_at (f s))) →
  let d' := set_sessions (update_where P f (auth_sessions d)) d in
  db_wf d' ∧ evolves d d'.
Proof.
  intros Hu Ht Hc He Ha Hr d'. split.
  - apply wf_set_sessions; [done| |].
    + destruct (wf_sessions _ Hwf). constructor; [|by apply unique_update].
      apply forall_update; [|done]. intros k s _ [? ?]. rewrite Ht. auto.
    + apply forall_update; [|by destruct Hwf]. intros k s _. by rewrite Hu.
  - apply evolves_set_sessions, table_update; [apply _|].
    intros k s HP. unfold session_evolves. split_and!; eauto.
Qed.

Lemma update_recoveries_safe P f :
  (∀ r, Recovery.user_id (f r) = Recovery.user_id r) →
  (∀ r, pending (f r) = true → pending r = true) →
  (∀ r, references_opt (Recovery.approved_by r) d → references_opt (Recovery.approved_by (f r)) d) →
  (∀ k r, P k r = true → recovery_evolves r (f r)) →
  let d' := set_recoveries (update_where P f (recovery_requests d)) d in
  db_wf d' ∧ evolves d d'.
Proof.
  intros Hu Hp Ha He d'. split.
  - apply wf_set_recoveries; [done| |].
    + apply unique_update; [done..|]. by destruct Hwf.
    + apply forall_update; [|by destruct Hwf]. intros k r _ [? ?]. rewrite Hu. auto.
  - apply evolves_set_recoveries, table_update; [apply _|done].
Qed.

End updates.

(** ** Statements *)

Lemma is_null_true {A} (o : option A) : is_null o = true ↔ o = None.
Proof. by destruct o. Qed.

Lemma select_safe {A} (f : Db → A) now : statement_safe (select f now).
Proof. by intros d a d' [= <- <-]. Qed.

Lemma update_epochs_safe P now server_now : statement_safe (update_epochs P now server_now).
Proof.
  intros d a d'. unfold update_epochs. destruct (existsb _ _); [done|]. intros [= <- <-] Hwf.
  apply update_users_safe; [done| |done]. intros u. unfold user_evolves; simpl. split_and!; done || lia.
Qed.

Lemma revoke_sessions_safe P at_ : statement_safe (revoke_sessions P at_).
Proof.
  intros d a d' [= <- <-] Hwf. apply update_sessions_safe; try done.
  simpl. intros k s [_ ->%is_null_true]%andb_true_iff. apply sticky_None.
Qed.

Lemma consume_ceremonies_safe P at_ : statement_safe (consume_ceremonies P at_).
Proof.
  intros d a d' [= <- <-] Hwf. apply update_ceremonies_safe; [done|].
  by intros k c [_ ?%is_null_true]%andb_true_iff.
Qed.

Lemma consume_capabilities_safe P at_ : statement_safe (consume_capabilities P at_).
Proof.
  intros d a d' [= <- <-] Hwf. apply update_capabilities_safe; [done|].
  by intros k c [_ ?%is_null_true]%andb_true_iff.
Qed.

Lemma complete_recoveries_safe subject at_ : statement_safe (complete_recoveries subject at_).
Proof.
  intros d a d' [= <- <-] Hwf. apply update_recoveries_safe; try done.
  - intros r. unfold pending. simpl. by rewrite andb_false_r.
  - intros k r [_ Hc%is_null_true]%andb_true_iff. unfold recovery_evolves. split_and!; try done.
    rewrite Hc. apply sticky_None.
Qed.

Lemma mark_approved_safe id operator_id at_ : statement_safe (mark_approved id operator_id at_).
Proof.
  intros d a d'. unfold mark_approved. destruct (head _) as [[k r]|]; [|by intros [= <- <-]].
  destruct (user_exists _ _) eqn:Hu; [|done]. intros [= <- <-] Hwf.
  apply user_exists_iff in Hu. apply update_recoveries_safe; try done.
  - simpl. by intros _ _ u [= <-].
  - intros k' r' [[_ Ha%is_null_true]%andb_true_iff _]%andb_true_iff. unfold recovery_evolves. split_and!; try done.
    rewrite Ha. apply sticky_None.
Qed.

Lemma mark_issued_safe id user_id at_ : statement_safe (mark_issued id user_id at_).
Proof.
  intros d a d' [= <- <-] Hwf. apply update_recoveries_safe; try done.
  intros k r HP. bool_prop. unfold recovery_evolves. split_and!; try done.
  match goal with H : is_null (Recovery.setup_issued_at _) = true |- _ => apply is_null_true in H as Hi end.
  rewrite Hi. apply sticky_None.
Qed.

Lemma use_credential_safe user_id credential_id data at_ :
  statement_safe (use_credential user_id credential_id data at_).
Proof. intros d a d' [= <- <-] Hwf. by apply update_credentials_safe. Qed.

Lemma revoke_operator_credential_safe id at_ : statement_safe (revoke_operator_credential id at_).
Proof.
  intros d a d' [= <- <-] Hwf. apply update_credentials_safe; try done.
  unfold active_operator_credential. intros k c [_ Hr]%andb_true_iff.
  destruct (human_users d !! _); [|done]. apply andb_true_iff in Hr as [_ ->%is_null_true].
  apply sticky_None.
Qed.

Lemma touch_session_safe id csrf idle at_ : statement_safe (touch_session id csrf idle at_).
Proof.
  intros d a d'. unfold touch_session.
  destruct csrf as [h|]; [destruct (hash_ok _) eqn:Hh; [|done]; apply hash_ok_iff in Hh|];
    intros [= <- <-] Hwf; by apply update_sessions_safe.
Qed.

Lemma insert_user_sql_safe user now server_now :
  UserId.valid (User.id user) → statement_safe (insert_user_sql user now server_now).
Proof. intros. by apply insert_human_user_safe. Qed.

Lemma insert_capability_sql_safe c server_now : statement_safe (insert_capability_sql c server_now).
Proof. apply insert_auth_capability_safe. Qed.

#[export] Hint Resolve select_safe update_epochs_safe revoke_sessions_safe consume_ceremonies_safe
  consume_capabilities_safe complete_recoveries_safe mark_approved_safe mark_issued_safe
  use_credential_safe revoke_operator_credential_safe touch_session_safe insert_user_sql_safe
  insert_capability_sql_safe insert_passkey_credential_safe insert_auth_ceremony_safe
  insert_auth_session_safe insert_recovery_request_safe insert_auth_audit_event_safe : store.

(** ** Operations *)

Create HintDb store_ops discriminated.

(** Follows the structure of an operation: binds, matches and branches. *)
Ltac follow :=
  repeat match goal with
  | |- safe (bind _ _) => apply safe_bind; [|intros ?]
  | |- tx_safe (bind _ _) => apply tx_safe_bind; [|intros ?]
  | |- unpublished (bind _ _) => apply unpublished_bind; [|intros ?]
  | |- safe (store_err _) => apply safe_err_with
  | |- tx_safe (store_err _) => apply tx_safe_err_with
  | |- unpublished (store_err _) => apply unpublished_err_with
  | |- safe (err_with _ _) => apply safe_err_with
  | |- tx_safe (err_with _ _) => apply tx_safe_err_with
  | |- unpublished (err_with _ _) => apply unpublished_err_with
  | |- safe (transaction _) => apply safe_transaction
  | |- tx_safe (tx_execute _) => apply tx_safe_execute; intros ?
  | |- safe (pool_execute _) => apply safe_pool; intros ?
  | |- _ (match ?x with _ => _ end) => destruct x
  | |- _ (if ?x then _ else _) => destruct x
  end; eauto with store.

Lemma insert_audit_tx_safe event now : tx_safe (insert_audit event now).
Proof. unfold insert_audit. follow. Qed.

Lemma insert_audit_unpublished event now : unpublished (insert_audit event now).
Proof. unfold insert_audit. follow. Qed.

Lemma invalidate_tx_safe user_id now : tx_safe (invalidate_user_auth user_id now).
Proof. unfold invalidate_user_auth. follow. Qed.

Lemma invalidate_unpublished user_id now : unpublished (invalidate_user_auth user_id now).
Proof. unfold invalidate_user_auth. follow. Qed.

#[export] Hint Resolve insert_audit_tx_safe insert_audit_unpublished invalidate_tx_safe
  invalidate_unpublished : store.

#[export] Hint Unfold
  PgAuthStore.user_by_id PgAuthStore.user_by_handle PgAuthStore.credentials_for_user
  PgAuthStore.operator_without_credential PgAuthStore.operator_exists
  PgAuthStore.operator_recovery_window PgAuthStore.capability PgAuthStore.insert_capability
  PgAuthStore.insert_user PgAuthStore.approve_user_with_setup PgAuthStore.rotate_all_auth_epochs
  PgAuthStore.insert_ceremony PgAuthStore.ceremony PgAuthStore.complete_registration
  PgAuthStore.complete_authentication PgAuthStore.session PgAuthStore.rotate_session_csrf
  PgAuthStore.delete_session PgAuthStore.create_recovery PgAuthStore.pending_recoveries
  PgAuthStore.approve_recovery PgAuthStore.issue_recovery_setup PgAuthStore.break_glass : store_ops.

#[export] Hint Unfold PgAuthStore.spend_ceremony PgAuthStore.bootstrap_guard
  PgAuthStore.spend_capability : store_ops.

(** The calls of the interface, with their arguments. *)
Inductive store_call :=
| UserById (id : UserId)
| UserByHandle (handle : Uuid)
| CredentialsForUser (id : UserId)
| OperatorWithoutCredential
| OperatorExists
| OperatorRecoveryWindow (now : DateTime)
| GetCapability (hash : SecretHash) (purpose : CapabilityPurpose) (now : DateTime)
| InsertCapability (c : Capability)
| InsertUser (user : User) (now : DateTime) (audit : AuditEvent)
| ApproveUserWithSetup (user : User) (c : Capability) (operator_id : UserId) (now : DateTime)
| RotateAllAuthEpochs (now : DateTime) (reason : string)
| InsertCeremony (c : Ceremony)
| GetCeremony (id : Uuid) (kind : CeremonyKind) (now : DateTime)
| CompleteRegistration (id : Uuid) (hash : option SecretHash) (credential : VerifiedCredential)
    (now : DateTime) (audit : AuditEvent)
| CompleteAuthentication (id : Uuid) (v : AuthenticationVerification) (s : SessionRecord)
    (now : DateTime) (audit : AuditEvent)
| GetSession (hash : SecretHash) (now idle : DateTime)
| RotateSessionCsrf (hash csrf : SecretHash) (now idle : DateTime)
| DeleteSession (hash : SecretHash)
| CreateRecovery (id : UserId) (now : DateTime)
| PendingRecoveries
| ApproveRecovery (id : Uuid) (operator_id : UserId) (now : DateTime)
| IssueRecoverySetup (id : Uuid) (c : Capability) (operator_id : UserId) (now : DateTime)
| BreakGlass (id : Uuid) (c : Capability) (now : DateTime) (reason : string).

(** What the type [UserId] guarantees of the arguments. *)
Definition call_valid (c : store_call) : Prop :=
  match c with
  | InsertUser user _ _ | ApproveUserWithSetup user _ _ _ => UserId.valid (User.id user)
  | _ => True
  end.

Definition forget {A} (c : M World AuthError A) : M World AuthError unit := do! c in ret tt.

Section calls.
Context `{Entropy} (int4_as_i64 : bool).

Definition perform (c : store_call) : M World AuthError unit :=
  match c with
  | UserById id => forget (PgAuthStore.user_by_id id)
  | UserByHandle handle => forget (PgAuthStore.user_by_handle handle)
  | CredentialsForUser id => forget (PgAuthStore.credentials_for_user id)
  | OperatorWithoutCredential => forget PgAuthStore.operator_without_credential
  | OperatorExists => forget PgAuthStore.operator_exists
  | OperatorRecoveryWindow now => forget (PgAuthStore.operator_recovery_window now)
  | GetCapability hash purpose now => forget (PgAuthStore.capability hash purpose now)
  | InsertCapability c => PgAuthStore.insert_capability c
  | InsertUser user now audit => PgAuthStore.insert_user user now audit
  | ApproveUserWithSetup user c op now => PgAuthStore.approve_user_with_setup user c op now
  | RotateAllAuthEpochs now reason =>
      forget (PgAuthStore.rotate_all_auth_epochs int4_as_i64 now reason)
  | InsertCeremony c => PgAuthStore.insert_ceremony c
  | GetCeremony id kind now => forget (PgAuthStore.ceremony id kind now)
  | CompleteRegistration id hash credential now audit =>
      PgAuthStore.complete_registration id hash credential now audit
  | CompleteAuthentication id v s now audit =>
      PgAuthStore.complete_authentication id v s now audit
  | GetSession hash now idle => forget (PgAuthStore.session hash now idle)
  | RotateSessionCsrf hash csrf now idle =>
      forget (PgAuthStore.rotate_session_csrf hash csrf now idle)
  | DeleteSession hash => PgAuthStore.delete_session hash
  | CreateRecovery id now => forget (PgAuthStore.create_recovery id now)
  | PendingRecoveries => forget PgAuthStore.pending_recoveries
  | ApproveRecovery id op now => PgAuthStore.approve_recovery id op now
  | IssueRecoverySetup id c op now => PgAuthStore.issue_recovery_setup id c op now
  | BreakGlass id c now reason => PgAuthStore.break_glass id c now reason
  end.

Lemma perform_safe c : call_valid c → safe (perform c).
Proof.
  intros Hv. destruct c; simpl in *; unfold forget;
    autounfold with store_ops; follow.
Qed.

End calls.

(** ** Rows of a well-formed database convert *)

Lemma parse_role_known role : role = "user" ∨ role = "operator" → ∃ r, parse_role role = Ok r.
Proof. intros [-> | ->]; by eexists. Qed.

Lemma user_id_of_valid id : valid_opaque_id id = true → user_id_of id = Ok (UserId.mk id).
Proof. unfold user_id_of, UserId.new. by intros ->. Qed.

(** The account a row describes. *)
Definition account_of (id : string) (u : HumanUser.t) : User :=
  User.mk (UserId.mk id) (HumanUser.webauthn_handle u) (HumanUser.email u) (HumanUser.display_name u)
    (if row_is_operator u then RoleOperator else RoleUser) (HumanUser.enabled u) (HumanUser.auth_epoch u).

Lemma user_row_converts d id u :
  db_wf d → human_users d !! id = Some u → UserRow.try_into (UserRow.columns (id, u)) = Ok (account_of id u).
Proof.
  intros [Hu _ _ _ _ _ _ _ _ _ _ _] Hl. unfold UserRow.try_into, account_of, row_is_operator. simpl.
  rewrite user_id_of_valid by (by apply (users_id _ Hu _ _ Hl)). simpl.
  by destruct (users_role _ Hu _ _ Hl) as [-> | ->].
Qed.

Lemma references_valid d id : db_wf d → references id d → valid_opaque_id id = true.
Proof. intros Hd [u Hu]. by apply (users_id _ (wf_users _ Hd) _ _ Hu). Qed.

Lemma session_row_converts d k s row :
  db_wf d → auth_sessions d !! k = Some s → session_row d (k, s) = Some row →
  ∃ u, human_users d !! AuthSession.user_id s = Some u ∧
       UserRow.try_into (SessionRow.user row) = Ok (account_of (AuthSession.user_id s) u) ∧
       SecretHash.from_slice (SessionRow.csrf_hash row) = Ok (SecretHash.mk (AuthSession.csrf_hash s)) ∧
       SessionRow.session_id row = k ∧
       SessionRow.absolute_expires_at row = AuthSession.absolute_expires_at s.
Proof.
  intros Hd Hs. unfold session_row. simpl.
  destruct (human_users d !! _) as [u|] eqn:Hu; [|done]. intros [= <-]. exists u. simpl.
  split_and!; try done.
  - by apply (user_row_converts d).
  - unfold SecretHash.from_slice. destruct (sessions_length _ (wf_sessions _ Hd) _ _ Hs) as [_ ->]. done.
Qed.

(** The row [select_session] gives is a live session's. *)
Lemma select_session_row d hash now row :
  (head (rows_where (live_session d hash now) (auth_sessions d)) ≫= session_row d) = Some row →
  ∃ k s, auth_sessions d !! k = Some s ∧ live_session d hash now k s = true ∧
         session_row d (k, s) = Some row.
Proof.
  destruct (rows_where _ _) as [|[k s] l] eqn:Hr; [done|]. simpl. intros Hrow.
  assert ((k, s) ∈ rows_where (live_session d hash now) (auth_sessions d)) as Hin
    by (rewrite Hr; apply list_elem_of_here).
  apply elem_of_rows_where in Hin as [? ?]. eauto.
Qed.

(** ** Atomicity *)

Definition total {W E A} (c : M W E A) : Prop := ∀ w e w', c w ≠ (Err e, w').

Definition readonly {E A} (c : M World E A) : Prop :=
  ∀ w r w', c w = (r, w') → db w' = db w ∧ verdicts w' `suffix_of` verdicts w.

Section atomicity.
Context {E : Type}.

Lemma total_ret {W A} (a : A) : total (W := W) (ret (E := E) a).
Proof. by intros w e w'. Qed.

Lemma total_lift {W A} (a : A) : total (W := W) (lift (Ok (E := E) a)).
Proof. by intros w e w'. Qed.

Lemma total_bind {W A B} (c : M W E A) (k : A → M W E B) :
  total c → (∀ a, total (k a)) → total (bind c k).
Proof.
  intros Hc Hk w e w'. unfold bind. destruct (c w) as [[a|e'] w1] eqn:E1; [apply Hk|].
  intros [= -> ->]. by apply Hc in E1.
Qed.

Lemma tx_atomic_then {A B} (c : M Tx E A) (k : A → M Tx E B) :
  tx_atomic c → (∀ a, total (k a)) → tx_atomic (bind c k).
Proof.
  intros Hc Hk t e t'. unfold bind. destruct (c t) as [[a|e'] t1] eqn:E1.
  - intros E2. by apply Hk in E2.
  - intros [= -> <-]. by eapply Hc.
Qed.

Lemma atomic_then {A B} (c : M World E A) (k : A → M World E B) :
  atomic c → (∀ a, total (k a)) → atomic (bind c k).
Proof.
  intros Hc Hk w e w'. unfold bind. destruct (c w) as [[a|e'] w1] eqn:E1.
  - intros E2. by apply Hk in E2.
  - intros [= -> <-]. by eapply Hc.
Qed.

Lemma readonly_bind {A B} (c : M World E A) (k : A → M World E B) :
  readonly c → (∀ a, readonly (k a)) → readonly (bind c k).
Proof.
  intros Hc Hk w r w'. unfold bind. destruct (c w) as [[a|e] w1] eqn:E1.
  - intros E2. destruct (Hc _ _ _ E1) as [D1 V1], (Hk a _ _ _ E2) as [D2 V2].
    split; [congruence|by etransitivity].
  - intros [= <- <-]. by eapply Hc.
Qed.

Lemma readonly_atomic {A} (c : M World E A) : readonly c → atomic c.
Proof. intros Hc w e w' Hr _ _. by destruct (Hc _ _ _ Hr). Qed.

Lemma atomic_after {A B} (c : M World E A) (k : A → M World E B) :
  readonly c → (∀ a, atomic (k a)) → atomic (bind c k).
Proof.
  intros Hc Hk w e w'. unfold bind. destruct (c w) as [[a|e'] w1] eqn:E1.
  - intros E2 Hw Hn. destruct (Hc _ _ _ E1) as [D1 V1]. rewrite <- D1.
    apply (Hk a _ _ _ E2); [by rewrite D1|by eapply suffix_not_elem].
  - intros [= -> <-] _ _. by destruct (Hc _ _ _ E1).
Qed.

Lemma readonly_lift {A} (x : result A E) : readonly (lift x).
Proof. by intros w r w' [= <- <-]. Qed.

Lemma readonly_ret {A} (a : A) : readonly (ret (E := E) a).
Proof. by intros w r w' [= <- <-]. Qed.

Lemma readonly_draw {A} (f : nat → A) : readonly (draw (E := E) f).
Proof. by intros w r w' [= <- <-]. Qed.

End atomicity.

Lemma readonly_select {A} (f : Db → A) e : readonly (err_with e (pool_execute (select f))).
Proof.
  intros w r w'. unfold err_with, pool_execute. destruct (next_verdict w) as [v w1] eqn:Hv.
  apply next_verdict_spec in Hv as (D & _ & _ & V & _).
  destruct v; intros [= <- <-]; by rewrite <- D.
Qed.

Lemma atomic_transaction_select {A B} (f : Db → A) (k : A → M Tx AuthError B) :
  (∀ d, db_wf d → tx_atomic (k (f d))) →
  atomic (transaction (let! row := store_err (tx_execute (select f)) in k row)).
Proof.
  intros Hk w e w'. unfold transaction. destruct (next_verdict w) as [v w1] eqn:Hv.
  apply next_verdict_spec in Hv as (D & _ & _ & V & _).
  destruct v; [|by intros [= <- <-]..].
  unfold bind, store_err, err_with, tx_execute. simpl.
  destruct (next_verdict w1) as [v2 w2] eqn:Hv2.
  apply next_verdict_spec in Hv2 as (D2 & _ & _ & V2 & _).
  destruct v2; simpl; [|intros [= <- <-]; congruence..].
  destruct (k _ _) as [r t] eqn:Hr. intros [= -> <-] Hw Hn.
  rewrite (Hk (db w1) ltac:(by rewrite D) _ _ _ Hr); simpl; [congruence|].
  eapply suffix_not_elem; [|exact Hn]. by etransitivity.
Qed.

Ltac follow_atomic :=
  repeat match goal with
  | |- atomic (forget _) => apply atomic_then; [|intros ?; apply total_ret]
  | |- atomic (transaction _) => apply atomic_transaction
  | |- atomic (bind (draw _) _) => apply atomic_after; [apply readonly_draw|intros ?]
  | |- atomic (bind (store_err (pool_execute (select _))) _) =>
      apply atomic_after; [apply readonly_select|intros ?]
  | |- atomic (bind _ (λ _, ret _)) => apply atomic_then; [|intros ?; apply total_ret]
  | |- atomic (lift _) => apply readonly_atomic, readonly_lift
  | |- atomic (store_err (pool_execute _)) => apply atomic_pool
  | |- atomic (err_with _ (pool_execute _)) => apply atomic_pool
  | |- tx_atomic (store_err commit) => apply tx_atomic_commit
  | |- tx_atomic (bind (store_err commit) _) =>
      apply tx_atomic_then; [apply tx_atomic_commit|intros ?]
  | |- tx_atomic (bind _ _) => apply tx_atomic_bind; [solve [follow]|intros ?]
  | |- tx_atomic (let (_, _) := ?x in _) => destruct x
  end; eauto using total_ret.

Lemma session_atomic hash now idle : atomic (PgAuthStore.session hash now idle).
Proof.
  unfold PgAuthStore.session, select_session. apply atomic_transaction_select. intros d Hd.
  destruct (_ ≫= _) as [row|] eqn:Hr; [|follow_atomic].
  apply select_session_row in Hr as (k & s & Hs & _ & Hrow).
  destruct (session_row_converts d k s row Hd Hs Hrow) as (u & _ & -> & -> & _).
  follow_atomic. repeat (apply total_bind; [apply total_lift|intros ?]). apply total_ret.
Qed.

Lemma rotate_session_csrf_atomic hash csrf now idle :
  atomic (PgAuthStore.rotate_session_csrf hash csrf now idle).
Proof.
  unfold PgAuthStore.rotate_session_csrf, select_session. apply atomic_transaction_select. intros d Hd.
  destruct (_ ≫= _) as [row|] eqn:Hr; [|follow_atomic].
  apply select_session_row in Hr as (k & s & Hs & _ & Hrow).
  destruct (session_row_converts d k s row Hd Hs Hrow) as (u & _ & -> & _).
  follow_atomic. apply total_bind; [apply total_lift|intros ?]. apply total_ret.
Qed.

Lemma perform_atomic `{Entropy} b c : atomic (perform b c).
Proof.
  destruct c; simpl; unfold forget;
    try (apply atomic_then; [|intros ?; apply total_ret]);
    try apply session_atomic; try apply rotate_session_csrf_atomic;
    autounfold with store_ops; follow_atomic.
Qed.

(** ** Executions *)

Section executions.
Context `{Entropy} (int4_as_i64 : bool).

(** The program calls the store; the environment sets the clock and the faults to come. *)
Inductive step : World → World → Prop :=
| step_call c r w w' : call_valid c → perform int4_as_i64 c w = (r, w') → step w w'
| step_environment w now vs : step w (mkWorld (db w) now vs (drawn w)).

Lemma step_keeps w w' : step w w' → db_wf (db w) → db_wf (db w') ∧ evolves (db w) (db w').
Proof.
  intros [c r w1 w2 Hv Hr|w1 now vs] Hw; [|done].
  destruct (perform_safe int4_as_i64 c Hv _ _ _ Hr Hw). done.
Qed.

Lemma steps_keep w w' : rtc step w w' → db_wf (db w) → db_wf (db w') ∧ evolves (db w) (db w').
Proof.
  induction 1 as [w|w w1 w' Hs _ IH]; intros Hw; [done|].
  destruct (step_keeps _ _ Hs Hw) as [Hw1 He1], (IH Hw1) as [Hw2 He2].
  split; [done|by etransitivity].
Qed.

Lemma empty_db_wf : db_wf empty_db.
Proof.
  constructor; simpl;
    first [ apply map_Forall_empty | by intros e He%not_elem_of_nil | by intros k1 k2 v1 v2 Hk
          | constructor; first [apply map_Forall_empty | by intros k1 k2 v1 v2 Hk] ].
Qed.

(** ** Properties *)

(** From the empty database, whatever operations are called in whatever order, with whatever
    faults of the connection and moves of the server's clock between them, every reachable
    database satisfies the schema, and between any two moments of an execution nothing of the
    past is undone: no row disappears, epochs never decrease, what is consumed, revoked,
    approved, issued or completed stays so at its first instant, sessions keep their owner, token,
    epoch and absolute expiry, and the audit trail is only appended to. *)
Theorem store_keeps_schema_and_history w0 w w' :
  db w0 = empty_db → rtc step w0 w → rtc step w w' →
  db_wf (db w) ∧ db_wf (db w') ∧ evolves (db w) (db w').
Proof.
  intros H0 H1 H2. destruct (steps_keep _ _ H1) as [Hw _]; [rewrite H0; apply empty_db_wf|].
  by destruct (steps_keep _ _ H2 Hw).
Qed.

(** C21: every operation of the store is atomic: when it answers with an error, the database is
    exactly as it was, whichever statement failed and why, unless the server executed the
    statement or commit and only its answer was lost. *)
Theorem store_operations_atomic c w e w' :
  db_wf (db w) → AnswerLost ∉ verdicts w →
  perform int4_as_i64 c w = (Err e, w') → db w' = db w.
Proof. intros Hw Hn Hr. by eapply perform_atomic. Qed.

End executions.

(** ** Witnesses *)

Definition sample_entropy : Entropy :=
  Build_Entropy (λ n, Z.of_nat n) (λ n, SecretToken.mk (from_bytes (replicate 32 (char (Z.of_nat n))))).

Definition sample_operator : User :=
  User.mk (UserId.mk "operator-1") 7 "ops@example.org" "Operator" RoleOperator true 1.

Definition seeded_event : AuditEvent :=
  AuditEvent.mk "operator.seeded" None (Some (UserId.mk "operator-1")) (Object []).

Definition initial_world : World := mkWorld empty_db 0 [] 0.

Lemma store_keeps_schema_and_history_witness :
  ∃ w w', rtc (step (H := sample_entropy) false) initial_world w ∧
    rtc (step (H := sample_entropy) false) w w' ∧
    length (auth_audit_events (db w)) = 1%nat ∧
    db_wf (db w') ∧ auth_audit_events (db w) `prefix_of` auth_audit_events (db w').
Proof.
  pose (c := InsertUser sample_operator 10 seeded_event).
  pose (w := (perform (H := sample_entropy) false c initial_world).2).
  pose (w' := (perform (H := sample_entropy) false (CreateRecovery (UserId.mk "operator-1") 20) w).2).
  assert (rtc (step (H := sample_entropy) false) initial_world w) as H1.
  { apply rtc_once. eapply (step_call _ c); [done|by apply surjective_pairing]. }
  assert (rtc (step (H := sample_entropy) false) w w') as H2.
  { apply rtc_once. eapply (step_call _ (CreateRecovery (UserId.mk "operator-1") 20));
      [done|by apply surjective_pairing]. }
  exists w, w'. split; [exact H1|]. split; [exact H2|]. split; [by vm_compute|].
  destruct (store_keeps_schema_and_history (H := sample_entropy) false initial_world w w' eq_refl H1 H2)
    as (_ & Hw & He).
  split; [exact Hw|apply He].
Defined.

(** The second insertion of the operator is refused, and the third statement of another
    transaction is lost before it executes: neither changes anything. *)
Lemma store_operations_atomic_witness :
  let w := (perform (H := sample_entropy) false (InsertUser sample_operator 10 seeded_event) initial_world).2 in
  let wf := mkWorld (db w) 0 [Delivered; Delivered; NotExecuted] 0 in
  (∃ w', perform (H := sample_entropy) false (InsertUser sample_operator 11 seeded_event) w =
           (Err Conflict, w') ∧ db w' = db w) ∧
  (∃ w', perform (H := sample_entropy) false
           (InsertUser (User.mk (UserId.mk "u") 8 "u@example.org" "U" RoleUser true 1) 11 seeded_event) wf =
           (Err Store, w') ∧ db w' = db w).
Proof.
  intros w wf.
  assert (db_wf (db w)) as Hw.
  { eapply (steps_keep (H := sample_entropy) false initial_world); [|apply empty_db_wf].
    apply rtc_once. eapply (step_call _ (InsertUser sample_operator 10 seeded_event));
      [done|by apply surjective_pairing]. }
  split; eexists; (split; [vm_compute; reflexivity|]).
  - apply (store_operations_atomic (H := sample_entropy) false (InsertUser sample_operator 11 seeded_event)
             w Conflict); [exact Hw|apply not_elem_of_nil|vm_compute; reflexivity].
  - apply (store_operations_atomic (H := sample_entropy) false
             (InsertUser (User.mk (UserId.mk "u") 8 "u@example.org" "U" RoleUser true 1) 11 seeded_event)
             wf Store); [exact Hw|by apply (bool_decide_eq_true_1 _); vm_compute|vm_compute; reflexivity].
Defined.
