(* ===== verification/StoreTypes.v ===== *)
(** * StoreTypes: what the calls of the PostgreSQL store answer, and the errors they raise

    Rust's newtypes are validated where they are made, so a value the store hands out is one its
    row's conversion accepted, whatever the table holds.  [typed] is the effect of a computation:
    what its answer satisfies and which errors it may raise. *)
From S2P Require Export PgSafety.

(** ** The effect of a computation *)

Section typed.
Context {W : Type} {A B : Type}.

Definition typed {A} (errors : list AuthError) (P : A → Prop) (c : M W AuthError A) : Prop :=
  ∀ w r w', c w = (r, w') → match r with Ok a => P a | Err e => e ∈ errors end.

Lemma typed_bind errors (Q : A → Prop) (P : B → Prop) (c : M W AuthError A) (k : A → M W AuthError B) :
  typed errors Q c → (∀ a, Q a → typed errors P (k a)) → typed errors P (bind c k).
Proof.
  intros Hc Hk w r w'. unfold bind. destruct (c w) as [[a|e] w1] eqn:E1; pose proof (Hc _ _ _ E1).
  - by apply Hk.
  - by intros [= <- _].
Qed.

Lemma typed_ret errors (P : A → Prop) a : P a → typed errors P (ret a).
Proof. by intros Ha w r w' [= <- _]. Qed.
Lemma typed_throw errors (P : A → Prop) e : e ∈ errors → typed errors P (throw e).
Proof. by intros He w r w' [= <- _]. Qed.
Lemma typed_lift errors (P : A → Prop) (x : result A AuthError) :
  match x with Ok a => P a | Err e => e ∈ errors end → typed errors P (lift x).
Proof. by intros Hx w r w' [= <- _]. Qed.
Lemma typed_total errors (P : A → Prop) (f : W → A * W) :
  (∀ w, P (f w).1) → typed errors P (λ w, let (a, w) := f w in (Ok a, w)).
Proof. intros HP w r w'. pose proof (HP w). destruct (f w). by intros [= <- _]. Qed.

Lemma typed_err_with errors (f : SqlxError → AuthError) (c : M W SqlxError A) :
  (∀ e, f e ∈ errors) → typed errors (λ _, True) (err_with f c).
Proof.
  intros Hf w r w'. unfold err_with. destruct (c w) as [[a|e] w1]; simpl; intros [= <- _]; [done|apply Hf].
Qed.

End typed.

Lemma typed_draw {A} errors (f : nat → A) : typed errors (λ _, True) (draw f).
Proof. by intros w r w' [= <- _]. Qed.
Lemma typed_tx_draw {A} errors (f : nat → A) : typed errors (λ _, True) (tx_draw f).
Proof. by intros w r w' [= <- _]. Qed.

Lemma typed_transaction {A} errors (P : A → Prop) (body : M Tx AuthError A) :
  Store ∈ errors → typed errors P body → typed errors P (transaction body).
Proof.
  intros Hs Hb w r w'. unfold transaction. destruct (next_verdict w) as [v w1].
  destruct v; [|by intros [= <- _]..]. destruct (body _) as [r1 t] eqn:E1. intros [= <- _].
  apply (Hb _ _ _ E1).
Qed.

Lemma conflict_on_constraint_typed (errors : list AuthError) :
  Store ∈ errors → Conflict ∈ errors → ∀ e, conflict_on_constraint e ∈ errors.
Proof. intros ? ? e. unfold conflict_on_constraint. by destruct (has_constraint e). Qed.
Lemma conflict_on_unique_typed (errors : list AuthError) :
  Store ∈ errors → Conflict ∈ errors → ∀ e, conflict_on_unique e ∈ errors.
Proof. intros ? ? e. unfold conflict_on_unique. by destruct (is_unique_violation e). Qed.

(** ** Rows *)

Definition user_typed (u : User) : Prop := UserId.valid (User.id u).
Definition credential_typed (c : StoredCredential) : Prop := UserId.valid (StoredCredential.user_id c).
Definition capability_typed (c : Capability) : Prop :=
  UserId.valid (Capability.user_id c) ∧ SecretHash.valid (Capability.token_hash c).
Definition ceremony_typed (c : Ceremony) : Prop :=
  (∀ u, Ceremony.user_id c = Some u → UserId.valid u) ∧
  (∀ h, Ceremony.capability_hash c = Some h → SecretHash.valid h).
Definition recovery_typed (r : RecoveryRequest) : Prop := UserId.valid (RecoveryRequest.user_id r).
Definition principal_typed (p : SessionPrincipal) : Prop :=
  user_typed (SessionPrincipal.user p) ∧ SecretHash.valid (SessionPrincipal.csrf_hash p).

(** A conversion: what it accepts is typed, and all it raises is a store error. *)
Definition converts {A} (P : A → Prop) (x : result A AuthError) : Prop :=
  match x with Ok a => P a | Err e => e = Store end.

Lemma user_id_of_converts s : converts UserId.valid (user_id_of s).
Proof. unfold user_id_of, UserId.new. by destruct (valid_opaque_id s) eqn:Hs. Qed.
Lemma from_slice_converts s : converts SecretHash.valid (SecretHash.from_slice s).
Proof.
  unfold SecretHash.from_slice, SecretHash.valid. by destruct (len s =? 32) eqn:Hs; [apply Z.eqb_eq in Hs|].
Qed.
Lemma parse_role_converts s : converts (λ _, True) (parse_role s).
Proof. unfold parse_role. repeat case_match; done. Qed.

Lemma typed_converts {W A} errors (P : A → Prop) (x : result A AuthError) :
  converts P x → Store ∈ errors → typed (W := W) errors P (lift x).
Proof. intros Hx Hs. apply typed_lift. by destruct x as [|e]; simpl in Hx; subst. Qed.

Lemma converts_bind {A B} (Q : A → Prop) (P : B → Prop) (x : result A AuthError) (k : A → result B AuthError) :
  converts Q x → (∀ a, Q a → converts P (k a)) → converts P (rbind x k).
Proof. destruct x; simpl; auto. Qed.

Definition optional {A} (P : A → Prop) (o : option A) : Prop := match o with Some a => P a | None => True end.

Lemma converts_transpose {A} (P : A → Prop) (o : option (result A AuthError)) :
  optional (converts P) o → converts (optional P) (transpose o).
Proof. by destruct o as [[]|]. Qed.

Lemma converts_collect {A B} (P : B → Prop) (f : A → result B AuthError) (l : list A) :
  (∀ a, converts P (f a)) → converts (Forall P) (collect (f <$> l)).
Proof.
  intros Hf. induction l as [|a l IH]; simpl; [by constructor|].
  eapply converts_bind; [apply Hf|]. intros b Hb. destruct (collect _); simpl in *; [by constructor|done].
Qed.

Lemma purpose_converts s : converts (λ _, True) (parse_purpose s).
Proof. unfold parse_purpose. repeat case_match; done. Qed.
Lemma kind_converts s : converts (λ _, True) (parse_ceremony_kind s).
Proof. unfold parse_ceremony_kind. repeat case_match; done. Qed.

Create HintDb typed_rows discriminated.
#[export] Hint Resolve user_id_of_converts from_slice_converts parse_role_converts purpose_converts
  kind_converts : typed_rows.

(** Field by field. *)
Ltac converting :=
  repeat (eapply converts_bind; [eauto with typed_rows|intros ? ?]); try done.

Lemma user_row_converts_typed row : converts user_typed (UserRow.try_into row).
Proof. unfold UserRow.try_into. converting. Qed.
Lemma credential_row_converts row : converts credential_typed (CredentialRow.try_into row).
Proof. unfold CredentialRow.try_into. converting. Qed.
Lemma capability_row_converts row : converts capability_typed (CapabilityRow.try_into row).
Proof. unfold CapabilityRow.try_into. converting. Qed.
Lemma recovery_row_converts row : converts recovery_typed (RecoveryRow.try_into row).
Proof. unfold RecoveryRow.try_into. converting. Qed.

Lemma optional_some {A} (P : A → Prop) o a : optional P o → o = Some a → P a.
Proof. by intros Ho ->. Qed.

Lemma ceremony_row_converts row : converts ceremony_typed (CeremonyRow.try_into row).
Proof.
  unfold CeremonyRow.try_into. eapply converts_bind; [apply kind_converts|intros kind _].
  eapply (converts_bind (optional UserId.valid)).
  { apply converts_transpose. destruct (CeremonyRow.user_id row); simpl; [apply user_id_of_converts|done]. }
  intros user Hu. eapply (converts_bind (optional SecretHash.valid)).
  { apply converts_transpose. destruct (CeremonyRow.capability_hash row); simpl; [apply from_slice_converts|done]. }
  intros hash Hh. split; simpl; intros; by eapply optional_some.
Qed.

#[export] Hint Resolve user_row_converts_typed credential_row_converts capability_row_converts
  recovery_row_converts ceremony_row_converts : typed_rows.

(** A query and the conversion of what it found. *)
Lemma typed_read {R A} (P : A → Prop) (f : Db → R) (g : R → result A AuthError) :
  (∀ r, converts P (g r)) →
  typed [Store] P (let! r := store_err (pool_execute (select f)) in lift (g r)).
Proof.
  intros Hg. eapply typed_bind; [apply typed_err_with; set_solver|]. intros r _. apply typed_lift.
  specialize (Hg r). destruct (g r); simpl in Hg; [done|set_solver].
Qed.

Lemma typed_read_row {R A} (P : A → Prop) (f : Db → option R) (g : R → result A AuthError) :
  (∀ r, converts P (g r)) →
  typed [Store] (optional P) (let! r := store_err (pool_execute (select f)) in lift (transpose (g <$> r))).
Proof.
  intros Hg. apply (typed_read _ _ (λ r, transpose (g <$> r))). intros [r|]; simpl; [|done].
  specialize (Hg r). by destruct (g r).
Qed.

Lemma typed_read_rows {R A} (P : A → Prop) (f : Db → list R) (g : R → result A AuthError) :
  (∀ r, converts P (g r)) →
  typed [Store] (Forall P) (let! r := store_err (pool_execute (select f)) in lift (collect (g <$> r))).
Proof. intros Hg. apply (typed_read _ _ (λ r, collect (g <$> r))). intros l. by apply converts_collect. Qed.

(** ** Writes: which errors *)

Definition no_answer (_ : unit) : Prop := True.

(** Follows a write to its statements; what is left are memberships. *)
Ltac raising :=
  repeat match goal with
  | |- typed _ _ (bind (lift (ok_or _ _)) _) => apply (typed_bind _ (λ _, True)); [|intros ? ?]
  | |- typed _ _ (bind (lift _) _) => eapply typed_bind; [|intros ? ?]
  | |- typed _ _ (bind _ _) => apply (typed_bind _ (λ _, True)); [|intros ? ?]
  | |- typed _ _ (transaction _) => apply typed_transaction
  | |- typed _ _ (store_err _) => apply typed_err_with; intros ?
  | |- typed _ _ (err_with conflict_on_constraint _) => apply typed_err_with, conflict_on_constraint_typed
  | |- typed _ _ (err_with conflict_on_unique _) => apply typed_err_with, conflict_on_unique_typed
  | |- typed _ _ (ret _) => apply typed_ret
  | |- typed _ _ (throw _) => apply typed_throw
  | |- typed _ _ (draw _) => apply typed_draw
  | |- typed _ _ (tx_draw _) => apply typed_tx_draw
  | |- typed _ _ (lift (ok_or ?o _)) => apply typed_lift; destruct o; simpl
  | |- typed _ _ (lift _) => eapply typed_converts; [eauto with typed_rows|]
  | |- typed _ _ (match ?x with _ => _ end) => destruct x
  | |- typed _ _ (if ?x then _ else _) => destruct x
  end; try done; try set_solver.

(** The answers of a recovery window, and of the two session queries. *)
Definition window_typed (x : User * SecretHash) : Prop := user_typed x.1 ∧ SecretHash.valid x.2.
Definition renewed (csrf : SecretHash) (p : SessionPrincipal) : Prop :=
  user_typed (SessionPrincipal.user p) ∧ SessionPrincipal.csrf_hash p = csrf.
Definition requested (user_id : UserId) (now : DateTime) (r : RecoveryRequest) : Prop :=
  RecoveryRequest.user_id r = user_id ∧ RecoveryRequest.requested_at r = now ∧
  RecoveryRequest.approved_at r = None.

Section store.
Context `{Entropy} (int4_as_i64 : bool).
Import PgAuthStore.

Lemma window_read now : typed [Store] (optional window_typed) (operator_recovery_window now).
Proof.
  apply typed_read_row. intros [user_row hash]. eapply converts_bind; [apply from_slice_converts|intros h Hh].
  eapply converts_bind; [apply user_row_converts_typed|intros u Hu]. done.
Qed.

(** C29: the types of the store's calls: over any database, even one that others wrote, and whatever
    faults, every account, credential, capability, ceremony, recovery and session that a call answers
    has valid identifiers and hashes of 32 bytes, a renewed session has the new anti-forgery hash, a
    new recovery is for the account that asked; and a call raises no error but those of its list:
    reading raises only store errors, writing conflicts where a constraint or a missing row says so,
    completing a ceremony also invalid states, a login also an unauthenticated one, and breaking glass
    also forbidden ones. *)
Theorem store_calls_typed id handle hash csrf purpose kind now idle user cap cer op audit reason cred v s
    ceremony_id capability_hash recovery_id credential_id :
  typed [Store] (optional user_typed) (user_by_id id) ∧
  typed [Store] (optional user_typed) (user_by_handle handle) ∧
  typed [Store] (Forall credential_typed) (credentials_for_user id) ∧
  typed [Store] (optional user_typed) operator_without_credential ∧
  typed [Store] (λ _, True) operator_exists ∧
  typed [Store] (optional window_typed) (operator_recovery_window now) ∧
  typed [Store] (optional capability_typed) (capability hash purpose now) ∧
  typed [Store] (optional ceremony_typed) (ceremony ceremony_id kind now) ∧
  typed [Store] (Forall recovery_typed) pending_recoveries ∧
  typed [Store] (optional principal_typed) (session hash now idle) ∧
  typed [Store] (optional (renewed csrf)) (rotate_session_csrf hash csrf now idle) ∧
  typed [Store] no_answer (delete_session hash) ∧
  typed [Store] no_answer (insert_capability cap) ∧
  typed [Store] no_answer (insert_ceremony cer) ∧
  typed [Store] (Z.le 0) (rotate_all_auth_epochs int4_as_i64 now reason) ∧
  typed [Store; Conflict] no_answer (insert_user user now audit) ∧
  typed [Store; Conflict] no_answer (approve_user_with_setup user cap op now) ∧
  typed [Store; Conflict] (requested id now) (create_recovery id now) ∧
  typed [Store; Conflict] no_answer (approve_recovery recovery_id op now) ∧
  typed [Store; Conflict] no_answer (issue_recovery_setup recovery_id cap op now) ∧
  typed [Store; Conflict; Forbidden] no_answer (break_glass credential_id cap now reason) ∧
  typed [Store; InvalidState; Conflict] no_answer
    (complete_registration ceremony_id capability_hash cred now audit) ∧
  typed [Store; InvalidState; Unauthenticated] no_answer (complete_authentication ceremony_id v s now audit).
Proof.
  split_and!; try (first [apply typed_read_row | apply typed_read_rows]; eauto with typed_rows; fail);
    try apply window_read; unfold no_answer.
  1: apply typed_err_with; set_solver.
  all: autounfold with store_ops; unfold insert_audit, invalidate_user_auth; raising.
  lia.
Qed.
End store.
