(* ===== verification/PgBehaviour.v ===== *)
(** * PgBehaviour: what the store's operations do ([server/src/repository.rs])

    Inversion of successful operations into the chain of statements that made them, then the
    behaviour of sessions, ceremonies, capabilities, recoveries and epochs over executions with
    faults. *)
From S2P Require Export PgSafety.

(** ** Inversion *)

Lemma transaction_Ok {A} (body : M Tx AuthError A) w a w' :
  transaction body w = (Ok a, w') →
  ∃ w1 t', server_now w1 = server_now w ∧ db w1 = db w ∧
           body (mkTx w1 (db w)) = (Ok a, t') ∧ w' = world t'.
Proof.
  unfold transaction. destruct (next_verdict w) as [v w1] eqn:Hv.
  apply next_verdict_spec in Hv as (D & N & _).
  destruct v; [|done..]. destruct (body _) as [r t] eqn:Hb. intros [= -> <-].
  exists w1, t. by rewrite <- D.
Qed.

Lemma execute_Ok {A} f (s : DateTime → statement A) t a t' :
  err_with f (tx_execute s) t = (Ok a, t') →
  s (server_now (world t)) (working t) = Ok (a, working t') ∧
  server_now (world t') = server_now (world t) ∧ db (world t') = db (world t).
Proof.
  unfold err_with, tx_execute. destruct (next_verdict (world t)) as [v w1] eqn:Hv.
  apply next_verdict_spec in Hv as (D & N & _).
  destruct v; [|done..]. rewrite N. destruct (s _ _) as [[a' d]|e]; [|done]. by intros [= -> <-].
Qed.

Lemma commit_Ok f t u t' :
  err_with f commit t = (Ok u, t') → db (world t') = working t ∧ working t' = working t.
Proof.
  unfold err_with, commit. destruct (next_verdict (world t)) as [v w1]. destruct v; by intros [= _ <-].
Qed.

Lemma err_with_bind_Ok {A B} f (c : M Tx SqlxError A) (k : A → M Tx SqlxError B) t b t' :
  err_with f (bind c k) t = (Ok b, t') →
  ∃ a t1, err_with f c t = (Ok a, t1) ∧ err_with f (k a) t1 = (Ok b, t').
Proof.
  unfold err_with, bind. destruct (c t) as [[a|e] t1]; [|done].
  intros Hk. exists a, t1. by split.
Qed.

(** A guard that refuses. *)
Lemma refuse_Ok {W E} (b : bool) (e : E) (w : W) u w' :
  (if negb b then throw e else ret tt) w = (Ok u, w') → b = true ∧ w' = w.
Proof. destruct b; [|done]. by intros [= _ <-]. Qed.

(** Unwinds a successful transaction into its statements, the working copies named in order. *)
Ltac unwind :=
  repeat match goal with
  | H : transaction _ _ = (Ok _, _) |- _ => apply transaction_Ok in H as (? & ? & ? & ? & H & ->)
  | H : bind _ _ _ = (Ok _, _) |- _ =>
      let H1 := fresh "H" in apply bind_Ok in H as (? & ? & H1 & H)
  | H : store_err _ _ = (Ok _, _) |- _ => unfold store_err in H
  | H : err_with _ (bind _ _) _ = (Ok _, _) |- _ =>
      let H1 := fresh "H" in apply err_with_bind_Ok in H as (? & ? & H1 & H)
  | H : err_with _ (tx_execute _) _ = (Ok _, _) |- _ => apply execute_Ok in H as (H & ? & ?)
  | H : err_with _ commit _ = (Ok _, _) |- _ => apply commit_Ok in H as [? ?]
  | H : insert_audit _ _ _ = (Ok _, _) |- _ => unfold insert_audit in H
  | H : select _ _ _ = Ok _ |- _ => unfold select in H; injection H; clear H; intros
  | H : ret _ _ = (Ok _, _) |- _ => unfold ret in H; injection H; clear H; intros
  | H : throw _ _ = (Ok _, _) |- _ => discriminate H
  | H : err_with _ (ret _) _ = (Ok _, _) |- _ => unfold err_with, ret in H; simpl in H; injection H; clear H; intros
  | H : err_with _ (throw _) _ = (Ok _, _) |- _ => discriminate H
  | H : lift _ _ = (Ok _, _) |- _ => unfold lift in H; injection H; clear H; intros
  | H : (if negb _ then throw _ else ret tt) _ = (Ok _, _) |- _ => apply refuse_Ok in H as [? ->]
  | H : tx_draw _ _ = (Ok _, _) |- _ => unfold tx_draw, draw in H; simpl in H; injection H; clear H; intros
  | H : ok_or _ _ = Ok _ |- _ => apply ok_or_Ok in H
  | u : unit |- _ => destruct u
  end; subst; simpl in *.

(** The row an audit insertion appends. *)
Definition audit_row (event : AuditEvent) (now : DateTime) : AuditRow.t :=
  AuditRow.mk now (AuditEvent.event_type event) (UserId.as_str <$> AuditEvent.actor_user_id event)
    (UserId.as_str <$> AuditEvent.subject_user_id event) (AuditEvent.data event).

Lemma insert_audit_event_Ok r d u d' :
  insert_auth_audit_event r d = Ok (u, d') → d' = set_audit (auth_audit_events d ++ [r]) d.
Proof. unfold insert_auth_audit_event. case_match; [done|]. by intros [= _ <-]. Qed.

Lemma insert_credential_Ok id r d u d' :
  insert_passkey_credential id r d = Ok (u, d') →
  passkey_credentials d !! id = None ∧
  d' = set_credentials (<[id := r]> (passkey_credentials d)) d.
Proof.
  unfold insert_passkey_credential. pass_guard Hu. pass_guard Hf.
  apply orb_false_iff in Hu as [Hn%key_free _]. by intros [= _ <-].
Qed.

Lemma insert_session_Ok id r d u d' :
  insert_auth_session id r d = Ok (u, d') →
  auth_sessions d !! id = None ∧ d' = set_sessions (<[id := r]> (auth_sessions d)) d.
Proof.
  unfold insert_auth_session. pass_guard Hc. pass_guard Hu. pass_guard Hf.
  apply orb_false_iff in Hu as [Hn%key_free _]. by intros [= _ <-].
Qed.

Lemma insert_capability_Ok c server_now d u d' :
  insert_capability_sql c server_now d = Ok (u, d') →
  ∃ r, AuthCapability.user_id r = UserId.as_str (Capability.user_id c) ∧
       AuthCapability.purpose r = purpose_name (Capability.purpose c) ∧
       AuthCapability.token_hash r = SecretHash.as_bytes (Capability.token_hash c) ∧
       AuthCapability.expires_at r = Capability.expires_at c ∧
       AuthCapability.consumed_at r = None ∧
       auth_capabilities d !! Capability.id c = None ∧
       d' = set_capabilities (<[Capability.id c := r]> (auth_capabilities d)) d.
Proof.
  unfold insert_capability_sql, insert_auth_capability. simpl.
  pass_guard Hc. pass_guard Hu. pass_guard Hf.
  apply orb_false_iff in Hu as [Hn%key_free _]. intros [= _ <-].
  exists (AuthCapability.mk (UserId.as_str (Capability.user_id c)) (purpose_name (Capability.purpose c))
    (SecretHash.as_bytes (Capability.token_hash c)) (Capability.expires_at c) None server_now).
  by split_and!.
Qed.

(** ** Sessions *)

(** The principal a live session stands for. *)
Definition principal_of (k : Uuid) (s : AuthSession.t) (u : HumanUser.t) : SessionPrincipal :=
  SessionPrincipal.mk k (account_of (AuthSession.user_id s) u) (SecretHash.mk (AuthSession.csrf_hash s))
    (AuthSession.absolute_expires_at s).

Lemma session_row_Some d k s hash now :
  live_session d hash now k s = true → is_Some (session_row d (k, s)).
Proof.
  unfold live_session, session_row. simpl. intros [_ Hu]%andb_true_iff.
  destruct (human_users d !! _); [done|discriminate].
Qed.

Lemma select_session_None d hash now :
  (head (rows_where (live_session d hash now) (auth_sessions d)) ≫= session_row d) = None →
  ∀ k s, auth_sessions d !! k = Some s → live_session d hash now k s = false.
Proof.
  destruct (rows_where _ _) as [|[k s] l] eqn:Hr; simpl; [intros _; by apply rows_where_nil|].
  assert ((k, s) ∈ rows_where (live_session d hash now) (auth_sessions d)) as Hin
    by (rewrite Hr; apply list_elem_of_here).
  apply elem_of_rows_where in Hin as [_ Hl].
  destruct (session_row_Some _ _ _ _ _ Hl) as [row ->]. done.
Qed.

Lemma touch_Ok id csrf idle at_ d u d' :
  touch_session id csrf idle at_ d = Ok (u, d') →
  d' = set_sessions (update_where (λ k _, k =? id) (set_seen csrf idle at_) (auth_sessions d)) d.
Proof. unfold touch_session. destruct csrf; [case_match; [|done]|]; by intros [= _ <-]. Qed.

Lemma session_Ok hash now idle w r w' :
  db_wf (db w) → PgAuthStore.session hash now idle w = (Ok r, w') →
  match r with
  | None => db w' = db w ∧
            ∀ k s, auth_sessions (db w) !! k = Some s → live_session (db w) hash now k s = false
  | Some p => ∃ k s u,
      auth_sessions (db w) !! k = Some s ∧ live_session (db w) hash now k s = true ∧
      human_users (db w) !! AuthSession.user_id s = Some u ∧ p = principal_of k s u ∧
      db w' = set_sessions (update_where (λ k' _, k' =? k)
                (set_seen None (Z.min idle (AuthSession.absolute_expires_at s)) now)
                (auth_sessions (db w))) (db w)
  end.
Proof.
  intros Hw H. unfold PgAuthStore.session, select_session in H. unwind.
  destruct (_ ≫= _) as [row|] eqn:Hr in H.
  - apply select_session_row in Hr as (k & s & Hs & Hl & Hrow).
    destruct (session_row_converts _ _ _ _ Hw Hs Hrow) as (u & Hu & Hc1 & Hc2 & Hid & Ha).
    unwind. rewrite Hc1, Hc2 in *. simplify_eq. simpl.
    match goal with H : touch_session _ _ _ _ _ = _ |- _ => apply touch_Ok in H end.
    exists (SessionRow.session_id row), s, u. split_and!; try done.
    + unfold principal_of. by rewrite Ha.
    + rewrite <- Ha. congruence.
  - unwind. split; [congruence|]. by apply select_session_None.
Qed.

Lemma rotate_session_csrf_Ok hash csrf now idle w r w' :
  db_wf (db w) → PgAuthStore.rotate_session_csrf hash csrf now idle w = (Ok r, w') →
  match r with
  | None => db w' = db w ∧
            ∀ k s, auth_sessions (db w) !! k = Some s → live_session (db w) hash now k s = false
  | Some p => ∃ k s u,
      auth_sessions (db w) !! k = Some s ∧ live_session (db w) hash now k s = true ∧
      human_users (db w) !! AuthSession.user_id s = Some u ∧
      p = SessionPrincipal.mk k (account_of (AuthSession.user_id s) u) csrf
            (AuthSession.absolute_expires_at s) ∧
      db w' = set_sessions (update_where (λ k' _, k' =? k)
                (set_seen (Some csrf) (Z.min idle (AuthSession.absolute_expires_at s)) now)
                (auth_sessions (db w))) (db w)
  end.
Proof.
  intros Hw H. unfold PgAuthStore.rotate_session_csrf, select_session in H. unwind.
  destruct (_ ≫= _) as [row|] eqn:Hr in H.
  - apply select_session_row in Hr as (k & s & Hs & Hl & Hrow).
    destruct (session_row_converts _ _ _ _ Hw Hs Hrow) as (u & Hu & Hc1 & _ & Hid & Ha).
    unwind. rewrite Hc1 in *. simplify_eq. simpl.
    match goal with H : touch_session _ _ _ _ _ = _ |- _ => apply touch_Ok in H end.
    exists (SessionRow.session_id row), s, u. split_and!; try done.
    + by rewrite Ha.
    + rewrite <- Ha. congruence.
  - unwind. split; [congruence|]. by apply select_session_None.
Qed.

(** A fault-free world delivers everything. *)
Section calm.
Context (w : World) (Hw : calm w).

Lemma calm_transaction {A} (body : M Tx AuthError A) :
  transaction body w = let (r, t) := body (mkTx w (db w)) in (r, world t).
Proof. unfold transaction. by rewrite calm_next. Qed.

Lemma calm_execute {A} f (s : DateTime → statement A) d :
  err_with f (tx_execute s) (mkTx w d) =
  match s (server_now w) d with
  | Ok (a, d') => (Ok a, mkTx w d')
  | Err e => (Err (f (Database e)), mkTx w d)
  end.
Proof.
  unfold err_with, tx_execute. simpl. rewrite calm_next by done. by destruct (s _ _) as [[a d']|e].
Qed.

Lemma calm_commit f d : err_with f commit (mkTx w d) = (Ok tt, mkTx (with_db d w) d).
Proof. unfold err_with, commit. simpl. by rewrite calm_next. Qed.

Lemma calm_pool {A} f (s : DateTime → statement A) :
  err_with f (pool_execute s) w =
  match s (server_now w) (db w) with
  | Ok (a, d) => (Ok a, with_db d w)
  | Err e => (Err (f (Database e)), w)
  end.
Proof. unfold err_with, pool_execute. rewrite calm_next by done. by destruct (s _ _) as [[a d']|e]. Qed.

Lemma session_calm hash now idle :
  db_wf (db w) → ∃ r w', PgAuthStore.session hash now idle w = (Ok r, w').
Proof.
  intros Hwf. unfold PgAuthStore.session, select_session. rewrite calm_transaction.
  unfold bind at 1, store_err. rewrite calm_execute. simpl.
  destruct (_ ≫= _) as [row|] eqn:Hr.
  - apply select_session_row in Hr as (k & s & Hs & Hl & Hrow).
    destruct (session_row_converts _ _ _ _ Hwf Hs Hrow) as (u & Hu & Hc1 & Hc2 & _).
    rewrite Hc1, Hc2. unfold bind. rewrite calm_execute. simpl. rewrite calm_commit. simpl. eauto.
  - unfold bind. rewrite calm_commit. simpl. eauto.
Qed.

End calm.

(** ** Ceremonies and credentials *)

Lemma consume_one_ceremony (P : Uuid → AuthCeremony.t → bool) id at_ d rows d' :
  (∀ k c, P k c = true → k = id) → consume_ceremonies P at_ d = Ok (rows, d') →
  d' = set_ceremonies (update_where (λ k c, P k c && is_null (AuthCeremony.consumed_at c))
         (consume_ceremony at_) (auth_ceremonies d)) d ∧
  rows = match auth_ceremonies d !! id with
         | Some c => if P id c && is_null (AuthCeremony.consumed_at c) then [(id, c)] else []
         | None => []
         end.
Proof.
  intros HP [= <- <-]. split; [done|]. apply rows_where_key.
  intros k c [? _]%andb_true_iff. eauto.
Qed.

(** The ceremony a completion consumes: it exists, was live, and is spent afterwards. *)
Definition spends_ceremony (id : Uuid) (now : DateTime) (d d' : Db) (c : AuthCeremony.t) : Prop :=
  auth_ceremonies d !! id = Some c ∧ AuthCeremony.consumed_at c = None ∧
  now < AuthCeremony.expires_at c ∧
  auth_ceremonies d' !! id = Some (consume_ceremony now c).

Lemma active_credentials_zero d :
  length (rows_where (active_operator_credential d) (passkey_credentials d)) = 0%nat ↔
  ∀ k c, passkey_credentials d !! k = Some c → active_operator_credential d k c = false.
Proof. rewrite length_zero_iff_nil. apply rows_where_nil. Qed.

Lemma spend_ceremony_Ok id now t p t' :
  PgAuthStore.spend_ceremony id now t = (Ok (Some p), t') →
  db (world t') = db (world t) ∧ server_now (world t') = server_now (world t) ∧
  ∃ c, spends_ceremony id now (working t) (working t') c ∧
       AuthCeremony.user_id c = Some p.1 ∧ AuthCeremony.kind c = p.2 ∧
       working t' = set_ceremonies (auth_ceremonies (working t')) (working t).
Proof.
  intros H. unfold PgAuthStore.spend_ceremony in H. unwind.
  match goal with H : consume_ceremonies _ _ _ = _ |- _ =>
    eapply (consume_one_ceremony _ id) in H as [Hd ->];
      [|by intros k c [?%Z.eqb_eq _]%andb_true_iff] end.
  destruct (auth_ceremonies (working t) !! id) as [c|] eqn:Hk; [|done].
  rewrite Z.eqb_refl in H. simpl in H.
  destruct (_ && _) eqn:Hg; [|done]. simpl in H. apply andb_true_iff in Hg as [Hl Hn%is_null_true].
  apply Z.ltb_lt in Hl. destruct (AuthCeremony.user_id c) as [u|] eqn:Hu; [|done]. unwind.
  split_and!; try done. exists c. rewrite Hd. simpl. split_and!; try done.
  unfold spends_ceremony. simpl. rewrite lookup_update_where, Hk. simpl.
  rewrite Z.eqb_refl, Hn. simpl. by rewrite (proj2 (Z.ltb_lt _ _) Hl).
Qed.

Lemma bootstrap_guard_Ok kind t t' :
  PgAuthStore.bootstrap_guard kind t = (Ok tt, t') →
  db (world t') = db (world t) ∧ server_now (world t') = server_now (world t) ∧
  working t' = working t ∧
  (kind = "operator_bootstrap" → ∀ k c, passkey_credentials (working t) !! k = Some c →
     active_operator_credential (working t) k c = false).
Proof.
  intros H. unfold PgAuthStore.bootstrap_guard in H.
  destruct (String.eqb_spec kind "operator_bootstrap") as [|Hne]; cycle 1.
  { by unwind. }
  unwind.
  split_and!; try done.
  intros _. by apply rows_where_nil, length_zero_iff_nil, Nat.eqb_eq.
Qed.

Lemma spend_capability_Ok hash now t t' :
  PgAuthStore.spend_capability hash now t = (Ok tt, t') →
  db (world t') = db (world t) ∧ server_now (world t') = server_now (world t) ∧
  working t' = set_capabilities (auth_capabilities (working t')) (working t) ∧
  ∀ h, hash = Some h → ∃ k cap,
    auth_capabilities (working t) !! k = Some cap ∧
    AuthCapability.token_hash cap = SecretHash.as_bytes h ∧
    AuthCapability.consumed_at cap = None ∧ now < AuthCapability.expires_at cap ∧
    auth_capabilities (working t') !! k = Some (consume_capability now cap).
Proof.
  intros H. unfold PgAuthStore.spend_capability in H.
  destruct hash as [hash|]; cycle 1.
  { unwind. split_and!; [done|done| |by intros h]. by destruct (working t'). }
  unwind.
  match goal with H : consume_capabilities _ _ _ = _ |- _ => injection H as Hl Hd end.
  split_and!; try done; [by rewrite <- Hd|]. intros h [= <-].
  match goal with H : (_ =? 1)%nat = true |- _ => apply Nat.eqb_eq in H as Hn end.
  rewrite <- Hl in Hn.
  destruct (rows_where _ _) as [|[k cap] [|]] eqn:Hr; try done.
  assert ((k, cap) ∈ [(k, cap)]) as Hin by apply list_elem_of_here.
  rewrite <- Hr in Hin. apply elem_of_rows_where in Hin as [Hk HP].
  exists k, cap. rewrite <- Hd. simpl in *.
  rewrite lookup_update_where, Hk. simpl. rewrite HP. bool_prop.
  split_and!; try done. by apply is_null_true.
Qed.

Lemma one_ceremony_spent (P : Uuid → AuthCeremony.t → bool) id now d rows d' :
  (∀ k c, P k c = true → k = id ∧ now < AuthCeremony.expires_at c) →
  consume_ceremonies P now d = Ok (rows, d') → (length rows =? 1)%nat = true →
  d' = set_ceremonies (auth_ceremonies d') d ∧ ∃ c, spends_ceremony id now d d' c ∧ P id c = true.
Proof.
  intros HP Hc Hn. apply (consume_one_ceremony _ id) in Hc as [-> ->];
    [|intros k c Hk; by destruct (HP k c Hk)].
  split; [done|]. destruct (auth_ceremonies d !! id) as [c|] eqn:Hk; [|done].
  destruct (P id c && _) eqn:Hg; [|done]. pose proof Hg as [Hpc Hnull%is_null_true]%andb_true_iff.
  exists c. split; [|done]. destruct (HP id c Hpc). unfold spends_ceremony. simpl.
  by rewrite lookup_update_where, Hk; simpl; rewrite Hg.
Qed.

Lemma use_credential_Ok user credential data now d n d' :
  use_credential user credential data now d = Ok (n, d') → (n =? 1)%nat = true →
  d' = set_credentials (passkey_credentials d') d ∧
  ∃ k cr, passkey_credentials d !! k = Some cr ∧ PasskeyCredential.user_id cr = user ∧
    PasskeyCredential.credential_id cr = credential ∧ PasskeyCredential.revoked_at cr = None.
Proof.
  intros [= <- <-] Hn. split; [done|].
  destruct (rows_where _ _) as [|[k cr] l] eqn:Hr; [done|].
  assert ((k, cr) ∈ (k, cr) :: l) as Hin by apply list_elem_of_here.
  rewrite <- Hr in Hin. apply elem_of_rows_where in Hin as [Hk HP]. simpl in HP. bool_prop.
  exists k, cr. split_and!; try done. by apply is_null_true.
Qed.

(** What a successful registration did. *)
Record registered (id : Uuid) (hash : option SecretHash) (credential : VerifiedCredential)
    (now : DateTime) (audit : AuditEvent) (d d' : Db) (user : string) (c : AuthCeremony.t) : Prop := {
  reg_ceremony : spends_ceremony id now d d' c;
  reg_user : AuthCeremony.user_id c = Some user;
  reg_bootstrap : AuthCeremony.kind c = "operator_bootstrap" →
    ∀ k cr, passkey_credentials d !! k = Some cr → active_operator_credential d k cr = false;
  reg_capability : ∀ h, hash = Some h → ∃ k cap,
    auth_capabilities d !! k = Some cap ∧ AuthCapability.token_hash cap = SecretHash.as_bytes h ∧
    AuthCapability.consumed_at cap = None ∧ now < AuthCapability.expires_at cap ∧
    auth_capabilities d' !! k = Some (consume_capability now cap);
  reg_credential : ∃ k, passkey_credentials d !! k = None ∧
    passkey_credentials d' = <[k := PasskeyCredential.mk user (VerifiedCredential.credential_id credential)
      (VerifiedCredential.public_data credential) now None None]> (passkey_credentials d);
  reg_users : human_users d' = human_users d;
  reg_sessions : auth_sessions d' = auth_sessions d;
  reg_audit : auth_audit_events d' = auth_audit_events d ++ [audit_row audit now];
}.

Section completions.
Context `{Entropy}.

Lemma complete_registration_Ok id hash credential now audit w w' :
  PgAuthStore.complete_registration id hash credential now audit w = (Ok tt, w') →
  ∃ user c, registered id hash credential now audit (db w) (db w') user c.
Proof.
  intros Hc. unfold PgAuthStore.complete_registration in Hc. unwind.
  match goal with H : PgAuthStore.spend_ceremony _ _ _ = (Ok (Some ?p), _) |- _ =>
    destruct p as [user kind]; apply spend_ceremony_Ok in H as (? & ? & c & Hc1 & Hu & Hkind & Hd1) end.
  unwind.
  repeat match goal with
  | H : PgAuthStore.bootstrap_guard _ _ = _ |- _ => apply bootstrap_guard_Ok in H as (? & ? & Hd2 & Hboot)
  | H : PgAuthStore.spend_capability _ _ _ = _ |- _ => apply spend_capability_Ok in H as (? & ? & Hd3 & Hcap)
  | H : insert_passkey_credential _ _ _ = _ |- _ => apply insert_credential_Ok in H as [Hfree Hd4]
  | H : insert_auth_audit_event _ _ = _ |- _ => apply insert_audit_event_Ok in H as Hd6
  | H : complete_recoveries _ _ _ = Ok (_, _) |- _ => injection H as Hd5
  | H : db w = working _ |- _ => rewrite H
  | H : db (world _) = working ?t |- context [db (world _)] => rewrite H
  end.
  exists user, c.
  rewrite Hd2 in *. rewrite Hd3, Hd1 in Hd4, Hfree. rewrite <- Hd5 in Hd6. rewrite Hd6, Hd4. clear Hd4 Hd5 Hd6.
  rewrite Hd1 in Hboot, Hcap. simpl in *. constructor; simpl; try done; [rewrite Hkind; exact Hboot|].
  eexists. split; [exact Hfree|done].
Qed.

Lemma complete_authentication_Ok id v session now audit w w' :
  PgAuthStore.complete_authentication id v session now audit w = (Ok tt, w') →
  ∃ c, spends_ceremony id now (db w) (db w') c ∧ AuthCeremony.kind c = "authentication" ∧
    (∃ k cr, passkey_credentials (db w) !! k = Some cr ∧
       PasskeyCredential.user_id cr = UserId.as_str (SessionRecord.user_id session) ∧
       PasskeyCredential.credential_id cr = AuthenticationVerification.credential_id v ∧
       PasskeyCredential.revoked_at cr = None) ∧
    human_users (db w') = human_users (db w) ∧
    auth_capabilities (db w') = auth_capabilities (db w) ∧
    auth_sessions (db w) !! SessionRecord.id session = None ∧
    auth_sessions (db w') = <[SessionRecord.id session :=
      AuthSession.mk (UserId.as_str (SessionRecord.user_id session))
        (SecretHash.as_bytes (SessionRecord.token_hash session))
        (SecretHash.as_bytes (SessionRecord.csrf_hash session))
        (SessionRecord.auth_epoch session) (SessionRecord.idle_expires_at session)
        (SessionRecord.absolute_expires_at session) now now None]> (auth_sessions (db w)) ∧
    auth_audit_events (db w') = auth_audit_events (db w) ++ [audit_row audit now].
Proof.
  intros Hc. unfold PgAuthStore.complete_authentication in Hc. unwind.
  repeat match goal with
  | H : consume_ceremonies _ _ _ = _ |- _ =>
      apply (one_ceremony_spent _ id) in H as (Hd1 & c & Hc & HP);
        [|intros k c HP; bool_prop; by subst|done]
  | H : use_credential _ _ _ _ _ = _ |- _ => apply use_credential_Ok in H as (Hd2 & Hcred); [|done]
  | H : insert_auth_session _ _ _ = _ |- _ => apply insert_session_Ok in H as [Hfree Hd3]
  | H : insert_auth_audit_event _ _ = _ |- _ => apply insert_audit_event_Ok in H as Hd4
  | H : db w = working _ |- _ => rewrite H
  | H : db (world _) = working ?t |- context [db (world _)] => rewrite H
  end.
  exists c. rewrite Hd4, Hd3. rewrite Hd2, Hd1 in *. simpl in *. bool_prop.
  split_and!; try done.
Qed.

End completions.

(** ** Invalidation *)

Definition invalidated (user : string) (now : DateTime) (d : Db) : Db :=
  mkDb (update_where (λ k _, bool_decide (k = user)) (bump_epoch now) (human_users d))
    (passkey_credentials d)
    (update_where (λ _ c, bool_decide (AuthCapability.user_id c = user)
       && is_null (AuthCapability.consumed_at c)) (consume_capability now) (auth_capabilities d))
    (update_where (λ _ c, bool_decide (AuthCeremony.user_id c = Some user)
       && is_null (AuthCeremony.consumed_at c)) (consume_ceremony now) (auth_ceremonies d))
    (update_where (λ _ s, bool_decide (AuthSession.user_id s = user)
       && is_null (AuthSession.revoked_at s)) (revoke_session now) (auth_sessions d))
    (recovery_requests d) (auth_audit_events d).

(** The account [user] was cut off between the two databases: its epoch is higher, and every
    session, ceremony and capability it had is spent. *)
Record cut_off (user : string) (d d' : Db) : Prop := {
  cut_epoch u : human_users d !! user = Some u →
    ∃ u', human_users d' !! user = Some u' ∧ HumanUser.auth_epoch u < HumanUser.auth_epoch u';
  cut_sessions k s : auth_sessions d !! k = Some s → AuthSession.user_id s = user →
    ∃ s', auth_sessions d' !! k = Some s' ∧ is_Some (AuthSession.revoked_at s');
  cut_ceremonies k c : auth_ceremonies d !! k = Some c → AuthCeremony.user_id c = Some user →
    ∃ c', auth_ceremonies d' !! k = Some c' ∧ is_Some (AuthCeremony.consumed_at c');
  cut_capabilities k c : auth_capabilities d !! k = Some c → AuthCapability.user_id c = user →
    ∃ c', auth_capabilities d' !! k = Some c' ∧ is_Some (AuthCapability.consumed_at c');
}.

(** An update that stamps the rows of [Q] that have no stamp leaves every row of [Q] stamped. *)
Lemma stamped {K V} `{Countable K} (Q : V → bool) (stamp : V → option DateTime) (f : V → V)
    (m : gmap K V) k v :
  (∀ v, is_Some (stamp (f v))) → m !! k = Some v → Q v = true →
  ∃ v', update_where (λ _ v, Q v && is_null (stamp v)) f m !! k = Some v' ∧ is_Some (stamp v').
Proof.
  intros Hf Hk HQ. rewrite lookup_update_where, Hk. simpl. rewrite HQ. simpl.
  eexists. split; [done|]. destruct (is_null (stamp v)) eqn:Hn; [done|]. by destruct (stamp v).
Qed.

Lemma invalidated_cut_off user now d d1 :
  human_users d1 = human_users d → auth_sessions d1 = auth_sessions d →
  auth_ceremonies d1 = auth_ceremonies d → auth_capabilities d1 = auth_capabilities d →
  cut_off user d (invalidated user now d1).
Proof.
  intros Hu Hs Hc Hp. constructor; simpl; rewrite ?Hu, ?Hs, ?Hc, ?Hp.
  - intros u Hk. rewrite lookup_update_where, Hk. simpl. rewrite bool_decide_true by done.
    eexists. split; [done|]. simpl. lia.
  - intros k s Hk Hus.
    apply (stamped (λ s, bool_decide (AuthSession.user_id s = user)) AuthSession.revoked_at _ _ k s);
      [done|done|by apply bool_decide_eq_true].
  - intros k c Hk Huc.
    apply (stamped (λ c, bool_decide (AuthCeremony.user_id c = Some user)) AuthCeremony.consumed_at _ _ k c);
      [done|done|by apply bool_decide_eq_true].
  - intros k c Hk Huc.
    apply (stamped (λ c, bool_decide (AuthCapability.user_id c = user)) AuthCapability.consumed_at _ _ k c);
      [done|done|by apply bool_decide_eq_true].
Qed.

(** Once cut off, always cut off. *)
Lemma cut_off_evolves user d d1 d2 : cut_off user d d1 → evolves d1 d2 → cut_off user d d2.
Proof.
  intros [C1 C2 C3 C4] He. constructor.
  - intros u Hu. destruct (C1 u Hu) as (u1 & Hu1 & ?).
    destruct (evolves_users _ _ He _ _ Hu1) as (u2 & Hu2 & _ & _ & _ & _ & ?).
    exists u2. split; [done|lia].
  - intros k s Hk Hs. destruct (C2 k s Hk Hs) as (s1 & Hs1 & Hr).
    destruct (evolves_sessions _ _ He _ _ Hs1) as (s2 & Hs2 & _ & _ & _ & _ & Hst).
    exists s2. split; [done|]. by rewrite (Hst Hr).
  - intros k c Hk Hc. destruct (C3 k c Hk Hc) as (c1 & Hc1 & Hr).
    destruct (evolves_ceremonies _ _ He _ _ Hc1) as (c2 & Hc2 & _ & _ & _ & _ & _ & Hst).
    exists c2. split; [done|]. by rewrite (Hst Hr).
  - intros k c Hk Hc. destruct (C4 k c Hk Hc) as (c1 & Hc1 & Hr).
    destruct (evolves_capabilities _ _ He _ _ Hc1) as (c2 & Hc2 & _ & _ & _ & _ & Hst).
    exists c2. split; [done|]. by rewrite (Hst Hr).
Qed.

Lemma cut_off_audit user d d1 l : cut_off user d d1 → cut_off user d (set_audit l d1).
Proof. by intros []; constructor. Qed.

Lemma cut_off_capability user d d1 k c :
  auth_capabilities d1 !! k = None → cut_off user d d1 →
  cut_off user d (set_capabilities (<[k := c]> (auth_capabilities d1)) d1).
Proof.
  intros Hk Hc. eapply cut_off_evolves; [exact Hc|].
  apply evolves_set_capabilities, table_insert; [apply _|done].
Qed.

Lemma update_epochs_Ok P now server_now d rows d' :
  update_epochs P now server_now d = Ok (rows, d') →
  rows = rows_where P (human_users d) ∧
  d' = set_users (update_where P (bump_epoch now) (human_users d)) d.
Proof. unfold update_epochs. destruct (existsb _ _); [done|]. by intros [= <- <-]. Qed.

Lemma invalidate_Ok user now t t' :
  invalidate_user_auth user now t = (Ok tt, t') →
  db (world t') = db (world t) ∧ server_now (world t') = server_now (world t) ∧
  working t' = invalidated user now (working t).
Proof.
  intros H. unfold invalidate_user_auth in H. unwind.
  split_and!; [congruence|congruence|].
  repeat match goal with
  | H : update_epochs _ _ _ _ = _ |- _ => apply update_epochs_Ok in H as [_ Hd1]
  | H : revoke_sessions _ _ _ = _ |- _ => injection H as _ Hd2
  | H : consume_ceremonies _ _ _ = _ |- _ => injection H as _ Hd3
  | H : consume_capabilities _ _ _ = _ |- _ => injection H as _ Hd4
  end.
  by rewrite <- Hd4, <- Hd3, <- Hd2, Hd1.
Qed.

Lemma mark_approved_Ok id op now d u d' :
  mark_approved id op now d = Ok (Some u, d') →
  ∃ r, recovery_requests d !! id = Some r ∧ Recovery.approved_at r = None ∧
       Recovery.completed_at r = None ∧ Recovery.user_id r = u ∧ references op d ∧
       recovery_requests d' !! id = Some (set_approved op now r) ∧
       d' = set_recoveries (recovery_requests d') d.
Proof.
  unfold mark_approved. rewrite (rows_where_key _ _ id)
    by (by intros k r [[?%Z.eqb_eq _]%andb_true_iff _]%andb_true_iff).
  destruct (recovery_requests d !! id) as [r|] eqn:Hk; [|done].
  destruct (_ && _) eqn:Hg; [|done]. simpl.
  destruct (user_exists op d) eqn:Ho; [|done]. intros [= <- <-]. exists r. simpl.
  rewrite lookup_update_where, Hk. simpl. rewrite Hg. apply user_exists_iff in Ho. bool_prop.
  split_and!; try done; by apply is_null_true.
Qed.

Lemma approve_recovery_Ok id op now w w' :
  PgAuthStore.approve_recovery id op now w = (Ok tt, w') →
  ∃ r, recovery_requests (db w) !! id = Some r ∧ Recovery.approved_at r = None ∧
       Recovery.completed_at r = None ∧ references (UserId.as_str op) (db w) ∧
       recovery_requests (db w') !! id = Some (set_approved (UserId.as_str op) now r) ∧
       cut_off (Recovery.user_id r) (db w) (db w').
Proof.
  intros Hc. unfold PgAuthStore.approve_recovery in Hc. unwind.
  repeat match goal with
  | H : mark_approved _ _ _ _ = _ |- _ =>
      apply mark_approved_Ok in H as (r & Hr & Ha & Hcm & <- & Hop & Hr' & Hd1)
  | H : invalidate_user_auth _ _ _ = _ |- _ => apply invalidate_Ok in H as (? & ? & Hd2)
  | H : insert_auth_audit_event _ _ = _ |- _ => apply insert_audit_event_Ok in H as Hd3
  | H : db w = working _ |- _ => rewrite H
  | H : db (world _) = working ?t |- context [db (world _)] => rewrite H
  end.
  exists r. rewrite Hd3, Hd2. simpl. split_and!; try done.
  apply cut_off_audit. rewrite Hd1. by apply invalidated_cut_off.
Qed.

Lemma revoke_operator_credential_Ok id now d u d' :
  revoke_operator_credential id now d = Ok (Some u, d') →
  ∃ cr, passkey_credentials d !! id = Some cr ∧ PasskeyCredential.revoked_at cr = None ∧
        PasskeyCredential.user_id cr = u ∧
        (∃ op, human_users d !! u = Some op ∧ HumanUser.role op = "operator") ∧
        passkey_credentials d' !! id = Some (set_revoked now cr) ∧
        d' = set_credentials (passkey_credentials d') d.
Proof.
  unfold revoke_operator_credential. rewrite (rows_where_key _ _ id)
    by (by intros k c [?%Z.eqb_eq _]%andb_true_iff).
  intros [= Hu <-]. destruct (passkey_credentials d !! id) as [cr|] eqn:Hk; [|done].
  destruct (_ && _) eqn:Hg; [|done]. simpl in Hu. injection Hu as <-.
  exists cr. simpl. rewrite lookup_update_where, Hk. simpl. rewrite Hg.
  apply andb_true_iff in Hg as [_ Hg]. unfold active_operator_credential, row_is_operator in Hg.
  destruct (human_users d !! _) as [op|] eqn:Ho; [|done]. bool_prop.
  split_and!; try done; [by apply is_null_true|]. by exists op.
Qed.

Lemma break_glass_Ok id c now reason w w' :
  PgAuthStore.break_glass id c now reason w = (Ok tt, w') →
  ∃ cr cap, passkey_credentials (db w) !! id = Some cr ∧ PasskeyCredential.revoked_at cr = None ∧
    PasskeyCredential.user_id cr = UserId.as_str (Capability.user_id c) ∧
    (∃ op, human_users (db w) !! PasskeyCredential.user_id cr = Some op ∧
           HumanUser.role op = "operator") ∧
    passkey_credentials (db w') !! id = Some (set_revoked now cr) ∧
    cut_off (UserId.as_str (Capability.user_id c)) (db w) (db w') ∧
    auth_capabilities (db w') !! Capability.id c = Some cap ∧
    AuthCapability.user_id cap = UserId.as_str (Capability.user_id c) ∧
    AuthCapability.token_hash cap = SecretHash.as_bytes (Capability.token_hash c) ∧
    AuthCapability.consumed_at cap = None ∧
    AuthCapability.purpose cap = purpose_name (Capability.purpose c) ∧
    AuthCapability.expires_at cap = Capability.expires_at c.
Proof.
  intros Hc. unfold PgAuthStore.break_glass in Hc. unwind.
  repeat match goal with
  | H : revoke_operator_credential _ _ _ = _ |- _ =>
      apply revoke_operator_credential_Ok in H as (cr & Hcr & Hrev & Hu & Hop & Hcr' & Hd1)
  | H : String.eqb _ _ = true |- _ => apply String.eqb_eq in H as Hown
  | H : invalidate_user_auth _ _ _ = _ |- _ => apply invalidate_Ok in H as (? & ? & Hd2)
  | H : insert_capability_sql _ _ _ = _ |- _ =>
      apply insert_capability_Ok in H as (cap & ? & ? & ? & ? & ? & Hfree & Hd3)
  | H : insert_auth_audit_event _ _ = _ |- _ => apply insert_audit_event_Ok in H as Hd4
  | H : db w = working _ |- _ => rewrite H
  | H : db (world _) = working ?t |- context [db (world _)] => rewrite H
  end.
  exists cr, cap. rewrite Hown in *. rewrite <- Hu in *. rewrite Hd4, Hd3.
  split_and!; try done; simpl; [by rewrite Hd2| |by rewrite lookup_insert_eq].
  apply cut_off_audit, cut_off_capability; [done|]. rewrite Hd2, Hd1. by apply invalidated_cut_off.
Qed.

(** *** [rotate_all_auth_epochs] *)

Lemma rows_where_all {K V} `{Countable K} (m : gmap K V) : rows_where (λ _ _, true) m = map_to_list m.
Proof. unfold rows_where. induction (map_to_list m) as [|kv l IH]; [done|]. cbn. by f_equal. Qed.

Lemma rotate_all_Ok b now reason w n w' :
  PgAuthStore.rotate_all_auth_epochs b now reason w = (Ok n, w') →
  n = Z.of_nat (size (human_users (db w))) ∧ (b = true ∨ human_users (db w) = ∅) ∧
  ∀ user, is_Some (human_users (db w) !! user) → cut_off user (db w) (db w').
Proof.
  intros Hc. unfold PgAuthStore.rotate_all_auth_epochs in Hc. unwind.
  match goal with H : update_epochs _ _ _ _ = Ok (?rows, working ?t), H' : err_with _ _ ?t = (Ok ?users, ?t') |- _ =>
    assert (users = rows ∧ t' = t ∧ (b = true ∨ rows = [])) as (-> & -> & Hb)
      by (destruct rows; [|destruct b]; unwind; auto);
    apply update_epochs_Ok in H as [-> Hd1] end.
  repeat match goal with
  | H : revoke_sessions _ _ _ = _ |- _ => injection H as _ Hd2
  | H : consume_ceremonies _ _ _ = _ |- _ => injection H as _ Hd3
  | H : consume_capabilities _ _ _ = _ |- _ => injection H as _ Hd4
  | H : insert_auth_audit_event _ _ = _ |- _ => apply insert_audit_event_Ok in H as Hd5
  | H : db (world _) = working ?t |- context [db (world _)] => rewrite H
  end.
  split; [by rewrite rows_where_all, length_map_to_list|]. split.
  { destruct Hb as [|Hb]; [by left|right]. rewrite rows_where_all in Hb. by apply map_to_list_empty_iff. }
  intros user _. rewrite Hd5. apply cut_off_audit. rewrite <- Hd4, <- Hd3, <- Hd2, Hd1.
  constructor; simpl.
  - intros u Hk. rewrite lookup_update_where, Hk. simpl. eexists. split; [done|]. simpl. lia.
  - intros k s Hk _. by apply (stamped (λ _, true) AuthSession.revoked_at _ _ k s).
  - intros k c Hk _. by apply (stamped (λ _, true) AuthCeremony.consumed_at _ _ k c).
  - intros k c Hk _. by apply (stamped (λ _, true) AuthCapability.consumed_at _ _ k c).
Qed.

(** ** Recovery *)

Lemma mark_issued_Ok id user now d n d' :
  mark_issued id user now d = Ok (n, d') → (n =? 1)%nat = true →
  ∃ r, recovery_requests d !! id = Some r ∧ is_Some (Recovery.approved_at r) ∧
       Recovery.setup_issued_at r = None ∧ Recovery.completed_at r = None ∧
       Recovery.user_id r = user ∧ recovery_requests d' !! id = Some (set_issued now r) ∧
       d' = set_recoveries (recovery_requests d') d.
Proof.
  unfold mark_issued. rewrite (rows_where_key _ _ id) by (intros k r HP; by bool_prop).
  intros [= <- <-] Hn. destruct (recovery_requests d !! id) as [r|] eqn:Hk; [|done].
  destruct (_ && _) eqn:Hg in Hn; [|done]. exists r. simpl. rewrite lookup_update_where, Hk. simpl.
  rewrite Hg. bool_prop. split_and!; try done; try (by apply is_null_true).
  by destruct (Recovery.approved_at r).
Qed.

Lemma issue_recovery_setup_Ok id c op now w w' :
  PgAuthStore.issue_recovery_setup id c op now w = (Ok tt, w') →
  ∃ r cap, recovery_requests (db w) !! id = Some r ∧ is_Some (Recovery.approved_at r) ∧
    Recovery.setup_issued_at r = None ∧ Recovery.completed_at r = None ∧
    Recovery.user_id r = UserId.as_str (Capability.user_id c) ∧
    recovery_requests (db w') !! id = Some (set_issued now r) ∧
    auth_capabilities (db w') !! Capability.id c = Some cap ∧
    AuthCapability.user_id cap = Recovery.user_id r ∧
    AuthCapability.purpose cap = purpose_name (Capability.purpose c) ∧
    AuthCapability.token_hash cap = SecretHash.as_bytes (Capability.token_hash c) ∧
    AuthCapability.expires_at cap = Capability.expires_at c ∧
    AuthCapability.consumed_at cap = None.
Proof.
  intros Hc. unfold PgAuthStore.issue_recovery_setup in Hc. unwind.
  repeat match goal with
  | H : mark_issued _ _ _ _ = _ |- _ =>
      apply mark_issued_Ok in H as (r & Hr & Ha & Hi & Hcm & Hu & Hr' & Hd1); [|done]
  | H : insert_capability_sql _ _ _ = _ |- _ =>
      apply insert_capability_Ok in H as (cap & ? & ? & ? & ? & ? & Hfree & Hd2)
  | H : insert_auth_audit_event _ _ = _ |- _ => apply insert_audit_event_Ok in H as Hd3
  | H : db w = working _ |- _ => rewrite H
  | H : db (world _) = working ?t |- context [db (world _)] => rewrite H
  end.
  exists r, cap. rewrite Hd3, Hd2. simpl. rewrite lookup_insert_eq. split_and!; try done. congruence.
Qed.
