(* ===== verification/StoreSecurity.v ===== *)
(** * StoreSecurity: what the store guarantees over whole executions

    Sessions, ceremonies, capabilities and recoveries along any execution: any later operations
    in any order, with faults and clock changes.  Each guarantee combines the behaviour
    of one operation ([PgBehaviour.v]) with the fact that nothing is undone ([PgSafety.v]). *)
From S2P Require Export PgBehaviour.

(** ** Reads *)

Lemma pool_select_Ok {A} f (g : Db → A) w a w' :
  err_with f (pool_execute (select g)) w = (Ok a, w') → a = g (db w) ∧ db w' = db w.
Proof.
  unfold err_with, pool_execute. destruct (next_verdict w) as [v w1] eqn:Hv.
  apply next_verdict_spec in Hv as (D & _). destruct v; [|done..].
  intros [= <- <-]. by rewrite <- D.
Qed.

Lemma head_rows_where {K V} `{Countable K} (P : K → V → bool) (m : gmap K V) k v :
  head (rows_where P m) = Some (k, v) → m !! k = Some v ∧ P k v = true.
Proof.
  intros Hh. apply elem_of_rows_where. destruct (rows_where P m) as [|kv l]; [done|].
  simpl in Hh. injection Hh as ->. apply list_elem_of_here.
Qed.

Lemma user_id_of_Ok s id : user_id_of s = Ok id → UserId.as_str id = s.
Proof. unfold user_id_of, UserId.new. destruct (valid_opaque_id s); [|done]. by intros [= <-]. Qed.

Lemma capability_Ok hash purpose now w cap w' :
  PgAuthStore.capability hash purpose now w = (Ok (Some cap), w') →
  ∃ row, auth_capabilities (db w) !! Capability.id cap = Some row ∧
    AuthCapability.token_hash row = SecretHash.as_bytes hash ∧
    AuthCapability.consumed_at row = None ∧ now < AuthCapability.expires_at row ∧
    AuthCapability.user_id row = UserId.as_str (Capability.user_id cap).
Proof.
  intros Hc. unfold PgAuthStore.capability in Hc. apply bind_Ok in Hc as (r & w1 & Hr & Hc).
  apply pool_select_Ok in Hr as [-> _]. unfold lift in Hc. injection Hc as Hc _.
  destruct (head _) as [[k row]|] eqn:Hh; [|done]. simpl in Hc.
  apply head_rows_where in Hh as [Hk HP]. unfold live_capability in HP.
  destruct (CapabilityRow.try_into _) as [cap'|] eqn:Ht; simplify_eq.
  unfold CapabilityRow.try_into in Ht. inv_ok. exists row. bool_prop.
  split_and!; try done; [by apply is_null_true|]. symmetry. by apply user_id_of_Ok.
Qed.

Lemma ceremony_Ok id kind now w c w' :
  PgAuthStore.ceremony id kind now w = (Ok (Some c), w') →
  ∃ row, auth_ceremonies (db w) !! id = Some row ∧ Ceremony.id c = id ∧
    AuthCeremony.consumed_at row = None ∧ now < AuthCeremony.expires_at row ∧
    AuthCeremony.user_id row = UserId.as_str <$> Ceremony.user_id c.
Proof.
  intros Hc. unfold PgAuthStore.ceremony in Hc. apply bind_Ok in Hc as (r & w1 & Hr & Hc).
  apply pool_select_Ok in Hr as [-> _]. unfold lift in Hc. injection Hc as Hc _.
  destruct (head _) as [[k row]|] eqn:Hh; [|done]. simpl in Hc.
  apply head_rows_where in Hh as [Hk HP]. unfold live_ceremony in HP.
  destruct (CeremonyRow.try_into _) as [c'|] eqn:Ht; simplify_eq.
  unfold CeremonyRow.try_into in Ht. inv_ok. exists row. bool_prop. subst.
  split_and!; try done; [by apply is_null_true|].
  destruct (AuthCeremony.user_id row) as [u|] eqn:Hu; simpl in *.
  - destruct (user_id_of u) eqn:Hid; simplify_eq. simpl. f_equal. symmetry. by apply user_id_of_Ok.
  - by simplify_eq.
Qed.

Section executions.
Context `{Entropy} (int4_as_i64 : bool).

Notation steps := (rtc (step int4_as_i64)).
Notation perform := (perform int4_as_i64).

Lemma perform_keeps c r w w1 :
  perform c w = (r, w1) → call_valid c → db_wf (db w) → db_wf (db w1) ∧ evolves (db w) (db w1).
Proof. intros Hp Hv Hw. by destruct (perform_safe _ _ Hv _ _ _ Hp Hw). Qed.

(** ** Ceremonies *)

Lemma completion_spends c w w1 id :
  (∃ hash v now audit, c = CompleteRegistration id hash v now audit) ∨
  (∃ v s now audit, c = CompleteAuthentication id v s now audit) →
  perform c w = (Ok tt, w1) →
  ∃ row, auth_ceremonies (db w) !! id = Some row ∧ AuthCeremony.consumed_at row = None ∧
    ∃ row', auth_ceremonies (db w1) !! id = Some row' ∧ is_Some (AuthCeremony.consumed_at row').
Proof.
  intros [(hash & v & now & audit & ->)|(v & s & now & audit & ->)] Hp.
  - apply complete_registration_Ok in Hp as (u & row & [(? & ? & _ & ?) _ _ _ _ _ _ _]).
    exists row. split_and!; try done. by eexists.
  - apply complete_authentication_Ok in Hp as (row & (? & ? & _ & ?) & _).
    exists row. split_and!; try done. by eexists.
Qed.

(** A ceremony is used at most once: after a registration or an authentication has completed
    with a ceremony, no later completion with that ceremony, of either kind, ever
    succeeds, whatever happens in between. *)
Theorem ceremony_used_once id c c' w w1 w2 w3 :
  db_wf (db w) → call_valid c →
  (∃ hash v now audit, c = CompleteRegistration id hash v now audit) ∨
  (∃ v s now audit, c = CompleteAuthentication id v s now audit) →
  (∃ hash v now audit, c' = CompleteRegistration id hash v now audit) ∨
  (∃ v s now audit, c' = CompleteAuthentication id v s now audit) →
  perform c w = (Ok tt, w1) → steps w1 w2 → perform c' w2 ≠ (Ok tt, w3).
Proof.
  intros Hw Hv Hc Hc' Hp Hs Hp'.
  destruct (completion_spends _ _ _ _ Hc Hp) as (_ & _ & _ & row & Hrow & Hspent).
  destruct (perform_keeps _ _ _ _ Hp Hv Hw) as [Hw1 _].
  destruct (steps_keep _ _ _ Hs Hw1) as [_ He].
  destruct (evolves_ceremonies _ _ He _ _ Hrow) as (row2 & Hrow2 & _ & _ & _ & _ & _ & Hst).
  destruct (completion_spends _ _ _ _ Hc' Hp') as (row2' & Hrow2' & Hnone & _).
  rewrite Hrow2 in Hrow2'. injection Hrow2' as <-. rewrite (Hst Hspent) in Hnone.
  by rewrite Hnone in Hspent; destruct Hspent.
Qed.

(** A capability registers at most one passkey: after a registration has consumed a capability
    the capability is never found again, and no later registration that presents it
    succeeds. *)
Theorem capability_used_once hash id v now audit w w1 w2 :
  db_wf (db w) →
  perform (CompleteRegistration id (Some hash) v now audit) w = (Ok tt, w1) → steps w1 w2 →
  (∀ purpose now' cap w3, PgAuthStore.capability hash purpose now' w2 ≠ (Ok (Some cap), w3)) ∧
  (∀ id' v' now' audit' w3,
     perform (CompleteRegistration id' (Some hash) v' now' audit') w2 ≠ (Ok tt, w3)).
Proof.
  intros Hw Hp Hs.
  destruct (perform_keeps _ _ _ _ Hp I Hw) as [Hw1 _].
  destruct (steps_keep _ _ _ Hs Hw1) as [Hw2 He].
  apply complete_registration_Ok in Hp as (u & c & [_ _ _ Hcap _ _ _ _]).
  destruct (Hcap _ eq_refl) as (k & row & _ & Hh & _ & _ & Hrow).
  destruct (evolves_capabilities _ _ He _ _ Hrow) as (row2 & Hrow2 & _ & _ & Hh2 & _ & Hst).
  simpl in Hh2, Hst. specialize (Hst ltac:(done)).
  assert (∀ k' row', auth_capabilities (db w2) !! k' = Some row' →
    AuthCapability.token_hash row' = SecretHash.as_bytes hash → AuthCapability.consumed_at row' = None →
    False) as Hno.
  { intros k' row' Hk' Hh' Hn.
    assert (k' = k) as ->; [|congruence].
    apply (capabilities_hash _ (wf_capabilities _ Hw2) _ _ _ _ Hk' Hrow2); [done|done|congruence]. }
  split.
  - intros purpose now' cap w3 (row' & Hk' & Hh' & Hn & _)%capability_Ok. by eapply Hno.
  - intros id' v' now' audit' w3 (u' & c' & [_ _ _ Hcap' _ _ _ _])%complete_registration_Ok.
    destruct (Hcap' _ eq_refl) as (k' & row' & Hk' & Hh' & Hn & _). by eapply Hno.
Qed.

(** ** Sessions *)

Lemma session_principal hash now idle w p w' :
  db_wf (db w) → PgAuthStore.session hash now idle w = (Ok (Some p), w') →
  ∃ s u, auth_sessions (db w) !! SessionPrincipal.session_id p = Some s ∧
    AuthSession.token_hash s = SecretHash.as_bytes hash ∧
    AuthSession.revoked_at s = None ∧ now < AuthSession.idle_expires_at s ∧
    now < AuthSession.absolute_expires_at s ∧
    UserId.as_str (User.id (SessionPrincipal.user p)) = AuthSession.user_id s ∧
    human_users (db w) !! AuthSession.user_id s = Some u ∧
    AuthSession.auth_epoch s = HumanUser.auth_epoch u ∧
    p = principal_of (SessionPrincipal.session_id p) s u.
Proof.
  intros Hw Hs. destruct (session_Ok _ _ _ _ _ _ Hw Hs) as (k & s & u & Hk & Hl & Hu & -> & _).
  exists s, u. unfold live_session in Hl. rewrite Hu in Hl. bool_prop. simpl.
  split_and!; try done. by apply is_null_true.
Qed.

End executions.

Lemma csrf_principal hash csrf now idle w p w' :
  db_wf (db w) → PgAuthStore.rotate_session_csrf hash csrf now idle w = (Ok (Some p), w') →
  ∃ s, auth_sessions (db w) !! SessionPrincipal.session_id p = Some s ∧
    AuthSession.token_hash s = SecretHash.as_bytes hash ∧ AuthSession.revoked_at s = None.
Proof.
  intros Hw Hs.
  destruct (rotate_session_csrf_Ok _ _ _ _ _ _ _ Hw Hs) as (k & s & u & Hk & Hl & Hu & -> & _).
  exists s. unfold live_session in Hl. bool_prop. split_and!; try done. by apply is_null_true.
Qed.

(** [session], exactly, under faults: when it answers, it answers with a principal if and only
    if a session row has the token's hash, is not revoked, has reached neither its idle nor
    its absolute expiry, and its owner is enabled and still at the epoch of the login; the
    principal is that owner with its current data, the only change is to that row, whose idle
    expiry moves to the given instant but never past the absolute one; and without faults it
    always answers. *)
Theorem session_exact hash now idle w :
  db_wf (db w) →
  (calm w → ∃ r w', PgAuthStore.session hash now idle w = (Ok r, w')) ∧
  ∀ r w', PgAuthStore.session hash now idle w = (Ok r, w') →
    (r = None ↔ ∀ k s, auth_sessions (db w) !! k = Some s → live_session (db w) hash now k s = false) ∧
    match r with
    | None => db w' = db w
    | Some p => ∃ k s u,
        auth_sessions (db w) !! k = Some s ∧ live_session (db w) hash now k s = true ∧
        human_users (db w) !! AuthSession.user_id s = Some u ∧ p = principal_of k s u ∧
        (∀ k', k' ≠ k → auth_sessions (db w') !! k' = auth_sessions (db w) !! k') ∧
        auth_sessions (db w') !! k =
          Some (set_seen None (Z.min idle (AuthSession.absolute_expires_at s)) now s) ∧
        human_users (db w') = human_users (db w) ∧ auth_audit_events (db w') = auth_audit_events (db w)
    end.
Proof.
  intros Hw. split; [intros Hc; by apply session_calm|]. intros r w' Hs.
  apply session_Ok in Hs; [|done]. destruct r as [p|].
  - destruct Hs as (k & s & u & Hk & Hl & Hu & -> & Hd). split.
    { split; [done|]. intros Hno. by rewrite (Hno _ _ Hk) in Hl. }
    exists k, s, u. rewrite Hd. simpl. split_and!; try done.
    + intros k' Hk'. rewrite lookup_update_where, (proj2 (Z.eqb_neq _ _) Hk').
      by destruct (auth_sessions (db w) !! k').
    + by rewrite lookup_update_where, Hk; simpl; rewrite Z.eqb_refl.
  - destruct Hs as [Hd Hno]. by split.
Qed.

Section executions.
Context `{Entropy} (int4_as_i64 : bool).

Notation steps := (rtc (step int4_as_i64)).
Notation perform := (perform int4_as_i64).

(** C17: a session never outlives the absolute expiry set at login, and never changes hands: however
    often it is refreshed, whenever it is accepted the instant is before that expiry, which is
    the one reported, and the account is the one that logged in. *)
Theorem sessions_never_outlive k s w w' hash now idle p w'' :
  db_wf (db w) → auth_sessions (db w) !! k = Some s → steps w w' →
  PgAuthStore.session hash now idle w' = (Ok (Some p), w'') → SessionPrincipal.session_id p = k →
  now < AuthSession.absolute_expires_at s ∧
  SessionPrincipal.absolute_expires_at p = AuthSession.absolute_expires_at s ∧
  UserId.as_str (User.id (SessionPrincipal.user p)) = AuthSession.user_id s ∧
  AuthSession.auth_epoch s = User.auth_epoch (SessionPrincipal.user p) ∧
  ∀ s'', auth_sessions (db w'') !! k = Some s'' →
    AuthSession.idle_expires_at s'' ≤ AuthSession.absolute_expires_at s.
Proof.
  intros Hw Hk Hs Hp <-. destruct (steps_keep _ _ _ Hs Hw) as [Hw' He].
  destruct (evolves_sessions _ _ He _ _ Hk) as (s' & Hk' & Hu & _ & Hep & Ha & _).
  pose proof (session_Ok _ _ _ _ _ _ Hw' Hp) as (k2 & s2 & u & Hk2 & Hl & Hus & Hpr & Hd).
  rewrite Hpr in *. simpl in *. rewrite Hk2 in Hk'. injection Hk' as ->.
  unfold live_session in Hl. rewrite Hus in Hl. bool_prop. split_and!; [lia|congruence|congruence|lia|].
  intros s''. rewrite Hd. simpl. rewrite lookup_update_where, Hk2. simpl. rewrite Z.eqb_refl.
  intros [= <-]. simpl. lia.
Qed.

Lemma delete_session_Ok hash w w' :
  PgAuthStore.delete_session hash w = (Ok tt, w') →
  ∀ k s, auth_sessions (db w) !! k = Some s → AuthSession.token_hash s = SecretHash.as_bytes hash →
  ∃ s', auth_sessions (db w') !! k = Some s' ∧ AuthSession.token_hash s' = AuthSession.token_hash s ∧
        is_Some (AuthSession.revoked_at s').
Proof.
  unfold PgAuthStore.delete_session. intros Hd k s Hk Hh. apply bind_Ok in Hd as (n & w1 & Hd & Hr).
  injection Hr as <-. unfold store_err, err_with, pool_execute in Hd.
  destruct (next_verdict w) as [v w2] eqn:Hv. apply next_verdict_spec in Hv as (D & _).
  destruct v; [|done..]. injection Hd as _ <-. simpl. rewrite D, lookup_update_where, Hk. simpl.
  rewrite bool_decide_true by done. simpl. eexists. split; [done|].
  destruct (AuthSession.revoked_at s) eqn:Hn; simpl; [|done]. by rewrite Hn.
Qed.

(** A session that is revoked is the only one with its token, and stays revoked. *)
Lemma revoked_stays k s d d' :
  db_wf d' → evolves d d' → auth_sessions d !! k = Some s → is_Some (AuthSession.revoked_at s) →
  ∀ k' s', auth_sessions d' !! k' = Some s' → AuthSession.token_hash s' = AuthSession.token_hash s →
  AuthSession.revoked_at s' ≠ None.
Proof.
  intros Hw He Hk Hr k' s' Hk' Hh Hn.
  destruct (evolves_sessions _ _ He _ _ Hk) as (s2 & Hk2 & _ & Hh2 & _ & _ & Hst). specialize (Hst Hr).
  assert (k' = k) as ->.
  { apply (sessions_hash _ (wf_sessions _ Hw) _ _ _ _ Hk' Hk2); [done|done|congruence]. }
  rewrite Hk2 in Hk'. injection Hk' as ->. rewrite <- Hst, Hn in Hr. by destruct Hr.
Qed.

(** Logging out is final: once a session's token has been deleted, no later call accepts that
    token, neither to authenticate nor to renew the anti-forgery token. *)
Theorem logout_is_final k s hash w w1 w2 :
  db_wf (db w) → auth_sessions (db w) !! k = Some s →
  AuthSession.token_hash s = SecretHash.as_bytes hash →
  PgAuthStore.delete_session hash w = (Ok tt, w1) → steps w1 w2 →
  (∀ now idle p w3, PgAuthStore.session hash now idle w2 ≠ (Ok (Some p), w3)) ∧
  (∀ csrf now idle p w3, PgAuthStore.rotate_session_csrf hash csrf now idle w2 ≠ (Ok (Some p), w3)).
Proof.
  intros Hw Hk Hh Hd Hs.
  destruct (delete_session_Ok _ _ _ Hd _ _ Hk Hh) as (s1 & Hk1 & Hh1 & Hr).
  destruct (perform_keeps int4_as_i64 (DeleteSession hash) _ _ _ Hd I Hw) as [Hw1 _].
  destruct (steps_keep _ _ _ Hs Hw1) as [Hw2 He].
  pose proof (revoked_stays _ _ _ _ Hw2 He Hk1 Hr) as Hno.
  split.
  - intros now idle p w3 Hp.
    destruct (session_principal _ _ _ _ _ _ Hw2 Hp) as (s' & u & Hk' & Hh' & Hn & _).
    apply (Hno _ _ Hk'); [congruence|done].
  - intros csrf now idle p w3 Hp.
    destruct (csrf_principal _ _ _ _ _ _ _ Hw2 Hp) as (s' & Hk' & Hh' & Hn).
    apply (Hno _ _ Hk'); [congruence|done].
Qed.

(** ** Invalidation *)

(** The operations that cut an account off, and the account they cut off. *)
Definition cuts (c : store_call) (d : Db) (user : string) : Prop :=
  match c with
  | ApproveRecovery id _ _ => ∃ r, recovery_requests d !! id = Some r ∧ Recovery.user_id r = user
  | BreakGlass _ cap _ _ => UserId.as_str (Capability.user_id cap) = user
  | RotateAllAuthEpochs _ _ => is_Some (human_users d !! user)
  | _ => False
  end.

Lemma cuts_off c user w w1 :
  perform c w = (Ok tt, w1) → cuts c (db w) user → cut_off user (db w) (db w1).
Proof.
  intros Hp Hc. destruct c; try done; simpl in *.
  - unfold forget in Hp. apply bind_Ok in Hp as (n & w2 & Hp & Hr). injection Hr as <-.
    apply rotate_all_Ok in Hp as (_ & _ & Hcut). by apply Hcut.
  - destruct Hc as (r & Hr & <-). apply approve_recovery_Ok in Hp as (r' & Hr' & _ & _ & _ & _ & Hcut).
    rewrite Hr in Hr'. by injection Hr' as ->.
  - apply break_glass_Ok in Hp as (cr & cp & _ & _ & _ & _ & _ & Hcut & _). by subst.
Qed.

(** C6: approving a recovery, breaking glass, and rotating all epochs cut the account off: from
    then on, in any later state, no session the account had is accepted, nor any session whose
    login read the account before (its epoch is too old); none of its
    capabilities and none of the ceremonies bound to it can be used. *)
Theorem invalidation_cuts_access c user u w w1 w2 :
  db_wf (db w) → call_valid c → cuts c (db w) user → human_users (db w) !! user = Some u →
  perform c w = (Ok tt, w1) → steps w1 w2 →
  (∀ hash now idle p w3, PgAuthStore.session hash now idle w2 = (Ok (Some p), w3) →
     UserId.as_str (User.id (SessionPrincipal.user p)) = user →
     auth_sessions (db w) !! SessionPrincipal.session_id p = None ∧
     ∃ s, auth_sessions (db w2) !! SessionPrincipal.session_id p = Some s ∧
          HumanUser.auth_epoch u < AuthSession.auth_epoch s) ∧
  (∀ hash purpose now cap w3, PgAuthStore.capability hash purpose now w2 = (Ok (Some cap), w3) →
     UserId.as_str (Capability.user_id cap) = user →
     auth_capabilities (db w) !! Capability.id cap = None) ∧
  (∀ id kind now cer w3, PgAuthStore.ceremony id kind now w2 = (Ok (Some cer), w3) →
     UserId.as_str <$> Ceremony.user_id cer = Some user → auth_ceremonies (db w) !! id = None).
Proof.
  intros Hw Hv Hc Hu Hp Hs.
  destruct (perform_keeps _ _ _ _ _ Hp Hv Hw) as [Hw1 He1].
  destruct (steps_keep _ _ _ Hs Hw1) as [Hw2 He2].
  pose proof (cut_off_evolves _ _ _ _ (cuts_off _ _ _ _ Hp Hc) He2) as [C1 C2 C3 C4].
  assert (evolves (db w) (db w2)) as He by (by etransitivity). split_and!.
  - intros hash now idle p w3 Hses Hown.
    destruct (session_principal _ _ _ _ _ _ Hw2 Hses) as (s & u2 & Hk & _ & Hn & _ & _ & Hid & Hu2 & Hep & _).
    rewrite Hown in Hid. rewrite <- Hid in Hu2. split.
    + apply eq_None_not_Some. intros [s0 Hs0].
      destruct (evolves_sessions _ _ He _ _ Hs0) as (s1 & Hs1 & Hus & _).
      rewrite Hk in Hs1. injection Hs1 as <-.
      destruct (C2 _ _ Hs0) as (s1 & Hs1 & Hr); [congruence|].
      rewrite Hk in Hs1. injection Hs1 as <-. rewrite Hn in Hr. by destruct Hr.
    + destruct (C1 _ Hu) as (u3 & Hu3 & Hlt). rewrite Hu2 in Hu3. injection Hu3 as <-.
      exists s. split; [done|lia].
  - intros hash purpose now cap w3 (row & Hk & _ & Hn & _ & Hus)%capability_Ok Hown.
    apply eq_None_not_Some. intros [row0 H0].
    destruct (evolves_capabilities _ _ He _ _ H0) as (row1 & H1 & Hus1 & _).
    rewrite Hk in H1. injection H1 as <-.
    destruct (C4 _ _ H0) as (row1 & H1 & Hr); [congruence|].
    rewrite Hk in H1. injection H1 as <-. rewrite Hn in Hr. by destruct Hr.
  - intros id kind now cer w3 (row & Hk & _ & Hn & _ & Hus)%ceremony_Ok Hown.
    apply eq_None_not_Some. intros [row0 H0].
    destruct (evolves_ceremonies _ _ He _ _ H0) as (row1 & H1 & _ & Hus1 & _).
    rewrite Hk in H1. injection H1 as <-.
    destruct (C3 _ _ H0) as (row1 & H1 & Hr); [congruence|].
    rewrite Hk in H1. injection H1 as <-. rewrite Hn in Hr. by destruct Hr.
Qed.

(** A recovery yields a setup capability only after its approval and only once: issuing succeeds
    only for an approved, unfinished recovery of the capability's own account, leaves a live
    capability for it, and never succeeds a second time for that recovery. *)
Theorem recovery_setup_issued_once id c op now w w1 w2 :
  db_wf (db w) → perform (IssueRecoverySetup id c op now) w = (Ok tt, w1) → steps w1 w2 →
  (∃ r cap, recovery_requests (db w) !! id = Some r ∧ is_Some (Recovery.approved_at r) ∧
     Recovery.completed_at r = None ∧
     Recovery.user_id r = UserId.as_str (Capability.user_id c) ∧
     auth_capabilities (db w1) !! Capability.id c = Some cap ∧
     AuthCapability.user_id cap = Recovery.user_id r ∧
     AuthCapability.token_hash cap = SecretHash.as_bytes (Capability.token_hash c) ∧
     AuthCapability.consumed_at cap = None) ∧
  ∀ c' op' now' w3, perform (IssueRecoverySetup id c' op' now') w2 ≠ (Ok tt, w3).
Proof.
  intros Hw Hp Hs. destruct (perform_keeps _ _ _ _ _ Hp I Hw) as [Hw1 _].
  destruct (steps_keep _ _ _ Hs Hw1) as [_ He].
  apply issue_recovery_setup_Ok in Hp as (r & cap & Hr & Ha & Hi & Hc & Hu & Hr1 & Hcap & ? & ? & ? & ? & ?).
  split; [by exists r, cap|]. intros c' op' now' w3 (r' & cap' & Hr' & _ & Hi' & _)%issue_recovery_setup_Ok.
  destruct (evolves_recoveries _ _ He _ _ Hr1) as (r2 & Hr2 & _ & _ & _ & Hst & _).
  rewrite Hr2 in Hr'. injection Hr' as ->. simpl in Hst. rewrite (Hst ltac:(done)) in Hi'. done.
Qed.

(** C22: a successful registration, exactly: the ceremony was live and is now spent; a bootstrap
    ceremony finds no active operator credential; a presented capability was live and is
    spent with it; exactly one credential is added, for the ceremony's own account; accounts
    and sessions are untouched and exactly the given audit event is appended. *)
Theorem registration_exact id hash credential now audit w w1 :
  perform (CompleteRegistration id hash credential now audit) w = (Ok tt, w1) →
  ∃ user c, registered id hash credential now audit (db w) (db w1) user c.
Proof. apply complete_registration_Ok. Qed.

(** C40: rotating all epochs works only if the driver reads [INT4] as [i64]: with a driver that
    does not, it never succeeds as soon as one account exists, and fails without changing
    anything when the connection does not; with one that does, a success reports the number of
    accounts and cuts off every one of them. *)
Theorem rotate_all_needs_wide_integers now reason w :
  (human_users (db w) ≠ ∅ →
   (∀ n w', PgAuthStore.rotate_all_auth_epochs false now reason w ≠ (Ok n, w')) ∧
   (calm w → ∃ w', PgAuthStore.rotate_all_auth_epochs false now reason w = (Err Store, w') ∧ db w' = db w)) ∧
  (∀ b n w', PgAuthStore.rotate_all_auth_epochs b now reason w = (Ok n, w') →
     n = Z.of_nat (size (human_users (db w))) ∧
     ∀ user, is_Some (human_users (db w) !! user) → cut_off user (db w) (db w')).
Proof.
  split.
  - intros Hne. split.
    + by intros n w' (_ & [|] & _)%rotate_all_Ok.
    + intros Hc. unfold PgAuthStore.rotate_all_auth_epochs. rewrite calm_transaction by done.
      unfold bind, store_err, err_with, tx_execute. simpl. rewrite calm_next by done.
      unfold update_epochs. rewrite rows_where_all.
      destruct (existsb _ _); simpl; [by eexists|].
      destruct (map_to_list (human_users (db w))) eqn:Hl; simpl; [|by eexists].
      by apply map_to_list_empty_iff in Hl.
  - intros b n w' (? & _ & ?)%rotate_all_Ok. done.
Qed.

End executions.

(** ** Names *)

(** The names stored in the database are exactly the ones it admits and read back: each role,
    purpose and ceremony kind parses back from its name, parsing accepts nothing else, and
    the accepted names are those the schema's checks list. *)
Lemma names_roundtrip :
  (∀ role s, parse_role s = Ok role ↔ s = role_name role) ∧
  (∀ purpose s, parse_purpose s = Ok purpose ↔ s = purpose_name purpose) ∧
  (∀ kind s, parse_ceremony_kind s = Ok kind ↔ s = ceremony_name kind) ∧
  (∀ s, is_ok (parse_purpose s) = true ↔ s ∈ purpose_names) ∧
  (∀ s, is_ok (parse_ceremony_kind s) = true ↔ s ∈ kind_names) ∧
  (∀ s, is_ok (parse_role s) = true ↔ s = "user" ∨ s = "operator").
Proof.
  unfold parse_role, parse_purpose, parse_ceremony_kind, purpose_names, kind_names. split_and!.
  - intros [] s; repeat case_match; rewrite ?String.eqb_eq, ?String.eqb_neq in *; naive_solver.
  - intros [] s; repeat case_match; rewrite ?String.eqb_eq, ?String.eqb_neq in *; naive_solver.
  - intros [] s; repeat case_match; rewrite ?String.eqb_eq, ?String.eqb_neq in *; naive_solver.
  - intros s. rewrite !elem_of_cons, elem_of_nil.
    repeat case_match; rewrite ?String.eqb_eq, ?String.eqb_neq in *; naive_solver.
  - intros s. rewrite !elem_of_cons, elem_of_nil.
    repeat case_match; rewrite ?String.eqb_eq, ?String.eqb_neq in *; naive_solver.
  - intros s. repeat case_match; rewrite ?String.eqb_eq, ?String.eqb_neq in *; naive_solver.
Qed.
