(* ===== verification/Overlay.v ===== *)
(** * Overlay: the rows a transaction has written over the published database

    Under read committed, a statement sees what has been committed and what its own transaction
    has written.  The writes of an open transaction are a [Db] of their own: the rows it has
    inserted or updated, and the audit rows it has appended.  [over] is what the transaction sees;
    [written] reads its writes off the database a statement leaves.  Two transactions are
    [compatible] if they have written no row in common and no two rows that a unique index
    keeps apart: the server makes a statement wait rather than break this. *)
From S2P Require Export PgSafety.

#[export] Instance HumanUser_eq_dec : EqDecision HumanUser.t.
Proof. solve_decision. Defined.
#[export] Instance PasskeyCredential_eq_dec : EqDecision PasskeyCredential.t.
Proof. solve_decision. Defined.
#[export] Instance AuthCapability_eq_dec : EqDecision AuthCapability.t.
Proof. solve_decision. Defined.
#[export] Instance AuthCeremony_eq_dec : EqDecision AuthCeremony.t.
Proof. solve_decision. Defined.
#[export] Instance AuthSession_eq_dec : EqDecision AuthSession.t.
Proof. solve_decision. Defined.
#[export] Instance Recovery_eq_dec : EqDecision Recovery.t.
Proof. solve_decision. Defined.

(** ** One table *)

Section tables.
Context {K V : Type} `{Countable K} `{EqDecision V}.
Implicit Types (p a b w d : gmap K V) (R : V → V → Prop).

(** The rows of [d] that are the transaction's: those it had written before, and those that are not
    as published. *)
Definition rows_written p w d : gmap K V :=
  filter (λ kv, is_Some (w !! kv.1) ∨ p !! kv.1 ≠ Some kv.2) d.

(** No row of the one has the value of a row of the other, among those an index covers. *)
Definition no_clash {B} (Q : V → bool) (f : V → B) a b : Prop :=
  map_Forall (λ _ v1, map_Forall (λ _ v2, Q v1 = true → Q v2 = true → f v1 ≠ f v2) b) a.

(** The published rows at the keys of [w] are as they were. *)
Definition rows_untouched w p p' : Prop := ∀ k, is_Some (w !! k) → p' !! k = p !! k.

Lemma no_clash_sym {B} (Q : V → bool) (f : V → B) a b :
  no_clash Q f a b → no_clash Q f b a.
Proof. intros Hn k1 v1 H1 k2 v2 H2 Q1 Q2 He. by apply (Hn _ _ H2 _ _ H1). Qed.

Lemma union_rows_written R p w d :
  table_evolves R (w ∪ p) d → rows_written p w d ∪ p = d.
Proof.
  intros He. apply map_eq. intros k. unfold rows_written. destruct (d !! k) as [v|] eqn:Hd.
  - destruct (decide (is_Some (w !! k) ∨ p !! k ≠ Some v)) as [Hw|Hw].
    + apply lookup_union_Some_l. by apply map_lookup_filter_Some_2.
    + rewrite lookup_union_r; [|apply map_lookup_filter_None_2; right; naive_solver].
      destruct (decide (p !! k = Some v)) as [->|]; [done|naive_solver].
  - assert (p !! k = None) as Hp.
    { destruct (p !! k) as [v|] eqn:Hp; [|done]. destruct (w !! k) as [v'|] eqn:Hw.
      - destruct (He k v') as (? & ? & _); [by apply lookup_union_Some_l|congruence].
      - destruct (He k v) as (? & ? & _); [by rewrite lookup_union_r|congruence]. }
    rewrite lookup_union_r; [done|]. apply map_lookup_filter_None_2. by left.
Qed.

(** A transaction never forgets that it has written a row. *)
Lemma rows_written_mono R p w d k :
  table_evolves R (w ∪ p) d → is_Some (w !! k) → is_Some (rows_written p w d !! k).
Proof.
  intros He [v Hv]. destruct (He k v) as (v' & Hd & _); [by apply lookup_union_Some_l|].
  exists v'. apply map_lookup_filter_Some_2; [done|]. left. simpl. by rewrite Hv.
Qed.

(** A table the transaction has not touched, and one its statement leaves alone. *)
Lemma rows_written_none p : rows_written p ∅ p = ∅.
Proof.
  apply map_eq. intros k. rewrite lookup_empty. apply map_lookup_filter_None_2. right.
  intros v Hv [[? Hk]|Hk]; simpl in *; [by rewrite lookup_empty in Hk|done].
Qed.

Lemma rows_written_same p w : rows_written p w (w ∪ p) = w.
Proof.
  apply map_eq. intros k. destruct (w !! k) as [v|] eqn:Hw.
  - apply map_lookup_filter_Some_2; [by apply lookup_union_Some_l|]. left. simpl. by rewrite Hw.
  - apply map_lookup_filter_None_2. right. intros v. rewrite lookup_union_r by done.
    intros Hv [[? Hk]|Hk]; simpl in *; congruence.
Qed.

Lemma rows_untouched_refl w p : rows_untouched w p p.
Proof. by intros k _. Qed.

Lemma rows_untouched_trans w p1 p2 p3 :
  rows_untouched w p1 p2 → rows_untouched w p2 p3 → rows_untouched w p1 p3.
Proof. intros H1 H2 k Hk. rewrite (H2 k Hk). by apply H1. Qed.

(** *** Two transactions over the same rows *)

Section merged.
Context (p a b : gmap K V) (Hab : a ##ₘ b).

Lemma merged_row k v : (b ∪ (a ∪ p)) !! k = Some v → (a ∪ p) !! k = Some v ∨ (b ∪ p) !! k = Some v.
Proof.
  intros [Hb|[Hb Ha]]%lookup_union_Some_raw; [right; by apply lookup_union_Some_l|by left].
Qed.

Lemma forall_merged (Qa Qb Q : K → V → Prop) :
  (∀ k v, Qa k v → Q k v) → (∀ k v, Qb k v → Q k v) →
  map_Forall Qa (a ∪ p) → map_Forall Qb (b ∪ p) → map_Forall Q (b ∪ (a ∪ p)).
Proof. intros Ia Ib Ha Hb k v [Hk|Hk]%merged_row; [by apply Ia, Ha|by apply Ib, Hb]. Qed.

(** A row of [a] is in the rows [a] sees, and so on. *)
Lemma merged_cases k v : (b ∪ (a ∪ p)) !! k = Some v →
  b !! k = Some v ∨ a !! k = Some v ∨ (a !! k = None ∧ b !! k = None ∧ p !! k = Some v).
Proof. rewrite !lookup_union_Some_raw. naive_solver. Qed.

Lemma unique_merged {B} (Q : V → bool) (f : V → B) :
  unique_among (λ v, Q v = true) f (a ∪ p) → unique_among (λ v, Q v = true) f (b ∪ p) →
  no_clash Q f a b → unique_among (λ v, Q v = true) f (b ∪ (a ∪ p)).
Proof.
  intros Ua Ub Hn k1 k2 v1 v2 H1 H2 Q1 Q2 He.
  assert (∀ k v, b !! k = Some v → (b ∪ p) !! k = Some v) as Ib by (intros; by apply lookup_union_Some_l).
  assert (∀ k v, a !! k = Some v → (a ∪ p) !! k = Some v) as Ia by (intros; by apply lookup_union_Some_l).
  assert (∀ k v, a !! k = None → p !! k = Some v → (a ∪ p) !! k = Some v) as Pa
    by (intros; by rewrite lookup_union_r).
  assert (∀ k v, b !! k = None → p !! k = Some v → (b ∪ p) !! k = Some v) as Pb
    by (intros; by rewrite lookup_union_r).
  apply merged_cases in H1 as [B1|[A1|(NA1 & NB1 & P1)]], H2 as [B2|[A2|(NA2 & NB2 & P2)]].
  1,3,7: apply (Ub k1 k2 v1 v2); eauto.
  3-6: apply (Ua k1 k2 v1 v2); eauto.
  - by destruct (Hn _ _ A2 _ _ B1).
  - by destruct (Hn _ _ A1 _ _ B2).
Qed.

Lemma evolves_merged R : Reflexive R → table_evolves R p (b ∪ p) → table_evolves R (a ∪ p) (b ∪ (a ∪ p)).
Proof.
  intros HR He k v Hk. destruct (b !! k) as [v'|] eqn:Hb.
  - assert (a !! k = None) as Ha by (eapply map_disjoint_Some_r; eassumption).
    rewrite lookup_union_r in Hk by done. destruct (He k v Hk) as (v2 & Hv2 & Hr).
    rewrite (lookup_union_Some_l _ _ _ _ Hb) in Hv2. injection Hv2 as <-.
    exists v'. split; [by apply lookup_union_Some_l|done].
  - exists v. split; [by rewrite lookup_union_r|apply HR].
Qed.

Lemma untouched_merged : rows_untouched b p (a ∪ p).
Proof.
  intros k [v Hb]. apply lookup_union_r. eapply map_disjoint_Some_r; eassumption.
Qed.

End merged.

End tables.

(** ** The database *)

Definition over (p w : Db) : Db := mkDb
  (human_users w ∪ human_users p) (passkey_credentials w ∪ passkey_credentials p)
  (auth_capabilities w ∪ auth_capabilities p) (auth_ceremonies w ∪ auth_ceremonies p)
  (auth_sessions w ∪ auth_sessions p) (recovery_requests w ∪ recovery_requests p)
  (auth_audit_events p ++ auth_audit_events w).

Definition written (p w d : Db) : Db := mkDb
  (rows_written (human_users p) (human_users w) (human_users d))
  (rows_written (passkey_credentials p) (passkey_credentials w) (passkey_credentials d))
  (rows_written (auth_capabilities p) (auth_capabilities w) (auth_capabilities d))
  (rows_written (auth_ceremonies p) (auth_ceremonies w) (auth_ceremonies d))
  (rows_written (auth_sessions p) (auth_sessions w) (auth_sessions d))
  (rows_written (recovery_requests p) (recovery_requests w) (recovery_requests d))
  (drop (length (auth_audit_events p)) (auth_audit_events d)).

Record compatible (a b : Db) : Prop := {
  apart_users : human_users a ##ₘ human_users b;
  apart_credentials : passkey_credentials a ##ₘ passkey_credentials b;
  apart_capabilities : auth_capabilities a ##ₘ auth_capabilities b;
  apart_ceremonies : auth_ceremonies a ##ₘ auth_ceremonies b;
  apart_sessions : auth_sessions a ##ₘ auth_sessions b;
  apart_recoveries : recovery_requests a ##ₘ recovery_requests b;
  clash_handle : no_clash (λ _, true) HumanUser.webauthn_handle (human_users a) (human_users b);
  clash_email : no_clash (λ _, true) HumanUser.email (human_users a) (human_users b);
  clash_credential : no_clash (λ _, true) PasskeyCredential.credential_id
    (passkey_credentials a) (passkey_credentials b);
  clash_capability : no_clash (λ _, true) AuthCapability.token_hash (auth_capabilities a) (auth_capabilities b);
  clash_session : no_clash (λ _, true) AuthSession.token_hash (auth_sessions a) (auth_sessions b);
  clash_recovery : no_clash pending Recovery.user_id (recovery_requests a) (recovery_requests b);
}.

#[export] Instance no_clash_dec `{Countable K} {V B} `{EqDecision B} (Q : V → bool) (f : V → B) (a b : gmap K V) :
  Decision (no_clash Q f a b).
Proof. unfold no_clash. apply _. Defined.

#[export] Instance compatible_dec a b : Decision (compatible a b).
Proof.
  refine (cast_if (decide
    ((human_users a ##ₘ human_users b ∧ passkey_credentials a ##ₘ passkey_credentials b ∧
      auth_capabilities a ##ₘ auth_capabilities b ∧ auth_ceremonies a ##ₘ auth_ceremonies b ∧
      auth_sessions a ##ₘ auth_sessions b ∧ recovery_requests a ##ₘ recovery_requests b) ∧
     no_clash (λ _, true) HumanUser.webauthn_handle (human_users a) (human_users b) ∧
     no_clash (λ _, true) HumanUser.email (human_users a) (human_users b) ∧
     no_clash (λ _, true) PasskeyCredential.credential_id (passkey_credentials a) (passkey_credentials b) ∧
     no_clash (λ _, true) AuthCapability.token_hash (auth_capabilities a) (auth_capabilities b) ∧
     no_clash (λ _, true) AuthSession.token_hash (auth_sessions a) (auth_sessions b) ∧
     no_clash pending Recovery.user_id (recovery_requests a) (recovery_requests b))));
    [constructor; naive_solver|intros []; naive_solver].
Defined.

(** The published rows at the keys [w] has written are as they were. *)
Record untouched (w p p' : Db) : Prop := {
  untouched_users : rows_untouched (human_users w) (human_users p) (human_users p');
  untouched_credentials : rows_untouched (passkey_credentials w) (passkey_credentials p) (passkey_credentials p');
  untouched_capabilities : rows_untouched (auth_capabilities w) (auth_capabilities p) (auth_capabilities p');
  untouched_ceremonies : rows_untouched (auth_ceremonies w) (auth_ceremonies p) (auth_ceremonies p');
  untouched_sessions : rows_untouched (auth_sessions w) (auth_sessions p) (auth_sessions p');
  untouched_recoveries : rows_untouched (recovery_requests w) (recovery_requests p) (recovery_requests p');
}.

#[export] Instance untouched_preorder w : PreOrder (untouched w).
Proof.
  split.
  - intros p. constructor; apply rows_untouched_refl.
  - intros p1 p2 p3 [] []. constructor; eapply rows_untouched_trans; eassumption.
Qed.

Lemma over_empty p : over p empty_db = p.
Proof. destruct p. unfold over. simpl. by rewrite !(left_id_L ∅ (∪)), app_nil_r. Qed.

Lemma compatible_sym a b : compatible a b → compatible b a.
Proof. intros []. constructor; first [by symmetry | by apply no_clash_sym]. Qed.

Lemma compatible_empty a : compatible a empty_db.
Proof. constructor; first [apply map_disjoint_empty_r | by intros ? ? _ ? ? ?]. Qed.

Lemma over_written p w d : evolves (over p w) d → over p (written p w d) = d.
Proof.
  intros [He1 He2 He3 He4 He5 He6 [l Hl]]. destruct d. unfold over, written. simpl in *. f_equal.
  1-6: by eapply union_rows_written.
  rewrite Hl, <- app_assoc, drop_app_length. done.
Qed.

(** A statement that only reads. *)
Lemma written_over p w : written p w (over p w) = w.
Proof. unfold written, over. simpl. rewrite !rows_written_same, drop_app_length. by destruct w. Qed.

(** What a transaction has written it keeps. *)
Lemma untouched_written p w d p1 p2 :
  evolves (over p w) d → untouched (written p w d) p1 p2 → untouched w p1 p2.
Proof.
  intros [] []. constructor; intros k Hk;
    match goal with H : rows_untouched (?T (written _ _ _)) _ _ |- ?T _ !! _ = _ => apply H end;
    eapply rows_written_mono; eassumption.
Qed.

Section merged.
Context (p a b : Db) (Hab : compatible a b).

Lemma untouched_over : untouched b p (over p a).
Proof. destruct Hab. constructor; by apply untouched_merged. Qed.

Lemma evolves_over : evolves p (over p b) → evolves (over p a) (over (over p a) b).
Proof.
  destruct Hab. intros []. constructor; simpl; try (apply evolves_merged; try done; apply _).
  by apply prefix_app_r.
Qed.

Lemma references_over id : references id (over p a) ∨ references id (over p b) → references id (over (over p a) b).
Proof.
  unfold references. simpl. intros [[u Hu]|[u Hu]].
  - destruct (human_users b !! id) as [u'|] eqn:Hb; [exists u'; by apply lookup_union_Some_l|].
    exists u. by rewrite lookup_union_r.
  - apply lookup_union_Some_raw in Hu as [Hu|[Hb Hp]]; [exists u; by apply lookup_union_Some_l|].
    rewrite lookup_union_r by done. destruct (human_users a !! id) as [u'|] eqn:Ha.
    + exists u'. by apply lookup_union_Some_l.
    + exists u. by rewrite lookup_union_r.
Qed.

Lemma references_opt_over id :
  references_opt id (over p a) ∨ references_opt id (over p b) → references_opt id (over (over p a) b).
Proof. intros Hr u Hu. apply references_over. destruct Hr; [left|right]; auto. Qed.

Lemma unique_on_among {K V B} `{Countable K} (f : V → B) (m : gmap K V) :
  unique_on f m → unique_among (λ _, true = true) f m.
Proof. intros Hu k1 k2 v1 v2 H1 H2 _ _. by apply Hu. Qed.

Lemma unique_on_merged {K V B} `{Countable K} (f : V → B) (q c d : gmap K V) :
  c ##ₘ d → unique_on f (c ∪ q) → unique_on f (d ∪ q) → no_clash (λ _, true) f c d → unique_on f (d ∪ (c ∪ q)).
Proof.
  intros Hd Hc Hd' Hn k1 k2 v1 v2 H1 H2 _ _.
  by apply (unique_merged q c d (λ _, true) f (unique_on_among _ _ Hc) (unique_on_among _ _ Hd') Hn
    k1 k2 v1 v2 H1 H2).
Qed.

(** Two compatible transactions can both commit. *)
Lemma wf_over : db_wf (over p a) → db_wf (over p b) → db_wf (over (over p a) b).
Proof.
  destruct Hab. intros [Ua Ca Pa Ya Sa Ra FCa FPa FYa FSa FRa FAa] [Ub Cb Pb Yb Sb Rb FCb FPb FYb FSb FRb FAb].
  destruct Ua, Ub, Pa, Pb, Ya, Yb, Sa, Sb. simpl in *.
  constructor; [constructor| |constructor|constructor|constructor| | | | | | |]; simpl.
  all: try match goal with |- map_Forall ?Q _ => apply (forall_merged _ _ _ Q Q Q); done end.
  all: try (apply unique_on_merged; done).
  - by apply unique_merged.
  - refine (forall_merged _ _ _ _ _ _ _ _ FCa FCb); intros; apply references_over; auto.
  - refine (forall_merged _ _ _ _ _ _ _ _ FPa FPb); intros; apply references_over; auto.
  - refine (forall_merged _ _ _ _ _ _ _ _ FYa FYb); intros; apply references_opt_over; auto.
  - refine (forall_merged _ _ _ _ _ _ _ _ FSa FSb); intros; apply references_over; auto.
  - refine (forall_merged _ _ _ _ _ _ _ _ FRa FRb); intros k v [? ?];
      (split; [apply references_over|apply references_opt_over]); auto.
  - intros e [He|He]%elem_of_app.
    + destruct (FAa e He). split; apply references_opt_over; by left.
    + destruct (FAb e); [by apply elem_of_app; right|]. split; apply references_opt_over; by right.
Qed.

End merged.
