(* ===== verification/Transactions.v ===== *)
(** * Transactions: the calls of the store as scripts of statements ([server/src/repository.rs])

    [PgStore.v] runs a transaction as a whole.  Here each operation that changes the database is
    a [Script], the tree of its statements, so that [Concurrency.v] can interleave the
    statements of many.  A script says what the serial reading cannot see: the advisory lock of
    [complete_registration] and the rows that [FOR UPDATE] locks.  [run_plan] plays a script
    in the serial world, where it is the operation of [PgStore.v] ([plans_are_calls]). *)
From S2P Require Export PgSafety.

(** ** Scripts *)

(** What a transaction does next: it has an answer and is dropped, or it sends a statement
    (with the sessions that statement locks), asks for the advisory lock, draws an identifier,
    or commits. *)
Inductive Script (A : Type) : Type :=
| Return (r : result A AuthError)
| Ask {B : Type} (locks : Db → list Uuid) (s : DateTime → statement B) (k : result B SqlxError → Script A)
| AdvisoryLock (k : result unit SqlxError → Script A)
| DrawUuid (k : Uuid → Script A)
| Commit (k : result unit SqlxError → Script A).
Arguments Return {A} r.
Arguments Ask {A B} locks s k.
Arguments AdvisoryLock {A} k.
Arguments DrawUuid {A} k.
Arguments Commit {A} k.

Fixpoint sbind {A B} (c : Script A) (f : A → Script B) : Script B :=
  match c with
  | Return (Ok a) => f a
  | Return (Err e) => Return (Err e)
  | Ask locks s k => Ask locks s (λ r, sbind (k r) f)
  | AdvisoryLock k => AdvisoryLock (λ r, sbind (k r) f)
  | DrawUuid k => DrawUuid (λ id, sbind (k id) f)
  | Commit k => Commit (λ r, sbind (k r) f)
  end.

Declare Scope script_scope.
Delimit Scope script_scope with script.
Notation "'let*' x ':=' c 'in' k" := (sbind c (λ x, k))
  (at level 10, x pattern, c at level 100, k at level 200,
   format "'[v' 'let*'  x  ':='  c  'in' '/' k ']'") : script_scope.
Notation "'do*' c 'in' k" := (sbind c (λ _, k))
  (at level 10, c at level 100, k at level 200,
   format "'[v' 'do*'  c  'in' '/' k ']'") : script_scope.
#[local] Open Scope script_scope.

Definition sret {A} (a : A) : Script A := Return (Ok a).
Definition sthrow {A} (e : AuthError) : Script A := Return (Err e).
Definition slift {A} (r : result A AuthError) : Script A := Return r.

(** A statement, the decoding of what it gives, and the error the code turns a failure into. *)
Definition query {A B} (f : SqlxError → AuthError) (locks : Db → list Uuid) (s : DateTime → statement B)
    (decode : B → result A SqlxError) : Script A :=
  Ask locks s (λ r, Return (map_err f (rbind r decode))).
Definition no_locks : Db → list Uuid := λ _, [].
Definition sends {A} (f : SqlxError → AuthError) (s : DateTime → statement A) : Script A :=
  query f no_locks s Ok.
Definition sends_store {A} (s : DateTime → statement A) : Script A := sends (λ _, Store) s.
Definition scommit : Script unit := Commit (λ r, Return (map_err (λ _, Store) r)).
Definition sguard (refused : bool) (e : AuthError) : Script unit := if refused then sthrow e else sret tt.

(** ** The operations *)

Definition audit_script (event : AuditEvent) (now : DateTime) : Script unit :=
  sends_store (λ _, insert_auth_audit_event
    (AuditRow.mk now (AuditEvent.event_type event)
       (UserId.as_str <$> AuditEvent.actor_user_id event)
       (UserId.as_str <$> AuditEvent.subject_user_id event) (AuditEvent.data event))).

Definition invalidate_script (user_id : string) (now : DateTime) : Script unit :=
  do* sends_store (update_epochs (λ k _, bool_decide (k = user_id)) now) in
  do* sends_store (λ _, revoke_sessions (λ s, bool_decide (AuthSession.user_id s = user_id)) now) in
  do* sends_store (λ _, consume_ceremonies (λ _ c, bool_decide (AuthCeremony.user_id c = Some user_id)) now) in
  do* sends_store (λ _, consume_capabilities
        (λ _ c, bool_decide (AuthCapability.user_id c = user_id)) now) in
  sret tt.

Definition insert_user_script (user : User) (now : DateTime) (audit : AuditEvent) : Script unit :=
  do* sends conflict_on_constraint (insert_user_sql user now) in
  do* audit_script audit now in
  scommit.

Definition approve_user_script (user : User) (c : Capability) (operator_id : UserId) (now : DateTime)
    : Script unit :=
  do* sends conflict_on_constraint (insert_user_sql user now) in
  do* sends_store (insert_capability_sql c) in
  do* audit_script (AuditEvent.mk "user.approved_with_setup" (Some operator_id) (Some (User.id user))
        (Object [("capability_id", Str (uuid_text (Capability.id c)))])) now in
  scommit.

Definition rotate_all_script (int4_as_i64 : bool) (now : DateTime) (reason : string) : Script Z :=
  let* users := query (λ _, Store) no_locks (update_epochs (λ _ _, true) now) (λ rows,
    match rows with
    | [] => Ok rows
    | _ :: _ => if int4_as_i64 then Ok rows else Err Driver
    end) in
  do* sends_store (λ _, revoke_sessions (λ _, true) now) in
  do* sends_store (λ _, consume_ceremonies (λ _ _, true) now) in
  do* sends_store (λ _, consume_capabilities (λ _ _, true) now) in
  do* audit_script (AuditEvent.mk "auth.epoch_rotated_all" None None
        (Object [("reason", Str reason); ("users", Num (PosInt (Z.of_nat (length users))))])) now in
  do* scommit in
  sret (Z.of_nat (length users)).

(** The blocks of [complete_registration], as in [PgStore.v]. *)
Definition bootstrap_lock : Script unit := AdvisoryLock (λ r, Return (map_err (λ _, Store) r)).

Definition spend_ceremony_script (ceremony_id : Uuid) (now : DateTime) : Script (option (string * string)) :=
  query (λ _, Store) no_locks
    (λ _, consume_ceremonies (λ k c, (k =? ceremony_id) && (now <? AuthCeremony.expires_at c)) now)
    (λ rows, match head rows with
             | None => Ok None
             | Some (_, c) =>
                 match AuthCeremony.user_id c with
                 | Some user_id => Ok (Some (user_id, AuthCeremony.kind c))
                 | None => Err Driver
                 end
             end).

Definition bootstrap_guard_script (ceremony_kind : string) : Script unit :=
  if String.eqb ceremony_kind "operator_bootstrap" then
    let* operator_credentials := sends_store (select (λ db,
      length (rows_where (active_operator_credential db) (passkey_credentials db)))) in
    sguard (negb (operator_credentials =? 0)%nat) Conflict
  else sret tt.

Definition spend_capability_script (capability_hash : option SecretHash) (now : DateTime) : Script unit :=
  match capability_hash with
  | Some hash =>
      let* consumed := sends_store (λ _, consume_capabilities
        (λ _ c, bool_decide (AuthCapability.token_hash c = SecretHash.as_bytes hash)
                && (now <? AuthCapability.expires_at c)) now) in
      sguard (negb (consumed =? 1)%nat) InvalidState
  | None => sret tt
  end.

Definition complete_registration_script (ceremony_id : Uuid) (capability_hash : option SecretHash)
    (credential : VerifiedCredential) (now : DateTime) (audit : AuditEvent) : Script unit :=
  do* bootstrap_lock in
  let* found := spend_ceremony_script ceremony_id now in
  let* (user_id, ceremony_kind) := slift (ok_or found InvalidState) in
  do* bootstrap_guard_script ceremony_kind in
  do* spend_capability_script capability_hash now in
  let* id := DrawUuid sret in
  do* sends conflict_on_unique (λ _, insert_passkey_credential id
        (PasskeyCredential.mk user_id (VerifiedCredential.credential_id credential)
           (VerifiedCredential.public_data credential) now None None)) in
  do* sends_store (λ _, complete_recoveries (UserId.as_str <$> AuditEvent.subject_user_id audit) now) in
  do* audit_script audit now in
  scommit.

Definition complete_authentication_script (ceremony_id : Uuid) (verification : AuthenticationVerification)
    (session : SessionRecord) (now : DateTime) (audit : AuditEvent) : Script unit :=
  let* consumed := sends_store (λ _, consume_ceremonies
    (λ k c, (k =? ceremony_id) && bool_decide (AuthCeremony.kind c = "authentication")
            && (now <? AuthCeremony.expires_at c)) now) in
  do* sguard (negb (length consumed =? 1)%nat) InvalidState in
  let* credential := sends_store (λ _, use_credential
    (UserId.as_str (SessionRecord.user_id session))
    (AuthenticationVerification.credential_id verification)
    (AuthenticationVerification.updated_public_data verification) now) in
  do* sguard (negb (credential =? 1)%nat) Unauthenticated in
  do* sends_store (λ _, insert_auth_session (SessionRecord.id session)
        (AuthSession.mk (UserId.as_str (SessionRecord.user_id session))
           (SecretHash.as_bytes (SessionRecord.token_hash session))
           (SecretHash.as_bytes (SessionRecord.csrf_hash session))
           (SessionRecord.auth_epoch session) (SessionRecord.idle_expires_at session)
           (SessionRecord.absolute_expires_at session) now now None)) in
  do* audit_script audit now in
  scommit.

(** [SELECT ... FOR UPDATE OF s] locks the session it finds. *)
Definition select_session_locking (token_hash : SecretHash) (now : DateTime) : Script (option SessionRow.t) :=
  query (λ _, Store)
    (λ db, (rows_where (live_session db token_hash now) (auth_sessions db)).*1)
    (select_session token_hash now) Ok.

Definition session_script (token_hash : SecretHash) (now idle_expires_at : DateTime)
    : Script (option SessionPrincipal) :=
  let* row := select_session_locking token_hash now in
  match row with
  | None => do* scommit in sret None
  | Some row =>
      let bounded_idle := Z.min idle_expires_at (SessionRow.absolute_expires_at row) in
      do* sends_store (λ _, touch_session (SessionRow.session_id row) None bounded_idle now) in
      do* scommit in
      let* user := slift (UserRow.try_into (SessionRow.user row)) in
      let* csrf_hash := slift (SecretHash.from_slice (SessionRow.csrf_hash row)) in
      sret (Some (SessionPrincipal.mk (SessionRow.session_id row) user csrf_hash
                    (SessionRow.absolute_expires_at row)))
  end.

Definition rotate_session_csrf_script (token_hash csrf_hash : SecretHash) (now idle_expires_at : DateTime)
    : Script (option SessionPrincipal) :=
  let* row := select_session_locking token_hash now in
  match row with
  | None => do* scommit in sret None
  | Some row =>
      let bounded_idle := Z.min idle_expires_at (SessionRow.absolute_expires_at row) in
      do* sends_store (λ _, touch_session (SessionRow.session_id row) (Some csrf_hash) bounded_idle now) in
      do* scommit in
      let* user := slift (UserRow.try_into (SessionRow.user row)) in
      sret (Some (SessionPrincipal.mk (SessionRow.session_id row) user csrf_hash
                    (SessionRow.absolute_expires_at row)))
  end.

Definition approve_recovery_script (recovery_id : Uuid) (operator_id : UserId) (now : DateTime) : Script unit :=
  let* found := sends_store (λ _, mark_approved recovery_id (UserId.as_str operator_id) now) in
  let* user_id := slift (ok_or found Conflict) in
  do* invalidate_script user_id now in
  let* subject := slift (user_id_of user_id) in
  do* audit_script (AuditEvent.mk "recovery.approved" (Some operator_id) (Some subject)
        (Object [("recovery_id", Str (uuid_text recovery_id))])) now in
  scommit.

Definition issue_recovery_script (recovery_id : Uuid) (c : Capability) (operator_id : UserId) (now : DateTime)
    : Script unit :=
  let* issued := sends_store (λ _, mark_issued recovery_id (UserId.as_str (Capability.user_id c)) now) in
  do* sguard (negb (issued =? 1)%nat) Conflict in
  do* sends_store (insert_capability_sql c) in
  do* audit_script (AuditEvent.mk "recovery.setup_issued" (Some operator_id) (Some (Capability.user_id c))
        (Object [("recovery_id", Str (uuid_text recovery_id))])) now in
  scommit.

Definition break_glass_script (credential_id : Uuid) (c : Capability) (now : DateTime) (reason : string)
    : Script unit :=
  let* found := sends_store (λ _, revoke_operator_credential credential_id now) in
  let* user_id := slift (ok_or found Conflict) in
  do* sguard (negb (String.eqb (UserId.as_str (Capability.user_id c)) user_id)) Forbidden in
  do* invalidate_script user_id now in
  do* sends_store (insert_capability_sql c) in
  do* audit_script (AuditEvent.mk "operator.break_glass_opened" None (Some (Capability.user_id c))
        (Object [("credential_id", Str (uuid_text credential_id)); ("reason", Str reason)])) now in
  scommit.

(** ** Plans *)

(** The answer of a call does not matter to the database. *)
Definition forgetting {A} (s : Script A) : Script unit := do* s in sret tt.

(** How a call reaches the database: one statement on the pool, which commits by itself, or a
    transaction; it may draw an identifier first. *)
Inductive Plan :=
| Immediate {B : Type} (s : DateTime → statement B) (f : SqlxError → AuthError)
| DrawFirst (p : Uuid → Plan)
| InTransaction (s : Script unit).

(** The calls that change the database; the others only read. *)
Definition plan_of (int4_as_i64 : bool) (c : store_call) : option Plan :=
  match c with
  | UserById _ | UserByHandle _ | CredentialsForUser _ | OperatorWithoutCredential | OperatorExists
  | OperatorRecoveryWindow _ | GetCapability _ _ _ | GetCeremony _ _ _ | PendingRecoveries => None
  | InsertCapability c => Some (Immediate (insert_capability_sql c) (λ _, Store))
  | InsertCeremony c => Some (Immediate (λ server_now, insert_auth_ceremony (Ceremony.id c)
      (AuthCeremony.mk (ceremony_name (Ceremony.kind c)) (UserId.as_str <$> Ceremony.user_id c)
         (SecretHash.as_bytes <$> Ceremony.capability_hash c) (Ceremony.state c)
         (Ceremony.expires_at c) None server_now)) (λ _, Store))
  | DeleteSession hash => Some (Immediate (revoke_sessions (λ s,
      bool_decide (AuthSession.token_hash s = SecretHash.as_bytes hash))) (λ _, Store))
  | CreateRecovery user_id now => Some (DrawFirst (λ id, Immediate (λ _, insert_recovery_request id
      (Recovery.mk (UserId.as_str user_id) now None None None None)) conflict_on_unique))
  | InsertUser user now audit => Some (InTransaction (insert_user_script user now audit))
  | ApproveUserWithSetup user c op now => Some (InTransaction (approve_user_script user c op now))
  | RotateAllAuthEpochs now reason => Some (InTransaction (forgetting (rotate_all_script int4_as_i64 now reason)))
  | CompleteRegistration id hash credential now audit =>
      Some (InTransaction (complete_registration_script id hash credential now audit))
  | CompleteAuthentication id v s now audit =>
      Some (InTransaction (complete_authentication_script id v s now audit))
  | GetSession hash now idle => Some (InTransaction (forgetting (session_script hash now idle)))
  | RotateSessionCsrf hash csrf now idle =>
      Some (InTransaction (forgetting (rotate_session_csrf_script hash csrf now idle)))
  | ApproveRecovery id op now => Some (InTransaction (approve_recovery_script id op now))
  | IssueRecoverySetup id c op now => Some (InTransaction (issue_recovery_script id c op now))
  | BreakGlass id c now reason => Some (InTransaction (break_glass_script id c now reason))
  end.

(** ** Played alone, a script is the operation *)

Section play.
Context `{Entropy}.

(** A script in the serial world; nobody competes for its locks. *)
Fixpoint play {A} (s : Script A) : M Tx AuthError A :=
  match s with
  | Return r => lift r
  | Ask _ s k => λ t, let (r, t') := tx_execute s t in play (k r) t'
  | AdvisoryLock k => λ t, let (r, t') := tx_execute (select (λ _, tt)) t in play (k r) t'
  | DrawUuid k => let! id := tx_draw uuid_at in play (k id)
  | Commit k => λ t, let (r, t') := commit t in play (k r) t'
  end.

Fixpoint run_plan (p : Plan) : M World AuthError unit :=
  match p with
  | Immediate s f => forget (err_with f (pool_execute s))
  | DrawFirst p => let! id := draw uuid_at in run_plan (p id)
  | InTransaction s => transaction (play s)
  end.

Lemma play_sbind {A B} (c : Script A) (f : A → Script B) t :
  play (sbind c f) t = bind (play c) (λ a, play (f a)) t.
Proof.
  revert t. induction c as [[a|e]|C locks s k IH|k IH|k IH|k IH]; intros t; simpl; try done.
  - unfold bind. destruct (tx_execute s t) as [r t']. apply IH.
  - unfold bind at 1. destruct (tx_execute _ t) as [r t']. apply IH.
  - unfold bind. destruct (tx_draw uuid_at t) as [[id|e] t']; [apply IH|done].
  - unfold bind at 1. destruct (commit t) as [r t']. apply IH.
Qed.

(** Two computations that do the same in every world. *)
Definition same {W E A} (c c' : M W E A) : Prop := ∀ w, c w = c' w.

Lemma same_refl {W E A} (c : M W E A) : same c c.
Proof. done. Qed.

Lemma same_sbind {A B} (c : Script A) (f : A → Script B) c' (f' : A → M Tx AuthError B) :
  same (play c) c' → (∀ a, same (play (f a)) (f' a)) → same (play (sbind c f)) (bind c' f').
Proof.
  intros Hc Hf t. rewrite play_sbind. unfold bind. rewrite Hc. destruct (c' t) as [[a|e] t']; [apply Hf|done].
Qed.

Lemma same_sends {A} f (s : DateTime → statement A) : same (play (sends f s)) (err_with f (tx_execute s)).
Proof. intros t. unfold err_with. simpl. destruct (tx_execute s t) as [[a|e] t']; done. Qed.

Lemma same_sends_store {A} (s : DateTime → statement A) : same (play (sends_store s)) (store_err (tx_execute s)).
Proof. apply same_sends. Qed.

Lemma same_commit : same (play scommit) (store_err commit).
Proof. intros t. unfold store_err, err_with. simpl. by destruct (commit t) as [[[]|e] t']. Qed.

Lemma same_guard (b : bool) e : same (play (sguard b e)) (if b then throw e else ret tt).
Proof. intros t. by destruct b. Qed.

Lemma same_transaction {A} (c c' : M Tx AuthError A) : same c c' → same (transaction c) (transaction c').
Proof.
  intros Hc w. unfold transaction. destruct (next_verdict w) as [[] w']; [|done..]. by rewrite Hc.
Qed.

Lemma same_forget {A} (c c' : M World AuthError A) : same c c' → same (forget c) (forget c').
Proof. intros Hc w. unfold forget, bind. by rewrite Hc. Qed.

Lemma forget_unit (c : M World AuthError unit) : same (forget c) c.
Proof. intros w. unfold forget, bind, ret. by destruct (c w) as [[[]|e] w']. Qed.

(** A query whose decoding may fail, as the serial code writes it. *)
Lemma same_query {A B} f locks (s : DateTime → statement B) (decode : B → result A SqlxError)
    (k : B → M Tx SqlxError A) :
  (∀ b, same (k b) (lift (decode b))) →
  same (play (query f locks s decode)) (err_with f (bind (tx_execute s) k)).
Proof.
  intros Hk t. unfold err_with, bind. simpl. destruct (tx_execute s t) as [[b|e] t']; [|done].
  rewrite Hk. unfold lift, rbind. by destruct (decode b).
Qed.

Lemma same_locking {A} locks (s : DateTime → statement A) :
  same (play (query (λ _, Store) locks s Ok)) (store_err (tx_execute s)).
Proof. intros t. unfold store_err, err_with. simpl. by destruct (tx_execute s t) as [[a|e] t']. Qed.

Lemma same_lock : same (play bootstrap_lock) (store_err (tx_execute (select (λ _, tt)))).
Proof. intros t. unfold store_err, err_with. simpl. by destruct (tx_execute _ t) as [[[]|e] t']. Qed.

Lemma same_spend_ceremony id now : same (play (spend_ceremony_script id now)) (PgAuthStore.spend_ceremony id now).
Proof.
  apply same_query. intros rows t. destruct rows as [|[k c] rows]; simpl; [done|].
  by destruct (AuthCeremony.user_id c).
Qed.

Lemma same_rotation (int4_as_i64 : bool) now :
  same (play (query (λ _, Store) no_locks (update_epochs (λ _ _, true) now) (λ rows,
          match rows with [] => Ok rows | _ :: _ => if int4_as_i64 then Ok rows else Err Driver end)))
    (store_err (let! rows := tx_execute (update_epochs (λ _ _, true) now) in
       match rows with [] => ret rows | _ :: _ => if int4_as_i64 then ret rows else throw Driver end)).
Proof. apply same_query. intros rows t. by destruct rows, int4_as_i64. Qed.

Lemma same_audit event now : same (play (audit_script event now)) (insert_audit event now).
Proof. apply same_sends. Qed.

Lemma same_sret {A} (a : A) : same (play (sret a)) (ret a).
Proof. done. Qed.

Lemma same_slift {A} (r : result A AuthError) : same (play (slift r)) (lift r).
Proof. done. Qed.

Lemma same_draw : same (play (DrawUuid sret)) (tx_draw uuid_at).
Proof. done. Qed.

Create HintDb plays discriminated.
#[local] Hint Resolve same_sends same_sends_store same_commit same_guard same_audit same_sret same_slift same_lock same_draw
  same_spend_ceremony same_locking : plays.

(** Matches a script with the code of the operation, line by line. *)
Ltac plays :=
  repeat match goal with
  | |- same (play (sbind _ _)) (bind _ _) => apply same_sbind; [|intros ?]
  | |- same (play (match ?x with _ => _ end)) _ => destruct x
  | |- same (play (if ?x then _ else _)) _ => destruct x
  end; eauto with plays.

Create HintDb scripts discriminated.
#[local] Hint Unfold insert_user_script approve_user_script rotate_all_script complete_registration_script
  complete_authentication_script session_script rotate_session_csrf_script approve_recovery_script
  issue_recovery_script break_glass_script select_session_locking : scripts.

Lemma same_invalidate user_id now : same (play (invalidate_script user_id now)) (invalidate_user_auth user_id now).
Proof. unfold invalidate_script, invalidate_user_auth. plays. Qed.

Lemma same_bootstrap_guard kind : same (play (bootstrap_guard_script kind)) (PgAuthStore.bootstrap_guard kind).
Proof. unfold bootstrap_guard_script, PgAuthStore.bootstrap_guard. plays. Qed.

Lemma same_spend_capability hash now :
  same (play (spend_capability_script hash now)) (PgAuthStore.spend_capability hash now).
Proof. unfold spend_capability_script, PgAuthStore.spend_capability. plays. Qed.
#[local] Hint Resolve same_invalidate same_bootstrap_guard same_spend_capability : plays.

(** A call that is one transaction, whose answer is forgotten inside it or after it. *)
Lemma same_call {A} (s : Script A) (body : M Tx AuthError A) :
  same (play s) body → same (transaction (play (forgetting s))) (forget (transaction body)).
Proof.
  intros Hs w. unfold forget, bind, transaction. destruct (next_verdict w) as [[] w']; [|done..].
  unfold forgetting. rewrite play_sbind. unfold bind. rewrite Hs. by destruct (body _) as [[a|e] t].
Qed.

(** A call that only reads: it selects, and converts what it found. *)
Ltac reads :=
  repeat first [ apply readonly_bind; [|intros ?] | apply readonly_select | apply readonly_lift | apply readonly_ret ].

(** The scripts are the code: for every call of the store, the plan of the call, played in the
    serial world over whatever faults, does exactly what the operation of the store does, answer,
    database, clock, faults left and randomness drawn; and a call without a plan changes nothing. *)
Theorem plans_are_calls int4_as_i64 c :
  match plan_of int4_as_i64 c with
  | Some p => ∀ w, run_plan p w = perform int4_as_i64 c w
  | None => ∀ w r w', perform int4_as_i64 c w = (r, w') → db w' = db w
  end.
Proof.
  destruct c; cbn [plan_of run_plan perform].
  1-7,13,20: intros w r w' Hr; refine (proj1 ((_ : readonly _) _ _ _ Hr)); unfold forget;
    autounfold with store_ops; reads.
  all: match goal with |- ∀ w, ?f w = ?g w => change (same f g) end;
    try (apply same_transaction; autounfold with scripts; autounfold with store_ops; plays; fail);
    try (apply same_call; autounfold with scripts; autounfold with store_ops; plays; fail).
  - apply forget_unit.
  - apply same_call. unfold rotate_all_script. apply same_sbind; [apply same_rotation|intros users]. plays.
  - apply forget_unit.
  - done.
  - intros w. unfold PgAuthStore.create_recovery, forget, bind, ret. simpl.
    by destruct (err_with _ _ _) as [[[]|e] w'].
Qed.

End play.
