(* ===== verification/Concurrency.v ===== *)
(** * Concurrency: many transactions at once, statement by statement ([server/src/repository.rs])

    The server of the database holds what is published and the open transactions; the moves are
    those of read committed.  A statement sees what is published and what its own transaction has
    written, takes effect at one moment, and waits while another open transaction has
    written a row it writes or locks, has locked a session it writes, or has written a row that a
    unique index keeps apart from one it writes.  The advisory lock waits for its holder to end.
    A connection may break at any statement (so also when the server breaks a deadlock). *)
From S2P Require Export Overlay Transactions.

(** ** The server *)

(** An open transaction: the call it serves, what was published when it began, the rows it has written,
    the sessions it has locked, whether it holds the advisory lock, and what it does next. *)
Record Client := mkClient {
  call_of : store_call;
  began : Db;
  writes : Db;
  locked : list Uuid;
  advisory : bool;
  rest : Script unit;
}.

(** The calls that have taken effect are listed in their order. *)
Record Server := mkServer {
  published : Db;
  clients : gmap nat Client;
  committed : list store_call;
}.

Definition idle (d : Db) : Server := mkServer d ∅ [].

Inductive move :=
| Begin (i : nat) (c : store_call)
| Statement (i : nat) (now : DateTime)
| Acquire (i : nat)
| Drawn (i : nat) (id : Uuid)
| Broken (i : nat)
| Committing (i : nat)
| Dropped (i : nat)
| Single (c : store_call) (id : Uuid) (now : DateTime).

#[export] Instance call_valid_dec c : Decision (call_valid c).
Proof. destruct c; simpl; unfold UserId.valid; apply _. Defined.

(** *** What a script does next *)

(** The effect of its statement, unless the statement fails, and what follows. *)
Definition statement_of (s : Script unit) (now : DateTime) (d : Db) : option (option (Db * list Uuid) * Script unit) :=
  match s with
  | Ask locks st k =>
      Some (match st now d with
            | Ok (a, d') => (Some (d', locks d), k (Ok a))
            | Err e => (None, k (Err (Database e)))
            end)
  | _ => None
  end.
Definition acquire_of (s : Script unit) : option (Script unit) :=
  match s with AdvisoryLock k => Some (k (Ok tt)) | _ => None end.
Definition draw_of (s : Script unit) (id : Uuid) : option (Script unit) :=
  match s with DrawUuid k => Some (k id) | _ => None end.
Definition broken_of (s : Script unit) : option (Script unit) :=
  match s with
  | Ask _ _ k => Some (k (Err Driver))
  | AdvisoryLock k | Commit k => Some (k (Err Driver))
  | _ => None
  end.
Definition commits (s : Script unit) : bool := match s with Commit _ => true | _ => false end.
Definition returned (s : Script unit) : bool := match s with Return _ => true | _ => false end.

(** What a call without a transaction does to the database. *)
Fixpoint effect_of (p : Plan) (id : Uuid) (now : DateTime) (d : Db) : option Db :=
  match p with
  | Immediate s _ => match s now d with Ok (_, d') => Some d' | Err _ => None end
  | DrawFirst p => effect_of (p id) id now d
  | InTransaction _ => None
  end.

(** *** Waiting *)

Definition unwritten (l : list Uuid) (w : Db) : Prop := Forall (λ k, auth_sessions w !! k = None) l.

Definition admits (others : gmap nat Client) (w : Db) (l : list Uuid) : bool :=
  bool_decide (map_Forall (λ _ c, compatible w (writes c) ∧ unwritten (locked c) w ∧
    unwritten l (writes c) ∧ Forall (λ k, k ∉ locked c) l) others).

Definition lock_free (others : gmap nat Client) : bool :=
  bool_decide (map_Forall (λ _ c, advisory c = false) others).

(** *** Moves *)

Definition set_client (i : nat) (c : Client) (σ : Server) : Server :=
  mkServer (published σ) (<[i := c]> (clients σ)) (committed σ).
Definition continue (c : Client) (s : Script unit) : Client :=
  mkClient (call_of c) (began c) (writes c) (locked c) (advisory c) s.

(** A transaction whose statement was executed. *)
Definition executed (p : Db) (c : Client) (d : Db) (l : list Uuid) (s : Script unit) : Client :=
  mkClient (call_of c) (began c) (written p (writes c) d) (l ++ locked c) (advisory c) s.

Section machine.
Context (int4_as_i64 : bool).

Definition begins (p : Db) (c : store_call) : option Client :=
  match plan_of int4_as_i64 c with
  | Some (InTransaction s) => Some (mkClient c p empty_db [] false s)
  | _ => None
  end.

Definition moves (σ : Server) (m : move) : option Server :=
  match m with
  | Begin i c =>
      client ← begins (published σ) c;
      if bool_decide (clients σ !! i = None ∧ call_valid c) then Some (set_client i client σ) else None
  | Statement i now =>
      c ← clients σ !! i;
      '(effect, s) ← statement_of (rest c) now (over (published σ) (writes c));
      match effect with
      | None => Some (set_client i (continue c s) σ)
      | Some (d, l) =>
          let c' := executed (published σ) c d l s in
          if admits (delete i (clients σ)) (writes c') l then Some (set_client i c' σ) else None
      end
  | Acquire i =>
      c ← clients σ !! i;
      s ← acquire_of (rest c);
      if lock_free (delete i (clients σ))
      then Some (set_client i (mkClient (call_of c) (began c) (writes c) (locked c) true s) σ)
      else None
  | Drawn i id =>
      c ← clients σ !! i;
      s ← draw_of (rest c) id;
      Some (set_client i (continue c s) σ)
  | Broken i =>
      c ← clients σ !! i;
      s ← broken_of (rest c);
      Some (set_client i (continue c s) σ)
  | Committing i =>
      c ← clients σ !! i;
      if commits (rest c)
      then Some (mkServer (over (published σ) (writes c)) (delete i (clients σ)) (committed σ ++ [call_of c]))
      else None
  | Dropped i =>
      c ← clients σ !! i;
      if returned (rest c) then Some (mkServer (published σ) (delete i (clients σ)) (committed σ)) else None
  | Single c id now =>
      p ← plan_of int4_as_i64 c;
      d ← effect_of p id now (published σ);
      if bool_decide (call_valid c) && admits (clients σ) (written (published σ) empty_db d) []
      then Some (mkServer d (clients σ) (committed σ ++ [c]))
      else None
  end.

Fixpoint run (σ : Server) (ms : list move) : option Server :=
  match ms with
  | [] => Some σ
  | m :: ms => σ' ← moves σ m; run σ' ms
  end.

Lemma run_app σ ms ms' : run σ (ms ++ ms') = (run σ ms ≫= λ σ', run σ' ms').
Proof. revert σ. induction ms as [|m ms IH]; intros σ; simpl; [done|]. by destruct (moves σ m); simpl. Qed.

End machine.

(** ** What holds of every script *)

Definition credential_ids (d : Db) : gset Uuid := dom (passkey_credentials d).
Definition adds_no_credential {A} (s : statement A) : Prop :=
  ∀ d a d', s d = Ok (a, d') → credential_ids d' ⊆ credential_ids d.

(** Its statements are safe, and only under the advisory lock does it register a passkey. *)
Fixpoint script_ok {A} (holds : bool) (s : Script A) : Prop :=
  match s with
  | Return _ => True
  | Ask _ st k => (∀ now, statement_safe (st now) ∧ (holds = false → adds_no_credential (st now))) ∧
                  ∀ r, script_ok holds (k r)
  | AdvisoryLock k => script_ok true (k (Ok tt)) ∧ ∀ e, script_ok holds (k (Err e))
  | DrawUuid k => ∀ id, script_ok holds (k id)
  | Commit k => ∀ r, script_ok holds (k r)
  end.

Lemma script_ok_holds {A} (s : Script A) : script_ok false s → script_ok true s.
Proof.
  induction s as [r|B locks st k IH|k IH|k IH|k IH]; simpl; [done| | |naive_solver..].
  - intros [Hs Hk]. split; [|naive_solver]. intros now. by destruct (Hs now).
  - intros [Hk He]. naive_solver.
Qed.

Lemma script_ok_sbind {A B} holds (c : Script A) (f : A → Script B) :
  script_ok holds c → (∀ a, script_ok holds (f a)) → script_ok holds (sbind c f).
Proof.
  revert holds. induction c as [[a|e]|C locks st k IH|k IH|k IH|k IH]; intros holds; simpl; try done; try naive_solver.
  intros [Hk He] Hf. split; [|naive_solver]. apply IH; [done|]. intros a. destruct holds; [done|].
  by apply script_ok_holds.
Qed.

(** After the lock the rest is under it. *)
Lemma script_ok_locked {A} (f : unit → Script A) :
  script_ok true (f tt) → script_ok false (sbind bootstrap_lock f).
Proof. intros Hf. by split. Qed.

Lemma script_ok_query {A B} holds f locks (s : DateTime → statement B) (decode : B → result A SqlxError) :
  (∀ now, statement_safe (s now)) → (holds = true ∨ ∀ now, adds_no_credential (s now)) →
  script_ok holds (query f locks s decode).
Proof.
  intros Hs Hc. simpl. split; [|done]. intros now. split; [apply Hs|]. intros ->. by destruct Hc.
Qed.

(** A statement that does not touch the credentials, or updates them in place. *)
Lemma select_no_credential {A} (f : Db → A) now : adds_no_credential (select f now).
Proof. by intros d a d' [= _ <-]. Qed.

Lemma dom_update_where {K V} `{Countable K} (P : K → V → bool) (f : V → V) (m : gmap K V) :
  dom (update_where P f m) = dom m.
Proof.
  apply set_eq. intros k. by rewrite !elem_of_dom, lookup_update_where, fmap_is_Some.
Qed.

Ltac no_credential :=
  let d := fresh "d" in let a := fresh "a" in let d' := fresh "d'" in let Hi := fresh "Hi" in
  intros d a d' Hi;
  unfold insert_user_sql, insert_capability_sql, insert_human_user, insert_auth_capability, insert_auth_ceremony,
    insert_auth_session, insert_recovery_request, insert_auth_audit_event, touch_session, update_epochs,
    mark_approved, revoke_sessions, consume_ceremonies, consume_capabilities, complete_recoveries, mark_issued,
    use_credential, revoke_operator_credential, select_session, select in Hi;
  repeat match type of Hi with
         | (if ?b then _ else _) = _ => destruct b
         | match ?x with _ => _ end = _ => destruct x
         end; simplify_eq; unfold credential_ids; simpl; try rewrite dom_update_where; done.

Create HintDb scripts_ok discriminated.
#[export] Hint Extern 1 (_ = true ∨ _) => first [by left | right; intros ?; no_credential] : scripts_ok.
#[export] Hint Extern 1 (statement_safe _) => solve [eauto with store] : scripts_ok.

(** Follows a script down to its statements. *)
Ltac scripted :=
  repeat match goal with
  | |- script_ok _ (sbind bootstrap_lock _) => apply script_ok_locked
  | |- script_ok _ (sbind _ _) => apply script_ok_sbind; [|intros ?]
  | |- script_ok _ (query _ _ _ _) => apply script_ok_query; [intros ?|]
  | |- script_ok _ (sends _ _) => apply script_ok_query; [intros ?|]
  | |- script_ok _ (sends_store _) => apply script_ok_query; [intros ?|]
  | |- script_ok _ (match ?x with _ => _ end) => destruct x
  | |- script_ok _ (if ?x then _ else _) => destruct x
  | |- script_ok _ (sguard ?b _) => destruct b; exact I
  | |- script_ok _ (sret _) => exact I
  | |- script_ok _ (sthrow _) => exact I
  | |- script_ok _ (slift _) => exact I
  | |- script_ok _ scommit => by intros ?
  | |- script_ok _ (DrawUuid sret) => by intros ?
  end; eauto with scripts_ok.

Lemma audit_script_ok holds event now : script_ok holds (audit_script event now).
Proof. unfold audit_script. scripted. Qed.
#[export] Hint Resolve audit_script_ok : scripts_ok.

Lemma invalidate_script_ok holds user_id now : script_ok holds (invalidate_script user_id now).
Proof. unfold invalidate_script. scripted. Qed.
#[export] Hint Resolve invalidate_script_ok : scripts_ok.

Lemma complete_registration_ok id hash v now audit :
  script_ok false (complete_registration_script id hash v now audit).
Proof.
  unfold complete_registration_script, spend_ceremony_script, bootstrap_guard_script, spend_capability_script, sguard.
  scripted.
Qed.
#[export] Hint Resolve complete_registration_ok : scripts_ok.

Lemma plan_script_ok int4_as_i64 c s :
  plan_of int4_as_i64 c = Some (InTransaction s) → call_valid c → script_ok false s.
Proof.
  intros Hp Hv. destruct c; try done; simpl in Hv; injection Hp as <-;
    unfold forgetting, insert_user_script, approve_user_script, rotate_all_script,
      complete_authentication_script, session_script, rotate_session_csrf_script, approve_recovery_script,
      issue_recovery_script, break_glass_script, select_session_locking, sguard.
  all: scripted.
Qed.

(** ** The invariant *)

Record client_ok (p : Db) (c : Client) : Prop := {
  client_wf : db_wf (over p (writes c));
  client_evolves : evolves p (over p (writes c));
  client_began : evolves (began c) p;
  client_script : script_ok (advisory c) (rest c);
  client_credentials : advisory c = false → credential_ids (writes c) ⊆ credential_ids p;
}.

(** What waiting keeps between two open transactions. *)
Record apart (c c' : Client) : Prop := {
  apart_writes : compatible (writes c) (writes c');
  apart_locked : unwritten (locked c) (writes c') ∧ unwritten (locked c') (writes c);
  apart_rows : ∀ k, k ∈ locked c → k ∉ locked c';
  apart_advisory : ¬ (advisory c = true ∧ advisory c' = true);
}.

Record server_ok (σ : Server) : Prop := {
  server_wf : db_wf (published σ);
  server_clients : map_Forall (λ _ c, client_ok (published σ) c) (clients σ);
  server_apart : ∀ i j c c', i ≠ j → clients σ !! i = Some c → clients σ !! j = Some c' → apart c c';
}.

Lemma apart_sym c c' : apart c c' → apart c' c.
Proof.
  intros [Hw [Hl1 Hl2] Hr Ha]. constructor; [by apply compatible_sym|done| |tauto].
  intros k Hk Hk'. by apply (Hr k).
Qed.

(** Replacing a transaction by one that is apart from the others. *)
Lemma server_ok_set σ i c :
  server_ok σ → client_ok (published σ) c →
  (∀ j c', j ≠ i → clients σ !! j = Some c' → apart c c') → server_ok (set_client i c σ).
Proof.
  intros [Hw Hc Ha] Hok Hap. constructor; simpl; [done|by apply map_Forall_insert_2|].
  intros j1 j2 c1 c2 Hne. rewrite !lookup_insert_Some.
  intros [[<- <-]|[Hn1 H1]] [[<- <-]|[Hn2 H2]];
    [done|by apply (Hap j2)|by apply apart_sym, (Hap j1)|by apply (Ha j1 j2)].
Qed.

Lemma server_ok_delete σ i l : server_ok σ → server_ok (mkServer (published σ) (delete i (clients σ)) l).
Proof.
  intros [Hw Hc Ha]. constructor; simpl; [done|by apply map_Forall_delete|].
  intros j1 j2 c1 c2 Hne [_ H1]%lookup_delete_Some [_ H2]%lookup_delete_Some. by apply (Ha j1 j2).
Qed.

(** Publishing writes that are apart from every open transaction. *)
Definition publishable (p w : Db) : Prop := db_wf (over p w) ∧ evolves p (over p w).

Lemma client_ok_published p w c :
  publishable p w → compatible w (writes c) → client_ok p c → client_ok (over p w) c.
Proof.
  intros [Hw He] Hc [Hcw Hce Hb Hs Hn]. constructor.
  - by apply wf_over.
  - by apply evolves_over.
  - by etransitivity.
  - done.
  - intros Ha. etransitivity; [by apply Hn|]. intros k. unfold credential_ids. simpl.
    rewrite dom_union. set_solver.
Qed.

Lemma server_ok_publish p w (cs : gmap nat Client) l l' :
  server_ok (mkServer p cs l) → publishable p w →
  (∀ i c, cs !! i = Some c → compatible w (writes c)) → server_ok (mkServer (over p w) cs l').
Proof.
  intros [Hw Hc Ha] Hp Hap. constructor; simpl in *; [apply Hp| |done].
  intros i c Hi. apply client_ok_published; [done|by eapply Hap|by eapply Hc].
Qed.

Lemma admits_spec others w l :
  admits others w l = true → ∀ j c, others !! j = Some c →
  compatible w (writes c) ∧ unwritten (locked c) w ∧ unwritten l (writes c) ∧ Forall (λ k, k ∉ locked c) l.
Proof. intros Ha%bool_decide_eq_true_1 j c Hj. by apply (Ha j c). Qed.

(** *** Each move *)

Lemma statement_of_ok holds s now d s' effect :
  script_ok holds s → statement_of s now d = Some (effect, s') →
  script_ok holds s' ∧
  match effect with
  | None => True
  | Some (d', _) => db_wf d → db_wf d' ∧ evolves d d' ∧ (holds = false → credential_ids d' ⊆ credential_ids d)
  end.
Proof.
  destruct s as [| B locks st k | | | ]; try done. simpl. intros [Hs Hk] [= Heq].
  destruct (Hs now) as [Hsafe Hn]. destruct (st now d) as [[a d']|e] eqn:Hst; injection Heq as <- <-.
  - split; [apply Hk|]. intros Hw. destruct (Hsafe _ _ _ Hst Hw). split_and!; try done.
    intros Hh. by apply (Hn Hh _ _ _ Hst).
  - split; [apply Hk|done].
Qed.

Lemma executed_ok p c now d l s :
  client_ok p c → statement_of (rest c) now (over p (writes c)) = Some (Some (d, l), s) →
  client_ok p (executed p c d l s) ∧ over p (written p (writes c) d) = d.
Proof.
  intros [Hw He Hb Hs Hn] Hst. destruct (statement_of_ok _ _ _ _ _ _ Hs Hst) as [Hs' Hd].
  destruct (Hd Hw) as (Hw' & He' & Hc). pose proof (over_written _ _ _ He') as Hov. split; [|done].
  constructor; simpl; try done.
  - by rewrite Hov.
  - rewrite Hov. by etransitivity.
  - intros Ha k. unfold credential_ids, written. simpl. rewrite elem_of_dom. intros [v [Hk _]%map_lookup_filter_Some].
    assert (k ∈ credential_ids (over p (writes c))) as Hin.
    { apply Hc; [done|]. apply elem_of_dom. by exists v. }
    unfold credential_ids in Hin. simpl in Hin. rewrite dom_union in Hin.
    apply elem_of_union in Hin as [Hin|Hin]; [by apply (Hn Ha)|done].
Qed.

(** Only the script of a transaction has moved on. *)
Lemma continue_ok p c s : client_ok p c → script_ok (advisory c) s → client_ok p (continue c s).
Proof. intros [] Hs. by constructor. Qed.

Lemma apart_continue c s c' : apart c c' → apart (continue c s) c'.
Proof. intros []. by constructor. Qed.

Lemma server_ok_continue σ i c s :
  server_ok σ → clients σ !! i = Some c → script_ok (advisory c) s → server_ok (set_client i (continue c s) σ).
Proof.
  intros Hok Hi Hs. apply server_ok_set; [done|apply continue_ok; [by eapply server_clients|done]|].
  intros j c' Hj Hc'. apply apart_continue. by apply (server_apart _ Hok i j).
Qed.

(** The statement of one transaction, which was admitted among the others. *)
Lemma server_ok_statement σ i c now d l s :
  server_ok σ → clients σ !! i = Some c →
  statement_of (rest c) now (over (published σ) (writes c)) = Some (Some (d, l), s) →
  admits (delete i (clients σ)) (written (published σ) (writes c) d) l = true →
  server_ok (set_client i (executed (published σ) c d l s) σ).
Proof.
  intros Hok Hi Hst Had. pose proof (server_clients _ Hok _ _ Hi) as Hc.
  apply server_ok_set; [done|by apply (executed_ok _ _ _ _ _ _ Hc Hst)|].
  intros j c' Hj Hc'. destruct (server_apart _ Hok i j _ _ ltac:(done) Hi Hc') as [Hw [Hl1 Hl2] Hr Ha].
  destruct (admits_spec _ _ _ Had j c') as (Hcw & Hu1 & Hu2 & Hl); [by rewrite lookup_delete_ne|].
  rewrite Forall_forall in Hl. constructor; simpl; [done| | |done].
  - split; [by apply Forall_app|done].
  - intros k [Hk|Hk]%elem_of_app; [by apply Hl|by apply Hr].
Qed.

Lemma server_ok_acquire σ i c s :
  server_ok σ → clients σ !! i = Some c → acquire_of (rest c) = Some s →
  lock_free (delete i (clients σ)) = true →
  server_ok (set_client i (mkClient (call_of c) (began c) (writes c) (locked c) true s) σ).
Proof.
  intros Hok Hi Hs Hf%bool_decide_eq_true_1. destruct (server_clients _ Hok _ _ Hi) as [Hw He Hb Hsc Hn].
  apply server_ok_set; [done|constructor; try done|].
  - destruct (rest c); try done. injection Hs as <-. by destruct Hsc.
  - intros j c' Hj Hc'. destruct (server_apart _ Hok i j _ _ ltac:(done) Hi Hc'). constructor; try done.
    intros [_ Ha]. rewrite (Hf j c') in Ha; [done|by rewrite lookup_delete_ne].
Qed.

Lemma plan_effect_safe int4_as_i64 c p id now d d' :
  plan_of int4_as_i64 c = Some p → call_valid c → effect_of p id now d = Some d' → db_wf d →
  db_wf d' ∧ evolves d d' ∧ credential_ids d' ⊆ credential_ids d.
Proof.
  intros Hp Hv Hd Hw.
  enough (∀ A (s : statement A), statement_safe s → adds_no_credential s →
    match s d with Ok (_, d') => Some d' | Err _ => None end = Some d' →
    db_wf d' ∧ evolves d d' ∧ credential_ids d' ⊆ credential_ids d) as Hs.
  { destruct c; try done; injection Hp as <-; cbn [effect_of] in Hd; try done;
      match type of Hd with match ?s d with _ => _ end = _ =>
        apply (Hs _ s); [clear Hs; eauto with store|clear Hs; no_credential|exact Hd] end. }
  intros A s Hs Hn. destruct (s d) as [[a d1]|e] eqn:Hr; [|done]. intros [= <-].
  destruct (Hs _ _ _ Hr Hw). split_and!; try done. by apply (Hn _ _ _ Hr).
Qed.

Lemma bind_Some_inv {A B} (o : option A) (f : A → option B) b :
  o ≫= f = Some b → ∃ a, o = Some a ∧ f a = Some b.
Proof. by intros ?%bind_Some. Qed.

Section invariant.
Context (int4_as_i64 : bool).

Lemma begins_inv p c client :
  begins int4_as_i64 p c = Some client →
  ∃ s, plan_of int4_as_i64 c = Some (InTransaction s) ∧ client = mkClient c p empty_db [] false s.
Proof. unfold begins. destruct (plan_of _ _) as [[]|]; try done. intros [= <-]. eauto. Qed.

Lemma moves_ok σ m σ' : server_ok σ → moves int4_as_i64 σ m = Some σ' → server_ok σ'.
Proof.
  intros Hok Hm. destruct m as [i c|i now|i|i id|i|i|i|c id now]; simpl in Hm.
  - apply bind_Some_inv in Hm as (client & Hc & Hm). case_bool_decide as Hb; [|done]. injection Hm as <-.
    destruct Hb as [Hi Hv]. apply begins_inv in Hc as (s & Hp & ->).
    apply server_ok_set; [done| |].
    + constructor; simpl; rewrite ?over_empty; try done; [apply Hok|by eapply plan_script_ok].
    + intros j c' Hj Hc'. constructor; simpl.
      * apply compatible_sym, compatible_empty.
      * split; [apply Forall_nil_2|]. by apply Forall_forall.
      * by intros k ?%not_elem_of_nil.
      * by intros [].
  - apply bind_Some_inv in Hm as (c & Hi & Hm). apply bind_Some_inv in Hm as ([effect s] & Hs & Hm).
    destruct effect as [[d l]|].
    + destruct (admits _ _ _) eqn:Ha; [|done]. injection Hm as <-. by eapply server_ok_statement.
    + injection Hm as <-. apply server_ok_continue; [done..|].
      by eapply (statement_of_ok (advisory c)), Hs; eapply server_clients.
  - apply bind_Some_inv in Hm as (c & Hi & Hm). apply bind_Some_inv in Hm as (s & Hs & Hm).
    destruct (lock_free _) eqn:Hf; [|done]. injection Hm as <-. by apply server_ok_acquire.
  - apply bind_Some_inv in Hm as (c & Hi & Hm). apply bind_Some_inv in Hm as (s & Hs & Hm). injection Hm as <-.
    pose proof (client_script _ _ (server_clients _ Hok _ _ Hi)) as Hsc. apply server_ok_continue; [done..|].
    destruct (rest c); try done. by injection Hs as <-.
  - apply bind_Some_inv in Hm as (c & Hi & Hm). apply bind_Some_inv in Hm as (s & Hs & Hm). injection Hm as <-.
    pose proof (client_script _ _ (server_clients _ Hok _ _ Hi)) as Hsc. apply server_ok_continue; [done..|].
    destruct (rest c); try done; injection Hs as <-; apply Hsc.
  - apply bind_Some_inv in Hm as (c & Hi & Hm). destruct (commits _) eqn:Hc; [|done]. injection Hm as <-.
    destruct (server_clients _ Hok _ _ Hi) as [Hw He _ _ _].
    eapply server_ok_publish; [by apply (server_ok_delete _ i (committed σ))|done|].
    intros j c' [Hj Hc']%lookup_delete_Some. by apply (server_apart _ Hok i j).
  - apply bind_Some_inv in Hm as (c & Hi & Hm). destruct (returned _); [|done]. injection Hm as <-.
    by apply server_ok_delete.
  - apply bind_Some_inv in Hm as (p & Hp & Hm). apply bind_Some_inv in Hm as (d & Hd & Hm).
    destruct (_ && _) eqn:Hb; [|done]. injection Hm as <-.
    apply andb_true_iff in Hb as [Hv%bool_decide_eq_true_1 Ha].
    destruct (plan_effect_safe _ _ _ _ _ _ _ Hp Hv Hd (server_wf _ Hok)) as (Hw & He & Hn).
    assert (over (published σ) (written (published σ) empty_db d) = d) as Hov
      by (apply over_written; by rewrite over_empty).
    rewrite <- Hov at 1. eapply (server_ok_publish _ _ _ (committed σ)).
    + by destruct σ.
    + unfold publishable. by rewrite Hov.
    + intros i c' Hi. by apply (admits_spec _ _ _ Ha i c').
Qed.

Lemma run_ok σ ms σ' : server_ok σ → run int4_as_i64 σ ms = Some σ' → server_ok σ'.
Proof.
  revert σ. induction ms as [|m ms IH]; intros σ Hok; simpl; [by intros [= <-]|].
  intros (σ1 & Hm & Hr)%bind_Some_inv. eapply IH; [|done]. by eapply moves_ok.
Qed.

End invariant.
