(* ===== verification/Promises.v ===== *)
(** * Promises: what a transaction has established when it commits

    Between two statements of a transaction others commit.  [rely] says what they leave alone: the
    rows the transaction has written, the sessions it has locked, and, while it holds the
    advisory lock, the set of passkeys.  [wp] is the weakest precondition of a script under this
    interference, for a property of what is published and written at its commit; a promise that
    the script of every call keeps from its beginning holds at every commit of every run
    ([commits_keep_promises]). *)
From S2P Require Export Concurrency.

Record rely (holds : bool) (l : list Uuid) (w p p' : Db) : Prop := {
  rely_wf : db_wf p';
  rely_view_wf : db_wf (over p' w);
  rely_view : evolves p' (over p' w);
  rely_evolves : evolves p p';
  rely_untouched : untouched w p p';
  rely_locked : ∀ k, k ∈ l → auth_sessions p' !! k = auth_sessions p !! k;
  rely_credentials : holds = true → credential_ids p' ⊆ credential_ids p;
}.

Lemma rely_trans holds l w p1 p2 p3 :
  rely holds l w p1 p2 → rely holds l w p2 p3 → rely holds l w p1 p3.
Proof.
  intros [_ _ _ He1 Hu1 Hl1 Hc1] [Hw Hv Hvw He2 Hu2 Hl2 Hc2]. constructor; try done.
  - by etransitivity.
  - by etransitivity.
  - intros k Hk. rewrite (Hl2 k Hk). by apply Hl1.
  - intros Hh. etransitivity; [by apply Hc2|by apply Hc1].
Qed.

Fixpoint wp {A} (C : Db → Db → Prop) (s : Script A) (holds : bool) (l : list Uuid) (p w : Db) : Prop :=
  match s with
  | Return _ => True
  | Ask locks st k => ∀ now p', rely holds l w p p' →
      (∀ a d, st now (over p' w) = Ok (a, d) →
         wp C (k (Ok a)) holds (locks (over p' w) ++ l) p' (written p' w d)) ∧
      ∀ e, wp C (k (Err e)) holds l p' w
  | AdvisoryLock k => ∀ p', rely holds l w p p' → wp C (k (Ok tt)) true l p' w ∧ ∀ e, wp C (k (Err e)) holds l p' w
  | DrawUuid k => ∀ id, wp C (k id) holds l p w
  | Commit k => ∀ p', rely holds l w p p' → C p' w ∧ ∀ e, wp C (k (Err e)) holds l p' w
  end.

(** Interference by others does not invalidate it. *)
Lemma wp_rely {A} C (s : Script A) holds l p p' w :
  rely holds l w p p' → wp C s holds l p w → wp C s holds l p' w.
Proof.
  intros Hr. induction s as [r|B locks st k IH|k IH|k IH|k IH]; simpl; [done| | | |].
  - intros Hw now p2 Hr2. apply Hw. by eapply rely_trans.
  - intros Hw p2 Hr2. apply Hw. by eapply rely_trans.
  - intros Hw id. by apply IH.
  - intros Hw p2 Hr2. apply Hw. by eapply rely_trans.
Qed.

Lemma wp_mono {A} (C C' : Db → Db → Prop) (s : Script A) holds l p w :
  (∀ p' w', C p' w' → C' p' w') → wp C s holds l p w → wp C' s holds l p w.
Proof.
  intros HC. revert holds l p w. induction s as [r|B locks st k IH|k IH|k IH|k IH]; intros holds l p w; simpl; [done| | | |].
  - intros Hw now p' Hr. destruct (Hw now p' Hr) as [H1 H2]. split; [naive_solver|]. intros e. by apply IH.
  - intros Hw p' Hr. destruct (Hw p' Hr) as [H1 H2]. split; [by apply IH|]. intros e. by apply IH.
  - intros Hw id. by apply IH.
  - intros Hw p' Hr. destruct (Hw p' Hr) as [H1 H2]. split; [auto|]. intros e. by apply IH.
Qed.

Lemma wp_trivial {A} (C : Db → Db → Prop) (s : Script A) holds l p w : (∀ p' w', C p' w') → wp C s holds l p w.
Proof.
  intros HC. revert holds l p w. induction s as [r|B locks st k IH|k IH|k IH|k IH]; intros holds l p w; simpl; auto.
Qed.

(** *** In the runs of the server *)

(** Committing is what the others rely on. *)
Lemma rely_publish p w c :
  client_ok p c → publishable p w → compatible w (writes c) → unwritten (locked c) w →
  (advisory c = true → credential_ids w ⊆ credential_ids p) →
  rely (advisory c) (locked c) (writes c) p (over p w).
Proof.
  intros Hc Hp Hw Hl Ha. destruct (client_ok_published _ _ _ Hp Hw Hc). destruct Hp. constructor; try done.
  - by apply untouched_over.
  - intros k Hk. simpl. apply lookup_union_r. unfold unwritten in Hl. rewrite Forall_forall in Hl. by apply Hl.
  - intros Hh k. unfold credential_ids in *. simpl. rewrite dom_union. set_solver.
Qed.

Lemma rely_refl p c : db_wf p → client_ok p c → rely (advisory c) (locked c) (writes c) p p.
Proof. intros Hp []. by constructor. Qed.

Section promises.
Context (int4_as_i64 : bool) (promise : store_call → Db → Db → Db → Prop).

(** The promise of a call, about what was published when it began, what is published when it
    commits and what it has written, is kept by its script. *)
Definition promised : Prop := ∀ c s p,
  plan_of int4_as_i64 c = Some (InTransaction s) → call_valid c → db_wf p →
  wp (promise c p) s false [] p empty_db.

Definition on_course (p : Db) (c : Client) : Prop :=
  wp (promise (call_of c) (began c)) (rest c) (advisory c) (locked c) p (writes c).

Definition courses (σ : Server) : Prop := map_Forall (λ _ c, on_course (published σ) c) (clients σ).

Lemma courses_set σ i c : courses σ → on_course (published σ) c → courses (set_client i c σ).
Proof. intros Hc Hi. by apply map_Forall_insert_2. Qed.

(** The other transactions stay on course while one publishes. *)
Lemma courses_publish p w (cs : gmap nat Client) l l' :
  server_ok (mkServer p cs l) → courses (mkServer p cs l) → publishable p w →
  (∀ i c, cs !! i = Some c → compatible w (writes c) ∧ unwritten (locked c) w ∧
     (advisory c = true → credential_ids w ⊆ credential_ids p)) →
  courses (mkServer (over p w) cs l').
Proof.
  intros Hok Hc Hp Hap i c Hi. destruct (Hap i c Hi) as (Hw & Hl & Ha). unfold on_course. simpl in *.
  eapply wp_rely; [|by apply (Hc i c)]. apply rely_publish; try done. by apply (server_clients _ Hok i c).
Qed.

Lemma courses_commit σ i c l :
  server_ok σ → courses σ → clients σ !! i = Some c →
  courses (mkServer (over (published σ) (writes c)) (delete i (clients σ)) l).
Proof.
  intros Hok Hco Hi. pose proof (server_clients _ Hok _ _ Hi) as [Hw He _ _ Hn].
  eapply courses_publish; [by apply (server_ok_delete _ i (committed σ))| |done|].
  - by apply map_Forall_delete.
  - intros j c' [Hj Hc']%lookup_delete_Some.
    destruct (server_apart _ Hok i j _ _ ltac:(done) Hi Hc') as [Hcw [_ Hu] _ Ha]. split_and!; try done.
    intros Hh. apply Hn. destruct (advisory c); [by destruct Ha|done].
Qed.

(** A call without a transaction. *)
Lemma courses_single σ c p id now d l :
  server_ok σ → courses σ → plan_of int4_as_i64 c = Some p → call_valid c →
  effect_of p id now (published σ) = Some d →
  admits (clients σ) (written (published σ) empty_db d) [] = true → courses (mkServer d (clients σ) l).
Proof.
  intros Hok Hco Hp Hv Hd Ha.
  destruct (plan_effect_safe _ _ _ _ _ _ _ Hp Hv Hd (server_wf _ Hok)) as (Hw & He & Hn).
  assert (over (published σ) (written (published σ) empty_db d) = d) as Hov
    by (apply over_written; by rewrite over_empty).
  rewrite <- Hov at 1. eapply (courses_publish _ _ _ (committed σ)); [by destruct σ..| |].
  - unfold publishable. by rewrite Hov.
  - intros i c' Hi. destruct (admits_spec _ _ _ Ha i c' Hi) as (? & ? & _). split_and!; try done.
    intros _ k. unfold credential_ids, written. simpl. rewrite elem_of_dom.
    intros [v [Hk _]%map_lookup_filter_Some]. apply Hn. apply elem_of_dom. by exists v.
Qed.

Lemma moves_courses σ m σ' :
  promised → server_ok σ → courses σ → moves int4_as_i64 σ m = Some σ' → courses σ'.
Proof.
  intros Hpr Hok Hco Hm. destruct m as [i c|i now|i|i id|i|i|i|c id now]; simpl in Hm.
  - apply bind_Some_inv in Hm as (client & Hc & Hm). case_bool_decide as Hb; [|done]. injection Hm as <-.
    destruct Hb as [Hi Hv]. apply begins_inv in Hc as (s & Hp & ->).
    apply courses_set; [done|]. apply Hpr; [done..|apply Hok].
  - apply bind_Some_inv in Hm as (c & Hi & Hm). apply bind_Some_inv in Hm as ([effect s] & Hs & Hm).
    pose proof (rely_refl _ _ (server_wf _ Hok) (server_clients _ Hok _ _ Hi)) as Hr.
    pose proof (Hco _ _ Hi) as Hw. unfold on_course in Hw.
    destruct (rest c) as [|B locks st k| | |]; try done. simpl in Hs. injection Hs as Hs.
    destruct (Hw now _ Hr) as [H1 H2]. destruct (st now _) as [[a d']|e] eqn:Hst; injection Hs as <- <-.
    + destruct (admits _ _ _); [|done]. injection Hm as <-. apply courses_set; [done|]. by apply H1.
    + injection Hm as <-. apply courses_set; [done|]. apply H2.
  - apply bind_Some_inv in Hm as (c & Hi & Hm). apply bind_Some_inv in Hm as (s & Hs & Hm).
    destruct (lock_free _); [|done]. injection Hm as <-. apply courses_set; [done|].
    pose proof (rely_refl _ _ (server_wf _ Hok) (server_clients _ Hok _ _ Hi)) as Hr.
    pose proof (Hco _ _ Hi) as Hw. unfold on_course in *. simpl.
    destruct (rest c); try done. injection Hs as <-. apply (Hw _ Hr).
  - apply bind_Some_inv in Hm as (c & Hi & Hm). apply bind_Some_inv in Hm as (s & Hs & Hm). injection Hm as <-.
    apply courses_set; [done|]. pose proof (Hco _ _ Hi) as Hw. unfold on_course in *. simpl.
    destruct (rest c); try done. injection Hs as <-. apply Hw.
  - apply bind_Some_inv in Hm as (c & Hi & Hm). apply bind_Some_inv in Hm as (s & Hs & Hm). injection Hm as <-.
    apply courses_set; [done|].
    pose proof (rely_refl _ _ (server_wf _ Hok) (server_clients _ Hok _ _ Hi)) as Hr.
    pose proof (Hco _ _ Hi) as Hw. unfold on_course in *. simpl.
    destruct (rest c) as [|B locks st k| | |]; try done; injection Hs as <-;
      [apply (Hw 0 _ Hr)|apply (Hw _ Hr)|apply (Hw _ Hr)].
  - apply bind_Some_inv in Hm as (c & Hi & Hm). destruct (commits _) eqn:Hc; [|done]. injection Hm as <-.
    by apply courses_commit.
  - apply bind_Some_inv in Hm as (c & Hi & Hm). destruct (returned _); [|done]. injection Hm as <-.
    by apply map_Forall_delete.
  - apply bind_Some_inv in Hm as (p & Hp & Hm). apply bind_Some_inv in Hm as (d & Hd & Hm).
    destruct (_ && _) eqn:Hb; [|done]. injection Hm as <-.
    apply andb_true_iff in Hb as [Hv%bool_decide_eq_true_1 Ha].
    by eapply courses_single.
Qed.

Lemma run_courses σ ms σ' :
  promised → server_ok σ → courses σ → run int4_as_i64 σ ms = Some σ' → server_ok σ' ∧ courses σ'.
Proof.
  intros Hpr. revert σ. induction ms as [|m ms IH]; intros σ Hok Hco; simpl; [by intros [= <-]|].
  intros (σ1 & Hm & Hr)%bind_Some_inv. eapply IH; [| |done]; [by eapply moves_ok|by eapply moves_courses].
Qed.

(** At a commit the promise holds, and what the transaction has written is published. *)
Lemma commit_promise σ i σ' :
  server_ok σ → courses σ → moves int4_as_i64 σ (Committing i) = Some σ' →
  ∃ c, clients σ !! i = Some c ∧ promise (call_of c) (began c) (published σ) (writes c) ∧
    client_ok (published σ) c ∧
    σ' = mkServer (over (published σ) (writes c)) (delete i (clients σ)) (committed σ ++ [call_of c]).
Proof.
  intros Hok Hco (c & Hi & Hm)%bind_Some_inv. destruct (commits _) eqn:Hc; [|done]. injection Hm as <-.
  pose proof (server_clients _ Hok _ _ Hi) as Hcl. exists c. split_and!; try done.
  pose proof (Hco _ _ Hi) as Hw. unfold on_course in Hw.
  destruct (rest c); try done. by apply (Hw _ (rely_refl _ _ (server_wf _ Hok) Hcl)).
Qed.

End promises.

Lemma idle_ok d : db_wf d → server_ok (idle d).
Proof. intros Hd. constructor; [done|apply map_Forall_empty|]. intros i j c c' _ Hi. by destruct (lookup_empty_Some i c). Qed.

Lemma idle_courses promise d : courses promise (idle d).
Proof. apply map_Forall_empty. Qed.

(** ** Rules *)

Lemma wp_query {A B D} (C : Db → Db → Prop) f locks (st : DateTime → statement B) (decode : B → result A SqlxError)
    (K : A → Script D) holds l p w :
  (∀ now, statement_safe (st now)) →
  (∀ now p' b d a, rely holds l w p p' → st now (over p' w) = Ok (b, d) → decode b = Ok a →
     evolves (over p' w) d → over p' (written p' w d) = d →
     wp C (K a) holds (locks (over p' w) ++ l) p' (written p' w d)) →
  wp C (sbind (query f locks st decode) K) holds l p w.
Proof.
  intros Hs HK now p' Hr. split; [|done]. intros b d Hst. simpl.
  destruct (decode b) as [a|e] eqn:Hd; simpl; [|done].
  destruct (Hs _ _ _ _ Hst (rely_view_wf _ _ _ _ _ Hr)) as [_ He].
  by eapply HK; [| |done| |apply over_written].
Qed.

Lemma wp_lock {D} (C : Db → Db → Prop) (K : unit → Script D) l p w :
  (∀ p', rely false l w p p' → wp C (K tt) true l p' w) → wp C (sbind bootstrap_lock K) false l p w.
Proof. intros HK p' Hr. split; [by apply HK|done]. Qed.

Lemma wp_guard {D} (C : Db → Db → Prop) (refused : bool) e (K : unit → Script D) holds l p w :
  (refused = false → wp C (K tt) holds l p w) → wp C (sbind (sguard refused e) K) holds l p w.
Proof. intros HK. destruct refused; [done|]. by apply HK. Qed.

Lemma wp_lift {A D} (C : Db → Db → Prop) (r : result A AuthError) (K : A → Script D) holds l p w :
  (∀ a, r = Ok a → wp C (K a) holds l p w) → wp C (sbind (slift r) K) holds l p w.
Proof. intros HK. destruct r; [by apply HK|done]. Qed.

Lemma wp_assoc {A B D} (C : Db → Db → Prop) (c : Script A) (f : A → Script B) (g : B → Script D) holds l p w :
  wp C (sbind c (λ a, sbind (f a) g)) holds l p w → wp C (sbind (sbind c f) g) holds l p w.
Proof.
  revert holds l p w. induction c as [[a|e]|X locks st k IH|k IH|k IH|k IH]; intros holds l p w; simpl; try done.
  - intros Hw now p' Hr. destruct (Hw now p' Hr) as [H1 H2]. split; [|naive_solver]. intros a d Hst. by apply IH, H1.
  - intros Hw p' Hr. destruct (Hw p' Hr) as [H1 H2]. split; [by apply IH|naive_solver].
  - intros Hw id. by apply IH.
  - intros Hw p' Hr. destruct (Hw p' Hr) as [H1 H2]. split; [done|naive_solver].
Qed.

(** Every statement of the script relates the database before it to the one after it. *)
Fixpoint steps_by (Q : Db → Db → Prop) {A} (s : Script A) : Prop :=
  match s with
  | Return _ => True
  | Ask _ st k => (∀ now d a d', st now d = Ok (a, d') → Q d d') ∧ ∀ r, steps_by Q (k r)
  | AdvisoryLock k | Commit k => ∀ r, steps_by Q (k r)
  | DrawUuid k => ∀ id, steps_by Q (k id)
  end.

Lemma steps_by_sbind Q {A B} (c : Script A) (f : A → Script B) :
  steps_by Q c → (∀ a, steps_by Q (f a)) → steps_by Q (sbind c f).
Proof. induction c as [[a|e]|X locks st k IH|k IH|k IH|k IH]; simpl; naive_solver. Qed.

Lemma steps_by_query Q {A B} f locks (st : DateTime → statement B) (decode : B → result A SqlxError) :
  (∀ now d a d', st now d = Ok (a, d') → Q d d') → steps_by Q (query f locks st decode).
Proof. by split. Qed.

(** Follows a script down to its statements. *)
Ltac stepped :=
  repeat match goal with
  | |- steps_by _ (sbind _ _) => apply steps_by_sbind; [|intros ?]
  | |- steps_by _ (query _ _ _ _) => apply steps_by_query; intros ?
  | |- steps_by _ (sends _ _) => apply steps_by_query; intros ?
  | |- steps_by _ (sends_store _) => apply steps_by_query; intros ?
  | |- steps_by _ (match ?x with _ => _ end) => destruct x
  | |- steps_by _ (if ?x then _ else _) => destruct x
  | |- steps_by _ (sguard ?b _) => destruct b; exact I
  | |- steps_by _ (sret _) => exact I
  | |- steps_by _ (sthrow _) => exact I
  | |- steps_by _ (slift _) => exact I
  | |- steps_by _ scommit => by intros ?
  | |- steps_by _ bootstrap_lock => by intros ?
  | |- steps_by _ (DrawUuid sret) => by intros ?
  end; eauto with scripts_ok.

Lemma steps_by_any {A} (s : Script A) : steps_by (λ _ _, True) s.
Proof. induction s; simpl; auto. Qed.

(** What the rest of a transaction cannot undo: if what is known of the published database and of the
    writes survives the interference and every later statement, it holds at the commit. *)
Lemma wp_keep_by {A} (Q : Db → Db → Prop) (J : bool → Db → Db → Prop) (C : Db → Db → Prop) (s : Script A) holds l p w :
  (∀ h p w, J h p w → C p w) →
  (∀ h l w p p', rely h l w p p' → J h p w → J h p' w) →
  (∀ h p w d, db_wf (over p w) → evolves (over p w) d → Q (over p w) d → J h p w → J h p (written p w d)) →
  (∀ p w, J false p w → J true p w) →
  script_ok holds s → steps_by Q s → J holds p w → wp C s holds l p w.
Proof.
  intros HC Hrely Hexec Hlock. revert holds l p w.
  induction s as [r|B locks st k IH|k IH|k IH|k IH]; intros holds l p w; simpl; [done| | | |].
  - intros [Hs Hk] [HQ HQk] HJ now p' Hr. split; [|intros e; apply IH; [done|done|by eapply Hrely]].
    intros a d Hst. apply IH; [done|done|]. destruct (Hs now) as [Hsafe _].
    destruct (Hsafe _ _ _ Hst (rely_view_wf _ _ _ _ _ Hr)).
    apply Hexec; [by eapply rely_view_wf|done|by eapply HQ|by eapply Hrely].
  - intros [Hk He] HQ HJ p' Hr. split.
    + apply IH; [done|done|]. destruct holds; [|apply Hlock]; by eapply Hrely.
    + intros e. apply IH; [done|done|]. by eapply Hrely.
  - intros Hk HQ HJ id. by apply IH.
  - intros Hk HQ HJ p' Hr. split; [by eapply HC, Hrely|]. intros e. apply IH; [done|done|]. by eapply Hrely.
Qed.

Lemma wp_keep {A} (J : bool → Db → Db → Prop) (C : Db → Db → Prop) (s : Script A) holds l p w :
  (∀ h p w, J h p w → C p w) →
  (∀ h l w p p', rely h l w p p' → J h p w → J h p' w) →
  (∀ h p w d, db_wf (over p w) → evolves (over p w) d → J h p w → J h p (written p w d)) →
  (∀ p w, J false p w → J true p w) →
  script_ok holds s → J holds p w → wp C s holds l p w.
Proof.
  intros HC Hrely Hexec Hlock Hs HJ. eapply (wp_keep_by (λ _ _, True)); try eassumption; [|apply steps_by_any].
  intros h p' w' d Hw He _. by apply Hexec.
Qed.
