(* ===== verification/ConcurrentSafety.v ===== *)
(** * ConcurrentSafety: guarantees over runs of concurrent transactions

    The guarantees of [PgSafety.v] and [StoreSecurity.v] speak of calls one after another.  Here
    any number of transactions are open at once, their statements in any order that the locks
    admit, and connections break: the schema and the history are kept, nothing is used twice, an
    invalidation of an account takes effect however it is interleaved with logins, and the
    advisory lock does what it is for. *)
From S2P Require Export Promises StoreSecurity.

(** ** The schema and the history *)

Section history.
Context (int4_as_i64 : bool).

Lemma moves_evolve σ m σ' :
  server_ok σ → moves int4_as_i64 σ m = Some σ' → evolves (published σ) (published σ').
Proof.
  intros Hok Hm. destruct m as [i c|i now|i|i id|i|i|i|c id now]; simpl in Hm;
    repeat match type of Hm with
           | _ ≫= _ = Some _ => apply bind_Some_inv in Hm as (? & ? & Hm)
           | (let '(_, _) := ?x in _) = _ => destruct x
           | (if ?b then _ else _) = Some _ => destruct b eqn:?
           | match ?x with _ => _ end = Some _ => destruct x
           end; try done; injection Hm as <-; try done.
  - by eapply client_evolves, server_clients.
  - match goal with H : _ && _ = true |- _ => apply andb_true_iff in H as [Hv%bool_decide_eq_true_1 _] end.
    by eapply plan_effect_safe; [..|apply Hok].
Qed.

Lemma run_evolves σ ms σ' :
  server_ok σ → run int4_as_i64 σ ms = Some σ' → server_ok σ' ∧ evolves (published σ) (published σ').
Proof.
  revert σ. induction ms as [|m ms IH]; intros σ Hok; simpl; [by intros [= <-]|].
  intros (σ1 & Hm & Hr)%bind_Some_inv. destruct (IH σ1) as [Hok' He]; [by eapply moves_ok|done|].
  split; [done|]. etransitivity; [by eapply moves_evolve|done].
Qed.

(** C19: the schema and the history survive concurrency.  From a database that satisfies the schema,
    whatever calls are served at once, in whatever order their statements are executed as the
    locks admit, wherever connections break: what is published satisfies the schema, whatever an
    open transaction would publish by committing now does, too, and from any moment of a run to
    any later one nothing that was published is undone. *)
Theorem concurrent_schema_and_history d ms σ ms' σ' :
  db_wf d → run int4_as_i64 (idle d) ms = Some σ → run int4_as_i64 σ ms' = Some σ' →
  db_wf (published σ') ∧ evolves (published σ) (published σ') ∧
  ∀ i c, clients σ' !! i = Some c →
    db_wf (over (published σ') (writes c)) ∧ evolves (published σ') (over (published σ') (writes c)).
Proof.
  intros Hd H1 H2. destruct (run_evolves _ _ _ (idle_ok _ Hd) H1) as [Hok _].
  destruct (run_evolves _ _ _ Hok H2) as [Hok' He]. split_and!; [apply Hok'|done|].
  intros i c Hi. by destruct (server_clients _ Hok' _ _ Hi).
Qed.

End history.

(** ** One use *)

(** What a call uses up when it takes effect. *)
Inductive use_of :=
| OfCeremony (id : Uuid)
| OfCapability (hash : string)
| OfApproval (recovery : Uuid)
| OfSetup (recovery : Uuid)
| OfCredential (id : Uuid).

Definition uses (c : store_call) : list use_of :=
  match c with
  | CompleteRegistration id hash _ _ _ =>
      OfCeremony id :: match hash with Some h => [OfCapability (SecretHash.as_bytes h)] | None => [] end
  | CompleteAuthentication id _ _ _ _ => [OfCeremony id]
  | ApproveRecovery id _ _ => [OfApproval id]
  | IssueRecoverySetup id _ _ _ => [OfSetup id]
  | BreakGlass id _ _ _ => [OfCredential id]
  | _ => []
  end.

(** Some row that the use names has been marked, or none of them has. *)
Definition marked {V} (f : V → option DateTime) (m : gmap Uuid V) (k : Uuid) : Prop :=
  ∃ v, m !! k = Some v ∧ is_Some (f v).

Definition spent (d : Db) (u : use_of) : Prop :=
  match u with
  | OfCeremony id => marked AuthCeremony.consumed_at (auth_ceremonies d) id
  | OfCapability hash => ∃ k c, auth_capabilities d !! k = Some c ∧ AuthCapability.token_hash c = hash ∧
      is_Some (AuthCapability.consumed_at c)
  | OfApproval id => marked Recovery.approved_at (recovery_requests d) id
  | OfSetup id => marked Recovery.setup_issued_at (recovery_requests d) id
  | OfCredential id => marked PasskeyCredential.revoked_at (passkey_credentials d) id
  end.

(** A row that is unmarked in what is published and marked among the writes. *)
Definition takes {V} (f : V → option DateTime) (m w : gmap Uuid V) (k : Uuid) : Prop :=
  (∃ v, m !! k = Some v ∧ f v = None) ∧ marked f w k.

Definition taken (u : use_of) (p w : Db) : Prop :=
  match u with
  | OfCeremony id => takes AuthCeremony.consumed_at (auth_ceremonies p) (auth_ceremonies w) id
  | OfCapability hash => ∃ k, takes AuthCapability.consumed_at (auth_capabilities p) (auth_capabilities w) k ∧
      ∃ c, auth_capabilities p !! k = Some c ∧ AuthCapability.token_hash c = hash
  | OfApproval id => takes Recovery.approved_at (recovery_requests p) (recovery_requests w) id
  | OfSetup id => takes Recovery.setup_issued_at (recovery_requests p) (recovery_requests w) id
  | OfCredential id => takes PasskeyCredential.revoked_at (passkey_credentials p) (passkey_credentials w) id
  end.

Section marks.
Context {V : Type} `{EqDecision V} (f : V → option DateTime).
Implicit Types (m p w d : gmap Uuid V).

Lemma marked_evolves R m m' k :
  (∀ v v', R v v' → sticky (f v) (f v')) → table_evolves R m m' → marked f m k → marked f m' k.
Proof.
  intros HR He (v & Hv & Hf). destruct (He k v Hv) as (v' & Hv' & Hr). exists v'. split; [done|].
  by rewrite (HR _ _ Hr Hf).
Qed.

Lemma takes_untouched p p' w k : rows_untouched w p p' → takes f p w k → takes f p' w k.
Proof. intros Hu [Hp (v & Hw & Hf)]. split; [|by exists v]. rewrite (Hu k); [done|by eexists]. Qed.

Lemma takes_written R p w d k :
  (∀ v v', R v v' → sticky (f v) (f v')) → table_evolves R (w ∪ p) d →
  takes f p w k → takes f p (rows_written p w d) k.
Proof.
  intros HR He [Hp (v & Hw & Hf)]. split; [done|].
  destruct (He k v) as (v' & Hd & Hr); [by apply lookup_union_Some_l|]. exists v'. split.
  - apply map_lookup_filter_Some_2; [done|]. left. simpl. by rewrite Hw.
  - by rewrite (HR _ _ Hr Hf).
Qed.

(** The statement that marks the row. *)
Lemma takes_now p w d k v v' :
  w !! k = None → (w ∪ p) !! k = Some v → f v = None → d !! k = Some v' → is_Some (f v') →
  takes f p (rows_written p w d) k.
Proof.
  intros Hw Hv Hn Hd Hs. rewrite lookup_union_r in Hv by done. split; [by exists v|]. exists v'. split; [|done].
  apply map_lookup_filter_Some_2; [done|]. right. simpl. rewrite Hv. intros [= ->]. rewrite Hn in Hs. by destruct Hs.
Qed.

Lemma takes_unmarked p w k : takes f p w k → ¬ marked f p k.
Proof. intros [(v & Hv & Hn) _] (v' & Hv' & Hs). rewrite Hv in Hv'. injection Hv' as <-. rewrite Hn in Hs. by destruct Hs. Qed.

Lemma takes_marked p w k : takes f p w k → marked f (w ∪ p) k.
Proof. intros [_ (v & Hv & Hs)]. exists v. split; [by apply lookup_union_Some_l|done]. Qed.

End marks.

Lemma spent_evolves d d' u : evolves d d' → spent d u → spent d' u.
Proof.
  intros [Hu Hc Hcap Hcer Hses Hrec _]. destruct u; simpl.
  - by eapply marked_evolves, Hcer; intros ? ? (? & ? & ? & ? & ? & ?).
  - intros (k & c & Hk & Hh & Hs). destruct (Hcap _ _ Hk) as (c' & Hk' & _ & _ & Hh' & _ & Hst).
    exists k, c'. split_and!; [done|congruence|]. by rewrite (Hst Hs).
  - by eapply marked_evolves, Hrec; intros ? ? (? & ? & ? & ? & ?).
  - by eapply marked_evolves, Hrec; intros ? ? (? & ? & ? & ? & ?).
  - by eapply marked_evolves, Hc; intros ? ? (? & ? & ?).
Qed.

Lemma taken_rely u h l w p p' : rely h l w p p' → taken u p w → taken u p' w.
Proof.
  intros [_ _ _ _ [_ Uc Up Uy _ Ur] _ _]. destruct u; simpl; try by apply takes_untouched.
  intros (k & Ht & c & Hc & Hh). exists k. split; [by eapply takes_untouched|]. exists c. split; [|done].
  destruct Ht as [_ (v & Hw & _)]. rewrite (Up k); [done|by eexists].
Qed.

Lemma taken_written u p w d : evolves (over p w) d → taken u p w → taken u p (written p w d).
Proof.
  intros [Hu Hc Hcap Hcer Hses Hrec _]. destruct u; simpl.
  - by eapply takes_written, Hcer; intros ? ? (? & ? & ? & ? & ? & ?).
  - intros (k & Ht & Hk). exists k. split; [|done].
    eapply takes_written; [|exact Hcap|done]. by intros ? ? (? & ? & ? & ? & ?).
  - by eapply takes_written, Hrec; intros ? ? (? & ? & ? & ? & ?).
  - by eapply takes_written, Hrec; intros ? ? (? & ? & ? & ? & ?).
  - by eapply takes_written, Hc; intros ? ? (? & ? & ?).
Qed.

Lemma taken_unspent u p w : db_wf p → taken u p w → ¬ spent p u.
Proof.
  intros Hw. destruct u; simpl; try by apply takes_unmarked.
  intros (k & Ht & c & Hc & <-) (k' & c' & Hk' & Hh & Hs).
  assert (k' = k) as -> by (by apply (capabilities_hash _ (wf_capabilities _ Hw) _ _ _ _ Hk' Hc)).
  apply (takes_unmarked _ _ _ _ Ht). by exists c'.
Qed.

Lemma taken_spent u p w : evolves p (over p w) → taken u p w → spent (over p w) u.
Proof.
  intros He. destruct u; simpl; try by apply takes_marked.
  intros (k & Ht%takes_marked & c & Hc & <-). destruct Ht as (c' & Hk' & Hs).
  exists k, c'. split_and!; try done.
  destruct (evolves_capabilities _ _ He _ _ Hc) as (c2 & Hk2 & _ & _ & Hh & _). simpl in Hk2. congruence.
Qed.

(** *** The statements that take *)

Lemma rows_where_elem {K V} `{Countable K} (P : K → V → bool) (m : gmap K V) :
  rows_where P m ≠ [] → ∃ k v, m !! k = Some v ∧ P k v = true.
Proof.
  intros Hn. destruct (rows_where P m) as [|[k v] l] eqn:Hr; [done|]. exists k, v.
  apply elem_of_rows_where. rewrite Hr. apply list_elem_of_here.
Qed.

(** An [UPDATE] that marks a row which was not. *)
Lemma update_takes {V} `{EqDecision V} (f : V → option DateTime) (P : Uuid → V → bool) (g : V → V) (p : gmap Uuid V) k v :
  p !! k = Some v → P k v = true → f v = None → is_Some (f (g v)) →
  takes f p (rows_written p ∅ (update_where P g (∅ ∪ p))) k.
Proof.
  intros Hk HP Hn Hs. eapply takes_now; [apply lookup_empty|by rewrite (left_id_L ∅ (∪))|done| |exact Hs].
  by rewrite (left_id_L ∅ (∪)), lookup_update_where, Hk; simpl; rewrite HP.
Qed.

Lemma consume_ceremonies_taken P at_ p w rows d id :
  consume_ceremonies P at_ (over p w) = Ok (rows, d) → (∀ k c, P k c = true → k = id) → rows ≠ [] →
  auth_ceremonies w = ∅ → taken (OfCeremony id) p (written p w d).
Proof.
  intros [= <- <-] HP Hr Hw. simpl in *. rewrite Hw in *. apply rows_where_elem in Hr as (k & c & Hk & Hc).
  rewrite (left_id_L ∅ (∪)) in Hk. pose proof Hc as [HPk%HP Hn%is_null_true]%andb_true_iff. subst k.
  eapply update_takes; [exact Hk|exact Hc|done|by eexists].
Qed.

Lemma consume_capabilities_taken P at_ p w n d hash :
  consume_capabilities P at_ (over p w) = Ok (n, d) → (∀ k c, P k c = true → AuthCapability.token_hash c = hash) →
  n ≠ 0%nat → auth_capabilities w = ∅ → taken (OfCapability hash) p (written p w d).
Proof.
  intros [= <- <-] HP Hr Hw. simpl in *. rewrite Hw in *.
  assert (rows_where (λ k c, P k c && is_null (AuthCapability.consumed_at c)) (∅ ∪ auth_capabilities p) ≠ []) as Hne
    by (intros He; by rewrite He in Hr).
  apply rows_where_elem in Hne as (k & c & Hk & Hc).
  rewrite (left_id_L ∅ (∪)) in Hk. pose proof Hc as [HPk%HP Hn%is_null_true]%andb_true_iff.
  exists k. split; [|by exists c]. eapply update_takes; [exact Hk|exact Hc|done|by eexists].
Qed.

Lemma mark_approved_taken id op at_ p w user d :
  mark_approved id op at_ (over p w) = Ok (Some user, d) → recovery_requests w = ∅ →
  taken (OfApproval id) p (written p w d).
Proof.
  unfold mark_approved. intros Hm Hw. destruct (head _) as [[k r]|] eqn:Hh; [|done].
  apply head_rows_where in Hh as [Hk HP]. destruct (user_exists _ _); [|done]. injection Hm as _ <-. simpl in *.
  rewrite Hw in *. rewrite (left_id_L ∅ (∪)) in Hk.
  pose proof HP as [[->%Z.eqb_eq Hn%is_null_true]%andb_true_iff _]%andb_true_iff.
  eapply update_takes; [exact Hk|exact HP|done|by eexists].
Qed.

Lemma mark_issued_taken id user at_ p w n d :
  mark_issued id user at_ (over p w) = Ok (n, d) → n ≠ 0%nat → recovery_requests w = ∅ →
  taken (OfSetup id) p (written p w d).
Proof.
  intros [= Hn <-] Hr Hw. simpl in *. rewrite Hw in *.
  match type of Hn with length (rows_where ?P ?m) = _ =>
    assert (rows_where P m ≠ []) as Hne by (intros He; rewrite He in Hn; by subst) end.
  apply rows_where_elem in Hne as (k & c & Hk & Hc). rewrite (left_id_L ∅ (∪)) in Hk.
  pose proof Hc as [[[[->%Z.eqb_eq _]%andb_true_iff Hi%is_null_true]%andb_true_iff _]%andb_true_iff _]%andb_true_iff.
  eapply update_takes; [exact Hk|exact Hc|done|by eexists].
Qed.

Lemma revoke_credential_taken id at_ p w user d :
  revoke_operator_credential id at_ (over p w) = Ok (Some user, d) → passkey_credentials w = ∅ →
  taken (OfCredential id) p (written p w d).
Proof.
  intros [= Hh <-] Hw. simpl in *. rewrite Hw in *.
  apply fmap_Some in Hh as ([k c] & Hh & _). apply head_rows_where in Hh as [Hk HP].
  rewrite (left_id_L ∅ (∪)) in Hk. pose proof HP as [->%Z.eqb_eq Ha]%andb_true_iff.
  eapply update_takes; [exact Hk|exact HP| |by eexists].
  unfold active_operator_credential in Ha. destruct (_ !! PasskeyCredential.user_id c); [|done].
  by apply andb_true_iff in Ha as [_ ?%is_null_true].
Qed.

(** *** The scripts that take *)

Definition takes_uses (c : store_call) (_ p w : Db) : Prop := ∀ u, u ∈ uses c → taken u p w.

Lemma wp_taken {A} (us : list use_of) (s : Script A) holds l p w :
  script_ok holds s → (∀ u, u ∈ us → taken u p w) → wp (λ p w, ∀ u, u ∈ us → taken u p w) s holds l p w.
Proof.
  intros Hs Ht. apply (wp_keep (λ _ p w, ∀ u, u ∈ us → taken u p w)); try done.
  - intros h l' w' p1 p2 Hr Hu u Hin. by eapply taken_rely, Hu.
  - intros h p' w' d _ He Hu u Hin. by apply taken_written, Hu.
Qed.

Lemma complete_authentication_takes id v s now audit p :
  wp (takes_uses (CompleteAuthentication id v s now audit) p) (complete_authentication_script id v s now audit)
    false [] p empty_db.
Proof.
  apply wp_query; [intros ?; apply consume_ceremonies_safe|].
  intros server_now p' rows d a Hr Hst [= <-] He Hov. apply wp_guard. intros Hn.
  apply (wp_taken [OfCeremony id]); [scripted|]. intros u ->%list_elem_of_singleton.
  eapply consume_ceremonies_taken; [exact Hst| | |done].
  - by intros k c [[->%Z.eqb_eq _]%andb_true_iff _]%andb_true_iff.
  - by intros ->.
Qed.

Lemma approve_recovery_takes id op now p :
  wp (takes_uses (ApproveRecovery id op now) p) (approve_recovery_script id op now) false [] p empty_db.
Proof.
  apply wp_query; [intros ?; apply mark_approved_safe|].
  intros server_now p' found d a Hr Hst [= <-] He Hov. apply wp_lift. intros user ->%ok_or_Ok.
  apply (wp_taken [OfApproval id]); [scripted|]. intros u ->%list_elem_of_singleton.
  by eapply mark_approved_taken.
Qed.

Lemma issue_recovery_takes id c op now p :
  wp (takes_uses (IssueRecoverySetup id c op now) p) (issue_recovery_script id c op now) false [] p empty_db.
Proof.
  apply wp_query; [intros ?; apply mark_issued_safe|].
  intros server_now p' n d a Hr Hst [= <-] He Hov. apply wp_guard. intros Hn.
  apply (wp_taken [OfSetup id]); [scripted|]. intros u ->%list_elem_of_singleton.
  eapply mark_issued_taken; [exact Hst|by intros ->|done].
Qed.

Lemma break_glass_takes id c now reason p :
  wp (takes_uses (BreakGlass id c now reason) p) (break_glass_script id c now reason) false [] p empty_db.
Proof.
  apply wp_query; [intros ?; apply revoke_operator_credential_safe|].
  intros server_now p' found d a Hr Hst [= <-] He Hov. apply wp_lift. intros user ->%ok_or_Ok.
  apply (wp_taken [OfCredential id]); [scripted|]. intros u ->%list_elem_of_singleton.
  by eapply revoke_credential_taken.
Qed.

(** *** Registrations, under the advisory lock *)

(** No operator has an active passkey. *)
Definition no_active_operator (d : Db) : Prop :=
  ∀ k c, passkey_credentials d !! k = Some c → active_operator_credential d k c = false.

(** What a registration keeps from its bootstrap guard to its commit. *)
Record registering (id : Uuid) (kind user : string) (us : list use_of) (holds : bool) (p w : Db) : Prop := {
  registering_holds : holds = true;
  registering_wf : db_wf p;
  registering_row : ∃ row, auth_ceremonies p !! id = Some row ∧ AuthCeremony.kind row = kind ∧
    AuthCeremony.user_id row = Some user;
  registering_guard : kind = "operator_bootstrap" → no_active_operator p;
  registering_taken : ∀ u, u ∈ us → taken u p w;
}.

(** Under the lock nobody else registers a passkey, and no account becomes an operator. *)
Lemma no_active_operator_rely l w p p' :
  db_wf p → rely true l w p p' → no_active_operator p → no_active_operator p'.
Proof.
  intros Hw [_ _ _ He _ _ Hc] Hn k c' Hk'. apply not_true_iff_false. intros Ha.
  unfold credential_ids in Hc.
  assert (k ∈ dom (passkey_credentials p)) as [c Hk]%elem_of_dom by (apply Hc; [done|]; apply elem_of_dom; by eexists).
  specialize (Hn _ _ Hk). apply not_true_iff_false in Hn. apply Hn. clear Hn.
  destruct (evolves_credentials _ _ He _ _ Hk) as (c2 & Hk2 & Hu & _ & Hst). rewrite Hk' in Hk2. injection Hk2 as <-.
  destruct (fk_credentials _ Hw _ _ Hk) as [u Hu']. destruct (evolves_users _ _ He _ _ Hu') as (u2 & Hu2 & _ & _ & Hr & _).
  unfold active_operator_credential, row_is_operator in *. rewrite Hu, Hu2, Hr in Ha. rewrite Hu'.
  apply andb_true_iff in Ha as [-> Hnull%is_null_true]. simpl. apply is_null_true.
  destruct (PasskeyCredential.revoked_at c) eqn:Hrev; [|done]. rewrite Hst in Hnull; [|by eexists]. done.
Qed.

Lemma registering_evolves id kind user us w p p' :
  registering id kind user us true p w → db_wf p' → evolves p p' →
  (kind = "operator_bootstrap" → no_active_operator p') → (∀ u, u ∈ us → taken u p' w) →
  registering id kind user us true p' w.
Proof.
  intros [_ _ (row & Hrow & Hk & Hu) _ _] Hw He Hg Ht. constructor; try done.
  destruct (evolves_ceremonies _ _ He _ _ Hrow) as (row' & Hrow' & Hk' & Hu' & _).
  exists row'. split_and!; [done|congruence..].
Qed.

Lemma registering_rely id kind user us h l w p p' :
  rely h l w p p' → registering id kind user us h p w → registering id kind user us h p' w.
Proof.
  intros Hr Hreg. pose proof Hreg as [-> Hw _ Hg Ht]. eapply registering_evolves; [exact Hreg|apply Hr..| |].
  - intros Hb. by eapply no_active_operator_rely, Hg.
  - intros u Hu. by eapply taken_rely, Ht.
Qed.

Lemma registering_written id kind user us h p w d :
  evolves (over p w) d → registering id kind user us h p w → registering id kind user us h p (written p w d).
Proof. intros He [-> Hw Hk Hg Ht]. constructor; try done. intros u Hu. by apply taken_written, Ht. Qed.

(** What a registration promises: its uses; that a bootstrap commits while no operator has an active
    passkey; and that it registers a passkey for the account of its ceremony. *)
Definition adds_passkey (user : string) (w : Db) : Prop :=
  ∃ k c, passkey_credentials w !! k = Some c ∧ PasskeyCredential.user_id c = user ∧
    PasskeyCredential.revoked_at c = None.

Definition registers (c : store_call) (_ p w : Db) : Prop :=
  match c with
  | CompleteRegistration id _ _ _ _ => ∀ row user, auth_ceremonies p !! id = Some row →
      AuthCeremony.user_id row = Some user →
      (AuthCeremony.kind row = "operator_bootstrap" → no_active_operator p) ∧ adds_passkey user w
  | _ => True
  end.

Definition registration_promise (c : store_call) (p0 p w : Db) : Prop := takes_uses c p0 p w ∧ registers c p0 p w.

Definition same_credentials (d d' : Db) : Prop := passkey_credentials d' = passkey_credentials d.

Lemma wp_registered {A} id hash v now audit kind user us (s : Script A) p0 l p w :
  script_ok true s → steps_by same_credentials s → registering id kind user us true p w → adds_passkey user w →
  uses (CompleteRegistration id hash v now audit) = us →
  wp (registration_promise (CompleteRegistration id hash v now audit) p0) s true l p w.
Proof.
  intros Hs HQ Hr Ha Hu.
  apply (wp_keep_by same_credentials (λ h p w, registering id kind user us h p w ∧ adds_passkey user w)); try done.
  - intros h p' w' [[_ _ (row & Hrow & Hk & Hus) Hg Ht] Ha']. split; [unfold takes_uses; by rewrite Hu|].
    intros row' user' Hrow' Hus'. rewrite Hrow in Hrow'. injection Hrow' as <-. rewrite Hus in Hus'.
    injection Hus' as <-. split; [|done]. rewrite Hk. apply Hg.
  - intros h l' w' p1 p2 Hrel [Hreg Ha']. split; [|done]. by eapply registering_rely.
  - intros h p' w' d _ He Hsame [Hreg (k & c & Hk & Hc)]. split; [by apply registering_written|].
    exists k, c. split; [|done]. unfold written. simpl. rewrite Hsame. simpl. by rewrite rows_written_same.
  - by intros p' w' [[] _].
Qed.

(** The script after its guard, and after its capability. *)
Definition registration_end (user_id : string) (v : VerifiedCredential) (now : DateTime) (audit : AuditEvent)
    : Script unit :=
  (let* id := DrawUuid sret in
   do* sends conflict_on_unique (λ _, insert_passkey_credential id
         (PasskeyCredential.mk user_id (VerifiedCredential.credential_id v)
            (VerifiedCredential.public_data v) now None None)) in
   do* sends_store (λ _, complete_recoveries (UserId.as_str <$> AuditEvent.subject_user_id audit) now) in
   do* audit_script audit now in
   scommit)%script.

Definition registration_tail (user_id : string) (hash : option SecretHash) (v : VerifiedCredential) (now : DateTime)
    (audit : AuditEvent) : Script unit :=
  (do* spend_capability_script hash now in registration_end user_id v now audit)%script.

Ltac insertion :=
  intros ? ? ? ?; unfold insert_auth_audit_event, complete_recoveries; try case_match; intros; by simplify_eq.

Lemma audit_same_credentials event now : steps_by same_credentials (audit_script event now).
Proof. apply steps_by_query. insertion. Qed.

Lemma registration_end_promises id kind user hash v now audit us p0 l p w :
  uses (CompleteRegistration id hash v now audit) = us → registering id kind user us true p w →
  wp (registration_promise (CompleteRegistration id hash v now audit) p0) (registration_end user v now audit) true l p w.
Proof.
  intros Hus Hr new_id. apply wp_query; [intros ?; apply insert_passkey_credential_safe|].
  intros server_now p' [] d [] Hrel Hst _ He Hov.
  pose proof (registering_written _ _ _ _ _ _ _ _ He (registering_rely _ _ _ _ _ _ _ _ _ Hrel Hr)) as Hreg.
  eapply wp_registered; [scripted| |exact Hreg| |done].
  - apply steps_by_sbind; [apply steps_by_query; insertion|intros ?].
    apply steps_by_sbind; [apply audit_same_credentials|done].
  - unfold insert_passkey_credential in Hst. destruct (_ || _) eqn:Hfree; [done|]. destruct (negb _); [done|].
    injection Hst as <-. apply orb_false_iff in Hfree as [Hfree%key_free _]. simpl in Hfree.
    exists new_id. eexists. split.
    { apply map_lookup_filter_Some_2; [apply lookup_insert_eq|].
      right. simpl. apply lookup_union_None in Hfree as [_ ->]. done. }
    by split.
Qed.

Lemma registration_tail_promises id user hash v now audit kind p0 l p w :
  auth_capabilities w = ∅ → registering id kind user [OfCeremony id] true p w →
  wp (registration_promise (CompleteRegistration id hash v now audit) p0)
    (registration_tail user hash v now audit) true l p w.
Proof.
  intros Hw Hr. unfold registration_tail, spend_capability_script. destruct hash as [h|].
  - apply wp_assoc, wp_query; [intros ?; apply consume_capabilities_safe|].
    intros server_now p' n d a Hrel Hst [= <-] He Hov. apply wp_guard. intros Hn.
    eapply registration_end_promises; [done|].
    pose proof (registering_written _ _ _ _ _ _ _ _ He (registering_rely _ _ _ _ _ _ _ _ _ Hrel Hr)) as [_ ? ? ? Ht].
    constructor; try done. intros u [-> | ->%list_elem_of_singleton]%elem_of_cons; [by apply Ht, list_elem_of_here|].
    eapply consume_capabilities_taken; [exact Hst| |by intros ->|done].
    by intros k c [?%bool_decide_eq_true _]%andb_true_iff.
  - by eapply registration_end_promises.
Qed.

(** The statement that spends the ceremony. *)
Lemma spend_registering id now p w rows d user_id kind :
  db_wf p → w = empty_db →
  consume_ceremonies (λ k c, (k =? id) && (now <? AuthCeremony.expires_at c)) now (over p w) = Ok (rows, d) →
  match head rows with
  | None => Ok None
  | Some (_, c) =>
      match AuthCeremony.user_id c with
      | Some user_id => Ok (Some (user_id, AuthCeremony.kind c))
      | None => Err Driver
      end
  end = Ok (Some (user_id, kind)) →
  (∃ row, auth_ceremonies p !! id = Some row ∧ AuthCeremony.kind row = kind ∧
     AuthCeremony.user_id row = Some user_id) ∧
  taken (OfCeremony id) p (written p w d) ∧
  human_users (written p w d) = ∅ ∧ passkey_credentials (written p w d) = ∅ ∧
  auth_capabilities (written p w d) = ∅.
Proof.
  intros Hp -> Hst Hd. split_and!.
  - injection Hst as <- _. destruct (head _) as [[k c]|] eqn:Hh; [|done].
    apply head_rows_where in Hh as [Hk [[->%Z.eqb_eq _]%andb_true_iff _]%andb_true_iff].
    simpl in Hk. rewrite (left_id_L ∅ (∪)) in Hk. exists c.
    destruct (AuthCeremony.user_id c); [|done]. by injection Hd as <- <-.
  - eapply consume_ceremonies_taken; [exact Hst| | |done].
    + by intros k c [->%Z.eqb_eq _]%andb_true_iff.
    + by intros ->.
  - injection Hst as _ <-. simpl. rewrite (left_id_L ∅ (∪)). apply rows_written_none.
  - injection Hst as _ <-. simpl. rewrite (left_id_L ∅ (∪)). apply rows_written_none.
  - injection Hst as _ <-. simpl. rewrite (left_id_L ∅ (∪)). apply rows_written_none.
Qed.

Lemma no_active_view p w :
  human_users w = ∅ → passkey_credentials w = ∅ →
  length (rows_where (active_operator_credential (over p w)) (passkey_credentials (over p w))) = 0%nat →
  no_active_operator p.
Proof.
  intros Hu Hc Hl%nil_length_inv. simpl in Hl. rewrite Hc, (left_id_L ∅ (∪)) in Hl.
  intros k c Hk. pose proof (proj1 (rows_where_nil _ _) Hl k c Hk) as Ha.
  unfold active_operator_credential in *. simpl in Ha. by rewrite Hu, (left_id_L ∅ (∪)) in Ha.
Qed.

Lemma complete_registration_promises id hash v now audit p :
  wp (registration_promise (CompleteRegistration id hash v now audit) p)
    (complete_registration_script id hash v now audit) false [] p empty_db.
Proof.
  apply wp_lock. intros p1 Hr1. apply wp_query; [intros ?; apply consume_ceremonies_safe|].
  intros server_now p2 rows d found Hr2 Hst Hd He Hov. apply wp_lift. intros [user kind] ->%ok_or_Ok.
  destruct (spend_registering _ _ _ _ _ _ _ _ (rely_wf _ _ _ _ _ Hr2) eq_refl Hst Hd)
    as (Hrow & Htaken & Hwu & Hwc & Hwp).
  fold (registration_end user v now audit). fold (registration_tail user hash v now audit).
  assert (∀ p', db_wf p' → evolves p2 p' → taken (OfCeremony id) p' (written p2 empty_db d) →
    (kind = "operator_bootstrap" → no_active_operator p') →
    registering id kind user [OfCeremony id] true p' (written p2 empty_db d)) as Hreg.
  { intros p' Hw He' Ht Hg. destruct Hrow as (row & Hrow & Hk & Hu). constructor; try done.
    - destruct (evolves_ceremonies _ _ He' _ _ Hrow) as (row' & ? & ? & ? & _).
      exists row'. split_and!; [done|congruence..].
    - by intros u ->%list_elem_of_singleton. }
  unfold bootstrap_guard_script. destruct (String.eqb kind "operator_bootstrap") eqn:Hkind.
  - apply wp_assoc, wp_query; [intros ?; apply select_safe|].
    intros ? p3 n d' a Hr3 [= <- <-] [= <-] _ _. rewrite written_over. apply wp_guard. intros Hn.
    apply (registration_tail_promises _ _ _ _ _ _ kind); [done|].
    apply Hreg; [apply Hr3|apply Hr3|by eapply taken_rely|]. intros _.
    apply negb_false_iff, Nat.eqb_eq in Hn. by eapply no_active_view.
  - apply (registration_tail_promises _ _ _ _ _ _ kind); [done|].
    apply Hreg; [apply Hr2|done|done|]. intros ->. by rewrite String.eqb_refl in Hkind.
Qed.

(** *** Every call *)

Lemma wp_no_uses {A} c p0 (s : Script A) holds l p w : uses c = [] → wp (takes_uses c p0) s holds l p w.
Proof. intros Hu. apply wp_trivial. intros p' w' u. rewrite Hu. by intros ?%not_elem_of_nil. Qed.

Section runs.
Context (int4_as_i64 : bool).

Lemma all_take_uses : promised int4_as_i64 takes_uses.
Proof.
  intros c s p Hp Hv _. destruct c; try done; injection Hp as <-; try by apply wp_no_uses.
  - eapply wp_mono; [|apply complete_registration_promises]. by intros p' w' [].
  - apply complete_authentication_takes.
  - apply approve_recovery_takes.
  - apply issue_recovery_takes.
  - apply break_glass_takes.
Qed.

Lemma all_register : promised int4_as_i64 registers.
Proof.
  intros c s p Hp Hv _. destruct c; try done; injection Hp as <-; try by apply wp_trivial.
  eapply wp_mono; [|apply complete_registration_promises]. by intros p' w' [].
Qed.

(** *** The ledger of what has taken effect *)

Definition used (σ : Server) : list use_of := committed σ ≫= uses.

Definition ledger (σ : Server) : Prop := NoDup (used σ) ∧ ∀ u, u ∈ used σ → spent (published σ) u.

Lemma ledger_grows σ c d cs :
  ledger σ → evolves (published σ) d →
  NoDup (uses c) → (∀ u, u ∈ uses c → ¬ spent (published σ) u ∧ spent d u) →
  ledger (mkServer d cs (committed σ ++ [c])).
Proof.
  intros [Hn Hs] He Hnc Hc. unfold ledger, used. simpl. rewrite bind_app. simpl. rewrite app_nil_r. split.
  - apply NoDup_app. split_and!; [done| |done]. intros u Hu Hin. destruct (Hc u Hin) as [Hns _]. by apply Hns, Hs.
  - intros u [Hu|Hu]%elem_of_app; [by eapply spent_evolves, Hs|by apply Hc].
Qed.

Lemma uses_nodup c : NoDup (uses c).
Proof.
  destruct c; simpl; try apply NoDup_nil_2; try apply NoDup_singleton.
  destruct hash; [|apply NoDup_singleton]. apply NoDup_cons. split; [|apply NoDup_singleton].
  by intros ?%list_elem_of_singleton.
Qed.

Lemma single_uses c p : plan_of int4_as_i64 c = Some p → (∀ s, p ≠ InTransaction s) → uses c = [].
Proof. intros Hp Hn. by destruct c; try done; injection Hp as <-; destruct (Hn _ eq_refl). Qed.

Lemma moves_ledger σ m σ' :
  server_ok σ → courses takes_uses σ → ledger σ → moves int4_as_i64 σ m = Some σ' → ledger σ'.
Proof.
  intros Hok Hco Hl Hm. pose proof (moves_evolve _ _ _ _ Hok Hm) as He.
  destruct m as [i c|i now|i|i id|i|i|i|c id now].
  6: { apply (commit_promise _ takes_uses) in Hm as (c & Hi & Hpr & Hc & ->); [|done..].
       apply ledger_grows; [done|done|apply uses_nodup|]. intros u Hu. pose proof (Hpr u Hu) as Ht.
       split; [eapply taken_unspent, Ht; apply Hok|apply taken_spent; [apply Hc|done]]. }
  7: { simpl in Hm. apply bind_Some_inv in Hm as (p & Hp & Hm). apply bind_Some_inv in Hm as (d & Hd & Hm).
       destruct (_ && _); [|done]. injection Hm as <-. simpl in He.
       assert (uses c = []) as Hu by (eapply single_uses; [done|]; by intros s ->).
       apply ledger_grows; [done|done|by rewrite Hu; apply NoDup_nil_2|]. rewrite Hu. by intros u ?%not_elem_of_nil. }
  all: simpl in Hm;
    repeat match type of Hm with
           | _ ≫= _ = Some _ => apply bind_Some_inv in Hm as (? & ? & Hm)
           | (let '(_, _) := ?x in _) = _ => destruct x
           | (if ?b then _ else _) = Some _ => destruct b
           | match ?x with _ => _ end = Some _ => destruct x
           end; try done; by injection Hm as <-.
Qed.

(** C3: nothing is used twice, however many transactions run at once.  In every run from a database that
    satisfies the schema, the calls that take effect use up pairwise different ceremonies,
    capabilities, approvals and setups of recoveries, and credentials under break-glass, and what
    each has used is marked in what is published. *)
Theorem concurrent_one_use d ms σ :
  db_wf d → run int4_as_i64 (idle d) ms = Some σ →
  NoDup (used σ) ∧ ∀ u, u ∈ used σ → spent (published σ) u.
Proof.
  intros Hd. assert (ledger (idle d)) as Hl by (split; [apply NoDup_nil_2|by intros u ?%not_elem_of_nil]).
  pose proof (idle_ok d Hd) as Hok. pose proof (idle_courses takes_uses d) as Hco.
  revert Hl Hok Hco. generalize (idle d). revert σ.
  induction ms as [|m ms IH]; intros σ σ0 Hl Hok Hco; simpl; [by intros [= <-]|].
  intros (σ1 & Hm & Hr)%bind_Some_inv. eapply IH; [| | |done].
  - by eapply moves_ledger.
  - by eapply moves_ok.
  - by eapply (moves_courses _ _ _ _ _ all_take_uses).
Qed.

End runs.
