(* ===== verification/ConcurrentBootstrap.v ===== *)
(** * ConcurrentBootstrap: what the advisory lock protects

    The registration of an operator's first passkey checks that no operator has an active one, and
    inserts it: two statements, which only the advisory lock of [complete_registration] keeps
    together.  In every run of concurrent transactions two bootstraps exclude each other. *)
From S2P Require Export ConcurrentSafety.

(** ** Passkeys are revoked only by breaking the glass *)

Definition breaks_glass (c : store_call) : bool := match c with BreakGlass _ _ _ _ => true | _ => false end.

(** No passkey is revoked, or restored. *)
Definition same_revocations (d d' : Db) : Prop := ∀ k c, passkey_credentials d !! k = Some c →
  ∃ c', passkey_credentials d' !! k = Some c' ∧ PasskeyCredential.revoked_at c' = PasskeyCredential.revoked_at c.

#[export] Instance same_revocations_preorder : PreOrder same_revocations.
Proof.
  split; [intros d k c Hk; by exists c|]. intros d1 d2 d3 H1 H2 k c Hk.
  destruct (H1 k c Hk) as (c2 & Hk2 & Hr2), (H2 _ _ Hk2) as (c3 & Hk3 & Hr3). exists c3. split; [done|congruence].
Qed.

Lemma same_credentials_revocations d d' : passkey_credentials d' = passkey_credentials d → same_revocations d d'.
Proof. intros He k c Hk. exists c. by rewrite He. Qed.

Lemma use_credential_revocations user id data at_ d n d' :
  use_credential user id data at_ d = Ok (n, d') → same_revocations d d'.
Proof.
  intros [= _ <-] k c Hk. simpl. rewrite lookup_update_where, Hk. simpl. eexists. split; [done|]. by destruct (_ && _).
Qed.

Lemma insert_credential_revocations id r d a d' :
  insert_passkey_credential id r d = Ok (a, d') → same_revocations d d'.
Proof.
  unfold insert_passkey_credential. destruct (_ || _) eqn:Hf; [done|]. destruct (negb _); [done|].
  apply orb_false_iff in Hf as [Hf%key_free _]. intros [= _ <-] k c Hk. exists c. simpl.
  by rewrite lookup_insert_ne by congruence.
Qed.

(** A statement that leaves the table of passkeys alone. *)
Ltac other_table :=
  let d := fresh "d" in let a := fresh "a" in let d' := fresh "d'" in let Hi := fresh "Hi" in
  intros d a d' Hi;
  unfold insert_user_sql, insert_capability_sql, insert_human_user, insert_auth_capability, insert_auth_ceremony,
    insert_auth_session, insert_recovery_request, insert_auth_audit_event, touch_session, update_epochs,
    mark_approved, revoke_sessions, consume_ceremonies, consume_capabilities, complete_recoveries, mark_issued,
    select_session, select in Hi;
  repeat match type of Hi with
         | (if ?b then _ else _) = _ => destruct b
         | match ?x with _ => _ end = _ => destruct x
         end; simplify_eq; by apply same_credentials_revocations.

#[local] Hint Resolve use_credential_revocations insert_credential_revocations : scripts_ok.
#[local] Hint Extern 2 (∀ d a d', _ = Ok (a, d') → same_revocations d d') => other_table : scripts_ok.

Lemma plan_revocations int4_as_i64 c s :
  plan_of int4_as_i64 c = Some (InTransaction s) → breaks_glass c = false → steps_by same_revocations s.
Proof.
  intros Hp Hb. destruct c; try done; injection Hp as <-;
    unfold forgetting, insert_user_script, approve_user_script, rotate_all_script, complete_registration_script,
      complete_authentication_script, session_script, rotate_session_csrf_script, approve_recovery_script,
      issue_recovery_script, select_session_locking, audit_script, invalidate_script,
      spend_ceremony_script, bootstrap_guard_script, spend_capability_script; stepped.
Qed.

Definition keeps_revocations (c : store_call) (_ p w : Db) : Prop :=
  breaks_glass c = false → ∀ k c1 c2,
  passkey_credentials p !! k = Some c1 → passkey_credentials w !! k = Some c2 →
  PasskeyCredential.revoked_at c2 = PasskeyCredential.revoked_at c1.

Section runs.
Context (int4_as_i64 : bool).

Lemma all_keep_revocations : promised int4_as_i64 keeps_revocations.
Proof.
  intros c s p Hp Hv _. destruct (breaks_glass c) eqn:Hb.
  { apply wp_trivial. intros p' w' Hb'. congruence. }
  apply (wp_keep_by same_revocations (λ _, keeps_revocations c p)); try done.
  - intros h l w p1 p2 Hr HJ _ k c1 c2 H1 H2. apply (HJ Hb k); [|done].
    rewrite <- H1. symmetry. apply (untouched_credentials _ _ _ (rely_untouched _ _ _ _ _ Hr)). by eexists.
  - intros h p1 w d _ _ HQ HJ _ k c1 c2 H1 [H2 _]%map_lookup_filter_Some.
    destruct (passkey_credentials w !! k) as [cw|] eqn:Hw.
    + rewrite <- (HJ Hb k c1 cw H1 Hw). destruct (HQ k cw) as (c' & Hc' & <-); [by apply lookup_union_Some_l|].
      simpl in Hc'. congruence.
    + destruct (HQ k c1) as (c' & Hc' & <-); [simpl; by rewrite lookup_union_r|]. congruence.
  - by eapply plan_script_ok.
  - by eapply plan_revocations.
Qed.

Lemma single_revocations c p id now d d' :
  plan_of int4_as_i64 c = Some p → effect_of p id now d = Some d' → same_revocations d d'.
Proof.
  intros Hp Hd.
  enough (∀ A (s : statement A), (∀ d a d', s d = Ok (a, d') → same_revocations d d') →
    match s d with Ok (_, d') => Some d' | Err _ => None end = Some d' → same_revocations d d') as Hs.
  { destruct c; try done; injection Hp as <-; cbn [effect_of] in Hd; try done;
      match type of Hd with match ?s d with _ => _ end = _ =>
        apply (Hs _ s); [clear Hs; other_table|exact Hd] end. }
  intros A s Hs. destruct (s d) as [[a d1]|e] eqn:Hr; [|done]. intros [= <-]. by eapply Hs.
Qed.

(** Along a run, either someone breaks the glass or no passkey is revoked. *)
Lemma moves_revocations σ m σ' :
  server_ok σ → courses keeps_revocations σ → moves int4_as_i64 σ m = Some σ' →
  ∃ l, committed σ' = committed σ ++ l ∧
    ((∃ c, c ∈ l ∧ breaks_glass c = true) ∨ same_revocations (published σ) (published σ')).
Proof.
  intros Hok Hco Hm. destruct m as [i c|i now|i|i id|i|i|i|c id now].
  6: { apply (commit_promise _ keeps_revocations) in Hm as (c & Hi & Hpr & Hc & ->); [|done..].
       exists [call_of c]. split; [done|]. destruct (breaks_glass (call_of c)) eqn:Hb.
       - left. exists (call_of c). split; [apply list_elem_of_here|done].
       - right. intros k c1 Hk. destruct (evolves_credentials _ _ (client_evolves _ _ Hc) _ _ Hk) as (c2 & Hk2 & _).
         exists c2. split; [done|]. simpl in Hk2.
         apply lookup_union_Some_raw in Hk2 as [Hw|[_ Hp]]; [by eapply Hpr|congruence]. }
  7: { simpl in Hm. apply bind_Some_inv in Hm as (p & Hp & Hm). apply bind_Some_inv in Hm as (d & Hd & Hm).
       destruct (_ && _); [|done]. injection Hm as <-. exists [c]. split; [done|]. right. by eapply single_revocations. }
  all: exists []; rewrite app_nil_r; simpl in Hm;
    repeat match type of Hm with
           | _ ≫= _ = Some _ => apply bind_Some_inv in Hm as (? & ? & Hm)
           | (let '(_, _) := ?x in _) = _ => destruct x
           | (if ?b then _ else _) = Some _ => destruct b
           | match ?x with _ => _ end = Some _ => destruct x
           end; try done; injection Hm as <-; (split; [done|right; simpl; reflexivity]).
Qed.

Lemma run_revocations σ ms σ' :
  server_ok σ → courses keeps_revocations σ → run int4_as_i64 σ ms = Some σ' →
  ∃ l, committed σ' = committed σ ++ l ∧
    ((∃ c, c ∈ l ∧ breaks_glass c = true) ∨ same_revocations (published σ) (published σ')).
Proof.
  revert σ. induction ms as [|m ms IH]; intros σ Hok Hco; simpl.
  { intros [= <-]. exists []. rewrite app_nil_r. split; [done|by right]. }
  intros (σ1 & Hm & Hr)%bind_Some_inv.
  destruct (moves_revocations _ _ _ Hok Hco Hm) as (l1 & Hl1 & H1).
  destruct (IH σ1) as (l2 & Hl2 & H2);
    [by eapply moves_ok|by eapply (moves_courses _ _ _ _ _ all_keep_revocations)|done|].
  exists (l1 ++ l2). split; [by rewrite Hl2, Hl1, app_assoc|].
  destruct H1 as [(c & Hc & Hb)|H1]; [left; exists c; split; [apply elem_of_app; by left|done]|].
  destruct H2 as [(c & Hc & Hb)|H2]; [left; exists c; split; [apply elem_of_app; by right|done]|].
  right. by etransitivity.
Qed.

(** An operator's active passkey stays one. *)
Lemma active_persists d d' : evolves d d' → same_revocations d d' → no_active_operator d' → no_active_operator d.
Proof.
  intros He Hr Hn k c Hk. apply not_true_iff_false. intros Ha. destruct (Hr k c Hk) as (c' & Hk' & Hrev).
  pose proof (Hn k c' Hk') as Hf. apply not_true_iff_false in Hf. apply Hf. clear Hf.
  destruct (evolves_credentials _ _ He _ _ Hk) as (c2 & Hk2 & Hu & _). rewrite Hk' in Hk2. injection Hk2 as <-.
  unfold active_operator_credential, row_is_operator in *. rewrite Hu, Hrev.
  destruct (human_users d !! PasskeyCredential.user_id c) as [u|] eqn:Hus; [|done].
  destruct (evolves_users _ _ He _ _ Hus) as (u' & -> & _ & _ & Hrole & _). by rewrite Hrole.
Qed.

(** ** Bootstraps exclude each other *)

(** An open transaction completes the registration of an operator's bootstrap. *)
Definition bootstrapping (σ : Server) (i : nat) : Prop :=
  ∃ c id hash v now audit row user u, clients σ !! i = Some c ∧
    call_of c = CompleteRegistration id hash v now audit ∧
    auth_ceremonies (published σ) !! id = Some row ∧ AuthCeremony.kind row = "operator_bootstrap" ∧
    AuthCeremony.user_id row = Some user ∧ human_users (published σ) !! user = Some u ∧ row_is_operator u = true.

Lemma bootstrap_commits σ i σ' :
  server_ok σ → courses registers σ → moves int4_as_i64 σ (Committing i) = Some σ' → bootstrapping σ i →
  no_active_operator (published σ) ∧ ¬ no_active_operator (published σ').
Proof.
  intros Hok Hco Hm (c & id & hash & v & now & audit & row & user & u & Hi & Hcall & Hrow & Hk & Hus & Hu & Hop).
  apply (commit_promise _ registers) in Hm as (c' & Hi' & Hpr & Hc & ->); [|done..].
  rewrite Hi in Hi'. injection Hi' as <-. rewrite Hcall in Hpr.
  destruct (Hpr row user Hrow Hus) as [Hg (k & cr & Hcr & Hcu & Hrev)]. split; [by apply Hg|].
  intros Hn. specialize (Hn k cr ltac:(simpl; by apply lookup_union_Some_l)).
  unfold active_operator_credential in Hn. rewrite Hcu in Hn.
  destruct (evolves_users _ _ (client_evolves _ _ Hc) _ _ Hu) as (u' & Hu' & _ & _ & Hrole & _).
  simpl in Hn, Hu'. rewrite Hu' in Hn. unfold row_is_operator in *. rewrite Hrole, Hop, Hrev in Hn. done.
Qed.

(** C4: the advisory lock makes bootstraps exclude each other.  However many transactions run at once:
    when the registration of an operator's bootstrap commits, no operator has an active passkey,
    not only when it checked; afterwards one has; and if the registration of another bootstrap
    commits later in the run, someone has broken the glass in between. *)
Theorem bootstraps_exclude d ms σ i σ1 ms' σ2 j σ3 :
  db_wf d → run int4_as_i64 (idle d) ms = Some σ →
  moves int4_as_i64 σ (Committing i) = Some σ1 → bootstrapping σ i →
  run int4_as_i64 σ1 ms' = Some σ2 →
  moves int4_as_i64 σ2 (Committing j) = Some σ3 → bootstrapping σ2 j →
  no_active_operator (published σ) ∧ ¬ no_active_operator (published σ1) ∧
  ∃ l c, committed σ2 = committed σ1 ++ l ∧ c ∈ l ∧ breaks_glass c = true.
Proof.
  intros Hd H1 Hi Hbi H2 Hj Hbj.
  destruct (run_courses _ _ _ _ _ (all_register _) (idle_ok d Hd) (idle_courses _ d) H1) as [Hok Hco].
  destruct (run_courses _ _ _ _ _ all_keep_revocations (idle_ok d Hd) (idle_courses _ d) H1) as [_ Hcr].
  pose proof (moves_ok _ _ _ _ Hok Hi) as Hok1.
  pose proof (moves_courses _ _ _ _ _ (all_register _) Hok Hco Hi) as Hco1.
  pose proof (moves_courses _ _ _ _ _ all_keep_revocations Hok Hcr Hi) as Hcr1.
  destruct (run_courses _ _ _ _ _ (all_register _) Hok1 Hco1 H2) as [Hok2 Hco2].
  destruct (bootstrap_commits _ _ _ Hok Hco Hi Hbi) as [Hn1 Ha1].
  destruct (bootstrap_commits _ _ _ Hok2 Hco2 Hj Hbj) as [Hn2 _]. split_and!; [done..|].
  destruct (run_revocations _ _ _ Hok1 Hcr1 H2) as (l & Hl & [(c & Hc & Hb)|Hsame]).
  - by exists l, c.
  - destruct Ha1. destruct (run_evolves _ _ _ _ Hok1 H2) as [_ He]. by eapply active_persists.
Qed.

End runs.
