(* ===== verification/ConcurrentSessions.v ===== *)
(** * ConcurrentSessions: invalidations and session checks among concurrent transactions

    An invalidation of an account raises its epoch in one statement of many, and logins run between
    them; a session check reads the session and refreshes it in two statements.  The epoch
    and the row lock of the check do what they are for, in every run of concurrent transactions. *)
From S2P Require Export ConcurrentSafety.

(** ** Invalidations of accounts *)

(** The epoch of the account is higher among the writes than in what is published. *)
Definition raised (user : string) (p w : Db) : Prop :=
  ∃ u u', human_users p !! user = Some u ∧ human_users w !! user = Some u' ∧
    HumanUser.auth_epoch u < HumanUser.auth_epoch u'.

Definition raises_epochs (c : store_call) (p0 p w : Db) : Prop :=
  ∀ user, cuts c p0 user → is_Some (human_users p0 !! user) → raised user p w.

Lemma raised_rely user h l w p p' : rely h l w p p' → raised user p w → raised user p' w.
Proof.
  intros Hr (u & u' & Hu & Hw & Hlt). exists u, u'. split_and!; try done.
  rewrite <- Hu. apply (untouched_users _ _ _ (rely_untouched _ _ _ _ _ Hr)). by eexists.
Qed.

Lemma raised_written user p w d : evolves (over p w) d → raised user p w → raised user p (written p w d).
Proof.
  intros He (u & u' & Hu & Hw & Hlt).
  destruct (evolves_users _ _ He user u') as (u2 & Hu2 & _ & _ & _ & _ & Hle); [by apply lookup_union_Some_l|].
  exists u, u2. split_and!; [done| |lia]. apply map_lookup_filter_Some_2; [done|]. left. simpl. by rewrite Hw.
Qed.

(** The statement that raises them. *)
Lemma update_epochs_raises P now server_now p w rows d user u :
  update_epochs P now server_now (over p w) = Ok (rows, d) → human_users w = ∅ →
  human_users p !! user = Some u → P user u = true → raised user p (written p w d).
Proof.
  unfold update_epochs. destruct (existsb _ _); [done|]. intros [= _ <-] Hw Hu HP.
  exists u, (bump_epoch now u). split_and!; [done| |simpl; lia]. simpl. rewrite Hw, (left_id_L ∅ (∪)).
  apply map_lookup_filter_Some_2; [by rewrite lookup_update_where, Hu; simpl; rewrite HP|].
  right. simpl. rewrite Hu. intros [= He]. apply (f_equal HumanUser.auth_epoch) in He. simpl in He. lia.
Qed.

Lemma wp_raised {A} (users : string → Prop) (s : Script A) holds l p w :
  script_ok holds s → (∀ user, users user → raised user p w) →
  wp (λ p w, ∀ user, users user → raised user p w) s holds l p w.
Proof.
  intros Hs Ht. apply (wp_keep (λ _ p w, ∀ user, users user → raised user p w)); try done.
  - intros h l' w' p1 p2 Hr Hu user Hin. by eapply raised_rely, Hu.
  - intros h p' w' d _ He Hu user Hin. by apply raised_written, Hu.
Qed.

(** The block that three operations share, when the transaction has written no account. *)
Lemma invalidate_raises {A} (C : Db → Db → Prop) user now (f : unit → Script A) holds l p w :
  script_ok holds (f tt) → human_users w = ∅ → is_Some (human_users p !! user) →
  (∀ p w, raised user p w → C p w) → wp C (sbind (invalidate_script user now) f) holds l p w.
Proof.
  intros Hf Hw [u Hu] HC. unfold invalidate_script. apply wp_assoc, wp_query; [intros ?; apply update_epochs_safe|].
  intros server_now p' rows d a Hr Hst [= <-] He Hov.
  apply (wp_mono (λ p w, ∀ user', user' = user → raised user' p w)); [by intros; apply HC; auto|].
  apply wp_raised.
  - apply script_ok_sbind; [scripted|]. by intros [].
  - intros ? ->. destruct (evolves_users _ _ (rely_evolves _ _ _ _ _ Hr) _ _ Hu) as (u' & Hu' & _).
    eapply update_epochs_raises; [exact Hst|done|exact Hu'|by apply bool_decide_eq_true].
Qed.

Lemma rotate_all_raises int4_as_i64 now reason p :
  wp (raises_epochs (RotateAllAuthEpochs now reason) p)
    (forgetting (rotate_all_script int4_as_i64 now reason)) false [] p empty_db.
Proof.
  unfold forgetting, rotate_all_script. apply wp_assoc, wp_query; [intros ?; apply update_epochs_safe|].
  intros server_now p' rows d a Hr Hst Ha He Hov.
  apply (wp_mono (λ p' w, ∀ user, is_Some (human_users p !! user) → raised user p' w));
    [by intros ? ? Hall user _; apply Hall|].
  apply wp_raised; [scripted|]. intros user [u Hu].
  destruct (evolves_users _ _ (rely_evolves _ _ _ _ _ Hr) _ _ Hu) as (u' & Hu' & _).
  by eapply update_epochs_raises.
Qed.

Lemma approve_recovery_raises id op now p :
  wp (raises_epochs (ApproveRecovery id op now) p) (approve_recovery_script id op now) false [] p empty_db.
Proof.
  apply wp_query; [intros ?; apply mark_approved_safe|].
  intros server_now p' found d a Hr Hst [= <-] He Hov. apply wp_lift. intros user ->%ok_or_Ok.
  unfold mark_approved in Hst. destruct (head _) as [[k r]|] eqn:Hh; [|done].
  apply head_rows_where in Hh as [Hk [[->%Z.eqb_eq _]%andb_true_iff _]%andb_true_iff].
  simpl in Hk. rewrite (left_id_L ∅ (∪)) in Hk. destruct (user_exists _ _); [|done]. injection Hst as <- <-.
  apply invalidate_raises; [scripted| | |].
  - simpl. rewrite (left_id_L ∅ (∪)). apply rows_written_none.
  - by destruct (fk_recoveries _ (rely_wf _ _ _ _ _ Hr) _ _ Hk).
  - intros p2 w2 Hra user (r0 & Hr0 & <-) _.
    destruct (evolves_recoveries _ _ (rely_evolves _ _ _ _ _ Hr) _ _ Hr0) as (r' & Hr' & Hus & _).
    pose proof (eq_trans (eq_sym Hk) Hr') as Heq. injection Heq as <-. by rewrite <- Hus.
Qed.

Lemma break_glass_raises id c now reason p :
  wp (raises_epochs (BreakGlass id c now reason) p) (break_glass_script id c now reason) false [] p empty_db.
Proof.
  apply wp_query; [intros ?; apply revoke_operator_credential_safe|].
  intros server_now p' found d a Hr Hst [= <-] He Hov. apply wp_lift. intros user ->%ok_or_Ok.
  apply wp_guard. intros Hown%negb_false_iff%String.eqb_eq.
  injection Hst as Hh <-. apply fmap_Some in Hh as ([k cr] & Hh & ->).
  apply head_rows_where in Hh as [Hk _]. simpl in Hk, Hown. rewrite (left_id_L ∅ (∪)) in Hk.
  apply invalidate_raises; [scripted| | |].
  - simpl. rewrite (left_id_L ∅ (∪)). apply rows_written_none.
  - by apply (fk_credentials _ (rely_wf _ _ _ _ _ Hr) _ _ Hk).
  - intros p2 w2 Hra user <- _. simpl. by rewrite Hown.
Qed.

Lemma all_raise_epochs int4_as_i64 : promised int4_as_i64 raises_epochs.
Proof.
  intros c s p Hp Hv _. destruct c; try done; injection Hp as <-; try (by apply wp_trivial; intros ? ? ? []).
  - apply rotate_all_raises.
  - apply approve_recovery_raises.
  - apply break_glass_raises.
Qed.

(** C9: an invalidation takes effect however it is interleaved.  When the approval of a recovery, a
    break-glass, or the rotation of all epochs commits, the epoch of each account it cuts off
    (that existed when it began) rises; and in every later state of every run no session of the
    account that carries an epoch read before the commit is live, whether its login
    committed before, or while the invalidation ran, or commits only afterwards. *)
Theorem concurrent_invalidation int4_as_i64 d ms σ i c user σ' :
  db_wf d → run int4_as_i64 (idle d) ms = Some σ → clients σ !! i = Some c →
  cuts (call_of c) (began c) user → is_Some (human_users (began c) !! user) →
  moves int4_as_i64 σ (Committing i) = Some σ' →
  ∃ u u', human_users (published σ) !! user = Some u ∧ human_users (published σ') !! user = Some u' ∧
    HumanUser.auth_epoch u < HumanUser.auth_epoch u' ∧
    ∀ ms' σ'' k s hash now, run int4_as_i64 σ' ms' = Some σ'' →
      auth_sessions (published σ'') !! k = Some s → AuthSession.user_id s = user →
      AuthSession.auth_epoch s ≤ HumanUser.auth_epoch u → live_session (published σ'') hash now k s = false.
Proof.
  intros Hd H1 Hi Hcut Hex Hm.
  destruct (run_courses _ _ _ _ _ (all_raise_epochs _) (idle_ok d Hd) (idle_courses _ d) H1) as [Hok Hco].
  pose proof (moves_ok _ _ _ _ Hok Hm) as Hok'.
  apply (commit_promise _ raises_epochs) in Hm as (c' & Hi' & Hpr & Hc & ->); [|done..].
  rewrite Hi in Hi'. injection Hi' as <-. destruct (Hpr user Hcut Hex) as (u & u' & Hu & Hw & Hlt).
  assert (human_users (over (published σ) (writes c)) !! user = Some u') as Hu' by by apply lookup_union_Some_l.
  exists u, u'. split_and!; try done. intros ms' σ'' k s hash now Hr Hk Hs Hle.
  destruct (run_evolves _ _ _ _ Hok' Hr) as [_ He].
  destruct (evolves_users _ _ He _ _ Hu') as (u2 & Hu2 & _ & _ & _ & _ & Hle2).
  unfold live_session. rewrite Hs, Hu2. apply andb_false_iff. right. apply andb_false_iff. right.
  apply Z.eqb_neq. lia.
Qed.

(** ** Session checks *)

(** The call checks the session with this token at this instant. *)
Definition checks (c : store_call) : option (SecretHash * DateTime) :=
  match c with
  | GetSession hash now _ | RotateSessionCsrf hash _ now _ => Some (hash, now)
  | _ => None
  end.

(** A session that would be accepted, but for the epoch of its account. *)
Definition acceptable (d : Db) (hash : SecretHash) (now : DateTime) (s : AuthSession.t) : Prop :=
  AuthSession.token_hash s = SecretHash.as_bytes hash ∧ AuthSession.revoked_at s = None ∧
  now < AuthSession.idle_expires_at s ∧ now < AuthSession.absolute_expires_at s ∧
  ∃ u, human_users d !! AuthSession.user_id s = Some u ∧ HumanUser.enabled u = true.

(** What the check refreshes is acceptable when it commits. *)
Definition refreshes_acceptable (c : store_call) (_ p w : Db) : Prop :=
  match checks c with
  | Some (hash, now) => ∀ k s', auth_sessions w !! k = Some s' →
      ∃ s, auth_sessions p !! k = Some s ∧ acceptable p hash now s
  | None => True
  end.

Lemma live_acceptable d hash now k s : live_session d hash now k s = true → acceptable d hash now s.
Proof.
  intros Hl. unfold live_session in Hl. destruct (human_users d !! _) as [u|] eqn:Hu; [|by rewrite andb_false_r in Hl].
  bool_prop. split_and!; try done; [by apply is_null_true|]. by exists u.
Qed.

Lemma acceptable_evolves d d' hash now s : evolves d d' → acceptable d hash now s → acceptable d' hash now s.
Proof.
  intros He (Ht & Hr & Hi & Ha & u & Hu & Hen). split_and!; try done.
  destruct (evolves_users _ _ He _ _ Hu) as (u' & Hu' & _ & _ & _ & Hen' & _). exists u'. split; [done|congruence].
Qed.

(** After the lock is taken: the session is as it was when it was read, until the commit. *)
Lemma refresh_acceptable {A} hash now csrf idle id p w l (s : Script A) :
  auth_sessions w = ∅ → id ∈ l → script_ok false s →
  (∃ row, auth_sessions p !! id = Some row ∧ acceptable p hash now row) →
  steps_by (λ d d', auth_sessions d' = auth_sessions d) s →
  wp (λ p w, ∀ k s', auth_sessions w !! k = Some s' → ∃ s, auth_sessions p !! k = Some s ∧ acceptable p hash now s)
    (do* sends_store (λ _, touch_session id csrf idle now) in s)%script false l p w.
Proof.
  intros Hw Hid Hs (row & Hrow & Hacc) HQ. apply wp_query; [intros ?; apply touch_session_safe|].
  intros server_now p' [] d [] Hr Hst _ He Hov.
  apply (wp_keep_by (λ d d', auth_sessions d' = auth_sessions d) (λ _ p w,
    ∀ k s', auth_sessions w !! k = Some s' → ∃ s, auth_sessions p !! k = Some s ∧ acceptable p hash now s)); try done.
  - intros h l' w' p1 p2 Hr' HJ k s' Hk. destruct (HJ k s' Hk) as (s1 & Hs1 & Ha). exists s1. split.
    + rewrite <- Hs1. apply (untouched_sessions _ _ _ (rely_untouched _ _ _ _ _ Hr')). by eexists.
    + eapply acceptable_evolves, Ha. apply Hr'.
  - intros h p1 w' d' _ _ Hsame HJ k s'. unfold written. simpl. rewrite Hsame. simpl. rewrite rows_written_same. apply HJ.
  - intros k s' Hk. assert (k = id) as ->.
    { unfold touch_session in Hst. destruct (match csrf with Some _ => _ | None => _ end); [|done].
      injection Hst as <-. apply map_lookup_filter_Some in Hk as [Hk Hn]. simpl in Hk, Hn.
      rewrite Hw, (left_id_L ∅ (∪)), lookup_update_where in Hk. rewrite Hw, lookup_empty in Hn.
      destruct (decide (k = id)) as [|Hne]; [done|]. apply Z.eqb_neq in Hne. rewrite Hne in Hk.
      destruct Hn as [[? ?]|Hn]; [done|]. by destruct (auth_sessions p' !! k). }
    exists row. split.
    + rewrite <- Hrow. by apply (rely_locked _ _ _ _ _ Hr).
    + eapply acceptable_evolves, Hacc. apply Hr.
Qed.

(** Both checks: the row that is read, and locked, is the one that is refreshed. *)
Lemma check_acceptable {A} hash now p (f : option SessionRow.t → Script A) :
  script_ok false (f None) → steps_by (λ d d', auth_sessions d' = auth_sessions d) (f None) →
  (∀ row, ∃ csrf idle s,
     f (Some row) = (do* sends_store (λ _, touch_session (SessionRow.session_id row) csrf idle now) in s)%script ∧
     script_ok false s ∧ steps_by (λ d d', auth_sessions d' = auth_sessions d) s) →
  wp (λ p w, ∀ k s', auth_sessions w !! k = Some s' → ∃ s, auth_sessions p !! k = Some s ∧ acceptable p hash now s)
    (forgetting (sbind (select_session_locking hash now) f)) false [] p empty_db.
Proof.
  intros HN HNQ HS. apply wp_assoc, wp_query; [intros ?; apply select_safe|].
  intros server_now p' row d a Hr [= <- <-] [= <-] _ _. rewrite written_over.
  destruct (head _ ≫= _) as [row|] eqn:Hrow.
  - apply select_session_row in Hrow as (k & s & Hk & Hl & Hrow).
    destruct (HS row) as (csrf & idle & rest & -> & Hok & HQ).
    apply bind_Some in Hrow as (u & _ & [= <-]). simpl SessionRow.session_id.
    apply wp_assoc, refresh_acceptable; [done| |by apply script_ok_sbind| |by apply steps_by_sbind].
    + rewrite app_nil_r. apply list_elem_of_fmap. exists (k, s). split; [done|]. by apply elem_of_rows_where.
    + simpl in Hk. rewrite (left_id_L ∅ (∪)) in Hk. exists s. split; [done|].
      apply live_acceptable with k. unfold live_session in *. simpl in Hl. by rewrite (left_id_L ∅ (∪)) in Hl.
  - apply (wp_keep_by (λ d d', auth_sessions d' = auth_sessions d) (λ _ _ w, auth_sessions w = ∅)); try done.
    + intros _ p2 w -> k s' Hk. by rewrite lookup_empty in Hk.
    + intros _ p2 w d _ _ Hsame Hw. simpl. by rewrite Hsame, <- Hw; simpl; rewrite rows_written_same.
    + by apply script_ok_sbind.
    + by apply steps_by_sbind.
Qed.

Lemma all_refresh_acceptable int4_as_i64 : promised int4_as_i64 refreshes_acceptable.
Proof.
  intros c s p Hp Hv _. destruct c; try done; injection Hp as <-; try by apply wp_trivial.
  all: unfold refreshes_acceptable; simpl checks; apply check_acceptable; [by intros []|by intros []|].
  all: intros row; do 3 eexists; (split; [reflexivity|]); split; [scripted|stepped].
Qed.

(** C10: the row lock of a session check.  In every run, when a transaction that checks a session (and
    perhaps renews its anti-forgery token) commits, each session it has refreshed is at that
    moment published under the token's hash, not revoked, before both expiries of the check's
    instant, and of an enabled account: no logout and no revocation slips in between the
    reading of the session and its refreshment. *)
Theorem concurrent_session_check int4_as_i64 d ms σ i c hash now k s' σ' :
  db_wf d → run int4_as_i64 (idle d) ms = Some σ → clients σ !! i = Some c →
  checks (call_of c) = Some (hash, now) → auth_sessions (writes c) !! k = Some s' →
  moves int4_as_i64 σ (Committing i) = Some σ' →
  ∃ s, auth_sessions (published σ) !! k = Some s ∧ acceptable (published σ) hash now s.
Proof.
  intros Hd H1 Hi Hc Hk Hm.
  destruct (run_courses _ _ _ _ _ (all_refresh_acceptable _) (idle_ok d Hd) (idle_courses _ d) H1) as [Hok Hco].
  apply (commit_promise _ refreshes_acceptable) in Hm as (c' & Hi' & Hpr & _ & _); [|done..].
  rewrite Hi in Hi'. injection Hi' as <-. unfold refreshes_acceptable in Hpr. rewrite Hc in Hpr. by eapply Hpr.
Qed.
