(* ===== verification/ConcurrentLive.v ===== *)
(** * ConcurrentLive: what a concurrent transaction finds when it takes effect

    [ConcurrentSafety.v] shows that nothing is used twice.  Here it is shown that what is used was
    good: at the very moment a completion, an approval, an issue or a break-glass commits, the
    rows that justify it are published and live (not expired, in the right state, of the right
    kind and owner), although they were read some statements earlier and other transactions have
    committed since. *)
From S2P Require Export ConcurrentSafety.

(** What a call needs to find in the database for it to take effect. *)
Inductive need :=
| NeedCeremony (id : Uuid) (good : AuthCeremony.t → Prop)
| NeedCapability (good : AuthCapability.t → Prop)
| NeedRecovery (id : Uuid) (good : Recovery.t → Prop)
| NeedCredential (id : Uuid) (good : PasskeyCredential.t → Prop)
| NeedOperator (user : string).

Definition open_ceremony (now : DateTime) (r : AuthCeremony.t) : Prop :=
  AuthCeremony.consumed_at r = None ∧ now < AuthCeremony.expires_at r.

Definition needs (c : store_call) : list need :=
  match c with
  | CompleteRegistration id hash _ now _ =>
      NeedCeremony id (open_ceremony now) ::
      match hash with
      | Some h => [NeedCapability (λ r, AuthCapability.token_hash r = SecretHash.as_bytes h ∧
                     AuthCapability.consumed_at r = None ∧ now < AuthCapability.expires_at r)]
      | None => []
      end
  | CompleteAuthentication id _ _ now _ =>
      [NeedCeremony id (λ r, open_ceremony now r ∧ AuthCeremony.kind r = "authentication")]
  | ApproveRecovery id _ _ =>
      [NeedRecovery id (λ r, Recovery.approved_at r = None ∧ Recovery.completed_at r = None)]
  | IssueRecoverySetup id capability _ _ =>
      [NeedRecovery id (λ r, is_Some (Recovery.approved_at r) ∧ Recovery.setup_issued_at r = None ∧
         Recovery.completed_at r = None ∧ Recovery.user_id r = UserId.as_str (Capability.user_id capability))]
  | BreakGlass id capability _ _ =>
      [NeedCredential id (λ r, PasskeyCredential.revoked_at r = None ∧
         PasskeyCredential.user_id r = UserId.as_str (Capability.user_id capability));
       NeedOperator (UserId.as_str (Capability.user_id capability))]
  | _ => []
  end.

Definition holds_row {V} (m : gmap Uuid V) (k : Uuid) (good : V → Prop) : Prop := ∃ v, m !! k = Some v ∧ good v.

Definition meets (d : Db) (n : need) : Prop :=
  match n with
  | NeedCeremony id good => holds_row (auth_ceremonies d) id good
  | NeedCapability good => ∃ k, holds_row (auth_capabilities d) k good
  | NeedRecovery id good => holds_row (recovery_requests d) id good
  | NeedCredential id good => holds_row (passkey_credentials d) id good
  | NeedOperator user => ∃ u, human_users d !! user = Some u ∧ HumanUser.role u = "operator"
  end.

(** *** What keeps a need met

    A row that the transaction has written is locked, and stays as it was published. *)

Definition kept_row {V} (p w : gmap Uuid V) (k : Uuid) (good : V → Prop) : Prop :=
  holds_row p k good ∧ is_Some (w !! k).

Definition kept (n : need) (p w : Db) : Prop :=
  match n with
  | NeedCeremony id good => kept_row (auth_ceremonies p) (auth_ceremonies w) id good
  | NeedCapability good => ∃ k, kept_row (auth_capabilities p) (auth_capabilities w) k good
  | NeedRecovery id good => kept_row (recovery_requests p) (recovery_requests w) id good
  | NeedCredential id good => kept_row (passkey_credentials p) (passkey_credentials w) id good
  | NeedOperator user => meets p (NeedOperator user)
  end.

Lemma kept_meets n p w : kept n p w → meets p n.
Proof. destruct n; simpl; [by intros []| |by intros []..|done]. intros (k & Hk & _). by exists k. Qed.

Lemma kept_row_untouched {V} (p p' w : gmap Uuid V) k good :
  rows_untouched w p p' → kept_row p w k good → kept_row p' w k good.
Proof. intros Hu [(v & Hv & Hg) Hw]. split; [|done]. exists v. by rewrite (Hu k Hw). Qed.

Lemma kept_rely n h l w p p' : rely h l w p p' → kept n p w → kept n p' w.
Proof.
  intros [_ _ _ He [_ Uc Up Uy _ Ur] _ _]. destruct n; simpl; try by apply kept_row_untouched.
  - intros (k & Hk). exists k. by eapply kept_row_untouched.
  - intros (u & Hu & Hr). destruct (evolves_users _ _ He _ _ Hu) as (u' & Hu' & _ & _ & Hr' & _).
    exists u'. split; [done|congruence].
Qed.

Lemma kept_row_written {V} `{EqDecision V} R (p w d : gmap Uuid V) k good :
  table_evolves R (w ∪ p) d → kept_row p w k good → kept_row p (rows_written p w d) k good.
Proof. intros He [Hp Hw]. split; [done|]. by eapply rows_written_mono. Qed.

Lemma kept_written n p w d : evolves (over p w) d → kept n p w → kept n p (written p w d).
Proof.
  intros [_ Hc Hp Hy _ Hr _]. destruct n; simpl; try by eapply kept_row_written.
  - intros (k & Hk). exists k. by eapply kept_row_written.
  - done.
Qed.

Definition all_kept (ns : list need) (p w : Db) : Prop := Forall (λ n, kept n p w) ns.

Lemma all_kept_rely ns h l w p p' : rely h l w p p' → all_kept ns p w → all_kept ns p' w.
Proof. intros Hr Hk. eapply Forall_impl; [exact Hk|]. intros n. by eapply kept_rely. Qed.

Lemma all_kept_written ns p w d : evolves (over p w) d → all_kept ns p w → all_kept ns p (written p w d).
Proof. intros He Hk. eapply Forall_impl; [exact Hk|]. intros n. by apply kept_written. Qed.

(** The promise: every need of the call is met by what is published when it commits. *)
Definition finds_needs (c : store_call) (_ p _ : Db) : Prop := ∀ n, n ∈ needs c → meets p n.

Lemma wp_finds {A} c p0 (s : Script A) holds l p w :
  script_ok holds s → all_kept (needs c) p w → wp (finds_needs c p0) s holds l p w.
Proof.
  intros Hs Hk. apply (wp_keep (λ _, all_kept (needs c))); try done.
  - intros _ p' w' Hk' n Hn. eapply kept_meets. by apply (proj1 (Forall_forall _ _) Hk').
  - intros h l' w' p1 p2. apply all_kept_rely.
  - intros h p' w' d _. apply all_kept_written.
Qed.

(** *** The statements that find *)

(** An [UPDATE] that marks a row which was not. *)
Lemma update_keeps {V} `{EqDecision V} (f : V → option DateTime) (P : Uuid → V → bool) (g : V → V) (p : gmap Uuid V) k v
    (good : V → Prop) :
  p !! k = Some v → P k v = true → f v = None → is_Some (f (g v)) → good v →
  kept_row p (rows_written p ∅ (update_where P g (∅ ∪ p))) k good.
Proof.
  intros Hk HP Hn Hs Hg. split; [by exists v|].
  destruct (update_takes f P g p k v Hk HP Hn Hs) as [_ (v' & Hv' & _)]. by exists v'.
Qed.

Lemma consume_ceremonies_finds P at_ p w rows d id (good : AuthCeremony.t → Prop) :
  consume_ceremonies P at_ (over p w) = Ok (rows, d) → rows ≠ [] → auth_ceremonies w = ∅ →
  (∀ k c, P k c = true → AuthCeremony.consumed_at c = None → k = id ∧ good c) →
  kept (NeedCeremony id good) p (written p w d).
Proof.
  intros [= <- <-] Hr Hw HP. simpl in *. rewrite Hw in *. apply rows_where_elem in Hr as (k & c & Hk & Hc).
  rewrite (left_id_L ∅ (∪)) in Hk. pose proof Hc as [HPk Hn%is_null_true]%andb_true_iff.
  destruct (HP _ _ HPk Hn) as [-> Hg].
  by eapply (update_keeps AuthCeremony.consumed_at); [exact Hk|exact Hc|done|by eexists|].
Qed.

Lemma consume_capabilities_finds P at_ p w n d (good : AuthCapability.t → Prop) :
  consume_capabilities P at_ (over p w) = Ok (n, d) → n ≠ 0%nat → auth_capabilities w = ∅ →
  (∀ k c, P k c = true → AuthCapability.consumed_at c = None → good c) →
  kept (NeedCapability good) p (written p w d).
Proof.
  intros [= Hn <-] Hr Hw HP. simpl in *. rewrite Hw in *.
  match type of Hn with length (rows_where ?Q ?m) = _ =>
    assert (rows_where Q m ≠ []) as Hne by (intros He; rewrite He in Hn; by subst) end.
  apply rows_where_elem in Hne as (k & c & Hk & Hc).
  rewrite (left_id_L ∅ (∪)) in Hk. pose proof Hc as [HPk Hnull%is_null_true]%andb_true_iff. exists k.
  by eapply (update_keeps AuthCapability.consumed_at); [exact Hk|exact Hc|done|by eexists|eapply HP].
Qed.

Lemma mark_approved_finds id op at_ p w user d :
  mark_approved id op at_ (over p w) = Ok (Some user, d) → recovery_requests w = ∅ →
  kept (NeedRecovery id (λ r, Recovery.approved_at r = None ∧ Recovery.completed_at r = None)) p (written p w d).
Proof.
  unfold mark_approved. intros Hm Hw. destruct (head _) as [[k r]|] eqn:Hh; [|done].
  apply head_rows_where in Hh as [Hk HP]. destruct (user_exists _ _); [|done]. injection Hm as _ <-. simpl in *.
  rewrite Hw in *. rewrite (left_id_L ∅ (∪)) in Hk.
  pose proof HP as [[->%Z.eqb_eq Hn%is_null_true]%andb_true_iff Hc%is_null_true]%andb_true_iff.
  by eapply (update_keeps Recovery.approved_at); [exact Hk|exact HP|done|by eexists|].
Qed.

Lemma mark_issued_finds id user at_ p w n d :
  mark_issued id user at_ (over p w) = Ok (n, d) → n ≠ 0%nat → recovery_requests w = ∅ →
  kept (NeedRecovery id (λ r, is_Some (Recovery.approved_at r) ∧ Recovery.setup_issued_at r = None ∧
    Recovery.completed_at r = None ∧ Recovery.user_id r = user)) p (written p w d).
Proof.
  intros [= Hn <-] Hr Hw. simpl in *. rewrite Hw in *.
  match type of Hn with length (rows_where ?P ?m) = _ =>
    assert (rows_where P m ≠ []) as Hne by (intros He; rewrite He in Hn; by subst) end.
  apply rows_where_elem in Hne as (k & c & Hk & Hc). rewrite (left_id_L ∅ (∪)) in Hk.
  pose proof Hc as [[[[->%Z.eqb_eq Ha]%andb_true_iff Hi%is_null_true]%andb_true_iff
    Hd%is_null_true]%andb_true_iff Hu%bool_decide_eq_true]%andb_true_iff.
  eapply (update_keeps Recovery.setup_issued_at); [exact Hk|exact Hc|done|by eexists|].
  split_and!; [|done..]. by destruct (Recovery.approved_at c).
Qed.

Lemma revoke_credential_finds id at_ p w user d :
  revoke_operator_credential id at_ (over p w) = Ok (Some user, d) →
  passkey_credentials w = ∅ → human_users w = ∅ →
  all_kept [NeedCredential id (λ r, PasskeyCredential.revoked_at r = None ∧ PasskeyCredential.user_id r = user);
            NeedOperator user] p (written p w d).
Proof.
  intros [= Hh <-] Hw Hu. simpl in *. rewrite Hw in *.
  apply fmap_Some in Hh as ([k c] & Hh & ->). apply head_rows_where in Hh as [Hk HP].
  rewrite (left_id_L ∅ (∪)) in Hk. pose proof HP as [->%Z.eqb_eq Ha]%andb_true_iff.
  unfold active_operator_credential in Ha. simpl in Ha. rewrite Hu, (left_id_L ∅ (∪)) in Ha.
  destruct (human_users p !! PasskeyCredential.user_id c) as [u|] eqn:Hown; [|done].
  apply andb_true_iff in Ha as [Hop Hn%is_null_true].
  apply Forall_cons. split; [|apply Forall_singleton; exists u; by unfold row_is_operator in Hop; bool_prop].
  simpl. rewrite Hw. by eapply (update_keeps PasskeyCredential.revoked_at); [exact Hk|exact HP|done|by eexists|].
Qed.

(** *** The scripts *)

Lemma complete_authentication_finds id v s now audit p :
  wp (finds_needs (CompleteAuthentication id v s now audit) p) (complete_authentication_script id v s now audit)
    false [] p empty_db.
Proof.
  apply wp_query; [intros ?; apply consume_ceremonies_safe|].
  intros server_now p' rows d a Hr Hst [= <-] He Hov. apply wp_guard. intros Hn.
  apply wp_finds; [scripted|]. apply Forall_singleton.
  eapply consume_ceremonies_finds; [exact Hst|by intros ->|done|].
  intros k c [[->%Z.eqb_eq Hkind%bool_decide_eq_true]%andb_true_iff Hlt%Z.ltb_lt]%andb_true_iff Hnull. done.
Qed.

Lemma approve_recovery_finds id op now p :
  wp (finds_needs (ApproveRecovery id op now) p) (approve_recovery_script id op now) false [] p empty_db.
Proof.
  apply wp_query; [intros ?; apply mark_approved_safe|].
  intros server_now p' found d a Hr Hst [= <-] He Hov. apply wp_lift. intros user ->%ok_or_Ok.
  apply wp_finds; [scripted|]. apply Forall_singleton. by eapply mark_approved_finds.
Qed.

Lemma issue_recovery_finds id c op now p :
  wp (finds_needs (IssueRecoverySetup id c op now) p) (issue_recovery_script id c op now) false [] p empty_db.
Proof.
  apply wp_query; [intros ?; apply mark_issued_safe|].
  intros server_now p' n d a Hr Hst [= <-] He Hov. apply wp_guard. intros Hn.
  apply wp_finds; [scripted|]. apply Forall_singleton. eapply mark_issued_finds; [exact Hst|by intros ->|done].
Qed.

Lemma break_glass_finds id c now reason p :
  wp (finds_needs (BreakGlass id c now reason) p) (break_glass_script id c now reason) false [] p empty_db.
Proof.
  apply wp_query; [intros ?; apply revoke_operator_credential_safe|].
  intros server_now p' found d a Hr Hst [= <-] He Hov. apply wp_lift. intros user ->%ok_or_Ok.
  apply wp_guard. intros Howner%negb_false_iff%String.eqb_eq.
  apply wp_finds; [scripted|]. simpl. rewrite Howner. by eapply revoke_credential_finds.
Qed.

(** Registrations: the ceremony is found first, then, when there is one, the capability. *)
Lemma spend_capability_finds ceremony hash v now audit (rest : Script unit) p0 holds l p w :
  script_ok holds rest → auth_capabilities w = ∅ →
  kept (NeedCeremony ceremony (open_ceremony now)) p w →
  wp (finds_needs (CompleteRegistration ceremony hash v now audit) p0)
    (do* spend_capability_script hash now in rest)%script holds l p w.
Proof.
  intros Hs Hw Hc. destruct hash as [h|].
  - apply wp_assoc, wp_query; [intros ?; apply consume_capabilities_safe|].
    intros server_now p' n d a Hr Hst [= <-] He Hov. apply wp_guard. intros Hn.
    apply wp_finds; [done|]. apply Forall_cons. split.
    + apply kept_written; [done|]. by eapply kept_rely.
    + apply Forall_singleton. eapply consume_capabilities_finds; [exact Hst|by intros ->|done|].
      by intros k c [?%bool_decide_eq_true ?%Z.ltb_lt]%andb_true_iff ?.
  - apply wp_finds; [done|]. by apply Forall_singleton.
Qed.

Lemma spend_ceremony_finds id now p w rows d :
  consume_ceremonies (λ k c, (k =? id) && (now <? AuthCeremony.expires_at c)) now (over p w) = Ok (rows, d) →
  w = empty_db → rows ≠ [] →
  kept (NeedCeremony id (open_ceremony now)) p (written p w d) ∧ auth_capabilities (written p w d) = ∅.
Proof.
  intros Hst -> Hn. split.
  - eapply consume_ceremonies_finds; [exact Hst|done|done|].
    by intros k c [->%Z.eqb_eq ?%Z.ltb_lt]%andb_true_iff ?.
  - injection Hst as _ <-. simpl. rewrite (left_id_L ∅ (∪)). apply rows_written_none.
Qed.

Lemma complete_registration_finds id hash v now audit p :
  wp (finds_needs (CompleteRegistration id hash v now audit) p)
    (complete_registration_script id hash v now audit) false [] p empty_db.
Proof.
  apply wp_lock. intros p1 Hr1. apply wp_query; [intros ?; apply consume_ceremonies_safe|].
  intros server_now p2 rows d found Hr2 Hst Hd He Hov. apply wp_lift. intros [user kind] ->%ok_or_Ok.
  destruct (spend_ceremony_finds _ _ _ _ _ _ Hst eq_refl) as [Hc Hw]; [by intros ->|].
  unfold bootstrap_guard_script. destruct (String.eqb kind "operator_bootstrap").
  - apply wp_assoc, wp_query; [intros ?; apply select_safe|].
    intros ? p3 n d' a Hr3 [= <- <-] [= <-] _ _. rewrite written_over. apply wp_guard. intros _.
    apply spend_capability_finds; [scripted|done|by eapply kept_rely].
  - apply spend_capability_finds; [scripted|done|done].
Qed.

(** *** In the runs of the server *)

Section runs.
Context (int4_as_i64 : bool).

Lemma all_find_needs : promised int4_as_i64 finds_needs.
Proof.
  intros c s p Hp _ _. destruct c; try done; injection Hp as <-;
    try (apply wp_trivial; by intros p' w' n ?%not_elem_of_nil).
  - apply complete_registration_finds.
  - apply complete_authentication_finds.
  - apply approve_recovery_finds.
  - apply issue_recovery_finds.
  - apply break_glass_finds.
Qed.

(** C20: nothing stale takes effect, however many transactions run at once.  In every run from a
    database that satisfies the schema, at the moment a call commits, what justifies it is
    published and still good: for a registration, its ceremony is not consumed and not expired
    at the call's instant, and so is the capability it presents; for a login, its ceremony is
    one of authentication, not consumed and not expired; an approved recovery was neither
    approved nor completed; a setup is issued for a recovery of the capability's account that is
    approved, not yet issued and not completed; and the glass is broken for a passkey that is
    not revoked and belongs to the capability's account, an operator's. *)
Theorem concurrent_commits_find_live d ms σ i c σ' :
  db_wf d → run int4_as_i64 (idle d) ms = Some σ → clients σ !! i = Some c →
  moves int4_as_i64 σ (Committing i) = Some σ' →
  ∀ n, n ∈ needs (call_of c) → meets (published σ) n.
Proof.
  intros Hd H1 Hi Hm.
  destruct (run_courses _ _ _ _ _ all_find_needs (idle_ok d Hd) (idle_courses _ d) H1) as [Hok Hco].
  apply (commit_promise _ finds_needs) in Hm as (c' & Hi' & Hpr & _ & _); [|done..].
  rewrite Hi in Hi'. injection Hi' as <-. exact Hpr.
Qed.

End runs.
