(* ===== verification/SerialRuns.v ===== *)
(** * SerialRuns: one call after another is a run

    The serial world of [PgDriver.v], in which a call is served as a whole and faults come from a
    list, is a special case of concurrent transactions: whatever an execution of calls does to
    the database, a run of the server does, with the same scripts, moving one transaction at
    a time.  So the two readings of the store agree where both apply. *)
From S2P Require Export Promises.

(** After its commit a script only answers. *)
Fixpoint commits_last {A} (s : Script A) : Prop :=
  match s with
  | Return _ => True
  | Ask _ _ k => ∀ r, commits_last (k r)
  | AdvisoryLock k => ∀ r, commits_last (k r)
  | DrawUuid k => ∀ id, commits_last (k id)
  | Commit k => ∀ r, ∃ a, k r = Return a
  end.

(** A script that never commits. *)
Fixpoint uncommitted {A} (s : Script A) : Prop :=
  match s with
  | Return _ => True
  | Ask _ _ k => ∀ r, uncommitted (k r)
  | AdvisoryLock k => ∀ r, uncommitted (k r)
  | DrawUuid k => ∀ id, uncommitted (k id)
  | Commit k => False
  end.

Lemma commits_last_sbind {A B} (c : Script A) (f : A → Script B) :
  uncommitted c → (∀ a, commits_last (f a)) → commits_last (sbind c f).
Proof. induction c as [[a|e]|X locks st k IH|k IH|k IH|k IH]; simpl; try done; naive_solver. Qed.

Lemma commits_last_then {A B} (c : Script A) (f : A → Script B) :
  commits_last c → (∀ a, ∃ b, f a = Return b) → commits_last (sbind c f).
Proof.
  intros Hc Hf. induction c as [[a|e]|X locks st k IH|k IH|k IH|k IH]; simpl in *; try done; try naive_solver.
  - by destruct (Hf a) as [b ->].
  - intros r. destruct (Hc r) as [[a|e] ->]; simpl; [apply Hf|by eexists].
Qed.

Lemma uncommitted_sbind {A B} (c : Script A) (f : A → Script B) :
  uncommitted c → (∀ a, uncommitted (f a)) → uncommitted (sbind c f).
Proof. induction c as [[a|e]|X locks st k IH|k IH|k IH|k IH]; simpl; try done; naive_solver. Qed.

Ltac committing :=
  repeat match goal with
  | |- commits_last (sbind scommit _) => apply commits_last_then; [|intros ?]
  | |- commits_last (sbind _ _) => apply commits_last_sbind; [|intros ?]
  | |- uncommitted (sbind _ _) => apply uncommitted_sbind; [|intros ?]
  | |- uncommitted (query _ _ _ _) => by intros ?
  | |- uncommitted (sends _ _) => by intros ?
  | |- uncommitted (sends_store _) => by intros ?
  | |- uncommitted bootstrap_lock => by intros ?
  | |- uncommitted (DrawUuid sret) => by intros ?
  | |- uncommitted (slift _) => exact I
  | |- uncommitted (sret _) => exact I
  | |- uncommitted (sguard ?b _) => destruct b; exact I
  | |- commits_last scommit => intros ?; by eexists
  | |- _ (match ?x with _ => _ end) => destruct x
  | |- _ (if ?x then _ else _) => destruct x
  | |- ∃ b, sret _ = Return b => by eexists
  | |- ∃ b, Return _ = Return b => by eexists
  | |- ∃ b, match ?x with _ => _ end = Return b => destruct x
  | |- ∃ b, sbind (slift ?r) _ = Return b => destruct r; [cbn [slift sbind]|by eexists]
  end.

Lemma plan_commits_last int4_as_i64 c s :
  plan_of int4_as_i64 c = Some (InTransaction s) → commits_last s.
Proof.
  intros Hp. destruct c; try done; injection Hp as <-; try (apply commits_last_then; [|by eexists]).
  all: unfold insert_user_script, approve_user_script, rotate_all_script, complete_registration_script,
    complete_authentication_script, session_script, rotate_session_csrf_script, approve_recovery_script,
    issue_recovery_script, break_glass_script, select_session_locking, audit_script, invalidate_script,
    spend_ceremony_script, bootstrap_guard_script, spend_capability_script; committing.
Qed.

(** ** One transaction alone *)

Definition solo (p : Db) (c : Client) (l : list store_call) : Server := mkServer p {[0%nat := c]} l.

Section solo.
Context `{Entropy} (int4_as_i64 : bool).

Lemma solo_set p c c' l : set_client 0 c' (solo p c l) = solo p c' l.
Proof. unfold set_client, solo. simpl. by rewrite insert_singleton_eq. Qed.

Lemma solo_delete p c l : delete 0%nat (clients (solo p c l)) = ∅.
Proof. apply delete_singleton_eq. Qed.

Lemma solo_step p c c' l m ms σ :
  moves int4_as_i64 (solo p c l) m = Some (solo p c' l) → run int4_as_i64 (solo p c' l) ms = Some σ →
  run int4_as_i64 (solo p c l) (m :: ms) = Some σ.
Proof. simpl. by intros ->. Qed.

Lemma solo_statement p c l now d locks s :
  statement_of (rest c) now (over p (writes c)) = Some (Some (d, locks), s) →
  moves int4_as_i64 (solo p c l) (Statement 0 now) = Some (solo p (executed p c d locks s) l).
Proof.
  intros Hs. simpl. rewrite lookup_singleton_eq. simpl. rewrite Hs. simpl.
  unfold admits. rewrite delete_singleton_eq, bool_decide_true by apply map_Forall_empty.
  by rewrite solo_set.
Qed.

Lemma solo_refused p c l now s :
  statement_of (rest c) now (over p (writes c)) = Some (None, s) →
  moves int4_as_i64 (solo p c l) (Statement 0 now) = Some (solo p (continue c s) l).
Proof. intros Hs. simpl. rewrite lookup_singleton_eq. simpl. rewrite Hs. simpl. by rewrite solo_set. Qed.

Lemma solo_broken p c l s :
  broken_of (rest c) = Some s → moves int4_as_i64 (solo p c l) (Broken 0) = Some (solo p (continue c s) l).
Proof. intros Hs. simpl. rewrite lookup_singleton_eq. simpl. rewrite Hs. simpl. by rewrite solo_set. Qed.

Lemma solo_drawn p c l id s :
  draw_of (rest c) id = Some s → moves int4_as_i64 (solo p c l) (Drawn 0 id) = Some (solo p (continue c s) l).
Proof. intros Hs. simpl. rewrite lookup_singleton_eq. simpl. rewrite Hs. simpl. by rewrite solo_set. Qed.

Lemma solo_acquire p c l s :
  acquire_of (rest c) = Some s → moves int4_as_i64 (solo p c l) (Acquire 0) =
    Some (solo p (mkClient (call_of c) (began c) (writes c) (locked c) true s) l).
Proof.
  intros Hs. simpl. rewrite lookup_singleton_eq. simpl. rewrite Hs. simpl.
  unfold lock_free. rewrite delete_singleton_eq, bool_decide_true by apply map_Forall_empty. by rewrite solo_set.
Qed.

Lemma solo_commit p c l :
  commits (rest c) = true → moves int4_as_i64 (solo p c l) (Committing 0) =
    Some (mkServer (over p (writes c)) ∅ (l ++ [call_of c])).
Proof. intros Hs. simpl. rewrite lookup_singleton_eq. simpl. by rewrite Hs, delete_singleton_eq. Qed.

Lemma solo_dropped p c l :
  returned (rest c) = true → moves int4_as_i64 (solo p c l) (Dropped 0) = Some (mkServer p ∅ l).
Proof. intros Hs. simpl. rewrite lookup_singleton_eq. simpl. by rewrite Hs, delete_singleton_eq. Qed.

(** The transaction comes to its end, and leaves [d] published. *)
Definition ends (p : Db) (c : Client) (l : list store_call) (d : Db) : Prop :=
  ∃ ms l', run int4_as_i64 (solo p c l) ms = Some (mkServer d ∅ l').

Lemma ends_step p c c' l m d :
  moves int4_as_i64 (solo p c l) m = Some (solo p c' l) → ends p c' l d → ends p c l d.
Proof. intros Hm (ms & l' & Hr). exists (m :: ms), l'. by eapply solo_step. Qed.

Lemma continue_rest_ok p c s k :
  rest c = s → client_ok p c → (script_ok (advisory c) s → script_ok (advisory c) k) → client_ok p (continue c k).
Proof. intros Hr Hok Hk. apply continue_ok; [done|]. apply Hk. rewrite <- Hr. apply Hok. Qed.

(** A commit, delivered or with its answer lost, or not executed. *)
Lemma commit_runs k c t r t' p l :
  rest c = Commit k → commits_last (Commit k) → play (Commit k) t = (r, t') →
  db (world t) = p → working t = over p (writes c) → ends p c l (db (world t')).
Proof.
  intros Hrest Hlast Hplay Hp Hw. simpl in Hplay.
  unfold commit in Hplay. destruct (next_verdict (world t)) as [v w] eqn:Hv.
  apply next_verdict_spec in Hv as (Hdb & _).
  assert (∀ r1 t1, play (k r1) t1 = (r, t') → t' = t1) as Hend.
  { intros r1 t1. destruct (Hlast r1) as [a ->]. by intros [= _ <-]. }
  destruct v; apply Hend in Hplay; subst t'; simpl.
  2: { destruct (Hlast (Err Driver)) as [a Ha]. exists [Broken 0; Dropped 0], l.
       eapply solo_step; [apply solo_broken; by rewrite Hrest|]. cbn [run].
       rewrite solo_dropped by (simpl; by rewrite Ha). simpl. by rewrite Hdb, Hp. }
  all: exists [Committing 0], (l ++ [call_of c]); cbn [run]; rewrite solo_commit by (by rewrite Hrest);
    simpl; by rewrite Hw.
Qed.

(** A statement, which is executed, refused by the server, or lost. *)
Lemma ask_runs {B} locks (st : DateTime → statement B) k c t r t' p l :
  (∀ q c t, rest c = k q → client_ok p c → play (k q) t = (r, t') → db (world t) = p →
     working t = over p (writes c) → ends p c l (db (world t'))) →
  rest c = Ask locks st k → client_ok p c → play (Ask locks st k) t = (r, t') →
  db (world t) = p → working t = over p (writes c) → ends p c l (db (world t')).
Proof.
  intros IH Hrest Hok Hplay Hp Hw. simpl in Hplay.
  unfold tx_execute in Hplay. destruct (next_verdict (world t)) as [v w] eqn:Hv.
  apply next_verdict_spec in Hv as (Hdb & _).
  assert (∀ e, play (k (Err e)) (mkTx w (working t)) = (r, t') →
    ends p (continue c (k (Err e))) l (db (world t'))) as Herr.
  { intros e He. eapply (IH (Err e)); [done| |exact He|by simpl; rewrite Hdb|done].
    eapply continue_rest_ok; [exact Hrest|done|]. by intros []. }
  assert (play (k (Err Driver)) (mkTx w (working t)) = (r, t') → ends p c l (db (world t'))) as Hlost.
  { intros He. eapply ends_step; [|by apply Herr]. apply solo_broken. by rewrite Hrest. }
  destruct v; [|by apply Hlost..].
  destruct (st (server_now w) (working t)) as [[a d]|e] eqn:Hst.
  - assert (statement_of (rest c) (server_now w) (over p (writes c)) =
      Some (Some (d, locks (over p (writes c))), k (Ok a))) as Hso by by rewrite Hrest, <- Hw; simpl; rewrite Hst.
    destruct (executed_ok _ _ _ _ _ _ Hok Hso) as [Hok' Hov].
    eapply ends_step; [by apply solo_statement|].
    eapply (IH (Ok a)); [done|done|exact Hplay|by simpl; rewrite Hdb|done].
  - eapply ends_step; [|by apply (Herr _ Hplay)]. apply solo_refused. rewrite Hrest, <- Hw. simpl. by rewrite Hst.
Qed.

(** The advisory lock, which nobody else holds. *)
Lemma lock_runs k c t r t' p l :
  (∀ q c t, rest c = k q → client_ok p c → play (k q) t = (r, t') → db (world t) = p →
     working t = over p (writes c) → ends p c l (db (world t'))) →
  rest c = AdvisoryLock k → client_ok p c → play (AdvisoryLock k) t = (r, t') →
  db (world t) = p → working t = over p (writes c) → ends p c l (db (world t')).
Proof.
  intros IH Hrest Hok Hplay Hp Hw. simpl in Hplay.
  unfold tx_execute in Hplay. destruct (next_verdict (world t)) as [v w] eqn:Hv.
  apply next_verdict_spec in Hv as (Hdb & _).
  assert (play (k (Err Driver)) (mkTx w (working t)) = (r, t') → ends p c l (db (world t'))) as Hlost.
  { intros He. apply (ends_step _ _ (continue c (k (Err Driver))) _ (Broken 0)); [apply solo_broken; by rewrite Hrest|].
    eapply (IH (Err Driver)); [done| |exact He|by simpl; rewrite Hdb|done].
    eapply continue_rest_ok; [exact Hrest|done|]. by intros []. }
  destruct v; [|by apply Hlost..].
  eapply ends_step; [apply solo_acquire; by rewrite Hrest|].
  eapply (IH (Ok tt)); [done| |exact Hplay|by simpl; rewrite Hdb|done].
  pose proof (client_script _ _ Hok) as Hs. rewrite Hrest in Hs. destruct Hs, Hok. by constructor.
Qed.

(** Playing the rest of a script does what moving it to its end does. *)
Lemma play_runs (s : Script unit) c p t r t' l :
  rest c = s → client_ok p c → commits_last s →
  play s t = (r, t') → db (world t) = p → working t = over p (writes c) →
  ends p c l (db (world t')).
Proof.
  revert c t. induction s as [a|B locks st k IH|k IH|k IH|k IH]; intros c t Hrest Hok Hlast Hplay Hp Hw.
  - simpl in Hplay. injection Hplay as _ <-. exists [Dropped 0], l. cbn [run].
    rewrite solo_dropped by by rewrite Hrest. by rewrite Hp.
  - eapply ask_runs; [|done..]. intros q c' t1 ? ? ?. by eapply IH; [| |apply Hlast|..].
  - eapply lock_runs; [|done..]. intros q c' t1 ? ? ?. by eapply IH; [| |apply Hlast|..].
  - simpl in Hplay. eapply ends_step; [apply solo_drawn; by rewrite Hrest|].
    eapply IH; [done| |apply Hlast|exact Hplay|done|done].
    eapply continue_rest_ok; [exact Hrest|done|]. simpl. auto.
  - by eapply commit_runs.
Qed.

(** A call, as a whole. *)
Lemma transaction_runs c s w r w' l :
  plan_of int4_as_i64 c = Some (InTransaction s) → call_valid c → db_wf (db w) →
  transaction (play s) w = (r, w') →
  ∃ ms l', run int4_as_i64 (mkServer (db w) ∅ l) ms = Some (mkServer (db w') ∅ l').
Proof.
  intros Hp Hv Hw. unfold transaction. destruct (next_verdict w) as [v w1] eqn:Hn.
  apply next_verdict_spec in Hn as (Hdb & _). destruct v; [|intros [= _ <-]; exists [], l; cbn [run]; by rewrite Hdb..].
  destruct (play s _) as [r1 t] eqn:Ht. intros [= _ <-].
  edestruct (play_runs s (mkClient c (db w) empty_db [] false s) (db w) (mkTx w1 (db w1)) r1 t l eq_refl)
    as (ms & l' & Hr); [| |exact Ht|done|..].
  - constructor; simpl; rewrite ?over_empty; try done. by eapply plan_script_ok.
  - by eapply plan_commits_last.
  - simpl. by rewrite over_empty.
  - exists (Begin 0 c :: ms), l'. simpl. unfold begins. rewrite Hp. simpl.
    rewrite bool_decide_true by done. exact Hr.
Qed.

Lemma statement_runs {B} c p id (st : DateTime → statement B) f w r w' l :
  plan_of int4_as_i64 c = Some p →
  (∀ now d, effect_of p id now d = match st now d with Ok (_, d') => Some d' | Err _ => None end) →
  call_valid c → forget (err_with f (pool_execute st)) w = (r, w') →
  ∃ ms l', run int4_as_i64 (mkServer (db w) ∅ l) ms = Some (mkServer (db w') ∅ l').
Proof.
  intros Hp He Hv. unfold forget, bind, err_with, pool_execute. destruct (next_verdict w) as [v w1] eqn:Hn.
  apply next_verdict_spec in Hn as (Hdb & _). intros Hr.
  assert (db w' = db w ∨ ∃ a d, st (server_now w1) (db w1) = Ok (a, d) ∧ db w' = d) as [-> |(a & d & Hst & ->)].
  { destruct v; [destruct (st _ _) as [[a d]|e]| |destruct (st _ _) as [[a d]|e]];
      simpl in Hr; injection Hr as _ <-; simpl; eauto. }
  - by exists [], l.
  - exists [Single c id (server_now w1)], (l ++ [c]). simpl. rewrite Hp. simpl.
    rewrite He, <- Hdb, Hst. simpl. rewrite bool_decide_true by done. simpl.
    unfold admits. by rewrite bool_decide_true by apply map_Forall_empty.
Qed.

Lemma call_runs c w r w' l :
  call_valid c → db_wf (db w) → perform int4_as_i64 c w = (r, w') →
  ∃ ms l', run int4_as_i64 (mkServer (db w) ∅ l) ms = Some (mkServer (db w') ∅ l').
Proof.
  intros Hv Hw Hc. pose proof (plans_are_calls int4_as_i64 c) as Hplan.
  destruct (plan_of int4_as_i64 c) as [p|] eqn:Hp.
  2: { exists [], l. by rewrite (Hplan _ _ _ Hc). }
  rewrite <- Hplan in Hc. destruct p as [B st f|q|s].
  - eapply (statement_runs c _ 0); [exact Hp|done|done|exact Hc].
  - assert (∀ x, ∃ st f, q x = Immediate (B := unit) st f) as Hq
      by (destruct c; try done; injection Hp as <-; intros x; by do 2 eexists).
    simpl in Hc. unfold bind at 1, draw at 1 in Hc. destruct (Hq (uuid_at (drawn w))) as (st & f & Heq).
    rewrite Heq in Hc. eapply statement_runs in Hc as (ms & l' & Hr); [by exists ms, l'|exact Hp| |done].
    intros now d. simpl. by rewrite Heq.
  - by eapply transaction_runs.
Qed.

Lemma run_trans σ ms σ1 ms' σ2 :
  run int4_as_i64 σ ms = Some σ1 → run int4_as_i64 σ1 ms' = Some σ2 → run int4_as_i64 σ (ms ++ ms') = Some σ2.
Proof. intros H1 H2. by rewrite run_app, H1. Qed.

(** Concurrent transactions refine nothing away.  Every execution of calls one after another, over
    whatever faults and moves of the environment, is matched by a run of the server that moves one
    transaction at a time, and leaves the same database published, with no transaction open. *)
Theorem serial_executions_are_runs w w' :
  db_wf (db w) → rtc (step int4_as_i64) w w' →
  ∃ ms σ, run int4_as_i64 (idle (db w)) ms = Some σ ∧ published σ = db w' ∧ clients σ = ∅.
Proof.
  intros Hw Hs. assert (∀ l, ∃ ms l', run int4_as_i64 (mkServer (db w) ∅ l) ms = Some (mkServer (db w') ∅ l')) as Hall.
  { induction Hs as [w|w w1 w' Hstep _ IH]; intros l; [by exists [], l|].
    destruct (step_keeps _ _ _ Hstep Hw) as [Hw1 _].
    destruct Hstep as [c r w w1 Hv Hc|w now vs].
    - destruct (call_runs _ _ _ _ l Hv Hw Hc) as (ms & l1 & H1). destruct (IH Hw1 l1) as (ms' & l2 & H2).
      exists (ms ++ ms'), l2. by eapply run_trans.
    - by apply IH. }
  destruct (Hall []) as (ms & l & Hr). exists ms. eexists. split; [exact Hr|done].
Qed.

End solo.
