(* ===== verification/AuthService.v ===== *)
(** * AuthService: the authentication service ([auth/src/lib.rs], [AuthService])

    The service is generic in its store, its WebAuthn engine and its randomness.  Each operation
    is the sequence of store calls, engine calls and guards of the source.  Its theorems
    about sessions are proved here over the PostgreSQL store. *)
From S2P Require Export StoreSecurity.

(** [.filter(|user| user.enabled)]. *)
Definition filter_enabled (user : option User) : option User :=
  match user with Some u => if User.enabled u then Some u else None | None => None end.

(** [email.is_empty() || !email.contains('@') || display_name.is_empty()]. *)
Definition account_input_invalid (email display_name : string) : bool :=
  String.eqb email "" || negb (contains_char "@"%char email) || String.eqb display_name "".

Section service.
Context {W : Type} `{AuthStore W, Randomness W, CeremonyEngine, Sha256} (config : AuthConfig).

Definition start_setup_registration (token : SecretToken) (purpose : CapabilityPurpose)
    (now : DateTime) : M W AuthError (Uuid * Value) :=
  let! found := capability (SecretToken.hash token) purpose now in
  let! cap := lift (ok_or found InvalidToken) in
  let! found := user_by_id (Capability.user_id cap) in
  let! user := lift (ok_or (filter_enabled found) InvalidToken) in
  let! credentials := credentials_for_user (User.id user) in
  let! seed := engine_seed in
  let! (challenge, state) := lift (engine_start_registration seed user credentials) in
  let! id := new_v4 in
  do! insert_ceremony (Ceremony.mk id Registration (Some (User.id user))
        (Some (Capability.token_hash cap)) state (now + AuthConfig.ceremony_ttl config)) in
  ret (id, challenge).

Definition start_operator_bootstrap (now : DateTime) : M W AuthError (Uuid * Value * CeremonyKind) :=
  let! window := operator_recovery_window now in
  let! (user, capability_hash, kind) :=
    match window with
    | Some (user, hash) => ret (user, Some hash, OperatorRecovery)
    | None =>
        let! found := operator_without_credential in
        let! user := lift (ok_or found Conflict) in
        ret (user, None, OperatorBootstrap)
    end in
  let! seed := engine_seed in
  let! (challenge, state) := lift (engine_start_registration seed user []) in
  let! id := new_v4 in
  do! insert_ceremony (Ceremony.mk id kind (Some (User.id user)) capability_hash state
        (now + AuthConfig.ceremony_ttl config)) in
  ret (id, challenge, kind).

Definition finish_registration (ceremony_id : Uuid) (kind : CeremonyKind) (response : Value)
    (now : DateTime) : M W AuthError unit :=
  let! found := ceremony ceremony_id kind now in
  let! cer := lift (ok_or found InvalidState) in
  let! credential := lift (engine_finish_registration response (Ceremony.state cer)) in
  let! user_id := lift (ok_or (Ceremony.user_id cer) InvalidState) in
  complete_registration (Ceremony.id cer) (Ceremony.capability_hash cer) credential now
    (AuditEvent.mk "passkey.registered" (Some user_id) (Some user_id)
       (Object [("ceremony_kind", ceremony_kind_value kind)])).

Definition start_authentication (now : DateTime) : M W AuthError (Uuid * Value) :=
  let! seed := engine_seed in
  let! (challenge, state) := lift (engine_start_authentication seed) in
  let! id := new_v4 in
  do! insert_ceremony (Ceremony.mk id Authentication None None state
        (now + AuthConfig.ceremony_ttl config)) in
  ret (id, challenge).

Definition finish_authentication (ceremony_id : Uuid) (response : Value) (now : DateTime)
    : M W AuthError (SessionGrant * User) :=
  let! found := ceremony ceremony_id Authentication now in
  let! cer := lift (ok_or found InvalidState) in
  let! handle := lift (engine_authentication_user_handle response) in
  let! found := user_by_handle handle in
  let! user := lift (ok_or (filter_enabled found) Unauthenticated) in
  let! credentials := credentials_for_user (User.id user) in
  let! verification := lift (engine_finish_authentication response (Ceremony.state cer) credentials) in
  let! token := generate in
  let! csrf := generate in
  let! session_id := new_v4 in
  let record := SessionRecord.mk session_id (User.id user) (SecretToken.hash token)
    (SecretToken.hash csrf) (User.auth_epoch user) (now + AuthConfig.session_idle_ttl config)
    (now + AuthConfig.session_absolute_ttl config) in
  do! complete_authentication ceremony_id verification record now
        (AuditEvent.mk "session.created" (Some (User.id user)) (Some (User.id user)) (Object [])) in
  ret (SessionGrant.mk token csrf record, user).

Definition authenticate_session (token : SecretToken) (csrf : option SecretToken) (now : DateTime)
    : M W AuthError SessionPrincipal :=
  let! found := session (SecretToken.hash token) now (now + AuthConfig.session_idle_ttl config) in
  let! principal := lift (ok_or found Unauthenticated) in
  match csrf with
  | Some csrf =>
      if negb (bool_decide (SecretToken.hash csrf = SessionPrincipal.csrf_hash principal))
      then throw Forbidden else ret principal
  | None => ret principal
  end.

Definition issue_session_csrf (token : SecretToken) (now : DateTime)
    : M W AuthError (SessionPrincipal * SecretToken) :=
  let! csrf := generate in
  let! found := rotate_session_csrf (SecretToken.hash token) (SecretToken.hash csrf) now
                  (now + AuthConfig.session_idle_ttl config) in
  let! principal := lift (ok_or found Unauthenticated) in
  ret (principal, csrf).

Definition logout (token : SecretToken) : M W AuthError unit := delete_session (SecretToken.hash token).

Definition request_recovery (user_id : UserId) (now : DateTime) : M W AuthError RecoveryRequest :=
  create_recovery user_id now.

(** The service's [pending_recoveries] and [approve_recovery] are those of the store. *)
Definition service_pending_recoveries : M W AuthError (list RecoveryRequest) := pending_recoveries.
Definition service_approve_recovery (recovery_id : Uuid) (operator_id : UserId) (now : DateTime)
    : M W AuthError unit := approve_recovery recovery_id operator_id now.

Definition service_issue_recovery_setup (recovery_id : Uuid) (operator_id user_id : UserId)
    (now : DateTime) : M W AuthError SecretToken :=
  let! token := generate in
  let! id := new_v4 in
  do! issue_recovery_setup recovery_id
        (Capability.mk id user_id RecoverySetup (SecretToken.hash token)
           (now + AuthConfig.capability_ttl config)) operator_id now in
  ret token.

Definition approve_user_and_issue_setup (operator_id user_id : UserId) (email display_name : string)
    (now : DateTime) : M W AuthError SecretToken :=
  let email := trim email in
  let display_name := trim display_name in
  do! (if account_input_invalid email display_name then throw InvalidInput else ret tt) in
  let! existing := user_by_id user_id in
  do! (if negb (is_null existing) then throw Conflict else ret tt) in
  let! token := generate in
  let! handle := new_v4 in
  let user := User.mk user_id handle email display_name RoleUser true 1 in
  let! id := new_v4 in
  do! approve_user_with_setup user
        (Capability.mk id user_id Setup (SecretToken.hash token)
           (now + AuthConfig.capability_ttl config)) operator_id now in
  ret token.

(** The two halves of [seed_operator], on the trimmed inputs: the checks, and the insertion. *)
Definition seed_operator_checks (user_id : UserId) (email display_name : string) : M W AuthError unit :=
  do! (if account_input_invalid email display_name then throw InvalidInput else ret tt) in
  let! existing := user_by_id user_id in
  do! (if negb (is_null existing) then throw Conflict else ret tt) in
  let! exists_ := operator_exists in
  if exists_ then throw Conflict else ret tt.

Definition seed_operator_insert (user_id : UserId) (email display_name : string) (now : DateTime)
    : M W AuthError unit :=
  let! handle := new_v4 in
  insert_user (User.mk user_id handle email display_name RoleOperator true 1) now
    (AuditEvent.mk "operator.seeded" None (Some user_id) (Object [])).

Definition seed_operator (user_id : UserId) (email display_name : string) (now : DateTime)
    : M W AuthError unit :=
  let email := trim email in
  let display_name := trim display_name in
  do! seed_operator_checks user_id email display_name in
  seed_operator_insert user_id email display_name now.

(** [len] counts bytes. *)
Definition service_rotate_all_auth_epochs (now : DateTime) (reason : string) : M W AuthError Z :=
  do! (if len (trim reason) <? 12 then throw InvalidInput else ret tt) in
  rotate_all_auth_epochs now (trim reason).

End service.

(** ** The service over the PostgreSQL store *)

Section reads.

Lemma user_row_account d id row u :
  db_wf d → human_users d !! id = Some row → UserRow.try_into (UserRow.columns (id, row)) = Ok u →
  u = account_of id row.
Proof. intros Hd Hk Hu. rewrite (user_row_converts d) in Hu by done. by injection Hu. Qed.

Lemma user_by_handle_Ok handle w u w' :
  db_wf (db w) → PgAuthStore.user_by_handle handle w = (Ok (Some u), w') →
  db w' = db w ∧ ∃ id row, human_users (db w) !! id = Some row ∧ u = account_of id row ∧
    HumanUser.webauthn_handle row = handle.
Proof.
  intros Hw Hc. unfold PgAuthStore.user_by_handle in Hc. apply bind_Ok in Hc as (r & w1 & Hr & Hc).
  apply pool_select_Ok in Hr as [-> Hd]. unfold lift in Hc. injection Hc as Hc <-.
  split; [done|]. destruct (head _) as [[k row]|] eqn:Hh; [|done]. simpl in Hc.
  apply head_rows_where in Hh as [Hk HP]. apply Z.eqb_eq in HP.
  destruct (UserRow.try_into _) as [u'|] eqn:Ht; simplify_eq.
  exists k, row. split; [done|]. split; [by eapply user_row_account|done].
Qed.

Lemma ceremony_state_Ok id kind now w c w' :
  PgAuthStore.ceremony id kind now w = (Ok (Some c), w') →
  ∃ row, auth_ceremonies (db w) !! id = Some row ∧ AuthCeremony.kind row = ceremony_name kind ∧
    AuthCeremony.consumed_at row = None ∧ now < AuthCeremony.expires_at row ∧
    Ceremony.state c = AuthCeremony.state row.
Proof.
  intros Hc. unfold PgAuthStore.ceremony in Hc. apply bind_Ok in Hc as (r & w1 & Hr & Hc).
  apply pool_select_Ok in Hr as [-> _]. unfold lift in Hc. injection Hc as Hc _.
  destruct (head _) as [[k row]|] eqn:Hh; [|done]. simpl in Hc.
  apply head_rows_where in Hh as [Hk HP]. unfold live_ceremony in HP.
  destruct (CeremonyRow.try_into _) as [c'|] eqn:Ht; simplify_eq.
  unfold CeremonyRow.try_into in Ht. inv_ok. exists row. bool_prop. subst.
  split_and!; try done. by apply is_null_true.
Qed.

(** The credentials found for an account are its own, active ones. *)
Lemma credentials_for_user_Ok id w l w' :
  PgAuthStore.credentials_for_user id w = (Ok l, w') →
  ∀ sc, sc ∈ l → ∃ k cr, passkey_credentials (db w) !! k = Some cr ∧
    PasskeyCredential.user_id cr = UserId.as_str id ∧ PasskeyCredential.revoked_at cr = None ∧
    StoredCredential.public_data sc = PasskeyCredential.public_data cr.
Proof.
  intros Hc sc Hsc. unfold PgAuthStore.credentials_for_user in Hc. apply bind_Ok in Hc as (r & w1 & Hr & Hc).
  apply pool_select_Ok in Hr as [-> _]. unfold lift in Hc. injection Hc as Hc _.
  apply (collect_elem _ _ _ Hc) in Hsc. apply list_elem_of_fmap in Hsc as (row & Hrow & Hin).
  apply list_elem_of_fmap in Hin as ([k cr] & -> & Hin). rewrite order_by_perm in Hin.
  apply elem_of_rows_where in Hin as [Hk HP]. simpl in HP. bool_prop.
  symmetry in Hrow. unfold CredentialRow.try_into in Hrow. inv_ok.
  exists k, cr. split_and!; try done. by apply is_null_true.
Qed.

Lemma readonly_Ok {A} (c : M World AuthError A) w a w' : readonly c → c w = (Ok a, w') → db w' = db w.
Proof. intros Hc Hr. by destruct (Hc _ _ _ Hr). Qed.

Lemma readonly_credentials id : readonly (PgAuthStore.credentials_for_user id).
Proof. apply readonly_bind; [apply readonly_select|intros ?; apply readonly_lift]. Qed.
Lemma readonly_ceremony id kind now : readonly (PgAuthStore.ceremony id kind now).
Proof. apply readonly_bind; [apply readonly_select|intros ?; apply readonly_lift]. Qed.
Lemma readonly_user_by_id id : readonly (PgAuthStore.user_by_id id).
Proof. apply readonly_bind; [apply readonly_select|intros ?; apply readonly_lift]. Qed.
Lemma readonly_capability hash purpose now : readonly (PgAuthStore.capability hash purpose now).
Proof. apply readonly_bind; [apply readonly_select|intros ?; apply readonly_lift]. Qed.
Lemma readonly_operator_exists : readonly PgAuthStore.operator_exists.
Proof. apply readonly_select. Qed.

(** A live session is found, and it is the only one with its token. *)
Lemma session_accepts hash now idle w k s u :
  db_wf (db w) → calm w → auth_sessions (db w) !! k = Some s →
  live_session (db w) hash now k s = true → human_users (db w) !! AuthSession.user_id s = Some u →
  ∃ w', PgAuthStore.session hash now idle w = (Ok (Some (principal_of k s u)), w').
Proof.
  intros Hw Hc Hk Hl Hu. destruct (session_calm w Hc hash now idle Hw) as (r & w' & Hr).
  exists w'. rewrite Hr. pose proof (session_Ok _ _ _ _ _ _ Hw Hr) as Hs. destruct r as [p|].
  - destruct Hs as (k' & s' & u' & Hk' & Hl' & Hu' & -> & _).
    assert (k' = k) as ->.
    { unfold live_session in Hl, Hl'. bool_prop.
      apply (sessions_hash _ (wf_sessions _ Hw) k' k s' s); [done..|congruence]. }
    rewrite Hk in Hk'. injection Hk' as <-. rewrite Hu in Hu'. by injection Hu' as <-.
  - destruct Hs as [_ Hno]. by rewrite (Hno _ _ Hk) in Hl.
Qed.

End reads.

Section pg_service.
Context `{Entropy, CeremonyEngine, Sha256} (int4_as_i64 : bool) (config : AuthConfig).

#[local] Instance store : AuthStore World := pg_auth_store int4_as_i64.

(** Unwinds a successful service call into its store and engine calls: the calls to the store are
    those of [PgAuthStore], the others are resolved. *)
Ltac service_unwind :=
  repeat match goal with
  | H : bind _ _ _ = (Ok _, _) |- _ =>
      let H1 := fresh "Hcall" in apply bind_Ok in H as (? & ? & H1 & H)
  | H : lift _ _ = (Ok _, _) |- _ => unfold lift in H; injection H as H <-
  | H : ret _ _ = (Ok _, _) |- _ => unfold ret in H; injection H; clear H; intros
  | H : (if negb _ then throw _ else ret tt) _ = (Ok _, _) |- _ => apply refuse_Ok in H as [? ->]
  | H : new_v4 _ = (Ok _, _) |- _ => unfold new_v4, world_randomness, draw in H; injection H as <- <-
  | H : generate _ = (Ok _, _) |- _ => unfold generate, world_randomness, draw in H; injection H as <- <-
  | H : engine_seed _ = (Ok _, _) |- _ => unfold engine_seed, world_randomness, draw in H; injection H as <- <-
  | H : ok_or _ _ = Ok _ |- _ => apply ok_or_Ok in H
  end; subst;
  cbn [user_by_id user_by_handle credentials_for_user operator_without_credential operator_exists
       operator_recovery_window capability insert_user approve_user_with_setup insert_ceremony
       ceremony complete_registration complete_authentication session rotate_session_csrf
       delete_session issue_recovery_setup store pg_auth_store db server_now verdicts drawn] in *.

(** What a successful login did: the account it logged in, and its session. *)
Lemma finish_authentication_Ok ceremony_id response now w grant user w1 :
  db_wf (db w) →
  finish_authentication config ceremony_id response now w = (Ok (grant, user), w1) →
  let record := SessionGrant.record grant in
  ∃ id row,
    human_users (db w) !! id = Some row ∧ HumanUser.enabled row = true ∧ user = account_of id row ∧
    engine_authentication_user_handle response = Ok (HumanUser.webauthn_handle row) ∧
    human_users (db w1) = human_users (db w) ∧
    SessionRecord.token_hash record = SecretToken.hash (SessionGrant.token grant) ∧
    auth_sessions (db w1) !! SessionRecord.id record = Some (AuthSession.mk id
      (SecretHash.as_bytes (SecretToken.hash (SessionGrant.token grant)))
      (SecretHash.as_bytes (SecretToken.hash (SessionGrant.csrf grant)))
      (HumanUser.auth_epoch row) (now + AuthConfig.session_idle_ttl config)
      (now + AuthConfig.session_absolute_ttl config) now now None).
Proof.
  intros Hw Hf. unfold finish_authentication in Hf. service_unwind.
  match goal with H : PgAuthStore.ceremony _ _ _ _ = _ |- _ =>
    apply readonly_Ok in H as D1; [|apply readonly_ceremony] end.
  match goal with H : filter_enabled ?o = _ |- _ => destruct o as [u|]; [|done]; simpl in H;
    destruct (User.enabled u) eqn:Hen; simplify_eq end.
  match goal with H : PgAuthStore.user_by_handle _ _ = _ |- _ =>
    apply user_by_handle_Ok in H as (D2 & id & row & Hrow & -> & Hhandle); [|by rewrite D1] end.
  match goal with H : PgAuthStore.credentials_for_user _ _ = _ |- _ =>
    apply readonly_Ok in H as D3; [|apply readonly_credentials] end.
  match goal with H : PgAuthStore.complete_authentication _ _ _ _ _ _ = (Ok ?u, _) |- _ =>
    destruct u; apply complete_authentication_Ok in H as (c & _ & _ & _ & Husers & _ & _ & Hses & _) end.
  simpl in *. exists id, row. rewrite D3, D2, D1 in *.
  split_and!; try done; [congruence|]. by rewrite Hses, lookup_insert_eq.
Qed.

(** Every operation of the service is safe, as the store's are. *)
Ltac service_safe :=
  cbn [user_by_id user_by_handle credentials_for_user operator_without_credential operator_exists
       operator_recovery_window capability insert_user approve_user_with_setup insert_ceremony
       ceremony complete_registration complete_authentication session rotate_session_csrf
       delete_session create_recovery pending_recoveries approve_recovery issue_recovery_setup
       rotate_all_auth_epochs store pg_auth_store];
  unfold new_v4, generate, engine_seed, world_randomness; autounfold with store_ops; follow.

Lemma finish_authentication_safe ceremony_id response now :
  safe (finish_authentication config ceremony_id response now).
Proof. unfold finish_authentication. service_safe. Qed.

Lemma authenticate_session_safe token csrf now : safe (authenticate_session config token csrf now).
Proof. unfold authenticate_session. service_safe. Qed.

Lemma issue_session_csrf_safe token now : safe (issue_session_csrf config token now).
Proof. unfold issue_session_csrf. service_safe. Qed.

Lemma approve_user_safe operator_id user_id email display_name now :
  UserId.valid user_id →
  safe (approve_user_and_issue_setup config operator_id user_id email display_name now).
Proof. intros Hv. unfold approve_user_and_issue_setup. service_safe. Qed.

Lemma start_setup_registration_safe token purpose now :
  safe (start_setup_registration config token purpose now).
Proof. unfold start_setup_registration. service_safe. Qed.

Lemma start_operator_bootstrap_safe now : safe (start_operator_bootstrap config now).
Proof. unfold start_operator_bootstrap. service_safe. Qed.

Lemma finish_registration_safe id kind response now : safe (finish_registration id kind response now).
Proof. unfold finish_registration. service_safe. Qed.

Lemma start_authentication_safe now : safe (start_authentication config now).
Proof. unfold start_authentication. service_safe. Qed.

Lemma request_recovery_safe user_id now : safe (request_recovery user_id now).
Proof. unfold request_recovery. service_safe. Qed.

Lemma approve_recovery_safe id operator_id now : safe (service_approve_recovery id operator_id now).
Proof. unfold service_approve_recovery. service_safe. Qed.

(** What the engine was asked and answered in a successful login. *)
Lemma finish_authentication_engine ceremony_id response now w grant user w1 :
  db_wf (db w) →
  finish_authentication config ceremony_id response now w = (Ok (grant, user), w1) →
  let active k cr := passkey_credentials (db w) !! k = Some cr ∧
    PasskeyCredential.user_id cr = UserId.as_str (User.id user) ∧
    PasskeyCredential.revoked_at cr = None in
  ∃ c credentials v,
    auth_ceremonies (db w) !! ceremony_id = Some c ∧ AuthCeremony.kind c = "authentication" ∧
    AuthCeremony.consumed_at c = None ∧ now < AuthCeremony.expires_at c ∧
    engine_authentication_user_handle response = Ok (User.webauthn_handle user) ∧
    engine_finish_authentication response (AuthCeremony.state c) credentials = Ok v ∧
    (∀ sc, sc ∈ credentials → ∃ k cr, active k cr ∧
       StoredCredential.public_data sc = PasskeyCredential.public_data cr) ∧
    ∃ k cr, active k cr ∧
      PasskeyCredential.credential_id cr = AuthenticationVerification.credential_id v.
Proof.
  intros Hw Hf active. unfold finish_authentication in Hf. service_unwind.
  match goal with H : PgAuthStore.ceremony _ _ _ _ = _ |- _ =>
    apply readonly_Ok in H as D1; [|apply readonly_ceremony];
    apply ceremony_state_Ok in H as (row & Hrow & Hkind & Hn & Hlive & Hst) end.
  match goal with H : filter_enabled ?o = _ |- _ => destruct o as [u|]; [|done]; simpl in H;
    destruct (User.enabled u) eqn:Hen; simplify_eq end.
  match goal with H : PgAuthStore.user_by_handle _ _ = _ |- _ =>
    apply user_by_handle_Ok in H as (D2 & id & urow & Hurow & -> & Hhandle); [|by rewrite D1] end.
  match goal with H : PgAuthStore.credentials_for_user _ _ = _ |- _ =>
    apply readonly_Ok in H as D3; [|apply readonly_credentials];
    pose proof (credentials_for_user_Ok _ _ _ _ H) as Hcreds end.
  match goal with H : PgAuthStore.complete_authentication _ _ _ _ _ _ = (Ok ?u, _) |- _ =>
    destruct u; apply complete_authentication_Ok in H as (c & _ & _ & (k & cr & Hk & Hus & Hid & Hrev) & _) end.
  simpl in *. rewrite D3, D2, D1 in *. rewrite Hst in *.
  exists row. eexists _, _. do 4 (split; [done|]). split; [simpl; congruence|].
  split; [eassumption|]. split.
  - intros sc Hsc. apply Hcreds in Hsc as (k' & cr' & Hk' & Hu' & Hr' & Hp'). by exists k', cr'.
  - by exists k, cr.
Qed.

(** ** Properties of sessions *)

(** C24: [authenticate_session], exactly: over a well-formed database and without faults it accepts a
    token and an anti-forgery token exactly when a live session has the token's hash and, if
    one is presented, the anti-forgery token hashes to the session's; a wrong one is refused
    as forbidden, and a token without live session as unauthenticated. *)
Theorem authenticate_session_exact token csrf now w :
  db_wf (db w) → calm w →
  let hash := SecretToken.hash token in
  match authenticate_session config token csrf now w with
  | (Ok p, _) =>
      ∃ k s u, auth_sessions (db w) !! k = Some s ∧ live_session (db w) hash now k s = true ∧
        human_users (db w) !! AuthSession.user_id s = Some u ∧ p = principal_of k s u ∧
        ∀ c, csrf = Some c → SecretHash.as_bytes (SecretToken.hash c) = AuthSession.csrf_hash s
  | (Err Forbidden, _) =>
      ∃ k s c, auth_sessions (db w) !! k = Some s ∧ live_session (db w) hash now k s = true ∧
        csrf = Some c ∧ SecretHash.as_bytes (SecretToken.hash c) ≠ AuthSession.csrf_hash s
  | (Err Unauthenticated, _) =>
      ∀ k s, auth_sessions (db w) !! k = Some s → live_session (db w) hash now k s = false
  | (Err _, _) => False
  end.
Proof.
  intros Hw Hc hash. unfold authenticate_session, bind, lift. simpl.
  destruct (session_calm w Hc hash now (now + AuthConfig.session_idle_ttl config) Hw) as (r & w' & Hr).
  fold hash. rewrite Hr. pose proof (session_Ok _ _ _ _ _ _ Hw Hr) as Hs. destruct r as [p|]; simpl; [|apply Hs].
  destruct Hs as (k & s & u & Hk & Hl & Hu & -> & _). destruct csrf as [c|]; simpl.
  - case_bool_decide as Heq; simpl.
    + exists k, s, u. split_and!; try done. intros c' [= <-]. by apply (f_equal SecretHash.as_bytes) in Heq.
    + exists k, s, c. split_and!; try done. intros He. apply Heq.
      unfold SecretToken.hash in *. simpl in *. congruence.
  - by exists k, s, u.
Qed.

(** What the tokens of a login are accepted for, at any instant before its expiries, in any world
    with the database the login left. *)
Lemma login_accepts ceremony_id response now w grant user w1 now' w2 :
  db_wf (db w) → finish_authentication config ceremony_id response now w = (Ok (grant, user), w1) →
  db w2 = db w1 → calm w2 → now' < now + AuthConfig.session_idle_ttl config →
  now' < now + AuthConfig.session_absolute_ttl config →
  ∃ p w3, SessionPrincipal.user p = user ∧ User.enabled user = true ∧
    SessionPrincipal.session_id p = SessionRecord.id (SessionGrant.record grant) ∧
    ∀ csrf, authenticate_session config (SessionGrant.token grant) csrf now' w2 =
      (match csrf with
       | Some c => if bool_decide (SecretToken.hash c = SecretToken.hash (SessionGrant.csrf grant))
                   then Ok p else Err Forbidden
       | None => Ok p
       end, w3).
Proof.
  intros Hw Hf Hd Hc Hidle Habs.
  pose proof (step_wf _ _ (finish_authentication_safe _ _ _ _ _ _ Hf Hw)) as Hw1.
  apply finish_authentication_Ok in Hf as (id & row & Hrow & Hen & -> & _ & Husers & _ & Hses); [|done].
  rewrite <- Hd in *.
  destruct (session_accepts (SecretToken.hash (SessionGrant.token grant)) now'
    (now' + AuthConfig.session_idle_ttl config) w2 _ _ row Hw1 Hc Hses) as (w3 & Hr).
  { unfold live_session. simpl. rewrite Husers, Hrow, Hen, bool_decide_true by done. simpl.
    rewrite (proj2 (Z.ltb_lt _ _) Hidle), (proj2 (Z.ltb_lt _ _) Habs). simpl. apply Z.eqb_refl. }
  { by rewrite Husers. }
  match type of Hr with _ = (Ok (Some ?p), _) => exists p, w3 end. split_and!; try done.
  intros csrf. unfold authenticate_session, bind, lift. simpl. rewrite Hr.
  destruct csrf as [c|]; simpl; [|done].
  replace (SecretHash.mk _) with (SecretToken.hash (SessionGrant.csrf grant)) by done.
  by case_bool_decide.
Qed.

(** A login works: after a successful login, under whatever faults, the granted token
    with the granted anti-forgery token authenticates the account that logged in, at its
    current data, at every instant before the idle and the absolute expiry, and any
    anti-forgery token with another hash is forbidden. *)
Theorem login_authenticates ceremony_id response now w grant user w1 now' :
  db_wf (db w) → finish_authentication config ceremony_id response now w = (Ok (grant, user), w1) →
  calm w1 → now' < now + AuthConfig.session_idle_ttl config →
  now' < now + AuthConfig.session_absolute_ttl config →
  (∃ p w2, authenticate_session config (SessionGrant.token grant) (Some (SessionGrant.csrf grant)) now' w1
             = (Ok p, w2) ∧
     SessionPrincipal.user p = user ∧ User.enabled user = true ∧
     SessionPrincipal.session_id p = SessionRecord.id (SessionGrant.record grant)) ∧
  ∀ c, SecretToken.hash c ≠ SecretToken.hash (SessionGrant.csrf grant) →
    ∃ w2, authenticate_session config (SessionGrant.token grant) (Some c) now' w1 = (Err Forbidden, w2).
Proof.
  intros Hw Hf Hc Hidle Habs.
  destruct (login_accepts _ _ _ _ _ _ _ _ w1 Hw Hf eq_refl Hc Hidle Habs) as (p & w2 & Hu & He & Hid & Hacc). split.
  - exists p, w2. rewrite Hacc, bool_decide_true by done. by split_and!.
  - intros c Hne. exists w2. by rewrite Hacc, bool_decide_false.
Qed.

(** Renewing the anti-forgery token replaces it: after a renewal, under whatever faults, the
    session's token with the new anti-forgery token is accepted until the idle expiry the
    renewal set and the absolute expiry, for the same session and account, and every
    anti-forgery token with another hash, the previous one included, is forbidden. *)
Theorem csrf_renewal_replaces token now w p csrf w1 now' :
  db_wf (db w) → issue_session_csrf config token now w = (Ok (p, csrf), w1) →
  calm w1 → now' < now + AuthConfig.session_idle_ttl config →
  now' < SessionPrincipal.absolute_expires_at p →
  (∃ p' w2, authenticate_session config token (Some csrf) now' w1 = (Ok p', w2) ∧
     SessionPrincipal.session_id p' = SessionPrincipal.session_id p ∧
     SessionPrincipal.user p' = SessionPrincipal.user p) ∧
  ∀ c, SecretToken.hash c ≠ SecretToken.hash csrf →
    ∃ w2, authenticate_session config token (Some c) now' w1 = (Err Forbidden, w2).
Proof.
  intros Hw Hi Hc Hidle Habs.
  pose proof (step_wf _ _ (issue_session_csrf_safe _ _ _ _ _ Hi Hw)) as Hw1.
  unfold issue_session_csrf in Hi. service_unwind.
  match goal with H : PgAuthStore.rotate_session_csrf _ _ _ _ _ = _ |- _ =>
    apply rotate_session_csrf_Ok in H as (k & s & u & Hk & Hl & Hu & -> & Hd); [|done] end.
  simpl in *. unfold live_session in Hl. rewrite Hu in Hl. bool_prop.
  match type of Hd with _ = set_sessions (update_where _ (set_seen ?c ?i ?n) _) _ =>
    assert (auth_sessions (db w1) !! k = Some (set_seen c i n s)) as Hk1
      by (rewrite Hd; simpl; by rewrite lookup_update_where, Hk; simpl; rewrite Z.eqb_refl) end.
  assert (human_users (db w1) = human_users (db w)) as Husers by by rewrite Hd.
  destruct (session_accepts (SecretToken.hash token) now' (now' + AuthConfig.session_idle_ttl config)
    w1 _ _ u Hw1 Hc Hk1) as (w2 & Hr).
  { unfold live_session. simpl in *. rewrite Husers, Hu. rewrite bool_decide_true by done.
    repeat (rewrite andb_true_iff; split); try lia; try done. }
  { simpl. by rewrite Husers. }
  unfold authenticate_session, bind, lift. simpl. rewrite Hr. simpl. split.
  - eexists _, w2. rewrite bool_decide_true by done. simpl. by split_and!.
  - intros c Hne. exists w2. case_bool_decide as He; [|done]. destruct Hne. exact He.
Qed.

(** ** Properties of accounts *)

Lemma with_db_same w : with_db (db w) w = w.
Proof. by destruct w. Qed.

Lemma user_by_id_calm id w :
  db_wf (db w) → calm w →
  PgAuthStore.user_by_id id w =
    (Ok (account_of (UserId.as_str id) <$> human_users (db w) !! UserId.as_str id), w).
Proof.
  intros Hw Hc. unfold PgAuthStore.user_by_id, bind, store_err. rewrite calm_pool by done. simpl.
  rewrite with_db_same. unfold lift.
  destruct (human_users (db w) !! UserId.as_str id) as [u|] eqn:Hu; [|done].
  simpl. by rewrite (user_row_converts (db w)) by done.
Qed.

Lemma operator_exists_calm w :
  calm w → PgAuthStore.operator_exists w =
    (Ok (exists_row (λ _ u, row_is_operator u) (human_users (db w))), w).
Proof.
  intros Hc. unfold PgAuthStore.operator_exists, store_err. rewrite calm_pool by done. simpl.
  by rewrite with_db_same.
Qed.

Lemma insert_user_calm user now audit w :
  calm w → PgAuthStore.insert_user user now audit w =
    match insert_user_sql user now (server_now w) (db w) with
    | Err e => (Err (conflict_on_constraint (Database e)), w)
    | Ok (_, d) =>
        match insert_auth_audit_event (audit_row audit now) d with
        | Err _ => (Err Store, w)
        | Ok (_, d') => (Ok tt, with_db d' w)
        end
    end.
Proof.
  intros Hc. unfold PgAuthStore.insert_user. rewrite calm_transaction by done.
  unfold bind at 1. rewrite calm_execute by done.
  destruct (insert_user_sql _ _ _ _) as [[u d]|e]; [|done].
  unfold bind, insert_audit, store_err. rewrite calm_execute by done. unfold audit_row.
  destruct (insert_auth_audit_event _ _) as [[u' d']|e']; [|done]. by rewrite calm_commit.
Qed.

(** Some column of a new account is already taken. *)
Definition account_taken (user_id email : string) (handle : Uuid) (d : Db) : Prop :=
  is_Some (human_users d !! user_id) ∨
  ∃ k u, human_users d !! k = Some u ∧ (HumanUser.webauthn_handle u = handle ∨ HumanUser.email u = email).

Lemma insert_user_sql_cases user now server_now d :
  0 < User.auth_epoch user →
  let id := UserId.as_str (User.id user) in
  let row := HumanUser.mk (User.webauthn_handle user) (User.email user) (User.display_name user)
       (role_name (User.role user)) (User.enabled user) (User.auth_epoch user) now now in
  (insert_user_sql user now server_now d = Ok (tt, set_users (<[id := row]> (human_users d)) d) ∧
     ¬ account_taken id (User.email user) (User.webauthn_handle user) d) ∨
  (insert_user_sql user now server_now d = Err UniqueViolation ∧
     account_taken id (User.email user) (User.webauthn_handle user) d).
Proof.
  intros Hep id row. unfold insert_user_sql, insert_human_user. simpl.
  assert (bool_decide (role_name (User.role user) = "user")
    || bool_decide (role_name (User.role user) = "operator") = true) as -> by by destruct (User.role user).
  rewrite (proj2 (Z.ltb_lt _ _) Hep). simpl. unfold account_taken, user_exists. fold id.
  destruct (bool_decide (is_Some _) || _ || _) eqn:Hb; [right|left]; (split; [done|]).
  - rewrite !orb_true_iff, bool_decide_eq_true, !exists_row_true in Hb.
    setoid_rewrite bool_decide_eq_true in Hb. naive_solver.
  - apply orb_false_iff in Hb as [[Hn%bool_decide_eq_false Hh]%orb_false_iff He].
    rewrite exists_field_false in Hh. rewrite exists_field_false in He. naive_solver.
Qed.

Lemma seed_operator_checks_calm user_id email display_name w :
  db_wf (db w) → calm w →
  seed_operator_checks user_id email display_name w =
    (if account_input_invalid email display_name then Err InvalidInput
     else if bool_decide (is_Some (human_users (db w) !! UserId.as_str user_id))
          || exists_row (λ _ u, row_is_operator u) (human_users (db w))
     then Err Conflict else Ok tt, w).
Proof.
  intros Hw Hc. unfold seed_operator_checks, bind. destruct (account_input_invalid _ _); [done|]. simpl.
  rewrite user_by_id_calm by done. destruct (human_users (db w) !! UserId.as_str user_id); simpl; [done|].
  rewrite operator_exists_calm by done. by destruct (exists_row _ _).
Qed.

(** Seeding the operator, exactly: without faults it refuses invalid input, conflicts when any
    operator exists or the identifier, address or handle is taken, leaves the database
    unchanged in every such case, and otherwise adds one enabled operator at epoch 1 with the
    trimmed address and name, and its audit event; it never fails otherwise. *)
Theorem seed_operator_exact user_id email display_name now w :
  db_wf (db w) → calm w →
  let invalid := account_input_invalid (trim email) (trim display_name) in
  let operator := exists_row (λ _ u, row_is_operator u) (human_users (db w)) in
  let taken := account_taken (UserId.as_str user_id) (trim email) (uuid_at (drawn w)) (db w) in
  match seed_operator user_id email display_name now w with
  | (Ok _, w') =>
      invalid = false ∧ operator = false ∧ ¬ taken ∧
      db w' = set_audit (auth_audit_events (db w) ++
          [AuditRow.mk now "operator.seeded" None (Some (UserId.as_str user_id)) (Object [])])
        (set_users (<[UserId.as_str user_id := HumanUser.mk (uuid_at (drawn w)) (trim email)
          (trim display_name) "operator" true 1 now now]> (human_users (db w))) (db w))
  | (Err InvalidInput, w') => invalid = true ∧ db w' = db w
  | (Err Conflict, w') => invalid = false ∧ (operator = true ∨ taken) ∧ db w' = db w
  | (Err _, _) => False
  end.
Proof.
  intros Hw Hc invalid operator taken. unfold seed_operator, bind at 1.
  rewrite seed_operator_checks_calm by done. fold invalid operator.
  destruct invalid; [done|].
  destruct (bool_decide (is_Some (human_users (db w) !! UserId.as_str user_id))) eqn:Hu; simpl.
  { apply bool_decide_eq_true in Hu. split_and!; try done. right. by left. }
  destruct operator; [by split_and!; try left|].
  unfold seed_operator_insert, bind, draw. simpl. unfold draw. set (w1 := mkWorld _ _ _ _).
  rewrite insert_user_calm by done. set (user := User.mk _ _ _ _ _ _ _).
  destruct (insert_user_sql_cases user now (server_now w1) (db w1) ltac:(done)) as [[-> Hnt]|[-> Ht]];
    simpl; [|by split_and!; try right].
  unfold insert_auth_audit_event. simpl. unfold user_exists. simpl. rewrite lookup_insert_eq. simpl.
  split_and!; done.
Qed.

Lemma seed_operator_safe user_id email display_name now :
  UserId.valid user_id → safe (seed_operator user_id email display_name now).
Proof.
  intros Hv. unfold seed_operator, seed_operator_checks, seed_operator_insert. service_safe.
Qed.

(** The row the [INSERT INTO human_users] writes. *)
Definition account_row (user : User) (now : DateTime) : HumanUser.t :=
  HumanUser.mk (User.webauthn_handle user) (User.email user) (User.display_name user)
    (role_name (User.role user)) (User.enabled user) (User.auth_epoch user) now now.

Lemma insert_user_Ok user now audit w w' :
  PgAuthStore.insert_user user now audit w = (Ok tt, w') →
  human_users (db w) !! UserId.as_str (User.id user) = None ∧
  human_users (db w') = <[UserId.as_str (User.id user) := account_row user now]> (human_users (db w)).
Proof.
  intros Hi. unfold PgAuthStore.insert_user in Hi. unwind.
  match goal with H : insert_user_sql _ _ _ _ = _ |- _ =>
    unfold insert_user_sql, insert_human_user in H; revert H; pass_guard Hg; pass_guard Hu; intros [= Hd] end.
  match goal with H : insert_auth_audit_event _ _ = _ |- _ => apply insert_audit_event_Ok in H as Hd2 end.
  apply orb_false_iff in Hu as [[Hn%key_free _]%orb_false_iff _]. split; [done|].
  match goal with H : db (world _) = working _ |- _ => rewrite H end.
  by rewrite Hd2, <- Hd.
Qed.

(** C38: the checks of a seeding are not atomic with its insertion, and the schema does not limit the
    operators to one: of two seedings that both pass their checks in one state, the second to
    insert still succeeds after the first, and two operators remain. *)
Theorem concurrent_seeding_two_operators id1 id2 email1 email2 name1 name2 now1 now2 w w1 :
  db_wf (db w) → calm w → id1 ≠ id2 →
  seed_operator_checks id1 email1 name1 w = (Ok tt, w) →
  seed_operator_checks id2 email2 name2 w = (Ok tt, w) →
  seed_operator_insert id2 email2 name2 now2 w = (Ok tt, w1) → calm w1 →
  email1 ≠ email2 → (∀ k u, human_users (db w) !! k = Some u → HumanUser.email u ≠ email1) →
  (∀ k u, human_users (db w1) !! k = Some u → HumanUser.webauthn_handle u ≠ uuid_at (drawn w1)) →
  ∃ w2, seed_operator_insert id1 email1 name1 now1 w1 = (Ok tt, w2) ∧
    ∀ id, id = id1 ∨ id = id2 →
      ∃ u, human_users (db w2) !! UserId.as_str id = Some u ∧ row_is_operator u = true.
Proof.
  intros Hw Hc Hne Hch1 _ Hins Hc1 Hem Hfree Hhandle.
  rewrite seed_operator_checks_calm in Hch1 by done. destruct (account_input_invalid _ _); [done|].
  destruct (bool_decide (is_Some (human_users (db w) !! UserId.as_str id1))) eqn:Hid; [done|].
  apply bool_decide_eq_false, eq_None_not_Some in Hid.
  assert (UserId.as_str id1 ≠ UserId.as_str id2) as Hne'.
  { intros He. apply Hne. by destruct id1, id2; simpl in *; subst. }
  unfold seed_operator_insert in Hins. service_unwind.
  match goal with H : PgAuthStore.insert_user _ _ _ _ = _ |- _ => apply insert_user_Ok in H as [_ Hus] end.
  simpl in Hus. unfold seed_operator_insert, bind. simpl. unfold draw. set (wd := mkWorld _ _ _ _).
  rewrite insert_user_calm by done. set (user := User.mk _ _ _ _ _ _ _).
  destruct (insert_user_sql_cases user now1 (server_now wd) (db wd) ltac:(done)) as [[-> _]|[_ Ht]].
  - unfold insert_auth_audit_event. simpl. unfold user_exists. simpl. rewrite lookup_insert_eq. simpl.
    eexists. split; [done|]. simpl. rewrite Hus. intros id [-> | ->].
    + rewrite lookup_insert_eq. by eexists.
    + rewrite lookup_insert_ne, lookup_insert_eq by done. by eexists.
  - exfalso. destruct Ht as [Ht|(k & u & Hk & [Ht|Ht])]; simpl in *.
    + rewrite Hus, lookup_insert_ne, Hid in Ht by done. by apply is_Some_None in Ht.
    + by apply (Hhandle _ _ Hk).
    + rewrite Hus in Hk. apply lookup_insert_Some in Hk as [[_ <-]|[_ Hk]]; [done|]. by apply (Hfree _ _ Hk).
Qed.

(** ** Properties of registration *)

Lemma pool_Ok {A} f (s : DateTime → statement A) w a w' :
  err_with f (pool_execute s) w = (Ok a, w') → s (server_now w) (db w) = Ok (a, db w').
Proof.
  unfold err_with, pool_execute. destruct (next_verdict w) as [v w1] eqn:Hv.
  apply next_verdict_spec in Hv as (D & N & _). rewrite N, D.
  destruct v; [|done|]; destruct (s _ _) as [[a' d]|e]; try done. by intros [= -> <-].
Qed.

(** The row of a fresh ceremony. *)
Definition fresh_ceremony (c : Ceremony) (created_at : DateTime) : AuthCeremony.t :=
  AuthCeremony.mk (ceremony_name (Ceremony.kind c)) (UserId.as_str <$> Ceremony.user_id c)
    (SecretHash.as_bytes <$> Ceremony.capability_hash c) (Ceremony.state c) (Ceremony.expires_at c)
    None created_at.

Lemma insert_ceremony_Ok c w w' :
  PgAuthStore.insert_ceremony c w = (Ok tt, w') →
  auth_ceremonies (db w) !! Ceremony.id c = None ∧
  db w' = set_ceremonies (<[Ceremony.id c := fresh_ceremony c (server_now w)]> (auth_ceremonies (db w))) (db w).
Proof.
  intros Hi. apply pool_Ok in Hi. revert Hi. unfold insert_auth_ceremony.
  pass_guard Hg. pass_guard Hk. pass_guard Hf. apply key_free in Hk.
  intros [= Hd]. split; [done|]. by rewrite <- Hd.
Qed.

Lemma user_by_id_Ok id w u w' :
  db_wf (db w) → PgAuthStore.user_by_id id w = (Ok (Some u), w') →
  db w' = db w ∧ ∃ row, human_users (db w) !! UserId.as_str id = Some row ∧ u = account_of (UserId.as_str id) row.
Proof.
  intros Hw Hc. unfold PgAuthStore.user_by_id in Hc. apply bind_Ok in Hc as (r & w1 & Hr & Hc).
  apply pool_select_Ok in Hr as [-> Hd]. unfold lift in Hc. injection Hc as Hc <-. split; [done|].
  destruct (human_users (db w) !! _) as [row|] eqn:Hk; [|done]. simpl in Hc.
  destruct (UserRow.try_into _) as [u'|] eqn:Ht; simplify_eq.
  exists row. split; [done|]. by eapply user_row_account.
Qed.

Lemma capability_hash_of hash purpose now w cap w' :
  PgAuthStore.capability hash purpose now w = (Ok (Some cap), w') →
  ∃ row, auth_capabilities (db w) !! Capability.id cap = Some row ∧
    AuthCapability.purpose row = purpose_name purpose ∧
    AuthCapability.token_hash row = SecretHash.as_bytes (Capability.token_hash cap).
Proof.
  intros Hc. unfold PgAuthStore.capability in Hc. apply bind_Ok in Hc as (r & w1 & Hr & Hc).
  apply pool_select_Ok in Hr as [-> _]. unfold lift in Hc. injection Hc as Hc _.
  destruct (head _) as [[k row]|] eqn:Hh; [|done]. simpl in Hc.
  apply head_rows_where in Hh as [Hk HP].
  destruct (CapabilityRow.try_into _) as [cap'|] eqn:Ht; simplify_eq.
  unfold CapabilityRow.try_into in Ht. inv_ok. exists row. bool_prop.
  split_and!; try done. unfold SecretHash.from_slice in *.
  repeat case_match; simplify_eq; done.
Qed.

(** A setup registration is bound to its capability: it starts, under whatever faults, only with
    a live capability of the token's hash and of the asked purpose, whose account exists and is
    enabled; the ceremony it leaves is fresh and live, belongs to that account and names
    that capability, so that its completion consumes exactly it. *)
Theorem setup_registration_bound token purpose now w id challenge w' :
  db_wf (db w) → start_setup_registration config token purpose now w = (Ok (id, challenge), w') →
  ∃ k cap row user creds seed state c,
    auth_capabilities (db w) !! k = Some cap ∧
    AuthCapability.token_hash cap = SecretHash.as_bytes (SecretToken.hash token) ∧
    AuthCapability.purpose cap = purpose_name purpose ∧
    AuthCapability.consumed_at cap = None ∧ now < AuthCapability.expires_at cap ∧
    human_users (db w) !! AuthCapability.user_id cap = Some row ∧ HumanUser.enabled row = true ∧
    user = account_of (AuthCapability.user_id cap) row ∧
    engine_start_registration seed user creds = Ok (challenge, state) ∧
    auth_ceremonies (db w) !! id = None ∧
    auth_ceremonies (db w') = <[id := c]> (auth_ceremonies (db w)) ∧
    AuthCeremony.kind c = "registration" ∧ AuthCeremony.user_id c = Some (AuthCapability.user_id cap) ∧
    AuthCeremony.capability_hash c = Some (AuthCapability.token_hash cap) ∧
    AuthCeremony.state c = state ∧ AuthCeremony.consumed_at c = None ∧
    AuthCeremony.expires_at c = now + AuthConfig.ceremony_ttl config.
Proof.
  intros Hw Hs. unfold start_setup_registration in Hs. service_unwind.
  match goal with H : PgAuthStore.capability _ _ _ _ = (Ok (Some ?c), _) |- _ =>
    pose proof H as H'; pose proof (readonly_Ok _ _ _ _ (readonly_capability _ _ _) H) as D1;
    apply capability_Ok in H as (cap & Hk & Hh & Hn & Hlive & Hus);
    apply capability_hash_of in H' as (cap' & Hk' & Hp & Hh'); rewrite Hk in Hk'; injection Hk' as <- end.
  match goal with H : filter_enabled ?o = _ |- _ => destruct o as [u|]; [|done]; simpl in H;
    destruct (User.enabled u) eqn:Hen; simplify_eq end.
  match goal with H : PgAuthStore.user_by_id _ _ = _ |- _ =>
    apply user_by_id_Ok in H as (D2 & row & Hrow & ->); [|by rewrite D1] end.
  match goal with H : PgAuthStore.credentials_for_user _ _ = _ |- _ =>
    apply readonly_Ok in H as D3; [|apply readonly_credentials] end.
  match goal with H : engine_start_registration ?n _ ?l = Ok ?p |- _ =>
    destruct p as [ch state]; rename l into creds; set (seed := n) in * end.
  service_unwind.
  match goal with H : PgAuthStore.insert_ceremony _ _ = (Ok ?u, _) |- _ =>
    destruct u; apply insert_ceremony_Ok in H as [Hfree Hd] end.
  simpl in *. rewrite D3, D2, D1 in *. rewrite <- Hus in *.
  eexists _, cap, row, _, creds, seed, state, _. rewrite Hd. simpl.
  split_and!; try done. by rewrite Hh'.
Qed.

Lemma head_order_by {K V} `{Countable K} (f : V → Z) (P : K → V → bool) (m : gmap K V) k v :
  head (order_by f (rows_where P m)) = Some (k, v) → m !! k = Some v ∧ P k v = true.
Proof.
  intros Hh. apply elem_of_rows_where. rewrite <- (order_by_perm f).
  destruct (order_by f (rows_where P m)) as [|kv l]; [done|]. simpl in Hh. injection Hh as ->.
  apply list_elem_of_here.
Qed.

Lemma row_is_operator_role u : row_is_operator u = true → HumanUser.role u = "operator".
Proof. unfold row_is_operator. intros Hu. by bool_prop. Qed.

Lemma operator_recovery_window_Ok now w user hash w' :
  db_wf (db w) → PgAuthStore.operator_recovery_window now w = (Ok (Some (user, hash)), w') →
  db w' = db w ∧ ∃ k cap row, auth_capabilities (db w) !! k = Some cap ∧
    human_users (db w) !! AuthCapability.user_id cap = Some row ∧
    HumanUser.enabled row = true ∧ HumanUser.role row = "operator" ∧
    user = account_of (AuthCapability.user_id cap) row ∧
    AuthCapability.purpose cap = "operator_recovery" ∧ AuthCapability.consumed_at cap = None ∧
    now < AuthCapability.expires_at cap ∧ SecretHash.as_bytes hash = AuthCapability.token_hash cap.
Proof.
  intros Hw Hc. unfold PgAuthStore.operator_recovery_window in Hc. apply bind_Ok in Hc as (r & w1 & Hr & Hc).
  apply pool_select_Ok in Hr as [-> Hd]. unfold lift in Hc. injection Hc as Hc <-. split; [done|].
  destruct (head _) as [[k cap]|] eqn:Hh; [|done]. apply head_order_by in Hh as [Hk HP]. simpl in Hc.
  destruct (human_users (db w) !! _) as [row|] eqn:Hu; [|by rewrite andb_false_r in HP]. simpl in Hc.
  bool_prop. destruct (SecretHash.from_slice _) as [h|] eqn:Hsl; [|done]. simpl in Hc.
  destruct (UserRow.try_into _) as [u'|] eqn:Ht; simpl in Hc; simplify_eq.
  exists k, cap, row. split_and!; try done.
  - by apply row_is_operator_role.
  - by eapply user_row_account.
  - by apply is_null_true.
  - unfold SecretHash.from_slice in Hsl. case_match; by simplify_eq.
Qed.

Lemma operator_without_credential_Ok w user w' :
  db_wf (db w) → PgAuthStore.operator_without_credential w = (Ok (Some user), w') →
  db w' = db w ∧ ∃ id row, human_users (db w) !! id = Some row ∧
    HumanUser.enabled row = true ∧ HumanUser.role row = "operator" ∧ user = account_of id row ∧
    ∀ k cr, passkey_credentials (db w) !! k = Some cr → active_operator_credential (db w) k cr = false.
Proof.
  intros Hw Hc. unfold PgAuthStore.operator_without_credential in Hc.
  apply bind_Ok in Hc as (r & w1 & Hr & Hc).
  apply pool_select_Ok in Hr as [-> Hd]. unfold lift in Hc. injection Hc as Hc <-. split; [done|].
  destruct (head _) as [[id row]|] eqn:Hh; [|done]. apply head_order_by in Hh as [Hk HP]. simpl in Hc.
  destruct (UserRow.try_into _) as [u'|] eqn:Ht; simplify_eq. bool_prop.
  exists id, row. split_and!; try done.
  - by apply row_is_operator_role.
  - by eapply user_row_account.
  - by apply exists_row_false.
Qed.

(** The ceremony both branches of the bootstrap leave. *)
Lemma bootstrap_ceremony_Ok user hash kind now w id challenge k' w' :
  (let! seed := engine_seed (W := World) in
   let! (challenge, state) := lift (engine_start_registration seed user []) in
   let! id := draw (E := AuthError) uuid_at in
   do! PgAuthStore.insert_ceremony (Ceremony.mk id kind (Some (User.id user)) hash state
         (now + AuthConfig.ceremony_ttl config)) in
   ret (id, challenge, kind)) w = (Ok (id, challenge, k'), w') →
  k' = kind ∧ ∃ seed state c, engine_start_registration seed user [] = Ok (challenge, state) ∧
    auth_ceremonies (db w) !! id = None ∧
    auth_ceremonies (db w') = <[id := c]> (auth_ceremonies (db w)) ∧
    AuthCeremony.kind c = ceremony_name kind ∧
    AuthCeremony.user_id c = Some (UserId.as_str (User.id user)) ∧
    AuthCeremony.expires_at c = now + AuthConfig.ceremony_ttl config ∧
    AuthCeremony.capability_hash c = SecretHash.as_bytes <$> hash.
Proof.
  intros Hs. service_unwind. match goal with H : engine_start_registration _ _ _ = Ok ?p |- _ =>
    destruct p as [ch state] end.
  unfold draw in Hs. service_unwind.
  match goal with H : (Ok _, _) = (Ok _, _) |- _ => injection H as <- <- end.
  match goal with H : PgAuthStore.insert_ceremony _ _ = (Ok ?u, _) |- _ =>
    destruct u; apply insert_ceremony_Ok in H as [Hfree Hd] end.
  simpl in *. split; [done|]. eexists _, state, _. rewrite Hd. simpl. by split_and!.
Qed.

(** An operator registration without a session is guarded: it starts, under whatever faults, only
    for an enabled operator, and only in one of two situations: an unconsumed, unexpired
    operator recovery capability of that operator, which the ceremony then names, or no active
    credential of any operator. *)
Theorem operator_bootstrap_guarded now w id challenge kind w' :
  db_wf (db w) → start_operator_bootstrap config now w = (Ok (id, challenge, kind), w') →
  ∃ user row seed state c,
    human_users (db w) !! user = Some row ∧ HumanUser.enabled row = true ∧ HumanUser.role row = "operator" ∧
    engine_start_registration seed (account_of user row) [] = Ok (challenge, state) ∧
    auth_ceremonies (db w) !! id = None ∧
    auth_ceremonies (db w') = <[id := c]> (auth_ceremonies (db w)) ∧
    AuthCeremony.kind c = ceremony_name kind ∧ AuthCeremony.user_id c = Some user ∧
    AuthCeremony.expires_at c = now + AuthConfig.ceremony_ttl config ∧
    match kind with
    | OperatorRecovery => ∃ k cap, auth_capabilities (db w) !! k = Some cap ∧
        AuthCapability.user_id cap = user ∧ AuthCapability.purpose cap = "operator_recovery" ∧
        AuthCapability.consumed_at cap = None ∧ now < AuthCapability.expires_at cap ∧
        AuthCeremony.capability_hash c = Some (AuthCapability.token_hash cap)
    | OperatorBootstrap => AuthCeremony.capability_hash c = None ∧
        ∀ k cr, passkey_credentials (db w) !! k = Some cr → active_operator_credential (db w) k cr = false
    | _ => False
    end.
Proof.
  intros Hw Hs. unfold start_operator_bootstrap in Hs. service_unwind.
  match goal with H : PgAuthStore.operator_recovery_window _ _ = (Ok ?o, _) |- _ =>
    destruct o as [[user hash]|] end; service_unwind.
  - match goal with H : PgAuthStore.operator_recovery_window _ _ = _ |- _ =>
      apply operator_recovery_window_Ok in H as (D & k & cap & row & Hk & Hu & He & Hr & -> & Hp & Hn & Hl & Hh);
        [|done] end.
    apply bootstrap_ceremony_Ok in Hs as (-> & seed & state & c & Hst & Hf & Hd & Hkind & Huser & Hexp & Hhash).
    rewrite D in *. exists (AuthCapability.user_id cap), row, seed, state, c. split_and!; try done.
    exists k, cap. split_and!; try done. by rewrite Hhash, <- Hh.
  - match goal with H : PgAuthStore.operator_recovery_window _ _ = _ |- _ =>
      assert (readonly (PgAuthStore.operator_recovery_window now)) as Hro
        by (apply readonly_bind; [apply readonly_select|intros ?; apply readonly_lift]);
      apply (readonly_Ok _ _ _ _ Hro) in H as D end.
    match goal with H : PgAuthStore.operator_without_credential _ = _ |- _ =>
      apply operator_without_credential_Ok in H as (D2 & id2 & row & Hu & He & Hr & -> & Hno);
        [|by rewrite D] end.
    apply bootstrap_ceremony_Ok in Hs as (-> & seed & state & c & Hst & Hf & Hd & Hkind & Huser & Hexp & Hhash).
    rewrite D2, D in *. exists id2, row, seed, state, c. by split_and!.
Qed.

End pg_service.
