(* ===== verification/Interleaving.v ===== *)
(** * Interleaving: the service among other clients of one database

    The service reads and writes in several calls, and other requests act between them.  [Shared] is
    the world of the store with a schedule: what happens before each call of the operation under
    study, an arbitrary list of other clients' calls and of moves of the environment.  Over the
    instance [shared_store] every operation of [AuthService.v] runs unchanged, interleaved
    at each of its calls; a store call itself is a transaction and stays whole. *)
From S2P Require Export AuthService.

(** What others do. *)
Inductive Event :=
| OtherCall (c : store_call)
| Environment (now : DateTime) (faults : list verdict).

Definition event_valid (e : Event) : Prop :=
  match e with OtherCall c => call_valid c | Environment _ _ => True end.

(** [performed] lists what each call of the operation found and left, in their order. *)
Record Shared := mkShared { own : World; schedule : list (list Event); performed : list (Db * Db) }.

(** Every event of the schedule is a call the program can make. *)
Definition scheduled (s : Shared) : Prop := Forall (Forall event_valid) (schedule s).

Section interleaved.
Context `{Entropy} (int4_as_i64 : bool).

Definition occur (w : World) (e : Event) : World :=
  match e with
  | OtherCall c => (perform int4_as_i64 c w).2
  | Environment now faults => mkWorld (db w) now faults (drawn w)
  end.

(** The events before the next call. *)
Definition interfere (s : Shared) : World := foldl occur (own s) (default [] (head (schedule s))).

(** A call of the operation under study. *)
Definition shared {A} (c : M World AuthError A) : M Shared AuthError A := λ s,
  let (r, w) := c (interfere s) in
  (r, mkShared w (tail (schedule s)) (performed s ++ [(db (interfere s), db w)])).

(** Randomness is the client's own. *)
Definition alone {A} (c : M World AuthError A) : M Shared AuthError A := λ s,
  let (r, w) := c (own s) in (r, mkShared w (schedule s) (performed s)).

#[export] Instance shared_randomness : Randomness Shared := {
  new_v4 := alone (draw uuid_at);
  generate := alone (draw token_at);
  engine_seed := alone (draw (λ n, n));
}.

Definition shared_store : AuthStore Shared := {|
  user_by_id id := shared (PgAuthStore.user_by_id id);
  user_by_handle handle := shared (PgAuthStore.user_by_handle handle);
  credentials_for_user id := shared (PgAuthStore.credentials_for_user id);
  operator_without_credential := shared PgAuthStore.operator_without_credential;
  operator_exists := shared PgAuthStore.operator_exists;
  operator_recovery_window now := shared (PgAuthStore.operator_recovery_window now);
  capability hash purpose now := shared (PgAuthStore.capability hash purpose now);
  insert_capability c := shared (PgAuthStore.insert_capability c);
  insert_user user now audit := shared (PgAuthStore.insert_user user now audit);
  approve_user_with_setup user c op now := shared (PgAuthStore.approve_user_with_setup user c op now);
  rotate_all_auth_epochs now reason := shared (PgAuthStore.rotate_all_auth_epochs int4_as_i64 now reason);
  insert_ceremony c := shared (PgAuthStore.insert_ceremony c);
  ceremony id kind now := shared (PgAuthStore.ceremony id kind now);
  complete_registration id hash credential now audit :=
    shared (PgAuthStore.complete_registration id hash credential now audit);
  complete_authentication id v s now audit :=
    shared (PgAuthStore.complete_authentication id v s now audit);
  session hash now idle := shared (PgAuthStore.session hash now idle);
  rotate_session_csrf hash csrf now idle := shared (PgAuthStore.rotate_session_csrf hash csrf now idle);
  delete_session hash := shared (PgAuthStore.delete_session hash);
  create_recovery id now := shared (PgAuthStore.create_recovery id now);
  pending_recoveries := shared PgAuthStore.pending_recoveries;
  approve_recovery id op now := shared (PgAuthStore.approve_recovery id op now);
  issue_recovery_setup id c op now := shared (PgAuthStore.issue_recovery_setup id c op now);
  break_glass id c now reason := shared (PgAuthStore.break_glass id c now reason);
|}.

(** ** Interference is an execution *)

Abbreviation steps := (rtc (step int4_as_i64)).

Lemma occur_step w e : event_valid e → steps w (occur w e).
Proof.
  destruct e as [c|now faults]; intros He; apply rtc_once.
  - simpl. destruct (perform _ _ _) as [r w'] eqn:Hc. by eapply step_call.
  - apply step_environment.
Qed.

Lemma occur_steps w es : Forall event_valid es → steps w (foldl occur w es).
Proof.
  intros He. revert w. induction He as [|e es He Hes IH]; intros w; simpl; [done|].
  etransitivity; [by apply occur_step|apply IH].
Qed.

Lemma interfere_steps s : scheduled s → steps (own s) (interfere s).
Proof.
  unfold scheduled, interfere. intros Hs. apply occur_steps.
  destruct Hs as [|es ess He _]; simpl; [constructor|done].
Qed.

(** What a call of the operation does: it acts on the world the others left. *)
Lemma shared_inv {A} (c : M World AuthError A) s r s' :
  shared c s = (r, s') → scheduled s → db_wf (db (own s)) → safe c →
  ∃ w, steps (own s) w ∧ db_wf (db w) ∧ evolves (db (own s)) (db w) ∧ c w = (r, own s') ∧
    scheduled s' ∧ db_wf (db (own s')) ∧ evolves (db w) (db (own s')).
Proof.
  unfold shared. intros Hc Hs Hw Hsafe. destruct (c (interfere s)) as [r1 w1] eqn:Hr. simplify_eq. simpl.
  pose proof (interfere_steps s Hs) as Hst. destruct (steps_keep _ _ _ Hst Hw) as [Hw1 He1].
  exists (interfere s). destruct (Hsafe _ _ _ Hr Hw1). split_and!; try done.
  unfold scheduled in *. simpl. by destruct Hs.
Qed.

Lemma alone_inv {A} (c : M World AuthError A) s r s' :
  alone c s = (r, s') → scheduled s → readonly c → scheduled s' ∧ db (own s') = db (own s).
Proof.
  unfold alone. intros Hc Hs Hr. destruct (c (own s)) as [r1 w1] eqn:Hc1. simplify_eq.
  split; [done|]. by destruct (Hr _ _ _ Hc1).
Qed.

(** [d'] is a later state than [d]: every execution leads to one. *)
Definition later (d d' : Db) : Prop := db_wf d' ∧ evolves d d'.

Lemma steps_later w w' : db_wf (db w) → steps w w' → later (db w) (db w').
Proof. intros Hw Hs. by destruct (steps_keep _ _ _ Hs Hw). Qed.

(** ** A login among other clients *)

Context `{CeremonyEngine, Sha256} (config : AuthConfig).
#[local] Existing Instance shared_store.

(** What a login that succeeded did, with whatever happening between its calls: the account it read at
    some moment, and the session it opened. *)
Lemma login_reads_account ceremony_id response now s grant user s' :
  db_wf (db (own s)) → scheduled s →
  finish_authentication config ceremony_id response now s = (Ok (grant, user), s') →
  ∃ read id row k session,
    later (db (own s)) (db read) ∧ later (db read) (db (own s')) ∧
    human_users (db read) !! id = Some row ∧ HumanUser.enabled row = true ∧ user = account_of id row ∧
    auth_sessions (db (own s')) !! k = Some session ∧ AuthSession.user_id session = id ∧
    AuthSession.token_hash session = SecretHash.as_bytes (SecretToken.hash (SessionGrant.token grant)) ∧
    AuthSession.auth_epoch session = HumanUser.auth_epoch row.
Proof.
  intros Hw Hs Hf. unfold finish_authentication in Hf.
  cbn [ceremony user_by_handle credentials_for_user complete_authentication generate new_v4
    shared_store shared_randomness] in Hf.
  apply bind_Ok in Hf as (found & s1 & Hc1 & Hf).
  apply bind_Ok in Hf as (cer & ? & Hl & Hf). unfold lift in Hl. injection Hl as Hl <-.
  apply bind_Ok in Hf as (handle & ? & Hh & Hf). unfold lift in Hh. injection Hh as Hh <-.
  apply bind_Ok in Hf as (found2 & s2 & Hc2 & Hf).
  apply bind_Ok in Hf as (account & ? & Ha & Hf). unfold lift in Ha. injection Ha as Ha <-.
  apply bind_Ok in Hf as (credentials & s3 & Hc3 & Hf).
  apply bind_Ok in Hf as (verification & ? & Hv & Hf). unfold lift in Hv. injection Hv as Hv <-.
  apply bind_Ok in Hf as (token & s4 & Hc4 & Hf).
  apply bind_Ok in Hf as (csrf & s5 & Hc5 & Hf).
  apply bind_Ok in Hf as (session_id & s6 & Hc6 & Hf).
  apply bind_Ok in Hf as ([] & s7 & Hc7 & Hf). unfold ret in Hf. injection Hf as <- <- <-.
  pose proof (shared_inv _ _ _ _ Hc1 Hs Hw) as (w1 & _ & _ & He1 & _ & Hs1 & Hw1 & He1').
  { autounfold with store_ops. follow. }
  pose proof (shared_inv _ _ _ _ Hc2 Hs1 Hw1) as (read & _ & Hwr & Her & Hr & Hs2 & Hw2 & He2').
  { autounfold with store_ops. follow. }
  pose proof (shared_inv _ _ _ _ Hc3 Hs2 Hw2) as (w3 & _ & _ & He3 & _ & Hs3 & Hw3 & He3').
  { autounfold with store_ops. follow. }
  apply alone_inv in Hc4 as [Hs4 Hd4]; [|done|apply readonly_draw].
  apply alone_inv in Hc5 as [Hs5 Hd5]; [|done|apply readonly_draw].
  apply alone_inv in Hc6 as [Hs6 Hd6]; [|done|apply readonly_draw].
  rewrite Hd5, Hd4 in Hd6. rewrite <- Hd6 in *. clear Hd4 Hd5 Hd6.
  pose proof (shared_inv _ _ _ _ Hc7 Hs6 Hw3) as (w7 & _ & _ & He7 & Hr7 & _ & Hw7 & He7').
  { autounfold with store_ops. follow. }
  apply ok_or_Ok in Ha. destruct found2 as [u|]; [|done]. simpl in Ha.
  destruct (User.enabled u) eqn:Hen; simplify_eq.
  apply user_by_handle_Ok in Hr as (Hd & id & row & Hrow & -> & _); [|done].
  apply complete_authentication_Ok in Hr7 as (_ & _ & _ & _ & _ & _ & _ & Hses & _). simpl in *.
  exists read, id, row, session_id. eexists. rewrite Hses. split_and!.
  - split; [done|]. by etransitivity; [|etransitivity].
  - split; [done|]. rewrite Hd in *. by repeat (etransitivity; [eassumption|]).
  - done.
  - done.
  - done.
  - apply lookup_insert_eq.
  - done.
  - done.
  - done.
Qed.

(** A live session has its account at the epoch the session was opened with. *)
Lemma live_at_epoch k session hash d d' k' s' now :
  later d d' → auth_sessions d !! k = Some session →
  AuthSession.token_hash session = SecretHash.as_bytes hash →
  auth_sessions d' !! k' = Some s' → live_session d' hash now k' s' = true →
  ∃ u, human_users d' !! AuthSession.user_id session = Some u ∧
    HumanUser.auth_epoch u = AuthSession.auth_epoch session.
Proof.
  intros [Hw He] Hk Hh Hk' Hl.
  destruct (evolves_sessions _ _ He _ _ Hk) as (s1 & Hk1 & Hu1 & Hh1 & Hep1 & _).
  unfold live_session in Hl. bool_prop.
  assert (k' = k) as ->.
  { apply (sessions_hash _ (wf_sessions _ Hw) _ _ _ _ Hk' Hk1); [done|done|congruence]. }
  rewrite Hk' in Hk1. injection Hk1 as <-. rewrite Hu1 in *.
  destruct (human_users d' !! AuthSession.user_id session) as [u|]; [|done]. bool_prop.
  exists u. split; [done|congruence].
Qed.

(** C23: a login loses every race with an invalidation of its account.  Whatever other clients do between
    the calls of a login that succeeds, there is a moment at which it read the account; if a
    recovery of the account is approved, or glass is broken for it, or all epochs are rotated, at any
    time after that moment (when the account's epoch is not below the one that was read), before or
    after the login opens its session, then in every state that is later than both, the session's
    token is accepted neither to authenticate nor to renew the anti-forgery token. *)
Theorem login_loses_races ceremony_id response now s grant user s' :
  db_wf (db (own s)) → scheduled s →
  finish_authentication config ceremony_id response now s = (Ok (grant, user), s') →
  let account d := human_users d !! UserId.as_str (User.id user) in
  (∃ read row, later (db (own s)) (db read) ∧ later (db read) (db (own s')) ∧
     account (db read) = Some row ∧ HumanUser.enabled row = true ∧
     User.auth_epoch user = HumanUser.auth_epoch row ∧
     ∀ d u, later (db read) d → account d = Some u → User.auth_epoch user ≤ HumanUser.auth_epoch u) ∧
  ∀ c w1 u w2 w3,
    account (db w1) = Some u → User.auth_epoch user ≤ HumanUser.auth_epoch u →
    cuts c (db w1) (UserId.as_str (User.id user)) → perform int4_as_i64 c w1 = (Ok tt, w2) →
    later (db w2) (db w3) → later (db (own s')) (db w3) →
    (∀ now' idle p w4, PgAuthStore.session (SecretToken.hash (SessionGrant.token grant)) now' idle w3
       ≠ (Ok (Some p), w4)) ∧
    (∀ csrf now' idle p w4, PgAuthStore.rotate_session_csrf (SecretToken.hash (SessionGrant.token grant))
       csrf now' idle w3 ≠ (Ok (Some p), w4)).
Proof.
  intros Hw Hs Hf account. subst account.
  destruct (login_reads_account _ _ _ _ _ _ _ Hw Hs Hf)
    as (read & id & row & k & session & Hl1 & Hl2 & Hrow & Hen & -> & Hk & Hid & Hh & Hep). simpl. split.
  { exists read, row. split_and!; try done. intros d u [_ He] Hu.
    destruct (evolves_users _ _ He _ _ Hrow) as (u' & Hu' & _ & _ & _ & _ & Hle).
    rewrite Hu in Hu'. by injection Hu' as ->. }
  intros c w1 u1 w2 w3 Hu1 Hle1 Hc Hp [Hw3 He3] Hl3.
  assert (∀ k' s' now', auth_sessions (db w3) !! k' = Some s' →
    live_session (db w3) (SecretToken.hash (SessionGrant.token grant)) now' k' s' ≠ true) as Hno.
  { intros k' s2 now' Hk' Hlive.
    destruct (live_at_epoch _ _ _ _ _ _ _ _ Hl3 Hk Hh Hk' Hlive) as (u3 & Hu3 & Hep3). rewrite Hid in Hu3.
    destruct (cut_epoch _ _ _ (cuts_off _ _ _ _ _ Hp Hc) _ Hu1) as (u2 & Hu2 & Hlt).
    destruct (evolves_users _ _ He3 _ _ Hu2) as (u3' & Hu3' & _ & _ & _ & _ & Hle3).
    rewrite Hu3 in Hu3'. injection Hu3' as <-. lia. }
  split.
  - intros now' idle p w4 Hses. apply (session_Ok _ _ _ _ _ _ Hw3) in Hses as (k' & s2 & u & Hk' & Hlive & _).
    by eapply Hno.
  - intros csrf now' idle p w4 Hses.
    apply (rotate_session_csrf_Ok _ _ _ _ _ _ _ Hw3) in Hses as (k' & s2 & u & Hk' & Hlive & _).
    by eapply Hno.
Qed.

End interleaved.
