(* ===== verification/SessionSpec.v ===== *)
(** * SessionSpec: what a store promises to the sessions of the service

    The abstract state of sessions: which accounts there are, which session a token hash stands for,
    whom a recovery is for, and the tokens that will be drawn.  [spec_step] says what each
    call of the service may answer and do to it.  The class [SessionStore] states what a store
    promises in these terms; over every such store a run of the service is a run of the
    specification, so what is proved of the specification holds of all of them.  [PgSessions.v] and
    [FakeStore.v] discharge the class for the two stores of the source. *)
From stdpp Require Export functions.
From S2P Require Export AuthService.

(** ** The abstract state *)

Record Spec := mkSpec {
  accounts : UserId → option User;
  held : SecretHash → option SessionRecord;
  recovery_of : Uuid → option UserId;
  supply : nat → SecretToken;
}.

(** Two states are the same when they answer alike. *)
#[export] Instance spec_equiv : Equiv Spec := λ s t,
  (∀ id, accounts s id = accounts t id) ∧ (∀ h, held s h = held t h) ∧
  (∀ id, recovery_of s id = recovery_of t id) ∧ (∀ n, supply s n = supply t n).

#[export] Instance spec_equivalence : Equivalence (≡@{Spec}).
Proof.
  split.
  - by intros s.
  - intros s t (H1 & H2 & H3 & H4). by split_and!.
  - intros s t u (H1 & H2 & H3 & H4) (G1 & G2 & G3 & G4).
    split_and!; intros x; [rewrite H1|rewrite H2|rewrite H3|rewrite H4]; done.
Qed.

(** ** Operations on it *)

Definition hold (h : SecretHash) (r : option SessionRecord) (s : Spec) : Spec :=
  mkSpec (accounts s) (<[h := r]> (held s)) (recovery_of s) (supply s).

Definition open_session (r : SessionRecord) (s : Spec) : Spec :=
  hold (SessionRecord.token_hash r) (Some r) s.

Definition advance (n : nat) (s : Spec) : Spec :=
  mkSpec (accounts s) (held s) (recovery_of s) (λ i, supply s (n + i)%nat).

Definition record_recovery (id : Uuid) (user : UserId) (s : Spec) : Spec :=
  mkSpec (accounts s) (held s) (<[id := Some user]> (recovery_of s)) (supply s).

Definition next_epoch (u : User) : User :=
  User.mk (User.id u) (User.webauthn_handle u) (User.email u) (User.display_name u) (User.role u)
    (User.enabled u) (User.auth_epoch u + 1).

(** An account is cut off: its epoch moves and its sessions go. *)
Definition invalidate (user : UserId) (s : Spec) : Spec :=
  mkSpec (λ id, (if decide (id = user) then next_epoch else λ u, u) <$> accounts s id)
    (λ h, r ← held s h; if decide (SessionRecord.user_id r = user) then None else Some r)
    (recovery_of s) (supply s).

(** Every account is. *)
Definition invalidate_all (s : Spec) : Spec :=
  mkSpec (λ id, next_epoch <$> accounts s id) (λ _, None) (recovery_of s) (supply s).

(** The account a session acts for: it is enabled, of the session's epoch, and neither deadline has
    passed. *)
Definition actor (s : Spec) (now : DateTime) (r : SessionRecord) : option User :=
  match accounts s (SessionRecord.user_id r) with
  | Some u =>
      if User.enabled u && (SessionRecord.auth_epoch r =? User.auth_epoch u)
         && (now <? SessionRecord.idle_expires_at r) && (now <? SessionRecord.absolute_expires_at r)
      then Some u else None
  | None => None
  end.

(** A use moves the idle deadline, never past the absolute one, and may renew the anti-forgery hash. *)
Definition touch (csrf : option SecretHash) (idle : DateTime) (r : SessionRecord) : SessionRecord :=
  SessionRecord.mk (SessionRecord.id r) (SessionRecord.user_id r) (SessionRecord.token_hash r)
    (default (SessionRecord.csrf_hash r) csrf) (SessionRecord.auth_epoch r)
    (Z.min idle (SessionRecord.absolute_expires_at r)) (SessionRecord.absolute_expires_at r).

Definition principal (r : SessionRecord) (u : User) : SessionPrincipal :=
  SessionPrincipal.mk (SessionRecord.id r) u (SessionRecord.csrf_hash r)
    (SessionRecord.absolute_expires_at r).

(** Looking a session up by the hash of its token. *)
Definition look (h : SecretHash) (csrf : option SecretHash) (now idle : DateTime) (s : Spec)
    : option SessionPrincipal * Spec :=
  match held s h with
  | Some r =>
      match actor s now r with
      | Some u => let r := touch csrf idle r in (Some (principal r u), hold h (Some r) s)
      | None => (None, s)
      end
  | None => (None, s)
  end.

(** ** The operations respect the equivalence *)

#[export] Instance hold_proper h r : Proper ((≡) ==> (≡)) (hold h r).
Proof.
  intros s t (H1 & H2 & H3 & H4). split_and!; simpl; try done. intros h'.
  destruct (decide (h' = h)) as [->|]; [by rewrite !fn_lookup_insert|by rewrite !fn_lookup_insert_ne].
Qed.

#[export] Instance open_session_proper r : Proper ((≡) ==> (≡)) (open_session r).
Proof. apply hold_proper. Qed.

#[export] Instance advance_proper n : Proper ((≡) ==> (≡)) (advance n).
Proof. intros s t (H1 & H2 & H3 & H4). by split_and!; simpl. Qed.

#[export] Instance record_recovery_proper id user : Proper ((≡) ==> (≡)) (record_recovery id user).
Proof.
  intros s t (H1 & H2 & H3 & H4). split_and!; simpl; try done. intros id'.
  destruct (decide (id' = id)) as [->|]; [by rewrite !fn_lookup_insert|by rewrite !fn_lookup_insert_ne].
Qed.

#[export] Instance invalidate_proper user : Proper ((≡) ==> (≡)) (invalidate user).
Proof.
  intros s t (H1 & H2 & H3 & H4). split_and!; simpl; try done.
  - intros id. by rewrite H1.
  - intros h. by rewrite H2.
Qed.

#[export] Instance invalidate_all_proper : Proper ((≡) ==> (≡)) invalidate_all.
Proof. intros s t (H1 & H2 & H3 & H4). split_and!; simpl; try done. intros id. by rewrite H1. Qed.

Lemma look_proper h csrf now idle s t :
  s ≡ t → (look h csrf now idle s).1 = (look h csrf now idle t).1 ∧
          (look h csrf now idle s).2 ≡ (look h csrf now idle t).2.
Proof.
  intros Hst. pose proof Hst as (H1 & H2 & _). unfold look, actor. rewrite H2.
  destruct (held t h) as [r|]; [|done]. rewrite H1.
  destruct (accounts t _) as [u|]; [|done]. destruct (_ && _); [|done].
  simpl. split; [done|]. by rewrite Hst.
Qed.

Lemma advance_0 s : advance 0 s ≡ s.
Proof. done. Qed.

Lemma advance_advance n m s : advance n (advance m s) ≡ advance (m + n) s.
Proof. split_and!; simpl; try done. intros i. f_equal. lia. Qed.

(** ** What a store promises

    [usable] worlds are those in which the promises hold; every call leads from usable world
    to usable world.  A call that only reads sessions may answer anything as far as this interface
    is concerned; a call that changes them either fails and changes no session, or does what the
    abstract operation does. *)

Section promises.
Context {W : Type} (usable : W → Prop) (spec_of : W → Spec).

(** The call answers [a] and leaves the state [s]. *)
Definition performs {A} (c : M W AuthError A) (w : W) (a : A) (s : Spec) : Prop :=
  ∃ w', c w = (Ok a, w') ∧ usable w' ∧ spec_of w' ≡ s.

(** Only randomness was drawn. *)
Definition idles (s s' : Spec) : Prop := ∃ n, s' ≡ advance n s.

(** Whatever the call answers, the state is unchanged, and a success satisfies [P]. *)
Definition observes {A} (c : M W AuthError A) (P : Spec → A → Prop) : Prop :=
  ∀ w r w', usable w → c w = (r, w') →
  usable w' ∧ spec_of w' ≡ spec_of w ∧ ∀ a, r = Ok a → P (spec_of w) a.

(** A failure at most draws randomness, and a success leads to a state [P] allows. *)
Definition updates {A} (c : M W AuthError A) (P : Spec → A → Spec → Prop) : Prop :=
  ∀ w r w', usable w → c w = (r, w') →
  usable w' ∧ match r with Ok a => P (spec_of w) a (spec_of w') | Err _ => idles (spec_of w) (spec_of w') end.

End promises.

Class SessionStore (W : Type) `{AuthStore W, Randomness W} := {
  usable : W → Prop;
  spec_of : W → Spec;

  generate_law w : usable w →
    performs usable spec_of generate w (supply (spec_of w) 0) (advance 1 (spec_of w));
  new_v4_law w : usable w → ∃ id, performs usable spec_of new_v4 w id (advance 1 (spec_of w));
  engine_seed_law w : usable w →
    ∃ seed, performs usable spec_of engine_seed w seed (advance 1 (spec_of w));

  session_law h now idle w : usable w →
    performs usable spec_of (session h now idle) w
      (look h None now idle (spec_of w)).1 (look h None now idle (spec_of w)).2;
  rotate_session_csrf_law h csrf now idle w : usable w → SecretHash.valid csrf →
    performs usable spec_of (rotate_session_csrf h csrf now idle) w
      (look h (Some csrf) now idle (spec_of w)).1 (look h (Some csrf) now idle (spec_of w)).2;
  delete_session_law h w : usable w →
    performs usable spec_of (delete_session h) w tt (hold h None (spec_of w));

  user_by_handle_law handle : observes usable spec_of (user_by_handle handle)
    (λ s found, ∀ u, found = Some u → accounts s (User.id u) = Some u);
  credentials_for_user_law id :
    observes usable spec_of (credentials_for_user id) (λ _ _, True);
  ceremony_law id kind now : observes usable spec_of (ceremony id kind now) (λ _ _, True);
  insert_ceremony_law c : observes usable spec_of (insert_ceremony c) (λ _ _, True);

  complete_authentication_law id v r now audit :
    updates usable spec_of (complete_authentication id v r now audit)
      (λ s _ s', s' ≡ open_session r s);
  create_recovery_law user now :
    updates usable spec_of (create_recovery user now)
      (λ s request s', RecoveryRequest.user_id request = user ∧
         s' ≡ record_recovery (RecoveryRequest.id request) user (advance 1 s));
  approve_recovery_law id operator now :
    updates usable spec_of (approve_recovery id operator now)
      (λ s _ s', ∃ user, recovery_of s id = Some user ∧ s' ≡ invalidate user s);
  break_glass_law id c now reason :
    updates usable spec_of (break_glass id c now reason)
      (λ s _ s', s' ≡ invalidate (Capability.user_id c) s);
  rotate_all_law now reason :
    updates usable spec_of (rotate_all_auth_epochs now reason) (λ s _ s', s' ≡ invalidate_all s);
}.

(** ** The service against the specification *)

Inductive ServiceCall : Type :=
| AuthenticateSession (token : SecretToken) (csrf : option SecretToken) (now : DateTime)
| IssueSessionCsrf (token : SecretToken) (now : DateTime)
| Logout (token : SecretToken)
| StartAuthentication (now : DateTime)
| FinishAuthentication (ceremony_id : Uuid) (response : Value) (now : DateTime)
| RequestRecovery (user : UserId) (now : DateTime)
| ApproveRecovery (id : Uuid) (operator : UserId) (now : DateTime)
| RotateAllAuthEpochs (now : DateTime) (reason : string).

Inductive ServiceAnswer : Type :=
| Authorised (r : result SessionPrincipal AuthError)
| Renewed (r : result (SessionPrincipal * SecretToken) AuthError)
| LoggedOut (r : result unit AuthError)
| Challenged (r : result (Uuid * Value) AuthError)
| LoggedIn (r : result (SessionGrant * User) AuthError)
| Requested (r : result RecoveryRequest AuthError)
| Approved (r : result unit AuthError)
| Rotated (r : result Z AuthError).

Section service_spec.
Context `{Sha256} (config : AuthConfig).

(** What the service makes of a session that was looked up. *)
Definition authorise (csrf : option SecretToken) (found : option SessionPrincipal)
    : result SessionPrincipal AuthError :=
  match found, csrf with
  | None, _ => Err Unauthenticated
  | Some p, Some c =>
      if decide (SecretToken.hash c = SessionPrincipal.csrf_hash p) then Ok p else Err Forbidden
  | Some p, None => Ok p
  end.

Definition renew (csrf : SecretToken) (found : option SessionPrincipal)
    : result (SessionPrincipal * SecretToken) AuthError :=
  match found with None => Err Unauthenticated | Some p => Ok (p, csrf) end.

(** The session a login opens for an account, with the tokens drawn for it. *)
Definition granted (user : User) (token csrf : SecretToken) (id : Uuid) (now : DateTime) : SessionGrant :=
  SessionGrant.mk token csrf (SessionRecord.mk id (User.id user) (SecretToken.hash token)
    (SecretToken.hash csrf) (User.auth_epoch user) (now + AuthConfig.session_idle_ttl config)
    (now + AuthConfig.session_absolute_ttl config)).

(** What each call may answer, and the state it leaves.  The calls on an open session are
    determined; a login, a recovery and a rotation may fail for reasons the state does not
    hold, and then leave the sessions as they were. *)
Inductive spec_step (s : Spec) : ServiceCall → ServiceAnswer → Spec → Prop :=
| step_authenticate token csrf now s' :
    let found := look (SecretToken.hash token) None now (now + AuthConfig.session_idle_ttl config) s in
    s' ≡ found.2 →
    spec_step s (AuthenticateSession token csrf now) (Authorised (authorise csrf found.1)) s'
| step_renew token now s' :
    let csrf := supply s 0 in
    let found := look (SecretToken.hash token) (Some (SecretToken.hash csrf)) now
                   (now + AuthConfig.session_idle_ttl config) (advance 1 s) in
    s' ≡ found.2 →
    spec_step s (IssueSessionCsrf token now) (Renewed (renew csrf found.1)) s'
| step_logout token s' :
    s' ≡ hold (SecretToken.hash token) None s →
    spec_step s (Logout token) (LoggedOut (Ok tt)) s'
| step_start now r s' :
    idles s s' → spec_step s (StartAuthentication now) (Challenged r) s'
| step_login id response now user session_id s' :
    accounts s (User.id user) = Some user → User.enabled user = true →
    let grant := granted user (supply s 0) (supply s 1) session_id now in
    s' ≡ open_session (SessionGrant.record grant) (advance 3 s) →
    spec_step s (FinishAuthentication id response now) (LoggedIn (Ok (grant, user))) s'
| step_login_fails id response now e s' :
    idles s s' → spec_step s (FinishAuthentication id response now) (LoggedIn (Err e)) s'
| step_request user now request s' :
    RecoveryRequest.user_id request = user →
    s' ≡ record_recovery (RecoveryRequest.id request) user (advance 1 s) →
    spec_step s (RequestRecovery user now) (Requested (Ok request)) s'
| step_request_fails user now e s' :
    idles s s' → spec_step s (RequestRecovery user now) (Requested (Err e)) s'
| step_approve id operator now user s' :
    recovery_of s id = Some user → s' ≡ invalidate user s →
    spec_step s (ApproveRecovery id operator now) (Approved (Ok tt)) s'
| step_approve_fails id operator now e s' :
    idles s s' → spec_step s (ApproveRecovery id operator now) (Approved (Err e)) s'
| step_rotate now reason n s' :
    s' ≡ invalidate_all s → spec_step s (RotateAllAuthEpochs now reason) (Rotated (Ok n)) s'
| step_rotate_fails now reason e s' :
    idles s s' → spec_step s (RotateAllAuthEpochs now reason) (Rotated (Err e)) s'.

(** A run: the calls, their answers, and the state after them. *)
Inductive spec_run (s : Spec) : list (ServiceCall * ServiceAnswer) → Spec → Prop :=
| run_nil s' : s ≡ s' → spec_run s [] s'
| run_cons c a l s1 s' : spec_step s c a s1 → spec_run s1 l s' → spec_run s ((c, a) :: l) s'.

End service_spec.

(** ** The calls of the service over a store *)

Section service_run.
Context {W : Type} `{AuthStore W, Randomness W, CeremonyEngine, Sha256} (config : AuthConfig).

Definition answer {A} (f : result A AuthError → ServiceAnswer) (c : M W AuthError A) (w : W)
    : ServiceAnswer * W :=
  let (r, w) := c w in (f r, w).

Definition serve (c : ServiceCall) : W → ServiceAnswer * W :=
  match c with
  | AuthenticateSession token csrf now => answer Authorised (authenticate_session config token csrf now)
  | IssueSessionCsrf token now => answer Renewed (issue_session_csrf config token now)
  | Logout token => answer LoggedOut (logout token)
  | StartAuthentication now => answer Challenged (start_authentication config now)
  | FinishAuthentication id response now => answer LoggedIn (finish_authentication config id response now)
  | RequestRecovery user now => answer Requested (request_recovery user now)
  | ApproveRecovery id operator now => answer Approved (service_approve_recovery id operator now)
  | RotateAllAuthEpochs now reason => answer Rotated (service_rotate_all_auth_epochs now reason)
  end.

(** The calls one after the other, with their answers. *)
Fixpoint serve_all (cs : list ServiceCall) (w : W) : list (ServiceCall * ServiceAnswer) * W :=
  match cs with
  | [] => ([], w)
  | c :: cs =>
      let (a, w) := serve c w in
      let (l, w) := serve_all cs w in
      ((c, a) :: l, w)
  end.

End service_run.

(** ** Refinement *)

Lemma idles_refl s : idles s s.
Proof. by exists 0%nat. Qed.

Lemma idles_equiv s t t' : idles s t → t' ≡ t → idles s t'.
Proof. intros [n Hn] Ht. exists n. by rewrite Ht. Qed.

Lemma idles_advance n s t : idles (advance n s) t → idles s t.
Proof. intros [m Hm]. exists (n + m)%nat. by rewrite Hm, advance_advance. Qed.

#[export] Instance idles_proper : Proper ((≡) ==> (≡) ==> iff) idles.
Proof.
  intros s t Hst s' t' Hst'. unfold idles. by setoid_rewrite Hst; setoid_rewrite Hst'.
Qed.

#[export] Hint Resolve idles_refl : console.

Lemma spec_step_equiv `{Sha256} config s t c a s' :
  s ≡ t → spec_step config s c a s' → spec_step config t c a s'.
Proof.
  intros Hst Hs. pose proof Hst as (Ha & _ & Hr & Hsup). destruct Hs; try subst found; try subst csrf.
  - destruct (look_proper (SecretToken.hash token) None now
      (now + AuthConfig.session_idle_ttl config) s t Hst) as [-> Hl].
    constructor. by rewrite <- Hl.
  - rewrite Hsup in *.
    destruct (look_proper (SecretToken.hash token) (Some (SecretToken.hash (supply t 0))) now
      (now + AuthConfig.session_idle_ttl config) (advance 1 s) (advance 1 t)) as [-> Hl];
      [by rewrite Hst|].
    constructor. by rewrite <- Hl.
  - constructor. by rewrite <- Hst.
  - constructor. by rewrite <- Hst.
  - subst grant. rewrite !Hsup in *. apply step_login; [by rewrite <- Ha|done|]. simpl. etransitivity; [eassumption|]. by rewrite Hst.
  - constructor. by rewrite <- Hst.
  - constructor; [done|by rewrite <- Hst].
  - constructor. by rewrite <- Hst.
  - econstructor; [by rewrite <- Hr|by rewrite <- Hst].
  - constructor. by rewrite <- Hst.
  - constructor. by rewrite <- Hst.
  - constructor. by rewrite <- Hst.
Qed.

Lemma spec_run_equiv `{Sha256} config s t l s' :
  s ≡ t → spec_run config s l s' → spec_run config t l s'.
Proof.
  intros Hst Hr. destruct Hr as [s' Hs|c a l s1 s' Hs Hr].
  - constructor. by rewrite <- Hst.
  - econstructor; [by eapply spec_step_equiv|done].
Qed.

Section refinement.
Context {W : Type} `{Hstore : SessionStore W, CeremonyEngine, Sha256Laws} (config : AuthConfig).
Implicit Types (w : W) (s : Spec).

(** What holds after a call, of its answer and of the state it leaves. *)
Definition after {A} (c : M W AuthError A) w (Q : result A AuthError → Spec → Prop) : Prop :=
  usable (c w).2 ∧ Q (c w).1 (spec_of (c w).2).

Lemma after_ret {A} (a : A) w Q : usable w → Q (Ok a) (spec_of w) → after (ret a) w Q.
Proof. by split. Qed.

Lemma after_throw {A} e w Q : usable w → Q (Err e) (spec_of w) → after (A := A) (throw e) w Q.
Proof. by split. Qed.

Lemma after_lift {A B} (x : result A AuthError) (k : A → M W AuthError B) w Q :
  usable w → (∀ a, x = Ok a → after (k a) w Q) → (∀ e, x = Err e → Q (Err e) (spec_of w)) →
  after (bind (lift x) k) w Q.
Proof. intros Hw Hok Herr. unfold after, bind, lift. destruct x; [by apply Hok|]. split; [done|by apply Herr]. Qed.

Lemma after_performs {A B} (c : M W AuthError A) (k : A → M W AuthError B) w a s Q :
  performs usable spec_of c w a s →
  (∀ w1, usable w1 → spec_of w1 ≡ s → after (k a) w1 Q) → after (bind c k) w Q.
Proof. intros (w1 & Hc & Hu & Hs) Hk. unfold after, bind. rewrite Hc. by apply Hk. Qed.

Lemma after_observes {A B} (c : M W AuthError A) (k : A → M W AuthError B) P w Q :
  observes usable spec_of c P → usable w →
  (∀ a w1, usable w1 → spec_of w1 ≡ spec_of w → P (spec_of w) a → after (k a) w1 Q) →
  (∀ e s', s' ≡ spec_of w → Q (Err e) s') → after (bind c k) w Q.
Proof.
  intros Hc Hw Hok Herr. unfold after, bind. destruct (c w) as [r w1] eqn:Hr.
  destruct (Hc _ _ _ Hw Hr) as (Hw1 & Hs1 & HP). destruct r as [a|e]; [by apply Hok; auto|].
  split; [done|by apply Herr].
Qed.

Lemma after_updates {A B} (c : M W AuthError A) (k : A → M W AuthError B) P w Q :
  updates usable spec_of c P → usable w →
  (∀ a w1, usable w1 → P (spec_of w) a (spec_of w1) → after (k a) w1 Q) →
  (∀ e s', idles (spec_of w) s' → Q (Err e) s') → after (bind c k) w Q.
Proof.
  intros Hc Hw Hok Herr. unfold after, bind. destruct (c w) as [r w1] eqn:Hr.
  destruct (Hc _ _ _ Hw Hr) as (Hw1 & HP). destruct r as [a|e]; [by apply Hok|].
  split; [done|by apply Herr].
Qed.

(** A call that ends the operation. *)
Lemma after_last {A} (c : M W AuthError A) w Q : after (bind c ret) w Q → after c w Q.
Proof. unfold after, bind. by destruct (c w) as [[]]. Qed.

End refinement.

Section calls.
Context {W : Type} `{Hstore : SessionStore W, CeremonyEngine, Sha256Laws} (config : AuthConfig).
Implicit Types (w : W) (s : Spec).

(** The state after a step, collected from the facts of its calls. *)
Ltac settle := repeat match goal with H : _ ≡ _ |- _ => rewrite H end.
Ltac unchanged := exists 0%nat; by settle.

Lemma serve_start now w :
  usable w → after (start_authentication config now) w (λ r s', idles (spec_of w) s').
Proof.
  intros Hw. unfold start_authentication.
  destruct (engine_seed_law w Hw) as [seed Hseed].
  eapply after_performs; [exact Hseed|]. intros w1 Hw1 Hs1.
  apply after_lift; [done| |]; [intros [challenge state] _|intros e _; exists 1%nat; by settle].
  destruct (new_v4_law w1 Hw1) as [id Hid].
  eapply after_performs; [exact Hid|]. intros w2 Hw2 Hs2.
  eapply after_observes; [apply insert_ceremony_law|done| |].
  - intros _ w3 Hw3 Hs3 _. apply after_ret; [done|]. exists 2%nat. settle. by rewrite advance_advance.
  - intros e s' Hs'. exists 2%nat. rewrite Hs'. settle. by rewrite advance_advance.
Qed.

Lemma filter_enabled_Some found u :
  filter_enabled found = Some u → found = Some u ∧ User.enabled u = true.
Proof. destruct found as [u'|]; simpl; [|done]. destruct (User.enabled u') eqn:He; naive_solver. Qed.

Lemma serve_finish id response now w :
  usable w → after (finish_authentication config id response now) w
    (λ r s', spec_step config (spec_of w) (FinishAuthentication id response now) (LoggedIn r) s').
Proof.
  intros Hw. unfold finish_authentication.
  assert (∀ e s', idles (spec_of w) s' →
    spec_step config (spec_of w) (FinishAuthentication id response now) (LoggedIn (Err e)) s') as Hfail
    by (intros; by apply step_login_fails).
  eapply after_observes; [apply ceremony_law|done| |];
    [intros found w1 Hw1 Hs1 _|intros e s' Hs'; apply Hfail; unchanged].
  apply after_lift; [done|intros cer _|intros; apply Hfail; unchanged].
  apply after_lift; [done|intros handle _|intros; apply Hfail; unchanged].
  eapply after_observes; [apply user_by_handle_law|done| |];
    [intros known w2 Hw2 Hs2 Hknown|intros e s' Hs'; apply Hfail; unchanged].
  apply after_lift; [done|intros user Huser|intros; apply Hfail; unchanged].
  apply ok_or_Ok, filter_enabled_Some in Huser as [-> Hen]. specialize (Hknown _ eq_refl).
  eapply after_observes; [apply credentials_for_user_law|done| |];
    [intros credentials w3 Hw3 Hs3 _|intros e s' Hs'; apply Hfail; unchanged].
  apply after_lift; [done|intros v _|intros; apply Hfail; unchanged].
  assert (spec_of w3 ≡ spec_of w) as Hs by by settle. clear Hs2 Hs3.
  pose proof Hs1 as (Ha & _). rewrite Ha in Hknown. clear Ha Hs1. pose proof Hs as (_ & _ & _ & Hsup).
  eapply after_performs; [apply generate_law; done|]. intros w4 Hw4 Hs4.
  eapply after_performs; [apply generate_law; done|]. intros w5 Hw5 Hs5.
  destruct (new_v4_law w5 Hw5) as [sid Hsid].
  eapply after_performs; [exact Hsid|]. intros w6 Hw6 Hs6.
  assert (spec_of w6 ≡ advance 3 (spec_of w)) as Hs7.
  { rewrite Hs6, Hs5, Hs4, Hs. by rewrite !advance_advance. }
  eapply after_updates; [apply complete_authentication_law|done| |].
  - intros [] w7 Hw7 Hs8. simpl in Hs8. apply after_ret; [done|].
    pose proof Hs4 as (_ & _ & _ & Hsup4).
    rewrite Hsup4. simpl. rewrite !Hsup.
    apply (step_login config (spec_of w) id response now user sid); [done..|].
    rewrite Hs8, Hs7. simpl. rewrite Hsup4. simpl. by rewrite !Hsup.
  - intros e s' Hidle. apply Hfail. rewrite Hs7 in Hidle. by eapply idles_advance.
Qed.

Lemma serve_step c w a w' :
  usable w → serve config c w = (a, w') →
  usable w' ∧ spec_step config (spec_of w) c a (spec_of w').
Proof.
  intros Hw Hc.
  assert (∀ {A} (f : result A AuthError → ServiceAnswer) (m : M W AuthError A),
    serve config c = answer f m → after m w (λ r s', spec_step config (spec_of w) c (f r) s') →
    usable w' ∧ spec_step config (spec_of w) c a (spec_of w')) as Hserve.
  { intros A f m Heq [Hu Hs]. rewrite Heq in Hc. unfold answer in Hc.
    destruct (m w) as [r w1]. by injection Hc as <- <-. }
  destruct c as [token csrf now|token now|token|now|id response now|user now|id operator now|now reason];
    (eapply Hserve; [reflexivity|]); clear Hserve Hc.
  - unfold authenticate_session. eapply after_performs; [by apply session_law|]. intros w1 Hw1 Hs1.
    pose proof (step_authenticate config (spec_of w) token csrf now (spec_of w1) Hs1) as Hstep.
    destruct (look _ _ _ _ _).1 as [p|]; [|by split].
    unfold after, bind, lift. simpl. destruct csrf as [csrf|]; [|by split]. simpl in Hstep.
    case_decide as Hd; [rewrite bool_decide_true by done|rewrite bool_decide_false by done]; by split.
  - unfold issue_session_csrf. eapply after_performs; [by apply generate_law|]. intros w1 Hw1 Hs1.
    eapply after_performs; [apply rotate_session_csrf_law; auto with console|].
    intros w2 Hw2 Hs2.
    destruct (look_proper (SecretToken.hash token) (Some (SecretToken.hash (supply (spec_of w) 0))) now
      (now + AuthConfig.session_idle_ttl config) _ _ Hs1) as [-> Hl].
    rewrite Hl in Hs2. pose proof (step_renew config (spec_of w) token now (spec_of w2) Hs2) as Hstep.
    destruct (look _ _ _ _ _).1 as [p|]; by split.
  - apply after_last. eapply after_performs; [by apply delete_session_law|]. intros w1 Hw1 Hs1.
    apply after_ret; [done|]. by constructor.
  - destruct (serve_start now w Hw) as [Hu Hi]. split; [done|]. by constructor.
  - by apply serve_finish.
  - apply after_last. eapply after_updates; [apply create_recovery_law|done| |].
    + intros request w1 Hw1 [Huser Hs1]. apply after_ret; [done|]. by apply step_request.
    + intros e s' Hs'. by apply step_request_fails.
  - apply after_last. eapply after_updates; [apply approve_recovery_law|done| |].
    + intros [] w1 Hw1 (user & Huser & Hs1). apply after_ret; [done|]. by eapply step_approve.
    + intros e s' Hs'. by apply step_approve_fails.
  - unfold service_rotate_all_auth_epochs. destruct (len (trim reason) <? 12).
    { split; [done|]. apply step_rotate_fails. auto with console. }
    change (after (rotate_all_auth_epochs now (trim reason)) w (λ r s',
      spec_step config (spec_of w) (RotateAllAuthEpochs now reason) (Rotated r) s')).
    apply after_last. eapply after_updates; [apply rotate_all_law|done| |].
    + intros n w1 Hw1 Hs1. apply after_ret; [done|]. by apply step_rotate.
    + intros e s' Hs'. by apply step_rotate_fails.
Qed.

Lemma serve_all_run cs w l w' :
  usable w → serve_all config cs w = (l, w') →
  usable w' ∧ spec_run config (spec_of w) l (spec_of w').
Proof.
  revert w l w'. induction cs as [|c cs IH]; intros w l w' Hw; simpl.
  - intros [= <- <-]. split; [done|by constructor].
  - destruct (serve config c w) as [a w1] eqn:Hc. destruct (serve_all config cs w1) as [l1 w2] eqn:Hr.
    intros [= <- <-]. destruct (serve_step _ _ _ _ Hw Hc) as [Hw1 Hs].
    destruct (IH _ _ _ Hw1 Hr) as [Hw2 Hrun]. split; [done|]. by econstructor.
Qed.

End calls.

(** ** Safety, proved of the specification *)

(** The call presents the token with this hash. *)
Definition presents `{Sha256} (h : SecretHash) (c : ServiceCall) : Prop :=
  match c with
  | AuthenticateSession token _ _ | IssueSessionCsrf token _ => SecretToken.hash token = h
  | _ => False
  end.

Definition refused (a : ServiceAnswer) : Prop :=
  a = Authorised (Err Unauthenticated) ∨ a = Renewed (Err Unauthenticated).

(** The answer opens a session under this hash. *)
Definition opens `{Sha256} (h : SecretHash) (a : ServiceAnswer) : Prop :=
  match a with
  | LoggedIn (Ok (grant, _)) => SecretToken.hash (SessionGrant.token grant) = h
  | _ => False
  end.

(** The call closes the session under this hash: its logout, a rotation of every epoch, or the
    approval of a recovery for the account it belongs to. *)
Definition closes `{Sha256} (s : Spec) (h : SecretHash) (c : ServiceCall) (a : ServiceAnswer) : Prop :=
  match c, a with
  | Logout token, _ => SecretToken.hash token = h
  | RotateAllAuthEpochs _ _, Rotated (Ok _) => True
  | ApproveRecovery id _ _, Approved (Ok _) =>
      ∀ r, held s h = Some r → recovery_of s id = Some (SessionRecord.user_id r)
  | _, _ => False
  end.

Section closing.
Context `{Sha256} (config : AuthConfig).

Lemma idles_held s s' h : idles s s' → held s' h = held s h.
Proof. intros [n (_ & Hh & _)]. by rewrite Hh. Qed.

Lemma hold_held s s' h h' r : s' ≡ hold h r s → held s' h' = if decide (h' = h) then r else held s h'.
Proof.
  intros (_ & -> & _). simpl. case_decide; subst; [apply fn_lookup_insert|by apply fn_lookup_insert_ne].
Qed.

Lemma look_closed h h' csrf now idle s s' :
  held s h = None → s' ≡ (look h' csrf now idle s).2 → held s' h = None.
Proof.
  unfold look. intros Hh. destruct (held s h') as [r|] eqn:Hr; [|by intros (_ & -> & _)].
  destruct (actor s now r); [|by intros (_ & -> & _)]. simpl. intros ->%(hold_held _ _ _ h).
  case_decide; [congruence|done].
Qed.

(** Only a login opens a session. *)
Lemma step_stays_closed s c a s' h :
  spec_step config s c a s' → held s h = None → ¬ opens h a → held s' h = None.
Proof.
  intros Hs Hh Ho. destruct Hs; try by (erewrite idles_held).
  - by eapply look_closed.
  - by eapply look_closed; [|eassumption].
  - match goal with H : _ ≡ _ |- _ => apply (hold_held _ _ _ h) in H as -> end. by case_decide.
  - match goal with H : _ ≡ _ |- _ => apply (hold_held _ _ _ h) in H as -> end.
    case_decide as Hd; [|done]. by destruct Ho.
  - match goal with H : _ ≡ _ |- _ => destruct H as (_ & -> & _) end. done.
  - match goal with H : _ ≡ _ |- _ => destruct H as (_ & -> & _) end. simpl. by rewrite Hh.
  - match goal with H : _ ≡ _ |- _ => destruct H as (_ & -> & _) end. done.
Qed.

Lemma step_closed_refused s c a s' h :
  spec_step config s c a s' → held s h = None → presents h c → refused a.
Proof.
  intros Hs Hh Hp. unfold refused. destruct Hs; simpl in Hp; try done; subst h.
  - subst found. unfold look. rewrite Hh. by left.
  - subst found. unfold look. simpl. rewrite Hh. by right.
Qed.

Lemma step_closes s c a s' h :
  spec_step config s c a s' → closes s h c a → held s' h = None.
Proof.
  intros Hs Hc. destruct Hs; simpl in Hc; try done.
  - match goal with H : _ ≡ _ |- _ => apply (hold_held _ _ _ h) in H as -> end. by case_decide.
  - match goal with H : _ ≡ _ |- _ => destruct H as (_ & -> & _) end. simpl.
    destruct (held s h) as [r|]; [|done]. specialize (Hc _ eq_refl). simpl.
    case_decide; [done|]. congruence.
  - by match goal with H : _ ≡ _ |- _ => destruct H as (_ & -> & _) end.
Qed.

Lemma run_closed_refused s l s' h :
  spec_run config s l s' → held s h = None → (∀ c a, (c, a) ∈ l → ¬ opens h a) →
  ∀ c a, (c, a) ∈ l → presents h c → refused a.
Proof.
  induction 1 as [s s'|s c a l s1 s' Hs Hr IH]; intros Hh Hl c' a' Hin Hp; [set_solver|].
  apply elem_of_cons in Hin as [[= -> ->]|Hin]; [by eapply step_closed_refused|].
  eapply IH; [|set_solver|done..]. eapply step_stays_closed; [done..|]. apply (Hl c). set_solver.
Qed.

End closing.

(** *** Determinism of the calls on open sessions *)

Definition session_call (c : ServiceCall) : bool :=
  match c with AuthenticateSession _ _ _ | IssueSessionCsrf _ _ | Logout _ => true | _ => false end.

Lemma session_step_deterministic `{Sha256} config s t c a b s' t' :
  session_call c = true → s ≡ t → spec_step config s c a s' → spec_step config t c b t' →
  a = b ∧ s' ≡ t'.
Proof.
  intros Hc Hst Hs Ht. eapply spec_step_equiv in Hs; [|exact Hst].
  destruct Hs; try done; inversion Ht; subst.
  - split; [done|]. by etransitivity.
  - split; [done|]. by etransitivity.
  - split; [done|]. by etransitivity.
Qed.

Section agreement.
Context {W : Type} `{Hstore : SessionStore W, CeremonyEngine, Sha256Laws} (config : AuthConfig).

(** Two stores that keep their promises cannot be told apart by calls on open sessions. *)
Lemma session_runs_agree {V : Type} `{Hother : SessionStore V} cs (w : W) (v : V) :
  usable w → usable v → spec_of w ≡ spec_of v → forallb session_call cs = true →
  (serve_all config cs w).1 = (serve_all config cs v).1.
Proof.
  revert w v. induction cs as [|c cs IH]; intros w v Hw Hv Hwv Hcs; simpl; [done|].
  apply andb_true_iff in Hcs as [Hc Hcs].
  destruct (serve config c w) as [a w1] eqn:Hcw. destruct (serve config c v) as [b v1] eqn:Hcv.
  destruct (serve_step config _ _ _ _ Hw Hcw) as [Hw1 Hsw].
  destruct (serve_step config _ _ _ _ Hv Hcv) as [Hv1 Hsv].
  destruct (session_step_deterministic config _ _ _ _ _ _ _ Hc Hwv Hsw Hsv) as [-> Hwv1].
  specialize (IH w1 v1 Hw1 Hv1 Hwv1 Hcs).
  destruct (serve_all config cs w1), (serve_all config cs v1). simpl in *. by subst.
Qed.

End agreement.

(** ** Properties *)

Section properties.
Context {W : Type} `{Hstore : SessionStore W, CeremonyEngine, Sha256Laws} (config : AuthConfig).

(** C11: over every store that keeps its promises, each run of the service is a run of the
    specification, answers included: whichever calls are made in whichever order, sessions are looked up,
    touched, renewed and closed as the abstract table says, a login opens exactly the session it
    answers, and an approved recovery or a rotation removes exactly the sessions of the accounts it
    invalidates. *)
Theorem service_refines_spec cs (w : W) l w' :
  usable w → serve_all config cs w = (l, w') →
  usable w' ∧ l.*1 = cs ∧ spec_run config (spec_of w) l (spec_of w').
Proof.
  intros Hw Hr. destruct (serve_all_run config _ _ _ _ Hw Hr) as [Hw' Hs]. split_and!; [done| |done].
  clear Hw Hs. revert w l Hr. induction cs as [|c cs IH]; intros w l; simpl; [by intros [= <- <-]|].
  destruct (serve config c w) as [a w1]. destruct (serve_all config cs w1) as [l1 w2] eqn:Hr.
  intros [= <- <-]. simpl. by erewrite IH.
Qed.

(** Over every store that keeps its promises a closed session stays closed: once a token was logged
    out, every epoch rotated, or a recovery approved for the account of its session, every later
    call that presents the token is refused as unauthenticated, whatever calls come between, unless
    a login opens a new session under the same token hash. *)
Theorem closed_sessions_are_refused (w : W) c a w1 cs l w2 h :
  usable w → serve config c w = (a, w1) → closes (spec_of w) h c a →
  serve_all config cs w1 = (l, w2) → (∀ c a, (c, a) ∈ l → ¬ opens h a) →
  ∀ c a, (c, a) ∈ l → presents h c → refused a.
Proof.
  intros Hw Hc Hcl Hr Hno. destruct (serve_step config _ _ _ _ Hw Hc) as [Hw1 Hs].
  destruct (serve_all_run config _ _ _ _ Hw1 Hr) as [_ Hrun].
  eapply run_closed_refused; [exact Hrun|by eapply step_closes|exact Hno].
Qed.

End properties.
