(* ===== verification/PgSessions.v ===== *)
(** * PgSessions: the PostgreSQL store keeps the promises of [SessionSpec.v]

    The abstract state of a database: its accounts, the sessions of its unrevoked rows, whom its
    recoveries are for.  In a world without faults, over a database that satisfies the
    schema, each operation of the store does what [SessionStore] promises. *)
From S2P Require Export SessionSpec.

(** ** Operations that draw no random number *)

(** [count] tells how many random numbers were drawn. *)
Definition steady {W E A} (count : W → nat) (c : M W E A) : Prop :=
  ∀ w r w', c w = (r, w') → count w' = count w.

Abbreviation pool_steady := (steady drawn).
Abbreviation tx_steady := (steady (λ t, drawn (world t))).

Section steady.
Context {W E : Type} (count : W → nat).

Lemma steady_ret {A} (a : A) : steady count (ret (E := E) a).
Proof. by intros w r w' [= <- <-]. Qed.

Lemma steady_throw {A} e : steady (A := A) count (throw (E := E) e).
Proof. by intros w r w' [= <- <-]. Qed.

Lemma steady_lift {A} (x : result A E) : steady count (lift x).
Proof. by intros w r w' [= <- <-]. Qed.

Lemma steady_bind {A B} (c : M W E A) (k : A → M W E B) :
  steady count c → (∀ a, steady count (k a)) → steady count (bind c k).
Proof.
  intros Hc Hk w r w'. unfold bind. destruct (c w) as [[a|e] w1] eqn:E1; [|intros [= <- <-]; by eapply Hc].
  intros E2. rewrite (Hk _ _ _ _ E2). by eapply Hc.
Qed.

End steady.

Lemma steady_err_with {W A} (count : W → nat) f (c : M W SqlxError A) :
  steady count c → steady count (err_with f c).
Proof. intros Hc w r w'. unfold err_with. destruct (c w) eqn:E1. intros [= <- <-]. by eapply Hc. Qed.

Lemma next_verdict_drawn w v w' : next_verdict w = (v, w') → drawn w' = drawn w.
Proof. by intros (_ & _ & ? & _)%next_verdict_spec. Qed.

Lemma steady_pool {A} (s : DateTime → statement A) : pool_steady (pool_execute s).
Proof.
  intros w r w'. unfold pool_execute. destruct (next_verdict w) as [v w1] eqn:Hv.
  apply next_verdict_drawn in Hv. destruct v; repeat case_match; intros [= <- <-]; done.
Qed.

Lemma steady_execute {A} (s : DateTime → statement A) : tx_steady (tx_execute s).
Proof.
  intros t r t'. unfold tx_execute. destruct (next_verdict (world t)) as [v w1] eqn:Hv.
  apply next_verdict_drawn in Hv. destruct v; repeat case_match; intros [= <- <-]; done.
Qed.

Lemma steady_commit : tx_steady commit.
Proof.
  intros t r t'. unfold commit. destruct (next_verdict (world t)) as [v w1] eqn:Hv.
  apply next_verdict_drawn in Hv. destruct v; intros [= <- <-]; done.
Qed.

Lemma steady_transaction {A} (body : M Tx AuthError A) : tx_steady body → pool_steady (transaction body).
Proof.
  intros Hb w r w'. unfold transaction. destruct (next_verdict w) as [v w1] eqn:Hv.
  apply next_verdict_drawn in Hv. destruct v; [|by intros [= <- <-]..].
  destruct (body _) as [r1 t] eqn:Hbody. intros [= <- <-]. by rewrite (Hb _ _ _ Hbody).
Qed.

#[export] Hint Resolve steady_ret steady_throw steady_lift steady_pool steady_execute steady_commit : store.

Ltac follow_steady :=
  repeat match goal with
  | |- steady _ (bind _ _) => apply steady_bind; [|intros ?]
  | |- steady _ (store_err _) => apply steady_err_with
  | |- steady _ (err_with _ _) => apply steady_err_with
  | |- steady _ (transaction _) => apply steady_transaction
  | |- steady _ (match ?x with _ => _ end) => destruct x
  | |- steady _ (if ?x then _ else _) => destruct x
  end; eauto with store.

Lemma steady_audit event now : tx_steady (insert_audit event now).
Proof. unfold insert_audit. follow_steady. Qed.

Lemma steady_invalidate user now : tx_steady (invalidate_user_auth user now).
Proof. unfold invalidate_user_auth. follow_steady. Qed.

#[export] Hint Resolve steady_audit steady_invalidate : store.

(** ** The abstract state of a database *)

Definition record_of (k : Uuid) (s : AuthSession.t) : SessionRecord :=
  SessionRecord.mk k (UserId.mk (AuthSession.user_id s)) (SecretHash.mk (AuthSession.token_hash s))
    (SecretHash.mk (AuthSession.csrf_hash s)) (AuthSession.auth_epoch s)
    (AuthSession.idle_expires_at s) (AuthSession.absolute_expires_at s).

(** The row holds an open session under this hash. *)
Definition open_row (h : SecretHash) (_ : Uuid) (s : AuthSession.t) : bool :=
  bool_decide (AuthSession.token_hash s = SecretHash.as_bytes h) && is_null (AuthSession.revoked_at s).

Definition account_in (d : Db) (id : UserId) : option User :=
  account_of (UserId.as_str id) <$> human_users d !! UserId.as_str id.
Definition session_in (d : Db) (h : SecretHash) : option SessionRecord :=
  (λ kv, record_of kv.1 kv.2) <$> head (rows_where (open_row h) (auth_sessions d)).
Definition recovery_in (d : Db) (id : Uuid) : option UserId :=
  (λ r, UserId.mk (Recovery.user_id r)) <$> recovery_requests d !! id.

Definition spec_of_world `{Entropy} (w : World) : Spec :=
  mkSpec (account_in (db w)) (session_in (db w)) (recovery_in (db w)) (λ n, token_at (drawn w + n)).

Definition usable_world (w : World) : Prop := db_wf (db w) ∧ calm w.

Lemma session_in_Some d h r :
  sessions_wf (auth_sessions d) →
  session_in d h = Some r ↔ ∃ k s, auth_sessions d !! k = Some s ∧
    AuthSession.token_hash s = SecretHash.as_bytes h ∧ AuthSession.revoked_at s = None ∧ r = record_of k s.
Proof.
  intros Hd. unfold session_in. split.
  - destruct (head _) as [[k s]|] eqn:Hh; [|done]. intros [= <-].
    apply head_rows_where in Hh as [Hk Ho]. unfold open_row in Ho. bool_prop.
    exists k, s. split_and!; try done. by apply is_null_true.
  - intros (k & s & Hk & Ht & Hr & ->).
    rewrite (rows_where_singleton (open_row h) _ k s Hk); [done| |].
    + unfold open_row. by rewrite bool_decide_true, Hr.
    + intros k' s' Hk' Ho. unfold open_row in Ho. bool_prop.
      apply (sessions_hash _ Hd k' k s' s); [done..|congruence].
Qed.

Lemma session_in_None d h :
  sessions_wf (auth_sessions d) →
  session_in d h = None ↔ ∀ k s, auth_sessions d !! k = Some s →
    AuthSession.token_hash s = SecretHash.as_bytes h → AuthSession.revoked_at s ≠ None.
Proof.
  intros Hd. rewrite eq_None_not_Some. split.
  - intros Hn k s Hk Ht Hr. apply Hn. exists (record_of k s). apply session_in_Some; [done|]. by exists k, s.
  - intros Hall [r (k & s & Hk & Ht & Hr & _)%session_in_Some]; [|done]. by eapply Hall.
Qed.

Lemma hash_mk h b : SecretHash.as_bytes h = b ↔ h = SecretHash.mk b.
Proof. destruct h. simpl. split; [by intros <-|by intros [= <-]]. Qed.

(** What a hash stands for depends on the unrevoked rows that hold it. *)
Lemma session_in_same d d' h :
  sessions_wf (auth_sessions d) → sessions_wf (auth_sessions d') →
  (∀ k s, AuthSession.token_hash s = SecretHash.as_bytes h → AuthSession.revoked_at s = None →
     auth_sessions d' !! k = Some s ↔ auth_sessions d !! k = Some s) →
  session_in d' h = session_in d h.
Proof.
  intros Hd Hd' Hrows. apply option_eq. intros r. rewrite !session_in_Some by done.
  split; intros (k & s & Hk & Ht & Hr & ->); exists k, s; by split_and!; try apply Hrows.
Qed.

(** Updating the row of an open session. *)
Lemma session_in_touch d d' (k : Uuid) s h csrf idle now :
  sessions_wf (auth_sessions d) → sessions_wf (auth_sessions d') →
  auth_sessions d !! k = Some s → AuthSession.revoked_at s = None →
  auth_sessions d' = update_where (λ k' _, k' =? k)
    (set_seen csrf (Z.min idle (AuthSession.absolute_expires_at s)) now) (auth_sessions d) →
  session_in d' h = if decide (h = SecretHash.mk (AuthSession.token_hash s))
                    then Some (touch csrf idle (record_of k s)) else session_in d h.
Proof.
  intros Hd Hd' Hk Hr Heq. case_decide as Hh.
  - apply session_in_Some; [done|]. subst h. exists k. eexists. split_and!.
    + by rewrite Heq, lookup_update_where, Hk, Z.eqb_refl.
    + done.
    + done.
    + by destruct csrf as [[?]|].
  - apply session_in_same; [done..|]. intros k' s' Ht' Hr'.
    rewrite Heq, lookup_update_where. destruct (Z.eqb_spec k' k) as [->|Hne].
    + rewrite Hk. simpl. split; intros [= Hs']; destruct Hh; subst s'; simpl in *; by apply hash_mk.
    + by destruct (auth_sessions d !! k').
Qed.

(** Revoking the open rows [P] selects. *)
Lemma session_in_revoke d d' (P : AuthSession.t → bool) (Q : SessionRecord → bool) at_ h :
  sessions_wf (auth_sessions d) → sessions_wf (auth_sessions d') →
  (∀ k s, P s = Q (record_of k s)) →
  auth_sessions d' = update_where (λ _ s, P s && is_null (AuthSession.revoked_at s))
    (revoke_session at_) (auth_sessions d) →
  session_in d' h = r ← session_in d h; if Q r then None else Some r.
Proof.
  intros Hd Hd' HPQ Heq. apply option_eq. intros r.
  rewrite bind_Some. rewrite session_in_Some by done. setoid_rewrite session_in_Some; [|done].
  rewrite Heq. setoid_rewrite update_where_Some. split.
  - intros (k & s' & (s & Hk & ->) & Ht & Hr & ->). destruct (P s) eqn:HP; simpl in *.
    + destruct (AuthSession.revoked_at s) eqn:Hrs; simpl in *; [congruence|done].
    + exists (record_of k s). split; [by exists k, s|]. by rewrite <- HPQ, HP.
  - intros (r' & (k & s & Hk & Ht & Hr & ->) & HQ). rewrite <- HPQ in HQ.
    destruct (P s) eqn:HP; [done|]. injection HQ as <-. exists k, s. split; [|done].
    exists s. by rewrite HP.
Qed.

(** Inserting an open row under a free key. *)
Lemma session_in_insert d d' (k : Uuid) s h :
  sessions_wf (auth_sessions d) → sessions_wf (auth_sessions d') →
  auth_sessions d !! k = None → AuthSession.revoked_at s = None →
  auth_sessions d' = <[k := s]> (auth_sessions d) →
  session_in d' h = if decide (h = SecretHash.mk (AuthSession.token_hash s))
                    then Some (record_of k s) else session_in d h.
Proof.
  intros Hd Hd' Hk Hr Heq. case_decide as Hh.
  - apply session_in_Some; [done|]. subst h. exists k, s. by rewrite Heq, lookup_insert_eq.
  - apply session_in_same; [done..|]. intros k' s' Ht' Hr'. rewrite Heq.
    destruct (decide (k' = k)) as [->|]; [|by rewrite lookup_insert_ne].
    rewrite lookup_insert_eq, Hk. split; [|done]. intros [= <-]. destruct Hh. by apply hash_mk.
Qed.

(** ** Looking a session up *)

Section world.
Context `{Entropy}.

(** A world whose database agrees on accounts and recoveries, with as many draws. *)
Lemma spec_of_same w w' held :
  drawn w' = drawn w → human_users (db w') = human_users (db w) →
  recovery_requests (db w') = recovery_requests (db w) →
  (∀ h, session_in (db w') h = held h) →
  spec_of_world w' ≡ mkSpec (account_in (db w)) held (recovery_in (db w)) (supply (spec_of_world w)).
Proof.
  intros Hn Hu Hr Hh. split_and!; simpl.
  - intros id. unfold account_in. by rewrite Hu.
  - done.
  - intros id. unfold recovery_in. by rewrite Hr.
  - intros n. by rewrite Hn.
Qed.

Lemma live_session_actor w h now k s :
  live_session (db w) h now k s = true ↔
  open_row h k s = true ∧ ∃ u, human_users (db w) !! AuthSession.user_id s = Some u ∧
    actor (spec_of_world w) now (record_of k s) = Some (account_of (AuthSession.user_id s) u).
Proof.
  unfold live_session, open_row, actor. simpl. unfold account_in. simpl.
  destruct (human_users (db w) !! AuthSession.user_id s) as [u|]; simpl.
  - destruct (HumanUser.enabled u), (AuthSession.auth_epoch s =? HumanUser.auth_epoch u),
      (now <? AuthSession.idle_expires_at s), (now <? AuthSession.absolute_expires_at s);
      rewrite ?andb_true_r, ?andb_false_r; naive_solver.
  - rewrite andb_false_r. naive_solver.
Qed.

(** What [session] and [rotate_session_csrf] did, as a look-up in the abstract state. *)
Lemma looked_up w w' h csrf now idle found :
  db_wf (db w) → db_wf (db w') → drawn w' = drawn w →
  match found with
  | None => db w' = db w ∧
            ∀ k s, auth_sessions (db w) !! k = Some s → live_session (db w) h now k s = false
  | Some p => ∃ k s u,
      auth_sessions (db w) !! k = Some s ∧ live_session (db w) h now k s = true ∧
      human_users (db w) !! AuthSession.user_id s = Some u ∧
      p = SessionPrincipal.mk k (account_of (AuthSession.user_id s) u)
            (default (SecretHash.mk (AuthSession.csrf_hash s)) csrf) (AuthSession.absolute_expires_at s) ∧
      db w' = set_sessions (update_where (λ k' _, k' =? k)
                (set_seen csrf (Z.min idle (AuthSession.absolute_expires_at s)) now)
                (auth_sessions (db w))) (db w)
  end →
  found = (look h csrf now idle (spec_of_world w)).1 ∧
  spec_of_world w' ≡ (look h csrf now idle (spec_of_world w)).2.
Proof.
  intros Hw Hw' Hn Hf. unfold look. simpl.
  pose proof (wf_sessions _ Hw) as Hs. pose proof (wf_sessions _ Hw') as Hs'.
  destruct found as [p|].
  - destruct Hf as (k & s & u & Hk & [Ho (u' & Hu' & Ha)]%live_session_actor & Hu & -> & Hd).
    simplify_eq. unfold open_row in Ho. bool_prop.
    match goal with H : is_null _ = true |- _ => apply is_null_true in H as Hr end.
    rewrite (proj2 (session_in_Some (db w) h (record_of k s) Hs)) by (by exists k, s).
    rewrite Ha. simpl. split; [done|].
    etransitivity; [apply (spec_of_same w w'); [done|by rewrite Hd..|reflexivity]|].
    split_and!; simpl; try done. intros h'.
    rewrite (session_in_touch (db w) (db w') k s h' csrf idle now) by (done || by rewrite Hd).
    assert (h = SecretHash.mk (AuthSession.token_hash s)) as -> by by apply hash_mk.
    case_decide as Hh; [subst; by rewrite fn_lookup_insert|by rewrite fn_lookup_insert_ne].
  - destruct Hf as [Hd Hno].
    assert (spec_of_world w' ≡ spec_of_world w) as Hsame.
    { etransitivity; [apply (spec_of_same w w'); [done|by rewrite Hd..|reflexivity]|].
      split_and!; simpl; try done. intros h'. by rewrite Hd. }
    destruct (session_in (db w) h) as [r|] eqn:Hin; [|done].
    apply session_in_Some in Hin as (k & s & Hk & Ht & Hr & ->); [|done].
    specialize (Hno _ _ Hk). destruct (actor _ _ _) as [u|] eqn:Ha; [|done]. exfalso.
    apply not_true_iff_false in Hno. apply Hno, live_session_actor. split.
    { unfold open_row. by rewrite bool_decide_true, Hr. }
    unfold actor in Ha. simpl in Ha. unfold account_in in Ha. simpl in Ha.
    unfold actor. simpl. unfold account_in. simpl.
    destruct (human_users (db w) !! _) as [u'|]; simpl in *; [|done]. exists u'.
    case_match; [done|discriminate].
Qed.

(** ** Laws from the properties of operations *)

Lemma usable_after {A} (c : M World AuthError A) w r w' :
  safe c → usable_world w → c w = (r, w') → usable_world w'.
Proof.
  intros Hc [Hw Hcalm] Hr. destruct (Hc _ _ _ Hr Hw) as [Hw' _ _ Hv _]. split; [done|].
  unfold calm in *. rewrite Hcalm in Hv. by apply suffix_nil_inv in Hv.
Qed.

Lemma calm_no_loss w : calm w → AnswerLost ∉ verdicts w.
Proof. intros ->. apply not_elem_of_nil. Qed.

Lemma spec_of_unchanged w w' :
  drawn w' = drawn w → db w' = db w → spec_of_world w' ≡ spec_of_world w.
Proof. intros Hn Hd. unfold spec_of_world. by rewrite Hn, Hd. Qed.

Lemma draw_law {A} (f : nat → A) w :
  usable_world w → performs usable_world spec_of_world (draw f) w (f (drawn w)) (advance 1 (spec_of_world w)).
Proof.
  intros [Hw Hc]. eexists. split; [reflexivity|]. split; [by split|].
  split_and!; try done. intros n. simpl. f_equal. lia.
Qed.

Lemma readonly_law {A} (c : M World AuthError A) (P : Spec → A → Prop) :
  safe c → readonly c → pool_steady c →
  (∀ w a w', usable_world w → c w = (Ok a, w') → P (spec_of_world w) a) →
  observes usable_world spec_of_world c P.
Proof.
  intros Hs Hr Hn HP w r w' Hw Hc. split; [by eapply usable_after|]. split.
  - apply spec_of_unchanged; [by eapply Hn|]. by destruct (Hr _ _ _ Hc).
  - intros a ->. by eapply HP.
Qed.

Lemma update_law {A} (c : M World AuthError A) (P : Spec → A → Spec → Prop) :
  safe c → atomic c → pool_steady c →
  (∀ w a w', usable_world w → usable_world w' → drawn w' = drawn w → c w = (Ok a, w') →
     P (spec_of_world w) a (spec_of_world w')) →
  updates usable_world spec_of_world c P.
Proof.
  intros Hs Ha Hn HP w r w' Hw Hc. assert (usable_world w') as Hw' by by eapply usable_after.
  split; [done|]. pose proof (Hn _ _ _ Hc) as Hd. destruct r as [a|e]; [by apply (HP w a w')|].
  exists 0%nat. apply spec_of_unchanged; [done|].
  destruct Hw as [Hw Hcalm]. apply (Ha _ _ _ Hc Hw). by apply calm_no_loss.
Qed.

(** ** Accounts and sessions that are cut off *)

Lemma account_in_bump d d' (P : string → bool) now id :
  human_users d' = update_where (λ k _, P k) (bump_epoch now) (human_users d) →
  account_in d' id = (if P (UserId.as_str id) then next_epoch else λ u, u) <$> account_in d id.
Proof.
  intros Heq. unfold account_in. rewrite Heq, lookup_update_where.
  destruct (human_users d !! UserId.as_str id) as [u|]; [|done]. simpl. f_equal. by destruct (P _).
Qed.

Lemma user_id_eqb id b : bool_decide (UserId.as_str id = b) = bool_decide (id = UserId.mk b).
Proof. apply bool_decide_ext. destruct id. simpl. split; [by intros ->|by intros [= ->]]. Qed.

Lemma spec_of_invalidated w w' user now :
  db_wf (db w) → db_wf (db w') → drawn w' = drawn w →
  human_users (db w') = update_where (λ k _, bool_decide (k = user)) (bump_epoch now) (human_users (db w)) →
  auth_sessions (db w') = update_where (λ _ s, bool_decide (AuthSession.user_id s = user)
    && is_null (AuthSession.revoked_at s)) (revoke_session now) (auth_sessions (db w)) →
  (∀ id, recovery_in (db w') id = recovery_in (db w) id) →
  spec_of_world w' ≡ invalidate (UserId.mk user) (spec_of_world w).
Proof.
  intros Hw Hw' Hn Hu Hs Hr. split_and!; simpl; [| |done|by rewrite Hn].
  - intros id. rewrite (account_in_bump (db w) (db w') (λ k, bool_decide (k = user)) now id Hu).
    rewrite user_id_eqb. by repeat case_decide; rewrite ?bool_decide_true, ?bool_decide_false by done.
  - intros h. rewrite (session_in_revoke (db w) (db w')
      (λ s, bool_decide (AuthSession.user_id s = user))
      (λ r, bool_decide (SessionRecord.user_id r = UserId.mk user)) now h); [|apply Hw|apply Hw'| |done].
    + destruct (session_in (db w) h); [|done]. simpl. by case_bool_decide; case_decide.
    + intros k s. simpl. by rewrite <- user_id_eqb.
Qed.

End world.

(** ** What the operations leave of accounts, sessions and recoveries *)

Lemma complete_authentication_recoveries id v r now audit w w' :
  PgAuthStore.complete_authentication id v r now audit w = (Ok tt, w') →
  recovery_requests (db w') = recovery_requests (db w).
Proof.
  intros Hc. unfold PgAuthStore.complete_authentication in Hc. unwind.
  repeat match goal with
  | H : consume_ceremonies _ _ _ = _ |- _ => injection H as _ Hd1
  | H : use_credential _ _ _ _ _ = _ |- _ => apply use_credential_Ok in H as (Hd2 & _); [|done]
  | H : insert_auth_session _ _ _ = _ |- _ => apply insert_session_Ok in H as [_ Hd3]
  | H : insert_auth_audit_event _ _ = _ |- _ => apply insert_audit_event_Ok in H as Hd4
  | H : db (world _) = working ?t |- context [db (world _)] => rewrite H
  end.
  by rewrite Hd4, Hd3, Hd2, <- Hd1.
Qed.

Lemma create_recovery_Ok `{Entropy} user now w request w' :
  PgAuthStore.create_recovery user now w = (Ok request, w') →
  request = RecoveryRequest.mk (uuid_at (drawn w)) user now None ∧ drawn w' = S (drawn w) ∧
  db w' = set_recoveries (<[uuid_at (drawn w) := Recovery.mk (UserId.as_str user) now None None None None]>
            (recovery_requests (db w))) (db w).
Proof.
  unfold PgAuthStore.create_recovery, draw, err_with, pool_execute, bind, ret. simpl.
  destruct (next_verdict _) as [v w1] eqn:Hv. apply next_verdict_spec in Hv as (D & _ & Hn & _). simpl in *.
  destruct v; [|done|by destruct (insert_recovery_request _ _ _) as [[]|]].
  unfold insert_recovery_request. repeat case_match; try done; simplify_eq/=.
  intros [= <- <-]. simpl. by rewrite D, Hn.
Qed.

Lemma mark_approved_owner id op now d u d' k :
  mark_approved id op now d = Ok (Some u, d') →
  Recovery.user_id <$> recovery_requests d' !! k = Recovery.user_id <$> recovery_requests d !! k.
Proof.
  unfold mark_approved. destruct (head _) as [[k' r]|]; [|done].
  destruct (user_exists op d); [|done]. intros [= <- <-]. simpl. rewrite lookup_update_where.
  destruct (recovery_requests d !! k) as [r'|]; [|done]. simpl. by destruct (_ && _).
Qed.

(** The invalidation of [approve_recovery] and of [break_glass], exactly. *)
Lemma approve_recovery_exact id op now w w' :
  PgAuthStore.approve_recovery id op now w = (Ok tt, w') →
  ∃ r, recovery_requests (db w) !! id = Some r ∧
    human_users (db w') = update_where (λ k _, bool_decide (k = Recovery.user_id r)) (bump_epoch now)
      (human_users (db w)) ∧
    auth_sessions (db w') = update_where (λ _ s, bool_decide (AuthSession.user_id s = Recovery.user_id r)
      && is_null (AuthSession.revoked_at s)) (revoke_session now) (auth_sessions (db w)) ∧
    ∀ k, recovery_in (db w') k = recovery_in (db w) k.
Proof.
  intros Hc. unfold PgAuthStore.approve_recovery in Hc. unwind.
  repeat match goal with
  | H : invalidate_user_auth _ _ _ = _ |- _ => apply invalidate_Ok in H as (? & ? & Hd2)
  | H : insert_auth_audit_event _ _ = _ |- _ => apply insert_audit_event_Ok in H as Hd3
  | H : db w = working _ |- _ => rewrite H
  | H : db (world _) = working ?t |- context [db (world _)] => rewrite H
  end.
  match goal with H : mark_approved _ _ _ _ = _ |- _ => rename H into Hm end.
  pose proof Hm as (r & Hr & _ & _ & <- & _ & _ & Hd1)%mark_approved_Ok. exists r.
  unfold recovery_in. rewrite Hd3, Hd2. simpl. rewrite Hd1. simpl. split_and!; try done.
  intros k. pose proof (mark_approved_owner _ _ _ _ _ _ k Hm) as Ho. revert Ho.
  destruct (recovery_requests (working _) !! k), (recovery_requests (db w) !! k); naive_solver congruence.
Qed.

Lemma break_glass_exact id c now reason w w' :
  PgAuthStore.break_glass id c now reason w = (Ok tt, w') →
  let user := UserId.as_str (Capability.user_id c) in
  human_users (db w') = update_where (λ k _, bool_decide (k = user)) (bump_epoch now) (human_users (db w)) ∧
  auth_sessions (db w') = update_where (λ _ s, bool_decide (AuthSession.user_id s = user)
    && is_null (AuthSession.revoked_at s)) (revoke_session now) (auth_sessions (db w)) ∧
  recovery_requests (db w') = recovery_requests (db w).
Proof.
  intros Hc. cbv zeta. unfold PgAuthStore.break_glass in Hc. unwind.
  repeat match goal with
  | H : revoke_operator_credential _ _ _ = _ |- _ =>
      apply revoke_operator_credential_Ok in H as (cr & _ & _ & Hu & _ & _ & Hd1)
  | H : String.eqb _ _ = true |- _ => apply String.eqb_eq in H as Hown
  | H : invalidate_user_auth _ _ _ = _ |- _ => apply invalidate_Ok in H as (? & ? & Hd2)
  | H : insert_capability_sql _ _ _ = _ |- _ =>
      apply insert_capability_Ok in H as (cap & _ & _ & _ & _ & _ & _ & Hd3)
  | H : insert_auth_audit_event _ _ = _ |- _ => apply insert_audit_event_Ok in H as Hd4
  | H : db w = working _ |- _ => rewrite H
  | H : db (world _) = working ?t |- context [db (world _)] => rewrite H
  end.
  rewrite Hown. rewrite Hd4, Hd3. simpl. rewrite Hd2. simpl. rewrite Hd1. by split_and!.
Qed.

Lemma rotate_all_exact b now reason w n w' :
  PgAuthStore.rotate_all_auth_epochs b now reason w = (Ok n, w') →
  human_users (db w') = update_where (λ _ _, true) (bump_epoch now) (human_users (db w)) ∧
  auth_sessions (db w') = update_where (λ _ s, true && is_null (AuthSession.revoked_at s))
    (revoke_session now) (auth_sessions (db w)) ∧
  recovery_requests (db w') = recovery_requests (db w).
Proof.
  intros Hc. unfold PgAuthStore.rotate_all_auth_epochs in Hc. unwind.
  match goal with H : update_epochs _ _ _ _ = Ok (?rows, working ?t), H' : err_with _ _ ?t = (Ok ?users, ?t') |- _ =>
    assert (t' = t) as -> by (destruct rows; [|destruct b]; unwind; auto);
    apply update_epochs_Ok in H as [-> Hd1] end.
  repeat match goal with
  | H : revoke_sessions _ _ _ = _ |- _ => injection H as _ Hd2
  | H : consume_ceremonies _ _ _ = _ |- _ => injection H as _ Hd3
  | H : consume_capabilities _ _ _ = _ |- _ => injection H as _ Hd4
  | H : insert_auth_audit_event _ _ = _ |- _ => apply insert_audit_event_Ok in H as Hd5
  | H : db (world _) = working ?t |- context [db (world _)] => rewrite H
  end.
  rewrite Hd5. simpl. rewrite <- Hd4, <- Hd3, <- Hd2, Hd1. by split_and!.
Qed.

(** ** The instance *)

Section instance.
Context `{Entropy} (int4_as_i64 : bool).

Local Ltac store_safe := autounfold with store_ops; follow.
Local Ltac store_steady := autounfold with store_ops; follow_steady.
Local Ltac store_atomic := autounfold with store_ops; follow_atomic.

Lemma rotate_session_csrf_calm w h csrf now idle :
  calm w → db_wf (db w) → SecretHash.valid csrf →
  ∃ r w', PgAuthStore.rotate_session_csrf h csrf now idle w = (Ok r, w').
Proof.
  intros Hc Hwf Hv. unfold PgAuthStore.rotate_session_csrf, select_session. rewrite calm_transaction by done.
  unfold bind at 1, store_err. rewrite calm_execute by done. simpl.
  destruct (_ ≫= _) as [row|] eqn:Hr.
  - apply select_session_row in Hr as (k & s & Hs & Hl & Hrow).
    destruct (session_row_converts _ _ _ _ Hwf Hs Hrow) as (u & Hu & -> & _).
    unfold bind. rewrite calm_execute by done. unfold touch_session.
    rewrite (proj2 (hash_ok_iff _) Hv). rewrite calm_commit by done. simpl. eauto.
  - unfold bind. rewrite calm_commit by done. simpl. eauto.
Qed.

Lemma pg_session_law h now idle w :
  usable_world w → performs usable_world spec_of_world (PgAuthStore.session h now idle) w
    (look h None now idle (spec_of_world w)).1 (look h None now idle (spec_of_world w)).2.
Proof.
  intros Hw. pose proof Hw as [Hd Hc].
  destruct (session_calm w Hc h now idle Hd) as (found & w' & Hr).
  assert (usable_world w') as Hw' by (eapply usable_after; [|done|exact Hr]; store_safe).
  assert (pool_steady (PgAuthStore.session h now idle)) as Hn by store_steady.
  destruct (looked_up w w' h None now idle found Hd (proj1 Hw') (Hn _ _ _ Hr)
    (session_Ok _ _ _ _ _ _ Hd Hr)) as [<- Hs].
  by exists w'.
Qed.

Lemma pg_rotate_session_csrf_law h csrf now idle w :
  usable_world w → SecretHash.valid csrf →
  performs usable_world spec_of_world (PgAuthStore.rotate_session_csrf h csrf now idle) w
    (look h (Some csrf) now idle (spec_of_world w)).1 (look h (Some csrf) now idle (spec_of_world w)).2.
Proof.
  intros Hw Hv. pose proof Hw as [Hd Hc].
  destruct (rotate_session_csrf_calm w h csrf now idle Hc Hd Hv) as (found & w' & Hr).
  assert (usable_world w') as Hw' by (eapply usable_after; [|done|exact Hr]; store_safe).
  assert (pool_steady (PgAuthStore.rotate_session_csrf h csrf now idle)) as Hn by store_steady.
  destruct (looked_up w w' h (Some csrf) now idle found Hd (proj1 Hw') (Hn _ _ _ Hr)
    (rotate_session_csrf_Ok _ _ _ _ _ _ _ Hd Hr)) as [<- Hs].
  by exists w'.
Qed.

Lemma pg_delete_session_law h w :
  usable_world w →
  performs usable_world spec_of_world (PgAuthStore.delete_session h) w tt (hold h None (spec_of_world w)).
Proof.
  intros Hw. pose proof Hw as [Hd Hc].
  destruct (PgAuthStore.delete_session h w) as [r w'] eqn:Hr.
  assert (usable_world w') as Hw' by (eapply usable_after; [|done|exact Hr]; store_safe).
  unfold PgAuthStore.delete_session, bind, store_err in Hr. rewrite calm_pool in Hr by done.
  simpl in Hr. injection Hr as <- <-. eexists. split; [|split; [exact Hw'|]].
  { unfold PgAuthStore.delete_session, bind, store_err. by rewrite calm_pool. }
  split_and!; simpl; try done. intros h'.
  rewrite (session_in_revoke (db w) _ (λ s, bool_decide (AuthSession.token_hash s = SecretHash.as_bytes h))
    (λ r, bool_decide (SessionRecord.token_hash r = h)) (server_now w) h');
    [|apply Hd|apply Hw'| |done].
  - destruct (decide (h' = h)) as [->|Hne]; [rewrite fn_lookup_insert|rewrite fn_lookup_insert_ne by done];
      (destruct (session_in (db w) _) as [r|] eqn:Hin; [|done]);
      apply session_in_Some in Hin as (k & s & _ & Ht & _ & ->); [|apply Hd| |apply Hd];
      symmetry in Ht; apply hash_mk in Ht as ->; simpl.
    + by rewrite bool_decide_true.
    + by rewrite bool_decide_false.
  - intros k s. simpl. apply bool_decide_ext. split; [intros Ht; symmetry in Ht; by apply hash_mk in Ht|by intros <-].
Qed.

Lemma pg_user_by_handle_law handle :
  observes usable_world spec_of_world (PgAuthStore.user_by_handle handle)
    (λ s found, ∀ u, found = Some u → accounts s (User.id u) = Some u).
Proof.
  apply readonly_law; [store_safe| |store_steady|].
  - apply readonly_bind; [apply readonly_select|intros ?; apply readonly_lift].
  - intros w found w' [Hd _] Hr u ->. apply user_by_handle_Ok in Hr as (_ & id & row & Hk & -> & _); [|done].
    simpl. unfold account_in. simpl. by rewrite Hk.
Qed.

Lemma pg_credentials_law id :
  observes usable_world spec_of_world (PgAuthStore.credentials_for_user id) (λ _ _, True).
Proof. apply readonly_law; [store_safe|apply readonly_credentials|store_steady|done]. Qed.

Lemma pg_ceremony_law id kind now :
  observes usable_world spec_of_world (PgAuthStore.ceremony id kind now) (λ _ _, True).
Proof. apply readonly_law; [store_safe|apply readonly_ceremony|store_steady|done]. Qed.

Lemma pg_insert_ceremony_law c :
  observes usable_world spec_of_world (PgAuthStore.insert_ceremony c) (λ _ _, True).
Proof.
  intros w r w' Hw Hr. assert (usable_world w') as Hw' by (eapply usable_after; [|done|exact Hr]; store_safe).
  split; [done|]. split; [|done]. destruct Hw as [Hd Hc].
  unfold PgAuthStore.insert_ceremony, store_err in Hr. rewrite calm_pool in Hr by done.
  unfold insert_auth_ceremony in Hr. repeat case_match; simplify_eq/=; done.
Qed.

Lemma pg_complete_authentication_law id v r now audit :
  updates usable_world spec_of_world (PgAuthStore.complete_authentication id v r now audit)
    (λ s _ s', s' ≡ open_session r s).
Proof.
  apply update_law; [store_safe|store_atomic|store_steady|].
  intros w [] w' [Hw _] [Hw' _] Hn Hr.
  apply complete_authentication_recoveries in Hr as Hrec.
  apply complete_authentication_Ok in Hr as (c & _ & _ & _ & Hu & _ & Hfree & Hs & _).
  etransitivity; [apply (spec_of_same w w'); [done..|reflexivity]|].
  split_and!; simpl; try done. intros h.
  rewrite (λ Hr, session_in_insert (db w) (db w') _ _ h (wf_sessions _ Hw) (wf_sessions _ Hw') Hfree Hr Hs)
    by done.
  simpl. destruct r as [id' [user] [token] [csrf] epoch idle absolute]. simpl.
  case_decide as Hh; [subst; by rewrite fn_lookup_insert|by rewrite fn_lookup_insert_ne].
Qed.

Lemma pg_create_recovery_law user now :
  updates usable_world spec_of_world (PgAuthStore.create_recovery user now)
    (λ s request s', RecoveryRequest.user_id request = user ∧
       s' ≡ record_recovery (RecoveryRequest.id request) user (advance 1 s)).
Proof.
  intros w r w' Hw Hr. assert (usable_world w') as Hw' by (eapply usable_after; [|done|exact Hr]; store_safe).
  split; [done|]. destruct r as [request|e].
  - apply create_recovery_Ok in Hr as (-> & Hn & Hd). simpl. split; [done|]. split_and!; simpl.
    + intros id. unfold account_in. by rewrite Hd.
    + intros h. by rewrite Hd.
    + intros id. unfold recovery_in. rewrite Hd. simpl. destruct user as [user].
      destruct (decide (id = uuid_at (drawn w))) as [->|];
        [by rewrite fn_lookup_insert, lookup_insert_eq|by rewrite fn_lookup_insert_ne, lookup_insert_ne].
    + intros n. rewrite Hn. f_equal. lia.
  - exists 1%nat. destruct Hw as [Hd Hc]. 
    assert (drawn w' = S (drawn w)) as Hn.
    { unfold PgAuthStore.create_recovery in Hr.
      apply bind_Err in Hr as [Hr|(id & w1 & [= _ <-] & Hr)]; [done|].
      match type of Hr with ?c _ = _ => assert (pool_steady c) as Hst by follow_steady end.
      by rewrite (Hst _ _ _ Hr). }
    assert (db w' = db w) as Hdb.
    { assert (atomic (PgAuthStore.create_recovery user now)) as Ha by store_atomic.
      eapply Ha; [done..|by apply calm_no_loss]. }
    unfold spec_of_world. rewrite Hn, Hdb. split_and!; try done. intros n. simpl. f_equal. lia.
Qed.

Lemma pg_approve_recovery_law id operator now :
  updates usable_world spec_of_world (PgAuthStore.approve_recovery id operator now)
    (λ s _ s', ∃ user, recovery_of s id = Some user ∧ s' ≡ invalidate user s).
Proof.
  apply update_law; [store_safe|store_atomic|store_steady|].
  intros w [] w' [Hw _] [Hw' _] Hn (r & Hk & Hu & Hs & Hrec)%approve_recovery_exact.
  exists (UserId.mk (Recovery.user_id r)). split; [|by eapply spec_of_invalidated].
  simpl. unfold recovery_in. by rewrite Hk.
Qed.

Lemma pg_break_glass_law id c now reason :
  updates usable_world spec_of_world (PgAuthStore.break_glass id c now reason)
    (λ s _ s', s' ≡ invalidate (Capability.user_id c) s).
Proof.
  apply update_law; [store_safe|store_atomic|store_steady|].
  intros w [] w' [Hw _] [Hw' _] Hn (Hu & Hs & Hrec)%break_glass_exact.
  pose proof (spec_of_invalidated w w' _ now Hw Hw' Hn Hu Hs) as Hi.
  destruct (Capability.user_id c). apply Hi. intros k. unfold recovery_in. by rewrite Hrec.
Qed.

Lemma pg_rotate_all_law now reason :
  updates usable_world spec_of_world (PgAuthStore.rotate_all_auth_epochs int4_as_i64 now reason)
    (λ s _ s', s' ≡ invalidate_all s).
Proof.
  apply update_law; [store_safe|store_atomic|store_steady|].
  intros w n w' [Hw _] [Hw' _] Hn (Hu & Hs & Hrec)%rotate_all_exact. split_and!; simpl; [| | |by rewrite Hn].
  - intros id. by rewrite (account_in_bump (db w) (db w') (λ _, true) now id Hu).
  - intros h. rewrite (session_in_revoke (db w) (db w') (λ _, true) (λ _, true) now h);
      [by destruct (session_in (db w) h)|apply Hw|apply Hw'|done|done].
  - intros id. unfold recovery_in. by rewrite Hrec.
Qed.

(** The store keeps the promises. *)
#[export] Instance pg_session_store : @SessionStore World (pg_auth_store int4_as_i64) world_randomness.
Proof.
  apply (@Build_SessionStore World (pg_auth_store int4_as_i64) world_randomness usable_world spec_of_world).
  - intros w Hw. simpl. rewrite Nat.add_0_r. by apply draw_law.
  - intros w Hw. eexists. by apply draw_law.
  - intros w Hw. eexists. by apply draw_law.
  - apply pg_session_law.
  - apply pg_rotate_session_csrf_law.
  - apply pg_delete_session_law.
  - apply pg_user_by_handle_law.
  - apply pg_credentials_law.
  - apply pg_ceremony_law.
  - apply pg_insert_ceremony_law.
  - apply pg_complete_authentication_law.
  - apply pg_create_recovery_law.
  - apply pg_approve_recovery_law.
  - apply pg_break_glass_law.
  - apply pg_rotate_all_law.
Defined.

End instance.
