(* ===== verification/FakeStore.v ===== *)
(** * FakeStore: the in-memory store and engine of the service's tests ([auth/src/lib.rs], [mod tests])

    [FakeEngine] answers every ceremony; [FakeStore] keeps its state in hash maps behind a mutex.
    Both are instances of the interfaces of [AuthStore.v], and the store keeps the promises of
    [SessionSpec.v], so what is proved of those holds of the service under test as it
    does of the service in production. *)
From S2P Require Export SessionSpec.

(** ** Hash maps

    The order in which a [HashMap] is traversed is unspecified: it is a parameter, a permutation of the
    entries.  Queries by key do not depend on it. *)
Class HashOrder := hash_iter : ∀ {K V : Type} `{Countable K}, gmap K V → list (K * V).
Class HashOrderLaws `{HashOrder} : Prop :=
  hash_iter_perm : ∀ {K V : Type} `{Countable K} (m : gmap K V), hash_iter m ≡ₚ map_to_list m.

Definition hash_values `{HashOrder} {K V} `{Countable K} (m : gmap K V) : list V := (hash_iter m).*2.

Lemma elem_of_hash_values `{HashOrderLaws} {K V} `{Countable K} (m : gmap K V) v :
  v ∈ hash_values m ↔ ∃ k, m !! k = Some v.
Proof.
  unfold hash_values. rewrite list_elem_of_fmap. split.
  - intros ([k v'] & -> & Hin). rewrite hash_iter_perm in Hin. exists k. by apply elem_of_map_to_list.
  - intros [k Hk]. exists (k, v). split; [done|]. rewrite hash_iter_perm. by apply elem_of_map_to_list.
Qed.

#[export] Instance SecretHash_countable : Countable SecretHash.
Proof. by apply (inj_countable' SecretHash.as_bytes SecretHash.mk); intros []. Defined.

(** ** [FakeEngine] *)

Definition json_state : Value := Object [("server_state", Str "opaque")].

Module FakeEngine.
Section engine.
Context `{UuidText}.

Definition start_registration (_ : Seed) (_ : User) (_ : list StoredCredential)
    : result (Value * Value) AuthError :=
  Ok (Object [("challenge", Str "register")], json_state).

Definition finish_registration (_ _ : Value) : result VerifiedCredential AuthError :=
  Ok (VerifiedCredential.mk (from_bytes (replicate 32 (char 7))) (Object [("public", Bool true)])).

Definition start_authentication (_ : Seed) : result (Value * Value) AuthError :=
  Ok (Object [("challenge", Str "login")], json_state).

Definition authentication_user_handle (response : Value) : result Uuid AuthError :=
  try? text := ok_or (value_as_str (value_index "handle" response)) InvalidInput in
  ok_or (uuid_parse text) InvalidInput.

Definition finish_authentication (_ _ : Value) (credentials : list StoredCredential)
    : result AuthenticationVerification AuthError :=
  try? credential := ok_or (head credentials) Verification in
  Ok (AuthenticationVerification.mk (StoredCredential.credential_id credential)
        (StoredCredential.public_data credential)).

End engine.
End FakeEngine.

#[export] Instance fake_engine `{UuidText} : CeremonyEngine := {
  engine_start_registration := FakeEngine.start_registration;
  engine_finish_registration := FakeEngine.finish_registration;
  engine_start_authentication := FakeEngine.start_authentication;
  engine_authentication_user_handle := FakeEngine.authentication_user_handle;
  engine_finish_authentication := FakeEngine.finish_authentication;
}.

(** ** [FakeStore]

    [FakeWorld] is the value of the mutex, whether a panic poisoned it, and the count of random
    draws.  Every method takes the lock for as long as it runs, so methods are atomic steps. *)
Record FakeState := mkFakeState {
  users : gmap string User;
  capabilities : gmap SecretHash Capability;
  ceremonies : gmap Uuid Ceremony;
  credentials : list StoredCredential;
  sessions : gmap SecretHash SessionRecord;
  recoveries : gmap Uuid RecoveryRequest;
}.

Record FakeWorld := mkFakeWorld {
  fake_state : FakeState;
  poisoned : bool;
  fake_drawn : nat;
}.

Definition fake_draw {A E} (f : nat → A) : M FakeWorld E A := λ w,
  (Ok (f (fake_drawn w)), mkFakeWorld (fake_state w) (poisoned w) (S (fake_drawn w))).

#[export] Instance fake_randomness `{Entropy} : Randomness FakeWorld := {
  new_v4 := fake_draw uuid_at;
  generate := fake_draw token_at;
  engine_seed := fake_draw (λ n, n);
}.

(** The fields a method assigns. *)
Definition with_users m s := mkFakeState m (capabilities s) (ceremonies s) (credentials s) (sessions s) (recoveries s).
Definition with_capabilities m s := mkFakeState (users s) m (ceremonies s) (credentials s) (sessions s) (recoveries s).
Definition with_ceremonies m s := mkFakeState (users s) (capabilities s) m (credentials s) (sessions s) (recoveries s).
Definition with_credentials l s := mkFakeState (users s) (capabilities s) (ceremonies s) l (sessions s) (recoveries s).
Definition with_sessions m s := mkFakeState (users s) (capabilities s) (ceremonies s) (credentials s) m (recoveries s).
Definition with_recoveries m s := mkFakeState (users s) (capabilities s) (ceremonies s) (credentials s) (sessions s) m.

(** [user.auth_epoch += 1]: exact below [i64::MAX], which epochs, starting at 1, do not reach. *)
Definition bump_user (u : User) : User :=
  User.mk (User.id u) (User.webauthn_handle u) (User.email u) (User.display_name u) (User.role u)
    (User.enabled u) (User.auth_epoch u + 1).

Definition bump_users (m : gmap string User) : gmap string User := bump_user <$> m.

(** [get_mut(&user_id)] and the increment, if the account is there. *)
Definition bump_user_at (user_id : string) (s : FakeState) : FakeState :=
  with_users (alter bump_user user_id (users s)) s.

(** The three [retain]s of [approve_recovery] and [break_glass]. *)
Definition retain_others (user_id : string) (s : FakeState) : FakeState :=
  mkFakeState (users s)
    (filter (λ kv, UserId.as_str (Capability.user_id kv.2) ≠ user_id) (capabilities s))
    (filter (λ kv, UserId.as_str <$> Ceremony.user_id kv.2 ≠ Some user_id) (ceremonies s))
    (credentials s)
    (filter (λ kv, UserId.as_str (SessionRecord.user_id kv.2) ≠ user_id) (sessions s))
    (recoveries s).

Module FakeStore.
Section store.
Context `{HashOrder, Entropy}.

Definition new (user : User) : FakeState :=
  mkFakeState {[ UserId.as_str (User.id user) := user ]} ∅ ∅ [] ∅ ∅.

(** [self.0.lock().map_err(|_| AuthError::Store)?]. *)
Definition lock : M FakeWorld AuthError FakeState := λ w,
  if poisoned w then (Err Store, w) else (Ok (fake_state w), w).

(** What a method that holds the lock leaves in the state. *)
Definition put (s : FakeState) : M FakeWorld AuthError unit := λ w,
  (Ok tt, mkFakeWorld s (poisoned w) (fake_drawn w)).

Definition user_by_id (id : UserId) : M FakeWorld AuthError (option User) :=
  let! state := lock in ret (users state !! UserId.as_str id).

Definition user_by_handle (handle : Uuid) : M FakeWorld AuthError (option User) :=
  let! state := lock in
  ret (find (λ user, User.webauthn_handle user =? handle) (hash_values (users state))).

Definition credentials_for_user (user_id : UserId) : M FakeWorld AuthError (list StoredCredential) :=
  let! state := lock in
  ret (filter (λ credential, StoredCredential.user_id credential = user_id) (credentials state)).

Definition operator_without_credential : M FakeWorld AuthError (option User) :=
  let! state := lock in
  let has_operator_credential := existsb (λ credential,
    match users state !! UserId.as_str (StoredCredential.user_id credential) with
    | Some user => bool_decide (User.role user = RoleOperator)
    | None => false
    end && is_null (StoredCredential.revoked_at credential)) (credentials state) in
  if has_operator_credential then ret None
  else ret (find (λ user, bool_decide (User.role user = RoleOperator) && User.enabled user)
              (hash_values (users state))).

Definition operator_exists : M FakeWorld AuthError bool :=
  let! state := lock in
  ret (existsb (λ user, bool_decide (User.role user = RoleOperator)) (hash_values (users state))).

Definition operator_recovery_window (now : DateTime) : M FakeWorld AuthError (option (User * SecretHash)) :=
  let! state := lock in
  ret (capability ← find (λ capability,
         bool_decide (Capability.purpose capability = OperatorRecoveryPurpose)
         && (now <? Capability.expires_at capability)) (hash_values (capabilities state));
       user ← users state !! UserId.as_str (Capability.user_id capability);
       Some (user, Capability.token_hash capability)).

Definition capability (hash : SecretHash) (purpose : CapabilityPurpose) (now : DateTime)
    : M FakeWorld AuthError (option Capability) :=
  let! state := lock in
  ret (capability ← capabilities state !! hash;
       if bool_decide (Capability.purpose capability = purpose) && (now <? Capability.expires_at capability)
       then Some capability else None).

Definition insert_capability (capability : Capability) : M FakeWorld AuthError unit :=
  let! state := lock in
  put (with_capabilities (<[Capability.token_hash capability := capability]> (capabilities state)) state).

Definition insert_user (user : User) (_ : DateTime) (_ : AuditEvent) : M FakeWorld AuthError unit :=
  let! state := lock in
  if bool_decide (is_Some (users state !! UserId.as_str (User.id user))) then throw Conflict
  else put (with_users (<[UserId.as_str (User.id user) := user]> (users state)) state).

Definition approve_user_with_setup (user : User) (capability : Capability) (_ : UserId) (_ : DateTime)
    : M FakeWorld AuthError unit :=
  let! state := lock in
  if bool_decide (is_Some (users state !! UserId.as_str (User.id user))) then throw Conflict
  else
    let state := with_users (<[UserId.as_str (User.id user) := user]> (users state)) state in
    put (with_capabilities (<[Capability.token_hash capability := capability]> (capabilities state)) state).

Definition rotate_all_auth_epochs (_ : DateTime) (_ : string) : M FakeWorld AuthError Z :=
  let! state := lock in
  let count := Z.of_nat (size (users state)) in
  do! put (mkFakeState (bump_users (users state)) ∅ ∅ (credentials state) ∅ (recoveries state)) in
  ret count.

Definition insert_ceremony (ceremony : Ceremony) : M FakeWorld AuthError unit :=
  let! state := lock in
  put (with_ceremonies (<[Ceremony.id ceremony := ceremony]> (ceremonies state)) state).

Definition ceremony (id : Uuid) (kind : CeremonyKind) (now : DateTime)
    : M FakeWorld AuthError (option Ceremony) :=
  let! state := lock in
  ret (ceremony ← ceremonies state !! id;
       if bool_decide (Ceremony.kind ceremony = kind) && (now <? Ceremony.expires_at ceremony)
       then Some ceremony else None).

(** [.remove(&id).filter(|c| c.expires_at > now).ok_or(InvalidState)?]: an expired ceremony is removed
    too. *)
Definition take_ceremony (id : Uuid) (now : DateTime) : M FakeWorld AuthError Ceremony :=
  let! state := lock in
  do! put (with_ceremonies (delete id (ceremonies state)) state) in
  lift (ok_or (ceremony ← ceremonies state !! id;
               if now <? Ceremony.expires_at ceremony then Some ceremony else None) InvalidState).

Definition take_capability (hash : SecretHash) : M FakeWorld AuthError unit :=
  let! state := lock in
  do! put (with_capabilities (delete hash (capabilities state)) state) in
  do! lift (ok_or (capabilities state !! hash) InvalidState) in
  ret tt.

(** The lock is held from the first step to the last. *)
Definition complete_registration (ceremony_id : Uuid) (capability_hash : option SecretHash)
    (credential : VerifiedCredential) (now : DateTime) (_ : AuditEvent)
    : M FakeWorld AuthError unit :=
  let! ceremony := take_ceremony ceremony_id now in
  do! match capability_hash with Some hash => take_capability hash | None => ret tt end in
  let! id := new_v4 in
  let! user_id := lift (ok_or (Ceremony.user_id ceremony) InvalidState) in
  let! state := lock in
  put (with_credentials (credentials state ++ [StoredCredential.mk id user_id
    (VerifiedCredential.credential_id credential) (VerifiedCredential.public_data credential) None]) state).

Definition complete_authentication (ceremony_id : Uuid) (_ : AuthenticationVerification)
    (session : SessionRecord) (now : DateTime) (_ : AuditEvent) : M FakeWorld AuthError unit :=
  do! take_ceremony ceremony_id now in
  let! state := lock in
  put (with_sessions (<[SessionRecord.token_hash session := session]> (sessions state)) state).

(** [session] and [rotate_session_csrf]: the second also sets the hash before it answers. *)
Definition use_session (token_hash : SecretHash) (csrf_hash : option SecretHash)
    (now idle_expires_at : DateTime) : M FakeWorld AuthError (option SessionPrincipal) :=
  let! state := lock in
  match sessions state !! token_hash with
  | None => ret None
  | Some session =>
      match users state !! UserId.as_str (SessionRecord.user_id session) with
      | None => ret None
      | Some user =>
          if (SessionRecord.idle_expires_at session <=? now)
             || (SessionRecord.absolute_expires_at session <=? now)
             || negb (SessionRecord.auth_epoch session =? User.auth_epoch user)
          then ret None
          else
            let csrf_hash := default (SessionRecord.csrf_hash session) csrf_hash in
            let session := SessionRecord.mk (SessionRecord.id session) (SessionRecord.user_id session)
              (SessionRecord.token_hash session) csrf_hash (SessionRecord.auth_epoch session)
              (Z.min idle_expires_at (SessionRecord.absolute_expires_at session))
              (SessionRecord.absolute_expires_at session) in
            do! put (with_sessions (<[token_hash := session]> (sessions state)) state) in
            ret (Some (SessionPrincipal.mk (SessionRecord.id session) user csrf_hash
                         (SessionRecord.absolute_expires_at session)))
      end
  end.

Definition session (token_hash : SecretHash) (now idle_expires_at : DateTime)
    : M FakeWorld AuthError (option SessionPrincipal) := use_session token_hash None now idle_expires_at.

Definition rotate_session_csrf (token_hash csrf_hash : SecretHash) (now idle_expires_at : DateTime)
    : M FakeWorld AuthError (option SessionPrincipal) :=
  use_session token_hash (Some csrf_hash) now idle_expires_at.

Definition delete_session (token_hash : SecretHash) : M FakeWorld AuthError unit :=
  let! state := lock in put (with_sessions (delete token_hash (sessions state)) state).

Definition create_recovery (user_id : UserId) (now : DateTime) : M FakeWorld AuthError RecoveryRequest :=
  let! id := new_v4 in
  let request := RecoveryRequest.mk id user_id now None in
  let! state := lock in
  do! put (with_recoveries (<[id := request]> (recoveries state)) state) in
  ret request.

Definition pending_recoveries : M FakeWorld AuthError (list RecoveryRequest) :=
  let! state := lock in ret (hash_values (recoveries state)).

Definition approve_recovery (recovery_id : Uuid) (_ : UserId) (now : DateTime)
    : M FakeWorld AuthError unit :=
  let! state := lock in
  let! recovery := lift (ok_or (recoveries state !! recovery_id) Conflict) in
  let state := with_recoveries (<[recovery_id := RecoveryRequest.mk (RecoveryRequest.id recovery)
    (RecoveryRequest.user_id recovery) (RecoveryRequest.requested_at recovery) (Some now)]>
    (recoveries state)) state in
  let user_id := UserId.as_str (RecoveryRequest.user_id recovery) in
  put (retain_others user_id (bump_user_at user_id state)).

Definition issue_recovery_setup (_ : Uuid) (capability : Capability) (_ : UserId) (_ : DateTime)
    : M FakeWorld AuthError unit := insert_capability capability.

Definition break_glass (_ : Uuid) (capability : Capability) (_ : DateTime) (_ : string)
    : M FakeWorld AuthError unit :=
  let! state := lock in
  let user_id := UserId.as_str (Capability.user_id capability) in
  let state := retain_others user_id (bump_user_at user_id state) in
  put (with_capabilities (<[Capability.token_hash capability := capability]> (capabilities state)) state).

End store.
End FakeStore.

#[export] Instance fake_auth_store `{HashOrder, Entropy} : AuthStore FakeWorld := {
  user_by_id := FakeStore.user_by_id;
  user_by_handle := FakeStore.user_by_handle;
  credentials_for_user := FakeStore.credentials_for_user;
  operator_without_credential := FakeStore.operator_without_credential;
  operator_exists := FakeStore.operator_exists;
  operator_recovery_window := FakeStore.operator_recovery_window;
  capability := FakeStore.capability;
  insert_capability := FakeStore.insert_capability;
  insert_user := FakeStore.insert_user;
  approve_user_with_setup := FakeStore.approve_user_with_setup;
  rotate_all_auth_epochs := FakeStore.rotate_all_auth_epochs;
  insert_ceremony := FakeStore.insert_ceremony;
  ceremony := FakeStore.ceremony;
  complete_registration := FakeStore.complete_registration;
  complete_authentication := FakeStore.complete_authentication;
  session := FakeStore.session;
  rotate_session_csrf := FakeStore.rotate_session_csrf;
  delete_session := FakeStore.delete_session;
  create_recovery := FakeStore.create_recovery;
  pending_recoveries := FakeStore.pending_recoveries;
  approve_recovery := FakeStore.approve_recovery;
  issue_recovery_setup := FakeStore.issue_recovery_setup;
  break_glass := FakeStore.break_glass;
}.

(** ** The store keeps the promises of the sessions' specification

    It never checks that an account is enabled, so it does so while every account is. *)
Record coherent (s : FakeState) : Prop := {
  users_keyed k u : users s !! k = Some u → UserId.as_str (User.id u) = k;
  users_enabled k u : users s !! k = Some u → User.enabled u = true;
  sessions_keyed h r : sessions s !! h = Some r → SessionRecord.token_hash r = h;
}.

Definition usable_fake (w : FakeWorld) : Prop := poisoned w = false ∧ coherent (fake_state w).

Definition spec_of_fake `{Entropy} (w : FakeWorld) : Spec :=
  mkSpec (λ id, users (fake_state w) !! UserId.as_str id) (λ h, sessions (fake_state w) !! h)
    (λ id, RecoveryRequest.user_id <$> recoveries (fake_state w) !! id)
    (λ n, token_at (fake_drawn w + n)).

Section promises.
Context `{HashOrderLaws, Entropy}.
Implicit Types (w : FakeWorld).

Lemma with_lock {A} (k : FakeState → M FakeWorld AuthError A) w :
  poisoned w = false → (let! state := FakeStore.lock in k state) w = k (fake_state w) w.
Proof. intros Hp. unfold bind, FakeStore.lock. by rewrite Hp. Qed.

(** A state the abstraction cannot tell from another. *)
Lemma spec_of_fake_same w s :
  users s = users (fake_state w) → sessions s = sessions (fake_state w) →
  recoveries s = recoveries (fake_state w) →
  spec_of_fake (mkFakeWorld s (poisoned w) (fake_drawn w)) ≡ spec_of_fake w.
Proof. intros Hu Hs Hr. split_and!; simpl; intros ?; by rewrite ?Hu, ?Hs, ?Hr. Qed.

Lemma coherent_same s s' :
  users s' = users s → sessions s' = sessions s → coherent s → coherent s'.
Proof. intros Hu Hs [Hk He Hh]. by constructor; rewrite ?Hu, ?Hs. Qed.

Lemma coherent_sessions s m :
  coherent s → (∀ h r, m !! h = Some r → SessionRecord.token_hash r = h) → coherent (with_sessions m s).
Proof. intros [Hk He _] Hm. by constructor. Qed.

Lemma coherent_bump f s k :
  coherent s → (∀ h r, sessions (f s) !! h = Some r → sessions s !! h = Some r) →
  users (f s) = alter bump_user k (users s) ∨ users (f s) = bump_users (users s) → coherent (f s).
Proof.
  intros [Hkey Hen Hh] Hs Hu.
  assert (∀ k' u, users (f s) !! k' = Some u → ∃ u', users s !! k' = Some u' ∧ (u = u' ∨ u = bump_user u')) as Hold.
  { intros k' u. destruct Hu as [-> | ->].
    - destruct (decide (k' = k)) as [->|]; [rewrite lookup_alter_eq|rewrite lookup_alter_ne by done];
        intros ?; simplify_option_eq; eauto.
    - unfold bump_users. rewrite lookup_fmap. intros ?; simplify_option_eq. eauto. }
  constructor.
  - intros k' u (u' & Hu' & [-> | ->])%Hold; simpl; by apply Hkey.
  - intros k' u (u' & Hu' & [-> | ->])%Hold; simpl; by eapply Hen.
  - intros h r Hr. by apply Hh, Hs.
Qed.

(** A method that reads. *)
Lemma fake_reads {A} (f : FakeState → A) (P : Spec → A → Prop) :
  (∀ w, usable_fake w → P (spec_of_fake w) (f (fake_state w))) →
  observes usable_fake spec_of_fake (let! state := FakeStore.lock in ret (f state)) P.
Proof.
  intros HP w r w' Hw. rewrite with_lock by apply Hw. intros [= <- <-]. split_and!; try done.
  intros a [= <-]. by apply HP.
Qed.

Lemma fake_look h csrf now idle w :
  usable_fake w → performs usable_fake spec_of_fake (FakeStore.use_session h csrf now idle) w
    (look h csrf now idle (spec_of_fake w)).1 (look h csrf now idle (spec_of_fake w)).2.
Proof.
  intros Hw. pose proof Hw as [Hp Hc]. unfold FakeStore.use_session, look, actor.
  unfold performs. rewrite with_lock by done. simpl.
  destruct (sessions (fake_state w) !! h) as [r|] eqn:Hr; [|by exists w].
  destruct (users (fake_state w) !! _) as [u|] eqn:Hu; [|by exists w].
  rewrite (users_enabled _ Hc _ _ Hu), !Z.leb_antisym. simpl.
  destruct (SessionRecord.auth_epoch r =? User.auth_epoch u), (now <? SessionRecord.idle_expires_at r),
    (now <? SessionRecord.absolute_expires_at r); simpl; try by exists w.
  eexists. split; [reflexivity|]. split.
  - split; [done|]. apply coherent_sessions; [done|]. intros h' r' Hr'.
    apply lookup_insert_Some in Hr' as [[<- <-]|[_ Hr']]; simpl; by apply (sessions_keyed _ Hc).
  - split_and!; simpl; try done. intros h'.
    destruct (decide (h' = h)) as [->|]; [by rewrite fn_lookup_insert, lookup_insert_eq|].
    by rewrite fn_lookup_insert_ne, lookup_insert_ne.
Qed.

Lemma fake_draw_law {A} (f : nat → A) w :
  usable_fake w →
  performs usable_fake spec_of_fake (fake_draw f) w (f (fake_drawn w)) (advance 1 (spec_of_fake w)).
Proof.
  intros Hw. eexists. split; [reflexivity|]. split; [done|].
  split_and!; try done. intros n. simpl. f_equal. lia.
Qed.

Lemma fake_insert_ceremony_law c :
  observes usable_fake spec_of_fake (FakeStore.insert_ceremony c) (λ _ _, True).
Proof.
  intros w r w' [Hp Hc]. unfold FakeStore.insert_ceremony. rewrite with_lock by done.
  intros [= <- <-]. split; [|done]. split; [done|]. by apply (coherent_same (fake_state w)).
Qed.

Lemma fake_delete_session_law h w :
  usable_fake w →
  performs usable_fake spec_of_fake (FakeStore.delete_session h) w tt (hold h None (spec_of_fake w)).
Proof.
  intros [Hp Hc]. unfold performs, FakeStore.delete_session. rewrite with_lock by done.
  eexists. split; [reflexivity|]. split.
  - split; [done|]. apply coherent_sessions; [done|]. intros h' r Hr.
    apply lookup_delete_Some in Hr as [_ Hr]. by apply (sessions_keyed _ Hc).
  - split_and!; simpl; try done. intros h'.
    destruct (decide (h' = h)) as [->|]; [by rewrite fn_lookup_insert, lookup_delete_eq|].
    by rewrite fn_lookup_insert_ne, lookup_delete_ne.
Qed.

Lemma fake_complete_authentication_law id v r now audit :
  updates usable_fake spec_of_fake (FakeStore.complete_authentication id v r now audit)
    (λ s _ s', s' ≡ open_session r s).
Proof.
  intros w a w' [Hp Hc]. unfold FakeStore.complete_authentication, FakeStore.take_ceremony.
  unfold bind at 1. rewrite with_lock by done. unfold FakeStore.put at 1, bind at 1, lift.
  assert (coherent (with_ceremonies (delete id (ceremonies (fake_state w))) (fake_state w))) as Hc1
    by (by apply (coherent_same (fake_state w))).
  destruct (ok_or _ InvalidState) as [c|e].
  - rewrite with_lock by done. intros [= <- <-]. split.
    + split; [done|]. simpl. apply (coherent_sessions _ _ Hc1). intros h r' Hr.
      apply lookup_insert_Some in Hr as [[<- <-]|[_ Hr]]; [done|]. by apply (sessions_keyed _ Hc).
    + split_and!; simpl; try done. intros h.
      destruct (decide (h = SessionRecord.token_hash r)) as [->|];
        [by rewrite fn_lookup_insert, lookup_insert_eq|by rewrite fn_lookup_insert_ne, lookup_insert_ne].
  - intros [= <- <-]. split; [by split|]. by exists 0%nat.
Qed.

Lemma fake_create_recovery_law user now :
  updates usable_fake spec_of_fake (FakeStore.create_recovery user now)
    (λ s request s', RecoveryRequest.user_id request = user ∧
       s' ≡ record_recovery (RecoveryRequest.id request) user (advance 1 s)).
Proof.
  intros w a w' [Hp Hc]. unfold FakeStore.create_recovery, bind, FakeStore.lock. simpl.
  rewrite Hp. intros [= <- <-].
  split; [split; [done|by apply (coherent_same (fake_state w))]|]. simpl. split; [done|]. split_and!; simpl; try done.
  - intros id. destruct (decide (id = uuid_at (fake_drawn w))) as [->|];
      [by rewrite fn_lookup_insert, lookup_insert_eq|by rewrite fn_lookup_insert_ne, lookup_insert_ne].
  - intros n. f_equal. lia.
Qed.

(** The increment and the [retain]s cut an account off, whatever else the method assigns. *)
Lemma fake_invalidates w user s :
  usable_fake w → users s = users (fake_state w) → sessions s = sessions (fake_state w) →
  (∀ id, RecoveryRequest.user_id <$> recoveries s !! id =
         RecoveryRequest.user_id <$> recoveries (fake_state w) !! id) →
  let w' := mkFakeWorld (retain_others (UserId.as_str user) (bump_user_at (UserId.as_str user) s))
              (poisoned w) (fake_drawn w) in
  usable_fake w' ∧ spec_of_fake w' ≡ invalidate user (spec_of_fake w).
Proof.
  intros [Hp Hc] Hu Hs Hr w'. assert (coherent s) as Hcs by by apply (coherent_same (fake_state w)). split.
  - split; [done|].
    apply (coherent_bump (λ s, retain_others (UserId.as_str user) (bump_user_at (UserId.as_str user) s))
      s (UserId.as_str user)); [done| |by left].
    intros h r. simpl. rewrite map_lookup_filter_Some. by intros [].
  - split_and!; simpl; [|intros h|done|done].
    + intros id. rewrite Hu. case_decide as Hid; [subst; by rewrite lookup_alter_eq|].
      rewrite lookup_alter_ne by (intros Heq; apply Hid; destruct id, user; simpl in *; congruence).
      by destruct (users (fake_state w) !! _).
    + rewrite Hs. apply option_eq. intros r. rewrite map_lookup_filter_Some, bind_Some. simpl. split.
      * intros [Hr' Hne]. exists r. split; [done|]. by rewrite decide_False by (by intros <-).
      * intros (r' & Hr' & Hd). case_decide as Hne; [done|]. injection Hd as <-. split; [done|].
        intros Heq. destruct Hne. destruct (SessionRecord.user_id r'), user. simpl in *. congruence.
Qed.

Lemma fake_approve_recovery_law id operator now :
  updates usable_fake spec_of_fake (FakeStore.approve_recovery id operator now)
    (λ s _ s', ∃ user, recovery_of s id = Some user ∧ s' ≡ invalidate user s).
Proof.
  intros w a w' Hw. unfold FakeStore.approve_recovery. rewrite with_lock by apply Hw.
  unfold bind, lift. destruct (recoveries (fake_state w) !! id) as [r|] eqn:Hr; simpl;
    [|intros [= <- <-]; split; [done|by exists 0%nat]].
  intros [= <- <-].
  destruct (fake_invalidates w (RecoveryRequest.user_id r) (with_recoveries (<[id :=
    RecoveryRequest.mk (RecoveryRequest.id r) (RecoveryRequest.user_id r)
      (RecoveryRequest.requested_at r) (Some now)]> (recoveries (fake_state w))) (fake_state w)))
    as [Hu Hs]; [done..| |].
  - intros id'. simpl. destruct (decide (id' = id)) as [->|];
      [by rewrite lookup_insert_eq, Hr|by rewrite lookup_insert_ne].
  - split; [exact Hu|]. exists (RecoveryRequest.user_id r). split; [by rewrite Hr|exact Hs].
Qed.

Lemma fake_break_glass_law id c now reason :
  updates usable_fake spec_of_fake (FakeStore.break_glass id c now reason)
    (λ s _ s', s' ≡ invalidate (Capability.user_id c) s).
Proof.
  intros w a w' Hw. unfold FakeStore.break_glass. rewrite with_lock by apply Hw. intros [= <- <-].
  destruct (fake_invalidates w (Capability.user_id c) (fake_state w)) as [[Hp Hc] Hs]; [done..|].
  split; [split; [done|by eapply coherent_same; [..|exact Hc]]|]. exact Hs.
Qed.

Lemma fake_rotate_all_law now reason :
  updates usable_fake spec_of_fake (FakeStore.rotate_all_auth_epochs now reason)
    (λ s _ s', s' ≡ invalidate_all s).
Proof.
  intros w a w' [Hp Hc]. unfold FakeStore.rotate_all_auth_epochs. rewrite with_lock by done.
  intros [= <- <-]. split.
  - split; [done|]. simpl. apply (coherent_bump (λ s, mkFakeState (bump_users (users s)) ∅ ∅
      (credentials s) ∅ (recoveries s)) _ ""); [done| |by right].
    intros h r. simpl. by rewrite lookup_empty.
  - split_and!; simpl; try done. intros id. apply lookup_fmap.
Qed.

#[export] Instance fake_session_store : SessionStore FakeWorld.
Proof.
  apply (@Build_SessionStore FakeWorld fake_auth_store fake_randomness usable_fake spec_of_fake).
  - intros w Hw. simpl. rewrite Nat.add_0_r. by apply fake_draw_law.
  - intros w Hw. eexists. by apply fake_draw_law.
  - intros w Hw. eexists. by apply fake_draw_law.
  - intros h now idle w Hw. by apply fake_look.
  - intros h csrf now idle w Hw _. by apply fake_look.
  - apply fake_delete_session_law.
  - intros handle. apply fake_reads. intros w [_ Hc] u Hu.
    apply find_elem in Hu as [(k & Hk)%elem_of_hash_values _].
    simpl. by rewrite (users_keyed _ Hc _ _ Hk).
  - intros id. by apply fake_reads.
  - intros id kind now. by apply fake_reads.
  - apply fake_insert_ceremony_law.
  - apply fake_complete_authentication_law.
  - apply fake_create_recovery_law.
  - apply fake_approve_recovery_law.
  - apply fake_break_glass_law.
  - apply fake_rotate_all_law.
Defined.


End promises.
