(* ===== verification/AuthTests.v ===== *)
(** * AuthTests: the unit tests of the authentication crate ([auth/src/lib.rs], [mod tests])

    Each test is the program it is in the source, over [FakeStore] and [FakeEngine].  They pass at
    every instant, whatever randomness is drawn and whatever order the hash maps are traversed in. *)
From S2P Require Export FakeStore Testing.

Section tests.
Context `{HashOrder, Entropy, Base64, Sha256, UuidText}.

Abbreviation Test := (M FakeWorld Failure).

Definition config : AuthConfig := AuthConfig.default.

(** [Utc::now()] is the argument [now] of each test. *)
Definition test_user : Test User :=
  let! id := expect_ok "valid ID" (UserId.new "user-1") in
  let! handle := expect "" new_v4 in
  ret (User.mk id handle "user@example.test" "Test User" RoleUser true 1).

(** [Arc::new(FakeStore::new(user))]: the one store of the test, a fresh mutex. *)
Definition new_store (user : User) : Test unit := λ w,
  (Ok tt, mkFakeWorld (FakeStore.new user) false (fake_drawn w)).

Definition tokens_are_256_bit_url_safe_values_and_hashes_hide_plaintext : Test unit :=
  let! token := expect "" generate in
  let encoded := SecretToken.expose token in
  let! parsed := expect_ok "token parses" (SecretToken.parse encoded) in
  do! assert_eq (len encoded) 43 in
  do! assert_eq (SecretToken.hash parsed) (SecretToken.hash token) in
  do! assert (negb (contains encoded (SecretHash.fmt (SecretToken.hash token)))) in
  assert (negb (bool_decide (SecretHash.as_bytes (SecretToken.hash token) = encoded))).

Definition malformed_tokens_are_rejected : Test unit :=
  do! assert_err InvalidToken (lift (SecretToken.parse "short")) in
  assert_err InvalidToken (lift (SecretToken.parse "not+url/safe")).

Definition registration_state_and_capability_are_one_use_and_expire (now : DateTime) : Test unit :=
  let! user := test_user in
  do! new_store user in
  let! setup := expect "" generate in
  let! id := expect "" new_v4 in
  do! expect "capability inserts" (insert_capability (Capability.mk id (User.id user) Setup
        (SecretToken.hash setup) (now + AuthConfig.minutes 1))) in
  let! (ceremony_id, _) := expect "registration starts" (start_setup_registration config setup Setup now) in
  do! expect "registration finishes once" (finish_registration ceremony_id Registration Null now) in
  do! assert_err InvalidState (finish_registration ceremony_id Registration Null now) in
  assert_err InvalidToken (start_setup_registration config setup Setup (now + AuthConfig.minutes 2)).

(** [store.0.lock().expect("lock")]. *)
Definition locked : Test FakeState := expect "lock" FakeStore.lock.

Definition logout_and_epoch_change_revoke_sessions (now : DateTime) : Test unit :=
  let! user := test_user in
  let handle := User.webauthn_handle user in
  do! new_store user in
  let! state := locked in
  let! id := expect "" new_v4 in
  do! expect "" (FakeStore.put (with_credentials (credentials state ++ [StoredCredential.mk id
        (User.id user) (from_bytes (replicate 32 (char 3))) json_state None]) state)) in
  let! (ceremony_id, _) := expect "login starts" (start_authentication config now) in
  let response := Object [("handle", Str (uuid_text handle))] in
  let! (grant, _) := expect "login finishes" (finish_authentication config ceremony_id response now) in
  do! expect "session authenticates"
        (authenticate_session config (SessionGrant.token grant) (Some (SessionGrant.csrf grant)) now) in
  do! expect "logout succeeds" (logout (SessionGrant.token grant)) in
  do! assert_err Unauthenticated (authenticate_session config (SessionGrant.token grant) None now) in
  let! (ceremony_id, _) := expect "second login starts" (start_authentication config now) in
  let! (second, _) := expect "second login finishes" (finish_authentication config ceremony_id response now) in
  let! recovery := expect "recovery requested" (request_recovery (User.id user) now) in
  do! expect "recovery approved"
        (service_approve_recovery (RecoveryRequest.id recovery) (User.id user) now) in
  do! assert_err Unauthenticated (authenticate_session config (SessionGrant.token second) None now) in
  let! state := locked in
  do! assert (bool_decide (ceremonies state = ∅)) in
  assert (bool_decide (capabilities state = ∅)).

Definition approved_user_receives_one_use_setup_capability (now : DateTime) : Test unit :=
  let! operator_id := expect_ok "valid ID" (UserId.new "operator") in
  let! handle := expect "" new_v4 in
  let operator := User.mk operator_id handle "operator@example.test" "Operator" RoleOperator true 1 in
  do! new_store operator in
  let! user_id := expect_ok "valid ID" (UserId.new "user-2") in
  let! token := expect "approval issues setup" (approve_user_and_issue_setup config (User.id operator)
        user_id "user-2@example.test" "Approved User" now) in
  let! (ceremony_id, _) := expect "setup starts" (start_setup_registration config token Setup now) in
  do! expect "setup finishes" (finish_registration ceremony_id Registration Null now) in
  assert_err InvalidToken (start_setup_registration config token Setup now).

End tests.

(** ** Evaluation of the tests *)

Create HintDb tests discriminated.

Definition tester (handle : Uuid) : User :=
  User.mk (UserId.mk "user-1") handle "user@example.test" "Test User" RoleUser true 1.

#[local] Hint Unfold start_setup_registration finish_registration start_authentication
  finish_authentication authenticate_session logout request_recovery service_approve_recovery
  approve_user_and_issue_setup FakeStore.take_ceremony FakeStore.take_capability
  FakeStore.use_session FakeStore.complete_registration FakeStore.complete_authentication
  FakeStore.new with_users with_capabilities with_ceremonies with_credentials with_sessions
  with_recoveries retain_others bump_user_at tester config bind lift : tests.

Lemma hash_values_one `{HashOrderLaws} (k : string) (u : User) : hash_values (<[k := u]> ∅) = [u].
Proof.
  unfold hash_values. pose proof (hash_iter_perm (<[k := u]> ∅)) as Hp.
  rewrite map_to_list_insert, map_to_list_empty in Hp by done.
  apply Permutation_singleton_r in Hp. by rewrite Hp.
Qed.

Lemma trim_test_email : trim "user-2@example.test" = "user-2@example.test".
Proof. by vm_compute. Qed.
Lemma trim_test_name : trim "Approved User" = "Approved User".
Proof. by vm_compute. Qed.

(** A text of another length is no token. *)
Lemma parse_wrong_length `{Base64Laws} value :
  String.length value ≠ 43%nat → SecretToken.parse value = Err InvalidToken.
Proof.
  intros Hl. destruct (SecretToken.parse value) as [s|e] eqn:Hp.
  - apply parse_Ok in Hp as [Hv ->]. by rewrite expose_length in Hl.
  - by rewrite (parse_Err _ _ Hp).
Qed.

Ltac minutes_lia :=
  unfold AuthConfig.hours, AuthConfig.minutes, AuthConfig.seconds in *; lia.

(** Evaluates a call on the state the test has built so far: look-ups of the keys just inserted,
    deadlines of minutes from now. *)
Ltac evaluate := repeat first
  [ progress autounfold with tests
  | progress cbn -[trim uuid_text hash_values AuthConfig.minutes AuthConfig.hours Z.add Z.ltb Z.leb]
  | rewrite lookup_insert_eq | rewrite lookup_singleton_eq | rewrite lookup_delete_eq
  | rewrite lookup_empty | rewrite insert_insert_eq | rewrite delete_insert_eq | rewrite delete_empty
  | rewrite trim_test_email | rewrite trim_test_name
  | rewrite map_filter_empty | rewrite map_filter_insert_False by (intros Hn; by apply Hn)
  | rewrite hash_values_one | rewrite Z.eqb_refl | rewrite uuid_parse_text by done
  | rewrite bool_decide_true by done | rewrite decide_True by done
  | rewrite (proj2 (Z.ltb_lt _ _)) by minutes_lia
  | rewrite (proj2 (Z.ltb_ge _ _)) by minutes_lia
  | rewrite (proj2 (Z.leb_gt _ _)) by minutes_lia ].
Ltac call := test_step; [evaluate; reflexivity|].
Ltac last_call := test_step; evaluate; reflexivity.

Section runs.
Context `{HashOrderLaws, Entropy, Base64Laws, Sha256Laws, UuidTextLaws}.
Implicit Types (w : FakeWorld).

Lemma test_user_run w :
  test_user w = (Ok (tester (uuid_at (fake_drawn w))),
                 mkFakeWorld (fake_state w) (poisoned w) (S (fake_drawn w))).
Proof. reflexivity. Qed.

Lemma tokens_pass w :
  (∀ n, SecretToken.valid (token_at n)) →
  passes tokens_are_256_bit_url_safe_values_and_hashes_hide_plaintext w.
Proof.
  intros Hv. unfold tokens_are_256_bit_url_safe_values_and_hashes_hide_plaintext.
  pose proof (expose_length _ (Hv (fake_drawn w))) as Hl.
  test_step; [reflexivity|]. test_step; [unfold lift; rewrite parse_expose by apply Hv; reflexivity|].
  test_step; [unfold assert_eq, assert; rewrite bool_decide_true; [done|unfold len; by rewrite Hl]|].
  test_step; [unfold assert_eq, assert; by rewrite bool_decide_true|].
  test_step; [unfold assert; rewrite contains_longer; [done|]|].
  { rewrite Hl. simpl. lia. }
  test_step. unfold assert. rewrite bool_decide_false; [reflexivity|]. intros He.
  apply (f_equal String.length) in He. rewrite Hl in He. simpl in He. by rewrite sha256_length in He.
Qed.

Lemma malformed_pass w : passes malformed_tokens_are_rejected w.
Proof.
  unfold malformed_tokens_are_rejected.
  test_step; [unfold lift; by rewrite parse_wrong_length|].
  test_step. unfold lift. by rewrite parse_wrong_length.
Qed.

Lemma registration_passes now w : passes (registration_state_and_capability_are_one_use_and_expire now) w.
Proof.
  unfold registration_state_and_capability_are_one_use_and_expire.
  test_step; [apply test_user_run|]. do 6 call. last_call.
Qed.

Lemma logout_passes now w :
  (∀ n, 0 ≤ uuid_at n < 2 ^ 128) → passes (logout_and_epoch_change_revoke_sessions now) w.
Proof.
  intros Hid. unfold logout_and_epoch_change_revoke_sessions.
  test_step; [apply test_user_run|]. cbn [User.webauthn_handle tester]. do 16 call. last_call.
Qed.

Lemma approval_passes now w : passes (approved_user_receives_one_use_setup_capability now) w.
Proof. unfold approved_user_receives_one_use_setup_capability. do 7 call. last_call. Qed.

(** The unit tests of the crate pass, at every instant and for every source of randomness and
    every order of traversal of the hash maps: tokens are 43 characters that parse back and
    their hash shows nothing of them; malformed tokens are rejected; a setup capability and its ceremony
    work once; logout and the approval of a recovery end sessions; an approved account gets one
    registration. *)
Theorem auth_tests_pass now w :
  (∀ n, SecretToken.valid (token_at n)) → (∀ n, 0 ≤ uuid_at n < 2 ^ 128) →
  passes tokens_are_256_bit_url_safe_values_and_hashes_hide_plaintext w ∧
  passes malformed_tokens_are_rejected w ∧
  passes (registration_state_and_capability_are_one_use_and_expire now) w ∧
  passes (logout_and_epoch_change_revoke_sessions now) w ∧
  passes (approved_user_receives_one_use_setup_capability now) w.
Proof.
  intros Ht Hu. split_and!;
    [by apply tokens_pass|apply malformed_pass|apply registration_passes|by apply logout_passes|
     apply approval_passes].
Qed.

End runs.
