(* ===== verification/StoreAgreement.v ===== *)
(** * StoreAgreement: the fake store of the tests against the PostgreSQL store

    [mirror] writes what a database says of accounts, open sessions and recoveries into the
    hash maps of the fake store.  Both stores keep the promises of [SessionSpec.v], so on calls
    about open sessions the mirror answers as the database does. *)
From S2P Require Export PgSessions FakeStore.

Definition mirror_users (d : Db) : gmap string User :=
  map_imap (λ id r, Some (account_of id r)) (human_users d).

Definition open_rows (d : Db) : list (Uuid * AuthSession.t) :=
  rows_where (λ _ s, is_null (AuthSession.revoked_at s)) (auth_sessions d).

Definition mirror_sessions (d : Db) : gmap SecretHash SessionRecord :=
  list_to_map ((λ kv, (SecretHash.mk (AuthSession.token_hash kv.2), record_of kv.1 kv.2)) <$> open_rows d).

Definition mirror_recoveries (d : Db) : gmap Uuid RecoveryRequest :=
  map_imap (λ id r, Some (RecoveryRequest.mk id (UserId.mk (Recovery.user_id r))
    (Recovery.requested_at r) (Recovery.approved_at r))) (recovery_requests d).

Definition mirror (w : World) : FakeWorld :=
  mkFakeWorld (mkFakeState (mirror_users (db w)) ∅ ∅ [] (mirror_sessions (db w)) (mirror_recoveries (db w)))
    false (drawn w).

Definition all_enabled (d : Db) : Prop := map_Forall (λ _ u, HumanUser.enabled u = true) (human_users d).

Lemma elem_of_open_rows d k s :
  (k, s) ∈ open_rows d ↔ auth_sessions d !! k = Some s ∧ AuthSession.revoked_at s = None.
Proof.
  unfold open_rows. rewrite elem_of_rows_where.
  split; intros [Hk Hr]; (split; [done|]); [by apply is_null_true|by rewrite Hr].
Qed.

(** Token hashes are unique, so each open row has its own key in the mirror. *)
Lemma mirror_keys_NoDup d :
  sessions_wf (auth_sessions d) →
  NoDup (((λ kv, (SecretHash.mk (AuthSession.token_hash kv.2), record_of kv.1 kv.2)) <$> open_rows d).*1).
Proof.
  intros Hd. rewrite <- list_fmap_compose. apply NoDup_fmap_2_strong.
  - intros [k1 s1] [k2 s2] [H1 _]%elem_of_open_rows [H2 _]%elem_of_open_rows [= Ht].
    assert (k1 = k2) as -> by by apply (sessions_hash _ Hd k1 k2 s1 s2). congruence.
  - apply NoDup_filter, NoDup_map_to_list.
Qed.

Lemma mirror_sessions_lookup d h :
  sessions_wf (auth_sessions d) → mirror_sessions d !! h = session_in d h.
Proof.
  intros Hd. apply option_eq. intros r. unfold mirror_sessions.
  rewrite <- elem_of_list_to_map by by apply mirror_keys_NoDup.
  rewrite session_in_Some by done. rewrite list_elem_of_fmap. split.
  - intros ([k s] & [= -> ->] & [Hk Hr]%elem_of_open_rows). by exists k, s.
  - intros (k & s & Hk & Ht & Hr & ->). exists (k, s). split; [|by apply elem_of_open_rows].
    symmetry in Ht. apply hash_mk in Ht as ->. done.
Qed.

Section agreement.
Context `{Entropy}.

Lemma mirror_spec w : db_wf (db w) → spec_of_fake (mirror w) ≡ spec_of_world w.
Proof.
  intros Hw. split_and!; simpl; [| | |done].
  - intros [id]. unfold mirror_users, account_in. rewrite map_lookup_imap. simpl. by destruct (_ !! id).
  - intros h. apply mirror_sessions_lookup, Hw.
  - intros id. unfold mirror_recoveries, recovery_in. rewrite map_lookup_imap. by destruct (_ !! id).
Qed.

Lemma mirror_usable w : db_wf (db w) → all_enabled (db w) → usable_fake (mirror w).
Proof.
  intros Hw He. split; [done|]. constructor; simpl.
  - intros k u. unfold mirror_users. rewrite map_lookup_imap.
    destruct (human_users (db w) !! k) eqn:Hk; [|done]. by intros [= <-].
  - intros k u. unfold mirror_users. rewrite map_lookup_imap.
    destruct (human_users (db w) !! k) as [r|] eqn:Hk; [|done]. intros [= <-]. by apply (He k r).
  - intros h r. rewrite mirror_sessions_lookup by apply Hw.
    intros (k & s & _ & Ht & _ & ->)%session_in_Some; [|apply Hw]. symmetry in Ht. by apply hash_mk in Ht.
Qed.

(** C14: the tests' store stands for the production store where sessions are concerned: over a
    well-formed database whose accounts are enabled, and without faults, every sequence of
    authentications, anti-forgery renewals and logouts gets from the service over PostgreSQL
    exactly the answers it gets from the service over the fake store that mirrors the database. *)
Theorem fake_mirrors_postgres `{HashOrderLaws, CeremonyEngine, Sha256Laws} (int4_as_i64 : bool)
    (config : AuthConfig) cs w :
  db_wf (db w) → calm w → all_enabled (db w) → forallb session_call cs = true →
  (@serve_all World (pg_auth_store int4_as_i64) world_randomness _ _ config cs w).1 =
  (serve_all config cs (mirror w)).1.
Proof.
  intros Hw Hc He Hcs.
  apply (@session_runs_agree World _ _ (pg_session_store int4_as_i64) _ _ _ config FakeWorld _ _
    fake_session_store);
    [by split|by apply mirror_usable|symmetry; by apply mirror_spec|done].
Qed.

End agreement.
