(* ===== verification/Webauthn.v ===== *)
(** * Webauthn: the WebAuthn engine ([server/src/webauthn.rs])

    [WebauthnEngine] adapts the webauthn-rs library to the trait [CeremonyEngine].  The library,
    the URL parser and their serde conversions are an interface of abstract types; what
    the engine itself does is defined here, and the engine is an instance of the trait's
    class. *)
From S2P Require Export AuthService.

(** ** Third-party interfaces *)

(** crate [url]. *)
Class UrlLib := {
  Url : Type;
  url_parse : string → option Url;
  url_path : Url → string;
  url_query : Url → option string;
  url_fragment : Url → option string;
}.

(** crate [webauthn_rs]: a relying party, its ceremonies, and the JSON of its data.  A passkey that is
    updated with a result is the new passkey; [None] says that it does not belong to it. *)
Class WebauthnLib `{UrlLib} := {
  WebauthnBuilder : Type;
  Webauthn : Type;
  Passkey : Type;
  PasskeyRegistration : Type;
  DiscoverableKey : Type;
  DiscoverableAuthentication : Type;
  RegisterPublicKeyCredential : Type;
  PublicKeyCredential : Type;
  AuthenticationResult : Type;
  builder_new : string → Url → option WebauthnBuilder;
  rp_name : WebauthnBuilder → string → WebauthnBuilder;
  build : WebauthnBuilder → option Webauthn;
  passkey_cred_id : Passkey → string;
  passkey_from_value : Value → option Passkey;
  passkey_to_value : Passkey → option Value;
  registration_from_value : Value → option PasskeyRegistration;
  registration_to_value : PasskeyRegistration → option Value;
  authentication_from_value : Value → option DiscoverableAuthentication;
  authentication_to_value : DiscoverableAuthentication → option Value;
  register_response_from_value : Value → option RegisterPublicKeyCredential;
  credential_response_from_value : Value → option PublicKeyCredential;
  (** A challenge is only ever serialised, which may fail. *)
  start_passkey_registration : Webauthn → Seed → Uuid → string → string → option (list string) →
    option (option Value * PasskeyRegistration);
  finish_passkey_registration :
    Webauthn → RegisterPublicKeyCredential → PasskeyRegistration → option Passkey;
  start_discoverable_authentication :
    Webauthn → Seed → option (option Value * DiscoverableAuthentication);
  identify_discoverable_authentication : Webauthn → PublicKeyCredential → option (Uuid * string);
  discoverable_key : Passkey → DiscoverableKey;
  finish_discoverable_authentication : Webauthn → PublicKeyCredential → DiscoverableAuthentication →
    list DiscoverableKey → option AuthenticationResult;
  result_cred_id : AuthenticationResult → string;
  update_credential : Passkey → AuthenticationResult → option Passkey;
}.

(** ** JSON objects as maps *)

(** [Value::get] on an object. *)
Fixpoint member (entries : list (string * Value)) (key : string) : option Value :=
  match entries with
  | [] => None
  | (k, v) :: entries => if String.eqb k key then Some v else member entries key
  end.

(** [Map::insert] and the writes through [get_mut]: in place when the key is present, otherwise at
    its position in the order of keys. *)
Fixpoint insert_member (key : string) (v : Value) (entries : list (string * Value))
    : list (string * Value) :=
  match entries with
  | [] => [(key, v)]
  | (k, old) :: rest =>
      match String.compare key k with
      | Lt => (key, v) :: entries
      | Eq => (k, v) :: rest
      | Gt => (k, old) :: insert_member key v rest
      end
  end.

(** [challenge.pointer_mut("/publicKey/authenticatorSelection").and_then(as_object_mut)] and the two
    insertions through it. *)
Definition require_resident_key (challenge : Value) : option Value :=
  match challenge with
  | Object entries =>
      match member entries "publicKey" with
      | Some (Object public_key) =>
          match member public_key "authenticatorSelection" with
          | Some (Object selection) =>
              let selection := insert_member "requireResidentKey" (Bool true)
                                 (insert_member "residentKey" (Str "required") selection) in
              Some (Object (insert_member "publicKey"
                (Object (insert_member "authenticatorSelection" (Object selection) public_key)) entries))
          | _ => None
          end
      | _ => None
      end
  | _ => None
  end.

Definition PRODUCTION_RP_ID : string := "ricardosaad.com".
Definition PRODUCTION_ORIGIN : string := "https://ricardosaad.com".

Module WebauthnEngine.
Section engine.
Context `{WebauthnLib}.

Definition new (rp_id origin : string) (production : bool) : result Webauthn AuthError :=
  if production && (negb (String.eqb rp_id PRODUCTION_RP_ID) || negb (String.eqb origin PRODUCTION_ORIGIN))
  then Err InvalidInput
  else
    try? origin := ok_or (url_parse origin) InvalidInput in
    if negb (String.eqb (url_path origin) "/") || negb (is_null (url_query origin))
       || negb (is_null (url_fragment origin))
    then Err InvalidInput
    else
      try? builder := ok_or (builder_new rp_id origin) InvalidInput in
      ok_or (build (rp_name builder "RS Platform")) InvalidInput.

Definition stored_passkey (credential : StoredCredential) : result Passkey AuthError :=
  ok_or (passkey_from_value (StoredCredential.public_data credential)) Store.

Definition start_registration (webauthn : Webauthn) (seed : Seed) (user : User)
    (credentials : list StoredCredential) : result (Value * Value) AuthError :=
  try? passkeys := collect (stored_passkey <$> credentials) in
  let exclude := passkey_cred_id <$> passkeys in
  try? (challenge, state) := ok_or (start_passkey_registration webauthn seed (User.webauthn_handle user)
    (User.email user) (User.display_name user)
    (match exclude with [] => None | _ => Some exclude end)) Verification in
  try? challenge := ok_or challenge Store in
  try? challenge := ok_or (require_resident_key challenge) Store in
  try? state := ok_or (registration_to_value state) Store in
  Ok (challenge, state).

Definition finish_registration (webauthn : Webauthn) (response state : Value)
    : result VerifiedCredential AuthError :=
  try? response := ok_or (register_response_from_value response) InvalidInput in
  try? state := ok_or (registration_from_value state) InvalidState in
  try? passkey := ok_or (finish_passkey_registration webauthn response state) Verification in
  try? data := ok_or (passkey_to_value passkey) Store in
  Ok (VerifiedCredential.mk (passkey_cred_id passkey) data).

Definition start_authentication (webauthn : Webauthn) (seed : Seed) : result (Value * Value) AuthError :=
  try? (challenge, state) := ok_or (start_discoverable_authentication webauthn seed) Verification in
  try? challenge := ok_or challenge Store in
  try? state := ok_or (authentication_to_value state) Store in
  Ok (challenge, state).

Definition authentication_user_handle (webauthn : Webauthn) (response : Value) : result Uuid AuthError :=
  try? response := ok_or (credential_response_from_value response) InvalidInput in
  ok_or (fst <$> identify_discoverable_authentication webauthn response) Verification.

Definition finish_authentication (webauthn : Webauthn) (response state : Value)
    (credentials : list StoredCredential) : result AuthenticationVerification AuthError :=
  try? response := ok_or (credential_response_from_value response) InvalidInput in
  try? state := ok_or (authentication_from_value state) InvalidState in
  try? passkeys := collect (stored_passkey <$> credentials) in
  try? found := ok_or (finish_discoverable_authentication webauthn response state
                         (discoverable_key <$> passkeys)) Verification in
  let credential_id := result_cred_id found in
  try? passkey := ok_or (find (λ p, String.eqb (passkey_cred_id p) credential_id) passkeys) Verification in
  try? passkey := ok_or (update_credential passkey found) Verification in
  try? data := ok_or (passkey_to_value passkey) Store in
  Ok (AuthenticationVerification.mk credential_id data).

End engine.
End WebauthnEngine.

(** The engine of a relying party. *)
Definition webauthn_engine `{WebauthnLib} (webauthn : Webauthn) : CeremonyEngine := {|
  engine_start_registration := WebauthnEngine.start_registration webauthn;
  engine_finish_registration := WebauthnEngine.finish_registration webauthn;
  engine_start_authentication := WebauthnEngine.start_authentication webauthn;
  engine_authentication_user_handle := WebauthnEngine.authentication_user_handle webauthn;
  engine_finish_authentication := WebauthnEngine.finish_authentication webauthn;
|}.

(** ** Properties *)

Lemma member_insert key v entries key' :
  member (insert_member key v entries) key' = if String.eqb key key' then Some v else member entries key'.
Proof.
  induction entries as [|[k old] entries IH]; simpl; [done|].
  destruct (String.compare key k) eqn:Hc; simpl.
  - apply String.compare_eq_iff in Hc as ->. by destruct (String.eqb k key').
  - done.
  - rewrite IH. destruct (String.eqb_spec k key') as [->|], (String.eqb_spec key key') as [->|]; try done.
    pose proof (String.compare_antisym key' key') as Ha. by rewrite Hc in Ha.
Qed.

Lemma member_insert_eq key v entries : member (insert_member key v entries) key = Some v.
Proof. by rewrite member_insert, String.eqb_refl. Qed.
Lemma member_insert_ne key v entries key' :
  key' ≠ key → member (insert_member key v entries) key' = member entries key'.
Proof. intros Hne. rewrite member_insert. by destruct (String.eqb_spec key key'). Qed.

Section properties.
Context `{WebauthnLib, Entropy, Sha256} (int4_as_i64 : bool).

(** C8: no session without verification: with the real engine, after a successful login, under whatever
    faults, the library has verified the response against the stored state of a live
    authentication ceremony and the passkeys of active credentials of the account that logged
    in, the account is the one whose handle the response names, and the credential the library
    reports is an active credential of that account. *)
Theorem login_is_verified (webauthn : Webauthn) config ceremony_id response now w grant user w1 :
  db_wf (db w) →
  @finish_authentication World (pg_auth_store int4_as_i64) _ (webauthn_engine webauthn) _
    config ceremony_id response now w = (Ok (grant, user), w1) →
  let active k cr := passkey_credentials (db w) !! k = Some cr ∧
    PasskeyCredential.user_id cr = UserId.as_str (User.id user) ∧
    PasskeyCredential.revoked_at cr = None in
  ∃ c parsed state passkeys found handle_id,
    auth_ceremonies (db w) !! ceremony_id = Some c ∧ AuthCeremony.kind c = "authentication" ∧
    AuthCeremony.consumed_at c = None ∧ now < AuthCeremony.expires_at c ∧
    credential_response_from_value response = Some parsed ∧
    authentication_from_value (AuthCeremony.state c) = Some state ∧
    identify_discoverable_authentication webauthn parsed = Some (User.webauthn_handle user, handle_id) ∧
    finish_discoverable_authentication webauthn parsed state (discoverable_key <$> passkeys) = Some found ∧
    (∀ p, p ∈ passkeys → ∃ k cr, active k cr ∧
       passkey_from_value (PasskeyCredential.public_data cr) = Some p) ∧
    (∃ p, p ∈ passkeys ∧ passkey_cred_id p = result_cred_id found ∧ is_Some (update_credential p found)) ∧
    ∃ k cr, active k cr ∧ PasskeyCredential.credential_id cr = result_cred_id found.
Proof.
  intros Hw Hf active.
  apply (finish_authentication_engine (H0 := webauthn_engine webauthn)) in Hf
    as (c & credentials & v & Hc & Hk & Hn & Hlive & Hhandle & Hfin & Hcreds & Hown); [|done].
  simpl in Hhandle, Hfin. unfold WebauthnEngine.authentication_user_handle in Hhandle.
  unfold WebauthnEngine.finish_authentication in Hfin.
  apply rbind_Ok in Hhandle as (parsed & Hp%ok_or_Ok & Hid%ok_or_Ok).
  apply fmap_Some in Hid as ([handle handle_id] & Hid & ->).
  inv_ok. repeat match goal with H : ok_or _ _ = Ok _ |- _ => apply ok_or_Ok in H end. simplify_eq.
  match goal with H : find _ ?l = Some ?p |- _ => rename l into passkeys; rename p into chosen; apply find_elem in H as [Hin Heq] end.
  eexists c, parsed, _, passkeys, _, handle_id. do 4 (split; [done|]). split; [done|]. split; [eassumption|].
  split; [done|]. split; [eassumption|]. split; [|split; [|done]].
  - intros p Hp'. match goal with H : collect _ = Ok passkeys |- _ => apply (collect_elem _ _ _ H) in Hp' end.
    apply list_elem_of_fmap in Hp' as (sc & Hsc & Hsc2). symmetry in Hsc. apply ok_or_Ok in Hsc.
    destruct (Hcreds _ Hsc2) as (k & cr & Hact & Hd). exists k, cr. split; [done|]. by rewrite <- Hd.
  - exists chosen. split; [done|]. split; [by apply String.eqb_eq|]. by eexists.
Qed.

End properties.

(** The engine's set-up and challenges: in production only the one relying party and origin are
    accepted; a registration challenge requires a resident key and is otherwise the
    library's, and the library is told to exclude exactly the given credentials. *)
Theorem engine_registration_contract `{WebauthnLib} :
  (∀ rp_id origin w, WebauthnEngine.new rp_id origin true = Ok w →
     rp_id = PRODUCTION_RP_ID ∧ origin = PRODUCTION_ORIGIN) ∧
  ∀ webauthn seed user credentials challenge state_value,
    WebauthnEngine.start_registration webauthn seed user credentials = Ok (challenge, state_value) →
    ∃ passkeys entries public_key selection entries' public_key' selection' state,
      collect (WebauthnEngine.stored_passkey <$> credentials) = Ok passkeys ∧
      start_passkey_registration webauthn seed (User.webauthn_handle user) (User.email user)
        (User.display_name user)
        (if decide (credentials = []) then None else Some (passkey_cred_id <$> passkeys)) =
        Some (Some (Object entries), state) ∧
      registration_to_value state = Some state_value ∧
      member entries "publicKey" = Some (Object public_key) ∧
      member public_key "authenticatorSelection" = Some (Object selection) ∧
      challenge = Object entries' ∧ member entries' "publicKey" = Some (Object public_key') ∧
      member public_key' "authenticatorSelection" = Some (Object selection') ∧
      (∀ key, key ≠ "publicKey" → member entries' key = member entries key) ∧
      (∀ key, key ≠ "authenticatorSelection" → member public_key' key = member public_key key) ∧
      member selection' "residentKey" = Some (Str "required") ∧
      member selection' "requireResidentKey" = Some (Bool true) ∧
      (∀ key, key ≠ "residentKey" → key ≠ "requireResidentKey" → member selection' key = member selection key).
Proof.
  split.
  - intros rp_id origin w Hn. unfold WebauthnEngine.new in Hn. simpl in Hn.
    destruct (String.eqb_spec rp_id PRODUCTION_RP_ID), (String.eqb_spec origin PRODUCTION_ORIGIN); done.
  - intros webauthn seed user credentials challenge state_value Hs.
    unfold WebauthnEngine.start_registration in Hs.
    apply rbind_Ok in Hs as (passkeys & Hp & Hs). apply rbind_Ok in Hs as ([ch state] & Hst%ok_or_Ok & Hs).
    apply rbind_Ok in Hs as (ch1 & Hch%ok_or_Ok & Hs). apply rbind_Ok in Hs as (ch2 & Hreq%ok_or_Ok & Hs).
    apply rbind_Ok in Hs as (sv & Hsv%ok_or_Ok & Hs). simplify_eq.
    unfold require_resident_key in Hreq. destruct ch1 as [| | | | |entries]; try done.
    destruct (member entries "publicKey") as [[| | | | |public_key]|] eqn:E1; try done.
    destruct (member public_key "authenticatorSelection") as [[| | | | |selection]|] eqn:E2; try done.
    injection Hreq as <-.
    exists passkeys, entries, public_key, selection. eexists _, _, _, state.
    split; [done|]. split.
    { rewrite <- Hst. f_equal. destruct credentials as [|cr credentials], passkeys as [|p passkeys]; try done.
      simpl in Hp. destruct (WebauthnEngine.stored_passkey cr); simpl in Hp; [|done].
      by destruct (collect _). }
    split; [done|]. split; [exact E1|]. split; [exact E2|]. split; [done|].
    split; [apply member_insert_eq|]. split; [apply member_insert_eq|].
    split; [intros key Hk; by apply member_insert_ne|].
    split; [intros key Hk; by apply member_insert_ne|].
    split; [rewrite member_insert_ne by done; apply member_insert_eq|].
    split; [apply member_insert_eq|].
    intros key Hk1 Hk2. by rewrite !member_insert_ne.
Qed.
