(* ===== verification/Http.v ===== *)
(** * Http: the handlers and the two routers ([server/src/http.rs])

    A handler is a computation over the world of the authentication service, generic in the store,
    the engine, the clock and the header map.  A request is its headers with the inputs axum
    extracts for its endpoint (path identifier, typed JSON body); a request that axum
    refuses before the handler runs has no counterpart.  The service's operations are those of
    [AuthService.v].  Bodies are JSON values with their entries in the order serde emits them. *)
From S2P Require Export AuthService.

(** ** Third-party interfaces *)

(** crate [http]: [HeaderMap::get], [HeaderValue::to_str], [from_str] and [from_static], and
    [StatusCode::canonical_reason]. *)
Class HttpTypes (HeaderMap HeaderValue : Type) := {
  header_get : HeaderMap → string → option HeaderValue;
  header_to_str : HeaderValue → option string;
  header_from_str : string → option HeaderValue;
  header_from_static : string → HeaderValue;
  canonical_reason : Z → option string;
}.

(** Visible ASCII text is a header value and reads back. *)
Definition visible_char (c : ascii) : bool := (32 <=? byte c) && (byte c <? 127).
Class HttpTypesLaws HM HV `{HttpTypes HM HV} : Prop :=
  header_visible s : forallb visible_char (bytes s) = true →
    ∃ v, header_from_str s = Some v ∧ header_to_str v = Some s.

(** crate [chrono]: [Utc::now], and the text of an instant in JSON. *)
Class UtcClock (W : Type) := utc_now : M W AuthError DateTime.
Class ChronoText := datetime_text : DateTime → string.

(** The readiness probe of the store, which is not in its trait. *)
Class Readiness (W : Type) := store_ready : M W AuthError bool.

(** ** Constants, statuses and responses *)

Definition SESSION_COOKIE : string := "__Host-rs_session".
Definition CSRF_HEADER : string := "x-csrf-token".

Module StatusCode.
Definition OK : Z := 200.
Definition ACCEPTED : Z := 202.
Definition NO_CONTENT : Z := 204.
Definition BAD_REQUEST : Z := 400.
Definition UNAUTHORIZED : Z := 401.
Definition FORBIDDEN : Z := 403.
Definition NOT_FOUND : Z := 404.
Definition CONFLICT : Z := 409.
Definition SERVICE_UNAVAILABLE : Z := 503.
End StatusCode.

Module Response.
Record t (HV : Type) := mk { status : Z; headers : list (string * HV); body : option Value }.
Arguments mk {HV} status headers body.
Arguments status {HV} _.
Arguments headers {HV} _.
Arguments body {HV} _.
(** [HeaderMap::insert]: the value replaces those of the name. *)
Definition insert {HV} (name : string) (v : HV) (r : t HV) : t HV :=
  mk (status r) (filter (λ h, h.1 ≠ name) (headers r) ++ [(name, v)]) (body r).
End Response.
Abbreviation Response := Response.t.

(** ** Requests *)

Inductive Method : Set := GET | POST.

#[export] Instance Method_eq_dec : EqDecision Method.
Proof. solve_decision. Defined.

Module CeremonyFinish.
Record t := mk { ceremony_id : Uuid; credential : Value; ceremony_kind : option CeremonyKind }.
End CeremonyFinish.
Module SetupStart.
Record t := mk { setup_token : string; recovery : bool }.
End SetupStart.
Module RecoveryRequestBody.
Record t := mk { user_id : string }.
End RecoveryRequestBody.
Module RecoverySetupBody.
Record t := mk { user_id : string }.
End RecoverySetupBody.
Module ApproveUserBody.
Record t := mk { user_id : string; email : string; display_name : string }.
End ApproveUserBody.

(** The endpoints, with what axum extracts for each. *)
Inductive request :=
| Live
| Ready
| PublicCapabilities
| SessionDiscovery
| LoginStart
| LoginFinish (body : CeremonyFinish.t)
| Logout
| SetupBegin (body : SetupStart.t)
| SetupFinish (body : CeremonyFinish.t)
| RecoveryRequested (body : RecoveryRequestBody.t)
| OperatorBootstrapStart
| OperatorBootstrapFinish (body : CeremonyFinish.t)
| RecoveriesPending
| RecoveryApproval (id : Uuid)
| RecoverySetupIssue (id : Uuid) (body : RecoverySetupBody.t)
| UserApproval (body : ApproveUserBody.t)
| OperatorCapabilities.

(** The method and the route pattern of each. *)
Definition route (r : request) : Method * string :=
  match r with
  | Live => (GET, "/health/live")
  | Ready => (GET, "/health/ready")
  | PublicCapabilities => (GET, "/v1/capabilities")
  | SessionDiscovery => (GET, "/v1/session")
  | LoginStart => (POST, "/v1/auth/login/start")
  | LoginFinish _ => (POST, "/v1/auth/login/finish")
  | Logout => (POST, "/v1/auth/logout")
  | SetupBegin _ => (POST, "/v1/auth/setup/start")
  | SetupFinish _ => (POST, "/v1/auth/setup/finish")
  | RecoveryRequested _ => (POST, "/v1/recovery/request")
  | OperatorBootstrapStart => (POST, "/v1/operator/bootstrap/start")
  | OperatorBootstrapFinish _ => (POST, "/v1/operator/bootstrap/finish")
  | RecoveriesPending => (GET, "/v1/operator/recoveries")
  | RecoveryApproval _ => (POST, "/v1/operator/recoveries/{id}/approve")
  | RecoverySetupIssue _ _ => (POST, "/v1/operator/recoveries/{id}/setup")
  | UserApproval _ => (POST, "/v1/operator/users")
  | OperatorCapabilities => (GET, "/v1/operator/capabilities")
  end.

Definition public_router : list (Method * string) := [
  (GET, "/health/live");
  (GET, "/health/ready");
  (GET, "/v1/capabilities");
  (GET, "/v1/session");
  (POST, "/v1/auth/login/start");
  (POST, "/v1/auth/login/finish");
  (POST, "/v1/auth/logout");
  (POST, "/v1/auth/setup/start");
  (POST, "/v1/auth/setup/finish");
  (POST, "/v1/recovery/request")].

Definition private_router : list (Method * string) := [
  (GET, "/health/live");
  (GET, "/health/ready");
  (POST, "/v1/operator/bootstrap/start");
  (POST, "/v1/operator/bootstrap/finish");
  (GET, "/v1/operator/recoveries");
  (POST, "/v1/operator/recoveries/{id}/approve");
  (POST, "/v1/operator/recoveries/{id}/setup");
  (POST, "/v1/operator/users");
  (GET, "/v1/operator/capabilities")].

(** ** Handlers *)

(** [Iterator::find_map]. *)
Fixpoint find_map {A B} (f : A → option B) (l : list A) : option B :=
  match l with
  | [] => None
  | a :: l => match f a with Some b => Some b | None => find_map f l end
  end.

Definition role_value (role : Role) : Value :=
  Str match role with RoleUser => "user" | RoleOperator => "operator" end.

Definition status_of (e : AuthError) : Z :=
  match e with
  | InvalidInput | InvalidToken => StatusCode.BAD_REQUEST
  | InvalidState | Unauthenticated | Verification => StatusCode.UNAUTHORIZED
  | Forbidden => StatusCode.FORBIDDEN
  | Conflict => StatusCode.CONFLICT
  | Store => StatusCode.SERVICE_UNAVAILABLE
  end.

Definition capability_document (audience : string) (capabilities : list string) : Value :=
  Object [("schema_version", Num (PosInt 1)); ("audience", Str audience);
          ("capabilities", Array (Str <$> capabilities))].

(** [CorsLayer], as [cors] configures it; what the layer does with it is the library's.
    [HeaderValue::from_str(origin).expect(..)] panics on text that is no header value. *)
Module CorsLayer.
Record t (HV : Type) := mk {
  allow_origin : HV;
  allow_credentials : bool;
  allow_methods : list Method;
  allow_headers : list string;
}.
Arguments mk {HV} _ _ _ _.
Arguments allow_origin {HV} _.
End CorsLayer.

Definition cors `{HttpTypes HM HV} (origin : string) : outcome (CorsLayer.t HV) AuthError :=
  match header_from_str origin with
  | Some origin => Returned (Ok (CorsLayer.mk origin true [GET; POST] ["content-type"; CSRF_HEADER]))
  | None => Panicked
  end.

Module Handlers.
Section handlers.
Context {W HM HV : Type} `{HttpTypes HM HV, AuthStore W, Randomness W, UtcClock W, Readiness W,
  CeremonyEngine, Sha256, Base64, ChronoText} (config : AuthConfig) (browser_origin : string).
Implicit Types headers : HM.

Definition json (status : Z) (v : Value) : Response HV := Response.mk status [] (Some v).
Definition empty (status : Z) : Response HV := Response.mk status [] None.

(** [impl IntoResponse for ApiError]. *)
Definition error_response (e : AuthError) : Response HV :=
  json (status_of e)
    (Object [("error", match canonical_reason (status_of e) with Some r => Str r | None => Null end)]).

Definition header_str headers (name : string) : option string := header_get headers name ≫= header_to_str.

Definition verify_origin_json headers : result unit AuthError :=
  try? origin := ok_or (header_str headers "origin") Forbidden in
  if negb (String.eqb origin browser_origin) then Err Forbidden
  else
    let content_type := default "" (header_str headers "content-type") in
    if negb (String.eqb content_type "application/json") then Err InvalidInput else Ok tt.

Definition cookie_value headers (name : string) : option string :=
  cookies ← header_str headers "cookie";
  find_map (λ cookie, rest ← strip_prefix name cookie; strip_prefix "=" rest)
    (trim <$> split_char ";"%char cookies).

Definition session_token headers : result SecretToken AuthError :=
  try? value := ok_or (cookie_value headers SESSION_COOKIE) Unauthenticated in
  SecretToken.parse value.

Definition session_and_csrf headers : result (SecretToken * SecretToken) AuthError :=
  try? token := session_token headers in
  try? value := ok_or (header_str headers CSRF_HEADER) Forbidden in
  try? csrf := SecretToken.parse value in
  Ok (token, csrf).

Definition optional_session headers : M W AuthError (option SessionPrincipal) :=
  match cookie_value headers SESSION_COOKIE with
  | None => ret None
  | Some value =>
      let! token := lift (SecretToken.parse value) in
      let! now := utc_now in
      λ w, match authenticate_session config token None now w with
           | (Ok principal, w') => (Ok (Some principal), w')
           | (Err Unauthenticated, w') => (Ok None, w')
           | (Err e, w') => (Err e, w')
           end
  end.

Definition operator headers (csrf_required : bool) : M W AuthError SessionPrincipal :=
  let! (token, csrf) :=
    if csrf_required then
      let! (token, csrf) := lift (session_and_csrf headers) in ret (token, Some csrf)
    else
      let! token := lift (session_token headers) in ret (token, None) in
  let! now := utc_now in
  let! principal := authenticate_session config token csrf now in
  if negb (bool_decide (User.role (SessionPrincipal.user principal) = RoleOperator))
  then throw Forbidden else ret principal.

Definition live : Response HV := json StatusCode.OK (Object [("status", Str "ok")]).

Definition ready : M W AuthError (Response HV) :=
  let! up := store_ready in
  ret (if up then json StatusCode.OK (Object [("status", Str "ready")])
       else json StatusCode.SERVICE_UNAVAILABLE (Object [("status", Str "not_ready")])).

Definition public_capabilities headers : M W AuthError (Response HV) :=
  let! principal := optional_session headers in
  ret (json StatusCode.OK
    match principal with
    | Some _ => capability_document "user" ["session.logout"; "profile.read_self"; "recovery.request_self"]
    | None => capability_document "anonymous"
                ["session.discover"; "auth.login"; "auth.setup"; "recovery.request"]
    end).

Definition anonymous_session : Value :=
  Object [("authenticated", Bool false); ("schema_version", Num (PosInt 1))].

Definition session_discovery headers : M W AuthError (Response HV) :=
  match cookie_value headers SESSION_COOKIE with
  | None => ret (json StatusCode.OK anonymous_session)
  | Some value =>
      let! token := lift (SecretToken.parse value) in
      let! now := utc_now in
      λ w, match issue_session_csrf config token now w with
           | (Ok (principal, csrf), w') =>
               (Ok (json StatusCode.OK (Object [
                  ("absolute_expires_at", Str (datetime_text (SessionPrincipal.absolute_expires_at principal)));
                  ("authenticated", Bool true);
                  ("csrf_token", Str (SecretToken.expose csrf));
                  ("principal", Object [
                     ("display_name", Str (User.display_name (SessionPrincipal.user principal)));
                     ("id", Str (UserId.as_str (User.id (SessionPrincipal.user principal))));
                     ("role", role_value (User.role (SessionPrincipal.user principal)))]);
                  ("schema_version", Num (PosInt 1))])), w')
           | (Err Unauthenticated, w') => (Ok (json StatusCode.OK anonymous_session), w')
           | (Err e, w') => (Err e, w')
           end
  end.

Definition login_start headers : M W AuthError (Response HV) :=
  do! lift (verify_origin_json headers) in
  let! now := utc_now in
  let! (ceremony_id, public_key) := start_authentication config now in
  ret (json StatusCode.OK
    (Object [("ceremony_id", Str (uuid_text ceremony_id)); ("public_key", public_key)])).

Definition session_cookie (token : SecretToken) : string :=
  SESSION_COOKIE +:+ "=" +:+ SecretToken.expose token +:+ "; Path=/; Secure; HttpOnly; SameSite=Strict".

Definition login_finish headers (request : CeremonyFinish.t) : M W AuthError (Response HV) :=
  do! lift (verify_origin_json headers) in
  let! now := utc_now in
  let! (grant, user) := finish_authentication config (CeremonyFinish.ceremony_id request)
                          (CeremonyFinish.credential request) now in
  let response := json StatusCode.OK (Object [
    ("absolute_expires_at",
      Str (datetime_text (SessionRecord.absolute_expires_at (SessionGrant.record grant))));
    ("authenticated", Bool true);
    ("csrf_token", Str (SecretToken.expose (SessionGrant.csrf grant)));
    ("role", role_value (User.role user));
    ("schema_version", Num (PosInt 1))]) in
  let! value := lift (ok_or (header_from_str (session_cookie (SessionGrant.token grant))) Store) in
  ret (Response.insert "set-cookie" value response).

Definition logout headers : M W AuthError (Response HV) :=
  do! lift (verify_origin_json headers) in
  let! (token, csrf) := lift (session_and_csrf headers) in
  let! now := utc_now in
  do! authenticate_session config token (Some csrf) now in
  do! AuthService.logout token in
  ret (Response.insert "set-cookie"
    (header_from_static "__Host-rs_session=; Path=/; Secure; HttpOnly; SameSite=Strict; Max-Age=0")
    (empty StatusCode.NO_CONTENT)).

Definition setup_start headers (request : SetupStart.t) : M W AuthError (Response HV) :=
  do! lift (verify_origin_json headers) in
  let! token := lift (SecretToken.parse (SetupStart.setup_token request)) in
  let purpose := if SetupStart.recovery request then RecoverySetup else Setup in
  let! now := utc_now in
  let! (ceremony_id, public_key) := start_setup_registration config token purpose now in
  ret (json StatusCode.OK
    (Object [("ceremony_id", Str (uuid_text ceremony_id)); ("public_key", public_key)])).

Definition setup_finish headers (request : CeremonyFinish.t) : M W AuthError (Response HV) :=
  do! lift (verify_origin_json headers) in
  let! now := utc_now in
  do! finish_registration (CeremonyFinish.ceremony_id request) Registration
        (CeremonyFinish.credential request) now in
  ret (empty StatusCode.NO_CONTENT).

Definition recovery_request headers (request : RecoveryRequestBody.t) : M W AuthError (Response HV) :=
  do! lift (verify_origin_json headers) in
  let! user_id := lift (map_err (λ _, InvalidInput) (UserId.new (RecoveryRequestBody.user_id request))) in
  let! now := utc_now in
  let! recovery := request_recovery user_id now in
  ret (json StatusCode.ACCEPTED (Object [
    ("request_id", Str (uuid_text (RecoveryRequest.id recovery))); ("status", Str "pending")])).

Definition operator_bootstrap_start headers : M W AuthError (Response HV) :=
  do! lift (verify_origin_json headers) in
  let! now := utc_now in
  let! (ceremony_id, public_key, ceremony_kind) := start_operator_bootstrap config now in
  ret (json StatusCode.OK (Object [
    ("ceremony_id", Str (uuid_text ceremony_id));
    ("ceremony_kind", ceremony_kind_value ceremony_kind); ("public_key", public_key)])).

Definition operator_bootstrap_finish headers (request : CeremonyFinish.t) : M W AuthError (Response HV) :=
  do! lift (verify_origin_json headers) in
  let kind := default OperatorBootstrap (CeremonyFinish.ceremony_kind request) in
  do! match kind with
      | OperatorBootstrap | OperatorRecovery => ret tt
      | _ => throw InvalidInput
      end in
  let! now := utc_now in
  do! finish_registration (CeremonyFinish.ceremony_id request) kind
        (CeremonyFinish.credential request) now in
  ret (empty StatusCode.NO_CONTENT).

(** [#[derive(Serialize)] struct RecoveryRequest], as [json!] turns it into a [Value]: the entries of an
    object are ordered by name. *)
Definition recovery_value (r : RecoveryRequest) : Value :=
  Object [
    ("approved_at", match RecoveryRequest.approved_at r with
                    | Some at_ => Str (datetime_text at_) | None => Null end);
    ("id", Str (uuid_text (RecoveryRequest.id r)));
    ("requested_at", Str (datetime_text (RecoveryRequest.requested_at r)));
    ("user_id", Str (UserId.as_str (RecoveryRequest.user_id r)))].

Definition pending_recoveries headers : M W AuthError (Response HV) :=
  do! operator headers false in
  let! recoveries := service_pending_recoveries in
  ret (json StatusCode.OK (Object [
    ("recoveries", Array (recovery_value <$> recoveries)); ("schema_version", Num (PosInt 1))])).

Definition approve_recovery headers (id : Uuid) : M W AuthError (Response HV) :=
  do! lift (verify_origin_json headers) in
  let! principal := operator headers true in
  let! now := utc_now in
  do! service_approve_recovery id (User.id (SessionPrincipal.user principal)) now in
  ret (empty StatusCode.NO_CONTENT).

Definition setup_fragment (token : SecretToken) : Response HV :=
  json StatusCode.OK (Object [
    ("expires_in_seconds", Num (PosInt 900));
    ("setup_fragment", Str ("#setup=" +:+ SecretToken.expose token))]).

Definition issue_recovery_setup headers (id : Uuid) (request : RecoverySetupBody.t)
    : M W AuthError (Response HV) :=
  do! lift (verify_origin_json headers) in
  let! principal := operator headers true in
  let! user_id := lift (map_err (λ _, InvalidInput) (UserId.new (RecoverySetupBody.user_id request))) in
  let! now := utc_now in
  let! token := service_issue_recovery_setup config id (User.id (SessionPrincipal.user principal))
                  user_id now in
  ret (setup_fragment token).

Definition approve_user headers (request : ApproveUserBody.t) : M W AuthError (Response HV) :=
  do! lift (verify_origin_json headers) in
  let! principal := operator headers true in
  let! user_id := lift (map_err (λ _, InvalidInput) (UserId.new (ApproveUserBody.user_id request))) in
  let! now := utc_now in
  let! token := approve_user_and_issue_setup config (User.id (SessionPrincipal.user principal)) user_id
                  (ApproveUserBody.email request) (ApproveUserBody.display_name request) now in
  ret (setup_fragment token).

Definition operator_capabilities headers : M W AuthError (Response HV) :=
  do! operator headers false in
  ret (json StatusCode.OK (capability_document "operator"
    ["platform.read"; "user.approve"; "recovery.list"; "recovery.approve"; "recovery.setup_issue"])).

(** ** The routers *)

Definition handle headers (r : request) : M W AuthError (Response HV) :=
  match r with
  | Live => ret live
  | Ready => ready
  | PublicCapabilities => public_capabilities headers
  | SessionDiscovery => session_discovery headers
  | LoginStart => login_start headers
  | LoginFinish body => login_finish headers body
  | Logout => logout headers
  | SetupBegin body => setup_start headers body
  | SetupFinish body => setup_finish headers body
  | RecoveryRequested body => recovery_request headers body
  | OperatorBootstrapStart => operator_bootstrap_start headers
  | OperatorBootstrapFinish body => operator_bootstrap_finish headers body
  | RecoveriesPending => pending_recoveries headers
  | RecoveryApproval id => approve_recovery headers id
  | RecoverySetupIssue id body => issue_recovery_setup headers id body
  | UserApproval body => approve_user headers body
  | OperatorCapabilities => operator_capabilities headers
  end.

Definition not_found : Response HV := empty StatusCode.NOT_FOUND.

Definition no_store (r : Response HV) : Response HV :=
  Response.insert "cache-control" (header_from_static "no-store") r.

(** A request served by a router: its route's handler, or the fallback. *)
Definition serve (router : list (Method * string)) headers (r : request) (w : W) : Response HV * W :=
  if bool_decide (route r ∈ router) then
    let (answer, w) := handle headers r w in
    (no_store match answer with Ok response => response | Err e => error_response e end, w)
  else (no_store not_found, w).

End handlers.
End Handlers.

(** ** Lemmas *)

Lemma response_insert_header {HV} name (v : HV) r : (name, v) ∈ Response.headers (Response.insert name v r).
Proof. simpl. apply elem_of_app. right. apply list_elem_of_here. Qed.

(** *** Cookies *)

Definition plain (c : ascii) : bool := (33 <=? byte c) && (byte c <=? 126) && negb (Ascii.eqb c ";"%char).

Lemma white_space_plain l : forallb plain l = true → white_space_start (byte <$> l) = None.
Proof.
  intros Hl. destruct l as [|a l]; [done|]. simpl in Hl. apply andb_true_iff in Hl as [Ha _].
  unfold plain in Ha. bool_prop. unfold white_space_start. simpl.
  repeat match goal with
  | |- context [Z.eqb (byte a) ?k] => rewrite (proj2 (Z.eqb_neq (byte a) k)) by lia
  | |- context [Z.leb (byte a) ?k] => rewrite (proj2 (Z.leb_gt (byte a) k)) by lia
  end.
  rewrite andb_false_r. simpl. by destruct l as [|b [|c l]].
Qed.

Lemma white_space_end_plain l : forallb plain l = true → white_space_end (byte <$> l) = None.
Proof.
  intros Hl. assert (∀ k, k ⊆ l → white_space_start (byte <$> k) = None) as Hk.
  { intros k Hk. apply white_space_plain. rewrite forallb_forall in *. intros x Hx.
    apply Hl. apply list_elem_of_In, Hk, list_elem_of_In, Hx. }
  destruct l as [|a [|b [|c l]]]; [done|by apply (Hk [a])|..];
    cbn [fmap list_fmap]; unfold white_space_end;
    pose proof (Hk [a] ltac:(set_solver)) as E1; pose proof (Hk [b; a] ltac:(set_solver)) as E2;
    cbn [fmap list_fmap] in E1, E2; rewrite E1, E2; [done|].
  pose proof (Hk [c; b; a] ltac:(set_solver)) as E3. cbn [fmap list_fmap] in E3. by rewrite E3.
Qed.

Lemma drop_while_none ws n l : ws (byte <$> l) = None → drop_while_white ws n l = l.
Proof. intros Hl. destruct n; simpl; [done|]. by rewrite Hl. Qed.

Lemma trim_plain s : forallb plain (bytes s) = true → trim s = s.
Proof.
  intros Hs. unfold trim, trim_start_bytes, trim_end_bytes.
  rewrite (drop_while_none white_space_start) by by apply white_space_plain.
  rewrite drop_while_none.
  - by rewrite rev_involutive, from_bytes_bytes.
  - apply white_space_end_plain. rewrite forallb_forall in *. intros x Hx. apply Hs. by apply in_rev.
Qed.

Lemma split_plain l : forallb plain l = true → split_bytes ";"%char l = [l].
Proof.
  induction l as [|a l IH]; [done|]. simpl. intros [Ha Hl]%andb_true_iff.
  rewrite IH by done. unfold plain in Ha. destruct (Ascii.eqb_spec a ";"%char) as [->|]; [done|done].
Qed.

Lemma split_char_plain s : forallb plain (bytes s) = true → split_char ";"%char s = [s].
Proof. intros Hs. unfold split_char. rewrite split_plain by done. simpl. by rewrite from_bytes_bytes. Qed.

Lemma strip_prefix_app p s : strip_prefix p (p +:+ s) = Some s.
Proof.
  unfold strip_prefix. apply fmap_Some. exists (bytes s).
  rewrite strip_prefix_bytes_Some, bytes_app, from_bytes_bytes. done.
Qed.

Lemma url_safe_plain c : url_safe_char c = true → plain c = true ∧ visible_char c = true.
Proof.
  intros Hc. unfold url_safe_char, is_ascii_alphanumeric, is_ascii_digit, is_ascii_alphabetic in Hc.
  unfold plain, visible_char. destruct (Ascii.eqb_spec c ";"%char) as [->|_]; [done|].
  simpl. rewrite andb_true_r. rewrite !orb_true_iff, !andb_true_iff, !ascii_eqb_true in Hc.
  rewrite !andb_true_iff.
  destruct Hc as [[[[]|[[]|[]]]| ->]| ->]; repeat split; try done; lia.
Qed.

Lemma forallb_impl {A} (f g : A → bool) l :
  (∀ x, f x = true → g x = true) → forallb f l = true → forallb g l = true.
Proof. rewrite !forallb_forall. auto. Qed.

Section headers.
Context {HM HV : Type} `{HttpTypes HM HV} (browser_origin : string).

(** The cookie a browser sends back for the session. *)
Lemma cookie_value_session (h : HM) (value : string) :
  forallb url_safe_char (bytes value) = true →
  Handlers.header_str h "cookie" = Some (SESSION_COOKIE +:+ "=" +:+ value) →
  Handlers.cookie_value h SESSION_COOKIE = Some value.
Proof.
  intros Hv Hc. unfold Handlers.cookie_value. rewrite Hc. cbn [mbind option_bind].
  assert (forallb plain (bytes (SESSION_COOKIE +:+ "=" +:+ value)) = true) as Hp.
  { rewrite !bytes_app, !forallb_app. simpl. by eapply forallb_impl; [apply url_safe_plain|]. }
  rewrite split_char_plain by done. cbn [fmap list_fmap find_map]. rewrite trim_plain by done.
  rewrite strip_prefix_app. cbn [mbind option_bind]. by rewrite strip_prefix_app.
Qed.

Lemma verify_origin_json_Ok (h : HM) :
  Handlers.verify_origin_json browser_origin h = Ok tt ↔
  Handlers.header_str h "origin" = Some browser_origin ∧
  Handlers.header_str h "content-type" = Some "application/json".
Proof.
  unfold Handlers.verify_origin_json.
  destruct (Handlers.header_str h "origin") as [o|]; simpl; [|naive_solver].
  destruct (String.eqb_spec o browser_origin) as [->|]; simpl; [|naive_solver].
  destruct (Handlers.header_str h "content-type") as [t|]; simpl; [|naive_solver].
  destruct (String.eqb_spec t "application/json"); simpl; naive_solver.
Qed.

Lemma verify_origin_json_Err (h : HM) e :
  Handlers.verify_origin_json browser_origin h = Err e → e = Forbidden ∨ e = InvalidInput.
Proof.
  unfold Handlers.verify_origin_json. destruct (Handlers.header_str h "origin"); simpl; [|naive_solver].
  repeat case_match; naive_solver.
Qed.

End headers.

(** *** The cookie parser *)

Lemma find_map_Some {A B} (f : A → option B) (l : list A) b :
  find_map f l = Some b ↔
  ∃ before a after, l = before ++ a :: after ∧ f a = Some b ∧ Forall (λ a, f a = None) before.
Proof.
  split.
  - induction l as [|a l IH]; simpl; [done|]. destruct (f a) as [b'|] eqn:Ha.
    + intros [= ->]. by exists [], a, l.
    + intros (before & a' & after & -> & Hf & Hb)%IH. exists (a :: before), a', after.
      split_and!; [done..|by constructor].
  - intros (before & a & after & -> & Hf & Hb). induction Hb as [|a' before Ha' Hb IH]; simpl; [by rewrite Hf|].
    by rewrite Ha'.
Qed.

Lemma strip_prefix_Some p s r : strip_prefix p s = Some r ↔ s = p +:+ r.
Proof.
  split; [|intros ->; apply strip_prefix_app]. unfold strip_prefix.
  intros (l & Hl & ->)%fmap_Some. apply strip_prefix_bytes_Some in Hl. apply (inj bytes).
  by rewrite bytes_app, bytes_from_bytes.
Qed.

Section cookies.
Context {HM HV : Type} `{HttpTypes HM HV}.

(** The cookies of a header's text: the pieces between the semicolons, trimmed. *)
Definition cookies_of (text : string) (cookies : list string) : Prop :=
  ∃ pieces, pieces ≠ [] ∧ Forall (λ p, ";"%char ∉ bytes p) pieces ∧
    bytes text = join ";"%char (bytes <$> pieces) ∧ cookies = trim <$> pieces.

Lemma cookies_of_split text cookies : cookies_of text cookies ↔ cookies = trim <$> split_char ";"%char text.
Proof.
  unfold split_char. split.
  - intros (pieces & Hn & Hf & Ht & ->). rewrite Ht, split_bytes_join.
    + f_equal. clear. induction pieces as [|p ps IH]; [done|].
      rewrite !fmap_cons, from_bytes_bytes. by f_equal.
    + by destruct pieces.
    + by apply Forall_fmap.
  - intros ->. destruct (split_bytes_spec ";"%char (bytes text)) as (Hn & Hj & Hf).
    generalize dependent (split_bytes ";"%char (bytes text)). intros pieces Hn Hj Hf. exists (from_bytes <$> pieces).
    assert (bytes <$> (from_bytes <$> pieces) = pieces) as Hb.
    { clear. induction pieces as [|p ps IH]; [done|].
      rewrite !fmap_cons, bytes_from_bytes. by f_equal. }
    split_and!; [by destruct pieces| |by rewrite Hb|done].
    rewrite <- Hb in Hf. by apply (proj1 (Forall_fmap bytes (λ p, ";"%char ∉ p) _)) in Hf.
Qed.

(** C36: the cookie parser ends within its fuel on every header and finds exactly what it should:
    the answer is a value if and only if the header is text and [name=value] is the first of its
    cookies, the pieces between semicolons without their surrounding white space, that starts with
    the name and an equals sign; trimming a piece takes all the white space from its two ends and
    nothing else, and its scans do not depend on their fuel beyond the length of the piece. *)
Theorem cookie_value_exact (h : HM) name :
  (∀ value, Handlers.cookie_value h name = Some value ↔
     ∃ text before after, Handlers.header_str h "cookie" = Some text ∧
       cookies_of text (before ++ (name +:+ "=" +:+ value) :: after) ∧
       ∀ value', (name +:+ "=" +:+ value') ∉ before) ∧
  ∀ piece, ∃ p q, bytes piece = p ++ bytes (trim piece) ++ q ∧ white p ∧ white q ∧
    white_space_start (byte <$> bytes (trim piece)) = None ∧
    white_space_end (byte <$> rev (bytes (trim piece))) = None ∧
    ∀ fuel l, (length l ≤ fuel)%nat →
      drop_while_white white_space_start fuel l = trim_start_bytes l ∧
      rev (drop_while_white white_space_end fuel (rev l)) = trim_end_bytes l.
Proof.
  split; [|intros piece; destruct (trim_exact piece) as ((p & q & ? & ? & ?) & ? & ? & ?); by exists p, q].
  assert (∀ cookie value, (rest ← strip_prefix name cookie; strip_prefix "=" rest) = Some value ↔
    cookie = name +:+ "=" +:+ value) as Hname.
  { intros cookie value. rewrite bind_Some. setoid_rewrite strip_prefix_Some. naive_solver. }
  intros value. unfold Handlers.cookie_value. rewrite bind_Some. split.
  - intros (text & Ht & Hf). apply find_map_Some in Hf as (before & cookie & after & Hs & Hc & Hb).
    apply Hname in Hc as ->. exists text, before, after. split_and!; [done|by apply cookies_of_split|].
    intros value' Hin. rewrite Forall_forall in Hb. apply Hb in Hin.
    by rewrite (proj2 (Hname _ value')) in Hin.
  - intros (text & before & after & Ht & Hs%cookies_of_split & Hb). exists text. split; [done|].
    apply find_map_Some. exists before, (name +:+ "=" +:+ value), after.
    split_and!; [done|by apply Hname|]. apply Forall_forall. intros cookie Hin.
    destruct (rest ← _; _) as [value'|] eqn:Hc; [|done]. apply Hname in Hc as ->. by destruct (Hb value').
Qed.

End cookies.

(** *** What a session check may change *)

(** Nothing, or the last sight and the idle expiry, which stays within the absolute one, of the
    live session that [hash] belongs to. *)
Definition refreshed (hash : SecretHash) (now idle : DateTime) (d d' : Db) : Prop :=
  d' = d ∨ ∃ k s, auth_sessions d !! k = Some s ∧ live_session d hash now k s = true ∧
    d' = set_sessions (<[k := set_seen None (Z.min idle (AuthSession.absolute_expires_at s)) now s]>
           (auth_sessions d)) d.

Lemma update_where_key {V} (f : V → V) (m : gmap Z V) k v :
  m !! k = Some v → update_where (λ k' _, k' =? k) f m = <[k := f v]> m.
Proof.
  intros Hk. apply map_eq. intros k'. rewrite lookup_update_where.
  destruct (Z.eqb_spec k' k) as [->|Hne].
  - by rewrite Hk, lookup_insert_eq.
  - rewrite lookup_insert_ne by done. by destruct (m !! k').
Qed.

Lemma next_verdict_db w v w' : next_verdict w = (v, w') → db w' = db w.
Proof. intros H. by apply next_verdict_spec in H as [-> _]. Qed.

(** The two statements of a session check. *)
Lemma touch_refreshes hash now idle d row u d' :
  head (rows_where (live_session d hash now) (auth_sessions d)) ≫= session_row d = Some row →
  touch_session (SessionRow.session_id row) None (Z.min idle (SessionRow.absolute_expires_at row)) now d = Ok (u, d') →
  refreshed hash now idle d d'.
Proof.
  intros (k & s & Hk & Hl & Hrow)%select_session_row ->%touch_Ok. right. exists k, s. split_and!; [done..|].
  unfold session_row in Hrow. simpl in Hrow. destruct (human_users d !! _); [|done]. injection Hrow as <-. simpl.
  f_equal. by apply update_where_key.
Qed.

Lemma session_refreshes hash now idle w r w' :
  PgAuthStore.session hash now idle w = (r, w') → refreshed hash now idle (db w) (db w').
Proof.
  unfold PgAuthStore.session, transaction, bind, store_err, err_with, tx_execute, commit, select_session,
    select, lift, ret. intros Hs.
  repeat (case_match; simplify_eq; simpl in *).
  all: repeat match goal with H : next_verdict _ = _ |- _ => apply next_verdict_db in H; simpl in H end.
  all: repeat match goal with H : db _ = db _ |- _ => rewrite H in * end; simpl.
  all: first [by left | eapply touch_refreshes; [by simplify_eq|done]].
Qed.

(** ** Properties *)

Section any_store.
Context {W HM HV : Type} `{HttpTypes HM HV, AuthStore W, Randomness W, UtcClock W, Readiness W,
  CeremonyEngine, Sha256, Base64, ChronoText} (config : AuthConfig) (browser_origin : string).

(** C18: a POST request does nothing unless it comes from the browser's origin with a JSON body: over any
    store, a request that reaches any POST route of either router and whose [Origin] is not
    exactly the configured one, or whose [Content-Type] is not exactly JSON, is answered
    with 403, 400 or 404 and leaves the whole world as it was: no query, no randomness, no
    clock. *)
Theorem cross_site_requests_change_nothing router (h : HM) r w :
  (route r).1 = POST →
  ¬ (Handlers.header_str h "origin" = Some browser_origin ∧
     Handlers.header_str h "content-type" = Some "application/json") →
  ∃ response, Handlers.serve config browser_origin router h r w = (response, w) ∧
    Response.status response ∈ [StatusCode.FORBIDDEN; StatusCode.BAD_REQUEST; StatusCode.NOT_FOUND].
Proof.
  intros Hr Hno. rewrite <- verify_origin_json_Ok in Hno. unfold Handlers.serve.
  case_bool_decide; [|eexists; split; [done|set_solver]].
  destruct (Handlers.verify_origin_json browser_origin h) as [[]|e] eqn:Hv; [done|].
  assert (Handlers.handle config browser_origin h r w = (Err e, w)) as ->.
  { destruct r; try done; simpl;
      unfold Handlers.login_start, Handlers.login_finish, Handlers.logout, Handlers.setup_start,
        Handlers.setup_finish, Handlers.recovery_request, Handlers.operator_bootstrap_start,
        Handlers.operator_bootstrap_finish, Handlers.approve_recovery, Handlers.issue_recovery_setup,
        Handlers.approve_user, bind, lift; by rewrite Hv. }
  eexists. split; [done|]. apply verify_origin_json_Err in Hv as [-> | ->]; simpl; set_solver.
Qed.

End any_store.

(** The clock of the server process: its readings in the order they are taken. *)
Class Instants := instant_at : nat → DateTime.
#[export] Instance world_clock `{Instants} : UtcClock World := draw instant_at.
#[export] Instance world_readiness : Readiness World := PgAuthStore.ready.

Definition operator_request (r : request) : bool :=
  match r with
  | RecoveriesPending | RecoveryApproval _ | RecoverySetupIssue _ _ | UserApproval _
  | OperatorCapabilities => true
  | _ => false
  end.

Section pg.
Context {HM HV : Type} `{HttpTypes HM HV, Entropy, Instants, CeremonyEngine, Sha256, Base64, ChronoText}
  (int4_as_i64 : bool) (config : AuthConfig) (browser_origin : string).

#[local] Instance http_store : AuthStore World := pg_auth_store int4_as_i64.

(** The request carries the session of an enabled operator, and its anti-forgery token if one is
    required. *)
Definition authorised (d : Db) (now : DateTime) (h : HM) (csrf_required : bool) : Prop :=
  ∃ token k s u,
    Handlers.session_token h = Ok token ∧ auth_sessions d !! k = Some s ∧
    live_session d (SecretToken.hash token) now k s = true ∧
    human_users d !! AuthSession.user_id s = Some u ∧ HumanUser.role u = "operator" ∧
    (csrf_required = true → ∃ value csrf, Handlers.header_str h CSRF_HEADER = Some value ∧
       SecretToken.parse value = Ok csrf ∧
       SecretHash.as_bytes (SecretToken.hash csrf) = AuthSession.csrf_hash s).

(** The one effect of a session check that is refused afterwards: the session that the cookie
    presents, when it is live, was seen at this instant. *)
Definition session_seen (d : Db) (now : DateTime) (h : HM) (d' : Db) : Prop :=
  d' = d ∨ ∃ token, Handlers.session_token h = Ok token ∧
    refreshed (SecretToken.hash token) now (now + AuthConfig.session_idle_ttl config) d d'.

Lemma account_role_operator id u : User.role (account_of id u) = RoleOperator → HumanUser.role u = "operator".
Proof.
  unfold account_of. simpl. destruct (row_is_operator u) eqn:Hu; [|done]. intros _. by apply row_is_operator_role.
Qed.

Lemma authenticate_session_cases token csrf now w r w' :
  db_wf (db w) → authenticate_session config token csrf now w = (r, w') →
  refreshed (SecretToken.hash token) now (now + AuthConfig.session_idle_ttl config) (db w) (db w') ∧
  ∀ p, r = Ok p → ∃ k s u,
    auth_sessions (db w) !! k = Some s ∧ live_session (db w) (SecretToken.hash token) now k s = true ∧
    human_users (db w) !! AuthSession.user_id s = Some u ∧ p = principal_of k s u ∧
    ∀ c, csrf = Some c → SecretHash.as_bytes (SecretToken.hash c) = AuthSession.csrf_hash s.
Proof.
  intros Hw Ha. unfold authenticate_session in Ha. unfold bind in Ha. simpl in Ha.
  destruct (PgAuthStore.session _ _ _ w) as [r1 w1] eqn:Hs. split.
  - assert (w1 = w') as <-; [|by eapply session_refreshes].
    destruct r1 as [[p|]|e]; simpl in Ha; unfold ret, throw in Ha; repeat case_match; by simplify_eq.
  - intros p ->. destruct r1 as [[p'|]|e]; simpl in Ha; [|by simplify_eq..].
    apply (session_Ok _ _ _ _ _ _ Hw) in Hs as (k & s & u & Hk & Hl & Hu & -> & _).
    destruct csrf as [c|]; [|unfold ret in Ha; simplify_eq; by exists k, s, u].
    revert Ha. case_bool_decide as He; intros Ha; unfold ret in Ha; simpl in Ha; simplify_eq.
    exists k, s, u. split_and!; try done. intros c' [= <-]. by rewrite He.
Qed.

Lemma operator_cases (h : HM) csrf_required w r w' :
  db_wf (db w) → Handlers.operator config h csrf_required w = (r, w') →
  session_seen (db w) (instant_at (drawn w)) h (db w') ∧
  (is_ok r = true → authorised (db w) (instant_at (drawn w)) h csrf_required).
Proof.
  intros Hw Ho. unfold Handlers.operator in Ho.
  assert ((∃ e, (r, w') = (Err e, w)) ∨ ∃ token csrf,
    Handlers.session_token h = Ok token ∧
    (if csrf_required then ∃ c value, csrf = Some c ∧ Handlers.header_str h CSRF_HEADER = Some value ∧
       SecretToken.parse value = Ok c else csrf = None) ∧
    (let! principal := authenticate_session config token csrf (instant_at (drawn w)) in
     if negb (bool_decide (User.role (SessionPrincipal.user principal) = RoleOperator))
     then throw Forbidden else ret principal)
      (mkWorld (db w) (server_now w) (verdicts w) (S (drawn w))) = (r, w')) as [[e He]|Hcase].
  { revert Ho. unfold Handlers.session_and_csrf, bind at 1.
    destruct csrf_required; unfold bind at 1, lift.
    - destruct (Handlers.session_token h) as [token|e]; simpl; [|intros <-; left; by eexists].
      destruct (Handlers.header_str h CSRF_HEADER) as [v|]; simpl; [|intros <-; left; by eexists].
      destruct (SecretToken.parse v) as [c|e] eqn:Hp; simpl; [|intros <-; left; by eexists].
      intros Ho. right. exists token, (Some c). split_and!; [done|by exists c, v|exact Ho].
    - destruct (Handlers.session_token h) as [token|e]; simpl; [|intros <-; left; by eexists].
      intros Ho. right. by exists token, None. }
  { simplify_eq. split; [by left|done]. }
  destruct Hcase as (token & csrf & Ht & Hc & Hr). unfold bind in Hr.
  destruct (authenticate_session _ _ _ _ _) as [r1 w1] eqn:Ha.
  apply authenticate_session_cases in Ha as [Hs Ha]; [|done]. simpl in *.
  assert (session_seen (db w) (instant_at (drawn w)) h (db w1)) as Hseen by (right; by exists token).
  destruct r1 as [p|e]; [|by simplify_eq].
  destruct (Ha _ eq_refl) as (k & s & u & Hk & Hl & Hu & -> & Hcs).
  revert Hr. case_bool_decide as Hrole; simpl; intros Hr; unfold ret, throw in Hr; simplify_eq; [|done].
  split; [done|]. intros _. exists token, k, s, u. split_and!; try done.
  - by apply (account_role_operator (AuthSession.user_id s)).
  - intros ->. destruct Hc as (c & v & -> & Hv & Hp). exists v, c.
    split_and!; [done|done|by apply Hcs].
Qed.

Lemma operator_bind (h : HM) csrf_required {A} (k : SessionPrincipal → M World AuthError A) w r w' :
  db_wf (db w) → bind (Handlers.operator config h csrf_required) k w = (r, w') →
  authorised (db w) (instant_at (drawn w)) h csrf_required ∨
  (∃ e, r = Err e) ∧ session_seen (db w) (instant_at (drawn w)) h (db w').
Proof.
  intros Hw. unfold bind at 1. destruct (Handlers.operator _ _ _ _) as [[p|e] w1] eqn:Ho;
    apply operator_cases in Ho as [Hs Ha]; [|done| |done].
  - intros _. left. by apply Ha.
  - intros [= <- <-]. right. split; [by eexists|done].
Qed.

(** What a request to an operator route does when it reaches its handler. *)
Lemma operator_request_cases (r : request) (h : HM) w answer w1 :
  db_wf (db w) → operator_request r = true →
  Handlers.handle config browser_origin h r w = (answer, w1) →
  (authorised (db w) (instant_at (drawn w)) h (bool_decide ((route r).1 = POST)) ∧
   ((route r).1 = POST → Handlers.verify_origin_json browser_origin h = Ok tt)) ∨
  (∃ e, answer = Err e) ∧ session_seen (db w) (instant_at (drawn w)) h (db w1).
Proof.
  intros Hw Hr Hh. destruct (Handlers.verify_origin_json browser_origin h) as [[]|e] eqn:Hv.
  - destruct r; try done; simpl in Hh;
      unfold Handlers.approve_recovery, Handlers.issue_recovery_setup, Handlers.approve_user in Hh;
      try (unfold bind at 1, lift at 1 in Hh; rewrite Hv in Hh);
      apply operator_bind in Hh as [?|?]; auto.
  - destruct r; try done; simpl in Hh;
      first [ apply operator_bind in Hh as [?|?]; [by left|by right|done]
            | unfold Handlers.approve_recovery, Handlers.issue_recovery_setup, Handlers.approve_user,
                bind, lift in Hh; rewrite Hv in Hh; injection Hh as <- <-; right;
              split; [by eexists|by left] ].
Qed.

(** C5: operator routes are guarded: the public router does not serve them at all, and on the private one,
    under whatever faults, a request is either authorised (its cookie is the token of a live
    session of an enabled account that is an operator at its current epoch, and for a POST the
    origin and content type are exact and the anti-forgery header is that session's) or it is
    answered with an error status and the database is as it was, except that the session whose
    token the cookie carries, if it is live, has this instant as its last sight and its idle
    expiry moved, never past its absolute one: no session is opened, revoked or given another
    anti-forgery token, and no other row of any table changes. *)
Theorem operator_routes_guarded (r : request) (h : HM) w :
  db_wf (db w) → operator_request r = true →
  Handlers.serve config browser_origin public_router h r w =
    (Handlers.no_store Handlers.not_found, w) ∧
  ∀ response w', Handlers.serve config browser_origin private_router h r w = (response, w') →
    (authorised (db w) (instant_at (drawn w)) h (bool_decide ((route r).1 = POST)) ∧
     ((route r).1 = POST → Handlers.header_str h "origin" = Some browser_origin ∧
                           Handlers.header_str h "content-type" = Some "application/json")) ∨
    (400 ≤ Response.status response ∧ session_seen (db w) (instant_at (drawn w)) h (db w')).
Proof.
  intros Hw Hr. split; [by destruct r|]. intros response w' Hs. unfold Handlers.serve in Hs.
  rewrite bool_decide_true in Hs by (destruct r; try done; simpl; set_solver).
  destruct (Handlers.handle _ _ _ _ _) as [answer w1] eqn:Hh. simplify_eq.
  apply operator_request_cases in Hh as [[? Hv]|[[e ->] ?]]; [| |done..].
  - left. split; [done|]. intros Hp. by apply verify_origin_json_Ok, Hv.
  - right. split; [by destruct e|done].
Qed.

End pg.

(** *** From login to logout *)

(** The random tokens of a run are whole tokens. *)
Class EntropyLaws `{Entropy} : Prop := token_at_valid n : SecretToken.valid (token_at n).

Section lifecycle.
Context {HM HV : Type} `{HttpTypesLaws HM HV, EntropyLaws, Instants, CeremonyEngine, Base64Laws, Sha256,
  ChronoText} (int4_as_i64 : bool) (config : AuthConfig) (browser_origin : string).

#[local] Instance lifecycle_store : AuthStore World := pg_auth_store int4_as_i64.

Notation handle := (Handlers.handle (W := World) (HM := HM) config browser_origin).

Lemma grant_tokens ceremony_id response now (w : World) grant user w1 :
  finish_authentication config ceremony_id response now w = (Ok (grant, user), w1) →
  SecretToken.valid (SessionGrant.token grant) ∧ SecretToken.valid (SessionGrant.csrf grant).
Proof.
  intros Hf. unfold finish_authentication in Hf.
  repeat match goal with
  | H : bind _ _ _ = (Ok _, _) |- _ => apply bind_Ok in H as (? & ? & ? & H)
  | H : generate _ = (Ok _, _) |- _ =>
      unfold generate, world_randomness, draw in H; injection H as <- <-
  end.
  unfold ret in Hf. simplify_eq. simpl. split; apply token_at_valid.
Qed.

Lemma token_round_trip s : SecretToken.valid s →
  SecretToken.parse (SecretToken.expose s) = Ok s ∧
  forallb url_safe_char (bytes (SecretToken.expose s)) = true.
Proof.
  intros Hv. unfold SecretToken.parse, SecretToken.expose. rewrite url_decode_encode. simpl.
  rewrite (proj2 (Z.eqb_eq _ _) Hv). split; [by destruct s|apply url_encode_chars].
Qed.

Lemma session_cookie_visible s :
  forallb url_safe_char (bytes (SecretToken.expose s)) = true →
  forallb visible_char (bytes (Handlers.session_cookie s)) = true.
Proof.
  intros Hs. unfold Handlers.session_cookie. rewrite !bytes_app, !forallb_app.
  repeat (apply andb_true_iff; split); try (by vm_compute).
  by eapply forallb_impl; [apply url_safe_plain|].
Qed.

(** [GET /v1/capabilities] with a session cookie is a check of the session. *)
Lemma public_capabilities_session (h : HM) token (w : World) :
  Handlers.cookie_value h SESSION_COOKIE = Some (SecretToken.expose token) → SecretToken.valid token →
  handle h PublicCapabilities w =
    let (r, w') := authenticate_session config token None (instant_at (drawn w))
                     (mkWorld (db w) (server_now w) (verdicts w) (S (drawn w))) in
    match r with
    | Ok _ => (Ok (Handlers.json StatusCode.OK (capability_document "user"
                 ["session.logout"; "profile.read_self"; "recovery.request_self"])), w')
    | Err Unauthenticated => (Ok (Handlers.json StatusCode.OK (capability_document "anonymous"
                 ["session.discover"; "auth.login"; "auth.setup"; "recovery.request"])), w')
    | Err e => (Err e, w')
    end.
Proof.
  intros Hc Hv. simpl. unfold Handlers.public_capabilities, Handlers.optional_session.
  rewrite Hc. unfold bind at 1 2, lift. rewrite (proj1 (token_round_trip _ Hv)).
  unfold bind at 1, utc_now, world_clock, draw.
  by destruct (authenticate_session _ _ _ _ _) as [[p|[]] w'].
Qed.

Definition same_but_drawn (w : World) : World := mkWorld (db w) (server_now w) (verdicts w) (S (drawn w)).

(** A revoked token is not accepted by a store that answers. *)
Lemma revoked_unauthenticated token csrf now w1 w2 k s :
  db_wf (db w2) → calm w2 → evolves (db w1) (db w2) → auth_sessions (db w1) !! k = Some s →
  AuthSession.token_hash s = SecretHash.as_bytes (SecretToken.hash token) →
  is_Some (AuthSession.revoked_at s) →
  ∃ w3, authenticate_session config token csrf now w2 = (Err Unauthenticated, w3).
Proof.
  intros Hw Hc He Hk Hh Hr. unfold authenticate_session, bind. simpl.
  destruct (session_calm w2 Hc (SecretToken.hash token) now (now + AuthConfig.session_idle_ttl config) Hw)
    as (r & w3 & Hs). rewrite Hs. destruct r as [p|]; simpl; [|by eexists].
  destruct (session_principal _ _ _ _ _ _ Hw Hs) as (s' & u & Hk' & Hh' & Hn & _).
  destruct (revoked_stays _ _ _ _ Hw He Hk Hr _ _ Hk'); [congruence|done].
Qed.

(** Logging out with the session's own tokens works and revokes the session. *)
Lemma logout_revokes (h : HM) token csrf p w w1 k s :
  db_wf (db w) → calm w → Handlers.verify_origin_json browser_origin h = Ok tt →
  Handlers.session_and_csrf h = Ok (token, csrf) →
  authenticate_session config token (Some csrf) (instant_at (drawn w)) (same_but_drawn w) = (Ok p, w1) →
  auth_sessions (db w) !! k = Some s →
  AuthSession.token_hash s = SecretHash.as_bytes (SecretToken.hash token) →
  ∃ response w2 s2, handle h Logout w = (Ok response, w2) ∧
    Response.status response = StatusCode.NO_CONTENT ∧ db_wf (db w2) ∧
    auth_sessions (db w2) !! k = Some s2 ∧ AuthSession.token_hash s2 = AuthSession.token_hash s ∧
    is_Some (AuthSession.revoked_at s2).
Proof.
  intros Hw Hc Hv Ht Ha Hk Hh.
  pose proof (authenticate_session_safe int4_as_i64 config _ _ _ _ _ _ Ha Hw) as [Hw1 He _ Hvs _].
  assert (calm w1) as Hc1.
  { unfold calm in *. simpl in Hvs. rewrite Hc in Hvs. by apply suffix_nil_inv in Hvs. }
  destruct (evolves_sessions _ _ He _ _ Hk) as (s1 & Hk1 & _ & Hh1 & _).
  assert (∃ w2, PgAuthStore.delete_session (SecretToken.hash token) w1 = (Ok tt, w2)) as [w2 Hd].
  { unfold PgAuthStore.delete_session, bind, store_err. rewrite calm_pool by done. simpl. by eexists. }
  destruct (perform_keeps int4_as_i64 (DeleteSession (SecretToken.hash token)) _ _ _ Hd I Hw1) as [Hw2 _].
  destruct (delete_session_Ok _ _ _ Hd _ _ Hk1) as (s2 & Hk2 & Hh2 & Hr); [congruence|].
  eexists _, w2, s2. simpl. unfold Handlers.logout, bind, lift. rewrite Hv, Ht.
  unfold utc_now, world_clock, draw. fold (same_but_drawn w). rewrite Ha.
  unfold AuthService.logout. simpl. rewrite Hd. split_and!; [done|done|done|done|congruence|done].
Qed.

Lemma login_finish_Ok (h : HM) request w response w1 :
  handle h (LoginFinish request) w = (Ok response, w1) →
  ∃ grant user v,
    finish_authentication config (CeremonyFinish.ceremony_id request) (CeremonyFinish.credential request)
      (instant_at (drawn w)) (same_but_drawn w) = (Ok (grant, user), w1) ∧
    header_from_str (Handlers.session_cookie (SessionGrant.token grant)) = Some v ∧
    ("set-cookie", v) ∈ Response.headers response ∧
    ∃ entries, Response.body response = Some (Object entries) ∧
      ("csrf_token", Str (SecretToken.expose (SessionGrant.csrf grant))) ∈ entries.
Proof.
  intros Hl. simpl in Hl. unfold Handlers.login_finish in Hl.
  apply bind_Ok in Hl as (? & ? & Hv & Hl). unfold lift in Hv. injection Hv as _ <-.
  apply bind_Ok in Hl as (? & ? & Hn & Hl). unfold utc_now, world_clock, draw in Hn. injection Hn as <- <-.
  apply bind_Ok in Hl as ([grant user] & w2 & Hf & Hl).
  apply bind_Ok in Hl as (v & ? & Hh & Hl). unfold lift in Hh. injection Hh as Hh <-.
  apply ok_or_Ok in Hh. unfold ret in Hl. injection Hl as <- <-.
  exists grant, user, v. split; [exact Hf|]. split; [done|]. split; [apply response_insert_header|].
  eexists. split; [done|]. set_solver.
Qed.

(** C15: from login to logout over HTTP: the response to a successful login, under whatever faults, sets
    the session cookie with its attributes and carries an anti-forgery token; a browser that
    sends that cookie back is a user until the expiries; with the anti-forgery token and the
    exact origin and content type it can log out, and from then on, after any later
    operations, the cookie is anonymous. *)
Theorem login_logout_lifecycle (h : HM) request w response w1 :
  db_wf (db w) → handle h (LoginFinish request) w = (Ok response, w1) → calm w1 →
  instant_at (drawn w1) < instant_at (drawn w) + AuthConfig.session_idle_ttl config →
  instant_at (drawn w1) < instant_at (drawn w) + AuthConfig.session_absolute_ttl config →
  ∃ cookie csrf,
    (∃ v, ("set-cookie", v) ∈ Response.headers response ∧
       header_to_str v = Some (SESSION_COOKIE +:+ "=" +:+ cookie +:+
         "; Path=/; Secure; HttpOnly; SameSite=Strict")) ∧
    (∃ entries, Response.body response = Some (Object entries) ∧ ("csrf_token", Str csrf) ∈ entries) ∧
    ∀ h', Handlers.header_str h' "cookie" = Some (SESSION_COOKIE +:+ "=" +:+ cookie) →
      (∃ answer w2, handle h' PublicCapabilities w1 = (Ok answer, w2) ∧
         Response.body answer = Some (capability_document "user"
           ["session.logout"; "profile.read_self"; "recovery.request_self"])) ∧
      (Handlers.header_str h' "origin" = Some browser_origin →
       Handlers.header_str h' "content-type" = Some "application/json" →
       Handlers.header_str h' CSRF_HEADER = Some csrf →
       ∃ answer w2, handle h' Logout w1 = (Ok answer, w2) ∧
         Response.status answer = StatusCode.NO_CONTENT ∧
         ∀ w3, rtc (step int4_as_i64) w2 w3 → calm w3 →
           ∃ answer' w4, handle h' PublicCapabilities w3 = (Ok answer', w4) ∧
             Response.body answer' = Some (capability_document "anonymous"
               ["session.discover"; "auth.login"; "auth.setup"; "recovery.request"])).
Proof.
  intros Hw Hl Hc Hidle Habs.
  apply login_finish_Ok in Hl as (grant & user & v & Hf & Hcookie & Hset & Hbody).
  assert (db_wf (db (same_but_drawn w))) as Hw' by done.
  destruct (grant_tokens _ _ _ _ _ _ _ Hf) as [Hvt Hvc].
  pose proof (step_wf _ _ (finish_authentication_safe int4_as_i64 _ _ _ _ _ _ _ Hf Hw')) as Hw1.
  destruct (finish_authentication_Ok int4_as_i64 _ _ _ _ _ _ _ _ Hw' Hf)
    as (id & row & _ & _ & _ & _ & _ & _ & Hses).
  destruct (login_accepts int4_as_i64 _ _ _ _ _ _ _ _ _ (same_but_drawn w1) Hw' Hf eq_refl Hc Hidle Habs)
    as (p & w2 & _ & _ & _ & Hacc).
  destruct (token_round_trip _ Hvt) as [Hpt Hut], (token_round_trip _ Hvc) as [Hpc _].
  exists (SecretToken.expose (SessionGrant.token grant)), (SecretToken.expose (SessionGrant.csrf grant)).
  split; [|split; [done|]].
  { exists v. split; [done|].
    destruct (header_visible _ (session_cookie_visible _ Hut)) as (v' & Hv' & Hs). by simplify_eq. }
  intros h' Hck. apply cookie_value_session in Hck; [|done]. split.
  { rewrite (public_capabilities_session _ _ _ Hck Hvt). fold (same_but_drawn w1).
    match goal with |- context [authenticate_session ?c ?t ?x ?n ?w] =>
      assert (authenticate_session c t x n w = (Ok p, w2)) as -> by exact (Hacc None) end.
    by eexists _, w2. }
  intros Ho Ht Hcs. specialize (Hacc (Some (SessionGrant.csrf grant))).
  cbn beta iota in Hacc. rewrite bool_decide_true in Hacc by done.
  assert (Handlers.session_and_csrf h' = Ok (SessionGrant.token grant, SessionGrant.csrf grant)) as Hsc.
  { unfold Handlers.session_and_csrf, Handlers.session_token. rewrite Hck. simpl. rewrite Hpt. simpl.
    rewrite Hcs. simpl. by rewrite Hpc. }
  destruct (logout_revokes h' _ _ p w1 w2 _ _ Hw1 Hc (proj2 (verify_origin_json_Ok _ _) (conj Ho Ht)) Hsc
    Hacc Hses eq_refl) as (answer & w2' & s2 & Hout & Hst & Hw2 & Hk2 & Hh2 & Hr2).
  exists answer, w2'. split; [done|]. split; [done|]. intros w3 Hsteps Hc3.
  destruct (steps_keep _ _ _ Hsteps Hw2) as [Hw3 He3].
  rewrite (public_capabilities_session _ _ _ Hck Hvt).
  destruct (revoked_unauthenticated (SessionGrant.token grant) None (instant_at (drawn w3)) w2'
    (same_but_drawn w3) _ _ Hw3 Hc3 He3 Hk2 Hh2 Hr2) as (w4 & Hun).
  match goal with |- context [authenticate_session ?c ?t ?x ?n ?w] =>
    assert (authenticate_session c t x n w = (Err Unauthenticated, w4)) as -> by exact Hun end.
  by eexists _, w4.
Qed.

End lifecycle.
