(* ===== verification/Bodies.v ===== *)
(** * Bodies: the JSON bodies of requests ([server/src/http.rs])

    What the derived [Deserialize] of each request body reads.  Unlike the types of the gateway contract these
    ignore entries they do not know, and two fields have a default.  [ceremonies_cross_the_wire]
    follows a ceremony from the answer that starts it to the request that ends it. *)
From S2P Require Export Serde Http.

(** ** The deserializer *)

(** What an object has under a name: at most one entry. *)
Definition field_of (name : string) (es : list (string * Value)) : option (option Value) :=
  match filter (λ e, e.1 = name) es with
  | [] => Some None
  | [e] => Some (Some e.2)
  | _ => None
  end.

(** [de_fields names] is the derived visitor of a struct with fields of these names, without
    [deny_unknown_fields]: for each field in the order of their declaration its value, if there is one. *)
Class BodyDe := {
  de_bool : Value → option bool;
  de_fields : list string → Value → option (list (option Value));
}.

Class BodyDeLaws `{BodyDe} : Prop := {
  de_bool_iff v b : de_bool v = Some b ↔ v = Bool b;
  (** an object: unknown entries are ignored, repeated ones refused *)
  de_fields_object names es : NoDup names →
    de_fields names (Object es) = mapM (λ name, field_of name es) names;
  (** or, where the format has it so, the array of the first fields; and nothing else *)
  de_fields_inv names v fs : de_fields names v = Some fs →
    (∃ es, v = Object es) ∨ ∃ vs, v = Array vs ∧
      fs = (Some <$> vs) ++ replicate (length names - length vs) None;
}.

Section bodies.
Context `{SerdeDe, BodyDe, UuidText}.

(** crate [uuid]: its [Deserialize] from a format for people. *)
Definition de_uuid (v : Value) : option Uuid := s ← de_string v; uuid_parse s.

(** [#[serde(rename_all = "snake_case")]]. *)
Definition CeremonyKind_deserialize (v : Value) : option CeremonyKind :=
  name ← de_enum ["registration"; "authentication"; "operator_bootstrap"; "operator_recovery"] v;
  if String.eqb name "registration" then Some Registration
  else if String.eqb name "authentication" then Some Authentication
  else if String.eqb name "operator_bootstrap" then Some OperatorBootstrap
  else if String.eqb name "operator_recovery" then Some OperatorRecovery else None.

(** An [Option]. *)
Definition option_deserialize {A} (de : Value → option A) (v : Value) : option (option A) :=
  match v with Null => Some None | v => Some <$> de v end.

(** [#[serde(default)]]. *)
Definition or_default {A} (default : A) (de : Value → option A) (v : option Value) : option A :=
  match v with Some v => de v | None => Some default end.

Definition CeremonyFinish_deserialize (v : Value) : option CeremonyFinish.t :=
  fields ← de_fields ["ceremony_id"; "credential"; "ceremony_kind"] v;
  match fields with
  | [ceremony_id; credential; ceremony_kind] =>
      ceremony_id ← ceremony_id ≫= de_uuid;
      credential ← credential;
      ceremony_kind ← or_default None (option_deserialize CeremonyKind_deserialize) ceremony_kind;
      Some (CeremonyFinish.mk ceremony_id credential ceremony_kind)
  | _ => None
  end.

Definition SetupStart_deserialize (v : Value) : option SetupStart.t :=
  fields ← de_fields ["setup_token"; "recovery"] v;
  match fields with
  | [setup_token; recovery] =>
      setup_token ← setup_token ≫= de_string;
      recovery ← or_default false de_bool recovery;
      Some (SetupStart.mk setup_token recovery)
  | _ => None
  end.

Definition RecoveryRequestBody_deserialize (v : Value) : option RecoveryRequestBody.t :=
  fields ← de_fields ["user_id"] v;
  match fields with
  | [user_id] => user_id ← user_id ≫= de_string; Some (RecoveryRequestBody.mk user_id)
  | _ => None
  end.

Definition RecoverySetupBody_deserialize (v : Value) : option RecoverySetupBody.t :=
  fields ← de_fields ["user_id"] v;
  match fields with
  | [user_id] => user_id ← user_id ≫= de_string; Some (RecoverySetupBody.mk user_id)
  | _ => None
  end.

Definition ApproveUserBody_deserialize (v : Value) : option ApproveUserBody.t :=
  fields ← de_fields ["user_id"; "email"; "display_name"] v;
  match fields with
  | [user_id; email; display_name] =>
      user_id ← user_id ≫= de_string;
      email ← email ≫= de_string;
      display_name ← display_name ≫= de_string;
      Some (ApproveUserBody.mk user_id email display_name)
  | _ => None
  end.

End bodies.

(** ** Lemmas *)

Definition finish_names : list string := ["ceremony_id"; "credential"; "ceremony_kind"].

(** Only the entries of known names count, in whatever order. *)
Definition known (names : list string) (es : list (string * Value)) : list (string * Value) :=
  filter (λ e, e.1 ∈ names) es.

Lemma field_of_known names name es fs :
  name ∈ names → known names es ≡ₚ known names fs → field_of name es = field_of name fs.
Proof.
  intros Hn Hp.
  assert (∀ es, filter (λ e, e.1 = name) (known names es) = filter (λ e : string * Value, e.1 = name) es) as Hf.
  { intros l. unfold known. rewrite list_filter_filter_l; [done|]. by intros e ->. }
  unfold field_of. rewrite <- (Hf es), <- (Hf fs).
  assert (filter (λ e, e.1 = name) (known names es) ≡ₚ filter (λ e, e.1 = name) (known names fs)) as He
    by by rewrite Hp.
  destruct (filter _ (known names es)) as [|a [|b l]], (filter _ (known names fs)) as [|c [|d k]];
    try done; try (apply Permutation_length in He; discriminate).
  apply Permutation_singleton_inj in He. by subst.
Qed.

(** What a client sends to end the ceremony that the response started: the response's entries with the
    credential, in any order, and whatever else. *)
Definition answers {HV} (r : Response HV) (credential : Value) (es : list (string * Value)) : Prop :=
  ∃ entries, Response.body r = Some (Object entries) ∧
    known finish_names es ≡ₚ known finish_names (("credential", credential) :: entries).

Section wire.
Context `{SerdeDeLaws} `{BodyDeLaws} `{UuidTextLaws}.

Lemma string_read s : de_string (Str s) = Some s.
Proof. by apply de_string_iff. Qed.

(** The bodies without a ceremony, from objects that have their fields. *)
Lemma setup_start_read es token recovery :
  field_of "setup_token" es = Some (Some (Str token)) → field_of "recovery" es = Some (Bool <$> recovery) →
  SetupStart_deserialize (Object es) = Some (SetupStart.mk token (default false recovery)).
Proof.
  intros Ht Hr. unfold SetupStart_deserialize. rewrite de_fields_object by distinct_names. cbn [mapM].
  rewrite Ht, Hr. cbn [mbind option_bind mret option_ret]. rewrite string_read.
  destruct recovery as [b|]; [|done]. cbn [fmap option_fmap option_map or_default mbind option_bind].
  by rewrite (proj2 (de_bool_iff (Bool b) b) eq_refl).
Qed.

Lemma approve_user_read es user_id email display_name :
  field_of "user_id" es = Some (Some (Str user_id)) → field_of "email" es = Some (Some (Str email)) →
  field_of "display_name" es = Some (Some (Str display_name)) →
  ApproveUserBody_deserialize (Object es) = Some (ApproveUserBody.mk user_id email display_name).
Proof.
  intros Hu He Hd. unfold ApproveUserBody_deserialize. rewrite de_fields_object by distinct_names. cbn [mapM].
  rewrite Hu, He, Hd. cbn [mbind option_bind mret option_ret].
  by rewrite (string_read user_id), (string_read email), (string_read display_name).
Qed.

Lemma kind_read kind : CeremonyKind_deserialize (ceremony_kind_value kind) = Some kind.
Proof.
  destruct kind; unfold CeremonyKind_deserialize, ceremony_kind_value.
  all: rewrite de_enum_name by (apply (bool_decide_eq_true_1 _); vm_compute; reflexivity); reflexivity.
Qed.

Lemma uuid_read id : 0 ≤ id < 2 ^ 128 → de_uuid (Str (uuid_text id)) = Some id.
Proof.
  intros Hid. unfold de_uuid. rewrite string_read. by apply uuid_parse_text.
Qed.

Lemma finish_read es fs :
  known finish_names es ≡ₚ known finish_names fs →
  CeremonyFinish_deserialize (Object es) = CeremonyFinish_deserialize (Object fs).
Proof.
  intros Hp. unfold CeremonyFinish_deserialize. fold finish_names.
  rewrite !de_fields_object by distinct_names. f_equal. unfold finish_names. simpl.
  by rewrite !(field_of_known finish_names _ es fs) by (unfold finish_names; set_solver || done).
Qed.

(** What is read from the answer to a start without a kind, and with one. *)
Lemma finish_read_started id credential public_key es :
  0 ≤ id < 2 ^ 128 →
  known finish_names es ≡ₚ known finish_names
    [("credential", credential); ("ceremony_id", Str (uuid_text id)); ("public_key", public_key)] →
  CeremonyFinish_deserialize (Object es) = Some (CeremonyFinish.mk id credential None).
Proof.
  intros Hid ->%finish_read. unfold CeremonyFinish_deserialize.
  rewrite de_fields_object by distinct_names.
  change (mapM _ _) with (Some [Some (Str (uuid_text id)); Some credential; None (A := Value)]).
  cbn [mbind option_bind]. by rewrite uuid_read.
Qed.

Lemma option_kind_read kind :
  option_deserialize CeremonyKind_deserialize (ceremony_kind_value kind) = Some (Some kind).
Proof. unfold option_deserialize. pose proof (kind_read kind) as Hk. destruct kind; simpl in *; by rewrite Hk. Qed.

Lemma finish_kind es kind body :
  field_of "ceremony_kind" es = Some (Some (ceremony_kind_value kind)) →
  CeremonyFinish_deserialize (Object es) = Some body → CeremonyFinish.ceremony_kind body = Some kind.
Proof.
  intros Hf. unfold CeremonyFinish_deserialize. rewrite de_fields_object by distinct_names. cbn [mapM].
  rewrite Hf. destruct (field_of "ceremony_id" es) as [i|], (field_of "credential" es) as [c|];
    cbn [mbind option_bind mret option_ret or_default]; try done. rewrite option_kind_read.
  intros (u & _ & (d & _ & [= <-])%bind_Some)%bind_Some. done.
Qed.

Lemma finish_read_bootstrap id kind credential public_key es :
  0 ≤ id < 2 ^ 128 →
  known finish_names es ≡ₚ known finish_names
    [("credential", credential); ("ceremony_id", Str (uuid_text id)); ("ceremony_kind", ceremony_kind_value kind);
     ("public_key", public_key)] →
  CeremonyFinish_deserialize (Object es) = Some (CeremonyFinish.mk id credential (Some kind)).
Proof.
  intros Hid ->%finish_read. unfold CeremonyFinish_deserialize.
  rewrite de_fields_object by distinct_names.
  change (mapM _ _) with (Some [Some (Str (uuid_text id)); Some credential; Some (ceremony_kind_value kind)]).
  cbn [mbind option_bind]. rewrite uuid_read by done. cbn [mbind option_bind or_default].
  by rewrite option_kind_read.
Qed.

End wire.

(** ** Properties *)

Section properties.
Import Handlers.
Context {W HM HV : Type} `{HttpTypes HM HV, AuthStore W, Randomness W, UtcClock W, Readiness W, CeremonyEngine,
  Sha256, Base64, ChronoText}.
Context `{SerdeDeLaws} `{BodyDeLaws} `{UuidTextLaws}.
Context (config : AuthConfig) (browser_origin : string).

Lemma start_bootstrap_kind now w id challenge kind w' :
  start_operator_bootstrap config now w = (Ok (id, challenge, kind), w') →
  kind = OperatorBootstrap ∨ kind = OperatorRecovery.
Proof.
  unfold start_operator_bootstrap. intros Hr. inv_ok. destruct x1 as [[user hash] k]. inv_ok. case_match. inv_ok.
  destruct x as [[]|]; inv_ok; auto.
Qed.

(** C16: a ceremony crosses the wire: when a start has answered, the JSON of the finish that carries what the
    answer gave (and the credential; in any order, with whatever other entries) is read as the
    ceremony that the service started, with the kind that the answer named; for an operator that kind is one of
    the two that the finish accepts, and the finish goes on with exactly that ceremony, kind and
    credential; and the JSON of a bootstrap's finish that names any other kind is invalid input and changes
    nothing.  (A UUID is 128 bits.) *)
Theorem ceremonies_cross_the_wire (headers : HM) (w : W) r w' :
  (login_start config browser_origin headers w = (Ok r, w') →
   ∃ id challenge now w1, utc_now w = (Ok now, w1) ∧
     start_authentication config now w1 = (Ok (id, challenge), w') ∧
     ∀ credential es, 0 ≤ id < 2 ^ 128 → answers r credential es →
       CeremonyFinish_deserialize (Object es) = Some (CeremonyFinish.mk id credential None)) ∧
  (∀ body, setup_start config browser_origin headers body w = (Ok r, w') →
   ∃ id challenge token purpose now w1, utc_now w = (Ok now, w1) ∧
     start_setup_registration config token purpose now w1 = (Ok (id, challenge), w') ∧
     ∀ credential es, 0 ≤ id < 2 ^ 128 → answers r credential es →
       CeremonyFinish_deserialize (Object es) = Some (CeremonyFinish.mk id credential None)) ∧
  (operator_bootstrap_start config browser_origin headers w = (Ok r, w') →
   ∃ id challenge kind now w1, utc_now w = (Ok now, w1) ∧
     start_operator_bootstrap config now w1 = (Ok (id, challenge, kind), w') ∧
     (kind = OperatorBootstrap ∨ kind = OperatorRecovery) ∧
     ∀ credential es, 0 ≤ id < 2 ^ 128 → answers r credential es →
       ∃ body, CeremonyFinish_deserialize (Object es) = Some body ∧
         ∀ headers' w2, operator_bootstrap_finish (HV := HV) browser_origin headers' body w2 =
           bind (lift (verify_origin_json browser_origin headers')) (λ _, bind utc_now (λ now,
             bind (finish_registration id kind credential now) (λ _, ret (empty StatusCode.NO_CONTENT)))) w2) ∧
  (∀ es kind body, field_of "ceremony_kind" es = Some (Some (ceremony_kind_value kind)) →
   CeremonyFinish_deserialize (Object es) = Some body →
   kind ≠ OperatorBootstrap → kind ≠ OperatorRecovery → verify_origin_json browser_origin headers = Ok tt →
   operator_bootstrap_finish (HV := HV) browser_origin headers body w = (Err InvalidInput, w)).
Proof.
  split_and!.
  - unfold login_start. intros Hr. inv_ok. case_match. inv_ok.
    eexists _, _, _, _. split; [eassumption|]. split; [eassumption|].
    intros credential es Hid (entries & He & Hp). simpl in He. injection He as <-.
    eauto using finish_read_started.
  - unfold setup_start. intros body Hr. inv_ok. case_match. inv_ok.
    eexists _, _, _, _, _, _.
    split; [eassumption|]. split; [eassumption|].
    intros credential es Hid (entries & He & Hp). simpl in He. injection He as <-.
    eauto using finish_read_started.
  - unfold operator_bootstrap_start. intros Hr. inv_ok. repeat case_match. inv_ok.
    eexists _, _, _, _, _. split; [eassumption|]. split; [eassumption|].
    match goal with Hs : start_operator_bootstrap _ _ _ = _ |- _ => apply start_bootstrap_kind in Hs as Hk end.
    split; [exact Hk|]. intros credential es Hid (entries & He & Hp). simpl in He. injection He as <-.
    eexists. split; [by eapply finish_read_bootstrap|]. intros headers' w2.
    unfold operator_bootstrap_finish. cbn [CeremonyFinish.ceremony_kind CeremonyFinish.ceremony_id default]. 
    unfold bind, ret. destruct (lift _ w2) as [[]]; [|done].
    by destruct Hk as [-> | ->].
  - intros es kind body Hf Hb H1' H2' Hv. apply (finish_kind es kind body Hf) in Hb.
    unfold operator_bootstrap_finish, bind, lift. rewrite Hv, Hb.
    by destruct kind.
Qed.

End properties.
