(* ===== verification/Traffic.v ===== *)
(** * Traffic: what the requests of the two listeners can change ([server/src/http.rs] over
    [server/src/repository.rs])

    The server answers any sequence of requests on its public and its private listener, over one
    database, with whatever faults.  [authority] is what only an operator may change: the accounts,
    the capabilities that were issued, the approvals of recoveries, the revocations of passkeys.
    A computation [keeps] a view of the database if the view is the same after it; views are
    preserved statement by statement, so an operation keeps those its statements keep. *)
From S2P Require Export Http.

(** ** Views *)

(** What a capability grants; whether it has been used is not part of it. *)
Definition grant_of (c : AuthCapability.t) : string * string * string * DateTime :=
  (AuthCapability.user_id c, AuthCapability.purpose c, AuthCapability.token_hash c,
   AuthCapability.expires_at c).

(** The operator's decisions on a recovery, once there is one. *)
Definition decisions_of (r : Recovery.t) : option (string * option DateTime * option string * option DateTime) :=
  if is_null (Recovery.approved_at r) && is_null (Recovery.approved_by r) && is_null (Recovery.setup_issued_at r)
  then None
  else Some (Recovery.user_id r, Recovery.approved_at r, Recovery.approved_by r, Recovery.setup_issued_at r).

Record Authority := mkAuthority {
  accounts : gmap string HumanUser.t;
  grants : gmap Uuid (string * string * string * DateTime);
  decisions : gmap Uuid (string * option DateTime * option string * option DateTime);
  revocations : gmap Uuid DateTime;
}.

Definition authority (d : Db) : Authority :=
  mkAuthority (human_users d) (grant_of <$> auth_capabilities d)
    (omap decisions_of (recovery_requests d)) (omap PasskeyCredential.revoked_at (passkey_credentials d)).

(** The ceremonies that register an operator's passkey without a session. *)
Definition operator_ceremony (c : AuthCeremony.t) : bool :=
  String.eqb (AuthCeremony.kind c) "operator_bootstrap" || String.eqb (AuthCeremony.kind c) "operator_recovery".
Definition operator_view (c : AuthCeremony.t) : option AuthCeremony.t :=
  if operator_ceremony c then Some c else None.
Definition operator_ceremonies (d : Db) : gmap Uuid AuthCeremony.t := omap operator_view (auth_ceremonies d).

(** Whom a session authenticates, with which token, and until when at most. *)
Definition login_of (s : AuthSession.t) : string * string * Z * DateTime :=
  (AuthSession.user_id s, AuthSession.token_hash s, AuthSession.auth_epoch s,
   AuthSession.absolute_expires_at s).
Definition logins (d : Db) : gmap Uuid (string * string * Z * DateTime) := login_of <$> auth_sessions d.

(** ** Computations that keep a view *)

Section keeps.
Context {X : Type} (f : Db → X).

Definition keeps {E A} (c : M World E A) : Prop := ∀ w r w', c w = (r, w') → f (db w') = f (db w).
Definition statement_keeps {A} (s : statement A) : Prop := ∀ d a d', s d = Ok (a, d') → f d' = f d.

(** Within a transaction: of the published database and of the working copy. *)
Definition tx_keeps {E A} (c : M Tx E A) : Prop := ∀ x t r t',
  c t = (r, t') → f (db (world t)) = x → f (working t) = x →
  f (db (world t')) = x ∧ f (working t') = x.

Lemma keeps_ret {E A} (a : A) : keeps (ret (E := E) a).
Proof. by intros w r w' [= _ <-]. Qed.
Lemma keeps_throw {E A} (e : E) : keeps (A := A) (throw e).
Proof. by intros w r w' [= _ <-]. Qed.
Lemma keeps_lift {E A} (x : result A E) : keeps (lift x).
Proof. by intros w r w' [= _ <-]. Qed.
Lemma keeps_draw {E A} (g : nat → A) : keeps (draw (E := E) g).
Proof. by intros w r w' [= _ <-]. Qed.

Lemma keeps_bind {E A B} (c : M World E A) (k : A → M World E B) :
  keeps c → (∀ a, keeps (k a)) → keeps (bind c k).
Proof.
  intros Hc Hk w r w'. unfold bind. destruct (c w) as [[a|e] w1] eqn:E1.
  - intros E2. rewrite (Hk _ _ _ _ E2). by eapply Hc.
  - intros [= _ <-]. by eapply Hc.
Qed.

(** The handlers that inspect the answer of a call. *)
Lemma keeps_after {E A B} (c : M World E A) (g : result A E → result B E) :
  keeps c → keeps (λ w, let (r, w) := c w in (g r, w)).
Proof. intros Hc w r w'. destruct (c w) as [r1 w1] eqn:E1. intros [= _ <-]. by eapply Hc. Qed.

Lemma keeps_err_with {A} g (c : M World SqlxError A) : keeps c → keeps (err_with g c).
Proof. intros Hc w r w'. unfold err_with. destruct (c w) as [r1 w1] eqn:E1. intros [= _ <-]. by eapply Hc. Qed.

Lemma keeps_pool {A} (s : DateTime → statement A) :
  (∀ now, statement_keeps (s now)) → keeps (pool_execute s).
Proof.
  intros Hs w r w'. unfold pool_execute. destruct (next_verdict w) as [v w1] eqn:Hv.
  apply next_verdict_db in Hv. rewrite <- Hv.
  destruct v; [destruct (s _ _) as [[a d]|e] eqn:Hq| |destruct (s _ _) as [[a d]|e] eqn:Hq];
    intros [= _ <-]; simpl; try done; by eapply Hs.
Qed.

Lemma tx_keeps_ret {E A} (a : A) : tx_keeps (ret (E := E) a).
Proof. by intros x t r t' [= _ <-]. Qed.
Lemma tx_keeps_throw {E A} (e : E) : tx_keeps (A := A) (throw e).
Proof. by intros x t r t' [= _ <-]. Qed.
Lemma tx_keeps_lift {E A} (y : result A E) : tx_keeps (lift y).
Proof. by intros x t r t' [= _ <-]. Qed.
Lemma tx_keeps_draw {E A} (g : nat → A) : tx_keeps (tx_draw (E := E) g).
Proof. by intros x t r t' [= _ <-]. Qed.

Lemma tx_keeps_bind {E A B} (c : M Tx E A) (k : A → M Tx E B) :
  tx_keeps c → (∀ a, tx_keeps (k a)) → tx_keeps (bind c k).
Proof.
  intros Hc Hk x t r t'. unfold bind. destruct (c t) as [[a|e] t1] eqn:E1.
  - intros E2 H1 H2. destruct (Hc _ _ _ _ E1 H1 H2). by eapply Hk.
  - intros [= _ <-]. by eapply Hc.
Qed.

Lemma tx_keeps_err_with {A} g (c : M Tx SqlxError A) : tx_keeps c → tx_keeps (err_with g c).
Proof. intros Hc x t r t'. unfold err_with. destruct (c t) as [r1 t1] eqn:E1. intros [= _ <-]. by eapply Hc. Qed.

Lemma tx_keeps_execute {A} (s : DateTime → statement A) :
  (∀ now, statement_keeps (s now)) → tx_keeps (tx_execute s).
Proof.
  intros Hs x t r t'. unfold tx_execute. destruct (next_verdict (world t)) as [v w1] eqn:Hv.
  apply next_verdict_db in Hv. rewrite <- Hv.
  destruct v; [destruct (s _ _) as [[a d]|e] eqn:Hq| |]; intros [= _ <-] H1 H2; simpl; try done.
  split; [done|]. rewrite <- H2. by eapply Hs.
Qed.

Lemma tx_keeps_commit : tx_keeps commit.
Proof.
  intros x t r t'. unfold commit. destruct (next_verdict (world t)) as [v w1] eqn:Hv.
  apply next_verdict_db in Hv. rewrite <- Hv. by destruct v; intros [= _ <-].
Qed.

Lemma keeps_transaction {A} (body : M Tx AuthError A) : tx_keeps body → keeps (transaction body).
Proof.
  intros Hb w r w'. unfold transaction. destruct (next_verdict w) as [v w1] eqn:Hv.
  apply next_verdict_db in Hv. rewrite <- Hv. destruct v; [|by intros [= _ <-]..].
  destruct (body _) as [r1 t] eqn:Hbody. intros [= _ <-]. by eapply Hb.
Qed.

Lemma statement_keeps_select {A} (g : Db → A) now : statement_keeps (select g now).
Proof. by intros d a d' [= _ <-]. Qed.

End keeps.

(** ** Statements *)

Section tables.
Context {K V : Type} `{Countable K}.
Implicit Types (m : gmap K V) (P : K → V → bool).

Lemma fmap_update_where {B} (g : V → B) (h : V → V) P m :
  (∀ v, g (h v) = g v) → g <$> update_where P h m = g <$> m.
Proof.
  intros Hg. apply map_eq. intros k. rewrite !lookup_fmap, lookup_update_where.
  destruct (m !! k) as [v|]; simpl; [|done]. by destruct (P k v); rewrite ?Hg.
Qed.

Lemma omap_update_where {B} (g : V → option B) (h : V → V) P m :
  (∀ k v, P k v = true → g (h v) = g v) → omap g (update_where P h m) = omap g m.
Proof.
  intros Hg. apply map_eq. intros k. rewrite !lookup_omap, lookup_update_where.
  destruct (m !! k) as [v|]; simpl; [|done]. destruct (P k v) eqn:HP; [by apply (Hg k)|done].
Qed.

(** A new row that the view does not show. *)
Lemma omap_insert_hidden {B} (g : V → option B) k v m :
  ¬ is_Some (m !! k) → g v = None → omap g (<[k := v]> m) = omap g m.
Proof.
  intros Hk Hg. apply eq_None_not_Some in Hk. apply map_eq. intros k'.
  rewrite !lookup_omap. by destruct (decide (k = k')) as [<-|]; simplify_map_eq.
Qed.

End tables.

Create HintDb views discriminated.

(** An insertion that succeeded found no row of its key. *)
Ltac inserted :=
  let d := fresh "d" in let a := fresh "a" in let d' := fresh "d'" in let Hi := fresh "Hi" in
  intros d a d' Hi;
  unfold insert_human_user, insert_passkey_credential, insert_auth_capability, insert_auth_ceremony,
    insert_auth_session, insert_recovery_request, insert_auth_audit_event, touch_session in Hi;
  repeat match type of Hi with
         | (if ?b then _ else _) = _ => destruct b eqn:?
         end; simplify_eq.

(** A statement that touches no table the view reads. *)
Ltac unseen := first [ by intros ? ? ? [= _ <-] | by inserted ].
#[export] Hint Extern 1 (statement_keeps _ _) => unseen : views.

(** *** The authority of operators *)

Lemma consume_capabilities_authority P at_ : statement_keeps authority (consume_capabilities P at_).
Proof. intros d a d' [= _ <-]. unfold authority. simpl. by rewrite fmap_update_where. Qed.
Lemma complete_recoveries_authority subject at_ : statement_keeps authority (complete_recoveries subject at_).
Proof. intros d a d' [= _ <-]. unfold authority. simpl. by rewrite omap_update_where. Qed.
Lemma use_credential_authority user credential data at_ :
  statement_keeps authority (use_credential user credential data at_).
Proof. intros d a d' [= _ <-]. unfold authority. simpl. by rewrite omap_update_where. Qed.
Lemma insert_credential_authority id r :
  PasskeyCredential.revoked_at r = None → statement_keeps authority (insert_passkey_credential id r).
Proof.
  intros Hr. inserted. unfold authority. simpl. rewrite omap_insert_hidden; [done| |done].
  bool_prop. naive_solver.
Qed.
Lemma insert_recovery_authority id r :
  decisions_of r = None → statement_keeps authority (insert_recovery_request id r).
Proof.
  intros Hr. inserted. unfold authority. simpl. rewrite omap_insert_hidden; [done| |done].
  bool_prop. naive_solver.
Qed.

(** *** The sessions' logins *)

Lemma revoke_sessions_logins P at_ : statement_keeps logins (revoke_sessions P at_).
Proof. intros d a d' [= _ <-]. unfold logins. simpl. by rewrite fmap_update_where. Qed.
Lemma touch_session_logins id csrf idle at_ : statement_keeps logins (touch_session id csrf idle at_).
Proof. inserted; unfold logins; simpl; by rewrite fmap_update_where. Qed.
Lemma update_epochs_logins P now server_now : statement_keeps logins (update_epochs P now server_now).
Proof. intros d a d'. unfold update_epochs. destruct (existsb _ _); [done|]. by intros [= _ <-]. Qed.
Lemma mark_approved_logins id operator_id at_ : statement_keeps logins (mark_approved id operator_id at_).
Proof.
  intros d a d'. unfold mark_approved. destruct (head _) as [[k r]|]; [|by intros [= _ <-]].
  destruct (user_exists _ _); [|done]. by intros [= _ <-].
Qed.

(** *** The operators' ceremonies *)

Lemma consume_ceremonies_operator P at_ :
  (∀ k c, P k c = true → operator_ceremony c = false) →
  statement_keeps operator_ceremonies (consume_ceremonies P at_).
Proof.
  intros HP d a d' [= _ <-]. unfold operator_ceremonies. simpl. apply omap_update_where.
  intros k c [Hc%HP _]%andb_true_iff. unfold operator_view, operator_ceremony in *. simpl. by rewrite Hc.
Qed.
Lemma insert_ceremony_operator id r :
  operator_ceremony r = false → statement_keeps operator_ceremonies (insert_auth_ceremony id r).
Proof.
  intros Hr. inserted. unfold operator_ceremonies. simpl. apply omap_insert_hidden; [bool_prop; naive_solver|].
  unfold operator_view. by rewrite Hr.
Qed.

(** All but one ceremony. *)
Definition operator_ceremonies_but (id : Uuid) (d : Db) : gmap Uuid AuthCeremony.t :=
  delete id (operator_ceremonies d).

(** The other ceremonies decide if the one is not an operator's. *)
Lemma operator_ceremonies_at id d d' c c' :
  auth_ceremonies d !! id = Some c → auth_ceremonies d' !! id = Some c' →
  operator_ceremony c = false → operator_ceremony c' = false →
  operator_ceremonies_but id d' = operator_ceremonies_but id d → operator_ceremonies d' = operator_ceremonies d.
Proof.
  intros Hc Hc' Ho Ho' Hbut. apply map_eq. intros k. destruct (decide (k = id)) as [->|Hne].
  - unfold operator_ceremonies. rewrite !lookup_omap, Hc, Hc'. simpl. unfold operator_view. by rewrite Ho, Ho'.
  - apply (f_equal (lookup k)) in Hbut. unfold operator_ceremonies_but in Hbut.
    by rewrite !lookup_delete_ne in Hbut by done.
Qed.

Lemma consume_one_operator id P at_ :
  (∀ k c, P k c = true → k = id) → statement_keeps (operator_ceremonies_but id) (consume_ceremonies P at_).
Proof.
  intros HP d a d' [= _ <-]. apply map_eq. intros k. unfold operator_ceremonies_but, operator_ceremonies.
  destruct (decide (k = id)) as [->|Hk]; [by rewrite !lookup_delete_eq|].
  rewrite !lookup_delete_ne, !lookup_omap by done. simpl. rewrite lookup_update_where.
  destruct (_ !! k) as [c|]; simpl; [|done]. destruct (P k c) eqn:Hc; simpl; [|done].
  by apply HP in Hc.
Qed.

#[export] Hint Resolve statement_keeps_select consume_capabilities_authority complete_recoveries_authority
  use_credential_authority insert_credential_authority insert_recovery_authority revoke_sessions_logins
  touch_session_logins update_epochs_logins mark_approved_logins consume_ceremonies_operator
  insert_ceremony_operator consume_one_operator : views.

(** ** Requests *)

(** Follows the structure of a computation down to its statements. *)
Ltac keeping :=
  repeat match goal with
  | |- keeps _ (bind _ _) => apply keeps_bind; [|intros ?]
  | |- tx_keeps _ (bind _ _) => apply tx_keeps_bind; [|intros ?]
  | |- keeps _ (ret _) => apply keeps_ret
  | |- keeps _ (throw _) => apply keeps_throw
  | |- keeps _ (lift _) => apply keeps_lift
  | |- keeps _ (draw _) => apply keeps_draw
  | |- keeps _ (store_err _) => apply keeps_err_with
  | |- keeps _ (err_with _ _) => apply keeps_err_with
  | |- keeps _ (pool_execute _) => apply keeps_pool; intros ?
  | |- keeps _ (transaction _) => apply keeps_transaction
  | |- tx_keeps _ (ret _) => apply tx_keeps_ret
  | |- tx_keeps _ (throw _) => apply tx_keeps_throw
  | |- tx_keeps _ (lift _) => apply tx_keeps_lift
  | |- tx_keeps _ (tx_draw _) => apply tx_keeps_draw
  | |- tx_keeps _ commit => apply tx_keeps_commit
  | |- tx_keeps _ (store_err _) => apply tx_keeps_err_with
  | |- tx_keeps _ (err_with _ _) => apply tx_keeps_err_with
  | |- tx_keeps _ (tx_execute _) => apply tx_keeps_execute; intros ?
  | |- _ (match ?x with _ => _ end) => destruct x
  | |- _ (if ?x then _ else _) => destruct x
  end; eauto with views.

(** The definitions of the handlers and of the service, to be unfolded. *)
Create HintDb handlers discriminated.
#[export] Hint Unfold Handlers.ready Handlers.public_capabilities Handlers.session_discovery Handlers.login_start
  Handlers.login_finish Handlers.logout Handlers.setup_start Handlers.setup_finish
  Handlers.recovery_request Handlers.operator_bootstrap_start Handlers.operator_bootstrap_finish
  Handlers.pending_recoveries Handlers.approve_recovery Handlers.issue_recovery_setup
  Handlers.approve_user Handlers.operator_capabilities Handlers.optional_session Handlers.operator : handlers.
#[export] Hint Unfold start_setup_registration start_operator_bootstrap finish_registration start_authentication
  finish_authentication authenticate_session issue_session_csrf AuthService.logout request_recovery
  service_pending_recoveries service_approve_recovery service_issue_recovery_setup
  approve_user_and_issue_setup : handlers.

Section requests.
Context {HM HV : Type} `{HttpTypes HM HV, Entropy, Instants, CeremonyEngine, Sha256, Base64, ChronoText}
  (int4_as_i64 : bool) (config : AuthConfig) (browser_origin : string).

#[local] Instance traffic_store : AuthStore World := pg_auth_store int4_as_i64.

Abbreviation handle := (Handlers.handle (W := World) (HM := HM) config browser_origin).
Abbreviation serve := (Handlers.serve (W := World) (HM := HM) config browser_origin).

Ltac calls :=
  autounfold with handlers;
  cbn [user_by_id user_by_handle credentials_for_user operator_without_credential operator_exists
       operator_recovery_window capability insert_user approve_user_with_setup insert_ceremony
       ceremony complete_registration complete_authentication session rotate_session_csrf
       delete_session create_recovery pending_recoveries approve_recovery issue_recovery_setup
       rotate_all_auth_epochs traffic_store pg_auth_store];
  unfold new_v4, generate, engine_seed, world_randomness, utc_now, world_clock, store_ready, world_readiness;
  autounfold with store_ops; unfold insert_audit, invalidate_user_auth, insert_capability_sql,
    insert_user_sql, select_session.

Lemma ready_keeps {X} (f : Db → X) : keeps f PgAuthStore.ready.
Proof.
  intros w r w'. unfold PgAuthStore.ready. destruct (pool_execute _ w) as [q w1] eqn:Hq. intros [= _ <-].
  by apply (keeps_pool f (select (λ _, tt)) (statement_keeps_select f _) _ _ _ Hq).
Qed.
#[local] Hint Resolve ready_keeps : views.

(** The two handlers that inspect the outcome of a call. *)
Lemma optional_session_keeps {X} (f : Db → X) h :
  (∀ token now, keeps f (authenticate_session config token None now)) →
  keeps f (Handlers.optional_session config h).
Proof.
  intros Ha. unfold Handlers.optional_session. unfold utc_now, world_clock.
  destruct (Handlers.cookie_value h SESSION_COOKIE); keeping.
  intros w r w'. destruct (authenticate_session _ _ _ _ w) as [q w1] eqn:Hq.
  intros Hr. rewrite <- (Ha _ _ _ _ _ Hq). by destruct q as [|[]]; simplify_eq.
Qed.

Lemma session_discovery_keeps {X} (f : Db → X) h :
  (∀ token now, keeps f (issue_session_csrf config token now)) →
  keeps f (Handlers.session_discovery (HV := HV) config h).
Proof.
  intros Ha. unfold Handlers.session_discovery. unfold utc_now, world_clock.
  destruct (Handlers.cookie_value h SESSION_COOKIE); keeping.
  intros w r w'. destruct (issue_session_csrf _ _ _ w) as [q w1] eqn:Hq.
  intros Hr. rewrite <- (Ha _ _ _ _ _ Hq). by destruct q as [[]|[]]; simplify_eq.
Qed.

(** The routes whose handlers change what only an operator may. *)
Definition operator_decision (r : request) : bool :=
  match r with RecoveryApproval _ | RecoverySetupIssue _ _ | UserApproval _ => true | _ => false end.

Lemma handle_authority h r : operator_decision r = false → keeps authority (handle h r).
Proof.
  intros Hr. destruct r; try done; simpl.
  3: unfold Handlers.public_capabilities; apply keeps_bind; [apply optional_session_keeps; intros ? ?|intros ?].
  5: apply session_discovery_keeps; intros ? ?.
  all: calls; keeping.
Qed.

(** Only the end of a login opens a session. *)
Lemma handle_logins h r : (∀ body, r ≠ LoginFinish body) → keeps logins (handle h r).
Proof.
  intros Hr. destruct r; try (by destruct (Hr body)); simpl.
  3: unfold Handlers.public_capabilities; apply keeps_bind; [apply optional_session_keeps; intros ? ?|intros ?].
  5: apply session_discovery_keeps; intros ? ?.
  all: calls; keeping.
Qed.

(** *** The public routes and the operators' ceremonies *)

#[local] Hint Extern 1 (operator_ceremony _ = false) => reflexivity : views.

Lemma login_ceremony_view id at_ now :
  statement_keeps operator_ceremonies (consume_ceremonies (λ k c, (k =? id)
    && bool_decide (AuthCeremony.kind c = "authentication") && (now <? AuthCeremony.expires_at c)) at_).
Proof.
  apply consume_ceremonies_operator.
  intros k c [[_ Hc%bool_decide_eq_true]%andb_true_iff _]%andb_true_iff.
  unfold operator_ceremony. by rewrite Hc.
Qed.
#[local] Hint Resolve login_ceremony_view : views.

(** Completing a registration spends at most the ceremony it names. *)
Lemma complete_registration_view id hash credential now audit :
  keeps (operator_ceremonies_but id) (PgAuthStore.complete_registration id hash credential now audit).
Proof.
  autounfold with store_ops. unfold insert_audit. keeping.
  all: apply consume_one_operator; intros k c Hc; by bool_prop.
Qed.

(** The store finds a ceremony only under its identifier and kind. *)
Lemma finish_registration_view id response now w r w' :
  db_wf (db w) → finish_registration id Registration response now w = (r, w') →
  operator_ceremonies (db w') = operator_ceremonies (db w).
Proof.
  intros Hw Hf.
  assert (safe (finish_registration (W := World) id Registration response now)) as Hsafe by (calls; follow).
  pose proof (step_evolves _ _ (Hsafe _ _ _ Hf Hw)) as He. clear Hsafe.
  assert (keeps (λ d, d) (ceremony (W := World) id Registration now)) as Hread by (calls; keeping).
  unfold finish_registration, bind at 1 in Hf. destruct (ceremony _ _ _ _) as [[[c|]|e] w1] eqn:Hc;
    pose proof (Hread _ _ _ Hc) as Hd; simpl in Hd.
  2,3: unfold bind, lift in Hf; simpl in Hf; injection Hf as _ <-; by rewrite Hd.
  simpl in Hc. pose proof (ceremony_Ok _ _ _ _ _ _ Hc) as (_ & _ & Hid & _).
  apply ceremony_state_Ok in Hc as (row & Hrow & Hk & _).
  assert (operator_ceremonies_but id (db w') = operator_ceremonies_but id (db w1)) as Hbut.
  { unfold bind at 1 in Hf. cbn [lift ok_or] in Hf.
    match type of Hf with ?c _ = _ => assert (keeps (operator_ceremonies_but id) c) as Hbut end.
    - keeping. rewrite <- Hid. apply complete_registration_view.
    - apply (Hbut _ _ _ Hf). }
  rewrite Hd in *. destruct (evolves_ceremonies _ _ He _ _ Hrow) as (row' & Hrow' & Hk' & _).
  apply (operator_ceremonies_at id _ _ row row'); [done..| | |exact Hbut]; unfold operator_ceremony;
    by rewrite ?Hk', Hk.
Qed.

(** A public route leaves the operators' ceremonies as they are. *)
Lemma handle_operator_ceremonies h r w a w' :
  route r ∈ public_router → db_wf (db w) → handle h r w = (a, w') →
  operator_ceremonies (db w') = operator_ceremonies (db w).
Proof.
  intros Hr Hw Hh. destruct r; try (exfalso; revert Hr; simpl; set_solver).
  9: { simpl in Hh. unfold Handlers.setup_finish, bind, lift in Hh.
       destruct (Handlers.verify_origin_json _ _); [|by simplify_eq]. unfold utc_now, world_clock, draw in Hh.
       destruct (finish_registration _ _ _ _ _) as [q w1] eqn:Hf. apply finish_registration_view in Hf; [|done].
       by destruct q; unfold ret in Hh; simplify_eq. }
  all: revert w a w' Hw Hh; assert (∀ (c : M World AuthError (Response HV)), keeps operator_ceremonies c →
    ∀ w a w', db_wf (db w) → c w = (a, w') → operator_ceremonies (db w') = operator_ceremonies (db w)) as Hkeep
    by (intros c Hc w a w' _; apply Hc); apply Hkeep; simpl.
  3: unfold Handlers.public_capabilities; apply keeps_bind; [apply optional_session_keeps; intros ? ?|intros ?].
  5: apply session_discovery_keeps; intros ? ?.
  all: calls; keeping.
Qed.
(** *** Every request is safe *)

Lemma optional_session_safe h : safe (Handlers.optional_session (W := World) config h).
Proof.
  unfold Handlers.optional_session, utc_now, world_clock.
  destruct (Handlers.cookie_value h SESSION_COOKIE); follow.
  intros w r w'. destruct (authenticate_session _ _ _ _ w) as [q w1] eqn:Hq. intros Hr Hw.
  pose proof (authenticate_session_safe int4_as_i64 config _ _ _ _ _ _ Hq Hw). by destruct q as [|[]]; simplify_eq.
Qed.

Lemma session_discovery_safe h : safe (Handlers.session_discovery (W := World) (HV := HV) config h).
Proof.
  unfold Handlers.session_discovery, utc_now, world_clock.
  destruct (Handlers.cookie_value h SESSION_COOKIE); follow.
  intros w r w'. destruct (issue_session_csrf _ _ _ w) as [q w1] eqn:Hq. intros Hr Hw.
  pose proof (issue_session_csrf_safe int4_as_i64 config _ _ _ _ _ Hq Hw). by destruct q as [[]|[]]; simplify_eq.
Qed.

Lemma ready_safe : safe PgAuthStore.ready.
Proof.
  intros w r w'. unfold PgAuthStore.ready. destruct (pool_execute _ w) as [q w1] eqn:Hq. intros [= _ <-] Hw.
  by apply (safe_pool (select (λ _, tt)) (select_safe _) _ _ _ Hq).
Qed.

#[local] Hint Resolve ready_safe : store.

Lemma safe_bind_Ok {A B} (c : M World AuthError A) (k : A → M World AuthError B) :
  safe c → (∀ w a w', c w = (Ok a, w') → safe (k a)) → safe (bind c k).
Proof.
  intros Hc Hk w r w'. unfold bind. destruct (c w) as [[a|e] w1] eqn:E1.
  - intros E2 Hw. pose proof (Hc _ _ _ E1 Hw) as S1. apply (step_safe_trans _ w1); [done|].
    apply (Hk _ _ _ E1 _ _ _ E2), S1.
  - intros [= <- <-] Hw. by eapply Hc.
Qed.

Lemma handle_safe h r : safe (handle h r).
Proof.
  destruct r; simpl.
  3: unfold Handlers.public_capabilities; apply safe_bind; [apply optional_session_safe|intros ?].
  4: apply session_discovery_safe.
  all: try (calls; follow; fail).
  unfold Handlers.approve_user. apply safe_bind; [follow|intros ?]. apply safe_bind; [calls; follow|intros ?].
  apply safe_bind_Ok; [follow|intros w id w' Hid]. apply safe_bind; [calls; follow|intros now].
  apply safe_bind; [|intros ?; follow]. apply approve_user_safe.
  unfold lift in Hid. injection Hid as Hid _. unfold UserId.new in Hid.
  destruct (valid_opaque_id _) eqn:Hv; [|done]. by injection Hid as <-.
Qed.
(** ** Runs of the server *)

Inductive Listener : Set := PublicListener | PrivateListener.

Definition router_of (l : Listener) : list (Method * string) :=
  match l with PublicListener => public_router | PrivateListener => private_router end.

(** A request that was served: where, with what headers, and the world it found. *)
Record Exchange := mkExchange {
  listener : Listener;
  headers : HM;
  asked : request;
  found : World;
  answered : Response HV;
}.

(** Requests in the order they are served, each as a whole; the environment sets the clock of the
    database and the faults to come. *)
Inductive served : World → list Exchange → World → Prop :=
| served_none w : served w [] w
| served_request w l h r response w1 trace w' :
    serve (router_of l) h r w = (response, w1) → served w1 trace w' →
    served w (mkExchange l h r w response :: trace) w'
| served_environment w now vs trace w' :
    served (mkWorld (db w) now vs (drawn w)) trace w' → served w trace w'.

(** The request carries the session of an operator with its anti-forgery token, and comes from the
    browser's origin. *)
Definition from_operator (x : Exchange) : Prop :=
  authorised (db (found x)) (instant_at (drawn (found x))) (headers x) true ∧
  Handlers.header_str (headers x) "origin" = Some browser_origin ∧
  Handlers.header_str (headers x) "content-type" = Some "application/json".

(** A request that is served is one of the router's, and its handler decides what changes. *)
Lemma serve_cases router h r w response w' :
  serve router h r w = (response, w') →
  w' = w ∨ route r ∈ router ∧ ∃ a, handle h r w = (a, w').
Proof.
  unfold Handlers.serve. case_bool_decide as Hr; [|intros [= _ <-]; by left].
  destruct (handle h r w) as [a w1] eqn:Ha. intros [= _ <-]. right. eauto.
Qed.

Lemma serve_wf router h r w response w' :
  db_wf (db w) → serve router h r w = (response, w') → db_wf (db w').
Proof.
  intros Hw [->|(_ & a & Ha)]%serve_cases; [done|]. by apply (handle_safe _ _ _ _ _ Ha Hw).
Qed.

Lemma session_seen_authority d now (h : HM) d' : session_seen config d now h d' → authority d' = authority d.
Proof. by intros [->|(token & _ & [->|(k & s & _ & _ & ->)])]. Qed.

Lemma serve_authority l h r w response w' :
  db_wf (db w) → serve (router_of l) h r w = (response, w') →
  authority (db w') = authority (db w) ∨
  l = PrivateListener ∧ operator_decision r = true ∧ from_operator (mkExchange l h r w response).
Proof.
  intros Hw Hs. apply serve_cases in Hs as [->|(Hr & a & Ha)]; [by left|].
  destruct (operator_decision r) eqn:Hd; [|left; by eapply handle_authority].
  assert ((route r).1 = POST ∧ operator_request r = true) as [Hpost Hop] by by destruct r.
  apply operator_request_cases in Ha as [[Ha Hv]|[_ Ha]]; [| |done..]; [|left; by eapply session_seen_authority].
  right. split_and!; [destruct l; [exfalso; destruct r; revert Hr; simpl; set_solver|done]|done|].
  rewrite bool_decide_true in Ha by done. split; [done|]. by apply verify_origin_json_Ok, Hv.
Qed.

Lemma serve_logins l h r w response w' :
  serve (router_of l) h r w = (response, w') →
  logins (db w') = logins (db w) ∨
  l = PublicListener ∧ (∃ body, r = LoginFinish body) ∧
    Handlers.header_str h "origin" = Some browser_origin ∧
    Handlers.header_str h "content-type" = Some "application/json".
Proof.
  intros Hs. apply serve_cases in Hs as [->|(Hr & a & Ha)]; [by left|].
  assert ((∃ body, r = LoginFinish body) ∨ ∀ body, r ≠ LoginFinish body) as [[body ->]|Hn]
    by (destruct r; eauto); [|left; by eapply handle_logins].
  destruct (Handlers.verify_origin_json browser_origin h) as [[]|e] eqn:Hv.
  - right. apply verify_origin_json_Ok in Hv. split_and!; [|by eexists|apply Hv..].
    destruct l; [done|]. exfalso. revert Hr. simpl. set_solver.
  - left. simpl in Ha. unfold Handlers.login_finish, bind at 1, lift at 1 in Ha. rewrite Hv in Ha.
    by injection Ha as _ <-.
Qed.

(** What only an operator may change is changed only by a request from an operator. *)
Lemma authority_needs_operator w trace w' :
  db_wf (db w) → served w trace w' → authority (db w') ≠ authority (db w) →
  ∃ x, x ∈ trace ∧ listener x = PrivateListener ∧ operator_decision (asked x) = true ∧ from_operator x.
Proof.
  intros Hw Hs. induction Hs as [w|w l h r response w1 trace w' Hreq _ IH|w now vs trace w' _ IH];
    [done| |by apply IH].
  intros Hne. pose proof (serve_authority _ _ _ _ _ _ Hw Hreq) as [He|(-> & Hd & Hop)].
  - destruct IH as (x & Hx & Hrest); [by eapply serve_wf|congruence|].
    exists x. split; [by apply list_elem_of_further|done].
  - eexists. split; [apply list_elem_of_here|]. done.
Qed.

(** The two listeners are confined: in every run of the server, over whatever faults, the
    ceremonies that register an operator's passkey without a session are untouched unless the
    private listener served a request, and no session is opened, and none changes its account,
    token, epoch or absolute expiry, unless the public listener served the end of a login from
    the browser's origin. *)
Theorem listeners_confined w trace w' :
  db_wf (db w) → served w trace w' →
  (operator_ceremonies (db w') ≠ operator_ceremonies (db w) →
     ∃ x, x ∈ trace ∧ listener x = PrivateListener) ∧
  (logins (db w') ≠ logins (db w) →
     ∃ x, x ∈ trace ∧ listener x = PublicListener ∧ (∃ body, asked x = LoginFinish body) ∧
       Handlers.header_str (headers x) "origin" = Some browser_origin ∧
       Handlers.header_str (headers x) "content-type" = Some "application/json").
Proof.
  intros Hw Hs. induction Hs as [w|w l h r response w1 trace w' Hreq _ IH|w now vs trace w' _ IH];
    [done| |by apply IH].
  destruct IH as [IHc IHl]; [by eapply serve_wf|]. split; intros Hne.
  - destruct l; [|eexists; by split; [apply list_elem_of_here|]].
    destruct IHc as (x & Hx & ?); [|exists x; split; [by apply list_elem_of_further|done]].
    intros He. apply Hne. rewrite He. apply serve_cases in Hreq as [->|(Hr & a & Ha)]; [done|].
    by eapply handle_operator_ceremonies.
  - apply serve_logins in Hreq as [He|(-> & Hreq)]; [|eexists; split; [apply list_elem_of_here|done]].
    destruct IHl as (x & Hx & ?); [congruence|]. exists x. split; [by apply list_elem_of_further|done].
Qed.

End requests.
