(* ===== verification/InterleavedRequests.v ===== *)
(** * InterleavedRequests: a request among the calls of others ([server/src/http.rs] over
    [server/src/repository.rs])

    In [Traffic.v] a request is served as a whole.  Here its handler runs over [Shared]: before each
    of its calls other requests make any calls of theirs, so what a handler has checked may no
    longer hold when it acts.  What remains true is what each call of the request itself changes,
    and what the request had checked at an earlier moment. *)
From S2P Require Export Traffic Interleaving.

#[export] Instance shared_clock `{Instants} : UtcClock Shared := alone (draw instant_at).

Section own_calls.
Context `{Entropy} (int4_as_i64 : bool) (P : Db → Db → Prop).

(** A computation whose own calls are related by [P], each made in a state later than the beginning. *)
Record course (s s' : Shared) : Prop := {
  course_scheduled : scheduled s';
  course_later : later (db (own s)) (db (own s'));
  course_calls : ∃ l, performed s' = performed s ++ l ∧
    Forall (λ ba, later (db (own s)) ba.1 ∧ P ba.1 ba.2) l;
}.

Definition own_calls {A} (c : M Shared AuthError A) : Prop :=
  ∀ s r s', c s = (r, s') → scheduled s → db_wf (db (own s)) → course s s'.

Lemma later_refl d : db_wf d → later d d.
Proof. by split. Qed.

Lemma later_trans d1 d2 d3 : later d1 d2 → later d2 d3 → later d1 d3.
Proof. intros [_ H1] [? H2]. split; [done|by etransitivity]. Qed.

Lemma course_refl s : scheduled s → db_wf (db (own s)) → course s s.
Proof. intros Hs Hw. constructor; [done|by apply later_refl|]. exists []. by rewrite app_nil_r. Qed.

Lemma course_trans s1 s2 s3 : course s1 s2 → course s2 s3 → course s1 s3.
Proof.
  intros [_ L1 (l1 & E1 & F1)] [S2 L2 (l2 & E2 & F2)]. constructor; [done|by eapply later_trans|].
  exists (l1 ++ l2). split; [by rewrite E2, E1, app_assoc|]. apply Forall_app. split; [done|].
  eapply Forall_impl; [exact F2|]. intros [b a] [Hl HP]. split; [by eapply later_trans|done].
Qed.

Lemma own_ret {A} (a : A) : own_calls (ret a).
Proof. intros s r s' [= _ <-]. apply course_refl. Qed.
Lemma own_throw {A} e : own_calls (A := A) (throw e).
Proof. intros s r s' [= _ <-]. apply course_refl. Qed.
Lemma own_lift {A} (x : result A AuthError) : own_calls (lift x).
Proof. intros s r s' [= _ <-]. apply course_refl. Qed.

Lemma own_bind {A B} (c : M Shared AuthError A) (k : A → M Shared AuthError B) :
  own_calls c → (∀ s a s', c s = (Ok a, s') → own_calls (k a)) → own_calls (bind c k).
Proof.
  intros Hc Hk s r s'. unfold bind. destruct (c s) as [[a|e] s1] eqn:E1.
  - intros E2 Hs Hw. pose proof (Hc _ _ _ E1 Hs Hw) as C1. eapply course_trans; [exact C1|].
    destruct C1 as [S1 [W1 _] _]. by eapply (Hk _ _ _ E1).
  - intros [= _ <-]. by eapply Hc.
Qed.

Lemma own_alone {A} (f : nat → A) : own_calls (alone (draw f)).
Proof.
  intros s r s'. unfold alone, draw. intros [= _ <-] Hs Hw. constructor; [done|by apply later_refl|].
  exists []. by rewrite app_nil_r.
Qed.

(** A call of the store. *)
Lemma own_shared {A} (c : M World AuthError A) :
  safe c → (∀ w r w', c w = (r, w') → P (db w) (db w')) → own_calls (shared int4_as_i64 c).
Proof.
  intros Hsafe HP s r s' Hc Hs Hw.
  destruct (shared_inv _ _ _ _ _ Hc Hs Hw Hsafe) as (w & _ & Hw1 & He1 & Hc1 & Hs' & Hw' & He').
  constructor; [done|split; [done|by etransitivity]|].
  unfold shared in Hc. destruct (c (interfere _ s)) as [r1 w1] eqn:Hr. injection Hc as _ <-. simpl in *.
  eexists. split; [done|]. apply Forall_singleton. simpl. split.
  - pose proof (interfere_steps int4_as_i64 s Hs) as Hst. by eapply steps_later.
  - by eapply HP.
Qed.

End own_calls.

Lemma own_calls_mono (P Q : Db → Db → Prop) {A} (c : M Shared AuthError A) :
  (∀ d d', P d d' → Q d d') → own_calls P c → own_calls Q c.
Proof.
  intros HPQ Hc s r s' Hr Hs Hw. destruct (Hc _ _ _ Hr Hs Hw) as [? ? (l & El & Fl)]. constructor; [done..|].
  exists l. split; [done|]. eapply Forall_impl; [exact Fl|]. intros ba [? ?]. auto.
Qed.

(** The view of the database is the same after the call. *)
Definition same_view {X} (f : Db → X) (d d' : Db) : Prop := f d' = f d.

(** Follows a handler down to the calls of the store. *)
Ltac own :=
  repeat match goal with
  | |- own_calls _ (bind _ _) => apply own_bind; [|intros ? ? ? _]
  | |- own_calls _ (ret _) => apply own_ret
  | |- own_calls _ (throw _) => apply own_throw
  | |- own_calls _ (lift _) => apply own_lift
  | |- own_calls _ (alone (draw _)) => apply own_alone
  | |- own_calls _ (match ?x with _ => _ end) => destruct x
  | |- own_calls _ (if ?x then _ else _) => destruct x
  end.

Section requests.
Context {HM HV : Type} `{HttpTypes HM HV, Entropy, Instants, CeremonyEngine, Sha256, Base64, ChronoText}
  (int4_as_i64 : bool) (config : AuthConfig) (browser_origin : string).

#[local] Instance requests_store : AuthStore Shared := shared_store int4_as_i64.
#[local] Instance shared_readiness : Readiness Shared := shared int4_as_i64 PgAuthStore.ready.

Abbreviation handle := (Handlers.handle (W := Shared) (HM := HM) (HV := HV) config browser_origin).

(** The interface at this instance. *)
Ltac interface :=
  cbn [user_by_id user_by_handle credentials_for_user operator_without_credential operator_exists
       operator_recovery_window capability insert_user approve_user_with_setup insert_ceremony
       ceremony complete_registration complete_authentication session rotate_session_csrf
       delete_session create_recovery pending_recoveries approve_recovery issue_recovery_setup
       rotate_all_auth_epochs requests_store shared_store];
  unfold new_v4, generate, engine_seed, shared_randomness, utc_now, shared_clock, store_ready, shared_readiness.

Ltac of_store := autounfold with store_ops; unfold insert_audit, invalidate_user_auth, insert_capability_sql,
  insert_user_sql, select_session.

(** The two obligations of a call: it is safe, and it keeps the view. *)
Lemma own_kept {X A} (f : Db → X) (c : M World AuthError A) :
  safe c → keeps f c → own_calls (same_view f) (shared int4_as_i64 c).
Proof. intros Hs Hk. by apply own_shared. Qed.

Ltac kept := repeat (progress own || (apply own_kept;
  [solve [of_store; follow | apply ready_safe]|solve [of_store; keeping | apply ready_keeps]])).

(** A call that is safe goes from a state to a later one. *)
Definition onward (d d' : Db) : Prop := db_wf d → later d d'.

Lemma own_onward {A} (c : M World AuthError A) : safe c → own_calls onward (shared int4_as_i64 c).
Proof. intros Hs. apply own_shared; [done|]. intros w r w' Hc Hw. by destruct (Hs _ _ _ Hc Hw). Qed.

(** Approving an account is safe if its identifier is valid. *)
Lemma approve_user_call_safe user c operator_id now :
  UserId.valid (User.id user) → safe (PgAuthStore.approve_user_with_setup user c operator_id now).
Proof. intros Hv. by apply (perform_safe int4_as_i64 (ApproveUserWithSetup _ _ _ _)). Qed.

Lemma optional_session_own (P : Db → Db → Prop) h :
  (∀ token now, own_calls P (authenticate_session (W := Shared) config token None now)) →
  own_calls P (Handlers.optional_session (W := Shared) config h).
Proof.
  intros Ha. unfold Handlers.optional_session. destruct (Handlers.cookie_value h SESSION_COOKIE); [|apply own_ret].
  apply own_bind; [apply own_lift|intros ? token ? _]. apply own_bind; [apply own_alone|intros ? now ? _].
  intros sa r sb. destruct (authenticate_session _ _ _ _ sa) as [q sc] eqn:Hq. intros Hr Hs Hw.
  pose proof (Ha _ _ _ _ _ Hq Hs Hw). by destruct q as [|[]]; simplify_eq.
Qed.

Lemma session_discovery_own (P : Db → Db → Prop) h :
  (∀ token now, own_calls P (issue_session_csrf (W := Shared) config token now)) →
  own_calls P (Handlers.session_discovery (W := Shared) (HV := HV) config h).
Proof.
  intros Ha. unfold Handlers.session_discovery. destruct (Handlers.cookie_value h SESSION_COOKIE); [|apply own_ret].
  apply own_bind; [apply own_lift|intros ? token ? _]. apply own_bind; [apply own_alone|intros ? now ? _].
  intros sa r sb. destruct (issue_session_csrf _ _ _ sa) as [q sc] eqn:Hq. intros Hr Hs Hw.
  pose proof (Ha _ _ _ _ _ Hq Hs Hw). by destruct q as [[]|[]]; simplify_eq.
Qed.

(** A call of a request that is not an operator's decision leaves the operators' authority alone. *)
Lemma handle_own_authority h r : operator_decision r = false → own_calls (same_view authority) (handle h r).
Proof.
  intros Hr. destruct r; try done; simpl.
  3: unfold Handlers.public_capabilities; apply own_bind;
     [apply optional_session_own; intros ? ?|intros ? ? ? _].
  5: apply session_discovery_own; intros ? ?.
  all: autounfold with handlers; interface; kept.
Qed.

(** The approval of a user after the check of the session; its identifier is validated. *)
Lemma approval_own (P : Db → Db → Prop) (body : ApproveUserBody.t) operator_id :
  (∀ id, own_calls P (shared int4_as_i64 (PgAuthStore.user_by_id id))) →
  (∀ user c operator_id now, UserId.valid (User.id user) →
     own_calls P (shared int4_as_i64 (PgAuthStore.approve_user_with_setup user c operator_id now))) →
  own_calls P (
    let! user_id := lift (map_err (λ _, InvalidInput) (UserId.new (ApproveUserBody.user_id body))) in
    let! now := utc_now in
    let! token := approve_user_and_issue_setup (W := Shared) config operator_id user_id
                    (ApproveUserBody.email body) (ApproveUserBody.display_name body) now in
    ret (Handlers.setup_fragment (HV := HV) token)).
Proof.
  intros Hu Ha. apply own_bind; [apply own_lift|intros s1 id s2 Hid].
  assert (UserId.valid id) as Hv.
  { unfold lift, UserId.new in Hid. destruct (valid_opaque_id _) eqn:Hvalid; [|done].
    injection Hid as <- _. done. }
  autounfold with handlers. interface. own; auto.
Qed.

Lemma operator_own (P : Db → Db → Prop) h csrf_required :
  (∀ hash now idle, own_calls P (shared int4_as_i64 (PgAuthStore.session hash now idle))) →
  own_calls P (Handlers.operator (W := Shared) config h csrf_required).
Proof. intros Hs. autounfold with handlers. interface. own; auto. Qed.

Lemma approve_user_own (P : Db → Db → Prop) h body :
  (∀ hash now idle, own_calls P (shared int4_as_i64 (PgAuthStore.session hash now idle))) →
  (∀ id, own_calls P (shared int4_as_i64 (PgAuthStore.user_by_id id))) →
  (∀ user c operator_id now, UserId.valid (User.id user) →
     own_calls P (shared int4_as_i64 (PgAuthStore.approve_user_with_setup user c operator_id now))) →
  own_calls P (Handlers.approve_user (W := Shared) (HV := HV) config browser_origin h body).
Proof.
  intros Hs Hu Ha. unfold Handlers.approve_user. apply own_bind; [apply own_lift|intros ? ? ? _].
  apply own_bind; [by apply operator_own|intros ? ? ? _]. by apply approval_own.
Qed.

(** Only the end of a login makes calls that open sessions. *)
Lemma handle_own_logins h r : (∀ body, r ≠ LoginFinish body) → own_calls (same_view logins) (handle h r).
Proof.
  intros Hr. destruct r; try (by destruct (Hr body)); simpl.
  3: unfold Handlers.public_capabilities; apply own_bind;
     [apply optional_session_own; intros ? ?|intros ? ? ? _].
  5: apply session_discovery_own; intros ? ?.
  16: apply approve_user_own; intros; apply own_kept; try (by apply approve_user_call_safe); of_store;
      solve [follow | keeping].
  all: autounfold with handlers; interface; kept.
Qed.

(** Whatever a request does, each of its calls goes from a state to a later one. *)
Lemma handle_own_onward h r : own_calls onward (handle h r).
Proof.
  destruct r; simpl.
  3: unfold Handlers.public_capabilities; apply own_bind;
     [apply optional_session_own; intros ? ?|intros ? ? ? _].
  5: apply session_discovery_own; intros ? ?.
  17: apply approve_user_own; intros; apply own_onward; [of_store; follow..|by apply approve_user_call_safe].
  all: autounfold with handlers; interface; own;
    try (apply own_onward; solve [of_store; follow | apply ready_safe]).
Qed.

(** *** The check of the operator's session *)

(** Over [Shared] the one call of the check reads some later state. *)
Lemma authenticate_shared token csrf now (s : Shared) r s' :
  scheduled s → db_wf (db (own s)) → authenticate_session config token csrf now s = (r, s') →
  ∃ w, later (db (own s)) (db w) ∧ later (db w) (db (own s')) ∧
    @authenticate_session World (pg_auth_store int4_as_i64) _ config token csrf now w = (r, own s').
Proof.
  intros Hs Hw Ha. unfold authenticate_session in *. cbn [session requests_store shared_store pg_auth_store] in *.
  unfold bind at 1 in Ha. destruct (shared _ _ s) as [r1 s1] eqn:Hc.
  pose proof (shared_inv _ _ _ _ _ Hc Hs Hw) as (w & _ & Hw1 & He1 & Hr & _ & Hw' & He'); [of_store; follow|].
  assert (s1 = s') as ->.
  { destruct r1 as [found|e]; [|by simplify_eq]. destruct (ok_or found Unauthenticated) as [p|e];
      unfold bind, lift, ret, throw in Ha; repeat case_match; by simplify_eq. }
  exists w. split_and!; [done|done|]. unfold bind at 1. rewrite Hr.
  destruct r1 as [found|e]; [|by simplify_eq].
  unfold bind, lift, ret, throw in *; repeat case_match; by simplify_eq.
Qed.

(** The headers [verify_origin_json] asks for. *)
Definition from_origin (h : HM) : Prop :=
  Handlers.header_str h "origin" = Some browser_origin ∧
  Handlers.header_str h "content-type" = Some "application/json".

(** The session was the operator's at some moment of the check. *)
Definition was_authorised (h : HM) (from to : Db) : Prop :=
  ∃ d n, later from d ∧ later d to ∧ authorised d (instant_at n) h true.

Lemma operator_shared h s p s' :
  scheduled s → db_wf (db (own s)) → Handlers.operator (W := Shared) config h true s = (Ok p, s') →
  was_authorised h (db (own s)) (db (own s')).
Proof.
  intros Hs Hw Ho. unfold Handlers.operator, Handlers.session_and_csrf in Ho.
  apply bind_Ok in Ho as ([token csrf] & s1 & Hc & Ho).
  apply bind_Ok in Hc as ([t c] & s2 & Hl & Hc). unfold lift in Hl. injection Hl as Hl <-.
  unfold ret in Hc. injection Hc as -> <- <-.
  apply rbind_Ok in Hl as (t & Ht & Hl). apply rbind_Ok in Hl as (value & Hv%ok_or_Ok & Hl).
  apply rbind_Ok in Hl as (c' & Hp & [= <- <-]).
  apply bind_Ok in Ho as (now & s1 & Hn & Ho). unfold utc_now, shared_clock, alone, draw in Hn. injection Hn as <- <-.
  apply bind_Ok in Ho as (principal & s2 & Ha & Ho).
  assert (s2 = s' ∧ User.role (SessionPrincipal.user principal) = RoleOperator) as [-> Hrole].
  { revert Ho. case_bool_decide; simpl; unfold ret, throw; intros; by simplify_eq. }
  apply authenticate_shared in Ha as (w & Hl1 & Hl2 & Ha); [|done..]. simpl in Hl1.
  apply (authenticate_session_cases int4_as_i64) in Ha as [_ Ha]; [|apply Hl1].
  destruct (Ha _ eq_refl) as (k & ses & u & Hk & Hlive & Hu & -> & Hcs).
  exists (db w), (drawn (own s)). split_and!; [done|done|]. exists t, k, ses, u. split_and!; try done.
  - by apply (account_role_operator (AuthSession.user_id ses)).
  - intros _. exists value, c'. split_and!; [done..|]. by apply Hcs.
Qed.

Lemma was_authorised_later h d0 d1 d2 : was_authorised h d0 d1 → later d1 d2 → was_authorised h d0 d2.
Proof. intros (d & n & Hd1 & Hd2 & Ha) Hl. exists d, n. split_and!; [done| |done]. by eapply later_trans. Qed.

(** What a handler does behind the check of the operator's session. *)
Lemma operator_then h (k : SessionPrincipal → M Shared AuthError (Response HV)) s r s' :
  (∀ p, own_calls onward (k p)) →
  scheduled s → db_wf (db (own s)) → bind (Handlers.operator (W := Shared) config h true) k s = (r, s') →
  ∃ l, performed s' = performed s ++ l ∧
    ∀ before after, (before, after) ∈ l → later (db (own s)) before ∧
      (authority after ≠ authority before → was_authorised h (db (own s)) before).
Proof.
  intros Hk Hs Hw. unfold bind. destruct (Handlers.operator _ _ _ s) as [q s1] eqn:Ho. intros Hr.
  assert (course (same_view authority) s s1) as [S1 L1 (l1 & E1 & F1)].
  { eapply operator_own; [|exact Ho|done|done]. intros. apply own_kept; of_store; solve [follow | keeping]. }
  rewrite Forall_forall in F1.
  assert (∀ b a, (b, a) ∈ l1 → later (db (own s)) b ∧
    (authority a ≠ authority b → was_authorised h (db (own s)) b)) as Hl1.
  { intros b a Hin. destruct (F1 _ Hin) as [Hl He]. split; [done|]. intros Hne. by destruct Hne. }
  destruct q as [p|e]; [|injection Hr as _ <-; by exists l1].
  apply operator_shared in Ho as Hwas; [|done..].
  destruct (Hk p s1 r s' Hr S1 (proj1 L1)) as [_ _ (l2 & E2 & F2)]. rewrite Forall_forall in F2.
  exists (l1 ++ l2). split; [by rewrite E2, E1, app_assoc|].
  intros b a [Hin|Hin]%elem_of_app; [by apply Hl1|]. destruct (F2 _ Hin) as [Hl _]. simpl in Hl. split.
  - by eapply later_trans.
  - intros _. by eapply was_authorised_later.
Qed.

Lemma decision_calls h r s a s' :
  operator_decision r = true → scheduled s → db_wf (db (own s)) → handle h r s = (a, s') →
  ∃ l, performed s' = performed s ++ l ∧
    ∀ before after, (before, after) ∈ l → later (db (own s)) before ∧
      (authority after ≠ authority before →
         was_authorised h (db (own s)) before ∧ Handlers.verify_origin_json browser_origin h = Ok tt).
Proof.
  intros Hr Hs Hw Hh. destruct (Handlers.verify_origin_json browser_origin h) as [[]|e] eqn:Hv.
  - assert (∃ k, (∀ p, own_calls onward (k p)) ∧
      bind (Handlers.operator (W := Shared) config h true) k s = (a, s')) as (k & Hk & Hb).
    { destruct r; try done; simpl in Hh;
        unfold Handlers.approve_recovery, Handlers.issue_recovery_setup, Handlers.approve_user in Hh;
        unfold bind at 1, lift at 1 in Hh; rewrite Hv in Hh; (eexists; split; [|exact Hh]); intros p.
      3: apply approval_own; intros; apply own_onward; [of_store; follow|by apply approve_user_call_safe].
      all: autounfold with handlers; interface; own; try (apply own_onward; of_store; follow). }
    destruct (operator_then _ _ _ _ _ Hk Hs Hw Hb) as (l & El & Hl). exists l. split; [done|].
    intros b a' Hin. destruct (Hl b a' Hin). split; [done|]. intros Hne. split; [auto|done].
  - exists []. assert (s' = s) as ->; [|by rewrite app_nil_r; split; [|by intros ? ? ?%not_elem_of_nil]].
    destruct r; try done; simpl in Hh;
      unfold Handlers.approve_recovery, Handlers.issue_recovery_setup, Handlers.approve_user, bind, lift in Hh;
      rewrite Hv in Hh; by injection Hh as _ <-.
Qed.

(** *** The ceremonies of operators *)

#[local] Hint Extern 1 (operator_ceremony _ = false) => reflexivity : views.
#[local] Hint Resolve login_ceremony_view : views.

(** [own_shared], when the call starts from a state later than the beginning. *)
Lemma shared_course {A} (P : Db → Db → Prop) (c : M World AuthError A) s r s' :
  safe c → (∀ w r w', later (db (own s)) (db w) → c w = (r, w') → P (db w) (db w')) →
  shared int4_as_i64 c s = (r, s') → scheduled s → db_wf (db (own s)) → course P s s'.
Proof.
  intros Hsafe HP Hc Hs Hw.
  enough (own_calls (λ d d', later (db (own s)) d → P d d') (shared int4_as_i64 c)) as Hown.
  { destruct (Hown _ _ _ Hc Hs Hw) as [? ? (l & El & Fl)]. constructor; [done..|]. exists l. split; [done|].
    eapply Forall_impl; [exact Fl|]. intros ba [Hl Hb]. split; [done|auto]. }
  apply own_shared; [done|]. eauto.
Qed.

(** The end of a registration spends the ceremony it has read, which is not an operator's. *)
Lemma finish_registration_own id response now :
  own_calls (same_view operator_ceremonies) (finish_registration (W := Shared) id Registration response now).
Proof.
  unfold finish_registration. interface. intros s r s' Hf Hs Hw. unfold bind at 1 in Hf.
  destruct (shared _ (PgAuthStore.ceremony id Registration now) s) as [found s1] eqn:Hc.
  assert (course (same_view operator_ceremonies) s s1) as C1
    by (eapply (own_kept operator_ceremonies); [| |exact Hc|done|done]; of_store; solve [follow | keeping]).
  pose proof C1 as [S1 [W1 _] _].
  destruct found as [[c|]|e]; [|unfold bind, lift in Hf; injection Hf as _ <-; exact C1..].
  assert (∃ row, auth_ceremonies (db (own s1)) !! id = Some row ∧ AuthCeremony.kind row = "registration" ∧
    Ceremony.id c = id) as (row & Hrow & Hk & Hid).
  { pose proof (shared_inv _ _ _ _ _ Hc Hs Hw) as (w & _ & _ & _ & Hr & _ & _ & He); [of_store; follow|].
    pose proof (ceremony_Ok _ _ _ _ _ _ Hr) as (_ & _ & Hid & _).
    apply ceremony_state_Ok in Hr as (row0 & Hrow0 & Hk0 & _).
    destruct (evolves_ceremonies _ _ He _ _ Hrow0) as (row & Hrow & Hk & _). exists row. by rewrite Hk. }
  eapply course_trans; [exact C1|]. revert Hf. unfold bind at 1. cbn [lift ok_or]. unfold bind at 1, lift at 1.
  destruct (engine_finish_registration _ _) as [v|e]; [|intros [= _ <-]; by apply course_refl].
  unfold bind at 1, lift at 1. destruct (ok_or (Ceremony.user_id c) InvalidState) as [user|e];
    [|intros [= _ <-]; by apply course_refl].
  intros Hf. refine (shared_course _ _ _ _ _ _ _ Hf S1 W1); [of_store; follow|].
  intros w q w' [Hww Hew] Hq. unfold same_view.
  assert (evolves (db w) (db w')) as He.
  { eapply step_evolves, (perform_safe int4_as_i64 (CompleteRegistration _ _ _ _ _) I); [exact Hq|done]. }
  pose proof (complete_registration_view _ _ _ _ _ _ _ _ Hq) as Hbut. rewrite Hid in Hbut.
  destruct (evolves_ceremonies _ _ Hew _ _ Hrow) as (row1 & Hrow1 & Hk1 & _).
  destruct (evolves_ceremonies _ _ He _ _ Hrow1) as (row2 & Hrow2 & Hk2 & _).
  apply (operator_ceremonies_at id _ _ row1 row2); [done|done| | |exact Hbut];
    unfold operator_ceremony; by rewrite ?Hk2, Hk1, Hk.
Qed.

Lemma handle_own_ceremonies h r :
  route r ∈ public_router → own_calls (same_view operator_ceremonies) (handle h r).
Proof.
  intros Hr. destruct r; try (exfalso; revert Hr; simpl; set_solver); simpl.
  9: { unfold Handlers.setup_finish. apply own_bind; [apply own_lift|intros ? ? ? _].
       apply own_bind; [apply own_alone|intros ? now ? _]. apply own_bind; [apply finish_registration_own|].
       intros ? ? ? _. apply own_ret. }
  3: unfold Handlers.public_capabilities; apply own_bind;
     [apply optional_session_own; intros ? ?|intros ? ? ? _].
  5: apply session_discovery_own; intros ? ?.
  all: autounfold with handlers; interface; kept.
Qed.

(** *** Each call of a request *)

(** The end of a login that is not from the browser's origin makes no call. *)
Lemma login_finish_refused h body e s :
  Handlers.verify_origin_json browser_origin h = Err e → (handle h (LoginFinish body) s).2 = s.
Proof. intros Hv. simpl. unfold Handlers.login_finish, bind, lift. by rewrite Hv. Qed.

(** A request among the calls of others changes only what it may.  Whatever others do between the
    calls of a request: no call of the request changes what only an operator may change, unless the
    request is an operator's decision with the browser's origin and content type, and at some
    earlier moment of this very request its cookie was the token of a live session of an enabled
    operator, and its anti-forgery header that session's; none opens a session unless the request
    is the end of a login from the browser's origin; and none touches the ceremonies of operators
    if its route is public. *)
Lemma handle_confined h r s a s' before after :
  db_wf (db (own s)) → scheduled s → performed s = [] → handle h r s = (a, s') → (before, after) ∈ performed s' →
  later (db (own s)) before ∧ onward before after ∧
  (authority after ≠ authority before →
     operator_decision r = true ∧ was_authorised h (db (own s)) before ∧ from_origin h) ∧
  (logins after ≠ logins before → (∃ body, r = LoginFinish body) ∧ from_origin h) ∧
  (operator_ceremonies after ≠ operator_ceremonies before → route r ∉ public_router).
Proof.
  intros Hw Hs Hp Hh Hin.
  assert (∀ P, own_calls P (handle h r) → later (db (own s)) before ∧ P before after) as Hown.
  { intros P HP. destruct (HP _ _ _ Hh Hs Hw) as [_ _ (l & El & Fl)]. rewrite Forall_forall in Fl.
    rewrite El, Hp in Hin. by apply (Fl _ Hin). }
  destruct (Hown _ (handle_own_onward h r)) as [Hl Ho]. split_and!; [done..| | |].
  - intros Hne. destruct (operator_decision r) eqn:Hd.
    + split; [done|]. destruct (decision_calls _ _ _ _ _ Hd Hs Hw Hh) as (l & El & Hcalls).
      rewrite El, Hp in Hin. destruct (Hcalls _ _ Hin) as [_ Hc]. destruct (Hc Hne) as [Hwas Hv].
      split; [done|]. by apply verify_origin_json_Ok.
    + destruct (Hown _ (handle_own_authority h r Hd)) as [_ He]. by destruct Hne.
  - intros Hne. assert ((∃ body, r = LoginFinish body) ∨ ∀ body, r ≠ LoginFinish body) as [[body ->]|Hno]
      by (destruct r; eauto); [split; [eauto|]|by destruct (Hown _ (handle_own_logins h r Hno))].
    destruct (Handlers.verify_origin_json browser_origin h) as [[]|e] eqn:Hv; [by apply verify_origin_json_Ok|].
    apply (login_finish_refused _ body _ s) in Hv. rewrite Hh in Hv. simpl in Hv. subst s'.
    rewrite Hp in Hin. by apply not_elem_of_nil in Hin.
  - intros Hne Hr. by destruct (Hown _ (handle_own_ceremonies h r Hr)).
Qed.

End requests.
