(* ===== verification/RequestsAtOnce.v ===== *)
(** * RequestsAtOnce: many requests at once on the two listeners ([server/src/http.rs],
    [server/src/main.rs])

    Both listeners serve any number of requests over one database, and maintenance commands run
    beside them.  A run is the sequence of the calls of the store that all of them make.  What a
    request contributes is what its handler does over [Shared] ([InterleavedRequests.v]): the calls
    of the run that are its own are the calls of its handler, in their order, possibly not all of
    them yet, with whatever the others do in between. *)
From S2P Require Export InterleavedRequests.
From S2P Require Import Overlay.

#[export] Instance Authority_eq_dec : EqDecision Authority.
Proof. solve_decision. Defined.

(** Who makes a call: a command in another process, or one of the requests. *)
Inductive Caller : Set := Maintenance | Visitor (i : nat).

#[export] Instance Caller_eq_dec : EqDecision Caller.
Proof. solve_decision. Defined.

(** A call, with the database it found and the one it left. *)
Notation Call := (Caller * (Db * Db))%type (only parsing).

(** ** Sequences of calls *)

(** Each call finds what the one before has left. *)
Inductive chain : Db → list Call → Db → Prop :=
| chain_none d : chain d [] d
| chain_call d who d1 l d2 : chain d1 l d2 → chain d ((who, (d, d1)) :: l) d2.

Lemma chain_app d l1 l2 d' : chain d (l1 ++ l2) d' ↔ ∃ e, chain d l1 e ∧ chain e l2 d'.
Proof.
  revert d. induction l1 as [|c l1 IH]; intros d; simpl.
  - split; [intros; exists d; split; [constructor|done]|]. intros (e & H1 & H2). by inversion H1; subst.
  - split.
    + inversion 1; subst. match goal with H : chain _ _ d' |- _ => apply IH in H as (e & He & H2) end.
      exists e. by split; [constructor|].
    + intros (e & H1 & H2). inversion H1; subst. constructor. apply IH. by exists e.
Qed.

Lemma chain_end d l e1 e2 : chain d l e1 → chain d l e2 → e1 = e2.
Proof. induction 1; inversion 1; subst; auto. Qed.

Lemma chain_snoc d l who b a e : chain d (l ++ [(who, (b, a))]) e → chain d l b ∧ e = a.
Proof.
  intros (m & Hl & Hc)%chain_app. inversion Hc; subst.
  match goal with H : chain _ [] _ |- _ => inversion H; subst end. done.
Qed.

(** A view that has changed was changed by some call. *)
Lemma chain_changes {X} `{EqDecision X} (f : Db → X) d l d' :
  chain d l d' → f d' ≠ f d → ∃ who b a, (who, (b, a)) ∈ l ∧ f a ≠ f b.
Proof.
  induction 1 as [|d who d1 l d2 Hc IH]; [done|]. intros Hne.
  destruct (decide (f d1 = f d)) as [He|Hd].
  - destruct IH as (who' & b & a & Hin & Hba); [congruence|]. exists who', b, a. split; [by right|done].
  - exists who, d, d1. by split; [left|].
Qed.

(** What one caller did. *)
Definition calls_of (who : Caller) (l : list Call) : list (Db * Db) := (filter (λ c, c.1 = who) l).*2.

Lemma elem_of_calls_of who l ba : ba ∈ calls_of who l ↔ (who, ba) ∈ l.
Proof.
  unfold calls_of. rewrite list_elem_of_fmap. split.
  - by intros ([w x] & -> & [Hw Hin]%list_elem_of_filter); simpl in *; subst.
  - intros Hin. exists (who, ba). by rewrite list_elem_of_filter.
Qed.

(** What is in the beginning up to [x] and before [x] is in the beginning before [x]. *)
Lemma prefix_before {A} (l0 l1 l : list A) x :
  l0 `prefix_of` l → l1 ++ [x] `prefix_of` l → x ∉ l0 → l0 `prefix_of` l1.
Proof.
  intros H0 H1 Hx. destruct (prefix_weak_total _ _ _ H0 H1) as [[[|y k] E]|[k ->]].
  - exfalso. rewrite app_nil_r in E. subst. set_solver.
  - destruct (exists_last (l := y :: k)) as (k' & z & Ek); [done|]. rewrite Ek, app_assoc in E.
    apply app_inj_tail in E as [-> _]. by apply prefix_app_r.
  - exfalso. set_solver.
Qed.

(** ** Runs *)

Section at_once.
Context {HM HV : Type} `{HttpTypes HM HV, Entropy, Instants, CeremonyEngine, Sha256, Base64, ChronoText}
  (int4_as_i64 : bool) (config : AuthConfig) (browser_origin : string).

(** A request: the listener it came to, its headers and inputs, and what its handler started from. *)
Record Visit := mkVisit {
  door : Listener;
  brings : HM;
  asks : request;
  start : Shared;
}.

(** What the router of its listener does with it, among the others. *)
Definition course_of_visit (v : Visit) : Response HV * Shared :=
  @Handlers.serve Shared HM HV _ (requests_store int4_as_i64) shared_randomness shared_clock
    (shared_readiness int4_as_i64) _ _ _ _ config browser_origin (router_of (door v)) (brings v) (asks v) (start v).

(** The requests and the commands together made the calls [l], which led from [d] to [d'].  A request
    begins at some moment, before its first call; the calls of a command are calls of the store. *)
Record at_once (visits : list Visit) (d : Db) (l : list Call) (d' : Db) : Prop := {
  once_chain : chain d l d';
  once_known : ∀ i ba, (Visitor i, ba) ∈ l → is_Some (visits !! i);
  once_visits : ∀ i v, visits !! i = Some v →
    scheduled (start v) ∧ performed (start v) = [] ∧
    calls_of (Visitor i) l `prefix_of` performed (course_of_visit v).2 ∧
    ∃ l1, l1 `prefix_of` l ∧ calls_of (Visitor i) l1 = [] ∧ chain d l1 (db (own (start v)));
  once_commands : ∀ b a, (Maintenance, (b, a)) ∈ l →
    ∃ c w r w', call_valid c ∧ perform int4_as_i64 c w = (r, w') ∧ b = db w ∧ a = db w';
}.

(** The call of a request is one of its handler's. *)
Lemma course_cases v ba :
  performed (start v) = [] → ba ∈ performed (course_of_visit v).2 →
  route (asks v) ∈ router_of (door v) ∧
  ∃ a s', @Handlers.handle Shared HM HV _ (requests_store int4_as_i64) shared_randomness shared_clock
    (shared_readiness int4_as_i64) _ _ _ _ config browser_origin (brings v) (asks v) (start v) = (a, s') ∧
    ba ∈ performed s'.
Proof.
  intros Hp. unfold course_of_visit, Handlers.serve. case_bool_decide as Hr.
  - destruct (Handlers.handle _ _ _ _ _) as [a s'] eqn:Hh. simpl. eauto.
  - simpl. rewrite Hp. by intros ?%not_elem_of_nil.
Qed.

(** What [handle_confined] says of a call of a visit, whose request began at [db (own (start v))]. *)
Record confined (v : Visit) (b a : Db) : Prop := {
  confined_authority : authority a ≠ authority b →
    door v = PrivateListener ∧ operator_decision (asks v) = true ∧
    was_authorised (brings v) (db (own (start v))) b ∧ from_origin browser_origin (brings v);
  confined_logins : logins a ≠ logins b →
    door v = PublicListener ∧ (∃ body, asks v = LoginFinish body) ∧ from_origin browser_origin (brings v);
  confined_ceremonies : operator_ceremonies a ≠ operator_ceremonies b → door v = PrivateListener;
}.

Lemma course_confined v b a :
  db_wf (db (own (start v))) → scheduled (start v) → performed (start v) = [] →
  (b, a) ∈ performed (course_of_visit v).2 → later (db (own (start v))) b ∧ later b a ∧ confined v b a.
Proof.
  intros Hw Hs Hp Hin. apply course_cases in Hin as (Hr & q & s' & Hh & Hin); [|done].
  destruct (handle_confined _ _ _ _ _ _ _ _ _ _ Hw Hs Hp Hh Hin) as (Hl & Ho & Ha & Hlog & Hc).
  split_and!; [done|by apply Ho, Hl|]. constructor.
  - intros Hne. destruct (Ha Hne) as (Hd & Hwas & Hv). split_and!; [|done..].
    destruct (door v); [|done]. exfalso. destruct (asks v); try done; revert Hr; simpl; set_solver.
  - intros Hne. destruct (Hlog Hne) as [[body Hbody] Hv]. split_and!; [|by eexists|done].
    destruct (door v); [done|]. exfalso. revert Hr. rewrite Hbody. simpl. set_solver.
  - intros Hne. destruct (door v); [by destruct (Hc Hne)|done].
Qed.

(** Every moment of a run is later than its beginning. *)
Lemma moments_later visits d l d' :
  db_wf d → at_once visits d l d' →
  ∀ l1 e, l1 `prefix_of` l → chain d l1 e → later d e.
Proof.
  intros Hw [_ Hk Hv Hm] l1. remember (length l1) as n eqn:Hn. revert l1 Hn.
  induction (lt_wf n) as [n _ IH]. intros l1 -> e Hpre Hc.
  destruct l1 as [|[who [b a]] l1 _] using rev_ind; [inversion Hc; subst; by apply later_refl|].
  apply chain_snoc in Hc as [Hc ->].
  assert (l1 `prefix_of` l) as Hpre1 by (etransitivity; [by apply prefix_app_r|done]).
  assert ((who, (b, a)) ∈ l) as Hin by (destruct Hpre as [k ->]; set_solver).
  assert (later d b) as Hb by (apply (IH (length l1)) with l1; [rewrite length_app; simpl; lia|done..]).
  eapply later_trans; [exact Hb|]. destruct who as [|i].
  - destruct (Hm _ _ Hin) as (c & w & r & w' & Hvalid & Hp & -> & ->).
    destruct (perform_safe int4_as_i64 c Hvalid _ _ _ Hp (proj1 Hb)). by split.
  - destruct (Hk _ _ Hin) as [v Hi]. destruct (Hv i v Hi) as (Hs & Hp & Hcalls & l0 & Hl0 & Hno & Hc0).
    assert (l0 `prefix_of` l1) as Hl01.
    { apply (prefix_before _ _ _ _ Hl0 Hpre). intros Hx%elem_of_calls_of. rewrite Hno in Hx.
      by apply not_elem_of_nil in Hx. }
    assert (later d (db (own (start v)))) as [Hws _]
      by (apply (IH (length l0)) with l0; [apply prefix_length in Hl01; rewrite length_app; simpl; lia|done..]).
    apply elem_of_calls_of in Hin. apply (course_confined v); [done..|].
    eapply elem_of_prefix; [exact Hin|done].
Qed.

(** A request of a run begins in a database that satisfies the schema, and each of its calls is confined. *)
Lemma visit_confined visits d l d' i b a :
  db_wf d → at_once visits d l d' → (Visitor i, (b, a)) ∈ l → ∃ v, visits !! i = Some v ∧ confined v b a.
Proof.
  intros Hw Ho Hin. pose proof Ho as [_ Hk Hv _]. destruct (Hk _ _ Hin) as [v Hi]. exists v. split; [done|].
  destruct (Hv i v Hi) as (Hs & Hp & Hcalls & l0 & Hl0 & _ & Hc0).
  destruct (moments_later _ _ _ _ Hw Ho _ _ Hl0 Hc0) as [Hws _].
  apply elem_of_calls_of in Hin. apply course_confined; [done..|]. by eapply elem_of_prefix.
Qed.


End at_once.
