(* ===== verification/Shutdown.v ===== *)
(** * Shutdown: how a server that has started comes to its end ([server/src/main.rs])

    [Commands.serve] of [Cli.v] ends where the two listeners run; here is what follows: they serve
    until a signal, and then drain.  A future is the instant at which it completes and its
    value.  The signal handlers, [select!], [try_join!], the broadcast channel and axum's [serve]
    are a class, with what their documentation says of them as laws. *)
From S2P Require Export Traffic.

(** [None]: it never completes. *)
Definition Future (A : Type) : Type := option (nat * A).

Definition completed {A} (f : Future A) : option nat := fst <$> f.

(** What follows an [await] of [f] at once. *)
Definition awaited {A B} (f : Future A) (k : A → B) : Future B := (λ '(t, a), (t, k a)) <$> f.

(** [std::future::pending]. *)
Definition pending {A} : Future A := None.

Definition earliest (a b : option nat) : option nat :=
  match a, b with
  | Some x, Some y => Some (x `min` y)%nat
  | Some x, None | None, Some x => Some x
  | None, None => None
  end.

Lemma completed_awaited {A B} (f : Future A) (k : A → B) : completed (awaited f k) = completed f.
Proof. by destruct f as [[]|]. Qed.

Lemma completed_Some {A} (f : Future A) t : completed f = Some t ↔ ∃ a, f = Some (t, a).
Proof.
  destruct f as [[t' a]|]; simpl; [|by split; [|intros []]].
  split; [intros [= ->]; eauto|]. by intros [? [= -> _]].
Qed.

Lemma earliest_Some a b t : earliest a b = Some t →
  (a = Some t ∨ b = Some t) ∧ (∀ x, a = Some x → t ≤ x)%nat ∧ (∀ y, b = Some y → t ≤ y)%nat.
Proof.
  destruct a as [x|], b as [y|]; intros [= <-]; (split; [|split; intros ? [= <-]; lia]); [|auto..].
  destruct (Nat.min_spec x y) as [[_ ->]|[_ ->]]; auto.
Qed.

Lemma earliest_is_Some a b : is_Some a ∨ is_Some b → is_Some (earliest a b).
Proof. intros [[x ->]|[y ->]]; [destruct b|destruct a]; by eexists. Qed.

(** tokio and axum. *)
Class AsyncRuntime := {
  IoError : Type;
  RecvError : Type;
  Signal : Type;
  (** [tokio::signal::ctrl_c().await] *)
  ctrl_c : Future (result unit IoError);
  (** [tokio::signal::unix::signal(SignalKind::terminate())] and [recv().await] on it *)
  signal_terminate : result Signal IoError;
  signal_recv : Signal → Future (option unit);
  (** [tokio::select!] of two futures, and [tokio::try_join!] *)
  select_either : Future unit → Future unit → Future unit;
  try_join : Future (result unit IoError) → Future (result unit IoError) → Future (result unit IoError);
  (** [recv().await] of a receiver that subscribed before the spawned task ran, which sends once the
      argument completes and then drops the only sender *)
  receiver_recv : Future unit → Future (result unit RecvError);
  (** [axum::serve] on a bound listener with its router, [with_graceful_shutdown] *)
  serve_gracefully : Listener → Future unit → Future (result unit IoError);
}.

Class AsyncRuntimeLaws `{AsyncRuntime} : Prop := {
  (** it completes with the first of the two *)
  select_first a b : completed (select_either a b) = earliest (completed a) (completed b);
  (** it completes when both have, or with the first error *)
  try_join_ok a b t : try_join a b = Some (t, Ok tt) ↔
    ∃ ta tb, a = Some (ta, Ok tt) ∧ b = Some (tb, Ok tt) ∧ t = (ta `max` tb)%nat;
  try_join_err a b t e : try_join a b = Some (t, Err e) → a = Some (t, Err e) ∨ b = Some (t, Err e);
  (** the one message is received, or that the channel is closed *)
  receiver_delivers f : completed (receiver_recv f) = completed f;
  (** it serves until the shutdown, and completes without an error *)
  serve_until l f t r : serve_gracefully l f = Some (t, r) →
    r = Ok tt ∧ ∃ t0, completed f = Some t0 ∧ (t0 ≤ t)%nat;
}.

Module Signals.
Section signals.
Context `{AsyncRuntime}.

(** A handler for Ctrl-C that cannot be installed is logged. *)
Definition ctrl_c_future : Future unit := awaited ctrl_c (λ _, tt).

Definition terminate_future : Future unit :=
  match signal_terminate with
  | Ok signal => awaited (signal_recv signal) (λ _, tt)
  | Err _ => pending
  end.

Definition wait_for_shutdown_signal : Future unit := select_either ctrl_c_future terminate_future.

(** The outcome of [recv] is ignored. *)
Definition shutdown_rx (receiver : Future (result unit RecvError)) : Future unit := awaited receiver (λ _, tt).

(** [serve], from the channel on. *)
Definition serve_listeners : Future (result unit IoError) :=
  let public_shutdown := shutdown_rx (receiver_recv wait_for_shutdown_signal) in
  let private_shutdown := shutdown_rx (receiver_recv wait_for_shutdown_signal) in
  try_join (serve_gracefully PublicListener public_shutdown) (serve_gracefully PrivateListener private_shutdown).

End signals.
End Signals.

Section shutdown.
Context `{AsyncRuntimeLaws}.

(** What ends a server: the wait for Ctrl-C is over, or SIGTERM arrives at its handler. *)
Definition stop_at (t : nat) : Prop :=
  (∃ r, ctrl_c = Some (t, r)) ∨ (∃ signal r, signal_terminate = Ok signal ∧ signal_recv signal = Some (t, r)).

Lemma terminate_at t :
  completed Signals.terminate_future = Some t ↔
  ∃ signal r, signal_terminate = Ok signal ∧ signal_recv signal = Some (t, r).
Proof.
  unfold Signals.terminate_future. destruct signal_terminate as [signal|e].
  - rewrite completed_awaited, completed_Some. split; [intros [r Hr]; eauto|]. intros (? & r & [= <-] & Hr). eauto.
  - split; [done|]. by intros (? & ? & ? & _).
Qed.

(** The shutdown begins at the first of these. *)
Lemma shutdown_first t :
  completed Signals.wait_for_shutdown_signal = Some t → stop_at t ∧ ∀ t', stop_at t' → (t ≤ t')%nat.
Proof.
  unfold Signals.wait_for_shutdown_signal. rewrite select_first.
  intros (Hor & H1 & H2)%earliest_Some. unfold Signals.ctrl_c_future in *. rewrite completed_awaited in *. split.
  - destruct Hor as [Hc|Ht]; [left; by apply completed_Some|right; by apply terminate_at].
  - intros t' [Hc|Ht]; [apply H1; by apply completed_Some|apply H2; by apply terminate_at].
Qed.

Lemma shutdown_begins t : stop_at t → is_Some (completed Signals.wait_for_shutdown_signal).
Proof.
  intros Ht. unfold Signals.wait_for_shutdown_signal. rewrite select_first. apply earliest_is_Some.
  unfold Signals.ctrl_c_future. rewrite completed_awaited. destruct Ht as [Hc|Ht].
  - left. exists t. by apply completed_Some.
  - right. exists t. by apply terminate_at.
Qed.

Lemma listener_shutdown :
  completed (Signals.shutdown_rx (receiver_recv Signals.wait_for_shutdown_signal)) =
    completed Signals.wait_for_shutdown_signal.
Proof. unfold Signals.shutdown_rx. by rewrite completed_awaited, receiver_delivers. Qed.

(** C35: a server stops on a signal and only then.  Neither listener ends, and the process neither ends nor
    fails, before the wait for Ctrl-C is over or SIGTERM arrives; both listeners are told at the
    first of these; and if each drains once it is told, the process ends, without an error, and
    only when both have.  In particular a handler for Ctrl-C that cannot be installed stops the
    server at that moment, while one for SIGTERM that cannot be installed is never heard. *)
Theorem server_stops_on_signal :
  (∀ t r, Signals.serve_listeners = Some (t, r) →
     r = Ok tt ∧ ∃ t0, (t0 ≤ t)%nat ∧ stop_at t0 ∧ ∀ t', stop_at t' → (t0 ≤ t')%nat) ∧
  (∀ t0, stop_at t0 →
     (∀ l f, is_Some (completed f) → is_Some (serve_gracefully l f)) →
     ∃ t, Signals.serve_listeners = Some (t, Ok tt)) ∧
  (∀ t e, ctrl_c = Some (t, Err e) → (∀ t', stop_at t' → (t ≤ t')%nat) →
     completed Signals.wait_for_shutdown_signal = Some t) ∧
  (∀ e, signal_terminate = Err e → completed Signals.wait_for_shutdown_signal = completed ctrl_c).
Proof.
  split_and!.
  - intros t r Hs. unfold Signals.serve_listeners in Hs.
    assert (∃ l ta ra, serve_gracefully l
        (Signals.shutdown_rx (receiver_recv Signals.wait_for_shutdown_signal)) = Some (ta, ra) ∧
      (ta ≤ t)%nat ∧ (r = Ok tt ∨ ra = r)) as (l & ta & ra & Ha & Hle & Hr).
    { destruct r as [[]|e].
      - apply try_join_ok in Hs as (ta & tb & Ha & _ & ->). eexists _, ta, _. split_and!; [exact Ha|lia|by left].
      - apply try_join_err in Hs as [Ha|Ha]; eexists _, t, _; (split_and!; [exact Ha|done|by right]). }
    apply serve_until in Ha as [-> (t0 & Ht0 & Hle0)]. rewrite listener_shutdown in Ht0.
    apply shutdown_first in Ht0 as [Hst Hmin]. split; [by destruct Hr|]. exists t0. split_and!; [lia|done..].
  - intros t0 Ht0 Hdrain. apply shutdown_begins in Ht0. rewrite <- listener_shutdown in Ht0.
    pose proof (Hdrain PublicListener _ Ht0) as [[ta ra] Ha]. pose proof (Hdrain PrivateListener _ Ht0) as [[tb rb] Hb].
    pose proof (proj1 (serve_until _ _ _ _ Ha)) as ->. pose proof (proj1 (serve_until _ _ _ _ Hb)) as ->.
    exists (ta `max` tb)%nat. apply try_join_ok. eauto.
  - intros t e Hc Hmin. assert (stop_at t) as Hst by (left; eauto).
    destruct (shutdown_begins _ Hst) as [t' Ht']. pose proof (shutdown_first _ Ht') as [Hst' Hmin'].
    rewrite Ht'. f_equal. apply Nat.le_antisymm; [by apply Hmin'|by apply Hmin].
  - intros e He. unfold Signals.wait_for_shutdown_signal. rewrite select_first. unfold Signals.ctrl_c_future.
    rewrite completed_awaited. unfold Signals.terminate_future. rewrite He. by destruct (completed ctrl_c).
Qed.

End shutdown.
