(* ===== verification/Cli.v ===== *)
(** * Cli: the commands ([server/src/main.rs])

    A command checks its arguments, connects, and acts on the store.  [serve] also binds the two
    listeners; the state it then serves with is its answer, and the requests it answers are
    [Traffic.v]'s.  How a server ends is in [Shutdown.v].  Argument parsing (clap) and logging are
    outside: a command starts from its parsed arguments. *)
From S2P Require Export Webauthn Traffic.

(** [Box<dyn Error>]: the message of a guard, or the error of a call. *)
Inductive CliError :=
| Message (text : string)
| AuthFailure (e : AuthError)
| StartupFailure.

(** [std::net::SocketAddr]: the octets of the address (4 or 16), the port, and for IPv6 the flow
    and scope. *)
Record SocketAddr := mkSocketAddr { ip : list Z; port : Z; flowinfo : Z; scope_id : Z }.

#[export] Instance SocketAddr_eq_dec : EqDecision SocketAddr.
Proof. solve_decision. Defined.

(** Connecting ([PgAuthStore::connect]), migrating and binding a listener, in the world of the store. *)
Class Startup (W : Type) := {
  connect : string → Z → M W CliError unit;
  migrate : M W CliError unit;
  tcp_bind : SocketAddr → M W CliError unit;
}.

(** [std::fs::read_to_string]: the text of the file, or of the error. *)
Class FileSystem (W : Type) := read_to_string : string → W → result string string * W.

(** The conversion of the question mark on an [AuthError]. *)
Definition auth_err {W A} (c : M W AuthError A) : M W CliError A := λ w,
  let (r, w) := c w in (map_err AuthFailure r, w).

Module ServeArgs.
Record t := mk {
  public_listen : SocketAddr;
  private_listen : SocketAddr;
  rp_id : string;
  browser_origin : string;
  environment : string;
  database_max_connections : Z;
}.
End ServeArgs.

Module BreakGlassArgs.
Record t := mk {
  enabled : bool;
  operator_user_id : string;
  revoke_credential : Uuid;
  reason : string;
  window_minutes : Z;
  confirm : string;
}.
End BreakGlassArgs.

Module SeedOperatorArgs.
Record t := mk {
  enabled : bool;
  operator_user_id : string;
  email : string;
  display_name : string;
  confirm : string;
}.
End SeedOperatorArgs.

Module RotateAuthEpochArgs.
Record t := mk { enabled : bool; reason : string; confirm : string }.
End RotateAuthEpochArgs.

Inductive Command :=
| ServeCommand (args : ServeArgs.t)
| BreakGlassCommand (args : BreakGlassArgs.t)
| SeedOperatorCommand (args : SeedOperatorArgs.t)
| RotateAuthEpochCommand (args : RotateAuthEpochArgs.t).

Module Cli.
Record t := mk { database_url_file : string; command : Command }.
End Cli.

(** What the server runs with: [AuthService] is the store of the world, the engine and the
    configuration. *)
Module AppState.
Record t `{WebauthnLib} := mk { engine : Webauthn; config : AuthConfig; browser_origin : string }.
End AppState.

(** What a command that succeeds leaves: nothing, or a server. *)
Inductive Running `{WebauthnLib} :=
| Finished
| Serving (state : AppState.t).

Module Commands.
Section commands.
Context {W : Type} `{AuthStore W, Randomness W, UtcClock W, Startup W, Sha256, WebauthnLib}.

(** The checks of [serve] before it connects: whether it runs in production. *)
Definition serve_production (args : ServeArgs.t) : result bool CliError :=
  try? production :=
    if String.eqb (ServeArgs.environment args) "production" then Ok true
    else if String.eqb (ServeArgs.environment args) "development" then Ok false
    else Err (Message "RS_ENVIRONMENT must be production or development") in
  if bool_decide (ServeArgs.public_listen args = ServeArgs.private_listen args)
  then Err (Message "public and private listeners must be distinct")
  else Ok production.

(** [serve], up to the two routers. *)
Definition serve (database_url : string) (args : ServeArgs.t) : M W CliError AppState.t :=
  let! production := lift (serve_production args) in
  do! connect database_url (ServeArgs.database_max_connections args) in
  do! migrate in
  let! engine := lift (map_err AuthFailure
    (WebauthnEngine.new (ServeArgs.rp_id args) (ServeArgs.browser_origin args) production)) in
  let state := AppState.mk _ _ engine AuthConfig.default (ServeArgs.browser_origin args) in
  do! tcp_bind (ServeArgs.public_listen args) in
  do! tcp_bind (ServeArgs.private_listen args) in
  ret state.

Definition operator_id (id : string) : result UserId CliError :=
  map_err (λ _, Message "invalid operator user ID") (UserId.new id).

Definition break_glass (database_url : string) (args : BreakGlassArgs.t) : M W CliError unit :=
  do! (if negb (BreakGlassArgs.enabled args)
          || negb (String.eqb (BreakGlassArgs.confirm args) "INVALIDATE OPERATOR AUTH")
       then throw (Message "break-glass requires RS_BREAK_GLASS_ENABLED=true and exact confirmation")
       else ret tt) in
  do! (if len (trim (BreakGlassArgs.reason args)) <? 12
       then throw (Message "break-glass reason must contain at least 12 characters") else ret tt) in
  do! (if negb ((1 <=? BreakGlassArgs.window_minutes args) && (BreakGlassArgs.window_minutes args <=? 15))
       then throw (Message "registration window must be between 1 and 15 minutes") else ret tt) in
  let! operator_user_id := lift (operator_id (BreakGlassArgs.operator_user_id args)) in
  do! connect database_url 2 in
  let! now := auth_err utc_now in
  let! token := auth_err generate in
  let! id := auth_err new_v4 in
  auth_err (AuthStore.break_glass (BreakGlassArgs.revoke_credential args)
    (Capability.mk id operator_user_id OperatorRecoveryPurpose (SecretToken.hash token)
       (now + AuthConfig.minutes (BreakGlassArgs.window_minutes args)))
    now (trim (BreakGlassArgs.reason args))).

Definition seed_operator (database_url : string) (args : SeedOperatorArgs.t) : M W CliError unit :=
  do! (if negb (SeedOperatorArgs.enabled args)
          || negb (String.eqb (SeedOperatorArgs.confirm args) "SEED FIRST OPERATOR")
       then throw (Message "seed-operator requires RS_SEED_OPERATOR_ENABLED=true and exact confirmation")
       else ret tt) in
  let! operator_user_id := lift (operator_id (SeedOperatorArgs.operator_user_id args)) in
  do! connect database_url 2 in
  do! migrate in
  do! lift (map_err AuthFailure (WebauthnEngine.new "ricardosaad.com" "https://ricardosaad.com" true)) in
  let! now := auth_err utc_now in
  auth_err (AuthService.seed_operator operator_user_id (SeedOperatorArgs.email args)
              (SeedOperatorArgs.display_name args) now).

Definition rotate_auth_epoch (database_url : string) (args : RotateAuthEpochArgs.t) : M W CliError unit :=
  do! (if negb (RotateAuthEpochArgs.enabled args)
          || negb (String.eqb (RotateAuthEpochArgs.confirm args) "ROTATE ALL AUTH EPOCHS")
       then throw (Message
         "rotate-auth-epoch requires RS_ROTATE_AUTH_EPOCH_ENABLED=true and exact confirmation")
       else ret tt) in
  do! connect database_url 2 in
  do! lift (map_err AuthFailure (WebauthnEngine.new "ricardosaad.com" "https://ricardosaad.com" true)) in
  let! now := auth_err utc_now in
  do! auth_err (service_rotate_all_auth_epochs now (RotateAuthEpochArgs.reason args)) in
  ret tt.

(** [main], after the database URL has been read. *)
Definition run (database_url : string) (command : Command) : M W CliError Running :=
  if String.eqb (trim database_url) "" then throw (Message "database URL file is empty")
  else match command with
       | ServeCommand args => let! state := serve (trim database_url) args in ret (Serving state)
       | BreakGlassCommand args => do! break_glass (trim database_url) args in ret Finished
       | SeedOperatorCommand args => do! seed_operator (trim database_url) args in ret Finished
       | RotateAuthEpochCommand args => do! rotate_auth_epoch (trim database_url) args in ret Finished
       end.

(** [main], after the arguments have been parsed. *)
Definition main `{FileSystem W} (cli : Cli.t) : M W CliError Running :=
  let! database_url := λ w,
    let (r, w) := read_to_string (Cli.database_url_file cli) w in
    (map_err (λ error, Message ("failed to read database URL file: " +:+ error)) r, w) in
  run database_url (Cli.command cli).

End commands.
End Commands.

(** A start-up call on the PostgreSQL world is a round trip, which may fail; the schema is in place. *)
Definition startup_trip : M World CliError unit := λ w,
  let (r, w) := pool_execute (select (λ _, tt)) w in (map_err (λ _, StartupFailure) r, w).

#[export] Instance world_startup : Startup World := {
  connect _ _ := startup_trip;
  migrate := startup_trip;
  tcp_bind _ := startup_trip;
}.

(** ** Properties *)

(** What a command's own arguments must satisfy. *)
Definition command_allowed (c : Command) : bool :=
  match c with
  | ServeCommand a =>
      (String.eqb (ServeArgs.environment a) "production" || String.eqb (ServeArgs.environment a) "development")
      && negb (bool_decide (ServeArgs.public_listen a = ServeArgs.private_listen a))
  | BreakGlassCommand a =>
      BreakGlassArgs.enabled a && String.eqb (BreakGlassArgs.confirm a) "INVALIDATE OPERATOR AUTH"
      && (12 <=? len (trim (BreakGlassArgs.reason a)))
      && (1 <=? BreakGlassArgs.window_minutes a) && (BreakGlassArgs.window_minutes a <=? 15)
      && valid_opaque_id (BreakGlassArgs.operator_user_id a)
  | SeedOperatorCommand a =>
      SeedOperatorArgs.enabled a && String.eqb (SeedOperatorArgs.confirm a) "SEED FIRST OPERATOR"
      && valid_opaque_id (SeedOperatorArgs.operator_user_id a)
  | RotateAuthEpochCommand a =>
      RotateAuthEpochArgs.enabled a && String.eqb (RotateAuthEpochArgs.confirm a) "ROTATE ALL AUTH EPOCHS"
  end.

Section any_store.
Context {W : Type} `{AuthStore W, Randomness W, UtcClock W, Startup W, Sha256, WebauthnLib}.

(** A command that is not enabled by its environment and confirmed by its exact phrase, or whose
    other arguments are out of bounds, stops with a message before it connects: over any
    store, nothing of the world is touched. *)
Theorem commands_guarded url c w :
  command_allowed c = false → ∃ text, Commands.run url c w = (Err (Message text), w).
Proof.
  intros Hc. unfold Commands.run. destruct (String.eqb _ _); [by eexists|].
  destruct c as [a|a|a|a]; simpl in Hc.
  - unfold Commands.serve, Commands.serve_production, bind, lift.
    destruct (String.eqb _ "production"), (String.eqb _ "development"); simpl in *; try by eexists.
    all: destruct (bool_decide _); [by eexists|done].
  - unfold Commands.break_glass, bind, Commands.operator_id, UserId.new.
    destruct (BreakGlassArgs.enabled a), (String.eqb _ _); simpl in *; try first [done | by eexists].
    destruct (Z.ltb_spec (len (trim (BreakGlassArgs.reason a))) 12); simpl; [by eexists|].
    rewrite (proj2 (Z.leb_le 12 _)) in Hc by done. simpl in Hc.
    destruct (1 <=? _), (_ <=? 15); simpl in *; try first [done | by eexists].
    rewrite Hc. by eexists.
  - unfold Commands.seed_operator, bind, Commands.operator_id, UserId.new.
    destruct (SeedOperatorArgs.enabled a), (String.eqb _ _); simpl in *; try first [done | by eexists].
    rewrite Hc. by eexists.
  - unfold Commands.rotate_auth_epoch, bind.
    destruct (RotateAuthEpochArgs.enabled a), (String.eqb _ _); simpl in *; first [done | by eexists].
Qed.

End any_store.

Lemma auth_err_Ok {W A} (c : M W AuthError A) w a w' : auth_err c w = (Ok a, w') → c w = (Ok a, w').
Proof. unfold auth_err. destruct (c w) as [[]]; simpl; by intros [= -> ->]. Qed.

Lemma startup_trip_Ok w u w' : startup_trip w = (Ok u, w') → db w' = db w.
Proof.
  unfold startup_trip, pool_execute. destruct (next_verdict w) as [v w1] eqn:Hv.
  apply next_verdict_db in Hv. by destruct v; intros [= _ <-].
Qed.

Section pg.
Context `{Entropy, Instants, Sha256, WebauthnLib} (int4_as_i64 : bool).

#[local] Instance cli_store : AuthStore World := pg_auth_store int4_as_i64.

(** C34: breaking glass from the command line, under whatever faults: a success means that the
    credential was an active one of the named operator; it is revoked, the operator is cut
    off, and one operator recovery capability is left, whose window ends at most 15 minutes
    after the command's instant; its token is not part of the outcome. *)
Theorem break_glass_command_bounded url a w u w' :
  Commands.run url (BreakGlassCommand a) w = (Ok u, w') →
  let user := BreakGlassArgs.operator_user_id a in
  ∃ now id cr cap op,
    passkey_credentials (db w) !! BreakGlassArgs.revoke_credential a = Some cr ∧
    PasskeyCredential.revoked_at cr = None ∧ PasskeyCredential.user_id cr = user ∧
    human_users (db w) !! user = Some op ∧ HumanUser.role op = "operator" ∧
    passkey_credentials (db w') !! BreakGlassArgs.revoke_credential a = Some (set_revoked now cr) ∧
    cut_off user (db w) (db w') ∧
    auth_capabilities (db w') !! id = Some cap ∧ AuthCapability.user_id cap = user ∧
    AuthCapability.purpose cap = "operator_recovery" ∧ AuthCapability.consumed_at cap = None ∧
    AuthCapability.expires_at cap = now + AuthConfig.minutes (BreakGlassArgs.window_minutes a) ∧
    now + AuthConfig.minutes 1 ≤ AuthCapability.expires_at cap ≤ now + AuthConfig.minutes 15.
Proof.
  intros Hr user. unfold Commands.run in Hr. destruct (String.eqb _ _); [done|].
  apply bind_Ok in Hr as ([] & ? & Hr & Hret). injection Hret as _ ->.
  unfold Commands.break_glass in Hr.
  apply bind_Ok in Hr as (? & ? & Hg & Hr). destruct (negb _ || _); [done|]. injection Hg as _ <-.
  apply bind_Ok in Hr as (? & ? & Hg & Hr). destruct (_ <? 12); [done|]. injection Hg as _ <-.
  apply bind_Ok in Hr as (? & ? & Hg & Hr).
  destruct ((1 <=? _) && _) eqn:Hwin; [|done]. injection Hg as _ <-.
  apply bind_Ok in Hr as (op_id & ? & Hid & Hr). unfold lift in Hid. injection Hid as Hid <-.
  apply bind_Ok in Hr as (? & w1 & Hcon & Hr). apply startup_trip_Ok in Hcon.
  apply bind_Ok in Hr as (now & ? & Hn%auth_err_Ok & Hr). unfold utc_now, world_clock, draw in Hn.
  apply bind_Ok in Hr as (token & ? & Ht%auth_err_Ok & Hr). unfold generate, world_randomness, draw in Ht.
  apply bind_Ok in Hr as (id & ? & Hi%auth_err_Ok & Hr). unfold new_v4, world_randomness, draw in Hi.
  simplify_eq. apply auth_err_Ok in Hr. apply break_glass_Ok in Hr
    as (cr & cap & Hcr & Hrev & Hus & (op & Hop & Hrole) & Hcr' & Hcut & Hcap & Hcu & _ & Hcn & Hp & He).
  simpl in *. rewrite Hcon in *.
  assert (UserId.as_str op_id = user) as Hop_id.
  { unfold Commands.operator_id, UserId.new in Hid. fold user in Hid.
    destruct (valid_opaque_id user); simpl in Hid; [|done]. by injection Hid as <-. }
  rewrite Hus, Hop_id in *. eexists _, _, cr, cap, op. split_and!; try done.
  all: rewrite He; bool_prop; unfold AuthConfig.minutes, AuthConfig.seconds; lia.
Qed.

(** The server that [serve] starts, in the world of the PostgreSQL store. *)
Context {HM HV : Type} `{HttpTypesLaws HM HV, Base64, ChronoText}.

Abbreviation served_by state :=
  (served (H2 := webauthn_engine (AppState.engine state)) (HM := HM) (HV := HV) int4_as_i64
     (AppState.config state) (AppState.browser_origin state)).

Lemma serve_Ok url a w state w' :
  Commands.serve url a w = (Ok state, w') →
  ServeArgs.public_listen a ≠ ServeArgs.private_listen a ∧
  AppState.config state = AuthConfig.default ∧
  AppState.browser_origin state = ServeArgs.browser_origin a ∧
  (ServeArgs.environment a = "production" →
     ServeArgs.rp_id a = PRODUCTION_RP_ID ∧ ServeArgs.browser_origin a = PRODUCTION_ORIGIN).
Proof.
  intros Hs. unfold Commands.serve in Hs.
  apply bind_Ok in Hs as (production & w1 & Hp & Hs). unfold lift in Hp. injection Hp as Hp _.
  apply bind_Ok in Hs as (? & w2 & _ & Hs). apply bind_Ok in Hs as (? & w3 & _ & Hs).
  apply bind_Ok in Hs as (engine & w4 & He & Hs). unfold lift in He. injection He as He _.
  apply bind_Ok in Hs as (? & w5 & _ & Hs). apply bind_Ok in Hs as (? & w6 & _ & Hs).
  unfold ret in Hs. injection Hs as <- _. simpl. unfold Commands.serve_production in Hp.
  destruct (String.eqb_spec (ServeArgs.environment a) "production") as [Hprod|Hprod]; simpl in Hp.
  - revert Hp. case_bool_decide as Hl; intros Hp; simplify_eq. split_and!; try done. intros _.
    unfold WebauthnEngine.new in He. simpl in He.
    destruct (String.eqb_spec (ServeArgs.rp_id a) PRODUCTION_RP_ID), (String.eqb_spec
      (ServeArgs.browser_origin a) PRODUCTION_ORIGIN); done.
  - destruct (String.eqb _ "development"); simpl in Hp; [|done].
    revert Hp. case_bool_decide as Hl; intros Hp; simplify_eq. by split_and!.
Qed.

(** C1: a server of this program acts for operators only: when [serve] has started, over any database
    that satisfies the schema and whatever faults, its listeners are distinct; in production its
    origin is the fixed one, and building the routers does not panic; and in every run of its two
    listeners, if an account was created or its epoch raised, a capability issued, a recovery
    approved or its setup issued, or a passkey revoked, then some request of the run was for one of
    the three routes of an operator's decisions, on the private listener, from the browser's
    origin, with the cookie of a session that was live then, of an enabled account that is an
    operator, and with that session's anti-forgery token. *)
Theorem privilege_needs_operator url a w0 state w1 w trace w' :
  Commands.run url (ServeCommand a) w0 = (Ok (Serving state), w1) →
  db_wf (db w) → served_by state w trace w' →
  ServeArgs.public_listen a ≠ ServeArgs.private_listen a ∧
  (ServeArgs.environment a = "production" →
     AppState.browser_origin state = "https://ricardosaad.com" ∧
     ∃ layer, cors (HM := HM) (HV := HV) (AppState.browser_origin state) = Returned (Ok layer) ∧
       header_to_str (CorsLayer.allow_origin layer) = Some "https://ricardosaad.com") ∧
  (authority (db w') ≠ authority (db w) →
     ∃ x, x ∈ trace ∧ listener x = PrivateListener ∧ operator_decision (asked x) = true ∧
       from_operator (AppState.browser_origin state) x).
Proof.
  intros Hr Hw Hs. unfold Commands.run in Hr. destruct (String.eqb _ _); [done|].
  apply bind_Ok in Hr as (st & w2 & Hst & Hr). unfold ret in Hr. simplify_eq.
  apply serve_Ok in Hst as (Hl & _ & Ho & Hprod). split; [done|]. split.
  - intros [_ Hpo]%Hprod. rewrite Ho, Hpo. split; [done|]. unfold cors.
    destruct (header_visible "https://ricardosaad.com") as (v & Hv & Ht); [by vm_compute|].
    unfold PRODUCTION_ORIGIN. rewrite Hv. by eexists.
  - by eapply authority_needs_operator.
Qed.


End pg.
