(* ===== verification/ServerTests.v ===== *)
(** * ServerTests: the unit tests of the server ([server/src/http.rs], [server/src/webauthn.rs],
    [server/src/repository.rs], their [mod tests])

    The tests of the routers never reach the store, so they run over any; those of the engine
    depend on what the url and webauthn-rs libraries say of a few fixed texts.  Two tests search
    the text of a file: the migration's is here, and [repository_test_reads_itself] says that the other
    one passes whatever else its file holds. *)
From S2P Require Export Cli Testing.

(** ** What the tests use of the libraries *)

(** crate [http]: building a header map. *)
Class HeaderMapBuild (HeaderMap HeaderValue : Type) := {
  header_new : HeaderMap;
  header_insert : string → HeaderValue → HeaderMap → HeaderMap;
}.

Class HeaderMapLaws HM HV `{HttpTypes HM HV, !HeaderMapBuild HM HV} : Prop := {
  header_get_new name : header_get header_new name = None;
  header_get_insert name v h name' :
    header_get (header_insert name v h) name' = if String.eqb name name' then Some v else header_get h name';
  header_static s : forallb visible_char (bytes s) = true → header_to_str (header_from_static s) = Some s;
}.

(** A relying party the libraries accept at an origin without path, query or fragment. *)
Definition accepted_site `{WebauthnLib} (rp_id origin : string) : Prop :=
  ∃ url builder webauthn,
    url_parse origin = Some url ∧ url_path url = "/" ∧ url_query url = None ∧ url_fragment url = None ∧
    builder_new rp_id url = Some builder ∧ build (rp_name builder "RS Platform") = Some webauthn.

(** crates [url] and [webauthn_rs], on the texts of the tests. *)
Class SiteLaws `{WebauthnLib} : Prop := {
  production_accepted : accepted_site "ricardosaad.com" "https://ricardosaad.com";
  development_accepted : accepted_site "localhost" "http://localhost:4321";
  platform_path url : url_parse "http://localhost:4321/platform" = Some url → url_path url = "/platform";
  star_relative : url_parse "*" = None;
  (** A challenge has the section, and a state serialises. *)
  challenge_section w seed handle email name exclude :
    ∃ challenge state entries public_key selection value,
      start_passkey_registration w seed handle email name exclude = Some (Some challenge, state) ∧
      challenge = Object entries ∧ member entries "publicKey" = Some (Object public_key) ∧
      member public_key "authenticatorSelection" = Some (Object selection) ∧
      registration_to_value state = Some value;
}.

Definition is_err {A E} (r : result A E) : bool := negb (is_ok r).

(** [Value::pointer], of the names between the slashes, through objects. *)
Fixpoint pointer (names : list string) (v : Value) : option Value :=
  match names with
  | [] => Some v
  | name :: names => match v with Object entries => member entries name ≫= pointer names | _ => None end
  end.

(** ** [repository.rs] *)

Module RepositoryTests.

Definition enum_database_values_are_exact_and_closed : pure_test :=
  do! assert_eq (role_name RoleOperator) "operator" in
  do! assert (is_err (parse_role "admin")) in
  do! assert_eq (ceremony_name Authentication) "authentication" in
  assert (is_err (parse_purpose "email_login")).

(** What [include_str!] gives of [server/migrations/0001_human_auth.sql]. *)
Definition migration : string :=
"CREATE TABLE human_users (
    id text PRIMARY KEY,
    webauthn_handle uuid NOT NULL UNIQUE DEFAULT gen_random_uuid(),
    email text NOT NULL UNIQUE,
    display_name text NOT NULL,
    role text NOT NULL CHECK (role IN ('user', 'operator')),
    enabled boolean NOT NULL DEFAULT true,
    auth_epoch bigint NOT NULL DEFAULT 1 CHECK (auth_epoch > 0),
    created_at timestamptz NOT NULL DEFAULT now(),
    updated_at timestamptz NOT NULL DEFAULT now()
);

CREATE TABLE passkey_credentials (
    id uuid PRIMARY KEY,
    user_id text NOT NULL REFERENCES human_users(id),
    credential_id bytea NOT NULL UNIQUE,
    public_data jsonb NOT NULL,
    created_at timestamptz NOT NULL,
    last_used_at timestamptz,
    revoked_at timestamptz
);

CREATE TABLE auth_capabilities (
    id uuid PRIMARY KEY,
    user_id text NOT NULL REFERENCES human_users(id),
    purpose text NOT NULL CHECK (purpose IN ('setup', 'recovery_setup', 'operator_recovery')),
    token_hash bytea NOT NULL UNIQUE CHECK (octet_length(token_hash) = 32),
    expires_at timestamptz NOT NULL,
    consumed_at timestamptz,
    created_at timestamptz NOT NULL DEFAULT now()
);

CREATE TABLE auth_ceremonies (
    id uuid PRIMARY KEY,
    kind text NOT NULL CHECK (
        kind IN ('registration', 'authentication', 'operator_bootstrap', 'operator_recovery')
    ),
    user_id text REFERENCES human_users(id),
    capability_hash bytea CHECK (
        capability_hash IS NULL OR octet_length(capability_hash) = 32
    ),
    state jsonb NOT NULL,
    expires_at timestamptz NOT NULL,
    consumed_at timestamptz,
    created_at timestamptz NOT NULL DEFAULT now()
);

CREATE TABLE auth_sessions (
    id uuid PRIMARY KEY,
    user_id text NOT NULL REFERENCES human_users(id),
    token_hash bytea NOT NULL UNIQUE CHECK (octet_length(token_hash) = 32),
    csrf_hash bytea NOT NULL CHECK (octet_length(csrf_hash) = 32),
    auth_epoch bigint NOT NULL,
    idle_expires_at timestamptz NOT NULL,
    absolute_expires_at timestamptz NOT NULL,
    created_at timestamptz NOT NULL DEFAULT now(),
    last_seen_at timestamptz NOT NULL DEFAULT now(),
    revoked_at timestamptz
);

CREATE TABLE recovery_requests (
    id uuid PRIMARY KEY,
    user_id text NOT NULL REFERENCES human_users(id),
    requested_at timestamptz NOT NULL,
    approved_at timestamptz,
    approved_by text REFERENCES human_users(id),
    setup_issued_at timestamptz,
    completed_at timestamptz
);

CREATE UNIQUE INDEX one_pending_recovery_per_user
    ON recovery_requests(user_id)
    WHERE approved_at IS NULL AND completed_at IS NULL;

CREATE TABLE auth_audit_events (
    id bigint GENERATED ALWAYS AS IDENTITY PRIMARY KEY,
    occurred_at timestamptz NOT NULL,
    event_type text NOT NULL,
    actor_user_id text REFERENCES human_users(id),
    subject_user_id text REFERENCES human_users(id),
    data jsonb NOT NULL
);

CREATE FUNCTION reject_auth_audit_mutation() RETURNS trigger
LANGUAGE plpgsql AS $$
BEGIN
    RAISE EXCEPTION 'auth audit events are append-only';
END;
$$;

CREATE TRIGGER auth_audit_events_append_only
    BEFORE UPDATE OR DELETE ON auth_audit_events
    FOR EACH ROW EXECUTE FUNCTION reject_auth_audit_mutation();

CREATE INDEX active_sessions_by_user ON auth_sessions(user_id)
    WHERE revoked_at IS NULL;
CREATE INDEX active_ceremonies_by_user ON auth_ceremonies(user_id)
    WHERE consumed_at IS NULL;
".

Definition migration_stores_only_hashes_and_enforces_append_only_audit : pure_test :=
  do! assert (contains "token_hash bytea" migration) in
  do! assert (contains "csrf_hash bytea" migration) in
  do! assert (negb (contains "session_token text" migration)) in
  do! assert (negb (contains "setup_token text" migration)) in
  do! assert (negb (contains "recovery_token text" migration)) in
  assert (contains "auth_audit_events_append_only" migration).

(** The test is given its own file, [repository.rs], by [include_str!]. *)
Definition recovery_invalidation_covers_all_ephemeral_authority (source : string) : pure_test :=
  do! assert (contains "SET auth_epoch = auth_epoch + 1" source) in
  do! assert (contains "UPDATE auth_sessions SET revoked_at" source) in
  do! assert (contains "UPDATE auth_ceremonies SET consumed_at" source) in
  do! assert (contains "UPDATE auth_capabilities SET consumed_at" source) in
  do! assert (contains "auth.epoch_rotated_all" source) in
  assert (contains "user.approved_with_setup" source).

(** A line of the test, as it is written in the file. *)
Definition quote : string := String (char 34) EmptyString.
Definition newline : string := String (char 10) EmptyString.
Definition assertion (needle : string) : string :=
  "        assert!(source.contains(" +:+ quote +:+ needle +:+ quote +:+ "));" +:+ newline.
Definition assertions : string :=
  assertion "SET auth_epoch = auth_epoch + 1" +:+
  assertion "UPDATE auth_sessions SET revoked_at" +:+
  assertion "UPDATE auth_ceremonies SET consumed_at" +:+
  assertion "UPDATE auth_capabilities SET consumed_at" +:+
  assertion "auth.epoch_rotated_all" +:+
  assertion "user.approved_with_setup".

End RepositoryTests.

(** ** [webauthn.rs] *)

Module WebauthnTests.
Section tests.
Context `{WebauthnLib}.

Definition production_configuration_is_frozen : pure_test :=
  do! assert (is_ok (WebauthnEngine.new PRODUCTION_RP_ID PRODUCTION_ORIGIN true)) in
  do! assert (is_err (WebauthnEngine.new "platform-api.ricardosaad.com" PRODUCTION_ORIGIN true)) in
  assert (is_err (WebauthnEngine.new PRODUCTION_RP_ID "https://evil.example" true)).

Definition origins_cannot_contain_paths_or_wildcards : pure_test :=
  do! assert (is_err (WebauthnEngine.new "localhost" "http://localhost:4321/platform" false)) in
  assert (is_err (WebauthnEngine.new "localhost" "*" false)).

(** [handle] and [seed] are the randomness of the test. *)
Definition registration_requires_discoverable_user_verifying_credentials (handle : Uuid) (seed : Seed)
    : pure_test :=
  let! engine := expect_ok "development configuration is valid"
    (WebauthnEngine.new "localhost" "http://localhost:4321" false) in
  let! id := expect_ok "valid ID" (UserId.new "user-1") in
  let user := User.mk id handle "user@example.test" "Test User" RoleUser true 1 in
  let! (challenge, _) := expect_ok "registration starts"
    (WebauthnEngine.start_registration engine seed user []) in
  do! assert_eq (pointer ["publicKey"; "authenticatorSelection"; "residentKey"] challenge)
        (Some (Str "required")) in
  assert_eq (pointer ["publicKey"; "authenticatorSelection"; "requireResidentKey"] challenge)
    (Some (Bool true)).

End tests.
End WebauthnTests.

(** ** [http.rs] *)

Module HttpTests.
Section tests.
Context {W HM HV : Type} `{HttpTypes HM HV, !HeaderMapBuild HM HV, !EqDecision HV, AuthStore W, Randomness W,
  UtcClock W, Readiness W, Sha256, Base64, ChronoText, WebauthnLib}.

Abbreviation Test := (M W Failure unit).

(** The state's store is lazily connected: the world of the test.  Its routers are built with it. *)
Definition test_state : M W Failure AppState.t :=
  let! engine := expect_ok "development WebAuthn config is valid"
    (WebauthnEngine.new "localhost" "http://localhost:4321" false) in
  ret (AppState.mk _ _ engine AuthConfig.default "http://localhost:4321").

Definition oneshot (router : list (Method * string)) (headers : HM) (r : request)
    : M W Failure (Response HV) :=
  let! state := test_state in λ w,
  let (response, w) := Handlers.serve (H4 := webauthn_engine (AppState.engine state))
    (AppState.config state) (AppState.browser_origin state) router headers r w in
  (Ok response, w).

(** [HeaderMap::get] on a response. *)
Definition response_header (name : string) (r : Response HV) : option HV :=
  snd <$> find (λ h, String.eqb h.1 name) (Response.headers r).

Definition cookie_parser_requires_the_exact_host_cookie_name : Test :=
  let headers := header_insert "cookie" (header_from_static "other=x; __Host-rs_session=right") header_new in
  do! assert_eq (Handlers.cookie_value headers SESSION_COOKIE) (Some "right") in
  assert_eq (Handlers.cookie_value headers "rs_session") None.

Definition capability_document_shape_is_versioned : Test :=
  let value := capability_document "anonymous" ["auth.login"] in
  do! assert_eq (value_index "schema_version" value) (Num (PosInt 1)) in
  do! assert_eq (value_index "audience" value) (Str "anonymous") in
  assert_eq (value_index "capabilities" value) (Array [Str "auth.login"]).

Definition public_and_private_route_inventories_are_structurally_separate : Test :=
  let! public_response := oneshot public_router header_new OperatorCapabilities in
  do! assert_eq (Response.status public_response) StatusCode.NOT_FOUND in
  let! private_response := oneshot private_router header_new LoginStart in
  assert_eq (Response.status private_response) StatusCode.NOT_FOUND.

Definition mutating_routes_reject_wrong_origin_before_work : Test :=
  let headers := header_insert "content-type" (header_from_static "application/json")
    (header_insert "origin" (header_from_static "https://evil.example") header_new) in
  let! response := oneshot public_router headers LoginStart in
  do! assert_eq (Response.status response) StatusCode.FORBIDDEN in
  assert_eq (response_header "cache-control" response) (Some (header_from_static "no-store")).

End tests.
End HttpTests.

(** ** The tests pass *)

Lemma accepted_engine `{WebauthnLib} rp_id origin production :
  accepted_site rp_id origin → (production = true → rp_id = PRODUCTION_RP_ID ∧ origin = PRODUCTION_ORIGIN) →
  is_ok (WebauthnEngine.new rp_id origin production) = true.
Proof.
  intros (url & builder & webauthn & Hp & Hpath & Hq & Hf & Hb & Hw) Hprod. unfold WebauthnEngine.new.
  assert (production && (negb (String.eqb rp_id PRODUCTION_RP_ID) || negb (String.eqb origin PRODUCTION_ORIGIN))
    = false) as ->.
  { destruct production; [|done]. destruct Hprod as [-> ->]; [done|]. by rewrite !String.eqb_refl. }
  rewrite Hp. simpl. rewrite Hpath, Hq, Hf. simpl. rewrite Hb. simpl. by rewrite Hw.
Qed.

Lemma assert_true {W} b (w : W) : b = true → assert b w = (Ok tt, w).
Proof. by intros ->. Qed.
Lemma assert_eq_refl {W A} `{EqDecision A} (x y : A) (w : W) : x = y → assert_eq x y w = (Ok tt, w).
Proof. intros ->. unfold assert_eq, assert. by rewrite bool_decide_true. Qed.

Section webauthn.
Context `{SiteLaws}.

Lemma webauthn_tests_pass handle seed :
  passes WebauthnTests.production_configuration_is_frozen tt ∧
  passes WebauthnTests.origins_cannot_contain_paths_or_wildcards tt ∧
  passes (WebauthnTests.registration_requires_discoverable_user_verifying_credentials handle seed) tt.
Proof.
  split_and!.
  - test_step; [apply assert_true, accepted_engine; [apply production_accepted|done]|].
    test_step; [by apply assert_true|]. test_step. by apply assert_true.
  - test_step; [apply assert_true|].
    { unfold is_err, WebauthnEngine.new. simpl.
      destruct (url_parse "http://localhost:4321/platform") as [u|] eqn:Hu; simpl; [|done].
      by rewrite (platform_path _ Hu). }
    test_step. apply assert_true. unfold is_err, WebauthnEngine.new. simpl. by rewrite star_relative.
  - pose proof (accepted_engine _ _ false development_accepted ltac:(done)) as He.
    destruct (WebauthnEngine.new "localhost" "http://localhost:4321" false) as [engine|] eqn:Hn; [|done].
    unfold WebauthnTests.registration_requires_discoverable_user_verifying_credentials.
    rewrite Hn. test_step; [done|]. test_step; [done|].
    destruct (challenge_section engine seed handle "user@example.test" "Test User" None)
      as (c & st & es & pk & sel & v & Hs & -> & Hpk & Hsel & Hv).
    test_step; [|].
    { unfold lift. f_equal. unfold WebauthnEngine.start_registration. simpl.
      rewrite Hs. simpl. rewrite Hpk, Hsel. simpl. rewrite Hv. done. }
    assert (∀ name selection, pointer ["publicKey"; "authenticatorSelection"; name]
      (Object (insert_member "publicKey" (Object (insert_member "authenticatorSelection"
         (Object selection) pk)) es)) = member selection name) as Hp.
    { intros name selection. cbn [pointer]. rewrite member_insert_eq. cbn [mbind option_bind pointer].
      rewrite member_insert_eq. cbn [mbind option_bind pointer]. by destruct (member selection name). }
    test_step; [apply assert_eq_refl; rewrite Hp, member_insert_ne by done; by rewrite member_insert_eq|].
    test_step. apply assert_eq_refl. by rewrite Hp, member_insert_eq.
Qed.
End webauthn.

Section http.
Context {W HM HV : Type} `{HeaderMapLaws HM HV, !EqDecision HV, AuthStore W, Randomness W, UtcClock W, Readiness W,
  Sha256, Base64, ChronoText, SiteLaws}.
Implicit Types (w : W).

Lemma static_header (h : HM) name s :
  forallb visible_char (bytes s) = true →
  Handlers.header_str (header_insert name (header_from_static s) h) name = Some s.
Proof.
  intros Hs. unfold Handlers.header_str. rewrite header_get_insert, String.eqb_refl. simpl.
  by apply header_static.
Qed.

(** The state is built, and the request reaches its router. *)
Lemma oneshot_served : ∃ engine, ∀ router (h : HM) r w response w',
  Handlers.serve (H4 := webauthn_engine engine) AuthConfig.default "http://localhost:4321" router h r w =
    (response, w') →
  HttpTests.oneshot router h r w = (Ok response, w').
Proof.
  pose proof (accepted_engine _ _ false development_accepted ltac:(done)) as He.
  destruct (WebauthnEngine.new "localhost" "http://localhost:4321" false) as [engine|] eqn:Hn; [|done].
  exists engine. intros router h r w response w' Hs.
  unfold HttpTests.oneshot, HttpTests.test_state, bind, expect_ok, expect, lift, ret. rewrite Hn. simpl.
  by rewrite Hs.
Qed.

Lemma http_tests_pass w :
  passes (HttpTests.cookie_parser_requires_the_exact_host_cookie_name (HM := HM)) w ∧
  passes HttpTests.capability_document_shape_is_versioned w ∧
  passes (HttpTests.public_and_private_route_inventories_are_structurally_separate (HM := HM)) w ∧
  passes (HttpTests.mutating_routes_reject_wrong_origin_before_work (HM := HM)) w.
Proof.
  split_and!.
  - assert (∀ name, Handlers.cookie_value (header_insert "cookie"
      (header_from_static "other=x; __Host-rs_session=right") (header_new : HM)) name =
      find_map (λ cookie, rest ← strip_prefix name cookie; strip_prefix "=" rest)
        (trim <$> split_char ";"%char "other=x; __Host-rs_session=right")) as Hc.
    { intros name. unfold Handlers.cookie_value. by rewrite static_header. }
    test_step; [apply assert_eq_refl; rewrite Hc; by vm_compute|].
    test_step. apply assert_eq_refl. rewrite Hc. by vm_compute.
  - by vm_compute.
  - destruct oneshot_served as [engine Hone].
    test_step; [apply Hone; unfold Handlers.serve; rewrite bool_decide_false by (simpl; set_solver); done|].
    test_step; [by apply assert_eq_refl|].
    test_step; [apply Hone; unfold Handlers.serve; rewrite bool_decide_false by (simpl; set_solver); done|].
    test_step. by apply assert_eq_refl.
  - destruct oneshot_served as [engine Hone].
    test_step; [apply Hone; unfold Handlers.serve; rewrite bool_decide_true by (simpl; set_solver)|].
    { simpl. unfold Handlers.login_start, bind at 1, lift at 1.
      assert (Handlers.verify_origin_json (HM := HM) "http://localhost:4321"
        (header_insert "content-type" (header_from_static "application/json")
          (header_insert "origin" (header_from_static "https://evil.example") header_new)) = Err Forbidden) as ->.
      { unfold Handlers.verify_origin_json, Handlers.header_str. rewrite !header_get_insert. simpl.
        by rewrite header_static. }
      done. }
    test_step; [by apply assert_eq_refl|]. test_step. by apply assert_eq_refl.
Qed.
End http.

(** What is in a text is in every longer one. *)
Lemma contains_within p before s after : contains p s = true → contains p (before +:+ s +:+ after) = true.
Proof.
  unfold contains. rewrite !contains_bytes_true, !bytes_app. intros (l1 & l2 & ->).
  exists (bytes before ++ l1), (l2 ++ bytes after). by rewrite <- !app_assoc.
Qed.

(** The test of the invalidation's statements reads the file it is written in, so each of its texts is
    found in its own assertion: it passes whatever the rest of the file does. *)
Lemma repository_test_reads_itself before after :
  passes (RepositoryTests.recovery_invalidation_covers_all_ephemeral_authority
            (before +:+ RepositoryTests.assertions +:+ after)) tt.
Proof.
  assert (∀ p, contains p RepositoryTests.assertions = true →
    contains p (before +:+ RepositoryTests.assertions +:+ after) = true) as Hc.
  { intros p Hp. by apply contains_within. }
  unfold RepositoryTests.recovery_invalidation_covers_all_ephemeral_authority.
  repeat (test_step; [unfold assert; rewrite Hc by (vm_compute; reflexivity); reflexivity|]).
  test_step. unfold assert. rewrite Hc by (vm_compute; reflexivity). reflexivity.
Qed.

(** All of them, over any store, whatever its world. *)
Lemma server_tests_pass {W HM HV : Type} `{HeaderMapLaws HM HV, !EqDecision HV, AuthStore W, Randomness W,
    UtcClock W, Readiness W, Sha256, Base64, ChronoText, SiteLaws} (w : W) handle seed :
  passes RepositoryTests.enum_database_values_are_exact_and_closed tt ∧
  passes RepositoryTests.migration_stores_only_hashes_and_enforces_append_only_audit tt ∧
  passes WebauthnTests.production_configuration_is_frozen tt ∧
  passes WebauthnTests.origins_cannot_contain_paths_or_wildcards tt ∧
  passes (WebauthnTests.registration_requires_discoverable_user_verifying_credentials handle seed) tt ∧
  passes (HttpTests.cookie_parser_requires_the_exact_host_cookie_name (HM := HM)) w ∧
  passes HttpTests.capability_document_shape_is_versioned w ∧
  passes (HttpTests.public_and_private_route_inventories_are_structurally_separate (HM := HM)) w ∧
  passes (HttpTests.mutating_routes_reject_wrong_origin_before_work (HM := HM)) w.
Proof.
  split; [by vm_compute|]. split; [vm_compute; reflexivity|]. destruct (webauthn_tests_pass handle seed) as (? & ? & ?).
  destruct (http_tests_pass (HM := HM) w) as (? & ? & ? & ?). done.
Qed.
