(* ===== verification/AuthScenario.v ===== *)
(** * AuthScenario: one concrete history, and the witnesses of the authentication properties

    A database that starts empty: the operator is seeded, registers a passkey by bootstrap and
    logs in; a user is approved and registers with the setup token.  The digest is SHA-256 itself,
    the random numbers are counted, and the engine answers what its input says. *)
From S2P Require Export Interleaving.
From S2P Require Import Instances.

#[local] Existing Instance sample_entropy.

#[local] Instance sample_engine : CeremonyEngine := {
  engine_start_registration _ _ _ := Ok (Str "challenge", Str "state");
  engine_finish_registration response _ :=
    match response with Str id => Ok (VerifiedCredential.mk id Null) | _ => Err Verification end;
  engine_start_authentication _ := Ok (Str "challenge", Str "state");
  engine_authentication_user_handle response :=
    match response with Num (PosInt handle) => Ok handle | _ => Err Verification end;
  engine_finish_authentication _ _ credentials :=
    match credentials with
    | c :: _ => Ok (AuthenticationVerification.mk (StoredCredential.credential_id c) Null)
    | [] => Err Verification
    end;
}.

#[local] Instance sample_auth_store : AuthStore World := pg_auth_store false.

Definition cfg : AuthConfig := AuthConfig.default.
Definition op : UserId := UserId.mk "operator-1".
Definition usr : UserId := UserId.mk "user-1".

(** The history, one world per operation. *)
Definition w_seeded := (seed_operator op " ops@example.org" "Operator" 10 initial_world).2.
Definition w_bootstrap := (start_operator_bootstrap cfg 20 w_seeded).2.
Definition w_registered := (finish_registration 2 OperatorBootstrap (Str "passkey-1") 30 w_bootstrap).2.
Definition w_challenge := (start_authentication cfg 40 w_registered).2.
Notation login := (finish_authentication cfg 5 (Num (PosInt 0)) 50 w_challenge).
Definition w_login := login.2.
Definition w_approved := (approve_user_and_issue_setup cfg op usr "user@example.org" "User" 60 w_login).2.

Example history_succeeds :
  is_ok (seed_operator op " ops@example.org" "Operator" 10 initial_world).1 = true ∧
  is_ok (start_operator_bootstrap cfg 20 w_seeded).1 = true ∧
  is_ok (finish_registration 2 OperatorBootstrap (Str "passkey-1") 30 w_bootstrap).1 = true ∧
  is_ok (start_authentication cfg 40 w_registered).1 = true ∧
  is_ok login.1 = true ∧
  is_ok (approve_user_and_issue_setup cfg op usr "user@example.org" "User" 60 w_login).1 = true.
Proof. split_and!; vm_compute; reflexivity. Qed.

Lemma wf_after {A} (c : M World AuthError A) w : safe c → db_wf (db w) → db_wf (db (c w).2).
Proof. intros Hc Hw. destruct (c w) as [r w'] eqn:Hr. by destruct (Hc _ _ _ Hr Hw). Qed.

Lemma wf_seeded : db_wf (db w_seeded).
Proof. apply wf_after; [by apply seed_operator_safe|apply empty_db_wf]. Qed.
Lemma wf_bootstrap : db_wf (db w_bootstrap).
Proof. apply wf_after; [apply start_operator_bootstrap_safe|apply wf_seeded]. Qed.
Lemma wf_registered : db_wf (db w_registered).
Proof. apply wf_after; [apply finish_registration_safe|apply wf_bootstrap]. Qed.
Lemma wf_challenge : db_wf (db w_challenge).
Proof. apply wf_after; [apply start_authentication_safe|apply wf_registered]. Qed.
Lemma wf_login : db_wf (db w_login).
Proof. apply wf_after; [apply finish_authentication_safe|apply wf_challenge]. Qed.
Lemma wf_approved : db_wf (db w_approved).
Proof. apply wf_after; [by apply approve_user_safe|apply wf_login]. Qed.

(** ** Witnesses: the service *)

Lemma seed_operator_exact_witness :
  db_wf (db w_seeded) ∧
  (seed_operator (UserId.mk "operator-2") "other@example.org" "Other" 20 w_seeded).1 = Err Conflict ∧
  db (seed_operator (UserId.mk "operator-2") "other@example.org" "Other" 20 w_seeded).2 = db w_seeded.
Proof.
  pose proof (seed_operator_exact false (UserId.mk "operator-2") "other@example.org" "Other" 20 w_seeded
    wf_seeded eq_refl) as H.
  split; [exact wf_seeded|].
  assert ((seed_operator (UserId.mk "operator-2") "other@example.org" "Other" 20 w_seeded).1 = Err Conflict)
    as He by (vm_compute; reflexivity).
  split; [exact He|]. destruct (seed_operator _ _ _ _ _) as [r w']. simpl in He. subst r. apply H.
Defined.

Definition w_second : World :=
  (seed_operator_insert (UserId.mk "operator-2") "other@example.org" "Other" 12 initial_world).2.

Definition second_operator : HumanUser.t := HumanUser.mk 0 "other@example.org" "Other" "operator" true 1 12 12.

Lemma second_users : human_users (db w_second) = <["operator-2" := second_operator]> ∅.
Proof. vm_compute. reflexivity. Qed.

Lemma second_user k u : human_users (db w_second) !! k = Some u → u = second_operator.
Proof.
  rewrite second_users. intros [[_ <-]|[_ Hk]]%lookup_insert_Some; [done|by rewrite lookup_empty in Hk].
Qed.

Lemma concurrent_seeding_two_operators_witness :
  db initial_world = empty_db ∧ ∃ w2,
    (∃ u, human_users (db w2) !! "operator-1" = Some u ∧ row_is_operator u = true) ∧
    (∃ u, human_users (db w2) !! "operator-2" = Some u ∧ row_is_operator u = true).
Proof.
  split; [reflexivity|].
  destruct (concurrent_seeding_two_operators false op (UserId.mk "operator-2") "ops@example.org"
    "other@example.org" "Operator" "Other" 11 12 initial_world w_second) as (w2 & _ & Hops).
  - apply empty_db_wf.
  - reflexivity.
  - discriminate.
  - vm_compute; reflexivity.
  - vm_compute; reflexivity.
  - vm_compute; reflexivity.
  - vm_compute; reflexivity.
  - discriminate.
  - intros k u Hk. discriminate Hk.
  - intros k u ->%second_user. vm_compute. discriminate.
  - exists w2.
    split; [apply (Hops op)|apply (Hops (UserId.mk "operator-2"))]; [left|right]; reflexivity.
Defined.

Lemma operator_bootstrap_guarded_witness :
  (start_operator_bootstrap cfg 20 w_seeded).1 = Ok (2, Str "challenge", OperatorBootstrap) ∧
  auth_ceremonies (db w_seeded) !! 2 = None ∧
  ∃ c, auth_ceremonies (db w_bootstrap) !! 2 = Some c ∧ AuthCeremony.user_id c = Some "operator-1".
Proof.
  assert (start_operator_bootstrap cfg 20 w_seeded =
    (Ok (2, Str "challenge", OperatorBootstrap), w_bootstrap)) as Hs by (vm_compute; reflexivity).
  destruct (operator_bootstrap_guarded false cfg 20 w_seeded 2 (Str "challenge") OperatorBootstrap
    w_bootstrap wf_seeded Hs) as (user & row & seed & state & c & Hu & _ & _ & _ & Hfree & Hd & _ & Huser & _).
  split; [exact (f_equal fst Hs)|]. split; [exact Hfree|]. exists c. rewrite Hd, lookup_insert_eq.
  split; [reflexivity|]. rewrite Huser. f_equal.
  destruct (decide (user = "operator-1")) as [|Hne]; [done|]. exfalso.
  revert Hu. replace (human_users (db w_seeded)) with
    (<["operator-1" := HumanUser.mk 0 "ops@example.org" "Operator" "operator" true 1 10 10]>
       (∅ : gmap string HumanUser.t)) by (vm_compute; reflexivity).
  rewrite lookup_insert_ne by congruence. by rewrite lookup_empty.
Defined.

(** The setup link of the approved user starts a registration bound to it. *)
Definition setup_token : SecretToken := token_at 9.
Definition w_setup := (start_setup_registration cfg setup_token Setup 70 w_approved).2.

Lemma setup_token_granted :
  (approve_user_and_issue_setup cfg op usr "user@example.org" "User" 60 w_login).1 = Ok setup_token.
Proof. vm_compute. reflexivity. Qed.

Lemma setup_started_Ok :
  ∃ id, start_setup_registration cfg setup_token Setup 70 w_approved = (Ok (id, Str "challenge"), w_setup).
Proof. eexists. vm_compute. reflexivity. Qed.

Lemma setup_registration_bound_witness :
  ∃ id cap, (start_setup_registration cfg setup_token Setup 70 w_approved).1 = Ok (id, Str "challenge") ∧
    AuthCapability.token_hash cap = SecretHash.as_bytes (SecretToken.hash setup_token) ∧
    ∃ c, auth_ceremonies (db w_setup) !! id = Some c ∧
      AuthCeremony.capability_hash c = Some (AuthCapability.token_hash cap).
Proof.
  destruct setup_started_Ok as [id Hs].
  destruct (setup_registration_bound false cfg setup_token Setup 70 w_approved id (Str "challenge") w_setup
    wf_approved Hs) as (k & cap & row & user & creds & seed & state & c & _ & Hh & _ & _ & _ & _ & _ & _ & _ & _ &
      Hd & _ & _ & Hcap & _).
  exists id, cap. split; [exact (f_equal fst Hs)|]. split; [exact Hh|].
  exists c. rewrite Hd, lookup_insert_eq. split; [reflexivity|exact Hcap].
Defined.

Lemma login_Ok : ∃ g u, login = (Ok (g, u), w_login) ∧ calm w_login ∧
  SessionGrant.token g = token_at 6 ∧ SessionGrant.csrf g = token_at 7.
Proof. eexists _, _. split; [vm_compute; reflexivity|].
  split_and!; vm_compute; reflexivity.
Qed.

Lemma authenticate_session_exact_witness :
  db_wf (db w_login) ∧ calm w_login ∧
  (authenticate_session cfg (token_at 6) (Some (token_at 20)) 60 w_login).1 = Err Forbidden ∧
  ∃ k s, auth_sessions (db w_login) !! k = Some s ∧
    live_session (db w_login) (SecretToken.hash (token_at 6)) 60 k s = true.
Proof.
  assert (calm w_login) as Hc by (vm_compute; reflexivity).
  pose proof (authenticate_session_exact false cfg (token_at 6) (Some (token_at 20)) 60 w_login
    wf_login Hc) as H.
  split; [exact wf_login|]. split; [exact Hc|].
  assert ((authenticate_session cfg (token_at 6) (Some (token_at 20)) 60 w_login).1 = Err Forbidden) as He
    by (vm_compute; reflexivity).
  split; [exact He|]. destruct (authenticate_session _ _ _ _ _) as [r w']. simpl in He. subst r.
  destruct H as (k & s & _ & Hk & Hl & _). exists k, s. exact (conj Hk Hl).
Defined.

Lemma login_authenticates_witness :
  ∃ g u p w2, login = (Ok (g, u), w_login) ∧
    authenticate_session cfg (SessionGrant.token g) (Some (SessionGrant.csrf g)) 60 w_login = (Ok p, w2) ∧
    SessionPrincipal.user p = u.
Proof.
  destruct login_Ok as (g & u & Hl & Hc & _).
  destruct (login_authenticates false cfg 5 (Num (PosInt 0)) 50 w_challenge g u w_login 60
    wf_challenge Hl Hc ltac:(vm_compute; reflexivity) ltac:(vm_compute; reflexivity))
    as [(p & w2 & Hp & Hu & _) _].
  exists g, u, p, w2. exact (conj Hl (conj Hp Hu)).
Defined.

Definition w_renewed := (issue_session_csrf cfg (token_at 6) 55 w_login).2.
Notation renewal := (issue_session_csrf cfg (token_at 6) 55 w_login).

Lemma csrf_renewal_replaces_witness :
  ∃ p csrf w2, renewal = (Ok (p, csrf), w_renewed) ∧
    authenticate_session cfg (token_at 6) (Some (token_at 7)) 60 w_renewed = (Err Forbidden, w2).
Proof.
  assert (∃ p, renewal = (Ok (p, token_at 9), w_renewed) ∧ calm w_renewed ∧
    60 <? SessionPrincipal.absolute_expires_at p = true) as (p & Hr & Hc & Ha)
    by (eexists; split; [vm_compute; reflexivity|]; split; vm_compute; reflexivity).
  destruct (csrf_renewal_replaces false cfg (token_at 6) 55 w_login p (token_at 9) w_renewed 60
    wf_login Hr Hc ltac:(vm_compute; reflexivity) ltac:(by apply Z.ltb_lt)) as [_ Hf].
  destruct (Hf (token_at 7)) as [w2 Hw2]; [vm_compute; discriminate|].
  exists p, (token_at 9), w2. split; [exact Hr|exact Hw2].
Defined.

(** ** Witnesses: the store *)

Notation perform := (perform false).
Notation steps := (rtc (step false)).

(** One call as a step, and what it leaves. *)
Lemma step_after c w : call_valid c → steps w (perform c w).2.
Proof. intros Hv. apply rtc_once. eapply step_call; [done|apply surjective_pairing]. Qed.

Definition passkey_event (u : UserId) : AuditEvent :=
  AuditEvent.mk "passkey.registered" (Some u) (Some u) (Object []).

Definition bootstrap_completion : store_call :=
  CompleteRegistration 2 None (VerifiedCredential.mk "passkey-1" Null) 30 (passkey_event op).

Lemma bootstrap_completion_Ok :
  perform bootstrap_completion w_bootstrap = (Ok tt, (perform bootstrap_completion w_bootstrap).2).
Proof. vm_compute. reflexivity. Qed.

Lemma ceremony_used_once_witness :
  (perform bootstrap_completion w_bootstrap).1 = Ok tt ∧
  ∀ w3, perform (CompleteRegistration 2 None (VerifiedCredential.mk "passkey-2" Null) 31 (passkey_event op))
    (perform bootstrap_completion w_bootstrap).2 ≠ (Ok tt, w3).
Proof.
  split; [exact (f_equal fst bootstrap_completion_Ok)|]. intros w3.
  eapply (ceremony_used_once false 2 bootstrap_completion _ w_bootstrap).
  - exact wf_bootstrap.
  - exact I.
  - left. by eexists _, _, _, _.
  - left. by eexists _, _, _, _.
  - exact bootstrap_completion_Ok.
  - apply rtc_refl.
Defined.

Lemma registration_exact_witness :
  ∃ user c, AuthCeremony.user_id c = Some user ∧
    ∃ k, passkey_credentials (db w_bootstrap) !! k = None ∧
      is_Some (passkey_credentials (db (perform bootstrap_completion w_bootstrap).2) !! k).
Proof.
  destruct (registration_exact false 2 None (VerifiedCredential.mk "passkey-1" Null) 30 (passkey_event op)
    w_bootstrap (perform bootstrap_completion w_bootstrap).2 bootstrap_completion_Ok)
    as (user & c & [_ Hu _ _ (k & Hk & Hd) _ _ _]).
  exists user, c. split; [exact Hu|]. exists k. split; [exact Hk|]. by rewrite Hd, lookup_insert_eq.
Defined.

Lemma wf_setup : db_wf (db w_setup).
Proof. apply wf_after; [apply start_setup_registration_safe|apply wf_approved]. Qed.

Lemma wf_perform c w : call_valid c → db_wf (db w) → db_wf (db (perform c w).2).
Proof. intros Hv. by apply wf_after, perform_safe. Qed.

(** The user registers with the setup capability, whose ceremony is the fourteenth draw. *)
Definition setup_completion (id : Uuid) (passkey : string) : store_call :=
  CompleteRegistration id (Some (SecretToken.hash setup_token)) (VerifiedCredential.mk passkey Null) 80
    (passkey_event usr).
Definition w_user := (perform (setup_completion 13 "passkey-2") w_setup).2.

Lemma setup_completion_Ok : perform (setup_completion 13 "passkey-2") w_setup = (Ok tt, w_user).
Proof. vm_compute. reflexivity. Qed.

Lemma capability_used_once_witness :
  (perform (setup_completion 13 "passkey-2") w_setup).1 = Ok tt ∧
  ∀ cap w3, PgAuthStore.capability (SecretToken.hash setup_token) Setup 81 w_user ≠ (Ok (Some cap), w3).
Proof.
  split; [exact (f_equal fst setup_completion_Ok)|]. intros cap w3.
  apply (capability_used_once false (SecretToken.hash setup_token) 13 (VerifiedCredential.mk "passkey-2" Null)
    80 (passkey_event usr) w_setup w_user w_user wf_setup setup_completion_Ok (rtc_refl _ _)).
Defined.

(** The operator's session, its token and its row. *)
Definition op_hash : SecretHash := SecretToken.hash (token_at 6).
Definition op_session_id : Uuid := 8.

Lemma op_session : ∃ s, auth_sessions (db w_login) !! op_session_id = Some s ∧
  AuthSession.token_hash s = SecretHash.as_bytes op_hash ∧ AuthSession.absolute_expires_at s = 43200000050.
Proof. eexists. split; [vm_compute; reflexivity|]. by split; vm_compute. Qed.

Lemma session_accepted : ∃ p,
  PgAuthStore.session op_hash 60 1800000060 w_login =
    (Ok (Some p), (PgAuthStore.session op_hash 60 1800000060 w_login).2) ∧
  SessionPrincipal.session_id p = op_session_id.
Proof. eexists. by split; vm_compute. Qed.

Lemma session_exact_witness :
  db_wf (db w_login) ∧ ∃ p k s,
    PgAuthStore.session op_hash 60 1800000060 w_login =
      (Ok (Some p), (PgAuthStore.session op_hash 60 1800000060 w_login).2) ∧
    auth_sessions (db w_login) !! k = Some s ∧ live_session (db w_login) op_hash 60 k s = true.
Proof.
  split; [exact wf_login|]. destruct session_accepted as (p & Hp & _).
  destruct (session_exact op_hash 60 1800000060 w_login wf_login) as [_ H].
  destruct (H _ _ Hp) as [_ (k & s & _ & Hk & Hl & _)].
  exists p, k, s. exact (conj Hp (conj Hk Hl)).
Defined.

Lemma sessions_never_outlive_witness :
  ∃ s, auth_sessions (db w_login) !! op_session_id = Some s ∧ 60 < AuthSession.absolute_expires_at s.
Proof.
  destruct op_session as (s & Hs & _). destruct session_accepted as (p & Hp & Hid).
  exists s. split; [exact Hs|].
  apply (sessions_never_outlive false op_session_id s w_login w_login op_hash 60 1800000060 p _
    wf_login Hs (rtc_refl _ _) Hp Hid).
Defined.

(** The operator asks for a recovery, which is approved: the session of before is cut. *)
Definition w_requested := (perform (CreateRecovery op 90) w_login).2.
Definition w_recovered := (perform (ApproveRecovery 9 op 91) w_requested).2.

Lemma wf_requested : db_wf (db w_requested).
Proof. apply wf_perform; [exact I|apply wf_login]. Qed.
Lemma wf_recovered : db_wf (db w_recovered).
Proof. apply wf_perform; [exact I|apply wf_requested]. Qed.

Lemma recovery_approved : perform (ApproveRecovery 9 op 91) w_requested = (Ok tt, w_recovered).
Proof. vm_compute. reflexivity. Qed.

Lemma operator_row : ∃ u, human_users (db w_requested) !! "operator-1" = Some u.
Proof. eexists. vm_compute. reflexivity. Qed.

Lemma recovery_row : ∃ r, recovery_requests (db w_requested) !! 9 = Some r ∧ Recovery.user_id r = "operator-1".
Proof. eexists. by split; vm_compute. Qed.

Lemma invalidation_cuts_access_witness :
  is_Some (auth_sessions (db w_requested) !! op_session_id) ∧
  ∀ now idle p w3, PgAuthStore.session op_hash now idle w_recovered = (Ok (Some p), w3) →
    UserId.as_str (User.id (SessionPrincipal.user p)) = "operator-1" →
    SessionPrincipal.session_id p ≠ op_session_id.
Proof.
  assert (is_Some (auth_sessions (db w_requested) !! op_session_id)) as Hsome
    by (eexists; vm_compute; reflexivity).
  split; [exact Hsome|]. intros now idle p w3 Hp Hown Hid. destruct operator_row as [u Hu].
  destruct (invalidation_cuts_access false (ApproveRecovery 9 op 91) "operator-1" u w_requested
    w_recovered w_recovered wf_requested I recovery_row Hu recovery_approved (rtc_refl _ _)) as [H _].
  destruct (H _ _ _ _ _ Hp Hown) as [Hnone _]. rewrite Hid in Hnone. rewrite Hnone in Hsome.
  by apply is_Some_None in Hsome.
Defined.

(** ** Witness: the login among other clients

    Between the reading of the account and the end of the login, the operator's recovery is requested
    and approved. *)
Definition busy : Shared := mkShared w_challenge
  [[]; []; [OtherCall (CreateRecovery op 45); OtherCall (ApproveRecovery 6 op 46)]; [Environment 47 []]] [].

Notation busy_login := (@finish_authentication Shared (shared_store false) shared_randomness sample_engine _
  cfg 5 (Num (PosInt 0)) 50 busy).
Definition s_busy : Shared := busy_login.2.

(** What the others had done when the account's recovery was approved. *)
Definition w_asked : World := (PgSafety.perform false (CreateRecovery op 45) w_challenge).2.
Definition w_cut : World := (PgSafety.perform false (ApproveRecovery 6 op 46) w_asked).2.
Definition w_opened : World := (PgSafety.perform false (CompleteAuthentication 5
  (AuthenticationVerification.mk "passkey-1" Null)
  (match busy_login.1 with Ok (grant, _) => SessionGrant.record grant
   | Err _ => SessionRecord.mk 0 op (SecretHash.mk "") (SecretHash.mk "") 0 0 0 end)
  50 (AuditEvent.mk "session.created" (Some op) (Some op) (Object []))) w_cut).2.

Lemma asked_wf : db_wf (db w_asked).
Proof. unfold w_asked. apply wf_after; [by apply perform_safe|apply wf_challenge]. Qed.
Lemma cut_wf : db_wf (db w_cut).
Proof. unfold w_cut. apply wf_after; [by apply perform_safe|apply asked_wf]. Qed.

Lemma opened_later : later (db w_cut) (db (own s_busy)).
Proof.
  assert (db (own s_busy) = db w_opened) as -> by (vm_compute; reflexivity).
  apply (steps_later false); [apply cut_wf|]. apply rtc_once. unfold w_opened.
  match goal with |- step _ _ (PgSafety.perform _ ?c ?w).2 => apply (step_call false c (PgSafety.perform false c w).1) end;
    [exact I|apply surjective_pairing].
Qed.

Lemma busy_Ok : ∃ grant user, busy_login = (Ok (grant, user), s_busy) ∧
  UserId.as_str (User.id user) = "operator-1" ∧ User.auth_epoch user = 1.
Proof. eexists _, _. split; [vm_compute; reflexivity|]. split; reflexivity. Qed.

Lemma login_loses_races_witness :
  ∃ grant user, busy_login = (Ok (grant, user), s_busy) ∧
    ∀ p w4, PgAuthStore.session (SecretToken.hash (SessionGrant.token grant)) 60 2000 (own s_busy)
      ≠ (Ok (Some p), w4).
Proof.
  destruct busy_Ok as (grant & user & Hb & Hid & Hep). exists grant, user. split; [exact Hb|].
  destruct (login_loses_races false cfg 5 (Num (PosInt 0)) 50 busy grant user s_busy wf_challenge
    ltac:(repeat constructor) Hb) as [_ H]. rewrite Hid, Hep in H.
  destruct (H (ApproveRecovery 6 op 46) w_asked
    (HumanUser.mk 0 "ops@example.org" "Operator" "operator" true 1 10 10) w_cut (own s_busy)) as [Hno _].
  - vm_compute. reflexivity.
  - discriminate.
  - eexists. split; vm_compute; reflexivity.
  - vm_compute. reflexivity.
  - exact opened_later.
  - split; [exact (proj1 opened_later)|reflexivity].
  - exact (Hno 60 2000).
Defined.
