(* ===== verification/SessionScenario.v ===== *)
(** * SessionScenario: the witnesses of the sessions' specification

    Concrete hash maps and UUID texts, and short runs of the service over both stores. *)
From S2P Require Export AuthScenario StoreAgreement AuthTests.
From S2P Require Import Instances.

(** ** Concrete interfaces *)

#[local] Instance sample_order : HashOrder := λ _ _ _ _ m, map_to_list m.
#[local] Instance sample_order_laws : HashOrderLaws.
Proof. by intros K V ? ? m. Qed.

(** The hexadecimal digits of a text without its hyphens; only texts that are written so are read. *)
Definition hex_value (c : ascii) : Z :=
  if byte c <? 58 then byte c - 48 else byte c - 87.
Definition hex_number (l : list ascii) : Z := foldl (λ z c, 16 * z + hex_value c) 0 l.
Definition read_uuid (s : string) : option Uuid :=
  let id := hex_number (filter (λ c, c ≠ "-"%char) (bytes s)) in
  if String.eqb (uuid_text id) s then Some id else None.

#[local] Instance sample_uuid_text : UuidText := read_uuid.

Lemma hex_value_char d : 0 ≤ d < 16 → hex_value (hex_char d) = d.
Proof.
  intros Hd. unfold hex_value. rewrite hex_char_byte by done.
  destruct (Z.ltb_spec d 10); [rewrite (proj2 (Z.ltb_lt _ _)) by lia|rewrite (proj2 (Z.ltb_ge _ _)) by lia]; lia.
Qed.

Lemma hex_number_digits n z : hex_number (hex_digits n z) = z mod 16 ^ Z.of_nat n.
Proof.
  revert z. induction n as [|n IH]; intros z; cbn [hex_digits]; [by rewrite Z.mod_1_r|].
  unfold hex_number in *. rewrite foldl_app, IH. simpl. rewrite hex_value_char by (apply Z.mod_pos_bound; lia).
  rewrite Nat2Z.inj_succ, Z.pow_succ_r by lia.
  rewrite Z.rem_mul_r by lia. lia.
Qed.

Lemma hex_char_not_hyphen d : 0 ≤ d < 16 → hex_char d ≠ "-"%char.
Proof.
  intros Hd He. apply (f_equal byte) in He. rewrite hex_char_byte in He by done. change (byte "-") with 45 in He.
  destruct (Z.ltb_spec d 10); lia.
Qed.

Lemma hex_digits_no_hyphen n z : Forall (λ c, c ≠ "-"%char) (hex_digits n z).
Proof.
  revert z. induction n as [|n IH]; intros z; simpl; [constructor|].
  apply Forall_app. split; [apply IH|]. repeat constructor. apply hex_char_not_hyphen, Z.mod_pos_bound. lia.
Qed.

Lemma keep_all {A} (P : A → Prop) `{∀ x, Decision (P x)} l : Forall P l → filter P l = l.
Proof. induction 1; [done|]. rewrite filter_cons_True by done. by f_equal. Qed.

Lemma drop_split {A} n m (l : list A) : drop n l = take m (drop n l) ++ [] ++ drop (n + m) l.
Proof. simpl. by rewrite <- drop_drop, take_drop. Qed.

Lemma hyphenated (ds : list ascii) :
  Forall (λ c, c ≠ "-"%char) ds →
  filter (λ c, c ≠ "-"%char) (take 8 ds ++ ["-"%char] ++ take 4 (drop 8 ds) ++ ["-"%char]
    ++ take 4 (drop 12 ds) ++ ["-"%char] ++ take 4 (drop 16 ds) ++ ["-"%char] ++ drop 20 ds) = ds.
Proof.
  intros Hf. rewrite !filter_app.
  rewrite (keep_all _ (take 8 ds)), (keep_all _ (take 4 (drop 8 ds))), (keep_all _ (take 4 (drop 12 ds))),
    (keep_all _ (take 4 (drop 16 ds))), (keep_all _ (drop 20 ds)) by auto using Forall_take, Forall_drop.
  change (filter (λ c, c ≠ "-"%char) ["-"%char]) with (@nil ascii).
  rewrite <- (drop_split 16 4), <- (drop_split 12 4), <- (drop_split 8 4). apply take_drop.
Qed.

#[local] Instance sample_uuid_text_laws : UuidTextLaws.
Proof.
  intros id Hid. unfold uuid_parse, sample_uuid_text, read_uuid.
  assert (hex_number (filter (λ c, c ≠ "-"%char) (bytes (uuid_text id))) = id) as ->;
    [|by rewrite String.eqb_refl].
  unfold uuid_text. rewrite bytes_from_bytes.
  rewrite hyphenated by apply hex_digits_no_hyphen. rewrite hex_number_digits.
  apply Z.mod_small. exact Hid.
Qed.

(** ** Concrete worlds *)

#[local] Existing Instance sample_entropy.
#[local] Existing Instance sample_engine.

Definition session_token : SecretToken := @token_at sample_entropy 6.
Definition session_csrf : SecretToken := @token_at sample_entropy 7.

(** Over the session of [w_login]: a use, a renewal, a use with the old anti-forgery token, the
    logout, and a use after it. *)
Definition session_calls : list ServiceCall :=
  [ AuthenticateSession session_token (Some session_csrf) 60; IssueSessionCsrf session_token 70;
    AuthenticateSession session_token (Some session_csrf) 80; Logout session_token;
    AuthenticateSession session_token None 90 ].

(** The account and the passkey of the logout test. *)
Definition w_fake : FakeWorld :=
  mkFakeWorld (with_credentials [StoredCredential.mk 9 (UserId.mk "user-1")
    (from_bytes (replicate 32 (char 3))) json_state None] (FakeStore.new (tester 5))) false 0.

Lemma usable_w_fake : usable w_fake.
Proof.
  split; [done|]. constructor; simpl.
  - intros k u [<- <-]%lookup_singleton_Some. done.
  - intros k u [<- <-]%lookup_singleton_Some. done.
  - intros h r. by rewrite lookup_empty.
Qed.

(** A login, a use of its session, the request of a recovery and its approval. *)
Definition login_response : Value := Object [("handle", Str (uuid_text 5))].
Definition fake_calls : list ServiceCall :=
  [ StartAuthentication 10; FinishAuthentication 1 login_response 20;
    AuthenticateSession (@token_at sample_entropy 2) None 30;
    RequestRecovery (UserId.mk "user-1") 40; ApproveRecovery 5 (UserId.mk "user-1") 50 ].

Abbreviation serve_fake := (@serve_all FakeWorld fake_auth_store fake_randomness fake_engine fips_180_4 cfg).

Definition succeeded (a : ServiceAnswer) : bool :=
  match a with
  | Authorised r => is_ok r | Renewed r => is_ok r | LoggedOut r => is_ok r | Challenged r => is_ok r
  | LoggedIn r => is_ok r | Requested r => is_ok r | Approved r => is_ok r | Rotated r => is_ok r
  end.

Example fake_calls_succeed : forallb (λ ca, succeeded ca.2) (serve_fake fake_calls w_fake).1 = true.
Proof. vm_compute. reflexivity. Qed.

(** ** Witnesses *)

Lemma service_refines_spec_witness :
  usable w_fake ∧
  spec_run cfg (spec_of w_fake) (serve_fake fake_calls w_fake).1 (spec_of (serve_fake fake_calls w_fake).2).
Proof.
  split; [apply usable_w_fake|].
  apply (@service_refines_spec FakeWorld _ _ fake_session_store fake_engine _ _ cfg fake_calls w_fake
    (serve_fake fake_calls w_fake).1 (serve_fake fake_calls w_fake).2).
  - apply usable_w_fake.
  - apply surjective_pairing.
Defined.

(** The login of [fake_calls], then its logout. *)
Definition w_logged_in : FakeWorld := (serve_fake (take 2 fake_calls) w_fake).2.
Definition fake_token : SecretToken := @token_at sample_entropy 2.
Abbreviation serve_one := (@serve FakeWorld fake_auth_store fake_randomness fake_engine fips_180_4 cfg).
Definition w_logged_out : FakeWorld := (serve_one (Logout fake_token) w_logged_in).2.
Definition later_calls : list ServiceCall := [StartAuthentication 60; AuthenticateSession fake_token None 70].

Lemma usable_w_logged_in : usable w_logged_in.
Proof.
  apply (@serve_all_run FakeWorld _ _ fake_session_store fake_engine _ _ cfg (take 2 fake_calls) w_fake
    (serve_fake (take 2 fake_calls) w_fake).1 w_logged_in usable_w_fake).
  apply surjective_pairing.
Qed.

Definition opens_some (a : ServiceAnswer) : bool := match a with LoggedIn (Ok _) => true | _ => false end.

Lemma opens_some_false h (l : list (ServiceCall * ServiceAnswer)) :
  existsb (λ ca, opens_some ca.2) l = false → ∀ c a, (c, a) ∈ l → ¬ opens h a.
Proof.
  intros Hl c a Hin Ho. pose proof (proj1 (existsb_none _ _) Hl _ Hin) as Hf. simpl in Hf.
  by destruct a as [| | | |[[]|]| | |].
Qed.

Lemma closed_sessions_are_refused_witness :
  usable w_logged_in ∧ is_Some (sessions (fake_state w_logged_in) !! SecretToken.hash fake_token) ∧
  ∃ a, (AuthenticateSession fake_token None 70, a) ∈ (serve_fake later_calls w_logged_out).1 ∧ refused a.
Proof.
  split; [apply usable_w_logged_in|]. split; [vm_compute; by eexists|].
  assert (∀ c a, (c, a) ∈ (serve_fake later_calls w_logged_out).1 →
    presents (SecretToken.hash fake_token) c → refused a) as Hall.
  { apply (@closed_sessions_are_refused FakeWorld _ _ fake_session_store fake_engine _ _ cfg w_logged_in
      (Logout fake_token) (serve_one (Logout fake_token) w_logged_in).1 w_logged_out later_calls
      (serve_fake later_calls w_logged_out).1 (serve_fake later_calls w_logged_out).2).
    - apply usable_w_logged_in.
    - apply surjective_pairing.
    - reflexivity.
    - apply surjective_pairing.
    - apply opens_some_false. vm_compute. reflexivity. }
  exists (Authorised (Err Unauthenticated)).
  assert ((AuthenticateSession fake_token None 70, Authorised (Err Unauthenticated))
    ∈ (serve_fake later_calls w_logged_out).1) as Hin.
  { apply list_elem_of_lookup. exists 1%nat. vm_compute. reflexivity. }
  split; [exact Hin|]. apply (Hall _ _ Hin). reflexivity.
Defined.

Lemma all_enabled_login : all_enabled (db w_login).
Proof.
  assert (forallb (λ kv, HumanUser.enabled kv.2) (map_to_list (human_users (db w_login))) = true) as Hf
    by (vm_compute; reflexivity).
  intros k u Hk. rewrite forallb_elem in Hf.
  apply (Hf (k, u)). by apply elem_of_map_to_list.
Qed.

Lemma fake_mirrors_postgres_witness :
  db_wf (db w_login) ∧ calm w_login ∧ all_enabled (db w_login) ∧
  (@serve_all World (pg_auth_store false) world_randomness sample_engine _ cfg session_calls w_login).1 =
  (@serve_all FakeWorld fake_auth_store fake_randomness sample_engine _ cfg session_calls (mirror w_login)).1.
Proof.
  assert (calm w_login) as Hc by (vm_compute; reflexivity).
  split; [apply wf_login|]. split; [exact Hc|]. split; [apply all_enabled_login|].
  apply (fake_mirrors_postgres false cfg session_calls w_login wf_login Hc all_enabled_login).
  reflexivity.
Defined.

Example session_calls_answers :
  (λ ca : ServiceCall * ServiceAnswer, succeeded ca.2) <$>
    (@serve_all World (pg_auth_store false) world_randomness sample_engine _ cfg session_calls w_login).1 =
  [true; true; false; true; false].
Proof. vm_compute. reflexivity. Qed.
