(* ===== verification/ServerScenario.v ===== *)
(** * ServerScenario: witnesses of the properties of the server

    Concrete headers (a list of names and values), a clock that ticks with every draw, a toy
    WebAuthn library, and the history of [AuthScenario.v]. *)
From S2P Require Export ServerTests AuthScenario.
From S2P Require Import RequestsAtOnce Shutdown.
From S2P Require Import Instances.

#[local] Existing Instance sample_entropy.
#[local] Existing Instance sample_engine.

Definition Headers : Type := list (string * string).

#[local] Instance sample_http : HttpTypes Headers string := {
  header_get h name := snd <$> find (λ p, String.eqb p.1 name) h;
  header_to_str v := Some v;
  header_from_str s := if forallb visible_char (bytes s) then Some s else None;
  header_from_static s := s;
  canonical_reason _ := Some "reason";
}.

#[local] Instance sample_http_laws : HttpTypesLaws Headers string.
Proof. intros s Hs. exists s. simpl. by rewrite Hs. Qed.

#[local] Instance sample_instants : Instants := λ n, 10 * Z.of_nat n.
#[local] Instance sample_chrono : ChronoText := pretty.

#[local] Instance sample_entropy_laws : EntropyLaws (H := sample_entropy).
Proof. intros n. reflexivity. Qed.

#[local] Instance sample_store : AuthStore World := pg_auth_store false.

Definition origin : string := "https://console.example".
Definition json_headers : Headers := [("origin", origin); ("content-type", "application/json")].

(** A login attempt from another site: refused, and the world is as it was. *)
Lemma cross_site_requests_change_nothing_witness :
  ∃ response, Handlers.serve cfg origin public_router
      [("origin", "https://evil.example"); ("content-type", "application/json")] LoginStart w_login =
      (response, w_login).
Proof.
  destruct (cross_site_requests_change_nothing cfg origin public_router
    [("origin", "https://evil.example"); ("content-type", "application/json")] LoginStart w_login)
    as (response & Hr & _).
  - reflexivity.
  - intros [Ho _]. vm_compute in Ho. discriminate Ho.
  - exists response. exact Hr.
Defined.

(** A header with a cookie of another site part before the session's. *)
Lemma cookie_value_exact_witness :
  Handlers.cookie_value ([("cookie", "theme=dark;  __Host-rs_session=abc ; x")] : Headers) SESSION_COOKIE =
    Some "abc".
Proof.
  apply (proj2 (proj1 (cookie_value_exact ([("cookie", "theme=dark;  __Host-rs_session=abc ; x")] : Headers)
    SESSION_COOKIE) "abc")).
  exists "theme=dark;  __Host-rs_session=abc ; x", ["theme=dark"], ["x"].
  split; [reflexivity|]. split.
  - exists ["theme=dark"; "  __Host-rs_session=abc "; " x"]. split; [discriminate|]. split.
    + apply (bool_decide_unpack _). vm_compute. exact I.
    + split; reflexivity.
  - intros value' Hin. apply list_elem_of_singleton in Hin. discriminate Hin.
Defined.

(** The operator lists the pending recoveries with the session of [w_login]. *)
Definition operator_headers : Headers :=
  [("cookie", "theme=dark; __Host-rs_session=" +:+ SecretToken.expose (token_at 6))].

Lemma recoveries_listed :
  Response.status (Handlers.serve cfg origin private_router operator_headers RecoveriesPending w_login).1 =
    StatusCode.OK.
Proof. vm_compute. reflexivity. Qed.

Lemma operator_routes_guarded_witness :
  operator_request RecoveriesPending = true ∧
  authorised (db w_login) (instant_at (drawn w_login)) operator_headers false.
Proof.
  split; [reflexivity|].
  destruct (operator_routes_guarded false cfg origin RecoveriesPending operator_headers w_login wf_login
    eq_refl) as [_ H].
  destruct (H _ _ (surjective_pairing _)) as [[Ha _]|[Hs _]]; [exact Ha|].
  exfalso. pose proof recoveries_listed as Hok. unfold StatusCode.OK in Hok.
  apply (Z.lt_irrefl 400). eapply Z.le_lt_trans; [exact Hs|].
  refine (eq_ind_r (λ z, z < 400) _ Hok). reflexivity.
Defined.

Definition login_request : CeremonyFinish.t := CeremonyFinish.mk 5 (Num (PosInt 0)) None.

Notation logged_in := (Handlers.handle cfg origin json_headers (LoginFinish login_request) w_challenge).
Definition w_session := logged_in.2.

Lemma logged_in_Ok : ∃ response, logged_in = (Ok response, w_session) ∧ calm w_session.
Proof. eexists. split; vm_compute; reflexivity. Qed.

Lemma login_logout_lifecycle_witness :
  ∃ response cookie csrf, logged_in = (Ok response, w_session) ∧
    (∃ v, ("set-cookie", v) ∈ Response.headers response ∧ header_to_str v = Some (SESSION_COOKIE +:+ "=" +:+
       cookie +:+ "; Path=/; Secure; HttpOnly; SameSite=Strict")) ∧
    ∃ answer w2, Handlers.handle cfg origin
      (json_headers ++ [("cookie", SESSION_COOKIE +:+ "=" +:+ cookie); (CSRF_HEADER, csrf)]) Logout w_session =
      (Ok answer, w2).
Proof.
  destruct logged_in_Ok as (response & Hl & Hc).
  destruct (login_logout_lifecycle false cfg origin json_headers login_request w_challenge response w_session
    wf_challenge Hl Hc ltac:(vm_compute; reflexivity) ltac:(vm_compute; reflexivity))
    as (cookie & csrf & Hset & _ & H).
  exists response, cookie, csrf. split; [exact Hl|]. split; [exact Hset|].
  destruct (H (json_headers ++ [("cookie", SESSION_COOKIE +:+ "=" +:+ cookie); (CSRF_HEADER, csrf)]) eq_refl)
    as [_ Hout].
  destruct (Hout eq_refl eq_refl eq_refl) as (answer & w2 & Ho & _). exists answer, w2. exact Ho.
Defined.

(** ** The engine over a toy library: a passkey is its identifier *)

#[local] Instance sample_url : UrlLib := {
  Url := string;
  url_parse s := if String.eqb s "*" then None else Some s;
  url_path u := if String.eqb u "http://localhost:4321/platform" then "/platform" else "/";
  url_query _ := None;
  url_fragment _ := None;
}.

Definition text_of (v : Value) : option string := match v with Str s => Some s | _ => None end.

#[local] Instance sample_webauthn : WebauthnLib := {
  WebauthnBuilder := unit;
  Webauthn := unit;
  Passkey := string;
  PasskeyRegistration := string;
  DiscoverableKey := string;
  DiscoverableAuthentication := string;
  RegisterPublicKeyCredential := string;
  PublicKeyCredential := Z;
  AuthenticationResult := string;
  builder_new _ _ := Some tt;
  rp_name b _ := b;
  build b := Some b;
  passkey_cred_id p := p;
  passkey_from_value := text_of;
  passkey_to_value p := Some (Str p);
  registration_from_value := text_of;
  registration_to_value s := Some (Str s);
  authentication_from_value := text_of;
  authentication_to_value s := Some (Str s);
  register_response_from_value := text_of;
  credential_response_from_value v := match v with Num (PosInt n) => Some n | _ => None end;
  start_passkey_registration _ _ _ _ _ _ :=
    Some (Some (Object [("publicKey", Object [("authenticatorSelection", Object [])])]), "state");
  finish_passkey_registration _ response _ := Some response;
  start_discoverable_authentication _ _ := Some (Some (Str "challenge"), "state");
  identify_discoverable_authentication _ handle := Some (handle, "");
  discoverable_key p := p;
  finish_discoverable_authentication _ _ _ keys := head keys;
  result_cred_id r := r;
  update_credential p _ := Some p;
}.

(** The registration challenge the toy library makes, with the resident key required. *)
Example challenge_requires_resident_key :
  fst <$> ok (WebauthnEngine.start_registration tt 0%nat sample_operator []) =
  Some (Object [("publicKey", Object [("authenticatorSelection",
    Object [("requireResidentKey", Bool true); ("residentKey", Str "required")])])]).
Proof. vm_compute. reflexivity. Qed.

(** The unit tests of the server, with these libraries. *)
#[local] Instance sample_header_build : HeaderMapBuild Headers string := {
  header_new := [];
  header_insert name v h := (name, v) :: h;
}.

#[local] Instance sample_header_laws : HeaderMapLaws Headers string.
Proof. split; [done| |done]. intros name v h name'. simpl. by destruct (String.eqb name name'). Qed.

#[local] Instance sample_site_laws : SiteLaws.
Proof.
  split; [by eexists _, tt, tt|by eexists _, tt, tt|by intros url [= <-]|done|].
  intros. by eexists _, _, _, _, _, _.
Qed.

Lemma server_tests_run :
  passes (HttpTests.mutating_routes_reject_wrong_origin_before_work (HM := Headers)) w_login ∧
  passes (WebauthnTests.registration_requires_discoverable_user_verifying_credentials 7 0%nat) tt.
Proof. by destruct (server_tests_pass (HM := Headers) w_login 7 0%nat) as (_ & _ & _ & ? & _ & _ & _ & ?). Qed.

#[local] Remove Hints sample_engine : typeclass_instances.
#[local] Instance real_engine : CeremonyEngine := webauthn_engine tt.

Definition v_bootstrap := (start_operator_bootstrap cfg 20 w_seeded).2.
Definition v_registered := (finish_registration 2 OperatorBootstrap (Str "passkey-1") 30 v_bootstrap).2.
Definition v_challenge := (start_authentication cfg 40 v_registered).2.
Notation verified_login := (finish_authentication cfg 5 (Num (PosInt 0)) 50 v_challenge).

Lemma wf_v_challenge : db_wf (db v_challenge).
Proof.
  apply wf_after; [apply start_authentication_safe|].
  apply wf_after; [apply finish_registration_safe|].
  apply wf_after; [apply start_operator_bootstrap_safe|apply wf_seeded].
Qed.

Lemma verified_login_Ok : ∃ grant user w1, verified_login = (Ok (grant, user), w1).
Proof. eexists _, _, _. vm_compute. reflexivity. Qed.

Lemma login_is_verified_witness :
  is_ok verified_login.1 = true ∧ ∃ found k cr,
    passkey_credentials (db v_challenge) !! k = Some cr ∧ PasskeyCredential.credential_id cr = found.
Proof.
  destruct verified_login_Ok as (grant & user & w1 & Hl).
  destruct (login_is_verified (H := sample_url) (H0 := sample_webauthn) false tt cfg 5 (Num (PosInt 0)) 50 v_challenge grant user w1 wf_v_challenge Hl)
    as (c & parsed & state & passkeys & found & hid & _ & _ & _ & _ & _ & _ & _ & _ & _ & _ &
        k & cr & (Hk & _) & Hid).
  split; [exact (f_equal (λ r, is_ok r.1) Hl)|]. exists found, k, cr. exact (conj Hk Hid).
Defined.

(** ** Commands *)

Definition glass_args (enabled : bool) : BreakGlassArgs.t :=
  BreakGlassArgs.mk enabled "operator-1" 3 "lost the only device" 10 "INVALIDATE OPERATOR AUTH".

Lemma commands_guarded_witness :
  ∃ text, Commands.run "postgres://db" (BreakGlassCommand (glass_args false)) w_login =
    (Err (Message text), w_login).
Proof. exact (commands_guarded "postgres://db" (BreakGlassCommand (glass_args false)) w_login eq_refl). Defined.

Definition w_glass := (Commands.run "postgres://db" (BreakGlassCommand (glass_args true)) w_login).2.

Lemma glass_command_Ok :
  Commands.run "postgres://db" (BreakGlassCommand (glass_args true)) w_login = (Ok Finished, w_glass).
Proof. vm_compute. reflexivity. Qed.

Lemma break_glass_command_bounded_witness :
  (Commands.run "postgres://db" (BreakGlassCommand (glass_args true)) w_login).1 = Ok Finished ∧
  ∃ id cap, auth_capabilities (db w_glass) !! id = Some cap ∧ AuthCapability.user_id cap = "operator-1".
Proof.
  destruct (break_glass_command_bounded false "postgres://db" (glass_args true) w_login Finished w_glass
    glass_command_Ok) as (now & id & cr & cap & o & _ & _ & _ & _ & _ & _ & _ & Hcap & Hu & _).
  split; [exact (f_equal fst glass_command_Ok)|]. exists id, cap. exact (conj Hcap Hu).
Defined.

(** ** The server *)

Definition serve_args : ServeArgs.t :=
  ServeArgs.mk (mkSocketAddr [0; 0; 0; 0] 8080 0 0) (mkSocketAddr [0; 0; 0; 0] 8081 0 0) "ricardosaad.com"
    "https://ricardosaad.com" "production" 10.

Definition server_state : AppState.t := AppState.mk _ _ tt AuthConfig.default "https://ricardosaad.com".

(** The operator logs in on the public listener and approves an account on the private one. *)
Definition site_headers : Headers :=
  [("origin", "https://ricardosaad.com"); ("content-type", "application/json")].

Notation ask := (Handlers.serve AuthConfig.default "https://ricardosaad.com").
Definition w_started := (Commands.run "postgres://db" (ServeCommand serve_args) v_registered).2.
Definition login_end : request := LoginFinish (CeremonyFinish.mk 6 (Num (PosInt 0)) None).
Definition approval : request := UserApproval (ApproveUserBody.mk "user-7" "seven@example.org" "Seven").
Definition approval_headers : Headers := site_headers ++
  [("cookie", SESSION_COOKIE +:+ "=" +:+ SecretToken.expose (token_at 8));
   (CSRF_HEADER, SecretToken.expose (token_at 9))].

Definition s_start := ask public_router site_headers LoginStart w_started.
Definition s_login := ask public_router site_headers login_end s_start.2.
Definition s_approval := ask private_router approval_headers approval s_login.2.

(** Conversion unfolds these names before it runs the server. *)
#[local] Strategy expand [s_start s_login s_approval].

Definition day : list (Exchange (HM := Headers) (HV := string)) :=
  [mkExchange PublicListener site_headers LoginStart w_started s_start.1;
   mkExchange PublicListener site_headers login_end s_start.2 s_login.1;
   mkExchange PrivateListener approval_headers approval s_login.2 s_approval.1].

Lemma day_served : served (H2 := real_engine) false AuthConfig.default "https://ricardosaad.com"
  w_started day s_approval.2.
Proof.
  pose (step l h r w trace := served_request (H2 := real_engine) false AuthConfig.default
    "https://ricardosaad.com" w l h r _ _ trace s_approval.2 (surjective_pairing (ask (router_of l) h r w))).
  exact (step PublicListener site_headers LoginStart w_started _
    (step PublicListener site_headers login_end s_start.2 _
      (step PrivateListener approval_headers approval s_login.2 _
        (served_none (H2 := real_engine) false AuthConfig.default "https://ricardosaad.com" s_approval.2)))).
Qed.

Lemma wf_started : db_wf (db w_started).
Proof.
  unfold w_started.
  assert (db (Commands.run "postgres://db" (ServeCommand serve_args) v_registered).2 = db v_registered) as ->
    by (vm_compute; reflexivity).
  apply wf_after; [apply finish_registration_safe|].
  apply wf_after; [apply start_operator_bootstrap_safe|apply wf_seeded].
Qed.

Lemma served_state :
  Commands.run "postgres://db" (ServeCommand serve_args) v_registered = (Ok (Serving server_state), w_started).
Proof. vm_compute. reflexivity. Qed.

Lemma day_creates : accounts (authority (db s_approval.2)) !! "user-7" ≠ None ∧
  accounts (authority (db w_started)) !! "user-7" = None.
Proof. split; vm_compute; [discriminate|reflexivity]. Qed.

Lemma day_decides : authority (db s_approval.2) ≠ authority (db w_started).
Proof. destruct day_creates as [Hs Hn]. intros He. apply Hs. by rewrite He. Qed.

Lemma privilege_needs_operator_witness :
  authority (db s_approval.2) ≠ authority (db w_started) ∧
  ∃ x, x ∈ day ∧ listener x = PrivateListener ∧ operator_decision (asked x) = true.
Proof.
  split; [exact day_decides|].
  destruct (privilege_needs_operator (H2 := sample_url) (H3 := sample_webauthn) false "postgres://db" serve_args v_registered server_state w_started w_started day
    s_approval.2 served_state wf_started day_served) as (_ & _ & H).
  destruct (H day_decides) as (x & Hx & Hl & Hd & _). exists x. exact (conj Hx (conj Hl Hd)).
Defined.

(** ** Requests at once

    While the operator approves an account in one tab, another logs out: the session is revoked
    between its check and the approval, which goes through. *)
Definition session_hash : SecretHash := SecretToken.hash (token_at 8).
Definition others_check : Event :=
  OtherCall (GetSession session_hash (instant_at 11) (instant_at 11 + AuthConfig.session_idle_ttl AuthConfig.default)).
Definition v_approval : Visit := mkVisit PrivateListener approval_headers approval
  (mkShared s_login.2 [[]; [others_check; OtherCall (DeleteSession session_hash)]] []).
Definition v_logout : Visit := mkVisit PublicListener approval_headers Logout
  (mkShared s_login.2 [[others_check]] []).
Definition tabs : list Visit := [v_approval; v_logout].

Abbreviation visit_calls v := (performed (course_of_visit (H2 := real_engine) false AuthConfig.default
  "https://ricardosaad.com" v).2).

(** The calls of the two requests, as they were made. *)
Definition call_at (v : Visit) (n : nat) : Db * Db := default (db w_started, db w_started) (visit_calls v !! n).
Definition tab_calls : list Call :=
  [(Visitor 0, call_at v_approval 0); (Visitor 1, call_at v_logout 0); (Visitor 1, call_at v_logout 1);
   (Visitor 0, call_at v_approval 1); (Visitor 0, call_at v_approval 2)].

#[local] Strategy expand [v_approval v_logout tabs tab_calls].

Lemma chain_link d who ba l d' : ba.1 = d → chain ba.2 l d' → chain d ((who, ba) :: l) d'.
Proof. destruct ba as [b a]. simpl. intros -> Hc. constructor. exact Hc. Qed.

Lemma tabs_chain : chain (db s_login.2) tab_calls (call_at v_approval 2).2.
Proof.
  repeat (apply chain_link; [vm_compute; reflexivity|]). apply chain_none.
Qed.

(** Looking up the first entries gives the list back. *)
Lemma listed {A} (x : A) l n : length l = n → map (λ k, default x (l !! k)) (seq 0 n) = l.
Proof.
  intros <-. apply list_eq. intros k. rewrite list_lookup_fmap. destruct (decide (k < length l)%nat) as [Hk|Hk].
  - rewrite lookup_seq_lt by exact Hk. simpl. apply lookup_lt_is_Some in Hk as [y ->]. reflexivity.
  - rewrite lookup_seq_ge by lia. symmetry. apply lookup_ge_None. lia.
Qed.

Definition from_tab (c : Call) : bool := match c.1 with Visitor i => (i <? 2)%nat | Maintenance => false end.

Lemma tabs_only c : c ∈ tab_calls → from_tab c = true.
Proof.
  assert (forallb from_tab tab_calls = true) as H by reflexivity. rewrite forallb_elem in H. exact (H c).
Qed.

Lemma tabs_at_once : at_once (H2 := real_engine) false AuthConfig.default "https://ricardosaad.com"
  tabs (db s_login.2) tab_calls (call_at v_approval 2).2.
Proof.
  split.
  - exact tabs_chain.
  - intros i ba Hin. apply tabs_only in Hin. destruct i as [|[|i]]; [eexists; reflexivity..|discriminate Hin].
  - intros [|[|i]] v Hv; [injection Hv as <-|injection Hv as <-|discriminate Hv].
    all: split; [repeat constructor|]; split; [reflexivity|].
    all: split; [|exists []; split; [apply prefix_nil|]; split; [reflexivity|]; apply chain_none].
    + exists []. rewrite app_nil_r. symmetry. transitivity (map (call_at v_approval) (seq 0 3)); [reflexivity|].
      apply listed. vm_compute. reflexivity.
    + exists []. rewrite app_nil_r. symmetry. transitivity (map (call_at v_logout) (seq 0 2)); [reflexivity|].
      apply listed. vm_compute. reflexivity.
  - intros b a Hin. apply tabs_only in Hin. discriminate Hin.
Qed.

Lemma wf_s_login : db_wf (db s_login.2).
Proof.
  eapply (serve_wf false); [|exact (surjective_pairing s_login)].
  eapply (serve_wf false); [|exact (surjective_pairing s_start)]. exact wf_started.
Qed.

Lemma tabs_decide : authority (call_at v_approval 2).2 ≠ authority (db s_login.2).
Proof.
  assert (accounts (authority (call_at v_approval 2).2) !! "user-7" ≠ None ∧
    accounts (authority (db s_login.2)) !! "user-7" = None) as [Hs Hn] by (split; vm_compute; [discriminate|reflexivity]).
  intros He. apply Hs. rewrite He. exact Hn.
Qed.

(** Every session is revoked when the approval is decided. *)
Lemma tab_logged_out :
  forallb (λ p, negb (is_null (AuthSession.revoked_at p.2))) (map_to_list (auth_sessions (call_at v_approval 2).1)) = true.
Proof. vm_compute. reflexivity. Qed.


(** ** The end of the server

    SIGTERM arrives at 5; the public listener needs 1 to drain, the private one 3. *)
Definition join_results (a b : Future (result unit string)) : Future (result unit string) :=
  match a, b with
  | Some (ta, Ok _), Some (tb, Ok _) => Some (ta `max` tb, Ok tt)%nat
  | Some (ta, Err e), Some (tb, Err e') => if (ta <=? tb)%nat then Some (ta, Err e) else Some (tb, Err e')
  | Some (ta, Err e), _ => Some (ta, Err e)
  | _, Some (tb, Err e) => Some (tb, Err e)
  | _, _ => None
  end.

#[local] Instance sample_runtime : AsyncRuntime := {
  IoError := string;
  RecvError := unit;
  Signal := unit;
  ctrl_c := None;
  signal_terminate := Ok tt;
  signal_recv _ := Some (5%nat, Some tt);
  select_either a b := (λ t, (t, tt)) <$> earliest (completed a) (completed b);
  try_join := join_results;
  receiver_recv f := awaited f (λ _, Ok tt);
  serve_gracefully l f :=
    (λ '(t, _), ((t + match l with PublicListener => 1 | PrivateListener => 3 end)%nat, Ok tt)) <$> f;
}.

#[local] Instance sample_runtime_laws : AsyncRuntimeLaws.
Proof.
  split.
  - intros a b. simpl. unfold completed at 1. rewrite <- option_fmap_compose. apply option_fmap_id.
  - intros a b t. simpl. split.
    + destruct a as [[ta [[]|]]|], b as [[tb [[]|]]|]; simpl; try discriminate.
      * intros [= <-]. eauto.
      * destruct (ta <=? tb)%nat; discriminate.
    + intros (ta & tb & -> & -> & ->). reflexivity.
  - intros a b t e. simpl. destruct a as [[ta [[]|]]|], b as [[tb [[]|]]|]; simpl; try discriminate; auto.
    destruct (ta <=? tb)%nat; auto.
  - intros f. apply completed_awaited.
  - intros l f t r. simpl. destruct f as [[t0 []]|]; [|discriminate]. intros [= <- <-].
    split; [reflexivity|]. exists t0. split; [reflexivity|]. destruct l; lia.
Qed.

Lemma server_stops_on_signal_witness :
  Signals.serve_listeners = Some (8%nat, Ok tt) ∧ ∃ t0, (t0 ≤ 8)%nat ∧ stop_at t0.
Proof.
  split; [reflexivity|].
  destruct server_stops_on_signal as [H _]. destruct (H 8%nat (Ok tt) eq_refl) as (_ & t0 & Hle & Hs & _).
  exists t0. exact (conj Hle Hs).
Defined.
