(* ===== verification/ConcurrentScenario.v ===== *)
(** * ConcurrentScenario: one concurrent history, and the witnesses of its properties

    An operator is seeded.  Two bootstraps are completed at once; the second waits for the advisory
    lock, until the first has committed and someone has broken the glass.  A login runs
    between the statements of a rotation of all epochs, and a session check holds its row while a
    logout waits. *)
From S2P Require Export ConcurrentBootstrap ConcurrentSessions ConcurrentLive SerialRuns.

#[local] Existing Instance sample_entropy.

(** The driver decodes [INT4] here. *)
Notation run := (run true).
Notation moves := (moves true).

Definition from (σ : Server) (ms : list move) : Server := default σ (run σ ms).
Definition goes (σ : Server) (ms : list move) : bool := match run σ ms with Some _ => true | None => false end.

Lemma run_from σ ms : goes σ ms = true → run σ ms = Some (from σ ms).
Proof. unfold goes, from. by destruct (run σ ms). Qed.

Lemma run_then σ ms ms' :
  goes σ ms = true → goes (from σ ms) ms' = true → run σ (ms ++ ms') = Some (from (from σ ms) ms').
Proof. intros H1 H2. rewrite run_app, (run_from _ _ H1). simpl. by apply run_from. Qed.

Lemma move_from σ m : goes σ [m] = true → moves σ m = Some (from σ [m]).
Proof. unfold goes, from. simpl. by destruct (moves σ m). Qed.

(** What is known of a client, without its script. *)
Lemma fmap_client {A} σ i c (f : Client → A) a :
  clients σ !! i = Some c → f <$> clients σ !! i = Some a → f c = a.
Proof. intros ->. by intros [= ->]. Qed.

Definition statements (i n : nat) : list move := replicate n (Statement i 0).

(** ** Data *)

Definition op : UserId := UserId.mk "operator-1".
Definition secret (n : Z) : SecretHash := SecretHash.mk (from_bytes (replicate 32 (char n))).
Definition event : AuditEvent := AuditEvent.mk "event" None (Some op) Null.
Definition bootstrap_ceremony (id : Uuid) : Ceremony :=
  Ceremony.mk id OperatorBootstrap (Some op) None Null 1000.
Definition login_ceremony (id : Uuid) : Ceremony := Ceremony.mk id Authentication None None Null 1000.
Definition registration (id : Uuid) (passkey : string) : store_call :=
  CompleteRegistration id None (VerifiedCredential.mk passkey Null) 30 event.
Definition glass : store_call :=
  BreakGlass 201 (Capability.mk 301 op OperatorRecoveryPurpose (secret 1) 1000) 60 "lost passkey".
Definition login_call : store_call :=
  CompleteAuthentication 103 (AuthenticationVerification.mk "passkey-1" Null)
    (SessionRecord.mk 401 op (secret 2) (secret 3) 1 500 900) 40 event.

(** ** The history *)

Definition seeding : list move :=
  Begin 0 (InsertUser sample_operator 10 seeded_event) :: statements 0 2 ++ [Committing 0].

(** The first bootstrap is about to commit, the second waits. *)
Definition two_bootstraps : list move :=
  seeding ++ [Single (InsertCeremony (bootstrap_ceremony 101)) 0 20;
    Begin 1 (registration 101 "passkey-1"); Acquire 1; Begin 2 (registration 102 "passkey-2")]
  ++ statements 1 2 ++ [Drawn 1 201] ++ statements 1 3.

Definition σ_first : Server := from (idle empty_db) two_bootstraps.
Definition σ_registered : Server := from σ_first [Committing 1].

(** The glass is broken, another ceremony starts, and the second bootstrap goes on. *)
Definition breaking : list move :=
  (Begin 3 glass :: statements 3 7) ++ [Committing 3; Single (InsertCeremony (bootstrap_ceremony 102)) 0 70; Acquire 2]
  ++ statements 2 2 ++ [Drawn 2 202] ++ statements 2 3.

Definition σ_second : Server := from σ_registered breaking.

Example second_bootstrap_waits : moves σ_first (Acquire 2) = None.
Proof. vm_compute. reflexivity. Qed.

(** Decides whether a transaction completes an operator's bootstrap. *)
Definition bootstrapping_dec (σ : Server) (i : nat) : bool :=
  match clients σ !! i with
  | Some c =>
      match call_of c with
      | CompleteRegistration id _ _ _ _ =>
          match auth_ceremonies (published σ) !! id with
          | Some row =>
              String.eqb (AuthCeremony.kind row) "operator_bootstrap" &&
              match AuthCeremony.user_id row with
              | Some user => match human_users (published σ) !! user with Some u => row_is_operator u | None => false end
              | None => false
              end
          | None => false
          end
      | _ => false
      end
  | None => false
  end.

Lemma bootstrapping_decided σ i : bootstrapping_dec σ i = true → bootstrapping σ i.
Proof.
  unfold bootstrapping_dec, bootstrapping. intros Hb. destruct (clients σ !! i) as [c|] eqn:Hc; [|done].
  destruct (call_of c) as [| | | | | | | | | | | | |id hash v now audit| | | | | | | | |] eqn:Hcall; try done.
  destruct (auth_ceremonies _ !! id) as [row|] eqn:Hrow; [|done]. apply andb_true_iff in Hb as [Hk%String.eqb_eq Hb].
  destruct (AuthCeremony.user_id row) as [user|] eqn:Hu; [|done].
  destruct (human_users _ !! user) as [u|] eqn:Hus; [|done].
  exists c, id, hash, v, now, audit, row, user, u. done.
Qed.

Lemma bootstraps_exclude_witness :
  bootstrapping σ_first 1 ∧ bootstrapping σ_second 2 ∧
  no_active_operator (published σ_first) ∧ ¬ no_active_operator (published σ_registered) ∧
  ∃ l c, committed σ_second = committed σ_registered ++ l ∧ c ∈ l ∧ breaks_glass c = true.
Proof.
  assert (bootstrapping σ_first 1) as H1 by (apply bootstrapping_decided; vm_compute; reflexivity).
  assert (bootstrapping σ_second 2) as H2 by (apply bootstrapping_decided; vm_compute; reflexivity).
  split; [exact H1|]. split; [exact H2|].
  apply (bootstraps_exclude true empty_db two_bootstraps σ_first 1 σ_registered breaking σ_second 2
           (from σ_second [Committing 2])).
  - apply empty_db_wf.
  - apply run_from. vm_compute. reflexivity.
  - apply move_from. vm_compute. reflexivity.
  - exact H1.
  - apply run_from. vm_compute. reflexivity.
  - apply move_from. vm_compute. reflexivity.
  - exact H2.
Defined.

Lemma concurrent_schema_and_history_witness :
  goes σ_first (Committing 1 :: breaking) = true ∧
  db_wf (published σ_second) ∧ evolves (published σ_first) (published σ_second) ∧
  length (auth_audit_events (published σ_second)) = 3%nat ∧
  ∃ c, clients σ_second !! 2%nat = Some c ∧ db_wf (over (published σ_second) (writes c)).
Proof.
  assert (goes σ_first (Committing 1 :: breaking) = true) as Hg by (vm_compute; reflexivity).
  destruct (concurrent_schema_and_history true empty_db two_bootstraps σ_first (Committing 1 :: breaking) σ_second)
    as (Hw & He & Hc); [apply empty_db_wf|apply run_from; vm_compute; reflexivity| |].
  { apply (run_then σ_first [Committing 1] breaking); vm_compute; reflexivity. }
  split; [exact Hg|]. split; [exact Hw|]. split; [exact He|]. split; [vm_compute; reflexivity|].
  destruct (clients σ_second !! 2%nat) as [c|] eqn:Hi; [|vm_compute in Hi; discriminate].
  exists c. split; [reflexivity|]. by destruct (Hc 2%nat c Hi).
Defined.

Lemma concurrent_one_use_witness :
  used σ_second = [OfCeremony 101; OfCredential 201] ∧ NoDup (used σ_second) ∧
  spent (published σ_second) (OfCeremony 101).
Proof.
  destruct (concurrent_one_use true empty_db (two_bootstraps ++ Committing 1 :: breaking) σ_second) as [Hn Hs].
  - apply empty_db_wf.
  - change (two_bootstraps ++ Committing 1 :: breaking) with (two_bootstraps ++ [Committing 1] ++ breaking).
    rewrite app_assoc, run_app, (run_then _ two_bootstraps [Committing 1]) by (vm_compute; reflexivity).
    apply (run_from σ_registered). vm_compute. reflexivity.
  - assert (used σ_second = [OfCeremony 101; OfCredential 201]) as Hu by (vm_compute; reflexivity).
    split; [exact Hu|]. split; [exact Hn|]. apply Hs. rewrite Hu. apply list_elem_of_here.
Defined.

(** *** A login between the statements of a rotation *)

(** The rotation has raised the epochs and revoked the sessions it saw; the login commits; the rotation
    is about to. *)
Definition rotating : list move :=
  Committing 1 :: Single (InsertCeremony (login_ceremony 103)) 0 35 ::
  Begin 5 (RotateAllAuthEpochs 45 "drill") :: statements 5 2 ++
  (Begin 4 login_call :: statements 4 4) ++ [Committing 4] ++ statements 5 3.

Definition σ_rotating : Server := from σ_first rotating.
Definition σ_rotated : Server := from σ_rotating [Committing 5].

Lemma rotating_run : run (idle empty_db) (two_bootstraps ++ rotating) = Some σ_rotating.
Proof.
  apply (run_then _ two_bootstraps rotating); vm_compute; reflexivity.
Qed.

(** The session is published, not revoked and not expired, and dead. *)
Lemma concurrent_invalidation_witness :
  ∃ s, auth_sessions (published σ_rotated) !! 401 = Some s ∧ AuthSession.revoked_at s = None ∧
    live_session (published σ_rotating) (secret 2) 50 401 s = true ∧
    live_session (published σ_rotated) (secret 2) 50 401 s = false.
Proof.
  destruct (clients σ_rotating !! 5%nat) as [c|] eqn:Hi; [|vm_compute in Hi; discriminate].
  assert (call_of c = RotateAllAuthEpochs 45 "drill") as Hcall.
  { apply (fmap_client _ _ _ call_of _ Hi). vm_compute. reflexivity. }
  assert (is_Some (human_users (began c) !! "operator-1")) as Hex.
  { apply (bool_decide_eq_true_1 _).
    apply (fmap_client _ _ _ (λ c, bool_decide (is_Some (human_users (began c) !! "operator-1"))) _ Hi).
    vm_compute. reflexivity. }
  destruct (concurrent_invalidation true empty_db (two_bootstraps ++ rotating) σ_rotating 5 c "operator-1" σ_rotated)
    as (u & u' & Hu & _ & _ & Hdead).
  - apply empty_db_wf.
  - exact rotating_run.
  - exact Hi.
  - rewrite Hcall. exact Hex.
  - exact Hex.
  - apply move_from. vm_compute. reflexivity.
  - destruct (auth_sessions (published σ_rotated) !! 401) as [s|] eqn:Hs; [|vm_compute in Hs; discriminate].
    exists s. pose proof Hs as Hs'. vm_compute in Hs'. injection Hs' as Hs'.
    split; [reflexivity|]. split; [by rewrite <- Hs'|]. split; [rewrite <- Hs'; vm_compute; reflexivity|].
    eapply (Hdead []); [reflexivity|exact Hs|by rewrite <- Hs'|].
    assert (HumanUser.auth_epoch <$> human_users (published σ_rotating) !! "operator-1" = Some 1) as He
      by (vm_compute; reflexivity).
    rewrite Hu in He. injection He as ->. by rewrite <- Hs'.
Defined.

(** *** A session check holds its row *)

Definition checking : list move :=
  [Committing 1; Single (InsertCeremony (login_ceremony 103)) 0 35; Begin 4 login_call] ++ statements 4 4 ++
  [Committing 4; Begin 6 (GetSession (secret 2) 50 600)] ++ statements 6 1.

Definition σ_locked : Server := from σ_first checking.
Definition σ_checked : Server := from σ_locked (statements 6 1).

(** The logout waits for the row the check has locked, and goes on after it. *)
Example logout_waits :
  moves σ_locked (Single (DeleteSession (secret 2)) 0 55) = None ∧
  goes σ_checked [Committing 6; Single (DeleteSession (secret 2)) 0 55] = true.
Proof. split; vm_compute; reflexivity. Qed.

Lemma concurrent_session_check_witness :
  ∃ c s, clients σ_checked !! 6%nat = Some c ∧ checks (call_of c) = Some (secret 2, 50) ∧
    auth_sessions (published σ_checked) !! 401 = Some s ∧ acceptable (published σ_checked) (secret 2) 50 s.
Proof.
  destruct (clients σ_checked !! 6%nat) as [c|] eqn:Hi; [|vm_compute in Hi; discriminate].
  assert (checks (call_of c) = Some (secret 2, 50)) as Hcall.
  { apply (fmap_client _ _ _ (λ c, checks (call_of c)) _ Hi). vm_compute. reflexivity. }
  destruct (auth_sessions (writes c) !! 401) as [s'|] eqn:Hw.
  - destruct (concurrent_session_check true empty_db (two_bootstraps ++ checking ++ statements 6 1) σ_checked 6 c
      (secret 2) 50 401 s' (from σ_checked [Committing 6])) as (s & Hs & Ha).
    + apply empty_db_wf.
    + rewrite app_assoc, run_app, (run_then _ two_bootstraps checking) by (vm_compute; reflexivity).
      apply (run_from σ_locked). vm_compute. reflexivity.
    + exact Hi.
    + exact Hcall.
    + exact Hw.
    + apply move_from. vm_compute. reflexivity.
    + exists c, s. split; [reflexivity|]. split; [exact Hcall|]. split; [exact Hs|exact Ha].
  - exfalso.
    assert (bool_decide (is_Some (auth_sessions (writes c) !! 401)) = true) as Hb.
    { apply (fmap_client _ _ _ (λ c, bool_decide (is_Some (auth_sessions (writes c) !! 401))) _ Hi).
      vm_compute. reflexivity. }
    apply bool_decide_eq_true_1 in Hb as [s' Hs']. by rewrite Hs' in Hw.
Defined.

(** *** What is found at a commit

    The first bootstrap finds its ceremony open; the glass is broken for the passkey that it has
    registered, while the second bootstrap waits. *)

Definition σ_glass : Server := from σ_registered (Begin 3 glass :: statements 3 7).

Lemma concurrent_commits_find_live_witness :
  moves σ_glass (Committing 3) = Some (from σ_glass [Committing 3]) ∧
  length (needs glass) = 2%nat ∧ ∀ n, n ∈ needs glass → meets (published σ_glass) n.
Proof.
  assert (moves σ_glass (Committing 3) = Some (from σ_glass [Committing 3])) as Hm
    by (apply move_from; vm_compute; reflexivity).
  split; [exact Hm|]. split; [reflexivity|].
  destruct (clients σ_glass !! 3%nat) as [c|] eqn:Hi.
  - assert (call_of c = glass) as Hcall
      by (apply (fmap_client _ _ _ call_of _ Hi); vm_compute; reflexivity).
    rewrite <- Hcall.
    apply (concurrent_commits_find_live true empty_db (two_bootstraps ++ [Committing 1] ++ Begin 3 glass :: statements 3 7)
             σ_glass 3 c (from σ_glass [Committing 3])).
    + apply empty_db_wf.
    + rewrite app_assoc, run_app, (run_then _ two_bootstraps [Committing 1]) by (vm_compute; reflexivity).
      apply (run_from σ_registered). vm_compute. reflexivity.
    + exact Hi.
    + exact Hm.
  - exfalso. vm_compute in Hi. discriminate.
Defined.

(** *** Serial calls *)

Lemma serial_call_runs :
  let w := (perform true (InsertUser sample_operator 10 seeded_event) initial_world).2 in
  ∃ ms σ, run (idle empty_db) ms = Some σ ∧ published σ = db w ∧ clients σ = ∅ ∧
    is_Some (human_users (published σ) !! "operator-1").
Proof.
  intros w. destruct (serial_executions_are_runs true initial_world w) as (ms & σ & Hr & Hp & Hc).
  - apply empty_db_wf.
  - apply rtc_once. eapply (step_call _ (InsertUser sample_operator 10 seeded_event));
      [reflexivity|by apply surjective_pairing].
  - exists ms, σ. split; [exact Hr|]. split; [exact Hp|]. split; [exact Hc|]. rewrite Hp.
    apply (bool_decide_unpack _). vm_compute. reflexivity.
Qed.
