(* ===== verification/BodiesScenario.v ===== *)
(** * BodiesScenario: the witness of the ceremonies over JSON

    A concrete visitor of structs, and the bootstrap of [AuthScenario.v]'s operator as a client sees it. *)
From S2P Require Export Bodies.
From S2P Require Import ServerScenario SessionScenario Wire Instances.

#[local] Existing Instance sample_http.
#[local] Existing Instance sample_instants.
#[local] Existing Instance sample_chrono.
#[local] Existing Instance ServerScenario.sample_store.
#[local] Existing Instance sample_entropy.
#[local] Existing Instance sample_engine.
#[local] Existing Instance sample_uuid_text.

#[export] Instance value_fields : BodyDe := {
  de_bool v := match v with Bool b => Some b | _ => None end;
  de_fields names v := match v with
    | Object es => mapM (λ name, field_of name es) names
    | Array vs =>
        if bool_decide (length vs ≤ length names)%nat
        then Some ((Some <$> vs) ++ replicate (length names - length vs) None) else None
    | _ => None
    end;
}.

#[export] Instance value_fields_laws : BodyDeLaws.
Proof.
  split; simpl.
  - intros [| b' | | | |] b; naive_solver.
  - done.
  - intros names [| | | |vs|es] fs; try done; [|eauto]. case_bool_decide; [|done]. intros [= <-]. eauto.
Qed.

#[local] Existing Instance sample_uuid_text_laws.

Notation bootstrap_started :=
  (Handlers.operator_bootstrap_start (HM := Headers) (HV := string) cfg origin json_headers w_seeded).

(** What the page sends back: the entries in another order, and one that the server does not know. *)
Definition finish_entries : list (string * Value) :=
  [("client", Str "page"); ("ceremony_kind", Str "operator_bootstrap"); ("credential", Str "response");
   ("ceremony_id", Str (uuid_text 3))].

Definition started_response : Response string :=
  Response.mk 200 [] (Some (Object [("ceremony_id", Str (uuid_text 3)); ("ceremony_kind", Str "operator_bootstrap");
    ("public_key", Str "challenge")])).

Lemma finish_answers : answers started_response (Str "response") finish_entries.
Proof.
  eexists. split; [reflexivity|].
  change (known finish_names finish_entries) with
    [("ceremony_kind", Str "operator_bootstrap"); ("credential", Str "response"); ("ceremony_id", Str (uuid_text 3))].
  exact (Permutation_cons_append
    [("credential", Str "response"); ("ceremony_id", Str (uuid_text 3))] ("ceremony_kind", Str "operator_bootstrap")).
Qed.

Lemma ceremonies_cross_the_wire_witness :
  bootstrap_started.1 = Ok started_response ∧
  ∃ body, CeremonyFinish_deserialize (Object finish_entries) = Some body.
Proof.
  assert (bootstrap_started.1 = Ok started_response) as Hr by (vm_compute; reflexivity).
  split; [exact Hr|].
  destruct (ceremonies_cross_the_wire (HV := string) cfg origin json_headers w_seeded started_response
    bootstrap_started.2) as (_ & _ & H & _).
  destruct (H (eq_trans (surjective_pairing _) (f_equal (λ x, (x, bootstrap_started.2)) Hr)))
    as (id & challenge & kind & now & w1 & Hn & Hs & _ & Hread).
  assert (∃ w, utc_now w_seeded = (Ok 10, w) ∧
    (start_operator_bootstrap cfg 10 w).1 = Ok (3, Str "challenge", OperatorBootstrap)) as (w & Hu & Hid)
    by (eexists; split; vm_compute; reflexivity).
  rewrite Hu in Hn. injection Hn as <- <-. rewrite Hs in Hid. injection Hid as -> _ _.
  destruct (Hread (Str "response") finish_entries) as (body & Hbody & _).
  - split; [discriminate|reflexivity].
  - exact finish_answers.
  - exists body. exact Hbody.
Defined.
